(* ===== verification/_CoqProject ===== *)
-Q . S2P
Prelude.v
Job.v
JobQueue.v
Protocol.v
WorkerRegistry.v
ProtocolProofs.v
Framing.v
Scheduler.v
SchedulerProofs.v
Wal.v
WalProofs.v
WalWriter.v
Disk.v
SimDisk.v
WriterProofs.v
WalReplay.v
ReplayProofs.v
ReplayDisk.v
CoordinatorStore.v
StoreProofs.v
Durability.v
StoreRecovery.v
CoordinatorStats.v
StatsProofs.v
Text.v
Net.v
NetLaws.v
SimNet.v
NetProofs.v
Log.v
Task.v
TaskProofs.v
Worker.v
WorkerProofs.v
Cli.v
Machine.v
StoreSteps.v
Client.v
ReplyProofs.v
CliProofs.v
TimingProofs.v
ClientProofs.v
Coordinator.v
CoordinatorProofs.v
ProcessProofs.v
SchedulingProofs.v
