(* ===== verification/Prelude.v ===== *)
(** * Faultline: a verification library

    Faultline is a small distributed job system in C. A coordinator accepts jobs from a command line
    client, keeps them in a write-ahead log, hands them to workers over TCP and recovers them after a
    crash; a worker registers, sends heartbeats, runs one task at a time on a thread and reports; the client
    submits jobs and shows their state. This library models all three programs and proves what makes
    them correct. Paths below are relative to the root of the repository of Faultline.

    ** The programs and where they are modelled

    - Jobs. [Job] is [include/job.h] and [src/coordinator/job.c]: the record, the transition table and
      the operations on it. [JobQueue] is the ring of pending IDs ([job_queue.c]). [WorkerRegistry] is the
      table of workers with its ID allocator ([worker_registry.c]). [Scheduler] composes the three
      ([scheduler.c]): submit, assign, report, worker lost, find, active.
    - Protocol. [Protocol] is [src/common/protocol.c]: headers, the twenty messages, every rule of
      validation, encoding and decoding. [Framing] is the view of a byte stream as a sequence of frames.
    - Durability. [Wal] is the log format with its CRC-32 ([wal_format.c]); [WalWriter] writes it
      ([wal_writer.c]); [WalReplay] reads, checks and repairs it ([wal_replay.c]); [CoordinatorStore] is the
      store that logs each change before it publishes it ([coordinator_store.c]); [CoordinatorStats] are
      its counters ([coordinator_stats.c]).
    - The coordinator. [Client] has a connection with its buffers and the handlers of all messages,
      [Coordinator] the event loop, heartbeat expiry, scheduling, options and start of the process
      (both [src/coordinator/main.c]).
    - The worker. [Task] has the four tasks ([src/worker/task.c]), [Worker] the process
      ([src/worker/main.c]).
    - The client. [Cli] has the commands with all that they print ([src/cli/main.c]).
    - Shared helpers. [Net] has the network helpers ([src/common/net.c]), [Log] the structured log
      ([src/common/log.c]), [Text] C strings and the conversions of [printf].

    Definitions keep the names of the source. A struct is a [Record], an enumeration an [Inductive] with a
    constructor for values outside of it where the code can meet them, and a function takes
    what it reads and returns what it writes. Integers are [Z] with the wrap-around of their C type
    written out where it can happen, buffers are lists of bytes, error codes are values.

    ** The operating system

    System calls are the fields of records that the programs take as arguments, each a function of an
    abstract world: [wal_os] (WalWriter) for files, [net_os] (Net) for sockets, clocks, signals and
    streams, [task_os] (Task) for the cancellation flag and sleeping, [thread_os] (Worker) for threads.
    What the code relies on are type classes over these records, which state documented behaviour:
    [OsFinite] and the laws of a disk in [Disk], [NetFinite] and [Net] in [NetLaws], [TaskLaws] in [TaskProofs],
    [ThreadLaws] in [WorkerProofs], [NetPrompt] in [TimingProofs], which bounds the time that a call takes, and
    [Machine], which says that calls on the disk and on the network do not interfere. Calls may fail, be interrupted or transfer less than asked at any point. A kill is the
    run in which all later calls fail, and the disk laws say which contents may be found then. [SimDisk], [SimNet]
    and [Machine] have executable worlds that satisfy the classes; the witnesses run the programs on them.

    ** What is proved

    - The state machine ([Job], [JobQueue], [WorkerRegistry], [SchedulerProofs]): every operation keeps the
      records well formed, the ring implements a FIFO, IDs are never used twice, at most one outcome of an
      attempt is accepted, accepted jobs are never lost, retries end.
    - The codecs ([ProtocolProofs], [WalProofs], [Framing]): decoding inverts encoding, what is accepted is
      canonical, prefixes are reported as incomplete and damaged records are rejected.
    - The log ([WriterProofs], [ReplayProofs], [ReplayDisk]): an acknowledged append survives a crash; recovery
      returns exactly the job state of the longest history in the file, drops only an incomplete last
      record, and refuses logs that are damaged elsewhere.
    - The store ([StoreProofs], [Durability], [StoreRecovery]): what is published is what recovery brings
      back, for a kill at every point; opening fails exactly the jobs that were with a worker and logs
      exactly these losses; a store that has failed changes no more.
    - The statistics ([StatsProofs]): every counter is the number it names, without overflow.
    - The coordinator ([StoreSteps], [ReplyProofs], [ClientProofs], [CoordinatorProofs], [ProcessProofs],
      [SchedulingProofs]): an invariant that relates connections, registry and jobs holds through every run of
      the process; every reply can be encoded; a job whose submission was acknowledged is found after any
      later crash; no job waits while a worker is ready, and silent workers are given up in time.
    - The tasks and the worker ([TaskProofs], [WorkerProofs]): the answers are the mathematical ones, and the
      bytes that a worker sends are whole frames of a truthful conversation, up to the start of its next
      message if a send has failed.
    - The client ([CliProofs]): the parsers read what the text says, an answer is accepted exactly if it is a
      whole valid frame of the right type, [submit] claims success only with an acknowledgement, and [status]
      shows the record of the coordinator's scheduler or fails for a stated cause.
    - The network helpers and the log lines ([NetProofs], [Log]): transfers are exact in spite of interruptions,
      escaped text is unambiguous.
    - Time ([TimingProofs]): transfers, the waits of the worker and its registration end by their deadlines up
      to a fixed number of call delays, and fail only because the time is over, a stop was requested or a
      call failed.

    ** Fuel

    Loops over data recurse on the data. The code retries interrupted system calls without limit; these
    loops run on fuel that the world supplies ([os_interrupts], [os_unread], [os_transients]), and under [OsFinite]
    and [NetFinite] each satisfies the equation of the loop of the source ([wait_ready_eq], [send_from_eq],
    [recv_from_eq], [wait_eq], [ack_from_eq] and the like), so the fuel never runs out. Waits until a deadline
    add the milliseconds left ([WorkerProofs]). The event loop of the coordinator
    and the loop of the worker run until they are stopped: [run_rounds] and [worker_rounds] make a given
    number of iterations and return [None] if the loop is still running; their theorems hold for
    every number. [print_uint] has one unit for each binary digit.

    ** Not modelled

    - The bodies of the one-line wrappers around system calls in [wal_writer.c], the signal handlers and
      [setvbuf]: their effect is that of the fields of [wal_os] and [net_os].
    - The saving and restoring of [errno] around cleanup: an error is a value here. The locking of a stream
      by the log: only one thread of a process prints.
    - The interleaving of the task's thread with that of the worker beyond its two flags: the result is
      read after the thread was joined, so it is computed from the world that the thread sees.
    - Pointers that are never NULL at the calls in the repository are not options.
    - Arithmetic on [double] in [print_stats] is that of binary64 with every operation rounded to nearest,
      without extended precision.
    - Tests, demonstrations and benchmarks. *)

From stdpp Require Export base tactics numbers list option sorting relations.
From stdpp Require Export list_numbers.
From Stdlib Require Export ZArith Lia.

#[global] Open Scope Z_scope.

(** ** Field update

    [r <| proj := v |>] is the C assignment [r->proj = v]: every record of the
    development declares an instance of [Setter] for each field that is
    assigned after construction. *)

Class Setter {R E : Type} (proj : R -> E) := set_field : E -> R -> R.

Declare Scope faultline_scope.
Delimit Scope faultline_scope with faultline.
#[global] Open Scope faultline_scope.

Notation "r <| proj := v |>" := (set_field (proj := proj) v r)
  (at level 1, left associativity, format "r  <|  proj  :=  v  |>") : faultline_scope.

(** ** Machine integers

    An unsigned [w]-bit value is a [Z] in [0, 2^w); conversions to a narrower
    type and arithmetic that can wrap are written with [u8] .. [u64]. *)

Definition u8 (z : Z) : Z := z mod 2 ^ 8.
Definition u16 (z : Z) : Z := z mod 2 ^ 16.
Definition u32 (z : Z) : Z := z mod 2 ^ 32.
Definition u64 (z : Z) : Z := z mod 2 ^ 64.

Definition UINT16_MAX : Z := 2 ^ 16 - 1.
Definition UINT32_MAX : Z := 2 ^ 32 - 1.
Definition UINT64_MAX : Z := 2 ^ 64 - 1.
Definition INT64_MAX : Z := 2 ^ 63 - 1.
Definition INT_MAX : Z := 2 ^ 31 - 1.

(** The conversion of an [int64_t] to [uint64_t] is [u64]; this is its inverse. *)
Definition i64 (z : Z) : Z := if u64 z <=? INT64_MAX then u64 z else u64 z - 2 ^ 64.

Definition in_u8 (z : Z) : Prop := 0 <= z < 2 ^ 8.
Definition in_u16 (z : Z) : Prop := 0 <= z < 2 ^ 16.
Definition in_u32 (z : Z) : Prop := 0 <= z < 2 ^ 32.
Definition in_u64 (z : Z) : Prop := 0 <= z < 2 ^ 64.
Definition in_i64 (z : Z) : Prop := - 2 ^ 63 <= z < 2 ^ 63.

Definition bytes_ok (l : list Z) : Prop := Forall in_u8 l.

Notation "a '!=?' b" := (negb (a =? b)) (at level 70, no associativity) : faultline_scope.

(** ** Tactics *)

(** Unfold every machine-integer bound to literals, for [lia]. *)
Ltac unfold_ints :=
  unfold in_u8, in_u16, in_u32, in_u64, in_i64,
    UINT16_MAX, UINT32_MAX, UINT64_MAX, INT64_MAX, INT_MAX in *;
  change (2 ^ 8) with 256 in *; change (2 ^ 16) with 65536 in *;
  change (2 ^ 32) with 4294967296 in *; change (2 ^ 31) with 2147483648 in *;
  change (2 ^ 64) with 18446744073709551616 in *;
  change (2 ^ 63) with 9223372036854775808 in *.

(** Comparisons that are known to hold or fail, as propositions. *)
Ltac reflect_bools :=
  repeat match goal with
  | H : (_ <? _) = true |- _ => apply Z.ltb_lt in H
  | H : (_ <? _) = false |- _ => apply Z.ltb_ge in H
  | H : (_ <=? _) = true |- _ => apply Z.leb_le in H
  | H : (_ <=? _) = false |- _ => apply Z.leb_gt in H
  | H : (_ =? _) = true |- _ => apply Z.eqb_eq in H
  | H : (_ =? _) = false |- _ => apply Z.eqb_neq in H
  end.

Ltac ilia := unfold_ints; reflect_bools; lia.

(** Case analysis on the conditions and switches of a translated function. *)
Ltac case_matches := repeat (case_match; simplify_eq/=; try done).

(** Split a conjunction of hypotheses or of booleans that are known to hold. *)
Ltac split_bools :=
  repeat match goal with
  | H : (_ && _)%bool = true |- _ => apply andb_prop in H as [? ?]
  | H : (_ || _)%bool = false |- _ => apply orb_false_iff in H as [? ?]
  | H : negb _ = true |- _ => apply negb_true_iff in H
  | H : negb _ = false |- _ => apply negb_false_iff in H
  end.

Create HintDb faultline discriminated.

(** ** Wrap-around *)

Lemma u8_range z : in_u8 (u8 z).
Proof. unfold u8, in_u8. apply Z.mod_pos_bound. done. Qed.

Lemma u16_range z : in_u16 (u16 z).
Proof. unfold u16, in_u16. apply Z.mod_pos_bound. done. Qed.

Lemma u32_range z : in_u32 (u32 z).
Proof. unfold u32, in_u32. apply Z.mod_pos_bound. done. Qed.

Lemma u64_range z : in_u64 (u64 z).
Proof. unfold u64, in_u64. apply Z.mod_pos_bound. done. Qed.

Lemma u8_id z : in_u8 z -> u8 z = z.
Proof. apply Z.mod_small. Qed.

Lemma u16_id z : in_u16 z -> u16 z = z.
Proof. apply Z.mod_small. Qed.

Lemma u32_id z : in_u32 z -> u32 z = z.
Proof. apply Z.mod_small. Qed.

Lemma u64_id z : in_u64 z -> u64 z = z.
Proof. apply Z.mod_small. Qed.

Lemma i64_u64 z : in_i64 z -> i64 (u64 z) = z.
Proof.
  intros Hz. unfold i64. rewrite (u64_id (u64 z)) by apply u64_range.
  destruct (decide (0 <= z)).
  - rewrite u64_id by ilia. destruct (Z.leb_spec z INT64_MAX); ilia.
  - assert (u64 z = z + 2 ^ 64) as ->.
    { unfold u64. symmetry. apply Z.mod_unique with (-1); [left|]; ilia. }
    destruct (Z.leb_spec (z + 2 ^ 64) INT64_MAX); ilia.
Qed.

#[export] Hint Resolve u8_range u16_range u32_range u64_range : faultline.

(** ** Bit operations on disjoint fields *)

Lemma lor_shiftl_add a b n :
  0 <= n -> 0 <= b < 2 ^ n -> Z.lor (Z.shiftl a n) b = a * 2 ^ n + b.
Proof.
  intros Hn Hb. rewrite <- Z.shiftl_mul_pow2 by done.
  symmetry. apply Z.add_nocarry_lor. apply Z.bits_inj'. intros i Hi.
  rewrite Z.land_spec, Z.bits_0.
  destruct (decide (i < n)).
  - rewrite Z.shiftl_spec_low by done. done.
  - rewrite <- (Z.mod_small b (2 ^ n)) by done.
    rewrite Z.mod_pow2_bits_high by lia. apply andb_false_r.
Qed.

Lemma shiftr_div z n : 0 <= n -> Z.shiftr z n = z / 2 ^ n.
Proof. apply Z.shiftr_div_pow2. Qed.

(** ** Big-endian integers

    Both codecs of the program ([wal_format.c] and [protocol.c]) store integers
    most significant byte first. *)

Definition be16 (v : Z) : list Z := [u8 (Z.shiftr v 8); u8 v].

Definition be32 (v : Z) : list Z :=
  [u8 (Z.shiftr v 24); u8 (Z.shiftr v 16); u8 (Z.shiftr v 8); u8 v].

Definition be64 (v : Z) : list Z := be32 (u32 (Z.shiftr v 32)) ++ be32 (u32 v).

Definition un_be16 (l : list Z) : Z :=
  u16 (Z.lor (Z.shiftl (l !!! 0%nat) 8) (l !!! 1%nat)).

Definition un_be32 (l : list Z) : Z :=
  Z.lor (u32 (Z.shiftl (l !!! 0%nat) 24))
    (Z.lor (u32 (Z.shiftl (l !!! 1%nat) 16))
       (Z.lor (u32 (Z.shiftl (l !!! 2%nat) 8)) (l !!! 3%nat))).

Definition un_be64 (l : list Z) : Z :=
  Z.lor (u64 (Z.shiftl (un_be32 l) 32)) (un_be32 (drop 4 l)).

Lemma be16_bytes_ok v : bytes_ok (be16 v).
Proof. unfold be16. repeat constructor; apply u8_range. Qed.

Lemma be32_bytes_ok v : bytes_ok (be32 v).
Proof. unfold be32. repeat constructor; apply u8_range. Qed.

Lemma be64_bytes_ok v : bytes_ok (be64 v).
Proof. apply Forall_app; split; apply be32_bytes_ok. Qed.

Lemma un_be16_bytes a b rest :
  in_u8 a -> in_u8 b -> un_be16 (a :: b :: rest) = a * 256 + b.
Proof.
  intros Ha Hb. unfold un_be16. cbn. rewrite lor_shiftl_add by ilia.
  apply u16_id. ilia.
Qed.

Lemma un_be32_bytes a b c d rest :
  in_u8 a -> in_u8 b -> in_u8 c -> in_u8 d ->
  un_be32 (a :: b :: c :: d :: rest) = a * 16777216 + b * 65536 + c * 256 + d.
Proof.
  intros Ha Hb Hc Hd. unfold un_be32. cbn.
  rewrite !(u32_id (Z.shiftl _ _)) by (rewrite Z.shiftl_mul_pow2 by lia; ilia).
  rewrite (lor_shiftl_add c d) by ilia.
  rewrite (lor_shiftl_add b) by ilia.
  rewrite (lor_shiftl_add a) by ilia. lia.
Qed.

Lemma un_be32_range l : bytes_ok (take 4 l) -> (4 <= length l)%nat -> in_u32 (un_be32 l).
Proof.
  intros Hl Hlen. destruct l as [|a [|b [|c [|d l]]]]; simpl in *; try lia.
  repeat match goal with H : bytes_ok _ |- _ => apply Forall_cons in H as [? ?] end.
  unfold bytes_ok in *.
  repeat match goal with H : Forall _ (_ :: _) |- _ => apply Forall_cons in H as [? ?] end.
  rewrite un_be32_bytes by done. ilia.
Qed.

Lemma un_be16_be16 v rest : in_u16 v -> un_be16 (be16 v ++ rest) = v.
Proof.
  intros Hv. unfold be16. cbn [app].
  rewrite un_be16_bytes by apply u8_range.
  unfold u8. rewrite shiftr_div by lia. unfold_ints.
  Z.div_mod_to_equations. lia.
Qed.

Lemma un_be32_be32 v rest : in_u32 v -> un_be32 (be32 v ++ rest) = v.
Proof.
  intros Hv. unfold be32. cbn [app].
  rewrite un_be32_bytes by apply u8_range.
  unfold u8. rewrite !shiftr_div by lia. unfold_ints.
  change (2 ^ 24) with 16777216 in *. Z.div_mod_to_equations. lia.
Qed.

Lemma un_be64_app a b rest :
  in_u32 a -> in_u32 b -> un_be64 (be32 a ++ be32 b ++ rest) = a * 2 ^ 32 + b.
Proof.
  intros Ha Hb. unfold un_be64. rewrite un_be32_be32 by done.
  change (drop 4 (be32 a ++ be32 b ++ rest)) with (be32 b ++ rest).
  rewrite un_be32_be32 by done.
  rewrite u64_id by (rewrite Z.shiftl_mul_pow2 by lia; ilia).
  apply lor_shiftl_add; [lia | done].
Qed.

Lemma un_be64_be64 v rest : in_u64 v -> un_be64 (be64 v ++ rest) = v.
Proof.
  intros Hv. unfold be64. rewrite <- app_assoc.
  rewrite un_be64_app by apply u32_range.
  unfold u32. rewrite shiftr_div by lia. unfold_ints.
  Z.div_mod_to_equations. lia.
Qed.

(** The decoders invert the encoders and, on bytes, the encoders the decoders. *)
Lemma be16_un_be16 a b rest :
  in_u8 a -> in_u8 b -> be16 (un_be16 (a :: b :: rest)) = [a; b].
Proof.
  intros Ha Hb. rewrite un_be16_bytes by done. unfold be16, u8.
  rewrite !shiftr_div by lia. unfold_ints. repeat f_equal; Z.div_mod_to_equations; lia.
Qed.

Lemma be32_un_be32 a b c d rest :
  in_u8 a -> in_u8 b -> in_u8 c -> in_u8 d ->
  be32 (un_be32 (a :: b :: c :: d :: rest)) = [a; b; c; d].
Proof.
  intros Ha Hb Hc Hd. rewrite un_be32_bytes by done. unfold be32, u8.
  rewrite !shiftr_div by lia. unfold_ints. change (2 ^ 24) with 16777216.
  repeat f_equal; Z.div_mod_to_equations; lia.
Qed.

Lemma bytes_ok_app l k : bytes_ok (l ++ k) <-> bytes_ok l /\ bytes_ok k.
Proof. apply Forall_app. Qed.

Lemma bytes_ok_take n l : bytes_ok l -> bytes_ok (take n l).
Proof. apply Forall_take. Qed.

Lemma bytes_ok_drop n l : bytes_ok l -> bytes_ok (drop n l).
Proof. apply Forall_drop. Qed.

#[export] Hint Resolve be16_bytes_ok be32_bytes_ok be64_bytes_ok bytes_ok_take bytes_ok_drop
  : faultline.

(** Prove that a concatenation of encoded fields is made of bytes. *)
Ltac bytes_fields :=
  repeat match goal with |- bytes_ok (_ ++ _) => apply bytes_ok_app; split end;
  auto with faultline.

Ltac split_bytes :=
  unfold bytes_ok in *;
  repeat match goal with H : Forall _ (_ :: _) |- _ => apply Forall_cons in H as [? ?] end.

Lemma be16_read l : bytes_ok l -> (2 <= length l)%nat -> be16 (un_be16 l) = take 2 l.
Proof.
  intros Hl Hlen. destruct l as [|a [|b l]]; simpl in Hlen; try lia. split_bytes.
  by apply be16_un_be16.
Qed.

Lemma be32_read l : bytes_ok l -> (4 <= length l)%nat -> be32 (un_be32 l) = take 4 l.
Proof.
  intros Hl Hlen. destruct l as [|a [|b [|c [|d l]]]]; simpl in Hlen; try lia. split_bytes.
  by apply be32_un_be32.
Qed.

Lemma un_be16_range l : in_u16 (un_be16 l).
Proof. apply u16_range. Qed.

Lemma un_be32_read_range l : bytes_ok l -> (4 <= length l)%nat -> in_u32 (un_be32 l).
Proof. intros. apply un_be32_range; auto with faultline. Qed.

Lemma un_be64_split l :
  bytes_ok l -> (8 <= length l)%nat ->
  un_be64 l = un_be32 l * 2 ^ 32 + un_be32 (drop 4 l).
Proof.
  intros Hl Hlen. unfold un_be64.
  assert (in_u32 (un_be32 l)) by (apply un_be32_read_range; [done|lia]).
  assert (in_u32 (un_be32 (drop 4 l))).
  { apply un_be32_read_range; [auto with faultline|]. rewrite length_drop. lia. }
  rewrite u64_id by (rewrite Z.shiftl_mul_pow2 by lia; ilia).
  apply lor_shiftl_add; [lia | done].
Qed.

Lemma un_be64_range l : bytes_ok l -> (8 <= length l)%nat -> in_u64 (un_be64 l).
Proof.
  intros Hl Hlen. rewrite un_be64_split by done.
  assert (in_u32 (un_be32 l)) by (apply un_be32_read_range; [done|lia]).
  assert (in_u32 (un_be32 (drop 4 l))).
  { apply un_be32_read_range; [auto with faultline|]. rewrite length_drop. lia. }
  ilia.
Qed.

Lemma be64_read l : bytes_ok l -> (8 <= length l)%nat -> be64 (un_be64 l) = take 8 l.
Proof.
  intros Hl Hlen. rewrite un_be64_split by done. unfold be64.
  assert (in_u32 (un_be32 l)) by (apply un_be32_read_range; [done|lia]).
  assert (in_u32 (un_be32 (drop 4 l))).
  { apply un_be32_read_range; [auto with faultline|]. rewrite length_drop. lia. }
  replace (u32 (Z.shiftr _ 32)) with (un_be32 l)
    by (rewrite shiftr_div by lia; unfold u32; unfold_ints; Z.div_mod_to_equations; lia).
  replace (u32 _) with (un_be32 (drop 4 l))
    by (unfold u32; unfold_ints; Z.div_mod_to_equations; lia).
  rewrite !be32_read; try (rewrite ?length_drop; lia); auto with faultline.
  by rewrite take_take_drop.
Qed.

(** Reading past an encoded integer. *)
Lemma drop_be16 n v rest : drop (S (S n)) (be16 v ++ rest) = drop n rest.
Proof. done. Qed.

Lemma drop_be32 n v rest : drop (S (S (S (S n)))) (be32 v ++ rest) = drop n rest.
Proof. done. Qed.

Lemma drop_be64 n v rest :
  drop (S (S (S (S (S (S (S (S n)))))))) (be64 v ++ rest) = drop n rest.
Proof. done. Qed.

(** Adjacent slices join. *)
Lemma slices_join {A} (l : list A) o o' n m :
  o' = (o + n)%nat -> take n (drop o l) ++ take m (drop o' l) = take (n + m) (drop o l).
Proof. intros ->. rewrite <- drop_drop. apply take_take_drop. Qed.

Create Rewrite HintDb be.

#[export] Hint Rewrite un_be16_be16 un_be32_be32 un_be64_be64
  using (first [done | ilia | auto with faultline]) : be.
#[export] Hint Rewrite drop_be16 drop_be32 drop_be64 @drop_0 : be.

(** ** Lists as C arrays *)

Lemma nonempty_length {A} (l : list A) : l <> [] -> (0 < length l)%nat.
Proof. destruct l; simpl; [done|lia]. Qed.

Lemma lookup_total_lt {A} `{Inhabited A} (l : list A) i :
  (i < length l)%nat -> l !! i = Some (l !!! i).
Proof. intros Hi. apply list_lookup_lookup_total_lt. done. Qed.

Lemma take_insert_in {A} (l : list A) n i x :
  (i < n)%nat -> take n (<[i:=x]> l) = <[i:=x]> (take n l).
Proof. intros. apply take_insert_lt. done. Qed.

Lemma take_insert_snoc {A} (l : list A) n x :
  (n < length l)%nat -> take (S n) (<[n:=x]> l) = take n l ++ [x].
Proof.
  intros Hn. rewrite (take_S_r _ _ x).
  - rewrite take_insert_ge by lia. done.
  - apply list_lookup_insert_eq. done.
Qed.

Lemma NoDup_snoc {A} (l : list A) x : NoDup l -> x ∉ l -> NoDup (l ++ [x]).
Proof.
  intros Hl Hx. apply NoDup_app. split_and!; [done| |apply NoDup_singleton].
  set_solver.
Qed.


(** ** Result codes *)

Lemma fst_eq_iff {A B} (p : A * B) a : fst p = a <-> exists b, p = (a, b).
Proof. destruct p; naive_solver. Qed.

(** ** Linear search

    [first_index p l] is the position of the first element that satisfies [p],
    and [length l] when there is none: the C idiom of returning the loop bound. *)

Fixpoint first_index {A} (p : A -> bool) (l : list A) : nat :=
  match l with
  | [] => 0%nat
  | x :: rest => if p x then 0%nat else S (first_index p rest)
  end.

Lemma first_index_le {A} (p : A -> bool) l : (first_index p l <= length l)%nat.
Proof. induction l; simpl; [done|]. case_match; lia. Qed.

Lemma first_index_lookup {A} (p : A -> bool) (l : list A) i x :
  first_index p l = i -> l !! i = Some x -> p x = true.
Proof.
  revert i. induction l as [|y l IH]; intros i Hi Hx; [done|]. simpl in Hi.
  destruct (p y) eqn:E; subst i; simpl in Hx; [naive_solver|]. by eapply IH.
Qed.

Lemma first_index_before {A} (p : A -> bool) (l : list A) i x :
  (i < first_index p l)%nat -> l !! i = Some x -> p x = false.
Proof.
  revert i. induction l as [|y l IH]; intros i Hi Hx; [done|]. simpl in Hi.
  destruct (p y) eqn:E; [lia|]. destruct i as [|i]; simpl in Hx; [naive_solver|].
  apply (IH i); [lia|done].
Qed.

Lemma first_index_none {A} (p : A -> bool) (l : list A) :
  first_index p l = length l <-> forall x, x ∈ l -> p x = false.
Proof.
  induction l as [|y l IH]; simpl; [set_solver|].
  destruct (p y) eqn:E.
  - split; [lia|]. intros H. rewrite H in E; [done|]. set_solver.
  - rewrite Nat.succ_inj_wd, IH. set_solver.
Qed.

Lemma first_index_some {A} (p : A -> bool) (l : list A) :
  (first_index p l < length l)%nat <-> exists x, x ∈ l /\ p x = true.
Proof.
  pose proof (first_index_le p l). pose proof (first_index_none p l) as Hn. split.
  - intros Hlt. destruct (lookup_lt_is_Some_2 l (first_index p l) Hlt) as [x Hx].
    exists x. split; [by eapply list_elem_of_lookup_2 | by eapply first_index_lookup].
  - intros (x & Hx & Hp). destruct (decide (first_index p l = length l)) as [E|]; [|lia].
    apply Hn in Hx; [congruence | done].
Qed.

(** With a key that is unique in the list, the search finds the keyed element. *)
Lemma first_index_unique {A} (p : A -> bool) (l : list A) i x :
  l !! i = Some x -> p x = true ->
  (forall k y, l !! k = Some y -> p y = true -> k = i) -> first_index p l = i.
Proof.
  intros Hx Hp Hu.
  assert (first_index p l < length l)%nat as Hlt.
  { apply first_index_some. exists x. split; [by eapply list_elem_of_lookup_2 | done]. }
  destruct (lookup_lt_is_Some_2 l _ Hlt) as [y Hy].
  apply (Hu _ y); [done|]. by eapply first_index_lookup.
Qed.

(** ** Errors as values

    A function with an out-parameter returns [inl error] or [inr value]; [let!] is
    the early return on error, and [refuse c with e in k] the guard
    [if (c) return e;]. *)

Notation "'let!' x ':=' e 'in' k" :=
  (match e with inl err => inl err | inr x => k end)
  (at level 10, x pattern, e at level 100, k at level 200,
   format "'[v' 'let!'  x  ':='  e  'in' '/' k ']'") : faultline_scope.

Notation "'refuse' c 'with' e 'in' k" := (if c then inl e else k)
  (at level 10, c at level 100, e at level 100, k at level 200,
   format "'[v' 'refuse'  c  'with'  e  'in' '/' k ']'") : faultline_scope.

(** Whether a value is one of the case labels of a switch. *)
Definition one_of (z : Z) (labels : list Z) : bool := existsb (Z.eqb z) labels.

(** The number of an enumerator, from the list of all of them in order. *)
Definition enum_code {A} `{EqDecision A} (enumerators : list A) (value : A) : Z :=
  Z.of_nat (first_index (fun x => bool_decide (x = value)) enumerators).
