(* ===== verification/Job.v ===== *)
(** Job records and their state machine: [include/job.h], [src/coordinator/job.c].

    [faultline_job] is the coordinator's record of one job. A buffer with its size
    ([arguments]/[argument_size], [result]/[result_size]) keeps both fields; the
    list holds the bytes in use, the first [size] bytes of the C array. The
    operations return the result code and the record, which on every error path
    is the record they were given. Pointers to records are the records; a data
    pointer that the code compares with NULL is an [option]. *)

From S2P Require Import Prelude.

(** ** Data *)

Definition FAULTLINE_JOB_MAX_ARGUMENT_SIZE : Z := 1024.
Definition FAULTLINE_JOB_MAX_RESULT_SIZE : Z := 1024.
Definition FAULTLINE_JOB_TIME_UNSET : Z := -1.

(** A C enumeration holds any integer: the last constructor of each of the three
    types below is a value outside of the enumerators, which only a cast makes. *)
Inductive faultline_task_type :=
| FAULTLINE_TASK_SLEEP
| FAULTLINE_TASK_PRIME_COUNT
| FAULTLINE_TASK_FIBONACCI
| FAULTLINE_TASK_HASH
| TASK_TYPE_OTHER (raw : Z).

Inductive faultline_job_state :=
| FAULTLINE_JOB_QUEUED
| FAULTLINE_JOB_ASSIGNED
| FAULTLINE_JOB_RUNNING
| FAULTLINE_JOB_DONE
| FAULTLINE_JOB_FAILED
| JOB_STATE_OTHER (raw : Z).

Inductive faultline_job_failure :=
| FAULTLINE_JOB_FAILURE_NONE
| FAULTLINE_JOB_FAILURE_TASK
| FAULTLINE_JOB_FAILURE_WORKER_LOST
| JOB_FAILURE_OTHER (raw : Z).

#[export] Instance faultline_task_type_eq_dec : EqDecision faultline_task_type.
Proof. solve_decision. Defined.
#[export] Instance faultline_job_state_eq_dec : EqDecision faultline_job_state.
Proof. solve_decision. Defined.
#[export] Instance faultline_job_failure_eq_dec : EqDecision faultline_job_failure.
Proof. solve_decision. Defined.

Definition task_type_value (t : faultline_task_type) : Z :=
  match t with
  | FAULTLINE_TASK_SLEEP => 1
  | FAULTLINE_TASK_PRIME_COUNT => 2
  | FAULTLINE_TASK_FIBONACCI => 3
  | FAULTLINE_TASK_HASH => 4
  | TASK_TYPE_OTHER raw => raw
  end.

Definition task_type_cast (z : Z) : faultline_task_type :=
  if z =? 1 then FAULTLINE_TASK_SLEEP
  else if z =? 2 then FAULTLINE_TASK_PRIME_COUNT
  else if z =? 3 then FAULTLINE_TASK_FIBONACCI
  else if z =? 4 then FAULTLINE_TASK_HASH
  else TASK_TYPE_OTHER z.

Definition job_state_value (s : faultline_job_state) : Z :=
  match s with
  | FAULTLINE_JOB_QUEUED => 1
  | FAULTLINE_JOB_ASSIGNED => 2
  | FAULTLINE_JOB_RUNNING => 3
  | FAULTLINE_JOB_DONE => 4
  | FAULTLINE_JOB_FAILED => 5
  | JOB_STATE_OTHER raw => raw
  end.

Definition job_state_cast (z : Z) : faultline_job_state :=
  if z =? 1 then FAULTLINE_JOB_QUEUED
  else if z =? 2 then FAULTLINE_JOB_ASSIGNED
  else if z =? 3 then FAULTLINE_JOB_RUNNING
  else if z =? 4 then FAULTLINE_JOB_DONE
  else if z =? 5 then FAULTLINE_JOB_FAILED
  else JOB_STATE_OTHER z.

Definition job_failure_value (f : faultline_job_failure) : Z :=
  match f with
  | FAULTLINE_JOB_FAILURE_NONE => 0
  | FAULTLINE_JOB_FAILURE_TASK => 1
  | FAULTLINE_JOB_FAILURE_WORKER_LOST => 2
  | JOB_FAILURE_OTHER raw => raw
  end.

Definition job_failure_cast (z : Z) : faultline_job_failure :=
  if z =? 0 then FAULTLINE_JOB_FAILURE_NONE
  else if z =? 1 then FAULTLINE_JOB_FAILURE_TASK
  else if z =? 2 then FAULTLINE_JOB_FAILURE_WORKER_LOST
  else JOB_FAILURE_OTHER z.

Record faultline_job := mk_job {
  job_id : Z;
  task_type : faultline_task_type;
  arguments : list Z;
  argument_size : Z;
  job_state : faultline_job_state;
  worker_id : Z;
  attempt : Z;
  retry_count : Z;
  max_retries : Z;
  created_at_ms : Z;
  updated_at_ms : Z;
  assigned_at_ms : Z;
  started_at_ms : Z;
  finished_at_ms : Z;
  result : list Z;
  result_size : Z;
  failure : faultline_job_failure;
}.

#[export] Instance set_job_state : Setter job_state := fun v j =>
  mk_job (job_id j) (task_type j) (arguments j) (argument_size j) v (worker_id j)
    (attempt j) (retry_count j) (max_retries j) (created_at_ms j) (updated_at_ms j)
    (assigned_at_ms j) (started_at_ms j) (finished_at_ms j) (result j) (result_size
    j) (failure j).
#[export] Instance set_worker_id : Setter worker_id := fun v j =>
  mk_job (job_id j) (task_type j) (arguments j) (argument_size j) (job_state j) v
    (attempt j) (retry_count j) (max_retries j) (created_at_ms j) (updated_at_ms j)
    (assigned_at_ms j) (started_at_ms j) (finished_at_ms j) (result j) (result_size
    j) (failure j).
#[export] Instance set_attempt : Setter attempt := fun v j =>
  mk_job (job_id j) (task_type j) (arguments j) (argument_size j) (job_state j)
    (worker_id j) v (retry_count j) (max_retries j) (created_at_ms j) (updated_at_ms
    j) (assigned_at_ms j) (started_at_ms j) (finished_at_ms j) (result j)
    (result_size j) (failure j).
#[export] Instance set_retry_count : Setter retry_count := fun v j =>
  mk_job (job_id j) (task_type j) (arguments j) (argument_size j) (job_state j)
    (worker_id j) (attempt j) v (max_retries j) (created_at_ms j) (updated_at_ms j)
    (assigned_at_ms j) (started_at_ms j) (finished_at_ms j) (result j) (result_size
    j) (failure j).
#[export] Instance set_updated_at_ms : Setter updated_at_ms := fun v j =>
  mk_job (job_id j) (task_type j) (arguments j) (argument_size j) (job_state j)
    (worker_id j) (attempt j) (retry_count j) (max_retries j) (created_at_ms j) v
    (assigned_at_ms j) (started_at_ms j) (finished_at_ms j) (result j) (result_size
    j) (failure j).
#[export] Instance set_assigned_at_ms : Setter assigned_at_ms := fun v j =>
  mk_job (job_id j) (task_type j) (arguments j) (argument_size j) (job_state j)
    (worker_id j) (attempt j) (retry_count j) (max_retries j) (created_at_ms j)
    (updated_at_ms j) v (started_at_ms j) (finished_at_ms j) (result j) (result_size
    j) (failure j).
#[export] Instance set_started_at_ms : Setter started_at_ms := fun v j =>
  mk_job (job_id j) (task_type j) (arguments j) (argument_size j) (job_state j)
    (worker_id j) (attempt j) (retry_count j) (max_retries j) (created_at_ms j)
    (updated_at_ms j) (assigned_at_ms j) v (finished_at_ms j) (result j)
    (result_size j) (failure j).
#[export] Instance set_finished_at_ms : Setter finished_at_ms := fun v j =>
  mk_job (job_id j) (task_type j) (arguments j) (argument_size j) (job_state j)
    (worker_id j) (attempt j) (retry_count j) (max_retries j) (created_at_ms j)
    (updated_at_ms j) (assigned_at_ms j) (started_at_ms j) v (result j) (result_size
    j) (failure j).
#[export] Instance set_result : Setter result := fun v j =>
  mk_job (job_id j) (task_type j) (arguments j) (argument_size j) (job_state j)
    (worker_id j) (attempt j) (retry_count j) (max_retries j) (created_at_ms j)
    (updated_at_ms j) (assigned_at_ms j) (started_at_ms j) (finished_at_ms j) v
    (result_size j) (failure j).
#[export] Instance set_result_size : Setter result_size := fun v j =>
  mk_job (job_id j) (task_type j) (arguments j) (argument_size j) (job_state j)
    (worker_id j) (attempt j) (retry_count j) (max_retries j) (created_at_ms j)
    (updated_at_ms j) (assigned_at_ms j) (started_at_ms j) (finished_at_ms j)
    (result j) v (failure j).
#[export] Instance set_failure : Setter failure := fun v j =>
  mk_job (job_id j) (task_type j) (arguments j) (argument_size j) (job_state j)
    (worker_id j) (attempt j) (retry_count j) (max_retries j) (created_at_ms j)
    (updated_at_ms j) (assigned_at_ms j) (started_at_ms j) (finished_at_ms j)
    (result j) (result_size j) v.

(** Zero-initialised storage (C [{0}]); enumerations are then 0 too. *)
Definition zero_job : faultline_job :=
  mk_job 0 (TASK_TYPE_OTHER 0) [] 0 (JOB_STATE_OTHER 0) 0 0 0 0 0 0 0 0 0 [] 0
    FAULTLINE_JOB_FAILURE_NONE.

#[export] Instance faultline_job_inhabited : Inhabited faultline_job := populate zero_job.

Inductive faultline_job_result :=
| FAULTLINE_JOB_OK
| FAULTLINE_JOB_INVALID_ARGUMENT
| FAULTLINE_JOB_PAYLOAD_TOO_LARGE
| FAULTLINE_JOB_INVALID_TRANSITION
| FAULTLINE_JOB_TIME_REVERSED
| FAULTLINE_JOB_WRONG_WORKER
| FAULTLINE_JOB_STALE_ATTEMPT.

#[export] Instance faultline_job_result_eq_dec : EqDecision faultline_job_result.
Proof. solve_decision. Defined.

(** ** Operations *)

Definition faultline_job_can_transition (from to : faultline_job_state) : bool :=
  match from with
  | FAULTLINE_JOB_QUEUED => bool_decide (to = FAULTLINE_JOB_ASSIGNED)
  | FAULTLINE_JOB_ASSIGNED =>
      bool_decide (to = FAULTLINE_JOB_RUNNING) || bool_decide (to = FAULTLINE_JOB_QUEUED) ||
      bool_decide (to = FAULTLINE_JOB_FAILED)
  | FAULTLINE_JOB_RUNNING =>
      bool_decide (to = FAULTLINE_JOB_DONE) || bool_decide (to = FAULTLINE_JOB_QUEUED) ||
      bool_decide (to = FAULTLINE_JOB_FAILED)
  | _ => false
  end.

Definition check_payload (data : option (list Z)) (size capacity : Z) : faultline_job_result :=
  if capacity <? size then FAULTLINE_JOB_PAYLOAD_TOO_LARGE
  else if bool_decide (data = None) && (size !=? 0) then FAULTLINE_JOB_INVALID_ARGUMENT
  else FAULTLINE_JOB_OK.

Definition check_transition (job : faultline_job) (next : faultline_job_state) (now_ms : Z) :
    faultline_job_result :=
  if now_ms <? 0 then FAULTLINE_JOB_INVALID_ARGUMENT
  else if negb (faultline_job_can_transition (job_state job) next) then
    FAULTLINE_JOB_INVALID_TRANSITION
  else if now_ms <? updated_at_ms job then FAULTLINE_JOB_TIME_REVERSED
  else FAULTLINE_JOB_OK.

Definition check_attempt (job : faultline_job) (worker att : Z) : faultline_job_result :=
  if (worker =? 0) || (att =? 0) then FAULTLINE_JOB_INVALID_ARGUMENT
  else if worker !=? worker_id job then FAULTLINE_JOB_WRONG_WORKER
  else if att !=? attempt job then FAULTLINE_JOB_STALE_ATTEMPT
  else FAULTLINE_JOB_OK.

(** [memcpy(destination, data, size)] into an empty buffer. *)
Definition copy_bytes (data : option (list Z)) (size : Z) : list Z :=
  take (Z.to_nat size) (default [] data).

Definition faultline_job_init (job : faultline_job) (id : Z) (task : faultline_task_type)
    (data : option (list Z)) (size : Z) (retries now_ms : Z) :
    faultline_job_result * faultline_job :=
  if (id =? 0) || (now_ms <? 0) || (task_type_value task <? task_type_value FAULTLINE_TASK_SLEEP)
     || (task_type_value FAULTLINE_TASK_HASH <? task_type_value task)
  then (FAULTLINE_JOB_INVALID_ARGUMENT, job)
  else
    match check_payload data size FAULTLINE_JOB_MAX_ARGUMENT_SIZE with
    | FAULTLINE_JOB_OK =>
        (FAULTLINE_JOB_OK,
         {| job_id := id; task_type := task; argument_size := size;
            arguments := if size !=? 0 then copy_bytes data size else [];
            job_state := FAULTLINE_JOB_QUEUED; max_retries := retries;
            created_at_ms := now_ms; updated_at_ms := now_ms;
            assigned_at_ms := FAULTLINE_JOB_TIME_UNSET;
            started_at_ms := FAULTLINE_JOB_TIME_UNSET;
            finished_at_ms := FAULTLINE_JOB_TIME_UNSET;
            worker_id := 0; attempt := 0; retry_count := 0;
            result := []; result_size := 0; failure := FAULTLINE_JOB_FAILURE_NONE |})
    | error => (error, job)
    end.

Definition faultline_job_assign (job : faultline_job) (worker now_ms : Z) :
    faultline_job_result * faultline_job :=
  match check_transition job FAULTLINE_JOB_ASSIGNED now_ms with
  | FAULTLINE_JOB_OK =>
      if worker =? 0 then (FAULTLINE_JOB_INVALID_ARGUMENT, job)
      else
        (FAULTLINE_JOB_OK,
         job <| job_state := FAULTLINE_JOB_ASSIGNED |>
             <| worker_id := worker |>
             <| attempt := u64 (attempt job + 1) |>
             <| assigned_at_ms := now_ms |>
             <| updated_at_ms := now_ms |>
             <| failure := FAULTLINE_JOB_FAILURE_NONE |>)
  | error => (error, job)
  end.

Definition faultline_job_start (job : faultline_job) (worker att now_ms : Z) :
    faultline_job_result * faultline_job :=
  match check_transition job FAULTLINE_JOB_RUNNING now_ms with
  | FAULTLINE_JOB_OK =>
      match check_attempt job worker att with
      | FAULTLINE_JOB_OK =>
          (FAULTLINE_JOB_OK,
           job <| job_state := FAULTLINE_JOB_RUNNING |>
               <| started_at_ms := now_ms |>
               <| updated_at_ms := now_ms |>)
      | error => (error, job)
      end
  | error => (error, job)
  end.

Definition faultline_job_complete (job : faultline_job) (worker att : Z)
    (data : option (list Z)) (size now_ms : Z) : faultline_job_result * faultline_job :=
  match check_transition job FAULTLINE_JOB_DONE now_ms with
  | FAULTLINE_JOB_OK =>
      match check_attempt job worker att with
      | FAULTLINE_JOB_OK =>
          match check_payload data size FAULTLINE_JOB_MAX_RESULT_SIZE with
          | FAULTLINE_JOB_OK =>
              (FAULTLINE_JOB_OK,
               job <| result := if size !=? 0 then copy_bytes data size else [] |>
                   <| result_size := size |>
                   <| job_state := FAULTLINE_JOB_DONE |>
                   <| finished_at_ms := now_ms |>
                   <| updated_at_ms := now_ms |>)
          | error => (error, job)
          end
      | error => (error, job)
      end
  | error => (error, job)
  end.

Definition faultline_job_fail (job : faultline_job) (worker att : Z)
    (reason : faultline_job_failure) (now_ms : Z) : faultline_job_result * faultline_job :=
  if bool_decide (reason <> FAULTLINE_JOB_FAILURE_TASK) &&
     bool_decide (reason <> FAULTLINE_JOB_FAILURE_WORKER_LOST)
  then (FAULTLINE_JOB_INVALID_ARGUMENT, job)
  else
    let next := if retry_count job <? max_retries job then FAULTLINE_JOB_QUEUED
                else FAULTLINE_JOB_FAILED in
    match check_transition job next now_ms with
    | FAULTLINE_JOB_OK =>
        match check_attempt job worker att with
        | FAULTLINE_JOB_OK =>
            let moved := job <| job_state := next |>
                             <| updated_at_ms := now_ms |>
                             <| failure := reason |> in
            (FAULTLINE_JOB_OK,
             if bool_decide (next = FAULTLINE_JOB_QUEUED) then
               moved <| retry_count := u32 (retry_count moved + 1) |>
                     <| worker_id := 0 |>
                     <| assigned_at_ms := FAULTLINE_JOB_TIME_UNSET |>
                     <| started_at_ms := FAULTLINE_JOB_TIME_UNSET |>
                     <| finished_at_ms := FAULTLINE_JOB_TIME_UNSET |>
             else moved <| finished_at_ms := now_ms |>)
        | error => (error, job)
        end
    | error => (error, job)
    end.

(** ** Well-formed records *)

Definition valid_task_type (t : faultline_task_type) : Prop :=
  match t with TASK_TYPE_OTHER _ => False | _ => True end.

Definition real_failure (f : faultline_job_failure) : Prop :=
  f = FAULTLINE_JOB_FAILURE_TASK \/ f = FAULTLINE_JOB_FAILURE_WORKER_LOST.

(** The owner, attempt and assignment time of a record that has left the queue. *)
Definition owned (j : faultline_job) : Prop :=
  0 < worker_id j <= UINT32_MAX /\ attempt j = retry_count j + 1 /\
  created_at_ms j <= assigned_at_ms j <= updated_at_ms j.

(** What each state says of the other fields. *)
Definition job_state_wf (j : faultline_job) : Prop :=
  match job_state j with
  | FAULTLINE_JOB_QUEUED =>
      worker_id j = 0 /\ attempt j = retry_count j /\ result_size j = 0 /\
      assigned_at_ms j = -1 /\ started_at_ms j = -1 /\ finished_at_ms j = -1 /\
      (retry_count j = 0 /\ failure j = FAULTLINE_JOB_FAILURE_NONE /\
         updated_at_ms j = created_at_ms j
       \/ retry_count j <> 0 /\ real_failure (failure j))
  | FAULTLINE_JOB_ASSIGNED =>
      owned j /\ failure j = FAULTLINE_JOB_FAILURE_NONE /\ result_size j = 0 /\
      updated_at_ms j = assigned_at_ms j /\ started_at_ms j = -1 /\ finished_at_ms j = -1
  | FAULTLINE_JOB_RUNNING =>
      owned j /\ failure j = FAULTLINE_JOB_FAILURE_NONE /\ result_size j = 0 /\
      assigned_at_ms j <= started_at_ms j /\ updated_at_ms j = started_at_ms j /\
      finished_at_ms j = -1
  | FAULTLINE_JOB_DONE =>
      owned j /\ failure j = FAULTLINE_JOB_FAILURE_NONE /\
      assigned_at_ms j <= started_at_ms j <= finished_at_ms j /\
      updated_at_ms j = finished_at_ms j
  | FAULTLINE_JOB_FAILED =>
      owned j /\ real_failure (failure j) /\ retry_count j = max_retries j /\
      result_size j = 0 /\
      (started_at_ms j = -1 \/ assigned_at_ms j <= started_at_ms j) /\
      assigned_at_ms j <= finished_at_ms j /\ started_at_ms j <= finished_at_ms j /\
      updated_at_ms j = finished_at_ms j
  | JOB_STATE_OTHER _ => False
  end.

Record job_wf (j : faultline_job) : Prop := {
  wf_id : 0 < job_id j <= UINT64_MAX;
  wf_task : valid_task_type (task_type j);
  wf_argument_size : argument_size j = Z.of_nat (length (arguments j));
  wf_argument_max : argument_size j <= FAULTLINE_JOB_MAX_ARGUMENT_SIZE;
  wf_argument_bytes : bytes_ok (arguments j);
  wf_result_size : result_size j = Z.of_nat (length (result j));
  wf_result_max : result_size j <= FAULTLINE_JOB_MAX_RESULT_SIZE;
  wf_result_bytes : bytes_ok (result j);
  wf_retries : 0 <= retry_count j <= max_retries j;
  wf_max_retries : max_retries j <= UINT32_MAX;
  wf_times : 0 <= created_at_ms j <= updated_at_ms j;
  wf_updated : updated_at_ms j <= INT64_MAX;
  wf_state : job_state_wf j;
}.

(** An [ASSIGNED] or [RUNNING] record: the ones a worker currently owns. *)
Definition active_state (s : faultline_job_state) : bool :=
  bool_decide (s = FAULTLINE_JOB_ASSIGNED) || bool_decide (s = FAULTLINE_JOB_RUNNING).

Definition terminal_state (s : faultline_job_state) : bool :=
  bool_decide (s = FAULTLINE_JOB_DONE) || bool_decide (s = FAULTLINE_JOB_FAILED).

(** One successful operation on a record. *)
Inductive job_step : faultline_job -> faultline_job -> Prop :=
| step_assign j worker now j' :
    faultline_job_assign j worker now = (FAULTLINE_JOB_OK, j') -> job_step j j'
| step_start j worker att now j' :
    faultline_job_start j worker att now = (FAULTLINE_JOB_OK, j') -> job_step j j'
| step_complete j worker att data size now j' :
    faultline_job_complete j worker att data size now = (FAULTLINE_JOB_OK, j') -> job_step j j'
| step_fail j worker att reason now j' :
    faultline_job_fail j worker att reason now = (FAULTLINE_JOB_OK, j') -> job_step j j'.

(** [job_run j n j']: [n] successful operations lead from [j] to [j']. *)
Inductive job_run : faultline_job -> nat -> faultline_job -> Prop :=
| run_refl j : job_run j 0 j
| run_step j1 j2 j3 n : job_step j1 j2 -> job_run j2 n j3 -> job_run j1 (S n) j3.

(** ** Guards *)

Lemma check_transition_ok j next now :
  check_transition j next now = FAULTLINE_JOB_OK <->
  0 <= now /\ faultline_job_can_transition (job_state j) next = true /\ updated_at_ms j <= now.
Proof.
  unfold check_transition. destruct (faultline_job_can_transition _ _); simpl;
    repeat case_match; split; intros; try done; destruct_and?; try lia; done.
Qed.

Lemma check_attempt_ok j worker att :
  check_attempt j worker att = FAULTLINE_JOB_OK <->
  worker <> 0 /\ att <> 0 /\ worker = worker_id j /\ att = attempt j.
Proof.
  unfold check_attempt. repeat case_match; split; intros; try done; lia.
Qed.

Lemma check_payload_ok data size capacity :
  check_payload data size capacity = FAULTLINE_JOB_OK <->
  size <= capacity /\ (data = None -> size = 0).
Proof.
  unfold check_payload. destruct (Z.ltb_spec capacity size); [naive_solver lia|].
  case_bool_decide as Hd; simpl; [|naive_solver].
  destruct (Z.eqb_spec size 0); naive_solver.
Qed.

Lemma can_transition_assigned s :
  faultline_job_can_transition s FAULTLINE_JOB_ASSIGNED = true <-> s = FAULTLINE_JOB_QUEUED.
Proof. destruct s; simpl; naive_solver. Qed.

Lemma can_transition_running s :
  faultline_job_can_transition s FAULTLINE_JOB_RUNNING = true <-> s = FAULTLINE_JOB_ASSIGNED.
Proof. destruct s; simpl; naive_solver. Qed.

Lemma can_transition_done s :
  faultline_job_can_transition s FAULTLINE_JOB_DONE = true <-> s = FAULTLINE_JOB_RUNNING.
Proof. destruct s; simpl; naive_solver. Qed.

Lemma can_transition_back s next :
  next = FAULTLINE_JOB_QUEUED \/ next = FAULTLINE_JOB_FAILED ->
  faultline_job_can_transition s next = true <-> active_state s = true.
Proof. intros [-> | ->]; destruct s; simpl; naive_solver. Qed.

(** ** What each operation does when it succeeds *)

Lemma job_init_ok storage id task data size retries now j' :
  faultline_job_init storage id task data size retries now = (FAULTLINE_JOB_OK, j') <->
  id <> 0 /\ 0 <= now /\ 1 <= task_type_value task <= 4 /\
  size <= FAULTLINE_JOB_MAX_ARGUMENT_SIZE /\ (data = None -> size = 0) /\
  j' = mk_job id task (if size !=? 0 then copy_bytes data size else []) size
         FAULTLINE_JOB_QUEUED 0 0 0 retries now now (-1) (-1) (-1) [] 0
         FAULTLINE_JOB_FAILURE_NONE.
Proof.
  unfold faultline_job_init. simpl.
  destruct (_ || _ || _ || _) eqn:E.
  { split; [done|]. intros; destruct_and!. lia. }
  split_bools.
  pose proof (check_payload_ok data size FAULTLINE_JOB_MAX_ARGUMENT_SIZE) as Hp.
  destruct (check_payload _ _ _); try (split; [done|]; naive_solver).
  destruct (proj1 Hp eq_refl). unfold FAULTLINE_JOB_TIME_UNSET.
  split; [intros; simplify_eq; split_and!; try done; lia | naive_solver].
Qed.

Lemma job_assign_ok j worker now j' :
  faultline_job_assign j worker now = (FAULTLINE_JOB_OK, j') <->
  job_state j = FAULTLINE_JOB_QUEUED /\ 0 <= now /\ updated_at_ms j <= now /\ worker <> 0 /\
  j' = mk_job (job_id j) (task_type j) (arguments j) (argument_size j) FAULTLINE_JOB_ASSIGNED
         worker (u64 (attempt j + 1)) (retry_count j) (max_retries j) (created_at_ms j) now now
         (started_at_ms j) (finished_at_ms j) (result j) (result_size j)
         FAULTLINE_JOB_FAILURE_NONE.
Proof.
  unfold faultline_job_assign.
  pose proof (check_transition_ok j FAULTLINE_JOB_ASSIGNED now) as Ht.
  rewrite can_transition_assigned in Ht.
  destruct (check_transition _ _ _); try (split; [done|]; naive_solver).
  destruct (proj1 Ht eq_refl) as (?&?&?).
  destruct (Z.eqb_spec worker 0); naive_solver.
Qed.

Lemma job_start_ok j worker att now j' :
  faultline_job_start j worker att now = (FAULTLINE_JOB_OK, j') <->
  job_state j = FAULTLINE_JOB_ASSIGNED /\ 0 <= now /\ updated_at_ms j <= now /\
  worker <> 0 /\ att <> 0 /\ worker = worker_id j /\ att = attempt j /\
  j' = mk_job (job_id j) (task_type j) (arguments j) (argument_size j) FAULTLINE_JOB_RUNNING
         (worker_id j) (attempt j) (retry_count j) (max_retries j) (created_at_ms j) now
         (assigned_at_ms j) now (finished_at_ms j) (result j) (result_size j) (failure j).
Proof.
  unfold faultline_job_start.
  pose proof (check_transition_ok j FAULTLINE_JOB_RUNNING now) as Ht.
  rewrite can_transition_running in Ht.
  pose proof (check_attempt_ok j worker att) as Ha.
  destruct (check_transition _ _ _); try (split; [done|]; naive_solver).
  destruct (proj1 Ht eq_refl) as (?&?&?).
  destruct (check_attempt _ _ _); naive_solver.
Qed.

Lemma job_complete_ok j worker att data size now j' :
  faultline_job_complete j worker att data size now = (FAULTLINE_JOB_OK, j') <->
  job_state j = FAULTLINE_JOB_RUNNING /\ 0 <= now /\ updated_at_ms j <= now /\
  worker <> 0 /\ att <> 0 /\ worker = worker_id j /\ att = attempt j /\
  size <= FAULTLINE_JOB_MAX_RESULT_SIZE /\ (data = None -> size = 0) /\
  j' = mk_job (job_id j) (task_type j) (arguments j) (argument_size j) FAULTLINE_JOB_DONE
         (worker_id j) (attempt j) (retry_count j) (max_retries j) (created_at_ms j) now
         (assigned_at_ms j) (started_at_ms j) now
         (if size !=? 0 then copy_bytes data size else []) size (failure j).
Proof.
  unfold faultline_job_complete.
  pose proof (check_transition_ok j FAULTLINE_JOB_DONE now) as Ht.
  rewrite can_transition_done in Ht.
  pose proof (check_attempt_ok j worker att) as Ha.
  pose proof (check_payload_ok data size FAULTLINE_JOB_MAX_RESULT_SIZE) as Hp.
  destruct (check_transition _ _ _); try (split; [done|]; naive_solver).
  destruct (proj1 Ht eq_refl) as (?&?&?).
  destruct (check_attempt _ _ _); try (split; [done|]; naive_solver).
  destruct (proj1 Ha eq_refl) as (?&?&?&?).
  destruct (check_payload _ _ _); naive_solver.
Qed.

(** The record after a failure: requeued while retries remain, else [FAILED]. *)
Definition failed_job (j : faultline_job) (reason : faultline_job_failure) (now : Z) :
    faultline_job :=
  if retry_count j <? max_retries j then
    mk_job (job_id j) (task_type j) (arguments j) (argument_size j) FAULTLINE_JOB_QUEUED
      0 (attempt j) (u32 (retry_count j + 1)) (max_retries j) (created_at_ms j) now
      (-1) (-1) (-1) (result j) (result_size j) reason
  else
    mk_job (job_id j) (task_type j) (arguments j) (argument_size j) FAULTLINE_JOB_FAILED
      (worker_id j) (attempt j) (retry_count j) (max_retries j) (created_at_ms j) now
      (assigned_at_ms j) (started_at_ms j) now (result j) (result_size j) reason.

Lemma job_fail_ok j worker att reason now j' :
  faultline_job_fail j worker att reason now = (FAULTLINE_JOB_OK, j') <->
  active_state (job_state j) = true /\ 0 <= now /\ updated_at_ms j <= now /\
  worker <> 0 /\ att <> 0 /\ worker = worker_id j /\ att = attempt j /\
  real_failure reason /\ j' = failed_job j reason now.
Proof.
  unfold faultline_job_fail, failed_job, real_failure.
  destruct (bool_decide (reason <> _) && _) eqn:Er.
  { apply andb_prop in Er as [E1%bool_decide_eq_true E2%bool_decide_eq_true]. naive_solver. }
  assert (reason = FAULTLINE_JOB_FAILURE_TASK \/ reason = FAULTLINE_JOB_FAILURE_WORKER_LOST) as Hr.
  { apply andb_false_iff in Er as [E%bool_decide_eq_false | E%bool_decide_eq_false];
      apply dec_stable in E; auto. }
  clear Er. cbv zeta.
  pose proof (check_attempt_ok j worker att) as Ha.
  destruct (retry_count j <? max_retries j).
  - pose proof (check_transition_ok j FAULTLINE_JOB_QUEUED now) as Ht.
    rewrite (can_transition_back _ FAULTLINE_JOB_QUEUED) in Ht by auto.
    destruct (check_transition _ _ _); try (split; [done|]; naive_solver).
    destruct (proj1 Ht eq_refl) as (?&?&?).
    destruct (check_attempt _ _ _); naive_solver.
  - pose proof (check_transition_ok j FAULTLINE_JOB_FAILED now) as Ht.
    rewrite (can_transition_back _ FAULTLINE_JOB_FAILED) in Ht by auto.
    destruct (check_transition _ _ _); try (split; [done|]; naive_solver).
    destruct (proj1 Ht eq_refl) as (?&?&?).
    destruct (check_attempt _ _ _); naive_solver.
Qed.

(** ** Preservation of well-formedness *)

Lemma copy_bytes_length data size :
  0 <= size -> (forall l, data = Some l -> size <= Z.of_nat (length l)) ->
  (data = None -> size = 0) -> Z.of_nat (length (copy_bytes data size)) = size.
Proof.
  intros Hs Hl Hn. unfold copy_bytes. rewrite length_take.
  destruct data as [l|]; simpl; [specialize (Hl l eq_refl) | specialize (Hn eq_refl)]; lia.
Qed.

Lemma copy_bytes_ok data size :
  (forall l, data = Some l -> bytes_ok l) -> bytes_ok (copy_bytes data size).
Proof.
  intros Hl. unfold copy_bytes. apply Forall_take.
  destruct data as [l|]; simpl; [by apply Hl | constructor].
Qed.

(** A readable data pointer: NULL only with size zero, else at least [size] bytes. *)
Definition readable (data : option (list Z)) (size : Z) : Prop :=
  0 <= size /\ forall l, data = Some l -> size <= Z.of_nat (length l) /\ bytes_ok l.

Lemma copied_wf data size :
  readable data size -> (data = None -> size = 0) ->
  size = Z.of_nat (length (if size !=? 0 then copy_bytes data size else [])) /\
  bytes_ok (if size !=? 0 then copy_bytes data size else []).
Proof.
  intros [Hs Hl] Hn. destruct (Z.eqb_spec size 0) as [->|]; simpl.
  - split; [done | constructor].
  - rewrite copy_bytes_length by naive_solver. split; [done|].
    apply copy_bytes_ok. naive_solver.
Qed.

Lemma job_init_wf storage id task data size retries now j' :
  faultline_job_init storage id task data size retries now = (FAULTLINE_JOB_OK, j') ->
  valid_task_type task -> in_u64 id -> in_u32 retries -> now <= INT64_MAX ->
  readable data size -> job_wf j'.
Proof.
  rewrite job_init_ok. intros (Hid & Hnow & Ht & Hsz & Hd & ->) Hv Hi Hr Hn Hrd.
  destruct (copied_wf data size Hrd Hd) as [Hlen Hok].
  constructor; simpl; try done; try ilia.
  - constructor.
  - unfold job_state_wf; simpl. naive_solver.
Qed.

Ltac wf_facts H := destruct H as [Hid Ht Has Ham Hab Hrs Hrm Hrb Hr Hmr Htm Hu Hs].

Lemma job_assign_wf j worker now j' :
  faultline_job_assign j worker now = (FAULTLINE_JOB_OK, j') ->
  job_wf j -> in_u32 worker -> now <= INT64_MAX -> job_wf j'.
Proof.
  rewrite job_assign_ok. intros (Hst & Hnow & Hup & Hw & ->) Hwf Hw32 Hmax.
  wf_facts Hwf. unfold job_state_wf in Hs. rewrite Hst in Hs. destruct_and! Hs.
  constructor; simpl; try done; try lia.
  unfold job_state_wf, owned; simpl. rewrite u64_id by ilia. split_and!; try done; ilia.
Qed.

Lemma job_start_wf j worker att now j' :
  faultline_job_start j worker att now = (FAULTLINE_JOB_OK, j') ->
  job_wf j -> now <= INT64_MAX -> job_wf j'.
Proof.
  rewrite job_start_ok. intros (Hst & Hnow & Hup & Hw & Ha & -> & -> & ->) Hwf Hmax.
  wf_facts Hwf. unfold job_state_wf in Hs. rewrite Hst in Hs.
  destruct Hs as ((? & ? & ?) & ? & ? & ? & ? & ?).
  constructor; simpl; try done; try lia.
  unfold job_state_wf, owned; simpl. split_and!; try done; lia.
Qed.

Lemma job_complete_wf j worker att data size now j' :
  faultline_job_complete j worker att data size now = (FAULTLINE_JOB_OK, j') ->
  job_wf j -> now <= INT64_MAX -> readable data size -> job_wf j'.
Proof.
  rewrite job_complete_ok.
  intros (Hst & Hnow & Hup & Hw & Ha & -> & -> & Hsz & Hd & ->) Hwf Hmax Hrd.
  destruct (copied_wf data size Hrd Hd) as [Hlen Hok].
  wf_facts Hwf. unfold job_state_wf in Hs. rewrite Hst in Hs.
  destruct Hs as ((? & ? & ?) & ? & ? & ? & ? & ?).
  constructor; simpl; try done; try lia.
  unfold job_state_wf, owned; simpl. split_and!; try done; lia.
Qed.

Lemma failed_job_wf j reason now :
  job_wf j -> active_state (job_state j) = true -> real_failure reason ->
  updated_at_ms j <= now <= INT64_MAX -> job_wf (failed_job j reason now).
Proof.
  intros Hwf Hst Hf Hnow. wf_facts Hwf.
  assert (owned j /\ result_size j = 0 /\ finished_at_ms j = -1 /\
    (started_at_ms j = -1 \/ assigned_at_ms j <= started_at_ms j <= updated_at_ms j))
    as ((? & ? & ?) & ? & ? & ?).
  { unfold job_state_wf in Hs. destruct (job_state j); simpl in *; try done;
      destruct_and! Hs; split_and!; try done; lia. }
  unfold failed_job. destruct (Z.ltb_spec (retry_count j) (max_retries j)).
  - assert (u32 (retry_count j + 1) = retry_count j + 1) as Hu32 by (apply u32_id; ilia).
    constructor; simpl; try done; try lia.
    unfold job_state_wf; simpl. split_and!; try done; try lia. right. split; [lia|done].
  - constructor; simpl; try done; try lia.
    unfold job_state_wf, owned; simpl. split_and!; try done; try lia.
Qed.

Lemma job_fail_wf j worker att reason now j' :
  faultline_job_fail j worker att reason now = (FAULTLINE_JOB_OK, j') ->
  job_wf j -> now <= INT64_MAX -> job_wf j'.
Proof.
  rewrite job_fail_ok. intros (Hst & ? & ? & ? & ? & ? & ? & ? & ->) Hwf Hmax.
  apply failed_job_wf; done.
Qed.

(** ** Progress measure: every successful operation uses up one unit *)

Definition phase (s : faultline_job_state) : Z :=
  match s with
  | FAULTLINE_JOB_QUEUED => 3
  | FAULTLINE_JOB_ASSIGNED => 2
  | FAULTLINE_JOB_RUNNING => 1
  | _ => 0
  end.

Definition job_measure (j : faultline_job) : Z :=
  3 * (max_retries j - retry_count j) + phase (job_state j).

Lemma job_step_transition j j' :
  job_step j j' -> faultline_job_can_transition (job_state j) (job_state j') = true.
Proof.
  destruct 1 as [??? ? H|???? ? H|?????? ? H|????? ? H].
  - apply job_assign_ok in H as (-> & ? & ? & ? & ->). done.
  - apply job_start_ok in H as (-> & ? & ? & ? & ? & ? & ? & ->). done.
  - apply job_complete_ok in H as (-> & ? & ? & ? & ? & ? & ? & ? & ? & ->). done.
  - apply job_fail_ok in H as (Ha & ? & ? & ? & ? & ? & ? & ? & ->).
    apply can_transition_back; [|done].
    unfold failed_job. case_match; simpl; auto.
Qed.

Lemma job_step_keeps j j' :
  job_step j j' ->
  job_id j' = job_id j /\ task_type j' = task_type j /\ arguments j' = arguments j /\
  argument_size j' = argument_size j /\ max_retries j' = max_retries j /\
  created_at_ms j' = created_at_ms j /\ updated_at_ms j <= updated_at_ms j'.
Proof.
  destruct 1 as [??? ? H|???? ? H|?????? ? H|????? ? H].
  - apply job_assign_ok in H as (? & ? & ? & ? & ->). done.
  - apply job_start_ok in H as (? & ? & ? & ? & ? & ? & ? & ->). done.
  - apply job_complete_ok in H as (? & ? & ? & ? & ? & ? & ? & ? & ? & ->). done.
  - apply job_fail_ok in H as (Ha & ? & ? & ? & ? & ? & ? & ? & ->).
    unfold failed_job. case_match; done.
Qed.

Lemma job_step_retries j j' :
  job_step j j' -> 0 <= retry_count j <= max_retries j /\ max_retries j <= UINT32_MAX ->
  0 <= retry_count j' <= max_retries j' /\ max_retries j' <= UINT32_MAX /\
  job_measure j' < job_measure j.
Proof.
  intros Hs Hr. unfold job_measure.
  destruct Hs as [??? ? H|???? ? H|?????? ? H|????? ? H].
  - apply job_assign_ok in H as (-> & ? & ? & ? & ->). simpl. lia.
  - apply job_start_ok in H as (-> & ? & ? & ? & ? & ? & ? & ->). simpl. lia.
  - apply job_complete_ok in H as (-> & ? & ? & ? & ? & ? & ? & ? & ? & ->). simpl. lia.
  - apply job_fail_ok in H as (Ha & ? & ? & ? & ? & ? & ? & ? & ->).
    assert (1 <= phase (job_state j)) by (destruct (job_state j); simpl in *; try done; lia).
    unfold failed_job. destruct (Z.ltb_spec (retry_count j) (max_retries j)); simpl; [|lia].
    rewrite u32_id by ilia. lia.
Qed.

Lemma job_run_measure j n j' :
  job_run j n j' -> 0 <= retry_count j <= max_retries j /\ max_retries j <= UINT32_MAX ->
  0 <= retry_count j' <= max_retries j' /\ Z.of_nat n <= job_measure j - job_measure j'.
Proof.
  induction 1 as [|j1 j2 j3 n Hs _ IH]; intros Hr; [lia|].
  destruct (job_step_retries _ _ Hs Hr) as (?&?&?). specialize (IH ltac:(lia)). lia.
Qed.

Lemma phase_nonneg s : 0 <= phase s.
Proof. destruct s; simpl; lia. Qed.

(** The attempt counter follows the retry counter. *)
Definition attempt_tracks (j : faultline_job) : Prop :=
  attempt j = retry_count j + (if bool_decide (job_state j = FAULTLINE_JOB_QUEUED) then 0 else 1).

Lemma job_step_attempt j j' :
  job_step j j' -> 0 <= retry_count j <= max_retries j /\ max_retries j <= UINT32_MAX ->
  attempt_tracks j -> attempt_tracks j'.
Proof.
  unfold attempt_tracks. intros Hs Hr Ha.
  destruct Hs as [??? ? H|???? ? H|?????? ? H|????? ? H].
  - apply job_assign_ok in H as (Hq & ? & ? & ? & ->). rewrite Hq in Ha. simpl in *.
    rewrite u64_id by ilia. lia.
  - apply job_start_ok in H as (Hq & ? & ? & ? & ? & ? & ? & ->). rewrite Hq in Ha. done.
  - apply job_complete_ok in H as (Hq & ? & ? & ? & ? & ? & ? & ? & ? & ->).
    rewrite Hq in Ha. done.
  - apply job_fail_ok in H as (Hact & ? & ? & ? & ? & ? & ? & ? & ->).
    assert (attempt j = retry_count j + 1) by (destruct (job_state j); done).
    unfold failed_job. destruct (Z.ltb_spec (retry_count j) (max_retries j)); simpl; [|lia].
    rewrite u32_id by ilia. lia.
Qed.

Lemma job_run_attempt j n j' :
  job_run j n j' -> 0 <= retry_count j <= max_retries j /\ max_retries j <= UINT32_MAX ->
  attempt_tracks j -> attempt_tracks j' /\ max_retries j' = max_retries j.
Proof.
  induction 1 as [|j1 j2 j3 n Hs _ IH]; intros Hr Ha; [done|].
  pose proof (job_step_keeps _ _ Hs) as (_&_&_&_&Hm&_).
  destruct (job_step_retries _ _ Hs Hr) as (?&?&?).
  destruct IH as [? ?]; [lia | by eapply job_step_attempt | split; [done | congruence]].
Qed.

(** A concrete record for the witnesses: job 7, a one-byte argument, one retry. *)
Definition sample_job : faultline_job :=
  snd (faultline_job_init zero_job 7 FAULTLINE_TASK_HASH (Some [65]) 1 1 1000).

Lemma sample_job_wf : job_wf sample_job.
Proof.
  apply (job_init_wf zero_job 7 FAULTLINE_TASK_HASH (Some [65]) 1 1 1000); try done.
  split; [lia|]. intros l [= <-]. split; [done|]. apply Forall_singleton. done.
Qed.

(** ** Properties *)

(** C22: every successful operation on a well-formed record gives a well-formed
    record: field ranges, sizes, and what each state says of owner, attempt,
    timestamps, failure and result are invariant, with no wrap of the counters. *)
Theorem job_wf_preserved (j j' : faultline_job) (worker att size now : Z)
    (data : option (list Z)) (reason : faultline_job_failure) :
  job_wf j -> in_u32 worker -> now <= INT64_MAX -> readable data size ->
  faultline_job_assign j worker now = (FAULTLINE_JOB_OK, j') \/
  faultline_job_start j worker att now = (FAULTLINE_JOB_OK, j') \/
  faultline_job_complete j worker att data size now = (FAULTLINE_JOB_OK, j') \/
  faultline_job_fail j worker att reason now = (FAULTLINE_JOB_OK, j') ->
  job_wf j'.
Proof.
  intros Hj Hw Hn Hd [H|[H|[H|H]]].
  - by eapply job_assign_wf.
  - by eapply job_start_wf.
  - by eapply job_complete_wf.
  - by eapply job_fail_wf.
Qed.

Lemma job_wf_preserved_witness :
  job_wf (snd (faultline_job_assign sample_job 3 2000)).
Proof.
  refine (job_wf_preserved sample_job _ 3 0 0 2000 None FAULTLINE_JOB_FAILURE_NONE
            sample_job_wf _ _ _ _).
  - split; done.
  - done.
  - split; done.
  - left. vm_compute. reflexivity.
Defined.

(** An operation that reports an error leaves the record exactly as it was. *)
Theorem job_rejected_unchanged (j : faultline_job) (worker att id size retries now : Z)
    (data : option (list Z)) (task : faultline_task_type) (reason : faultline_job_failure) :
  (let '(r, j') := faultline_job_init j id task data size retries now in
   r = FAULTLINE_JOB_OK \/ j' = j) /\
  (let '(r, j') := faultline_job_assign j worker now in r = FAULTLINE_JOB_OK \/ j' = j) /\
  (let '(r, j') := faultline_job_start j worker att now in r = FAULTLINE_JOB_OK \/ j' = j) /\
  (let '(r, j') := faultline_job_complete j worker att data size now in
   r = FAULTLINE_JOB_OK \/ j' = j) /\
  (let '(r, j') := faultline_job_fail j worker att reason now in
   r = FAULTLINE_JOB_OK \/ j' = j).
Proof.
  unfold faultline_job_init, faultline_job_assign, faultline_job_start,
    faultline_job_complete, faultline_job_fail. cbv zeta.
  split_and!; repeat case_match; simplify_eq; auto.
Qed.

(** A worker's report on a well-formed record is accepted exactly when the
    record is in the state the report continues, the report names the current
    owner and the current attempt, and the clock does not run backwards; a
    completion also needs a result of at most 1024 bytes. *)
Theorem job_report_accepted (j : faultline_job) (worker att size now : Z)
    (data : option (list Z)) :
  job_wf j ->
  (fst (faultline_job_start j worker att now) = FAULTLINE_JOB_OK <->
   job_state j = FAULTLINE_JOB_ASSIGNED /\ worker = worker_id j /\ att = attempt j /\
   updated_at_ms j <= now) /\
  (fst (faultline_job_complete j worker att data size now) = FAULTLINE_JOB_OK <->
   job_state j = FAULTLINE_JOB_RUNNING /\ worker = worker_id j /\ att = attempt j /\
   updated_at_ms j <= now /\ size <= FAULTLINE_JOB_MAX_RESULT_SIZE /\ (data = None -> size = 0)) /\
  (fst (faultline_job_fail j worker att FAULTLINE_JOB_FAILURE_TASK now) = FAULTLINE_JOB_OK <->
   active_state (job_state j) = true /\ worker = worker_id j /\ att = attempt j /\
   updated_at_ms j <= now).
Proof.
  intros Hwf. wf_facts Hwf.
  assert (active_state (job_state j) = true -> owned j) as Howned.
  { unfold job_state_wf in Hs. destruct (job_state j); naive_solver. }
  unfold owned in Howned. rewrite !fst_eq_iff.
  setoid_rewrite job_start_ok. setoid_rewrite job_complete_ok. setoid_rewrite job_fail_ok.
  split_and!; (split; [naive_solver|]).
  - intros (Hst & -> & -> & ?). rewrite Hst in Howned. specialize (Howned eq_refl).
    eexists. split_and!; try done; lia.
  - intros (Hst & -> & -> & ? & ? & ?). rewrite Hst in Howned. specialize (Howned eq_refl).
    eexists. split_and!; try done; lia.
  - intros (Hst & -> & -> & ?). specialize (Howned Hst).
    eexists. split_and!; try done; try lia. by left.
Qed.

Lemma job_report_accepted_witness :
  fst (faultline_job_start (snd (faultline_job_assign sample_job 3 2000)) 3 1 2500) =
  FAULTLINE_JOB_OK.
Proof.
  refine (proj2 (proj1 (job_report_accepted (snd (faultline_job_assign sample_job 3 2000))
            3 1 0 2500 None _)) _).
  - eapply (job_assign_wf sample_job 3 2000); [reflexivity | apply sample_job_wf | done | done].
  - vm_compute. split_and!; done.
Defined.

(** Successful operations follow the edges of the state graph, keep the
    identity, task, arguments and retry limit, and nothing leaves [DONE] or
    [FAILED]. *)
Theorem job_step_graph (j j' : faultline_job) :
  job_step j j' ->
  faultline_job_can_transition (job_state j) (job_state j') = true /\
  terminal_state (job_state j) = false /\
  job_id j' = job_id j /\ task_type j' = task_type j /\ arguments j' = arguments j /\
  max_retries j' = max_retries j /\ updated_at_ms j <= updated_at_ms j'.
Proof.
  intros Hs. pose proof (job_step_transition _ _ Hs) as Ht.
  pose proof (job_step_keeps _ _ Hs). split_and!; try naive_solver.
  destruct (job_state j); naive_solver.
Qed.

Lemma job_step_graph_witness :
  job_step sample_job (snd (faultline_job_assign sample_job 3 2000)) /\
  faultline_job_can_transition FAULTLINE_JOB_QUEUED FAULTLINE_JOB_ASSIGNED = true.
Proof.
  assert (job_step sample_job (snd (faultline_job_assign sample_job 3 2000))) as Hs.
  { apply (step_assign _ 3 2000). reflexivity. }
  exact (conj Hs (proj1 (job_step_graph _ _ Hs))).
Defined.

(** C23: a job initialised with a retry limit makes at most [max_retries + 1]
    attempts, and at most [3 * (max_retries + 1)] operations ever succeed on its
    record: every job reaches [DONE] or [FAILED] or stops changing. *)
Theorem job_run_bounded (storage j j' : faultline_job) (id size retries now : Z)
    (task : faultline_task_type) (data : option (list Z)) (n : nat) :
  faultline_job_init storage id task data size retries now = (FAULTLINE_JOB_OK, j) ->
  in_u32 retries -> job_run j n j' ->
  Z.of_nat n <= 3 * (retries + 1) /\ 0 <= retry_count j' <= retries /\
  0 <= attempt j' <= retries + 1.
Proof.
  rewrite job_init_ok. intros (_ & _ & _ & _ & _ & ->) Hr Hrun.
  apply job_run_measure in Hrun as Hm; [|simpl; ilia].
  apply job_run_attempt in Hrun as [Ha Hk]; [|simpl; ilia|done].
  simpl in *. unfold job_measure in Hm. simpl in Hm.
  pose proof (phase_nonneg (job_state j')). unfold attempt_tracks in Ha.
  case_bool_decide; lia.
Qed.

Lemma job_run_bounded_witness :
  Z.of_nat 1 <= 3 * (1 + 1).
Proof.
  refine (proj1 (job_run_bounded zero_job sample_job
    (snd (faultline_job_assign sample_job 3 2000)) 7 1 1 1000 FAULTLINE_TASK_HASH (Some [65]) 1
    _ _ _)).
  - reflexivity.
  - done.
  - apply (run_step _ (snd (faultline_job_assign sample_job 3 2000))); [|apply run_refl].
    apply (step_assign _ 3 2000). reflexivity.
Defined.
