(* ===== verification/JobQueue.v ===== *)
(** The bounded FIFO of pending job IDs: [include/job_queue.h],
    [src/coordinator/job_queue.c].

    The ring buffer is modelled as the C struct has it, an array of 256 IDs with a
    head and a count; [contents] reads it as a list, and the theorems show that
    the ring buffer refines a bounded duplicate-free list queue, error codes
    included. Array positions and counts are [nat]. *)

From S2P Require Import Prelude Job.

(** ** Data *)

Definition FAULTLINE_JOB_QUEUE_CAPACITY : nat := 256.

Record faultline_job_queue := mk_queue {
  queue_ids : list Z;
  queue_head : nat;
  queue_count : nat;
}.

Inductive faultline_job_queue_result :=
| FAULTLINE_JOB_QUEUE_OK
| FAULTLINE_JOB_QUEUE_INVALID_ARGUMENT
| FAULTLINE_JOB_QUEUE_INVALID_STATE
| FAULTLINE_JOB_QUEUE_DUPLICATE
| FAULTLINE_JOB_QUEUE_FULL
| FAULTLINE_JOB_QUEUE_EMPTY.

#[export] Instance faultline_job_queue_result_eq_dec : EqDecision faultline_job_queue_result.
Proof. solve_decision. Defined.

(** ** Operations *)

Definition faultline_job_queue_init : faultline_job_queue :=
  mk_queue (replicate FAULTLINE_JOB_QUEUE_CAPACITY 0) 0 0.

(** Array position of the [i]-th oldest entry. *)
Definition ring_slot (head i : nat) : nat := ((head + i) mod FAULTLINE_JOB_QUEUE_CAPACITY)%nat.

Definition faultline_job_queue_push (queue : faultline_job_queue) (job : faultline_job) :
    faultline_job_queue_result * faultline_job_queue :=
  if job_id job =? 0 then (FAULTLINE_JOB_QUEUE_INVALID_ARGUMENT, queue)
  else if bool_decide (job_state job <> FAULTLINE_JOB_QUEUED) || (worker_id job !=? 0) then
    (FAULTLINE_JOB_QUEUE_INVALID_STATE, queue)
  else if existsb (fun i => queue_ids queue !!! ring_slot (queue_head queue) i =? job_id job)
            (seq 0 (queue_count queue)) then
    (FAULTLINE_JOB_QUEUE_DUPLICATE, queue)
  else if (queue_count queue =? FAULTLINE_JOB_QUEUE_CAPACITY)%nat then
    (FAULTLINE_JOB_QUEUE_FULL, queue)
  else
    let tail := ring_slot (queue_head queue) (queue_count queue) in
    (FAULTLINE_JOB_QUEUE_OK,
     mk_queue (<[tail := job_id job]> (queue_ids queue)) (queue_head queue)
       (S (queue_count queue))).

(** The out-parameter [*job_id] is the option: it is written on success only. *)
Definition faultline_job_queue_peek (queue : faultline_job_queue) :
    faultline_job_queue_result * option Z :=
  if (queue_count queue =? 0)%nat then (FAULTLINE_JOB_QUEUE_EMPTY, None)
  else (FAULTLINE_JOB_QUEUE_OK, Some (queue_ids queue !!! queue_head queue)).

Definition faultline_job_queue_pop (queue : faultline_job_queue) :
    faultline_job_queue_result * option Z * faultline_job_queue :=
  match faultline_job_queue_peek queue with
  | (FAULTLINE_JOB_QUEUE_OK, id) =>
      (FAULTLINE_JOB_QUEUE_OK, id,
       mk_queue (<[queue_head queue := 0]> (queue_ids queue))
         (ring_slot (queue_head queue) 1) (queue_count queue - 1))
  | (error, id) => (error, id, queue)
  end.

(** ** Abstract queue: a duplicate-free list of at most 256 IDs, oldest first *)

Definition contents (queue : faultline_job_queue) : list Z :=
  (fun i => queue_ids queue !!! ring_slot (queue_head queue) i) <$> seq 0 (queue_count queue).

Record queue_wf (queue : faultline_job_queue) : Prop := {
  queue_ids_length : length (queue_ids queue) = FAULTLINE_JOB_QUEUE_CAPACITY;
  queue_head_lt : (queue_head queue < FAULTLINE_JOB_QUEUE_CAPACITY)%nat;
  queue_count_le : (queue_count queue <= FAULTLINE_JOB_QUEUE_CAPACITY)%nat;
  queue_nodup : NoDup (contents queue);
}.

Definition list_push (l : list Z) (job : faultline_job) : faultline_job_queue_result * list Z :=
  if job_id job =? 0 then (FAULTLINE_JOB_QUEUE_INVALID_ARGUMENT, l)
  else if bool_decide (job_state job <> FAULTLINE_JOB_QUEUED) || (worker_id job !=? 0) then
    (FAULTLINE_JOB_QUEUE_INVALID_STATE, l)
  else if bool_decide (job_id job ∈ l) then (FAULTLINE_JOB_QUEUE_DUPLICATE, l)
  else if bool_decide (length l = FAULTLINE_JOB_QUEUE_CAPACITY) then (FAULTLINE_JOB_QUEUE_FULL, l)
  else (FAULTLINE_JOB_QUEUE_OK, l ++ [job_id job]).

Definition list_pop (l : list Z) : faultline_job_queue_result * option Z * list Z :=
  match l with
  | [] => (FAULTLINE_JOB_QUEUE_EMPTY, None, [])
  | id :: rest => (FAULTLINE_JOB_QUEUE_OK, Some id, rest)
  end.

(** Histories of queue operations and their answers. *)
Inductive queue_op := OpPush (job : faultline_job) | OpPop.

Fixpoint run_ring (queue : faultline_job_queue) (ops : list queue_op) :
    list (faultline_job_queue_result * option Z) * faultline_job_queue :=
  match ops with
  | [] => ([], queue)
  | OpPush job :: rest =>
      let '(r, queue') := faultline_job_queue_push queue job in
      let '(answers, final) := run_ring queue' rest in ((r, None) :: answers, final)
  | OpPop :: rest =>
      let '(r, id, queue') := faultline_job_queue_pop queue in
      let '(answers, final) := run_ring queue' rest in ((r, id) :: answers, final)
  end.

Fixpoint run_list (l : list Z) (ops : list queue_op) :
    list (faultline_job_queue_result * option Z) * list Z :=
  match ops with
  | [] => ([], l)
  | OpPush job :: rest =>
      let '(r, l') := list_push l job in
      let '(answers, final) := run_list l' rest in ((r, None) :: answers, final)
  | OpPop :: rest =>
      let '(r, id, l') := list_pop l in
      let '(answers, final) := run_list l' rest in ((r, id) :: answers, final)
  end.

(** ** Ring positions *)

Section ring.
Context (head : nat) (Hhead : (head < FAULTLINE_JOB_QUEUE_CAPACITY)%nat).

Lemma ring_slot_lt i : (ring_slot head i < FAULTLINE_JOB_QUEUE_CAPACITY)%nat.
Proof using. unfold ring_slot. apply Nat.mod_upper_bound. done. Qed.

Lemma ring_slot_wrap i :
  (i <= FAULTLINE_JOB_QUEUE_CAPACITY)%nat ->
  ring_slot head i = (if decide (head + i < FAULTLINE_JOB_QUEUE_CAPACITY)%nat then head + i
                      else head + i - FAULTLINE_JOB_QUEUE_CAPACITY)%nat.
Proof using Hhead.
  intros Hi. unfold ring_slot. case_decide.
  - by apply Nat.mod_small.
  - symmetry. apply (Nat.mod_unique _ _ 1); lia.
Qed.

Lemma ring_slot_inj i k :
  (i < FAULTLINE_JOB_QUEUE_CAPACITY)%nat -> (k < FAULTLINE_JOB_QUEUE_CAPACITY)%nat ->
  ring_slot head i = ring_slot head k -> i = k.
Proof using Hhead.
  intros Hi Hk. rewrite !ring_slot_wrap by lia. repeat case_decide; lia.
Qed.

Lemma ring_slot_next i :
  (i < FAULTLINE_JOB_QUEUE_CAPACITY)%nat -> ring_slot (ring_slot head 1) i = ring_slot head (S i).
Proof using.
  clear Hhead. intros Hi. unfold ring_slot. rewrite Nat.Div0.add_mod_idemp_l. f_equal. lia.
Qed.

Lemma ring_slot_0 : ring_slot head 0 = head.
Proof using Hhead. unfold ring_slot. rewrite Nat.add_0_r. by apply Nat.mod_small. Qed.
End ring.

(** ** The ring buffer refines the list *)

Lemma contents_length q : length (contents q) = queue_count q.
Proof. unfold contents. by rewrite length_fmap, length_seq. Qed.

Lemma existsb_contents q id :
  existsb (fun i => queue_ids q !!! ring_slot (queue_head q) i =? id) (seq 0 (queue_count q)) =
  bool_decide (id ∈ contents q).
Proof.
  apply Bool.eq_iff_eq_true. rewrite existsb_exists, bool_decide_eq_true.
  unfold contents. rewrite list_elem_of_fmap.
  setoid_rewrite <- list_elem_of_In. setoid_rewrite Z.eqb_eq. naive_solver.
Qed.

Lemma queue_init_wf : queue_wf faultline_job_queue_init.
Proof.
  constructor; [apply length_replicate | vm_compute; lia | simpl; lia | constructor].
Qed.

Lemma contents_push q id :
  queue_wf q -> (queue_count q < FAULTLINE_JOB_QUEUE_CAPACITY)%nat ->
  contents (mk_queue (<[ring_slot (queue_head q) (queue_count q) := id]> (queue_ids q))
              (queue_head q) (S (queue_count q))) = contents q ++ [id].
Proof.
  intros Hq Hc. destruct Hq as [Hlen Hhd _ _]. unfold contents.
  cbn [queue_count queue_head queue_ids]. rewrite seq_S, fmap_app. simpl. f_equal.
  - apply list_fmap_ext. intros _ i Hi%list_elem_of_lookup_2%elem_of_seq.
    rewrite list_lookup_total_insert_ne; [done|].
    intros Heq. apply ring_slot_inj in Heq; lia.
  - rewrite list_lookup_total_insert_eq; [done|].
    rewrite Hlen. apply ring_slot_lt.
Qed.

Lemma queue_push_refines q job :
  queue_wf q ->
  let '(r, q') := faultline_job_queue_push q job in
  list_push (contents q) job = (r, contents q') /\ queue_wf q'.
Proof.
  intros Hq. unfold faultline_job_queue_push, list_push. rewrite existsb_contents.
  rewrite contents_length.
  destruct (job_id job =? 0); [done|]. destruct (_ || _); [done|].
  case_bool_decide as Hin; [done|].
  destruct (Nat.eqb_spec (queue_count q) FAULTLINE_JOB_QUEUE_CAPACITY) as [Heq|Hne].
  { rewrite bool_decide_eq_true_2 by done. done. }
  rewrite bool_decide_eq_false_2 by done.
  assert (queue_count q < FAULTLINE_JOB_QUEUE_CAPACITY)%nat.
  { destruct Hq. lia. }
  rewrite <- contents_push by done. split; [done|].
  pose proof (contents_push q (job_id job) Hq ltac:(lia)) as Hc.
  destruct Hq. constructor; simpl; try done.
  - by rewrite length_insert.
  - rewrite Hc. by apply NoDup_snoc.
Qed.

Lemma contents_cons q :
  queue_wf q -> queue_count q <> 0%nat ->
  contents q = (queue_ids q !!! queue_head q) ::
    contents (mk_queue (<[queue_head q := 0]> (queue_ids q)) (ring_slot (queue_head q) 1)
                (queue_count q - 1)).
Proof.
  intros Hq Hc. destruct Hq as [Hlen Hhd Hcap _]. unfold contents. simpl.
  destruct (queue_count q) as [|n]; [done|]. simpl. rewrite Nat.sub_0_r.
  f_equal; [by rewrite ring_slot_0|].
  rewrite <- fmap_S_seq, <- list_fmap_compose.
  apply list_fmap_ext. intros _ i Hi%list_elem_of_lookup_2%elem_of_seq. simpl.
  rewrite ring_slot_next by lia.
  rewrite list_lookup_total_insert_ne; [done|].
  intros Heq. rewrite <- (ring_slot_0 (queue_head q)) in Heq at 1 by done.
  apply ring_slot_inj in Heq; lia.
Qed.

Lemma queue_peek_refines q :
  queue_wf q ->
  faultline_job_queue_peek q =
  match contents q with
  | [] => (FAULTLINE_JOB_QUEUE_EMPTY, None)
  | id :: _ => (FAULTLINE_JOB_QUEUE_OK, Some id)
  end.
Proof.
  intros Hq. unfold faultline_job_queue_peek.
  destruct (Nat.eqb_spec (queue_count q) 0) as [Hz|Hnz].
  - pose proof (contents_length q) as Hl. rewrite Hz in Hl.
    by apply length_zero_iff_nil in Hl as ->.
  - by rewrite contents_cons.
Qed.

Lemma queue_pop_refines q :
  queue_wf q ->
  let '(r, id, q') := faultline_job_queue_pop q in
  list_pop (contents q) = (r, id, contents q') /\ queue_wf q'.
Proof.
  intros Hq. unfold faultline_job_queue_pop. rewrite queue_peek_refines by done.
  destruct (Nat.eq_dec (queue_count q) 0) as [Hz|Hnz].
  - pose proof (contents_length q) as Hl. rewrite Hz in Hl.
    apply length_zero_iff_nil in Hl as Hl'. rewrite Hl'. simpl. by rewrite Hl'.
  - pose proof (contents_cons q Hq Hnz) as Hc. rewrite Hc. simpl. split; [done|].
    destruct Hq as [Hlen Hhd Hcap Hnd]. constructor; simpl.
    + by rewrite length_insert.
    + apply ring_slot_lt.
    + lia.
    + rewrite Hc in Hnd. by apply NoDup_cons in Hnd as [_ ?].
Qed.

Lemma run_ring_refines ops q :
  queue_wf q ->
  let '(answers, final) := run_ring q ops in
  run_list (contents q) ops = (answers, contents final) /\ queue_wf final.
Proof.
  revert q. induction ops as [|[job|] ops IH]; intros q Hq; simpl; [done| |].
  - pose proof (queue_push_refines q job Hq) as Hp.
    destruct (faultline_job_queue_push q job) as [r q']. destruct Hp as [-> Hq'].
    specialize (IH q' Hq'). destruct (run_ring q' ops) as [answers final].
    destruct IH as [-> ?]. done.
  - pose proof (queue_pop_refines q Hq) as Hp.
    destruct (faultline_job_queue_pop q) as [[r id] q']. destruct Hp as [-> Hq'].
    specialize (IH q' Hq'). destruct (run_ring q' ops) as [answers final].
    destruct IH as [-> ?]. done.
Qed.

(** Facts the scheduler uses. *)

Lemma queue_push_ok q job :
  queue_wf q -> job_id job <> 0 -> job_state job = FAULTLINE_JOB_QUEUED -> worker_id job = 0 ->
  job_id job ∉ contents q -> (length (contents q) < FAULTLINE_JOB_QUEUE_CAPACITY)%nat ->
  exists q', faultline_job_queue_push q job = (FAULTLINE_JOB_QUEUE_OK, q') /\
    contents q' = contents q ++ [job_id job] /\ queue_wf q'.
Proof.
  intros Hq Hid Hst Hw Hin Hlen.
  pose proof (queue_push_refines q job Hq) as Hp. unfold list_push in Hp.
  destruct (faultline_job_queue_push q job) as [r q'].
  destruct (Z.eqb_spec (job_id job) 0); [done|].
  rewrite (bool_decide_eq_false_2 (job_state job <> _)) in Hp by naive_solver.
  rewrite Hw in Hp. simpl in Hp.
  rewrite (bool_decide_eq_false_2 (_ ∈ _)) in Hp by done.
  rewrite (bool_decide_eq_false_2 (_ = FAULTLINE_JOB_QUEUE_CAPACITY)) in Hp by lia.
  destruct Hp as [[= <- Hc] ?]. eauto.
Qed.

Lemma queue_push_inv q job q' :
  queue_wf q -> faultline_job_queue_push q job = (FAULTLINE_JOB_QUEUE_OK, q') ->
  contents q' = contents q ++ [job_id job] /\ queue_wf q' /\ job_id job ∉ contents q.
Proof.
  intros Hq Hp. pose proof (queue_push_refines q job Hq) as H. rewrite Hp in H.
  unfold list_push in H. destruct H as [H Hq'].
  destruct (job_id job =? 0); [done|]. destruct (_ || _); [done|].
  case_bool_decide; [done|]. destruct (bool_decide (_ = FAULTLINE_JOB_QUEUE_CAPACITY)); [done|].
  by injection H as <-.
Qed.

Lemma queue_pop_cons q id rest :
  queue_wf q -> contents q = id :: rest ->
  exists q', faultline_job_queue_pop q = (FAULTLINE_JOB_QUEUE_OK, Some id, q') /\
    contents q' = rest /\ queue_wf q'.
Proof.
  intros Hq Hc. pose proof (queue_pop_refines q Hq) as Hp. rewrite Hc in Hp.
  destruct (faultline_job_queue_pop q) as [[r i] q']. destruct Hp as [[= <- <- Hr] ?]. eauto.
Qed.

(** ** Properties *)

(** C24: for every history of pushes and pops the ring buffer gives the answers,
    result codes and IDs, of a bounded duplicate-free FIFO list, and holds the
    same IDs in the same order; its head stays in the array and its count within
    the capacity. *)
Theorem queue_refines_fifo (ops : list queue_op) :
  let '(answers, final) := run_ring faultline_job_queue_init ops in
  run_list [] ops = (answers, contents final) /\ queue_wf final.
Proof. exact (run_ring_refines ops faultline_job_queue_init queue_init_wf). Qed.

(** Peek answers what pop would remove, without changing the queue, and a
    rejected push or an empty pop leaves the queue exactly as it was. *)
Theorem queue_peek_pop (q : faultline_job_queue) (job : faultline_job) :
  fst (faultline_job_queue_pop q) = faultline_job_queue_peek q /\
  (fst (faultline_job_queue_push q job) = FAULTLINE_JOB_QUEUE_OK \/
   snd (faultline_job_queue_push q job) = q) /\
  (fst (fst (faultline_job_queue_pop q)) = FAULTLINE_JOB_QUEUE_OK \/
   snd (faultline_job_queue_pop q) = q).
Proof.
  unfold faultline_job_queue_pop, faultline_job_queue_push, faultline_job_queue_peek.
  repeat case_match; simplify_eq; auto.
Qed.
