(* ===== verification/Protocol.v ===== *)
(** The wire protocol: [include/protocol.h], [src/common/protocol.c].

    A message is a tagged union: one constructor of [faultline_message] per
    message type, the last one for type numbers the protocol does not define. A
    (buffer, size) pair keeps its size field and the list of the bytes in use; a
    (count, entries) pair is the list of entries. The frame buffer of the
    encoder is its result, [*written] its length; the decoder is given the
    available bytes and returns the message with [*consumed]. *)

From S2P Require Import Prelude Job.

(** ** Constants *)

Definition FAULTLINE_PROTOCOL_MAGIC : Z := 0x464c494e.
Definition FAULTLINE_PROTOCOL_VERSION : Z := 1.
Definition FAULTLINE_HEADER_SIZE : Z := 12.
Definition FAULTLINE_MAX_PAYLOAD_SIZE : Z := 1048576.
Definition FAULTLINE_WORKER_REGISTER_ACK_PAYLOAD_SIZE : Z := 4.
Definition FAULTLINE_HEARTBEAT_PAYLOAD_SIZE : Z := 4.
Definition FAULTLINE_WORKER_ID_UNASSIGNED : Z := 0.
Definition FAULTLINE_JOB_SUBMIT_PREFIX_SIZE : Z := 10.
Definition FAULTLINE_JOB_SUBMIT_ACK_PAYLOAD_SIZE : Z := 8.
Definition FAULTLINE_JOB_ASSIGN_PREFIX_SIZE : Z := 26.
Definition FAULTLINE_JOB_STARTED_PAYLOAD_SIZE : Z := 20.
Definition FAULTLINE_JOB_COMPLETED_PREFIX_SIZE : Z := 24.
Definition FAULTLINE_JOB_FAILED_PAYLOAD_SIZE : Z := 22.
Definition FAULTLINE_JOB_STATUS_REQUEST_PAYLOAD_SIZE : Z := 8.
Definition FAULTLINE_JOB_STATUS_RESPONSE_PREFIX_SIZE : Z := 36.
Definition FAULTLINE_JOB_STATUS_NOT_FOUND_PAYLOAD_SIZE : Z := 8.
Definition FAULTLINE_JOBS_MAX_ENTRIES : Z := 256.
Definition FAULTLINE_WORKERS_MAX_ENTRIES : Z := 64.
Definition FAULTLINE_JOBS_PREFIX_SIZE : Z := 4.
Definition FAULTLINE_JOB_SUMMARY_SIZE : Z := 38.
Definition FAULTLINE_WORKERS_PREFIX_SIZE : Z := 8.
Definition FAULTLINE_WORKER_SUMMARY_SIZE : Z := 30.
Definition FAULTLINE_STATS_PAYLOAD_SIZE : Z := 192.
Definition FAULTLINE_MESSAGE_MAX_FRAME_SIZE : Z :=
  FAULTLINE_HEADER_SIZE + FAULTLINE_JOBS_PREFIX_SIZE +
  FAULTLINE_JOBS_MAX_ENTRIES * FAULTLINE_JOB_SUMMARY_SIZE.

Definition FAULTLINE_MSG_PING : Z := 1.
Definition FAULTLINE_MSG_PONG : Z := 2.
Definition FAULTLINE_MSG_WORKER_REGISTER : Z := 3.
Definition FAULTLINE_MSG_WORKER_REGISTER_ACK : Z := 4.
Definition FAULTLINE_MSG_HEARTBEAT : Z := 5.
Definition FAULTLINE_MSG_JOB_SUBMIT : Z := 6.
Definition FAULTLINE_MSG_JOB_SUBMIT_ACK : Z := 7.
Definition FAULTLINE_MSG_JOB_ASSIGN : Z := 8.
Definition FAULTLINE_MSG_JOB_STARTED : Z := 9.
Definition FAULTLINE_MSG_JOB_COMPLETED : Z := 10.
Definition FAULTLINE_MSG_JOB_FAILED : Z := 11.
Definition FAULTLINE_MSG_JOB_STATUS_REQUEST : Z := 12.
Definition FAULTLINE_MSG_JOB_STATUS_RESPONSE : Z := 13.
Definition FAULTLINE_MSG_JOB_STATUS_NOT_FOUND : Z := 14.
Definition FAULTLINE_MSG_JOBS_REQUEST : Z := 15.
Definition FAULTLINE_MSG_JOBS_RESPONSE : Z := 16.
Definition FAULTLINE_MSG_WORKERS_REQUEST : Z := 17.
Definition FAULTLINE_MSG_WORKERS_RESPONSE : Z := 18.
Definition FAULTLINE_MSG_STATS_REQUEST : Z := 19.
Definition FAULTLINE_MSG_STATS_RESPONSE : Z := 20.

Definition FAULTLINE_WORKER_VIEW_ALIVE : Z := 1.
Definition FAULTLINE_WORKER_VIEW_DEAD : Z := 2.

(** ** Data *)

Record faultline_header := mk_header {
  h_magic : Z;
  h_version : Z;
  h_message_type : Z;
  h_payload_length : Z;
}.

Record faultline_job_identity := mk_identity {
  i_job_id : Z;
  i_worker_id : Z;
  i_attempt : Z;
}.

Record faultline_job_submit_payload := mk_submit {
  s_task_type : Z;
  s_max_retries : Z;
  s_argument_size : Z;
  s_arguments : list Z;
}.

Record faultline_job_assign_payload := mk_assign {
  a_identity : faultline_job_identity;
  a_task_type : Z;
  a_argument_size : Z;
  a_arguments : list Z;
}.

Record faultline_job_completed_payload := mk_completed {
  c_identity : faultline_job_identity;
  c_result_size : Z;
  c_result : list Z;
}.

Record faultline_job_failed_payload := mk_failed {
  f_identity : faultline_job_identity;
  f_failure : Z;
}.

Record faultline_job_status_payload := mk_status {
  st_job_id : Z;
  st_state : Z;
  st_worker_id : Z;
  st_attempt : Z;
  st_retry_count : Z;
  st_max_retries : Z;
  st_failure : Z;
  st_result_size : Z;
  st_result : list Z;
}.

Record faultline_job_summary := mk_summary {
  js_job_id : Z;
  js_task_type : Z;
  js_state : Z;
  js_worker_id : Z;
  js_attempt : Z;
  js_retry_count : Z;
  js_max_retries : Z;
  js_failure : Z;
  js_result_size : Z;
}.

Record faultline_worker_summary := mk_worker_summary {
  ws_worker_id : Z;
  ws_state : Z;
  ws_heartbeat_age_ms : Z;
  ws_job_id : Z;
  ws_attempt : Z;
}.

Record faultline_workers_payload := mk_workers {
  wl_heartbeat_timeout_ms : Z;
  wl_entries : list faultline_worker_summary;
}.

Record faultline_stats_payload := mk_stats {
  jobs_submitted_total : Z;
  jobs_queued : Z;
  jobs_assigned : Z;
  jobs_running : Z;
  jobs_completed_total : Z;
  jobs_failed_total : Z;
  job_attempts_total : Z;
  job_retries_total : Z;
  completed_latency_avg_ms : Z;
  workers_retained : Z;
  workers_alive : Z;
  workers_expired : Z;
  workers_dead : Z;
  workers_busy : Z;
  workers_idle : Z;
  session_uptime_ms : Z;
  session_jobs_submitted : Z;
  session_jobs_completed : Z;
  session_jobs_failed : Z;
  session_job_retries : Z;
  startup_jobs_recovered : Z;
  startup_interrupted_jobs : Z;
  startup_duration_ms : Z;
  heartbeat_timeout_ms : Z;
}.

Inductive faultline_message :=
| MsgPing (payload_worker_id : Z)
| MsgPong (payload_worker_id : Z)
| MsgWorkerRegister (payload_worker_id : Z)
| MsgWorkerRegisterAck (payload_worker_id : Z)
| MsgHeartbeat (payload_worker_id : Z)
| MsgJobSubmit (submit : faultline_job_submit_payload)
| MsgJobSubmitAck (id : Z)
| MsgJobAssign (assign : faultline_job_assign_payload)
| MsgJobStarted (identity : faultline_job_identity)
| MsgJobCompleted (completed : faultline_job_completed_payload)
| MsgJobFailed (failed : faultline_job_failed_payload)
| MsgJobStatusRequest (id : Z)
| MsgJobStatusResponse (status : faultline_job_status_payload)
| MsgJobStatusNotFound (id : Z)
| MsgJobsRequest (payload_worker_id : Z)
| MsgJobsResponse (entries : list faultline_job_summary)
| MsgWorkersRequest (payload_worker_id : Z)
| MsgWorkersResponse (list : faultline_workers_payload)
| MsgStatsRequest (payload_worker_id : Z)
| MsgStatsResponse (stats : faultline_stats_payload)
| MsgOther (type : Z).

Definition message_type (m : faultline_message) : Z :=
  match m with
  | MsgPing _ => FAULTLINE_MSG_PING
  | MsgPong _ => FAULTLINE_MSG_PONG
  | MsgWorkerRegister _ => FAULTLINE_MSG_WORKER_REGISTER
  | MsgWorkerRegisterAck _ => FAULTLINE_MSG_WORKER_REGISTER_ACK
  | MsgHeartbeat _ => FAULTLINE_MSG_HEARTBEAT
  | MsgJobSubmit _ => FAULTLINE_MSG_JOB_SUBMIT
  | MsgJobSubmitAck _ => FAULTLINE_MSG_JOB_SUBMIT_ACK
  | MsgJobAssign _ => FAULTLINE_MSG_JOB_ASSIGN
  | MsgJobStarted _ => FAULTLINE_MSG_JOB_STARTED
  | MsgJobCompleted _ => FAULTLINE_MSG_JOB_COMPLETED
  | MsgJobFailed _ => FAULTLINE_MSG_JOB_FAILED
  | MsgJobStatusRequest _ => FAULTLINE_MSG_JOB_STATUS_REQUEST
  | MsgJobStatusResponse _ => FAULTLINE_MSG_JOB_STATUS_RESPONSE
  | MsgJobStatusNotFound _ => FAULTLINE_MSG_JOB_STATUS_NOT_FOUND
  | MsgJobsRequest _ => FAULTLINE_MSG_JOBS_REQUEST
  | MsgJobsResponse _ => FAULTLINE_MSG_JOBS_RESPONSE
  | MsgWorkersRequest _ => FAULTLINE_MSG_WORKERS_REQUEST
  | MsgWorkersResponse _ => FAULTLINE_MSG_WORKERS_RESPONSE
  | MsgStatsRequest _ => FAULTLINE_MSG_STATS_REQUEST
  | MsgStatsResponse _ => FAULTLINE_MSG_STATS_RESPONSE
  | MsgOther ty => ty
  end.

Inductive faultline_protocol_result :=
| FAULTLINE_PROTOCOL_OK
| FAULTLINE_PROTOCOL_INVALID_ARGUMENT
| FAULTLINE_PROTOCOL_BUFFER_TOO_SMALL
| FAULTLINE_PROTOCOL_BAD_MAGIC
| FAULTLINE_PROTOCOL_UNSUPPORTED_VERSION
| FAULTLINE_PROTOCOL_UNKNOWN_MESSAGE_TYPE
| FAULTLINE_PROTOCOL_PAYLOAD_TOO_LARGE
| FAULTLINE_PROTOCOL_INVALID_PAYLOAD_LENGTH
| FAULTLINE_PROTOCOL_INVALID_WORKER_ID
| FAULTLINE_PROTOCOL_INVALID_JOB_ID
| FAULTLINE_PROTOCOL_INVALID_ATTEMPT
| FAULTLINE_PROTOCOL_INVALID_TASK_TYPE
| FAULTLINE_PROTOCOL_INVALID_FAILURE
| FAULTLINE_PROTOCOL_INVALID_JOB_STATE
| FAULTLINE_PROTOCOL_INVALID_RETRY_COUNT
| FAULTLINE_PROTOCOL_INVALID_LIST_COUNT
| FAULTLINE_PROTOCOL_INVALID_LIST_ORDER
| FAULTLINE_PROTOCOL_INVALID_WORKER_STATE
| FAULTLINE_PROTOCOL_INVALID_HEARTBEAT_TIMEOUT
| FAULTLINE_PROTOCOL_INVALID_STATS.

#[export] Instance faultline_protocol_result_eq_dec : EqDecision faultline_protocol_result.
Proof. solve_decision. Defined.

(** The numbers of the results, as they are printed. *)
Definition protocol_code : faultline_protocol_result -> Z :=
  enum_code [FAULTLINE_PROTOCOL_OK; FAULTLINE_PROTOCOL_INVALID_ARGUMENT;
    FAULTLINE_PROTOCOL_BUFFER_TOO_SMALL; FAULTLINE_PROTOCOL_BAD_MAGIC;
    FAULTLINE_PROTOCOL_UNSUPPORTED_VERSION; FAULTLINE_PROTOCOL_UNKNOWN_MESSAGE_TYPE;
    FAULTLINE_PROTOCOL_PAYLOAD_TOO_LARGE; FAULTLINE_PROTOCOL_INVALID_PAYLOAD_LENGTH;
    FAULTLINE_PROTOCOL_INVALID_WORKER_ID; FAULTLINE_PROTOCOL_INVALID_JOB_ID;
    FAULTLINE_PROTOCOL_INVALID_ATTEMPT; FAULTLINE_PROTOCOL_INVALID_TASK_TYPE;
    FAULTLINE_PROTOCOL_INVALID_FAILURE; FAULTLINE_PROTOCOL_INVALID_JOB_STATE;
    FAULTLINE_PROTOCOL_INVALID_RETRY_COUNT; FAULTLINE_PROTOCOL_INVALID_LIST_COUNT;
    FAULTLINE_PROTOCOL_INVALID_LIST_ORDER; FAULTLINE_PROTOCOL_INVALID_WORKER_STATE;
    FAULTLINE_PROTOCOL_INVALID_HEARTBEAT_TIMEOUT; FAULTLINE_PROTOCOL_INVALID_STATS].

(** ** Integers on the wire *)

Definition write_u16_be (value : Z) : list Z := be16 value.
Definition write_u32_be (value : Z) : list Z := be32 value.
Definition read_u16_be (bytes : list Z) : Z := un_be16 bytes.
Definition read_u32_be (bytes : list Z) : Z := un_be32 bytes.
Definition write_u64_be (value : Z) : list Z := be64 value.
Definition read_u64_be (bytes : list Z) : Z := un_be64 bytes.

(** ** Header *)

(** Minimum and maximum payload size; [None] is [UNKNOWN_MESSAGE_TYPE]. *)
Definition message_payload_bounds (ty : Z) : option (Z * Z) :=
  let bounds minimum extra := Some (minimum, minimum + extra) in
  if one_of ty [FAULTLINE_MSG_PING; FAULTLINE_MSG_PONG; FAULTLINE_MSG_WORKER_REGISTER;
                FAULTLINE_MSG_JOBS_REQUEST; FAULTLINE_MSG_WORKERS_REQUEST;
                FAULTLINE_MSG_STATS_REQUEST] then bounds 0 0
  else if one_of ty [FAULTLINE_MSG_WORKER_REGISTER_ACK; FAULTLINE_MSG_HEARTBEAT] then bounds 4 0
  else if ty =? FAULTLINE_MSG_JOB_SUBMIT then
    bounds FAULTLINE_JOB_SUBMIT_PREFIX_SIZE FAULTLINE_JOB_MAX_ARGUMENT_SIZE
  else if ty =? FAULTLINE_MSG_JOB_SUBMIT_ACK then bounds FAULTLINE_JOB_SUBMIT_ACK_PAYLOAD_SIZE 0
  else if ty =? FAULTLINE_MSG_JOB_ASSIGN then
    bounds FAULTLINE_JOB_ASSIGN_PREFIX_SIZE FAULTLINE_JOB_MAX_ARGUMENT_SIZE
  else if ty =? FAULTLINE_MSG_JOB_STARTED then bounds FAULTLINE_JOB_STARTED_PAYLOAD_SIZE 0
  else if ty =? FAULTLINE_MSG_JOB_COMPLETED then
    bounds FAULTLINE_JOB_COMPLETED_PREFIX_SIZE FAULTLINE_JOB_MAX_RESULT_SIZE
  else if ty =? FAULTLINE_MSG_JOB_FAILED then bounds FAULTLINE_JOB_FAILED_PAYLOAD_SIZE 0
  else if ty =? FAULTLINE_MSG_JOB_STATUS_REQUEST then
    bounds FAULTLINE_JOB_STATUS_REQUEST_PAYLOAD_SIZE 0
  else if ty =? FAULTLINE_MSG_JOB_STATUS_RESPONSE then
    bounds FAULTLINE_JOB_STATUS_RESPONSE_PREFIX_SIZE FAULTLINE_JOB_MAX_RESULT_SIZE
  else if ty =? FAULTLINE_MSG_JOB_STATUS_NOT_FOUND then
    bounds FAULTLINE_JOB_STATUS_NOT_FOUND_PAYLOAD_SIZE 0
  else if ty =? FAULTLINE_MSG_JOBS_RESPONSE then
    bounds FAULTLINE_JOBS_PREFIX_SIZE (FAULTLINE_JOBS_MAX_ENTRIES * FAULTLINE_JOB_SUMMARY_SIZE)
  else if ty =? FAULTLINE_MSG_WORKERS_RESPONSE then
    bounds FAULTLINE_WORKERS_PREFIX_SIZE
      (FAULTLINE_WORKERS_MAX_ENTRIES * FAULTLINE_WORKER_SUMMARY_SIZE)
  else if ty =? FAULTLINE_MSG_STATS_RESPONSE then bounds FAULTLINE_STATS_PAYLOAD_SIZE 0
  else None.

Definition validate_header (header : faultline_header) : faultline_protocol_result :=
  if h_magic header !=? FAULTLINE_PROTOCOL_MAGIC then FAULTLINE_PROTOCOL_BAD_MAGIC
  else if h_version header !=? FAULTLINE_PROTOCOL_VERSION then
    FAULTLINE_PROTOCOL_UNSUPPORTED_VERSION
  else
    match message_payload_bounds (h_message_type header) with
    | None => FAULTLINE_PROTOCOL_UNKNOWN_MESSAGE_TYPE
    | Some _ =>
        if FAULTLINE_MAX_PAYLOAD_SIZE <? h_payload_length header then
          FAULTLINE_PROTOCOL_PAYLOAD_TOO_LARGE
        else FAULTLINE_PROTOCOL_OK
    end.

Definition faultline_header_encode (wire_size : Z) (header : faultline_header) :
    faultline_protocol_result + list Z :=
  refuse wire_size <? FAULTLINE_HEADER_SIZE with FAULTLINE_PROTOCOL_BUFFER_TOO_SMALL in
  match validate_header header with
  | FAULTLINE_PROTOCOL_OK =>
      inr (write_u32_be (h_magic header) ++ write_u16_be (h_version header) ++
           write_u16_be (h_message_type header) ++ write_u32_be (h_payload_length header))
  | error => inl error
  end.

Definition faultline_header_decode (wire : list Z) : faultline_protocol_result + faultline_header :=
  refuse Z.of_nat (length wire) <? FAULTLINE_HEADER_SIZE
    with FAULTLINE_PROTOCOL_BUFFER_TOO_SMALL in
  let decoded :=
    {| h_magic := read_u32_be wire; h_version := read_u16_be (drop 4 wire);
       h_message_type := read_u16_be (drop 6 wire);
       h_payload_length := read_u32_be (drop 8 wire) |} in
  match validate_header decoded with
  | FAULTLINE_PROTOCOL_OK => inr decoded
  | error => inl error
  end.

(** ** Validation of host values *)

Definition valid_task (task : Z) : bool :=
  (task =? task_type_value FAULTLINE_TASK_SLEEP) ||
  (task =? task_type_value FAULTLINE_TASK_PRIME_COUNT) ||
  (task =? task_type_value FAULTLINE_TASK_FIBONACCI) ||
  (task =? task_type_value FAULTLINE_TASK_HASH).

Definition validate_identity (identity : faultline_job_identity) : faultline_protocol_result :=
  if i_job_id identity =? 0 then FAULTLINE_PROTOCOL_INVALID_JOB_ID
  else if i_worker_id identity =? 0 then FAULTLINE_PROTOCOL_INVALID_WORKER_ID
  else if i_attempt identity =? 0 then FAULTLINE_PROTOCOL_INVALID_ATTEMPT
  else FAULTLINE_PROTOCOL_OK.

Definition validate_job_status (status : faultline_job_status_payload) :
    faultline_protocol_result :=
  let state := st_state status in
  let in_state s := state =? job_state_value s in
  if st_job_id status =? 0 then FAULTLINE_PROTOCOL_INVALID_JOB_ID
  else if (state <? job_state_value FAULTLINE_JOB_QUEUED) ||
          (job_state_value FAULTLINE_JOB_FAILED <? state) then
    FAULTLINE_PROTOCOL_INVALID_JOB_STATE
  else if (st_max_retries status <? st_retry_count status) ||
          (in_state FAULTLINE_JOB_FAILED && (st_retry_count status !=? st_max_retries status)) then
    FAULTLINE_PROTOCOL_INVALID_RETRY_COUNT
  else
    let queued := in_state FAULTLINE_JOB_QUEUED in
    if (queued && (st_worker_id status !=? 0)) || (negb queued && (st_worker_id status =? 0)) then
      FAULTLINE_PROTOCOL_INVALID_WORKER_ID
    else
      let expected_attempt := st_retry_count status + (if queued then 0 else 1) in
      if st_attempt status !=? expected_attempt then FAULTLINE_PROTOCOL_INVALID_ATTEMPT
      else
        let has_failure := in_state FAULTLINE_JOB_FAILED || (queued && (st_attempt status !=? 0)) in
        if (if has_failure then
              (st_failure status !=? job_failure_value FAULTLINE_JOB_FAILURE_TASK) &&
              (st_failure status !=? job_failure_value FAULTLINE_JOB_FAILURE_WORKER_LOST)
            else st_failure status !=? job_failure_value FAULTLINE_JOB_FAILURE_NONE) then
          FAULTLINE_PROTOCOL_INVALID_FAILURE
        else if negb (in_state FAULTLINE_JOB_DONE) && (st_result_size status !=? 0) then
          FAULTLINE_PROTOCOL_INVALID_PAYLOAD_LENGTH
        else FAULTLINE_PROTOCOL_OK.

(** The fields of a listing entry that the status rules check. *)
Definition summary_status (entry : faultline_job_summary) : faultline_job_status_payload :=
  {| st_job_id := js_job_id entry; st_state := js_state entry;
     st_worker_id := js_worker_id entry; st_attempt := js_attempt entry;
     st_retry_count := js_retry_count entry; st_max_retries := js_max_retries entry;
     st_failure := js_failure entry; st_result_size := js_result_size entry;
     st_result := [] |}.

(** The loop of [validate_jobs]; [previous] is the ID of entry [i - 1], if any. *)
Fixpoint validate_job_entries (previous : option Z) (entries : list faultline_job_summary) :
    faultline_protocol_result :=
  match entries with
  | [] => FAULTLINE_PROTOCOL_OK
  | entry :: rest =>
      match validate_job_status (summary_status entry) with
      | FAULTLINE_PROTOCOL_OK =>
          if negb (valid_task (js_task_type entry)) then FAULTLINE_PROTOCOL_INVALID_TASK_TYPE
          else if FAULTLINE_JOB_MAX_RESULT_SIZE <? js_result_size entry then
            FAULTLINE_PROTOCOL_PAYLOAD_TOO_LARGE
          else if match previous with Some id => js_job_id entry <=? id | None => false end then
            FAULTLINE_PROTOCOL_INVALID_LIST_ORDER
          else validate_job_entries (Some (js_job_id entry)) rest
      | error => error
      end
  end.

Definition validate_jobs (entries : list faultline_job_summary) : faultline_protocol_result :=
  if FAULTLINE_JOBS_MAX_ENTRIES <? Z.of_nat (length entries) then
    FAULTLINE_PROTOCOL_INVALID_LIST_COUNT
  else validate_job_entries None entries.

Fixpoint validate_worker_entries (previous : option Z)
    (entries : list faultline_worker_summary) : faultline_protocol_result :=
  match entries with
  | [] => FAULTLINE_PROTOCOL_OK
  | entry :: rest =>
      if ws_worker_id entry =? 0 then FAULTLINE_PROTOCOL_INVALID_WORKER_ID
      else if (ws_state entry !=? FAULTLINE_WORKER_VIEW_ALIVE) &&
              (ws_state entry !=? FAULTLINE_WORKER_VIEW_DEAD) then
        FAULTLINE_PROTOCOL_INVALID_WORKER_STATE
      else if negb (Bool.eqb (ws_job_id entry =? 0) (ws_attempt entry =? 0)) then
        FAULTLINE_PROTOCOL_INVALID_ATTEMPT
      else if (ws_state entry =? FAULTLINE_WORKER_VIEW_DEAD) && (ws_job_id entry !=? 0) then
        FAULTLINE_PROTOCOL_INVALID_JOB_ID
      else if match previous with Some id => ws_worker_id entry <=? id | None => false end then
        FAULTLINE_PROTOCOL_INVALID_LIST_ORDER
      else validate_worker_entries (Some (ws_worker_id entry)) rest
  end.

Definition validate_workers (list : faultline_workers_payload) : faultline_protocol_result :=
  if FAULTLINE_WORKERS_MAX_ENTRIES <? Z.of_nat (length (wl_entries list)) then
    FAULTLINE_PROTOCOL_INVALID_LIST_COUNT
  else if wl_heartbeat_timeout_ms list =? 0 then FAULTLINE_PROTOCOL_INVALID_HEARTBEAT_TIMEOUT
  else validate_worker_entries None (wl_entries list).

(** [uint64_t] arithmetic: every sum, difference and product can wrap. *)
Definition validate_stats (s : faultline_stats_payload) : faultline_protocol_result :=
  if (FAULTLINE_JOBS_MAX_ENTRIES <? jobs_submitted_total s) ||
     (jobs_submitted_total s <? jobs_queued s) || (jobs_submitted_total s <? jobs_assigned s) ||
     (jobs_submitted_total s <? jobs_running s) ||
     (jobs_submitted_total s <? jobs_completed_total s) ||
     (jobs_submitted_total s <? jobs_failed_total s) ||
     (u64 (jobs_submitted_total s * UINT32_MAX) <? job_retries_total s) ||
     (FAULTLINE_WORKERS_MAX_ENTRIES <? workers_retained s) ||
     (workers_retained s <? workers_alive s) || (workers_retained s <? workers_expired s) ||
     (workers_retained s <? workers_dead s) || (workers_alive s <? workers_busy s) ||
     (workers_alive s <? workers_idle s)
  then FAULTLINE_PROTOCOL_INVALID_STATS
  else if
     (u64 (u64 (u64 (u64 (jobs_queued s + jobs_assigned s) + jobs_running s) +
                jobs_completed_total s) + jobs_failed_total s) !=? jobs_submitted_total s) ||
     (job_attempts_total s !=?
        u64 (u64 (job_retries_total s + jobs_submitted_total s) - jobs_queued s)) ||
     (u64 (u64 (workers_alive s + workers_expired s) + workers_dead s) !=? workers_retained s) ||
     (u64 (workers_busy s + workers_idle s) !=? workers_alive s) ||
     (u64 (jobs_assigned s + jobs_running s) <? workers_busy s) ||
     (jobs_submitted_total s <? startup_jobs_recovered s) ||
     (startup_jobs_recovered s <? startup_interrupted_jobs s) ||
     (session_jobs_submitted s !=? u64 (jobs_submitted_total s - startup_jobs_recovered s)) ||
     (jobs_completed_total s <? session_jobs_completed s) ||
     (jobs_failed_total s <? session_jobs_failed s) ||
     (job_retries_total s <? session_job_retries s) ||
     (INT64_MAX <? completed_latency_avg_ms s) ||
     ((jobs_completed_total s =? 0) && (completed_latency_avg_ms s !=? 0)) ||
     (INT64_MAX <? session_uptime_ms s) || (INT64_MAX <? startup_duration_ms s) ||
     (heartbeat_timeout_ms s =? 0) || (INT_MAX <? heartbeat_timeout_ms s)
  then FAULTLINE_PROTOCOL_INVALID_STATS
  else FAULTLINE_PROTOCOL_OK.

(** The switch of [validate_message]: the identity to check, if any, and
    [data_size]. *)
Definition validate_payload (m : faultline_message) :
    faultline_protocol_result + option faultline_job_identity * Z :=
  let checked (r : faultline_protocol_result) size :=
    match r with FAULTLINE_PROTOCOL_OK => inr (None, size) | error => inl error end in
  match m with
  | MsgPing worker | MsgPong worker | MsgWorkerRegister worker | MsgJobsRequest worker
  | MsgWorkersRequest worker | MsgStatsRequest worker =>
      refuse worker !=? 0 with FAULTLINE_PROTOCOL_INVALID_WORKER_ID in inr (None, 0)
  | MsgWorkerRegisterAck worker | MsgHeartbeat worker =>
      refuse worker =? 0 with FAULTLINE_PROTOCOL_INVALID_WORKER_ID in inr (None, 0)
  | MsgJobSubmit submit =>
      refuse negb (valid_task (s_task_type submit)) with FAULTLINE_PROTOCOL_INVALID_TASK_TYPE in
      inr (None, s_argument_size submit)
  | MsgJobSubmitAck id | MsgJobStatusRequest id | MsgJobStatusNotFound id =>
      refuse id =? 0 with FAULTLINE_PROTOCOL_INVALID_JOB_ID in inr (None, 0)
  | MsgJobAssign assign =>
      refuse negb (valid_task (a_task_type assign)) with FAULTLINE_PROTOCOL_INVALID_TASK_TYPE in
      inr (Some (a_identity assign), a_argument_size assign)
  | MsgJobStarted identity => inr (Some identity, 0)
  | MsgJobCompleted completed => inr (Some (c_identity completed), c_result_size completed)
  | MsgJobFailed failed =>
      refuse f_failure failed !=? job_failure_value FAULTLINE_JOB_FAILURE_TASK
        with FAULTLINE_PROTOCOL_INVALID_FAILURE in
      inr (Some (f_identity failed), 0)
  | MsgJobStatusResponse status => checked (validate_job_status status) (st_result_size status)
  | MsgJobsResponse entries =>
      checked (validate_jobs entries) (Z.of_nat (length entries) * FAULTLINE_JOB_SUMMARY_SIZE)
  | MsgWorkersResponse list =>
      checked (validate_workers list)
        (Z.of_nat (length (wl_entries list)) * FAULTLINE_WORKER_SUMMARY_SIZE)
  | MsgStatsResponse stats => checked (validate_stats stats) 0
  | MsgOther _ => inl FAULTLINE_PROTOCOL_UNKNOWN_MESSAGE_TYPE
  end.

(** [inr] is [*payload_size]. *)
Definition validate_message (m : faultline_message) : faultline_protocol_result + Z :=
  match message_payload_bounds (message_type m) with
  | None => inl FAULTLINE_PROTOCOL_UNKNOWN_MESSAGE_TYPE
  | Some (minimum, maximum) =>
      let! (identity, data_size) := validate_payload m in
      match option_map validate_identity identity with
      | None | Some FAULTLINE_PROTOCOL_OK =>
          refuse maximum - minimum <? data_size with FAULTLINE_PROTOCOL_PAYLOAD_TOO_LARGE in
          inr (minimum + u32 data_size)
      | Some error => inl error
      end
  end.

(** ** Encoding *)

Definition write_identity (identity : faultline_job_identity) : list Z :=
  write_u64_be (i_job_id identity) ++ write_u32_be (i_worker_id identity) ++
  write_u64_be (i_attempt identity).

Definition write_job_summary (entry : faultline_job_summary) : list Z :=
  write_u64_be (js_job_id entry) ++ write_u16_be (js_task_type entry) ++
  write_u16_be (js_state entry) ++ write_u32_be (js_worker_id entry) ++
  write_u64_be (js_attempt entry) ++ write_u32_be (js_retry_count entry) ++
  write_u32_be (js_max_retries entry) ++ write_u16_be (js_failure entry) ++
  write_u32_be (js_result_size entry).

Definition write_worker_summary (entry : faultline_worker_summary) : list Z :=
  write_u32_be (ws_worker_id entry) ++ write_u16_be (ws_state entry) ++
  write_u64_be (ws_heartbeat_age_ms entry) ++ write_u64_be (ws_job_id entry) ++
  write_u64_be (ws_attempt entry).

(** The 24 counters in wire order. *)
Definition stats_fields (s : faultline_stats_payload) : list Z :=
  [jobs_submitted_total s; jobs_queued s; jobs_assigned s; jobs_running s;
   jobs_completed_total s; jobs_failed_total s; job_attempts_total s; job_retries_total s;
   completed_latency_avg_ms s; workers_retained s; workers_alive s; workers_expired s;
   workers_dead s; workers_busy s; workers_idle s; session_uptime_ms s;
   session_jobs_submitted s; session_jobs_completed s; session_jobs_failed s;
   session_job_retries s; startup_jobs_recovered s; startup_interrupted_jobs s;
   startup_duration_ms s; heartbeat_timeout_ms s].

(** The switch of [faultline_message_encode]: the bytes after the header. *)
Definition encode_payload (m : faultline_message) : list Z :=
  match m with
  | MsgWorkerRegisterAck worker | MsgHeartbeat worker => write_u32_be worker
  | MsgJobSubmit submit =>
      write_u16_be (s_task_type submit) ++ write_u32_be (s_max_retries submit) ++
      write_u32_be (u32 (s_argument_size submit)) ++
      take (Z.to_nat (s_argument_size submit)) (s_arguments submit)
  | MsgJobSubmitAck id => write_u64_be id
  | MsgJobAssign assign =>
      write_identity (a_identity assign) ++ write_u16_be (a_task_type assign) ++
      write_u32_be (u32 (a_argument_size assign)) ++
      take (Z.to_nat (a_argument_size assign)) (a_arguments assign)
  | MsgJobStarted identity => write_identity identity
  | MsgJobCompleted completed =>
      write_identity (c_identity completed) ++ write_u32_be (u32 (c_result_size completed)) ++
      take (Z.to_nat (c_result_size completed)) (c_result completed)
  | MsgJobFailed failed => write_identity (f_identity failed) ++ write_u16_be (f_failure failed)
  | MsgJobStatusRequest id => write_u64_be id
  | MsgJobStatusResponse status =>
      write_u64_be (st_job_id status) ++ write_u16_be (st_state status) ++
      write_u32_be (st_worker_id status) ++ write_u64_be (st_attempt status) ++
      write_u32_be (st_retry_count status) ++ write_u32_be (st_max_retries status) ++
      write_u16_be (st_failure status) ++ write_u32_be (u32 (st_result_size status)) ++
      take (Z.to_nat (st_result_size status)) (st_result status)
  | MsgJobStatusNotFound id => write_u64_be id
  | MsgJobsResponse entries =>
      write_u32_be (u32 (Z.of_nat (length entries))) ++ concat (map write_job_summary entries)
  | MsgWorkersResponse list =>
      write_u32_be (u32 (Z.of_nat (length (wl_entries list)))) ++
      write_u32_be (wl_heartbeat_timeout_ms list) ++
      concat (map write_worker_summary (wl_entries list))
  | MsgStatsResponse stats => concat (map write_u64_be (stats_fields stats))
  | _ => []
  end.

(** [wire_size] is the room in the output buffer; the result is the frame
    written, [*written] its length. *)
Definition faultline_message_encode (wire_size : Z) (m : faultline_message) :
    faultline_protocol_result + list Z :=
  let! payload_length := validate_message m in
  let frame_size := FAULTLINE_HEADER_SIZE + payload_length in
  refuse wire_size <? frame_size with FAULTLINE_PROTOCOL_BUFFER_TOO_SMALL in
  let! header := faultline_header_encode wire_size
    {| h_magic := FAULTLINE_PROTOCOL_MAGIC; h_version := FAULTLINE_PROTOCOL_VERSION;
       h_message_type := message_type m; h_payload_length := payload_length |} in
  inr (header ++ encode_payload m).

(** ** Decoding *)

Definition read_identity (bytes : list Z) : faultline_job_identity :=
  {| i_job_id := read_u64_be bytes; i_worker_id := read_u32_be (drop 8 bytes);
     i_attempt := read_u64_be (drop 12 bytes) |}.

Definition read_job_summary (bytes : list Z) : faultline_job_summary :=
  {| js_job_id := read_u64_be bytes; js_task_type := read_u16_be (drop 8 bytes);
     js_state := read_u16_be (drop 10 bytes); js_worker_id := read_u32_be (drop 12 bytes);
     js_attempt := read_u64_be (drop 16 bytes); js_retry_count := read_u32_be (drop 24 bytes);
     js_max_retries := read_u32_be (drop 28 bytes); js_failure := read_u16_be (drop 32 bytes);
     js_result_size := read_u32_be (drop 34 bytes) |}.

Definition read_worker_summary (bytes : list Z) : faultline_worker_summary :=
  {| ws_worker_id := read_u32_be bytes; ws_state := read_u16_be (drop 4 bytes);
     ws_heartbeat_age_ms := read_u64_be (drop 6 bytes); ws_job_id := read_u64_be (drop 14 bytes);
     ws_attempt := read_u64_be (drop 22 bytes) |}.

Definition read_stats (bytes : list Z) : faultline_stats_payload :=
  let field offset := read_u64_be (drop offset bytes) in
  {| jobs_submitted_total := field 0%nat; jobs_queued := field 8%nat;
     jobs_assigned := field 16%nat; jobs_running := field 24%nat;
     jobs_completed_total := field 32%nat; jobs_failed_total := field 40%nat;
     job_attempts_total := field 48%nat; job_retries_total := field 56%nat;
     completed_latency_avg_ms := field 64%nat; workers_retained := field 72%nat;
     workers_alive := field 80%nat; workers_expired := field 88%nat;
     workers_dead := field 96%nat; workers_busy := field 104%nat;
     workers_idle := field 112%nat; session_uptime_ms := field 120%nat;
     session_jobs_submitted := field 128%nat; session_jobs_completed := field 136%nat;
     session_jobs_failed := field 144%nat; session_job_retries := field 152%nat;
     startup_jobs_recovered := field 160%nat; startup_interrupted_jobs := field 168%nat;
     startup_duration_ms := field 176%nat; heartbeat_timeout_ms := field 184%nat |}.

(** The entries of a list payload: [count] reads, [stride] bytes apart. *)
Fixpoint read_entries {A} (read : list Z -> A) (stride : nat) (count : nat) (bytes : list Z) :
    list A :=
  match count with
  | O => []
  | S count => read bytes :: read_entries read stride count (drop stride bytes)
  end.

(** The checks of a list payload, in the order of the code; [inr] is [count]. *)
Definition decode_list_count (jobs : bool) (available payload_length minimum : Z)
    (payload : list Z) : faultline_protocol_result + nat :=
  let count := read_u32_be payload in
  let limit := if jobs then FAULTLINE_JOBS_MAX_ENTRIES else FAULTLINE_WORKERS_MAX_ENTRIES in
  let stride := if jobs then FAULTLINE_JOB_SUMMARY_SIZE else FAULTLINE_WORKER_SUMMARY_SIZE in
  refuse limit <? count with FAULTLINE_PROTOCOL_INVALID_LIST_COUNT in
  refuse payload_length !=? u32 (minimum + u32 (count * stride))
    with FAULTLINE_PROTOCOL_INVALID_PAYLOAD_LENGTH in
  refuse negb jobs && (read_u32_be (drop 4 payload) =? 0)
    with FAULTLINE_PROTOCOL_INVALID_HEARTBEAT_TIMEOUT in
  refuse available <? FAULTLINE_HEADER_SIZE + payload_length
    with FAULTLINE_PROTOCOL_BUFFER_TOO_SMALL in
  inr (Z.to_nat count).

(** The switch of [faultline_message_decode]: the fixed fields. Variable data is
    left empty; [available] is [wire_size]. *)
Definition decode_prefix (ty available payload_length minimum : Z) (payload : list Z) :
    faultline_protocol_result + faultline_message :=
  if ty =? FAULTLINE_MSG_PING then inr (MsgPing 0)
  else if ty =? FAULTLINE_MSG_PONG then inr (MsgPong 0)
  else if ty =? FAULTLINE_MSG_WORKER_REGISTER then inr (MsgWorkerRegister 0)
  else if ty =? FAULTLINE_MSG_WORKER_REGISTER_ACK then
    inr (MsgWorkerRegisterAck (read_u32_be payload))
  else if ty =? FAULTLINE_MSG_HEARTBEAT then inr (MsgHeartbeat (read_u32_be payload))
  else if ty =? FAULTLINE_MSG_JOB_SUBMIT then
    inr (MsgJobSubmit
      {| s_task_type := read_u16_be payload; s_max_retries := read_u32_be (drop 2 payload);
         s_argument_size := read_u32_be (drop 6 payload); s_arguments := [] |})
  else if ty =? FAULTLINE_MSG_JOB_SUBMIT_ACK then inr (MsgJobSubmitAck (read_u64_be payload))
  else if ty =? FAULTLINE_MSG_JOB_ASSIGN then
    inr (MsgJobAssign
      {| a_identity := read_identity payload; a_task_type := read_u16_be (drop 20 payload);
         a_argument_size := read_u32_be (drop 22 payload); a_arguments := [] |})
  else if ty =? FAULTLINE_MSG_JOB_STARTED then inr (MsgJobStarted (read_identity payload))
  else if ty =? FAULTLINE_MSG_JOB_COMPLETED then
    inr (MsgJobCompleted
      {| c_identity := read_identity payload; c_result_size := read_u32_be (drop 20 payload);
         c_result := [] |})
  else if ty =? FAULTLINE_MSG_JOB_FAILED then
    inr (MsgJobFailed
      {| f_identity := read_identity payload; f_failure := read_u16_be (drop 20 payload) |})
  else if ty =? FAULTLINE_MSG_JOB_STATUS_REQUEST then
    inr (MsgJobStatusRequest (read_u64_be payload))
  else if ty =? FAULTLINE_MSG_JOB_STATUS_RESPONSE then
    inr (MsgJobStatusResponse
      {| st_job_id := read_u64_be payload; st_state := read_u16_be (drop 8 payload);
         st_worker_id := read_u32_be (drop 10 payload);
         st_attempt := read_u64_be (drop 14 payload);
         st_retry_count := read_u32_be (drop 22 payload);
         st_max_retries := read_u32_be (drop 26 payload);
         st_failure := read_u16_be (drop 30 payload);
         st_result_size := read_u32_be (drop 32 payload); st_result := [] |})
  else if ty =? FAULTLINE_MSG_JOB_STATUS_NOT_FOUND then
    inr (MsgJobStatusNotFound (read_u64_be payload))
  else if ty =? FAULTLINE_MSG_JOBS_REQUEST then inr (MsgJobsRequest 0)
  else if ty =? FAULTLINE_MSG_JOBS_RESPONSE then
    let! count := decode_list_count true available payload_length minimum payload in
    inr (MsgJobsResponse
      (read_entries read_job_summary (Z.to_nat FAULTLINE_JOB_SUMMARY_SIZE) count
         (drop (Z.to_nat minimum) payload)))
  else if ty =? FAULTLINE_MSG_WORKERS_REQUEST then inr (MsgWorkersRequest 0)
  else if ty =? FAULTLINE_MSG_WORKERS_RESPONSE then
    let! count := decode_list_count false available payload_length minimum payload in
    inr (MsgWorkersResponse
      {| wl_heartbeat_timeout_ms := read_u32_be (drop 4 payload);
         wl_entries := read_entries read_worker_summary
           (Z.to_nat FAULTLINE_WORKER_SUMMARY_SIZE) count (drop (Z.to_nat minimum) payload) |})
  else if ty =? FAULTLINE_MSG_STATS_REQUEST then inr (MsgStatsRequest 0)
  else if ty =? FAULTLINE_MSG_STATS_RESPONSE then inr (MsgStatsResponse (read_stats payload))
  else inr (MsgOther ty).

(** The final copy into [data], for the messages that set it. *)
Definition attach_data (bytes : list Z) (m : faultline_message) : faultline_message :=
  match m with
  | MsgJobSubmit s =>
      MsgJobSubmit (mk_submit (s_task_type s) (s_max_retries s) (s_argument_size s) bytes)
  | MsgJobAssign a =>
      MsgJobAssign (mk_assign (a_identity a) (a_task_type a) (a_argument_size a) bytes)
  | MsgJobCompleted c => MsgJobCompleted (mk_completed (c_identity c) (c_result_size c) bytes)
  | MsgJobStatusResponse s =>
      MsgJobStatusResponse
        (mk_status (st_job_id s) (st_state s) (st_worker_id s) (st_attempt s)
           (st_retry_count s) (st_max_retries s) (st_failure s) (st_result_size s) bytes)
  | _ => m
  end.

(** The message and [*consumed]. *)
Definition faultline_message_decode (wire : list Z) :
    faultline_protocol_result + faultline_message * Z :=
  let available := Z.of_nat (length wire) in
  let! header := faultline_header_decode wire in
  match message_payload_bounds (h_message_type header) with
  | None => inl FAULTLINE_PROTOCOL_UNKNOWN_MESSAGE_TYPE
  | Some (minimum, maximum) =>
      let payload_length := h_payload_length header in
      refuse (payload_length <? minimum) ||
             ((minimum =? maximum) && (payload_length !=? minimum))
        with FAULTLINE_PROTOCOL_INVALID_PAYLOAD_LENGTH in
      refuse maximum <? payload_length with FAULTLINE_PROTOCOL_PAYLOAD_TOO_LARGE in
      refuse available <? FAULTLINE_HEADER_SIZE + minimum
        with FAULTLINE_PROTOCOL_BUFFER_TOO_SMALL in
      let payload := drop (Z.to_nat FAULTLINE_HEADER_SIZE) wire in
      let! decoded :=
        decode_prefix (h_message_type header) available payload_length minimum payload in
      let! expected_size := validate_message decoded in
      refuse payload_length !=? expected_size with FAULTLINE_PROTOCOL_INVALID_PAYLOAD_LENGTH in
      let frame_size := FAULTLINE_HEADER_SIZE + expected_size in
      refuse available <? frame_size with FAULTLINE_PROTOCOL_BUFFER_TOO_SMALL in
      let data := take (Z.to_nat (expected_size - minimum)) (drop (Z.to_nat minimum) payload) in
      inr (attach_data data decoded, frame_size)
  end.
