(* ===== verification/WorkerRegistry.v ===== *)
(** Live worker registry: [include/worker_registry.h],
    [src/coordinator/worker_registry.c].

    64 slots and the allocator of worker IDs. The theorems: the registry
    invariant (distinct IDs below the allocator, distinct live descriptors), IDs
    issued over any history are strictly increasing, so none is ever reused even
    when slots are, and the exact liveness deadline. *)

From S2P Require Import Prelude Protocol.

(** ** Data *)

Definition FAULTLINE_MAX_WORKERS : nat := 64.

Inductive faultline_worker_state :=
| FAULTLINE_WORKER_UNUSED
| FAULTLINE_WORKER_ALIVE
| FAULTLINE_WORKER_DEAD.

#[export] Instance faultline_worker_state_eq_dec : EqDecision faultline_worker_state.
Proof. solve_decision. Defined.

Record faultline_worker := mk_worker {
  w_id : Z;
  w_fd : Z;
  w_state : faultline_worker_state;
  w_last_heartbeat_ms : Z;
}.

#[export] Instance set_w_fd : Setter w_fd := fun v w =>
  mk_worker (w_id w) v (w_state w) (w_last_heartbeat_ms w).
#[export] Instance set_w_state : Setter w_state := fun v w =>
  mk_worker (w_id w) (w_fd w) v (w_last_heartbeat_ms w).
#[export] Instance set_w_last_heartbeat_ms : Setter w_last_heartbeat_ms := fun v w =>
  mk_worker (w_id w) (w_fd w) (w_state w) v.

#[export] Instance faultline_worker_inhabited : Inhabited faultline_worker :=
  populate (mk_worker 0 0 FAULTLINE_WORKER_UNUSED 0).

Record faultline_worker_registry := mk_registry {
  workers : list faultline_worker;
  next_worker_id : Z;
}.

Inductive faultline_registry_result :=
| FAULTLINE_REGISTRY_OK
| FAULTLINE_REGISTRY_INVALID_ARGUMENT
| FAULTLINE_REGISTRY_ALREADY_REGISTERED
| FAULTLINE_REGISTRY_FULL
| FAULTLINE_REGISTRY_ID_EXHAUSTED
| FAULTLINE_REGISTRY_NOT_FOUND
| FAULTLINE_REGISTRY_NOT_ALIVE
| FAULTLINE_REGISTRY_CONNECTION_MISMATCH.

#[export] Instance faultline_registry_result_eq_dec : EqDecision faultline_registry_result.
Proof. solve_decision. Defined.

(** ** Operations *)

Definition faultline_worker_registry_init : faultline_worker_registry :=
  mk_registry (replicate FAULTLINE_MAX_WORKERS (mk_worker 0 (-1) FAULTLINE_WORKER_UNUSED 0)) 1.

Definition find_slot (registry : faultline_worker_registry) (id : Z) : nat :=
  first_index (fun w => bool_decide (w_state w <> FAULTLINE_WORKER_UNUSED) && (w_id w =? id))
    (workers registry).

(** NULL is [None]. *)
Definition faultline_worker_find (registry : faultline_worker_registry) (id : Z) :
    option faultline_worker :=
  if id =? FAULTLINE_WORKER_ID_UNASSIGNED then None
  else
    let slot := find_slot registry id in
    if (slot =? FAULTLINE_MAX_WORKERS)%nat then None else Some (workers registry !!! slot).

Definition faultline_worker_timed_out (worker : option faultline_worker)
    (now_ms timeout_ms : Z) : bool :=
  match worker with
  | None => false
  | Some w =>
      bool_decide (w_state w = FAULTLINE_WORKER_ALIVE) && (0 <? timeout_ms) &&
      (0 <=? w_last_heartbeat_ms w) && (w_last_heartbeat_ms w <=? now_ms) &&
      (timeout_ms <=? now_ms - w_last_heartbeat_ms w)
  end.

(** The search loop of [faultline_worker_register]: [None] is the early return
    [ALREADY_REGISTERED], else the first slot that is not alive (64 for none). *)
Fixpoint register_scan (ws : list faultline_worker) (i slot : nat) (fd : Z) : option nat :=
  match ws with
  | [] => Some slot
  | w :: rest =>
      if bool_decide (w_state w = FAULTLINE_WORKER_ALIVE) && (w_fd w =? fd) then None
      else
        register_scan rest (S i)
          (if bool_decide (w_state w <> FAULTLINE_WORKER_ALIVE) &&
              (slot =? FAULTLINE_MAX_WORKERS)%nat
           then i else slot) fd
  end.

(** Result code, the new ID ([*worker_id], on success only) and the registry. *)
Definition faultline_worker_register (registry : faultline_worker_registry) (fd now_ms : Z) :
    faultline_registry_result * option Z * faultline_worker_registry :=
  if (fd <? 0) || (now_ms <? 0) then (FAULTLINE_REGISTRY_INVALID_ARGUMENT, None, registry)
  else
    match register_scan (workers registry) 0 FAULTLINE_MAX_WORKERS fd with
    | None => (FAULTLINE_REGISTRY_ALREADY_REGISTERED, None, registry)
    | Some slot =>
        if (slot =? FAULTLINE_MAX_WORKERS)%nat then (FAULTLINE_REGISTRY_FULL, None, registry)
        else if next_worker_id registry =? FAULTLINE_WORKER_ID_UNASSIGNED then
          (FAULTLINE_REGISTRY_ID_EXHAUSTED, None, registry)
        else
          let id := next_worker_id registry in
          (FAULTLINE_REGISTRY_OK, Some id,
           mk_registry
             (<[slot := mk_worker id fd FAULTLINE_WORKER_ALIVE now_ms]> (workers registry))
             (if id =? UINT32_MAX then FAULTLINE_WORKER_ID_UNASSIGNED else u32 (id + 1)))
    end.

(** The slot of the live connection, or the error. *)
Definition find_live_connection (registry : faultline_worker_registry) (id fd : Z) :
    faultline_registry_result * nat :=
  let slot := find_slot registry id in
  if fd <? 0 then (FAULTLINE_REGISTRY_INVALID_ARGUMENT, slot)
  else if (slot =? FAULTLINE_MAX_WORKERS)%nat then (FAULTLINE_REGISTRY_NOT_FOUND, slot)
  else if bool_decide (w_state (workers registry !!! slot) <> FAULTLINE_WORKER_ALIVE) then
    (FAULTLINE_REGISTRY_NOT_ALIVE, slot)
  else if w_fd (workers registry !!! slot) !=? fd then
    (FAULTLINE_REGISTRY_CONNECTION_MISMATCH, slot)
  else (FAULTLINE_REGISTRY_OK, slot).

Definition faultline_worker_heartbeat (registry : faultline_worker_registry) (id fd now_ms : Z) :
    faultline_registry_result * faultline_worker_registry :=
  if now_ms <? 0 then (FAULTLINE_REGISTRY_INVALID_ARGUMENT, registry)
  else
    match find_live_connection registry id fd with
    | (FAULTLINE_REGISTRY_OK, slot) =>
        let worker := workers registry !!! slot in
        if now_ms <? w_last_heartbeat_ms worker then
          (FAULTLINE_REGISTRY_INVALID_ARGUMENT, registry)
        else
          (FAULTLINE_REGISTRY_OK,
           mk_registry (<[slot := worker <| w_last_heartbeat_ms := now_ms |>]> (workers registry))
             (next_worker_id registry))
    | (error, _) => (error, registry)
    end.

Definition faultline_worker_mark_dead (registry : faultline_worker_registry) (id fd : Z) :
    faultline_registry_result * faultline_worker_registry :=
  match find_live_connection registry id fd with
  | (FAULTLINE_REGISTRY_OK, slot) =>
      let worker := workers registry !!! slot in
      (FAULTLINE_REGISTRY_OK,
       mk_registry
         (<[slot := worker <| w_state := FAULTLINE_WORKER_DEAD |> <| w_fd := -1 |>]>
            (workers registry))
         (next_worker_id registry))
  | (error, _) => (error, registry)
  end.

(** ** Invariant *)

Definition used (w : faultline_worker) : Prop := w_state w <> FAULTLINE_WORKER_UNUSED.
Definition alive (w : faultline_worker) : Prop := w_state w = FAULTLINE_WORKER_ALIVE.

Record registry_wf (r : faultline_worker_registry) : Prop := {
  reg_length : length (workers r) = FAULTLINE_MAX_WORKERS;
  reg_next : in_u32 (next_worker_id r);
  reg_ids : forall w, w ∈ workers r -> used w ->
    0 < w_id w <= UINT32_MAX /\ (next_worker_id r = 0 \/ w_id w < next_worker_id r) /\
    0 <= w_last_heartbeat_ms w;
  reg_unique : forall i k v w, workers r !! i = Some v -> workers r !! k = Some w ->
    used v -> used w -> w_id v = w_id w -> i = k;
  reg_fds : forall w, w ∈ workers r -> alive w -> 0 <= w_fd w;
  reg_fd_unique : forall i k v w, workers r !! i = Some v -> workers r !! k = Some w ->
    alive v -> alive w -> w_fd v = w_fd w -> i = k;
}.

(** Every history of the registry: what it issues and the registry it ends in. *)
Inductive registry_op :=
| OpRegister (fd now_ms : Z)
| OpHeartbeat (id fd now_ms : Z)
| OpMarkDead (id fd : Z).

Definition run_registry_op (r : faultline_worker_registry) (op : registry_op) :
    option Z * faultline_worker_registry :=
  match op with
  | OpRegister fd now =>
      let '(_, id, r') := faultline_worker_register r fd now in (id, r')
  | OpHeartbeat id fd now => (None, snd (faultline_worker_heartbeat r id fd now))
  | OpMarkDead id fd => (None, snd (faultline_worker_mark_dead r id fd))
  end.

Fixpoint run_registry (r : faultline_worker_registry) (ops : list registry_op) :
    list Z * faultline_worker_registry :=
  match ops with
  | [] => ([], r)
  | op :: rest =>
      let '(id, r') := run_registry_op r op in
      let '(issued, final) := run_registry r' rest in (option_list id ++ issued, final)
  end.

(** ** Searching *)

Lemma register_scan_some ws i slot fd s :
  register_scan ws i slot fd = Some s ->
  (forall w, w ∈ ws -> alive w -> w_fd w <> fd) /\
  (s = slot \/ exists k w, s = (i + k)%nat /\ ws !! k = Some w /\ ~ alive w).
Proof.
  revert i slot. induction ws as [|w ws IH]; intros i slot; simpl.
  { intros [= ->]. split; [set_solver | by left]. }
  destruct (bool_decide _ && (w_fd w =? fd)) eqn:E; [done|]. intros Hs.
  apply IH in Hs as [Hf Hs]. split.
  - intros v [-> | Hv]%elem_of_cons Ha; [|by apply Hf].
    unfold alive in Ha. rewrite bool_decide_eq_true_2 in E by done. simpl in E. lia.
  - destruct Hs as [-> | (k & v & -> & Hv & Hd)].
    + destruct (bool_decide (w_state w <> FAULTLINE_WORKER_ALIVE) &&
                (slot =? FAULTLINE_MAX_WORKERS)%nat) eqn:E2; [|by left].
      apply andb_prop in E2 as [E2%bool_decide_eq_true _].
      right. exists 0%nat, w. split_and!; [lia|done|done].
    + right. exists (S k), v. split_and!; [lia|done|done].
Qed.

Lemma register_scan_none ws i slot fd :
  register_scan ws i slot fd = None <-> exists w, w ∈ ws /\ alive w /\ w_fd w = fd.
Proof.
  revert i slot. induction ws as [|w ws IH]; intros i slot; simpl.
  { set_solver. }
  destruct (bool_decide _ && (w_fd w =? fd)) eqn:E.
  - apply andb_prop in E as [E1%bool_decide_eq_true E2%Z.eqb_eq].
    split; [|done]. intros _. exists w. split_and!; [set_solver|done|done].
  - rewrite IH. split.
    + intros (v & ? & ? & ?). exists v. set_solver.
    + intros (v & [-> | Hv]%elem_of_cons & Ha & Hf); [|eauto].
      unfold alive in Ha. rewrite bool_decide_eq_true_2 in E by done. simpl in E. lia.
Qed.

Lemma register_scan_keeps ws i slot fd s :
  register_scan ws i slot fd = Some s -> slot <> FAULTLINE_MAX_WORKERS -> s = slot.
Proof.
  revert i. induction ws as [|w ws IH]; intros i; simpl; [naive_solver|].
  case_match; [done|]. intros Hs Hne.
  rewrite (proj2 (Nat.eqb_neq slot FAULTLINE_MAX_WORKERS) Hne), andb_false_r in Hs. eauto.
Qed.

Lemma register_scan_full ws i fd s :
  register_scan ws i FAULTLINE_MAX_WORKERS fd = Some s ->
  (i + length ws <= FAULTLINE_MAX_WORKERS)%nat ->
  s = FAULTLINE_MAX_WORKERS <-> forall w, w ∈ ws -> alive w.
Proof.
  revert i. induction ws as [|w ws IH]; intros i; cbn [register_scan length].
  { intros [= ->] _. set_solver. }
  destruct (bool_decide _ && (w_fd w =? fd)) eqn:E; [done|]. intros Hs Hi.
  rewrite Nat.eqb_refl, andb_true_r in Hs. case_bool_decide as Ea.
  - apply register_scan_keeps in Hs as ->; [|lia].
    split; [lia|]. intros H. exfalso. apply Ea, H. set_solver.
  - rewrite IH by (try done; lia). set_solver.
Qed.

Section wf.
Context (r : faultline_worker_registry) (Hr : registry_wf r).

Lemma find_slot_spec id :
  (find_slot r id <= FAULTLINE_MAX_WORKERS)%nat /\
  (find_slot r id = FAULTLINE_MAX_WORKERS <->
   forall w, w ∈ workers r -> used w -> w_id w <> id) /\
  (forall w, workers r !! find_slot r id = Some w -> used w /\ w_id w = id).
Proof using Hr.
  unfold find_slot. rewrite <- (reg_length r Hr). split_and!.
  - apply first_index_le.
  - rewrite first_index_none. unfold used. split; intros H w Hw.
    + intros Hu. specialize (H w Hw). rewrite bool_decide_eq_true_2 in H by done.
      simpl in H. lia.
    + case_bool_decide; [|done]. simpl. specialize (H w Hw ltac:(done)). lia.
  - intros w Hw. eapply first_index_lookup in Hw; [|done].
    apply andb_prop in Hw as [Hw%bool_decide_eq_true Hid%Z.eqb_eq]. done.
Qed.

Lemma find_slot_at k w :
  workers r !! k = Some w -> used w -> find_slot r (w_id w) = k.
Proof using Hr.
  intros Hw Hu. unfold find_slot. apply (first_index_unique _ _ _ w); [done| |].
  - rewrite bool_decide_eq_true_2 by done. simpl. lia.
  - intros k' y Hy [Hyu%bool_decide_eq_true Hid%Z.eqb_eq]%andb_prop.
    by eapply (reg_unique r Hr).
Qed.

Lemma find_live_connection_ok id fd slot :
  find_live_connection r id fd = (FAULTLINE_REGISTRY_OK, slot) ->
  exists w, workers r !! slot = Some w /\ workers r !!! slot = w /\ alive w /\
    w_id w = id /\ w_fd w = fd /\ 0 <= fd.
Proof using Hr.
  unfold find_live_connection. destruct (find_slot_spec id) as (Hle & _ & Hw).
  destruct (Z.ltb_spec fd 0); [done|].
  destruct (Nat.eqb_spec (find_slot r id) FAULTLINE_MAX_WORKERS); [done|].
  case_bool_decide as Ha; [done|].
  destruct (Z.eqb_spec (w_fd (workers r !!! find_slot r id)) fd); [|done]. simpl.
  intros [= <-].
  destruct (lookup_lt_is_Some_2 (workers r) (find_slot r id)) as [w Hx].
  { rewrite (reg_length r Hr). lia. }
  pose proof Hx as Ht%list_lookup_total_correct.
  exists w. rewrite Ht in *. destruct (Hw w Hx). done.
Qed.

(** Writing one slot keeps the invariant when the new record does not clash. *)
Lemma registry_update_wf slot w' next' :
  (slot < FAULTLINE_MAX_WORKERS)%nat -> in_u32 next' ->
  next' = 0 \/ next_worker_id r <> 0 /\ next_worker_id r <= next' ->
  (used w' -> 0 < w_id w' <= UINT32_MAX /\ (next' = 0 \/ w_id w' < next') /\
     0 <= w_last_heartbeat_ms w') ->
  (forall k w, k <> slot -> workers r !! k = Some w -> used w -> w_id w <> w_id w') ->
  (alive w' -> 0 <= w_fd w') ->
  (forall k w, k <> slot -> workers r !! k = Some w -> alive w -> alive w' -> w_fd w <> w_fd w') ->
  registry_wf (mk_registry (<[slot := w']> (workers r)) next').
Proof using Hr.
  intros Hslot Hnext Hmono Hw' Hids Hfd' Hfds. pose proof (reg_length r Hr) as Hlen.
  assert (forall k w, <[slot := w']> (workers r) !! k = Some w ->
            k = slot /\ w = w' \/ k <> slot /\ workers r !! k = Some w) as Hlook.
  { intros k w Hk. destruct (decide (k = slot)) as [->|].
    - rewrite list_lookup_insert_eq in Hk by lia. left. naive_solver.
    - rewrite list_lookup_insert_ne in Hk by done. by right. }
  constructor; simpl; [by rewrite length_insert | done | ..].
  - intros w [k Hk]%list_elem_of_lookup Hu.
    destruct (Hlook _ _ Hk) as [[-> ->] | [? Hk']]; [auto|].
    apply list_elem_of_lookup_2 in Hk'. destruct (reg_ids r Hr w Hk' Hu) as (?&?&?).
    split_and!; try done; lia.
  - intros i k v w Hi Hk Hv Hw He.
    destruct (Hlook _ _ Hi) as [[-> ->] | [? Hi']], (Hlook _ _ Hk) as [[-> ->] | [? Hk']];
      [done | | |by eapply (reg_unique r Hr)]; exfalso; by eapply Hids.
  - intros w [k Hk]%list_elem_of_lookup Ha.
    destruct (Hlook _ _ Hk) as [[-> ->] | [? Hk']]; [auto|].
    apply list_elem_of_lookup_2 in Hk'. by apply (reg_fds r Hr).
  - intros i k v w Hi Hk Hv Hw He.
    destruct (Hlook _ _ Hi) as [[-> ->] | [? Hi']], (Hlook _ _ Hk) as [[-> ->] | [? Hk']];
      [done | | |by eapply (reg_fd_unique r Hr)]; exfalso; by eapply Hfds.
Qed.

End wf.

(** ** The operations keep the invariant *)

Lemma init_unused w : w ∈ workers faultline_worker_registry_init -> ~ used w.
Proof. intros [-> _]%elem_of_replicate. unfold used. simpl. auto. Qed.

(** No slot is used, whatever the next ID. *)
Lemma unused_registry_wf n :
  in_u32 n -> registry_wf (mk_registry (workers faultline_worker_registry_init) n).
Proof.
  intros Hn. assert (forall w, w ∈ workers faultline_worker_registry_init -> ~ alive w) as Ha.
  { intros w [-> _]%elem_of_replicate. unfold alive. simpl. auto. }
  constructor; cbn [workers next_worker_id]; [done | done | ..].
  - intros w Hw Huw. by apply init_unused in Hw.
  - intros i k v w Hv%list_elem_of_lookup_2 _ Huv. by apply init_unused in Hv.
  - intros w Hw Haw. by apply Ha in Hw.
  - intros i k v w Hv%list_elem_of_lookup_2 _ Hav. by apply Ha in Hv.
Qed.

Lemma registry_init_wf : registry_wf faultline_worker_registry_init.
Proof. by apply (unused_registry_wf 1). Qed.

Lemma register_ok r fd now id r' :
  registry_wf r -> faultline_worker_register r fd now = (FAULTLINE_REGISTRY_OK, id, r') ->
  exists slot, (slot < FAULTLINE_MAX_WORKERS)%nat /\ id = Some (next_worker_id r) /\
    next_worker_id r <> 0 /\ 0 <= fd /\ 0 <= now /\
    (forall w, workers r !! slot = Some w -> ~ alive w) /\
    (forall w, w ∈ workers r -> alive w -> w_fd w <> fd) /\
    r' = mk_registry
      (<[slot := mk_worker (next_worker_id r) fd FAULTLINE_WORKER_ALIVE now]> (workers r))
      (if next_worker_id r =? UINT32_MAX then 0 else next_worker_id r + 1).
Proof.
  intros Hr. unfold faultline_worker_register.
  destruct (_ || _) eqn:E; [done|]. split_bools.
  destruct (register_scan _ _ _ _) as [slot|] eqn:Hs; [|done].
  destruct (Nat.eqb_spec slot FAULTLINE_MAX_WORKERS); [done|].
  destruct (Z.eqb_spec (next_worker_id r) FAULTLINE_WORKER_ID_UNASSIGNED) as [|Hn]; [done|].
  intros [= <- <-]. apply register_scan_some in Hs as [Hf [? | (k & w & -> & Hk & Hd)]]; [done|].
  simpl in *. exists k. pose proof (lookup_lt_Some _ _ _ Hk) as Hlt.
  rewrite (reg_length r Hr) in Hlt. unfold FAULTLINE_WORKER_ID_UNASSIGNED in *.
  split_and!; try done; try lia; [naive_solver|].
  pose proof (reg_next r Hr). destruct (Z.eqb_spec (next_worker_id r) UINT32_MAX); [done|].
  rewrite u32_id by ilia. done.
Qed.

Lemma register_wf r fd now res id r' :
  registry_wf r -> faultline_worker_register r fd now = (res, id, r') -> registry_wf r'.
Proof.
  intros Hr Hreg. destruct (decide (res = FAULTLINE_REGISTRY_OK)) as [->|Hne].
  - apply register_ok in Hreg as (slot & Hslot & -> & Hn & Hfd & Hnow & Hd & Hf & ->); [|done].
    pose proof (reg_next r Hr).
    apply registry_update_wf; simpl; try done.
    + case_match; ilia.
    + destruct (Z.eqb_spec (next_worker_id r) UINT32_MAX); [by left | right; lia].
    + intros _. destruct (Z.eqb_spec (next_worker_id r) UINT32_MAX); split_and!; try done; ilia.
    + intros k w _ Hk%list_elem_of_lookup_2 Hu.
      destruct (reg_ids r Hr w Hk Hu) as (?&?&?). lia.
    + intros k w _ Hk%list_elem_of_lookup_2 Ha _. by apply Hf.
  - unfold faultline_worker_register in Hreg. repeat case_match; by simplify_eq.
Qed.

Lemma used_alive w : alive w -> used w.
Proof. unfold alive, used. intros ->. done. Qed.

Lemma heartbeat_wf r id fd now : registry_wf r -> registry_wf (snd (faultline_worker_heartbeat r id fd now)).
Proof.
  intros Hr. unfold faultline_worker_heartbeat.
  destruct (Z.ltb_spec now 0); [done|].
  destruct (find_live_connection r id fd) as [res slot] eqn:E. destruct res; try done.
  destruct (find_live_connection_ok r Hr _ _ _ E) as (w & Hw & -> & Ha & <- & <- & ?).
  destruct (Z.ltb_spec now (w_last_heartbeat_ms w)); [done|]. simpl.
  pose proof (list_elem_of_lookup_2 _ _ _ Hw) as Hin.
  pose proof (lookup_lt_Some _ _ _ Hw) as Hlt. rewrite (reg_length r Hr) in Hlt.
  destruct (reg_ids r Hr w Hin (used_alive _ Ha)) as (?&Hn&?).
  pose proof (reg_next r Hr).
  apply registry_update_wf; simpl; try done.
  - destruct (decide (next_worker_id r = 0)); [by left | right; done].
  - intros k v Hk Hv Hu He. apply Hk. by eapply (reg_unique r Hr _ _ v w); eauto using used_alive.
  - intros k v Hk Hv Hav _ He. apply Hk. by eapply (reg_fd_unique r Hr _ _ v w).
Qed.

Lemma mark_dead_wf r id fd : registry_wf r -> registry_wf (snd (faultline_worker_mark_dead r id fd)).
Proof.
  intros Hr. unfold faultline_worker_mark_dead.
  destruct (find_live_connection r id fd) as [res slot] eqn:E. destruct res; try done.
  destruct (find_live_connection_ok r Hr _ _ _ E) as (w & Hw & -> & Ha & <- & <- & ?). simpl.
  pose proof (list_elem_of_lookup_2 _ _ _ Hw) as Hin.
  pose proof (lookup_lt_Some _ _ _ Hw) as Hlt. rewrite (reg_length r Hr) in Hlt.
  destruct (reg_ids r Hr w Hin (used_alive _ Ha)) as (?&Hn&?).
  apply registry_update_wf; simpl; try done.
  - apply (reg_next r Hr).
  - destruct (decide (next_worker_id r = 0)); [by left | right; done].
  - intros k v Hk Hv Hu He. apply Hk. by eapply (reg_unique r Hr _ _ v w); eauto using used_alive.
Qed.

Lemma run_registry_op_spec r op :
  registry_wf r ->
  let '(id, r') := run_registry_op r op in
  registry_wf r' /\
  match id with
  | Some i => 0 < i /\ i = next_worker_id r /\ (next_worker_id r' = 0 \/ i < next_worker_id r')
  | None => next_worker_id r' = next_worker_id r
  end.
Proof.
  intros Hr. destruct op as [fd now|id fd now|id fd]; simpl.
  - destruct (faultline_worker_register r fd now) as [[res id] r'] eqn:E.
    split; [by eapply register_wf|].
    destruct (decide (res = FAULTLINE_REGISTRY_OK)) as [->|Hne].
    + apply register_ok in E as (slot & ? & -> & ? & ? & ? & ? & ? & ->); [|done]. simpl.
      pose proof (reg_next r Hr). destruct (Z.eqb_spec (next_worker_id r) UINT32_MAX); ilia.
    + unfold faultline_worker_register in E. repeat case_match; by simplify_eq.
  - split; [by apply heartbeat_wf|]. unfold faultline_worker_heartbeat. by repeat case_match.
  - split; [by apply mark_dead_wf|]. unfold faultline_worker_mark_dead. by repeat case_match.
Qed.

Lemma run_registry_spec ops r :
  registry_wf r ->
  let '(issued, final) := run_registry r ops in
  registry_wf final /\ StronglySorted Z.lt issued /\
  Forall (fun i => next_worker_id r <> 0 /\ next_worker_id r <= i) issued.
Proof.
  revert r. induction ops as [|op ops IH]; intros r Hr; simpl.
  { split_and!; [done | constructor | constructor]. }
  pose proof (run_registry_op_spec r op Hr) as Hop.
  destruct (run_registry_op r op) as [id r']. destruct Hop as [Hr' Hid].
  specialize (IH r' Hr'). destruct (run_registry r' ops) as [issued final].
  destruct IH as (Hf & Hs & Hall). split; [done|]. destruct id as [i|]; simpl.
  - destruct Hid as (? & -> & Hi). split.
    + constructor; [done|]. eapply Forall_impl; [done|]. simpl. intros z. lia.
    + constructor; [lia|]. eapply Forall_impl; [done|]. simpl. intros z. lia.
  - rewrite Hid in Hall. done.
Qed.

Lemma worker_find_some r id w :
  registry_wf r -> faultline_worker_find r id = Some w ->
  w ∈ workers r /\ used w /\ w_id w = id /\ id <> 0.
Proof.
  intros Hr. unfold faultline_worker_find.
  destruct (Z.eqb_spec id FAULTLINE_WORKER_ID_UNASSIGNED); [done|].
  destruct (find_slot_spec r Hr id) as (Hle & _ & Hw).
  destruct (Nat.eqb_spec (find_slot r id) FAULTLINE_MAX_WORKERS); [done|]. intros [= <-].
  pose proof (reg_length r Hr).
  pose proof (lookup_total_lt (workers r) (find_slot r id) ltac:(lia)) as Hl.
  destruct (Hw _ Hl). split_and!; try done. by eapply list_elem_of_lookup_2.
Qed.

Lemma worker_find_at r k w :
  registry_wf r -> workers r !! k = Some w -> used w -> faultline_worker_find r (w_id w) = Some w.
Proof.
  intros Hr Hk Hu. unfold faultline_worker_find.
  destruct (reg_ids r Hr w (list_elem_of_lookup_2 _ _ _ Hk) Hu) as (?&_).
  destruct (Z.eqb_spec (w_id w) FAULTLINE_WORKER_ID_UNASSIGNED) as [E|_];
    [unfold FAULTLINE_WORKER_ID_UNASSIGNED in E; lia|].
  rewrite (find_slot_at r Hr k w Hk Hu).
  pose proof (lookup_lt_Some _ _ _ Hk) as Hlt. rewrite (reg_length r Hr) in Hlt.
  destruct (Nat.eqb_spec k FAULTLINE_MAX_WORKERS); [lia|].
  f_equal. by apply list_lookup_total_correct.
Qed.

(** ** Properties *)

(** C25: over any history of registrations, heartbeats and deaths, on a fresh
    registry, the IDs issued are nonzero and strictly increasing, so an ID is
    never issued twice although slots are reused; and the registry invariant
    (distinct IDs, distinct live descriptors, IDs below the allocator) holds. *)
Theorem registry_ids_never_reused (ops : list registry_op) :
  let '(issued, final) := run_registry faultline_worker_registry_init ops in
  registry_wf final /\ StronglySorted Z.lt issued /\ Forall (fun i => 1 <= i) issued.
Proof.
  pose proof (run_registry_spec ops _ registry_init_wf) as H.
  destruct (run_registry _ ops) as [issued final]. destruct H as (?&?&Hall).
  split_and!; try done. eapply Forall_impl; [exact Hall|]. simpl. intros z. lia.
Qed.

(** Registration answers exactly: invalid descriptor or time, a descriptor
    that a live worker already uses, no slot that is not alive, an exhausted
    allocator, in that order of precedence; and otherwise it makes the worker
    findable and alive under the allocator's ID. *)
Theorem register_result (r : faultline_worker_registry) (fd now : Z) :
  registry_wf r ->
  let '(res, id, r') := faultline_worker_register r fd now in
  (res = FAULTLINE_REGISTRY_INVALID_ARGUMENT <-> fd < 0 \/ now < 0) /\
  (res = FAULTLINE_REGISTRY_ALREADY_REGISTERED <->
   0 <= fd /\ 0 <= now /\ exists w, w ∈ workers r /\ alive w /\ w_fd w = fd) /\
  (res = FAULTLINE_REGISTRY_FULL <->
   0 <= fd /\ 0 <= now /\ (forall w, w ∈ workers r -> alive w /\ w_fd w <> fd)) /\
  (res = FAULTLINE_REGISTRY_OK ->
   id = Some (next_worker_id r) /\
   faultline_worker_find r' (next_worker_id r) =
     Some (mk_worker (next_worker_id r) fd FAULTLINE_WORKER_ALIVE now)) /\
  (res <> FAULTLINE_REGISTRY_OK -> id = None /\ r' = r).
Proof.
  intros Hr. destruct (faultline_worker_register r fd now) as [[res id] r'] eqn:E.
  pose proof (register_wf r fd now res id r' Hr E) as Hr'.
  split_and!.
  - unfold faultline_worker_register in E. destruct (_ || _) eqn:Eb.
    + naive_solver lia.
    + split_bools. repeat case_match; simplify_eq; split; try done; lia.
  - unfold faultline_worker_register in E. destruct (_ || _) eqn:Eb.
    { simplify_eq. split; [done|]. lia. }
    split_bools. destruct (register_scan _ _ _ _) as [s|] eqn:Es.
    + split; [repeat case_match; by simplify_eq|]. intros (_&_&Hw).
      eapply register_scan_none in Hw. rewrite Es in Hw. done.
    + simplify_eq. split; [|done]. intros _. apply register_scan_none in Es. split_and!; done || lia.
  - unfold faultline_worker_register in E. destruct (_ || _) eqn:Eb.
    { simplify_eq. split; [done|]. lia. }
    split_bools. destruct (register_scan _ _ _ _) as [s|] eqn:Es.
    + pose proof (register_scan_full _ _ _ _ Es) as Hf. simpl in Hf.
      rewrite (reg_length r Hr) in Hf. specialize (Hf ltac:(lia)).
      apply register_scan_some in Es as [Hnf _].
      destruct (Nat.eqb_spec s FAULTLINE_MAX_WORKERS) as [->|Hne].
      * simplify_eq. split; [|done]. intros _. destruct Hf as [Hf _].
        split_and!; [lia|lia|]. intros w Hw. split; [by apply Hf|]. apply Hnf; [done|by apply Hf].
      * split; [repeat case_match; by simplify_eq|]. intros (_&_&Hall). exfalso.
        apply Hne, Hf. intros w Hw. by apply Hall.
    + simplify_eq. split; [done|]. intros (_&_&Hall).
      apply register_scan_none in Es as (w & Hw & _ & Hfd). by apply Hall in Hw as [_ ?].
  - intros ->. apply register_ok in E as (slot & Hs & -> & ? & ? & ? & ? & ? & ->); [|done].
    split; [done|].
    refine (worker_find_at _ slot (mk_worker (next_worker_id r) fd FAULTLINE_WORKER_ALIVE now) Hr' _ _).
    + simpl. apply list_lookup_insert_eq. rewrite (reg_length r Hr). done.
    + done.
  - intros Hne. unfold faultline_worker_register in E. repeat case_match; by simplify_eq.
Qed.

Lemma register_result_witness :
  snd (fst (faultline_worker_register faultline_worker_registry_init 5 100)) = Some 1.
Proof.
  pose proof (register_result faultline_worker_registry_init 5 100 registry_init_wf) as H.
  vm_compute in H. destruct H as (_ & _ & _ & H & _).
  exact (proj1 (H eq_refl)).
Defined.

(** An alive worker is timed out exactly from [last_heartbeat + timeout] on;
    a heartbeat accepted at [now] moves the deadline to [now + timeout]; a dead
    worker's heartbeat is refused whatever its time, so late bytes never revive
    it. *)
Theorem liveness_deadline (r : faultline_worker_registry) (id fd now timeout : Z) :
  registry_wf r -> 0 < timeout ->
  (forall w, w ∈ workers r -> alive w -> w_last_heartbeat_ms w <= now ->
     faultline_worker_timed_out (Some w) now timeout = true <->
     w_last_heartbeat_ms w + timeout <= now) /\
  (forall r', faultline_worker_heartbeat r id fd now = (FAULTLINE_REGISTRY_OK, r') ->
     exists w, faultline_worker_find r' id = Some w /\ alive w /\ w_last_heartbeat_ms w = now /\
       forall t, now <= t < now + timeout -> faultline_worker_timed_out (Some w) t timeout = false) /\
  (forall r', faultline_worker_mark_dead r id fd = (FAULTLINE_REGISTRY_OK, r') ->
     forall fd' t, 0 <= fd' -> 0 <= t ->
       faultline_worker_heartbeat r' id fd' t = (FAULTLINE_REGISTRY_NOT_ALIVE, r')).
Proof.
  intros Hr Ht. split_and!.
  - intros w Hw Ha Hn. destruct (reg_ids r Hr w Hw (used_alive _ Ha)) as (_&_&?).
    unfold faultline_worker_timed_out. rewrite bool_decide_eq_true_2 by done. lia.
  - intros r' E. pose proof (heartbeat_wf r id fd now Hr) as Hr'. rewrite E in Hr'. simpl in Hr'.
    unfold faultline_worker_heartbeat in E. destruct (Z.ltb_spec now 0); [done|].
    destruct (find_live_connection r id fd) as [res slot] eqn:Ec. destruct res; try done.
    destruct (find_live_connection_ok r Hr _ _ _ Ec) as (w & Hw & Htot & Ha & <- & <- & ?).
    rewrite Htot in E. destruct (Z.ltb_spec now (w_last_heartbeat_ms w)); [done|].
    injection E as <-. exists (w <| w_last_heartbeat_ms := now |>). split_and!; try done.
    + pose proof (worker_find_at _ slot (w <| w_last_heartbeat_ms := now |>) Hr') as Hf.
      simpl in Hf. apply Hf.
      * apply list_lookup_insert_eq. by eapply lookup_lt_Some.
      * by apply used_alive.
    + intros t Hlt. unfold faultline_worker_timed_out. simpl. lia.
  - intros r' E fd' t Hfd' Ht'. pose proof (mark_dead_wf r id fd Hr) as Hr'.
    rewrite E in Hr'. simpl in Hr'. unfold faultline_worker_mark_dead in E.
    destruct (find_live_connection r id fd) as [res slot] eqn:Ec. destruct res; try done.
    destruct (find_live_connection_ok r Hr _ _ _ Ec) as (w & Hw & Htot & Ha & <- & <- & ?).
    rewrite Htot in E. injection E as <-.
    unfold faultline_worker_heartbeat, find_live_connection.
    assert (slot < length (workers r))%nat as Hlt by (by eapply lookup_lt_Some).
    pose proof (find_slot_at _ Hr' slot (w <| w_state := FAULTLINE_WORKER_DEAD |> <| w_fd := -1 |>)) as Hs.
    simpl in Hs. rewrite Hs; [|by apply list_lookup_insert_eq|done]. simpl.
    rewrite (reg_length r Hr) in Hlt.
    destruct (Z.ltb_spec t 0), (Z.ltb_spec fd' 0); try lia.
    destruct (Nat.eqb_spec slot FAULTLINE_MAX_WORKERS); [lia|].
    rewrite list_lookup_total_insert_eq by (rewrite (reg_length r Hr); done). done.
Qed.

Lemma liveness_deadline_witness :
  let r := snd (faultline_worker_register faultline_worker_registry_init 5 100) in
  faultline_worker_timed_out (faultline_worker_find r 1) 6100 6000 = true.
Proof.
  intros r.
  assert (registry_wf r) as Hr.
  { eapply (register_wf faultline_worker_registry_init 5 100); [apply registry_init_wf|].
    vm_compute. reflexivity. }
  refine (proj2 (proj1 (liveness_deadline r 1 5 6100 6000 Hr _)
            (mk_worker 1 5 FAULTLINE_WORKER_ALIVE 100) _ _ _) _).
  - done.
  - vm_compute. constructor.
  - done.
  - done.
  - done.
Defined.
