(* ===== verification/ProtocolProofs.v ===== *)
(** Correctness of the wire protocol.

    [message_typed] says that every field of a message fits its C type and that
    a buffer holds exactly the bytes its size field announces. For such messages
    the encoder and the decoder are inverse to each other: a frame decodes to the
    message it encodes whatever bytes follow it, every accepted frame is the
    encoding of the message returned, and a frame cut short asks for more bytes. *)

From S2P Require Import Prelude Job Protocol.

(** Unfold the constants of the protocol to literals, for [lia]. *)
Ltac unfold_protocol :=
  unfold FAULTLINE_MESSAGE_MAX_FRAME_SIZE in *;
  unfold
    FAULTLINE_PROTOCOL_MAGIC, FAULTLINE_PROTOCOL_VERSION, FAULTLINE_HEADER_SIZE,
    FAULTLINE_MAX_PAYLOAD_SIZE, FAULTLINE_JOB_SUBMIT_PREFIX_SIZE,
    FAULTLINE_JOB_SUBMIT_ACK_PAYLOAD_SIZE, FAULTLINE_JOB_ASSIGN_PREFIX_SIZE,
    FAULTLINE_JOB_STARTED_PAYLOAD_SIZE, FAULTLINE_JOB_COMPLETED_PREFIX_SIZE,
    FAULTLINE_JOB_FAILED_PAYLOAD_SIZE, FAULTLINE_JOB_STATUS_REQUEST_PAYLOAD_SIZE,
    FAULTLINE_JOB_STATUS_RESPONSE_PREFIX_SIZE, FAULTLINE_JOB_STATUS_NOT_FOUND_PAYLOAD_SIZE,
    FAULTLINE_JOBS_MAX_ENTRIES, FAULTLINE_WORKERS_MAX_ENTRIES, FAULTLINE_JOBS_PREFIX_SIZE,
    FAULTLINE_JOB_SUMMARY_SIZE, FAULTLINE_WORKERS_PREFIX_SIZE,
    FAULTLINE_WORKER_SUMMARY_SIZE, FAULTLINE_STATS_PAYLOAD_SIZE,
    FAULTLINE_MSG_PING, FAULTLINE_MSG_PONG,
    FAULTLINE_MSG_WORKER_REGISTER, FAULTLINE_MSG_WORKER_REGISTER_ACK,
    FAULTLINE_MSG_HEARTBEAT, FAULTLINE_MSG_JOB_SUBMIT, FAULTLINE_MSG_JOB_SUBMIT_ACK,
    FAULTLINE_MSG_JOB_ASSIGN, FAULTLINE_MSG_JOB_STARTED, FAULTLINE_MSG_JOB_COMPLETED,
    FAULTLINE_MSG_JOB_FAILED, FAULTLINE_MSG_JOB_STATUS_REQUEST,
    FAULTLINE_MSG_JOB_STATUS_RESPONSE, FAULTLINE_MSG_JOB_STATUS_NOT_FOUND,
    FAULTLINE_MSG_JOBS_REQUEST, FAULTLINE_MSG_JOBS_RESPONSE, FAULTLINE_MSG_WORKERS_REQUEST,
    FAULTLINE_MSG_WORKERS_RESPONSE, FAULTLINE_MSG_STATS_REQUEST,
    FAULTLINE_MSG_STATS_RESPONSE, FAULTLINE_WORKER_VIEW_ALIVE, FAULTLINE_WORKER_VIEW_DEAD in *;
  unfold FAULTLINE_JOB_MAX_ARGUMENT_SIZE, FAULTLINE_JOB_MAX_RESULT_SIZE in *.

Ltac plia := unfold_protocol; ilia.

(** ** Well-typed messages *)

Definition identity_typed (i : faultline_job_identity) : Prop :=
  in_u64 (i_job_id i) /\ in_u32 (i_worker_id i) /\ in_u64 (i_attempt i).

Definition buffer_typed (size : Z) (data : list Z) : Prop :=
  size = Z.of_nat (length data) /\ bytes_ok data.

Definition job_summary_typed (e : faultline_job_summary) : Prop :=
  in_u64 (js_job_id e) /\ in_u16 (js_task_type e) /\ in_u16 (js_state e) /\
  in_u32 (js_worker_id e) /\ in_u64 (js_attempt e) /\ in_u32 (js_retry_count e) /\
  in_u32 (js_max_retries e) /\ in_u16 (js_failure e) /\ in_u32 (js_result_size e).

Definition worker_summary_typed (e : faultline_worker_summary) : Prop :=
  in_u32 (ws_worker_id e) /\ in_u16 (ws_state e) /\ in_u64 (ws_heartbeat_age_ms e) /\
  in_u64 (ws_job_id e) /\ in_u64 (ws_attempt e).

Definition message_typed (m : faultline_message) : Prop :=
  match m with
  | MsgPing w | MsgPong w | MsgWorkerRegister w | MsgWorkerRegisterAck w | MsgHeartbeat w
  | MsgJobsRequest w | MsgWorkersRequest w | MsgStatsRequest w => in_u32 w
  | MsgJobSubmit s =>
      in_u16 (s_task_type s) /\ in_u32 (s_max_retries s) /\
      buffer_typed (s_argument_size s) (s_arguments s)
  | MsgJobSubmitAck id | MsgJobStatusRequest id | MsgJobStatusNotFound id => in_u64 id
  | MsgJobAssign a =>
      identity_typed (a_identity a) /\ in_u16 (a_task_type a) /\
      buffer_typed (a_argument_size a) (a_arguments a)
  | MsgJobStarted i => identity_typed i
  | MsgJobCompleted c =>
      identity_typed (c_identity c) /\ buffer_typed (c_result_size c) (c_result c)
  | MsgJobFailed f => identity_typed (f_identity f) /\ in_u16 (f_failure f)
  | MsgJobStatusResponse s =>
      in_u64 (st_job_id s) /\ in_u16 (st_state s) /\ in_u32 (st_worker_id s) /\
      in_u64 (st_attempt s) /\ in_u32 (st_retry_count s) /\ in_u32 (st_max_retries s) /\
      in_u16 (st_failure s) /\ buffer_typed (st_result_size s) (st_result s)
  | MsgJobsResponse entries => Forall job_summary_typed entries
  | MsgWorkersResponse l =>
      in_u32 (wl_heartbeat_timeout_ms l) /\ Forall worker_summary_typed (wl_entries l)
  | MsgStatsResponse s => Forall in_u64 (stats_fields s)
  | MsgOther ty => message_payload_bounds ty = None
  end.

(** The variable data of a message and its fixed part. *)
Definition message_data (m : faultline_message) : list Z :=
  match m with
  | MsgJobSubmit s => s_arguments s
  | MsgJobAssign a => a_arguments a
  | MsgJobCompleted c => c_result c
  | MsgJobStatusResponse s => st_result s
  | MsgJobsResponse entries => concat (map write_job_summary entries)
  | MsgWorkersResponse l => concat (map write_worker_summary (wl_entries l))
  | _ => []
  end.

Definition message_prefix (m : faultline_message) : list Z :=
  match m with
  | MsgJobsResponse entries => write_u32_be (u32 (Z.of_nat (length entries)))
  | MsgWorkersResponse l =>
      write_u32_be (u32 (Z.of_nat (length (wl_entries l)))) ++
      write_u32_be (wl_heartbeat_timeout_ms l)
  | _ => encode_payload (attach_data [] m)
  end.

Definition list_message (m : faultline_message) : bool :=
  match m with MsgJobsResponse _ | MsgWorkersResponse _ => true | _ => false end.

(** ** Validation *)

Lemma validate_attach data m : validate_message (attach_data data m) = validate_message m.
Proof. by destruct m. Qed.

Lemma message_type_attach data m : message_type (attach_data data m) = message_type m.
Proof. by destruct m. Qed.

Lemma attach_attach data data' m : attach_data data (attach_data data' m) = attach_data data m.
Proof. by destruct m. Qed.

Lemma attach_message_data m : attach_data (message_data m) m = m.
Proof. by destruct m as [| | | | |[]| |[]| |[]| | |[]| | | | | | | |]. Qed.

Lemma bounds_cases ty minimum maximum :
  message_payload_bounds ty = Some (minimum, maximum) ->
  (1 <= ty <= 20) /\ (0 <= minimum <= 192) /\ minimum <= maximum <= minimum + 9728.
Proof.
  unfold message_payload_bounds, one_of. simpl.
  repeat match goal with |- context [if ?c then _ else _] => destruct c eqn:? end;
    intros [= <- <-]; plia.
Qed.

(** Evaluate the payload bounds of a known message type. *)
Ltac eval_bounds :=
  repeat match goal with
  | H : context [message_payload_bounds ?t] |- _ =>
      let r := eval vm_compute in (message_payload_bounds t) in
      lazymatch r with Some _ => change (message_payload_bounds t) with r in H end
  | |- context [message_payload_bounds ?t] =>
      let r := eval vm_compute in (message_payload_bounds t) in
      lazymatch r with Some _ => change (message_payload_bounds t) with r end
  end.

(** Split the early returns of validations that succeeded. *)
Ltac validation_steps :=
  repeat match goal with
  | H : (match ?c with _ => _ end) = inr _ |- _ => destruct c eqn:?; try discriminate H
  | H : inr _ = inr _ |- _ => injection H as H; subst
  end.

Lemma validate_message_bounds m n :
  validate_message m = inr n ->
  exists minimum maximum, message_payload_bounds (message_type m) = Some (minimum, maximum) /\
    minimum <= maximum /\ 0 <= minimum.
Proof.
  unfold validate_message. destruct (message_payload_bounds _) as [[mn mx]|] eqn:Hb; [|done].
  intros _. exists mn, mx. apply bounds_cases in Hb. split; [done|lia].
Qed.

Lemma length_write_entries {A} (write : A -> list Z) size entries :
  (forall e, length (write e) = size) ->
  length (concat (map write entries)) = (length entries * size)%nat.
Proof. intros Hw. induction entries; simpl; [done|]. rewrite length_app, Hw. lia. Qed.

Lemma write_job_summary_length e : length (write_job_summary e) = 38%nat.
Proof. done. Qed.

Lemma write_worker_summary_length e : length (write_worker_summary e) = 30%nat.
Proof. done. Qed.

Lemma message_prefix_length m minimum maximum :
  message_payload_bounds (message_type m) = Some (minimum, maximum) ->
  message_typed m -> Z.of_nat (length (message_prefix m)) = minimum.
Proof.
  destruct m; cbn [message_type message_typed]; intros Hb; eval_bounds; try congruence;
    injection Hb as <- <-; intros _; try reflexivity;
    cbn [message_prefix attach_data encode_payload s_arguments s_argument_size
      a_argument_size a_arguments c_result_size c_result st_result_size st_result];
    rewrite ?take_nil; reflexivity.
Qed.

(** The length that validation derives is the length of what is written. *)
Lemma validate_message_sizes m n :
  message_typed m -> validate_message m = inr n ->
  exists minimum maximum, message_payload_bounds (message_type m) = Some (minimum, maximum) /\
    Z.of_nat (length (message_prefix m)) = minimum /\
    n = minimum + Z.of_nat (length (message_data m)) /\ n <= maximum.
Proof.
  intros Ht Hv. destruct (validate_message_bounds m n Hv) as (mn & mx & Hb & _ & _).
  exists mn, mx. split; [done|]. split; [by eapply message_prefix_length|].
  unfold validate_message in Hv. rewrite Hb in Hv. revert Hb.
  destruct m; cbn [message_type validate_payload message_typed message_data] in *;
    unfold buffer_typed in *; eval_bounds; try congruence; intros [= <- <-];
    rewrite ?(length_write_entries _ _ _ write_job_summary_length),
      ?(length_write_entries _ _ _ write_worker_summary_length);
    validation_steps; rewrite u32_id; cbn [length]; plia.
Qed.

Lemma encode_payload_split m :
  message_typed m -> encode_payload m = message_prefix m ++ message_data m.
Proof.
  destruct m; cbn [message_typed]; unfold buffer_typed; intros Ht; try done;
    try (cbn [encode_payload message_prefix attach_data s_arguments s_argument_size s_task_type
      s_max_retries a_identity a_task_type a_argument_size a_arguments c_identity c_result_size
      c_result st_job_id st_state st_worker_id st_attempt st_retry_count st_max_retries
      st_failure st_result_size st_result message_data];
    rewrite ?take_nil, ?app_nil_r, <- ?app_assoc; repeat f_equal;
    rewrite take_ge; [done|lia]).
Qed.

Lemma encode_payload_length m n :
  message_typed m -> validate_message m = inr n -> Z.of_nat (length (encode_payload m)) = n.
Proof.
  intros Ht Hv. destruct (validate_message_sizes m n Ht Hv) as (mn & mx & _ & Hp & -> & _).
  rewrite encode_payload_split, length_app by done. lia.
Qed.

(** ** Reading back what was written *)

Ltac unfold_wire :=
  unfold write_u16_be, write_u32_be, write_u64_be, read_u16_be, read_u32_be, read_u64_be in *.

Lemma read_write_identity i rest :
  identity_typed i -> read_identity (write_identity i ++ rest) = i.
Proof.
  intros (? & ? & ?). unfold write_identity, read_identity. unfold_wire. rewrite <- !app_assoc. autorewrite with be. by destruct i.
Qed.

Lemma drop_write_identity i n rest :
  drop (S (S (S (S (S (S (S (S (S (S (S (S (S (S (S (S (S (S (S (S n))))))))))))))))))))
    (write_identity i ++ rest) = drop n rest.
Proof. done. Qed.

#[export] Hint Rewrite read_write_identity using done : be.
#[export] Hint Rewrite drop_write_identity : be.

Lemma read_write_job_summary e rest :
  job_summary_typed e -> read_job_summary (write_job_summary e ++ rest) = e.
Proof.
  intros (? & ? & ? & ? & ? & ? & ? & ? & ?).
  unfold write_job_summary, read_job_summary. unfold_wire. rewrite <- !app_assoc.
  autorewrite with be. by destruct e.
Qed.

Lemma read_write_worker_summary e rest :
  worker_summary_typed e -> read_worker_summary (write_worker_summary e ++ rest) = e.
Proof.
  intros (? & ? & ? & ? & ?).
  unfold write_worker_summary, read_worker_summary. unfold_wire. rewrite <- !app_assoc.
  autorewrite with be. by destruct e.
Qed.

Lemma read_write_entries {A} (read : list Z -> A) (write : A -> list Z) (P : A -> Prop)
    (stride : nat) entries rest :
  (forall e rest, P e -> read (write e ++ rest) = e) ->
  (forall e, length (write e) = stride) -> Forall P entries ->
  read_entries read stride (length entries) (concat (map write entries) ++ rest) = entries.
Proof.
  intros Hread Hlen. induction 1 as [|e entries He _ IH]; simpl; [done|].
  rewrite <- app_assoc, Hread by done. f_equal.
  rewrite drop_app_length' by done. apply IH.
Qed.

Lemma read_write_stats s rest :
  Forall in_u64 (stats_fields s) ->
  read_stats (concat (map write_u64_be (stats_fields s)) ++ rest) = s.
Proof.
  intros Hs. unfold stats_fields in Hs.
  repeat match goal with H : Forall _ (_ :: _) |- _ => apply Forall_cons in H as [? H] end.
  unfold read_stats, stats_fields. cbn [concat map]. unfold_wire.
  rewrite <- !app_assoc. autorewrite with be. by destruct s.
Qed.

(** ** Decoding an encoded message *)

(** Decide the comparisons of type numbers. *)
Ltac eval_type :=
  repeat match goal with
  | |- context [?a =? ?b] =>
      let r := eval vm_compute in (a =? b) in
      lazymatch r with
      | true => change (a =? b) with true
      | false => change (a =? b) with false
      end; cbv iota
  end.

Lemma validate_empty m n worker :
  (m = MsgPing worker \/ m = MsgPong worker \/ m = MsgWorkerRegister worker \/
   m = MsgJobsRequest worker \/ m = MsgWorkersRequest worker \/ m = MsgStatsRequest worker) ->
  validate_message m = inr n -> worker = 0.
Proof.
  unfold validate_message.
  intros [->|[->|[->|[->|[->| ->]]]]]; cbn [message_type validate_payload]; eval_bounds;
    intros Hv; validation_steps; plia.
Qed.

Lemma decode_prefix_fixed m n available plen minimum rest :
  message_typed m -> list_message m = false -> validate_message m = inr n ->
  decode_prefix (message_type m) available plen minimum (message_prefix m ++ rest)
  = inr (attach_data [] m).
Proof.
  intros Ht Hl Hv.
  destruct (validate_message_sizes m n Ht Hv) as (mn & mx & Hb & _ & Hn & Hmx).
  assert (Z.of_nat (length (message_data m)) <= 9728) as Hd
    by (apply bounds_cases in Hb; lia).
  clear Hn Hmx. destruct m;
    cbn [message_type message_typed message_data list_message] in *; unfold_wire;
    unfold buffer_typed in *; try discriminate Hl; try congruence; clear Hb Hl;
    destruct_and?; unfold decode_prefix; eval_type;
    try (erewrite (validate_empty _ n payload_worker_id) by eauto 7; done);
    cbn [message_prefix encode_payload attach_data s_arguments s_argument_size s_task_type
      s_max_retries a_identity a_task_type a_argument_size a_arguments c_identity c_result_size
      c_result st_job_id st_state st_worker_id st_attempt st_retry_count st_max_retries
      st_failure st_result_size st_result f_identity f_failure];
    unfold_wire; rewrite ?take_nil, <- ?app_assoc, ?u32_id by ilia; autorewrite with be; try done.
  - by destruct failed.
  - do 2 f_equal. by apply read_write_stats.
Qed.

Lemma validate_list_count m n :
  message_typed m -> validate_message m = inr n -> list_message m = true ->
  match m with
  | MsgJobsResponse entries => (length entries <= 256)%nat
  | MsgWorkersResponse l =>
      (length (wl_entries l) <= 64)%nat /\ wl_heartbeat_timeout_ms l <> 0
  | _ => False
  end.
Proof.
  unfold validate_message.
  destruct m; cbn [message_type validate_payload list_message]; try done; intros _ Hv _;
    eval_bounds; validation_steps.
  all: unfold validate_jobs, validate_workers in *; case_matches; plia.
Qed.

Lemma decode_list_count_ok (jobs : bool) available n minimum payload count :
  let limit := if jobs then 256 else 64 in let stride := if jobs then 38 else 30 in
  read_u32_be payload = count -> 0 <= count <= limit -> 0 <= minimum <= 192 ->
  n = minimum + count * stride -> (jobs = false -> read_u32_be (drop 4 payload) <> 0) ->
  decode_list_count jobs available n minimum payload =
  if available <? FAULTLINE_HEADER_SIZE + n then inl FAULTLINE_PROTOCOL_BUFFER_TOO_SMALL
  else inr (Z.to_nat count).
Proof.
  intros limit stride Hcount Hlimit Hmin Hn Ht. unfold decode_list_count. rewrite Hcount.
  rewrite (u32_id (count * _)) by (destruct jobs; plia).
  rewrite (u32_id (minimum + _)) by (destruct jobs; plia).
  destruct (_ <? count) eqn:E1; [destruct jobs; plia|].
  destruct (n !=? _) eqn:E2; [destruct jobs; plia|].
  destruct (negb jobs && _) eqn:E3; [|done]. destruct jobs; [done|]. split_bools. lia.
Qed.

(** With the whole frame available a list decodes; with less it asks for more. *)
Lemma decode_prefix_list m n minimum maximum available data :
  message_typed m -> validate_message m = inr n -> list_message m = true ->
  message_payload_bounds (message_type m) = Some (minimum, maximum) ->
  decode_prefix (message_type m) available n minimum (message_prefix m ++ data) =
  if available <? FAULTLINE_HEADER_SIZE + n then inl FAULTLINE_PROTOCOL_BUFFER_TOO_SMALL
  else match m with
       | MsgJobsResponse entries =>
           inr (MsgJobsResponse (read_entries read_job_summary 38 (length entries) data))
       | MsgWorkersResponse l =>
           inr (MsgWorkersResponse (mk_workers (wl_heartbeat_timeout_ms l)
                 (read_entries read_worker_summary 30 (length (wl_entries l)) data)))
       | _ => inr m
       end.
Proof.
  intros Ht Hv Hl Hb.
  pose proof (validate_list_count m n Ht Hv Hl) as Hc.
  destruct (validate_message_sizes m n Ht Hv) as (mn & mx & Hb' & _ & Hn & Hmx).
  rewrite Hb in Hb'. injection Hb' as <- <-.
  destruct m; try discriminate Hl; cbn [message_type message_typed message_data] in *;
    unfold decode_prefix; eval_type; eval_bounds; injection Hb as <- <-;
    rewrite ?(length_write_entries _ _ _ write_job_summary_length),
      ?(length_write_entries _ _ _ write_worker_summary_length) in Hn;
    cbn [message_prefix]; unfold_wire; rewrite <- ?app_assoc, ?u32_id by ilia; destruct_and?.
  - rewrite (decode_list_count_ok true _ _ _ _ (Z.of_nat (length entries)));
      unfold_wire; autorewrite with be; try lia; try done.
    rewrite Nat2Z.id. by destruct (_ <? _).
  - rewrite (decode_list_count_ok false _ _ _ _ (Z.of_nat (length (wl_entries list))));
      unfold_wire; autorewrite with be; try lia; try done.
    rewrite Nat2Z.id. by destruct (_ <? _).
Qed.

Lemma decode_prefix_entries m n minimum maximum available rest :
  message_typed m -> validate_message m = inr n -> list_message m = true ->
  message_payload_bounds (message_type m) = Some (minimum, maximum) ->
  FAULTLINE_HEADER_SIZE + n <= available ->
  decode_prefix (message_type m) available n minimum
    (message_prefix m ++ message_data m ++ rest) = inr m.
Proof.
  intros Ht Hv Hl Hb Ha. rewrite (decode_prefix_list m n _ maximum) by done.
  destruct (_ <? _) eqn:E; [lia|].
  destruct m; try discriminate Hl; cbn [message_typed message_data] in *.
  - do 2 f_equal. eapply read_write_entries; [apply read_write_job_summary|done|done].
  - destruct list as [t l]. cbn in *. do 3 f_equal.
    eapply read_write_entries; [apply read_write_worker_summary|done|apply Ht].
Qed.

(** ** Headers *)

Definition header_typed (h : faultline_header) : Prop :=
  in_u32 (h_magic h) /\ in_u16 (h_version h) /\ in_u16 (h_message_type h) /\
  in_u32 (h_payload_length h).

Definition header_bytes (h : faultline_header) : list Z :=
  write_u32_be (h_magic h) ++ write_u16_be (h_version h) ++
  write_u16_be (h_message_type h) ++ write_u32_be (h_payload_length h).

Lemma header_encode_ok wire_size h :
  faultline_header_encode wire_size h =
  if wire_size <? FAULTLINE_HEADER_SIZE then inl FAULTLINE_PROTOCOL_BUFFER_TOO_SMALL
  else if decide (validate_header h = FAULTLINE_PROTOCOL_OK) then inr (header_bytes h)
  else inl (validate_header h).
Proof.
  unfold faultline_header_encode. destruct (_ <? _); [done|].
  by destruct (validate_header h) eqn:E; destruct (decide _).
Qed.

Lemma header_decode_bytes h rest :
  header_typed h ->
  faultline_header_decode (header_bytes h ++ rest) =
  if decide (validate_header h = FAULTLINE_PROTOCOL_OK) then inr h
  else inl (validate_header h).
Proof.
  intros (? & ? & ? & ?). unfold faultline_header_decode.
  destruct (Z.ltb_spec (Z.of_nat (length (header_bytes h ++ rest))) FAULTLINE_HEADER_SIZE) as [E|_].
  { rewrite length_app in E. change (length (header_bytes h)) with 12%nat in E. plia. }
  unfold header_bytes. unfold_wire. rewrite <- !app_assoc. autorewrite with be.
  destruct h as [mg v ty pl]. cbn [h_magic h_version h_message_type h_payload_length] in *.
  by destruct (validate_header _) eqn:E; destruct (decide _).
Qed.

(** Every accepted header is the encoding of what was decoded. *)
Lemma header_decode_inv wire h :
  bytes_ok wire -> faultline_header_decode wire = inr h ->
  header_typed h /\ validate_header h = FAULTLINE_PROTOCOL_OK /\
  wire = header_bytes h ++ drop 12 wire.
Proof.
  unfold faultline_header_decode. intros Hok.
  destruct (Z.ltb_spec (Z.of_nat (length wire)) FAULTLINE_HEADER_SIZE) as [|E]; [done|].
  assert (12 <= length wire)%nat as Hlen by plia. clear E.
  destruct (validate_header _) eqn:Hh; try done. intros [= <-].
  split; [|split; [done|]].
  - unfold header_typed; cbn; unfold_wire. split_and!; try apply un_be16_range;
      apply un_be32_read_range; rewrite ?length_drop; auto with faultline; lia.
  - unfold header_bytes; cbn [h_magic h_version h_message_type h_payload_length]; unfold_wire.
    rewrite !be32_read, !be16_read; rewrite ?length_drop; auto with faultline; try lia.
    rewrite !slices_join by lia. rewrite take_take_drop. symmetry. apply take_drop.
Qed.

(** A header the encoder accepts is decoded to the same header, whatever follows it. *)
Theorem header_round_trip wire_size h wire rest :
  header_typed h -> faultline_header_encode wire_size h = inr wire ->
  faultline_header_decode (wire ++ rest) = inr h.
Proof.
  intros Ht He. rewrite header_encode_ok in He. destruct (_ <? _); [done|].
  destruct (decide _) eqn:E; [|done]. injection He as <-.
  by rewrite header_decode_bytes, E.
Qed.

(** ** Messages *)

Definition message_header (m : faultline_message) (n : Z) : faultline_header :=
  mk_header FAULTLINE_PROTOCOL_MAGIC FAULTLINE_PROTOCOL_VERSION (message_type m) n.

Lemma message_header_ok m n :
  message_typed m -> validate_message m = inr n ->
  header_typed (message_header m n) /\
  validate_header (message_header m n) = FAULTLINE_PROTOCOL_OK /\ 0 <= n <= 9920.
Proof.
  intros Ht Hv. destruct (validate_message_sizes m n Ht Hv) as (mn & mx & Hb & Hp & Hn & Hmx).
  pose proof (bounds_cases _ _ _ Hb).
  split; [|split; [|lia]].
  - unfold header_typed, message_header; cbn. plia.
  - unfold validate_header, message_header; cbn -[FAULTLINE_MAX_PAYLOAD_SIZE].
    rewrite Hb. destruct (_ <? _) eqn:?; [plia|done].
Qed.

(** The frame of a message, and exactly when the encoder produces it. *)
Lemma message_encode_ok wire_size m frame :
  message_typed m ->
  faultline_message_encode wire_size m = inr frame <->
  exists n, validate_message m = inr n /\ FAULTLINE_HEADER_SIZE + n <= wire_size /\
    frame = header_bytes (message_header m n) ++ encode_payload m.
Proof.
  intros Ht. unfold faultline_message_encode.
  destruct (validate_message m) as [e|n] eqn:Hv; [naive_solver|].
  destruct (message_header_ok m n Ht Hv) as (_ & Hh & ?).
  rewrite header_encode_ok. fold (message_header m n). rewrite Hh.
  destruct (wire_size <? _) eqn:E1.
  { split; [done|]. intros (? & [= <-] & ? & _). lia. }
  destruct (wire_size <? FAULTLINE_HEADER_SIZE) eqn:E2; [plia|].
  destruct (decide _); [|done]. split.
  - intros [= <-]. exists n. split; [done|]. split; [lia|done].
  - intros (? & [= <-] & _ & ->). done.
Qed.

(** What the decoder does once the header of a valid message is in place. *)
Lemma message_decode_header m n minimum maximum payload :
  message_typed m -> validate_message m = inr n ->
  message_payload_bounds (message_type m) = Some (minimum, maximum) ->
  let available := FAULTLINE_HEADER_SIZE + Z.of_nat (length payload) in
  faultline_message_decode (header_bytes (message_header m n) ++ payload) =
  if available <? FAULTLINE_HEADER_SIZE + minimum then inl FAULTLINE_PROTOCOL_BUFFER_TOO_SMALL
  else
    let! decoded := decode_prefix (message_type m) available n minimum payload in
    let! expected_size := validate_message decoded in
    if n !=? expected_size then inl FAULTLINE_PROTOCOL_INVALID_PAYLOAD_LENGTH
    else if available <? FAULTLINE_HEADER_SIZE + expected_size then
      inl FAULTLINE_PROTOCOL_BUFFER_TOO_SMALL
    else inr (attach_data (take (Z.to_nat (expected_size - minimum))
                (drop (Z.to_nat minimum) payload)) decoded, FAULTLINE_HEADER_SIZE + expected_size).
Proof.
  intros Ht Hv Hb available. unfold faultline_message_decode.
  destruct (message_header_ok m n Ht Hv) as (Hht & Hh & ?).
  rewrite header_decode_bytes by done. rewrite decide_True by done.
  change (h_message_type (message_header m n)) with (message_type m).
  change (h_payload_length (message_header m n)) with n. rewrite Hb.
  destruct (validate_message_sizes m n Ht Hv) as (mn & mx & Hb' & Hp & Hn & Hmx).
  rewrite Hb in Hb'. injection Hb' as <- <-.
  rewrite length_app. change (length (header_bytes _)) with 12%nat.
  replace (Z.of_nat (12 + length payload)) with available by (unfold available; plia).
  destruct ((n <? minimum) || _) eqn:E; [lia|]. destruct (maximum <? n) eqn:?; [lia|].
  change (drop (Z.to_nat FAULTLINE_HEADER_SIZE) (header_bytes (message_header m n) ++ payload))
    with payload. done.
Qed.

(** What the decoder makes of a frame and what follows it. *)
Lemma decode_frame wire_size m frame rest :
  message_typed m -> faultline_message_encode wire_size m = inr frame ->
  faultline_message_decode (frame ++ rest) = inr (m, Z.of_nat (length frame)).
Proof.
  intros Ht (n & Hv & _ & ->)%message_encode_ok; [|done].
  destruct (validate_message_sizes m n Ht Hv) as (mn & mx & Hb & Hp & Hn & Hmx).
  pose proof (bounds_cases _ _ _ Hb). pose proof (encode_payload_length m n Ht Hv) as Hlen.
  rewrite <- app_assoc, (message_decode_header m n mn mx) by done. cbn zeta.
  rewrite !length_app, Nat2Z.inj_add, Hlen. change (length (header_bytes _)) with 12%nat.
  destruct (_ <? FAULTLINE_HEADER_SIZE + mn) eqn:?; [plia|].
  rewrite (encode_payload_split m Ht), <- app_assoc.
  assert (decode_prefix (message_type m) (FAULTLINE_HEADER_SIZE + (n + Z.of_nat (length rest)))
      n mn (message_prefix m ++ message_data m ++ rest)
    = inr (if list_message m then m else attach_data [] m)) as ->.
  { destruct (list_message m) eqn:Hl.
    - apply (decode_prefix_entries m n mn mx); auto; plia.
    - by apply (decode_prefix_fixed m n). }
  replace (validate_message (if list_message m then m else attach_data [] m)) with (@inr faultline_protocol_result Z n)
    by (destruct (list_message m); rewrite ?validate_attach; done).
  rewrite Z.eqb_refl. cbn [negb]. destruct (_ <? FAULTLINE_HEADER_SIZE + n) eqn:?; [plia|].
  rewrite drop_app_length' by lia. rewrite take_app_length' by lia.
  apply f_equal, f_equal2; [|rewrite length_app; plia].
  destruct (list_message m); rewrite ?attach_attach; apply attach_message_data.
Qed.

(** C18: decoding an encoded message, whatever bytes follow the frame, gives back the
    message and consumes exactly the frame. *)
Theorem message_round_trip wire_size m frame rest :
  message_typed m -> faultline_message_encode wire_size m = inr frame ->
  faultline_message_decode (frame ++ rest) = inr (m, Z.of_nat (length frame)).
Proof. apply decode_frame. Qed.

(** What the decoder makes of a part of a frame. *)
Lemma decode_torn_frame wire_size m frame k :
  message_typed m -> faultline_message_encode wire_size m = inr frame ->
  (k < length frame)%nat ->
  faultline_message_decode (take k frame) = inl FAULTLINE_PROTOCOL_BUFFER_TOO_SMALL.
Proof.
  intros Ht (n & Hv & _ & ->)%message_encode_ok Hk; [|done].
  destruct (validate_message_sizes m n Ht Hv) as (mn & mx & Hb & Hp & Hn & Hmx).
  pose proof (bounds_cases _ _ _ Hb). pose proof (encode_payload_length m n Ht Hv) as Hlen.
  rewrite length_app in Hk. change (length (header_bytes _)) with 12%nat in Hk.
  destruct (decide (k < 12)%nat) as [Hlt|Hge].
  { unfold faultline_message_decode, faultline_header_decode.
    destruct (Z.ltb_spec (Z.of_nat (length
      (take k (header_bytes (message_header m n) ++ encode_payload m)))) FAULTLINE_HEADER_SIZE)
      as [|E]; [done|]. rewrite length_take in E. plia. }
  rewrite take_app_ge by (change (length (header_bytes _)) with 12%nat; lia).
  change (length (header_bytes _)) with 12%nat.
  rewrite (message_decode_header m n mn mx) by done. cbn zeta.
  rewrite length_take, Nat.min_l by lia.
  destruct (_ <? FAULTLINE_HEADER_SIZE + mn) eqn:E; [done|].
  rewrite (encode_payload_split m Ht), take_app_ge by plia.
  destruct (list_message m) eqn:Hl.
  - rewrite (decode_prefix_list m n mn mx) by done. destruct (_ <? FAULTLINE_HEADER_SIZE + n) eqn:?; [done|plia].
  - rewrite (decode_prefix_fixed m n) by done. rewrite validate_attach, Hv, Z.eqb_refl.
    cbn [negb]. destruct (_ <? FAULTLINE_HEADER_SIZE + n) eqn:?; [done|plia].
Qed.

(** A frame cut short anywhere is reported as incomplete, so that a reader waits for
    more bytes; no other error and no message comes out of it. *)
Theorem message_incomplete wire_size m frame k :
  message_typed m -> faultline_message_encode wire_size m = inr frame ->
  (k < length frame)%nat ->
  faultline_message_decode (take k frame) = inl FAULTLINE_PROTOCOL_BUFFER_TOO_SMALL.
Proof. apply decode_torn_frame. Qed.

(** ** Accepted frames are canonical *)

Lemma read_entries_length {A} (read : list Z -> A) stride count bytes :
  length (read_entries read stride count bytes) = count.
Proof. revert bytes. induction count; intros; simpl; auto. Qed.

Lemma write_read_entries {A} (read : list Z -> A) (write : A -> list Z) stride count bytes :
  (forall bytes, bytes_ok bytes -> (stride <= length bytes)%nat ->
    write (read bytes) = take stride bytes) ->
  bytes_ok bytes -> (count * stride <= length bytes)%nat ->
  concat (map write (read_entries read stride count bytes)) = take (count * stride) bytes.
Proof.
  intros Hw. revert bytes. induction count as [|count IH]; intros bytes Hok Hlen; simpl; [done|].
  rewrite Hw, IH by (rewrite ?length_drop; auto with faultline; lia).
  by rewrite take_take_drop.
Qed.

Lemma read_entries_typed {A} (read : list Z -> A) (P : A -> Prop) stride count bytes :
  (forall bytes, bytes_ok bytes -> (stride <= length bytes)%nat -> P (read bytes)) ->
  bytes_ok bytes -> (count * stride <= length bytes)%nat ->
  Forall P (read_entries read stride count bytes).
Proof.
  intros Hr. revert bytes. induction count as [|count IH]; intros bytes Hok Hlen; simpl;
    constructor; [apply Hr; [done|lia]|].
  apply IH; rewrite ?length_drop; auto with faultline; lia.
Qed.

(** Discharge the side conditions of reading at an offset. *)
Ltac read_side := rewrite ?length_drop; auto with faultline; try lia.

Ltac typed_reads :=
  unfold_wire; split_and?;
  match goal with
  | |- in_u16 _ => apply un_be16_range
  | |- in_u32 _ => apply un_be32_read_range; read_side
  | |- in_u64 _ => apply un_be64_range; read_side
  end.

Ltac write_reads :=
  unfold_wire; rewrite ?be64_read, ?be32_read, ?be16_read by read_side;
  rewrite ?slices_join by lia; rewrite ?take_take_drop; try done.

Lemma write_read_identity bytes :
  bytes_ok bytes -> (20 <= length bytes)%nat ->
  write_identity (read_identity bytes) = take 20 bytes /\ identity_typed (read_identity bytes).
Proof.
  intros Hok Hlen. split.
  - unfold write_identity, read_identity; cbn [i_job_id i_worker_id i_attempt]. write_reads.
  - unfold identity_typed. typed_reads.
Qed.

Lemma write_read_job_summary bytes :
  bytes_ok bytes -> (38 <= length bytes)%nat ->
  write_job_summary (read_job_summary bytes) = take 38 bytes /\
  job_summary_typed (read_job_summary bytes).
Proof.
  intros Hok Hlen. split.
  - unfold write_job_summary, read_job_summary; cbn [js_job_id js_task_type js_state js_worker_id
      js_attempt js_retry_count js_max_retries js_failure js_result_size]. write_reads.
  - unfold job_summary_typed. typed_reads.
Qed.

Lemma write_read_worker_summary bytes :
  bytes_ok bytes -> (30 <= length bytes)%nat ->
  write_worker_summary (read_worker_summary bytes) = take 30 bytes /\
  worker_summary_typed (read_worker_summary bytes).
Proof.
  intros Hok Hlen. split.
  - unfold write_worker_summary, read_worker_summary; cbn [ws_worker_id ws_state
      ws_heartbeat_age_ms ws_job_id ws_attempt]. write_reads.
  - unfold worker_summary_typed. typed_reads.
Qed.

Lemma write_read_stats bytes :
  bytes_ok bytes -> (192 <= length bytes)%nat ->
  concat (map write_u64_be (stats_fields (read_stats bytes))) = take 192 bytes /\
  Forall in_u64 (stats_fields (read_stats bytes)).
Proof.
  intros Hok Hlen. split.
  - unfold stats_fields, read_stats; cbn [jobs_submitted_total jobs_queued jobs_assigned
      jobs_running jobs_completed_total jobs_failed_total job_attempts_total job_retries_total
      completed_latency_avg_ms workers_retained workers_alive workers_expired workers_dead
      workers_busy workers_idle session_uptime_ms session_jobs_submitted session_jobs_completed
      session_jobs_failed session_job_retries startup_jobs_recovered startup_interrupted_jobs
      startup_duration_ms heartbeat_timeout_ms concat map].
    write_reads. rewrite app_nil_r. rewrite !slices_join by lia. done.
  - unfold stats_fields, read_stats. repeat apply Forall_cons_2; try apply Forall_nil_2;
      unfold_wire; cbn [jobs_submitted_total]; apply un_be64_range; read_side.
Qed.

(** The size field of a data-carrying message accounts for the rest of the payload. *)
Lemma validate_data_size m n minimum maximum size :
  message_payload_bounds (message_type m) = Some (minimum, maximum) ->
  match m with
  | MsgJobSubmit s => size = s_argument_size s
  | MsgJobAssign a => size = a_argument_size a
  | MsgJobCompleted c => size = c_result_size c
  | MsgJobStatusResponse s => size = st_result_size s
  | _ => False
  end ->
  in_u32 size -> validate_message m = inr n -> size = n - minimum.
Proof.
  unfold validate_message. intros -> Hm Hs Hv.
  destruct m; try done; subst size; cbn [validate_payload] in Hv; validation_steps;
    rewrite u32_id by done; lia.
Qed.

Lemma attached_data payload size n (o : Z) :
  bytes_ok payload -> size = n - o -> 0 <= o <= n -> n <= Z.of_nat (length payload) ->
  buffer_typed size (take (Z.to_nat (n - o)) (drop (Z.to_nat o) payload)) /\
  take (Z.to_nat size) (take (Z.to_nat (n - o)) (drop (Z.to_nat o) payload)) =
  take (Z.to_nat n - Z.to_nat o) (drop (Z.to_nat o) payload).
Proof.
  intros Hok -> Ho Hn. split; [split|].
  - rewrite length_take, length_drop. lia.
  - auto with faultline.
  - rewrite take_take. f_equal. lia.
Qed.

Lemma decode_list_count_inv (jobs : bool) available n minimum payload count :
  bytes_ok payload -> (4 <= length payload)%nat -> 0 <= minimum <= 192 ->
  decode_list_count jobs available n minimum payload = inr count ->
  Z.of_nat count = read_u32_be payload /\ (count <= if jobs then 256 else 64)%nat /\
  n = minimum + Z.of_nat count * (if jobs then 38 else 30).
Proof.
  intros Hok Hlen Hmin. unfold decode_list_count.
  assert (in_u32 (read_u32_be payload)) by (apply un_be32_read_range; done).
  destruct (_ <? read_u32_be payload) eqn:E1; [done|].
  destruct (n !=? _) eqn:E2; [done|].
  destruct (negb jobs && _); [done|]. destruct (available <? _); [done|].
  intros [= <-]. rewrite u32_id in E2.
  all: rewrite u32_id in * by (destruct jobs; plia); destruct jobs; plia.
Qed.

Lemma decoded_jobs available n payload count :
  bytes_ok payload -> 4 <= n -> n <= Z.of_nat (length payload) ->
  decode_list_count true available n 4 payload = inr count ->
  let m := MsgJobsResponse (read_entries read_job_summary 38 count (drop 4 payload)) in
  message_typed m /\ encode_payload m = take (Z.to_nat n) payload.
Proof.
  intros Hok Hn Hlen Hc.
  apply decode_list_count_inv in Hc as (Hc & ? & Hn'); [|done|lia|lia].
  cbn [message_typed encode_payload]. split.
  - eapply read_entries_typed; [|auto with faultline|rewrite length_drop; lia].
    intros. by apply write_read_job_summary.
  - rewrite read_entries_length, u32_id, Hc by ilia.
    rewrite (write_read_entries _ _ 38) by
      (try (intros; apply write_read_job_summary; done); read_side).
    write_reads. f_equal. lia.
Qed.

Lemma decoded_workers available n payload count :
  bytes_ok payload -> 8 <= n -> n <= Z.of_nat (length payload) ->
  decode_list_count false available n 8 payload = inr count ->
  let m := MsgWorkersResponse (mk_workers (read_u32_be (drop 4 payload))
             (read_entries read_worker_summary 30 count (drop 8 payload))) in
  message_typed m /\ encode_payload m = take (Z.to_nat n) payload.
Proof.
  intros Hok Hn Hlen Hc.
  apply decode_list_count_inv in Hc as (Hc & ? & Hn'); [|done|lia|lia].
  cbn [message_typed encode_payload wl_heartbeat_timeout_ms wl_entries]. split; [split|].
  - typed_reads.
  - eapply read_entries_typed; [|auto with faultline|rewrite length_drop; lia].
    intros. by apply write_read_worker_summary.
  - rewrite read_entries_length, u32_id, Hc by ilia.
    rewrite (write_read_entries _ _ 30) by
      (try (intros; apply write_read_worker_summary; done); read_side).
    write_reads. f_equal. lia.
Qed.

(** A message whose data is the rest of the payload, from offset [o]. *)
Ltac data_case Hv payload size n o :=
  assert (in_u32 size) by (apply un_be32_read_range; read_side);
  assert (size = n - o)
    by (refine (validate_data_size _ _ o _ size _ _ _ Hv); [reflexivity|reflexivity|done]);
  destruct (attached_data payload size n o) as [? Hdata]; [done|done|lia|done|];
  rewrite Hdata, (u32_id size) by done;
  let k := eval vm_compute in (Z.to_nat o) in change (Z.to_nat o) with k in *;
  try (destruct (write_read_identity payload) as [-> ?]; [done|lia|]);
  split; [split_and!; try done; typed_reads | write_reads; f_equal; lia].

Lemma decode_prefix_inv ty available n minimum maximum payload decoded :
  bytes_ok payload -> message_payload_bounds ty = Some (minimum, maximum) ->
  minimum <= n -> (minimum = maximum -> n = minimum) ->
  available = FAULTLINE_HEADER_SIZE + Z.of_nat (length payload) ->
  n <= Z.of_nat (length payload) ->
  decode_prefix ty available n minimum payload = inr decoded ->
  validate_message decoded = inr n ->
  let m := attach_data (take (Z.to_nat (n - minimum)) (drop (Z.to_nat minimum) payload)) decoded in
  message_type m = ty /\ message_typed m /\ encode_payload m = take (Z.to_nat n) payload.
Proof.
  intros Hok Hb Hn Hfix Ha Hlen Hd Hv. unfold decode_prefix in Hd.
  repeat match type of Hd with
  | (if ?ty =? ?x then _ else _) = _ =>
      destruct (Z.eqb_spec ty x) as [->|?];
      [eval_bounds; injection Hb as <- <-;
       try (injection Hd as <-; cbn [attach_data message_type]; split; [reflexivity|]) |]
  end.
  all: repeat match goal with H : _ <> _ |- _ => clear H end.
  all: try (rewrite Hfix in * by done).
  all: cbn [encode_payload message_typed s_task_type s_max_retries s_argument_size s_arguments
    a_identity a_task_type a_argument_size a_arguments c_identity c_result_size c_result
    f_identity f_failure st_job_id st_state st_worker_id st_attempt st_retry_count
    st_max_retries st_failure st_result_size st_result]; unfold_wire.
  all: try (split; [first [typed_reads | plia] | write_reads]; fail).
  - data_case Hv payload (un_be32 (drop 6 payload)) n 10.
  - data_case Hv payload (un_be32 (drop 22 payload)) n 26.
  - destruct (write_read_identity payload); [done|lia|done].
  - data_case Hv payload (un_be32 (drop 20 payload)) n 24.
  - destruct (write_read_identity payload) as [-> ?]; [done|lia|].
    split; [split; [done|apply un_be16_range]|write_reads].
  - data_case Hv payload (un_be32 (drop 32 payload)) n 36.
  - destruct (decode_list_count _ _ _ _ _) as [|count] eqn:Hc; [done|].
    injection Hd as <-. split; [done|]. by eapply decoded_jobs.
  - destruct (decode_list_count _ _ _ _ _) as [|count] eqn:Hc; [done|].
    injection Hd as <-. split; [done|]. by eapply decoded_workers.
  - destruct (write_read_stats payload); [done|lia|done].
  - injection Hd as <-. cbn. unfold validate_message in Hv.
    cbn [message_type] in Hv. rewrite Hb in Hv. discriminate Hv.
Qed.

Lemma header_ok_fields h :
  validate_header h = FAULTLINE_PROTOCOL_OK ->
  mk_header FAULTLINE_PROTOCOL_MAGIC FAULTLINE_PROTOCOL_VERSION (h_message_type h)
    (h_payload_length h) = h.
Proof.
  unfold validate_header. destruct h as [mg v ty pl].
  cbn [h_magic h_version h_message_type h_payload_length].
  destruct (mg !=? _) eqn:?; [done|]. destruct (v !=? _) eqn:?; [done|].
  split_bools. intros _. f_equal; lia.
Qed.

(** What an accepted frame is. *)
Lemma decode_message_inv wire m consumed :
  bytes_ok wire -> faultline_message_decode wire = inr (m, consumed) ->
  message_typed m /\ consumed <= Z.of_nat (length wire) /\
  faultline_message_encode consumed m = inr (take (Z.to_nat consumed) wire).
Proof.
  intros Hok Hd. unfold faultline_message_decode in Hd.
  destruct (faultline_header_decode wire) as [|h] eqn:Hh; [done|].
  apply header_decode_inv in Hh as (Ht & Hvh & Hw); [|done].
  destruct (message_payload_bounds (h_message_type h)) as [[mn mx]|] eqn:Hb; [|done].
  pose proof (bounds_cases _ _ _ Hb).
  destruct ((_ <? mn) || _) eqn:E1; [done|]. destruct (mx <? _) eqn:E2; [done|].
  destruct (_ <? FAULTLINE_HEADER_SIZE + mn) eqn:E3; [done|].
  destruct (decode_prefix _ _ _ _ _) as [|decoded] eqn:Hp; [done|].
  destruct (validate_message decoded) as [|n] eqn:Hv; [done|].
  destruct (_ !=? n) eqn:E4; [done|].
  destruct (_ <? FAULTLINE_HEADER_SIZE + n) eqn:E5; [done|].
  apply negb_false_iff, Z.eqb_eq in E4. subst n. apply orb_false_iff in E1 as [E1 E1'].
  change (Z.to_nat FAULTLINE_HEADER_SIZE) with 12%nat in *.
  assert (Z.of_nat (length wire) = FAULTLINE_HEADER_SIZE + Z.of_nat (length (drop 12 wire))) as Hlen
    by (rewrite length_drop; plia).
  eapply decode_prefix_inv in Hp as (Hty & Htm & He); [|auto with faultline|done| | | | |done].
  - injection Hd as <- <-. split; [done|]. split; [plia|].
    rewrite message_encode_ok by done. exists (h_payload_length h).
    rewrite validate_attach. split; [done|]. split; [lia|].
    unfold message_header. rewrite He, Hty.
    replace (Z.to_nat _) with (12 + Z.to_nat (h_payload_length h))%nat by plia.
    rewrite <- take_take_drop. f_equal. rewrite Hw, take_app_length' by done.
    by rewrite (header_ok_fields h).
  - plia.
  - intros ->. rewrite Z.eqb_refl in E1'. cbn in E1'. lia.
  - done.
  - plia.
Qed.

(** C19: every frame the decoder accepts is canonical: the message it returns is well typed
    and encoding it again gives exactly the bytes consumed. *)
Theorem message_decode_canonical wire m consumed :
  bytes_ok wire -> faultline_message_decode wire = inr (m, consumed) ->
  message_typed m /\ consumed <= Z.of_nat (length wire) /\
  faultline_message_encode consumed m = inr (take (Z.to_nat consumed) wire).
Proof. apply decode_message_inv. Qed.

(** ** Sizes and statistics *)

Lemma concat_bytes_ok {A} (write : A -> list Z) entries :
  (forall e, bytes_ok (write e)) -> bytes_ok (concat (map write entries)).
Proof. intros Hw. induction entries; simpl; [constructor|]. apply bytes_ok_app. auto. Qed.

Lemma write_identity_bytes_ok i : bytes_ok (write_identity i).
Proof. unfold write_identity. unfold_wire. bytes_fields. Qed.

#[export] Hint Resolve write_identity_bytes_ok : faultline.

Lemma encode_payload_bytes_ok m : message_typed m -> bytes_ok (encode_payload m).
Proof.
  destruct m; cbn [encode_payload message_typed]; unfold buffer_typed; unfold_wire; intros;
    destruct_and?; bytes_fields; try apply Forall_nil_2.
  all: apply concat_bytes_ok; intros; unfold write_job_summary, write_worker_summary;
    unfold_wire; bytes_fields.
Qed.

(** A frame is made of bytes, has exactly the announced length, and fits both the
    protocol's payload limit and the buffer of [FAULTLINE_MESSAGE_MAX_FRAME_SIZE] bytes
    that every connection uses. *)
Theorem message_frame_size wire_size m frame :
  message_typed m -> faultline_message_encode wire_size m = inr frame ->
  bytes_ok frame /\ Z.of_nat (length frame) <= wire_size /\
  Z.of_nat (length frame) <= FAULTLINE_MESSAGE_MAX_FRAME_SIZE /\
  un_be32 (drop 8 frame) = Z.of_nat (length frame) - FAULTLINE_HEADER_SIZE.
Proof.
  intros Ht (n & Hv & Hsize & ->)%message_encode_ok; [|done].
  pose proof (encode_payload_length m n Ht Hv) as Hlen.
  destruct (message_header_ok m n Ht Hv) as ((_ & _ & _ & Hr) & _ & Hn).
  destruct (validate_message_sizes m n Ht Hv) as (mn & mx & Hb & _ & _ & Hmx).
  rewrite length_app, Nat2Z.inj_add, Hlen. change (length (header_bytes _)) with 12%nat.
  split; [|split; [plia|split]].
  - apply bytes_ok_app; split; [|by apply encode_payload_bytes_ok].
    unfold header_bytes. unfold_wire. bytes_fields.
  - assert (mx <= 9732); [|plia]. clear - Hb.
    unfold message_payload_bounds, one_of in Hb. case_matches; plia.
  - unfold header_bytes. unfold_wire. rewrite <- !app_assoc. autorewrite with be. cbn. plia.
Qed.

(** Remove the wraps that cannot happen, innermost first. *)
Ltac unwrap64 :=
  repeat match goal with
  | |- context [u64 ?e] =>
      lazymatch e with context [u64 _] => fail | _ => rewrite (u64_id e) by ilia end
  end.

(** What a statistics snapshot must satisfy, over unbounded integers. *)
Definition stats_consistent (s : faultline_stats_payload) : Prop :=
  jobs_submitted_total s <= FAULTLINE_JOBS_MAX_ENTRIES /\
  jobs_queued s + jobs_assigned s + jobs_running s + jobs_completed_total s +
    jobs_failed_total s = jobs_submitted_total s /\
  job_retries_total s <= jobs_submitted_total s * UINT32_MAX /\
  job_attempts_total s = job_retries_total s + (jobs_submitted_total s - jobs_queued s) /\
  workers_alive s + workers_expired s + workers_dead s = workers_retained s /\
  workers_retained s <= FAULTLINE_WORKERS_MAX_ENTRIES /\
  workers_busy s + workers_idle s = workers_alive s /\
  workers_busy s <= jobs_assigned s + jobs_running s /\
  startup_interrupted_jobs s <= startup_jobs_recovered s <= jobs_submitted_total s /\
  session_jobs_submitted s = jobs_submitted_total s - startup_jobs_recovered s /\
  session_jobs_completed s <= jobs_completed_total s /\
  session_jobs_failed s <= jobs_failed_total s /\
  session_job_retries s <= job_retries_total s /\
  completed_latency_avg_ms s <= INT64_MAX /\
  (jobs_completed_total s = 0 -> completed_latency_avg_ms s = 0) /\
  session_uptime_ms s <= INT64_MAX /\ startup_duration_ms s <= INT64_MAX /\
  1 <= heartbeat_timeout_ms s <= INT_MAX.

Lemma validate_stats_spec s :
  Forall in_u64 (stats_fields s) ->
  validate_stats s = FAULTLINE_PROTOCOL_OK <-> stats_consistent s.
Proof.
  unfold stats_fields. intros Hs.
  repeat match goal with H : Forall _ (_ :: _) |- _ => apply Forall_cons in H as [? H] end.
  unfold validate_stats, stats_consistent. unfold_protocol.
  match goal with |- (if ?c then _ else _) = _ <-> _ => destruct c eqn:E1 end.
  { split; [done|]. intros Hc. exfalso. destruct_and!. rewrite u64_id in E1 by ilia.
    repeat (apply orb_true_iff in E1 as [E1|E1]; [|ilia]). ilia. }
  split_bools. rewrite u64_id in * by ilia. reflect_bools.
  destruct (decide (jobs_submitted_total s < startup_jobs_recovered s)) as [Hlt|Hge].
  - rewrite (proj2 (Z.ltb_lt _ _) Hlt), !orb_true_r. cbn [orb]. split; [done|]. lia.
  - unwrap64.
    match goal with |- (if ?c then _ else _) = _ <-> _ => destruct c eqn:E2 end.
    + split; [done|]. intros Hc. exfalso. destruct_and!.
      repeat (apply orb_true_iff in E2 as [E2|E2]; [|ilia]). ilia.
    + split_bools. reflect_bools. split; [|done]. intros _. split_and!; ilia.
Qed.

(** C21: validation of statistics computes with [uint64_t] values an attacker chooses, yet
    accepts exactly the snapshots that are consistent over unbounded integers: bounding
    the operands first leaves no sum, difference or product that wraps. *)
Theorem validate_stats_exact s :
  Forall in_u64 (stats_fields s) ->
  validate_stats s = FAULTLINE_PROTOCOL_OK <-> stats_consistent s.
Proof. apply validate_stats_spec. Qed.

(** ** Witnesses *)

Definition sample_submit : faultline_message := MsgJobSubmit (mk_submit 2 3 2 [49; 48]).

Definition sample_frame : list Z :=
  [70; 76; 73; 78; 0; 1; 0; 6; 0; 0; 0; 12; 0; 2; 0; 0; 0; 3; 0; 0; 0; 2; 49; 48].

Definition sample_stats : faultline_stats_payload :=
  mk_stats 5 1 1 1 1 1 6 2 40 3 2 0 1 1 1 1000 2 1 0 1 3 1 12 5000.

Lemma sample_submit_typed : message_typed sample_submit.
Proof. cbn. split_and!; try ilia. split; [done|]. repeat apply Forall_cons_2; try ilia. constructor. Qed.

Lemma sample_frame_ok : bytes_ok sample_frame.
Proof. unfold sample_frame. repeat apply Forall_cons_2; try ilia. constructor. Qed.

Lemma header_round_trip_witness :
  faultline_header_decode (take 12 sample_frame ++ [9]) = inr (mk_header 0x464c494e 1 6 12).
Proof.
  apply (header_round_trip 12 (mk_header 0x464c494e 1 6 12)); [|reflexivity].
  unfold header_typed. cbn. ilia.
Defined.

Lemma message_round_trip_witness :
  faultline_message_decode (sample_frame ++ [255; 0]) = inr (sample_submit, 24).
Proof.
  apply (message_round_trip 24 sample_submit sample_frame [255; 0] sample_submit_typed).
  reflexivity.
Defined.

Lemma message_incomplete_witness :
  faultline_message_decode (take 23 sample_frame) = inl FAULTLINE_PROTOCOL_BUFFER_TOO_SMALL.
Proof.
  apply (message_incomplete 24 sample_submit sample_frame 23 sample_submit_typed); [reflexivity|].
  cbn. lia.
Defined.

Lemma message_decode_canonical_witness :
  faultline_message_encode 24 sample_submit = inr (take 24 (sample_frame ++ [1])).
Proof.
  apply (message_decode_canonical (sample_frame ++ [1])); [|reflexivity].
  apply bytes_ok_app. split; [apply sample_frame_ok|]. apply Forall_singleton. ilia.
Defined.

Lemma message_frame_size_witness :
  bytes_ok sample_frame /\ Z.of_nat (length sample_frame) <= 100 /\
  Z.of_nat (length sample_frame) <= FAULTLINE_MESSAGE_MAX_FRAME_SIZE /\
  un_be32 (drop 8 sample_frame) = 12.
Proof. apply (message_frame_size 100 sample_submit sample_frame sample_submit_typed). reflexivity. Defined.

Lemma validate_stats_exact_witness : stats_consistent sample_stats.
Proof.
  apply (validate_stats_exact sample_stats); [|reflexivity].
  repeat apply Forall_cons_2; try (cbn; ilia). constructor.
Defined.
