(* ===== verification/Framing.v ===== *)
(** Frames of the byte stream. A receiver cuts the stream into frames: the decoder asks for more bytes
    exactly while the announced length has not arrived, and the type is the one that the header
    announced. A sender puts a message out as its frame, if the encoder accepts it. *)

From S2P Require Import Prelude Job Protocol ProtocolProofs.

Abbreviation SHORT := FAULTLINE_PROTOCOL_BUFFER_TOO_SMALL.

Lemma header_decode_more wire more :
  (12 <= length wire)%nat -> faultline_header_decode (wire ++ more) = faultline_header_decode wire.
Proof.
  intros H. do 12 (destruct wire as [|? wire]; [cbn in H; lia|]). clear H.
  unfold faultline_header_decode. rewrite !(proj2 (Z.ltb_ge _ _)); [done|..];
    cbn [length app]; rewrite ?length_app; unfold FAULTLINE_HEADER_SIZE; lia.
Qed.

Lemma header_decode_length wire h :
  faultline_header_decode wire = inr h -> FAULTLINE_HEADER_SIZE <= Z.of_nat (length wire).
Proof. unfold faultline_header_decode. destruct (Z.ltb_spec (Z.of_nat (length wire)) FAULTLINE_HEADER_SIZE); [done|lia]. Qed.

(** ** Validation never asks for more bytes *)

Lemma validate_status_never s : validate_job_status s <> SHORT.
Proof. unfold validate_job_status. repeat case_match; done. Qed.

Lemma validate_job_entries_never previous l : validate_job_entries previous l <> SHORT.
Proof.
  revert previous. induction l as [|e l IH]; intros previous; cbn [validate_job_entries]; [done|].
  destruct (validate_job_status (summary_status e)) eqn:E; try done;
    [|by destruct (validate_status_never _ E)].
  repeat (destruct (negb _) || destruct (_ <? _)); try done; case_match; try done; case_match; try done; apply IH.
Qed.

Lemma validate_worker_entries_never previous l : validate_worker_entries previous l <> SHORT.
Proof.
  revert previous. induction l as [|e l IH]; intros previous; cbn [validate_worker_entries]; [done|].
  repeat (case_match; try done); apply IH.
Qed.

Lemma validate_message_never m : validate_message m <> inl SHORT.
Proof.
  unfold validate_message. destruct (message_payload_bounds _) as [[mn mx]|]; [|done].
  assert (validate_payload m <> inl SHORT) as Hp.
  { destruct m; cbn [validate_payload]; try (by case_match); try done.
    - destruct (validate_job_status _) eqn:E; try done. by destruct (validate_status_never _ E).
    - unfold validate_jobs. destruct (_ <? _); [done|].
      destruct (validate_job_entries _ _) eqn:E; try done. by destruct (validate_job_entries_never _ _ E).
    - unfold validate_workers. destruct (_ <? _); [done|]. destruct (_ =? _); [done|].
      destruct (validate_worker_entries _ _) eqn:E; try done. by destruct (validate_worker_entries_never _ _ E).
    - unfold validate_stats. by repeat case_match. }
  destruct (validate_payload m) as [e|[identity size]] eqn:E; [congruence|].
  unfold validate_identity. destruct identity as [i|]; cbn; repeat (case_match; try done).
Qed.

Lemma decode_prefix_short ty available n minimum payload :
  decode_prefix ty available n minimum payload = inl SHORT -> available < FAULTLINE_HEADER_SIZE + n.
Proof.
  unfold decode_prefix. repeat (destruct (ty =? _); [try discriminate|]); try discriminate.
  all: unfold decode_list_count.
  all: destruct (_ <? read_u32_be payload); [discriminate|].
  all: destruct (n !=? _); [discriminate|]. all: destruct (_ && _); [discriminate|].
  all: destruct (Z.ltb_spec available (FAULTLINE_HEADER_SIZE + n)); [done|discriminate].
Qed.

Lemma decode_short wire h :
  faultline_message_decode wire = inl SHORT -> faultline_header_decode wire = inr h ->
  Z.of_nat (length wire) < FAULTLINE_HEADER_SIZE + h_payload_length h.
Proof.
  unfold faultline_message_decode. intros H Hh. rewrite Hh in H.
  destruct (message_payload_bounds _) as [[mn mx]|]; [|done].
  destruct (_ || _) eqn:E1; [done|]. apply orb_false_iff in E1 as [E1 _]. apply Z.ltb_ge in E1.
  destruct (mx <? _); [done|].
  destruct (Z.ltb_spec (Z.of_nat (length wire)) (FAULTLINE_HEADER_SIZE + mn)); [lia|].
  destruct (decode_prefix _ _ _ _ _) as [e|decoded] eqn:Ep.
  { injection H as ->. by eapply decode_prefix_short. }
  destruct (validate_message decoded) as [e|n] eqn:Ev.
  { injection H as ->. by destruct (validate_message_never _ Ev). }
  destruct (Z.eqb_spec (h_payload_length h) n) as [->|]; [|done]. cbn [negb] in H.
  destruct (Z.ltb_spec (Z.of_nat (length wire)) (FAULTLINE_HEADER_SIZE + n)); [lia|done].
Qed.

(** ** The type of the header *)

Lemma decode_prefix_type ty available n minimum payload decoded :
  decode_prefix ty available n minimum payload = inr decoded -> message_type decoded = ty.
Proof.
  unfold decode_prefix.
  do 20 match goal with
  | |- context [ty =? ?k] =>
      destruct (Z.eqb_spec ty k) as [E|_];
      [try destruct (decode_list_count _ _ _ _ _); try done; intros H; injection H as <-; by rewrite E|]
  end.
  intros H. by injection H as <-.
Qed.

Lemma decode_type wire m n h :
  faultline_message_decode wire = inr (m, n) -> faultline_header_decode wire = inr h ->
  message_type m = h_message_type h.
Proof.
  unfold faultline_message_decode. intros H Hh. rewrite Hh in H.
  destruct (message_payload_bounds _) as [[mn mx]|]; [|done].
  destruct (_ || _); [done|]. destruct (mx <? _); [done|]. destruct (_ <? _); [done|].
  destruct (decode_prefix _ _ _ _ _) as [e|decoded] eqn:Ep; [done|].
  destruct (validate_message decoded) as [e|k]; [done|].
  destruct (_ !=? _); [done|]. destruct (_ <? _); [done|]. injection H as <- _.
  rewrite message_type_attach. by eapply decode_prefix_type.
Qed.

Lemma decode_consumed wire m n h :
  faultline_message_decode wire = inr (m, n) -> faultline_header_decode wire = inr h ->
  n = FAULTLINE_HEADER_SIZE + h_payload_length h.
Proof.
  unfold faultline_message_decode. intros H Hh. rewrite Hh in H.
  destruct (message_payload_bounds _) as [[mn mx]|]; [|done].
  destruct (_ || _); [done|]. destruct (mx <? _); [done|]. destruct (_ <? _); [done|].
  destruct (decode_prefix _ _ _ _ _) as [e|decoded]; [done|].
  destruct (validate_message decoded) as [e|k]; [done|].
  destruct (Z.eqb_spec (h_payload_length h) k) as [->|]; [|done]. cbn [negb] in H.
  destruct (_ <? _); [done|]. by injection H as _ <-.
Qed.

(** ** Messages that go out *)

(** The message goes out: it fits its fields and the encoder accepts it. *)
Definition sendable (m : faultline_message) : Prop :=
  message_typed m /\ exists frame, faultline_message_encode FAULTLINE_MESSAGE_MAX_FRAME_SIZE m = inr frame.

Lemma sendable_valid m n : message_typed m -> validate_message m = inr n -> sendable m.
Proof.
  intros Ht Hv. split; [done|]. eexists. apply message_encode_ok; [done|].
  exists n. split_and!; [done| |done].
  assert (faultline_message_encode (FAULTLINE_HEADER_SIZE + n) m =
    inr (header_bytes (message_header m n) ++ encode_payload m)) as He.
  { apply message_encode_ok; [done|]. exists n. by split_and!. }
  apply message_frame_size in He as (_ & _ & Hmax & _); [|done].
  rewrite length_app, Nat2Z.inj_add, (encode_payload_length m n Ht Hv) in Hmax. exact Hmax.
Qed.

Lemma valid_sized m minimum maximum identity size :
  message_payload_bounds (message_type m) = Some (minimum, maximum) ->
  validate_payload m = inr (identity, size) ->
  match identity with Some i => validate_identity i = FAULTLINE_PROTOCOL_OK | None => True end ->
  size <= maximum - minimum -> validate_message m = inr (minimum + u32 size).
Proof.
  intros Hb Hp Hi Hs. unfold validate_message. rewrite Hb, Hp. cbn.
  destruct identity as [i|]; cbn; [rewrite Hi|]; by rewrite (proj2 (Z.ltb_ge _ _)) by lia.
Qed.

Lemma short_sendable m minimum :
  message_typed m -> message_payload_bounds (message_type m) = Some (minimum, minimum) ->
  validate_payload m = inr (None, 0) -> sendable m.
Proof.
  intros Ht Hb Hp. eapply sendable_valid; [done|]. eapply valid_sized; [done|done|done|lia].
Qed.

(** The bytes of a message on the stream. *)
Definition frame_of (m : faultline_message) : list Z :=
  match faultline_message_encode FAULTLINE_MESSAGE_MAX_FRAME_SIZE m with inr frame => frame | inl _ => [] end.

Lemma sendable_frame m :
  sendable m -> faultline_message_encode FAULTLINE_MESSAGE_MAX_FRAME_SIZE m = inr (frame_of m).
Proof. intros [_ [frame E]]. unfold frame_of. by rewrite E. Qed.

(** The size of the buffer does not matter, if it is large enough. *)
Lemma encode_frame_of size m frame :
  message_typed m -> faultline_message_encode size m = inr frame -> frame_of m = frame /\ sendable m.
Proof.
  intros Ht He. apply message_encode_ok in He as (n & Hv & _ & ->); [|done].
  pose proof (sendable_valid m n Ht Hv) as Hs. split; [|done]. apply sendable_frame in Hs.
  apply message_encode_ok in Hs as (k & Hk & _ & ->); [|done]. congruence.
Qed.

Lemma sendable_decodes m rest :
  sendable m -> faultline_message_decode (frame_of m ++ rest) = inr (m, Z.of_nat (length (frame_of m))).
Proof. intros Hs. eapply decode_frame; [apply Hs|by apply sendable_frame]. Qed.

Lemma frame_size m : sendable m -> FAULTLINE_HEADER_SIZE <= Z.of_nat (length (frame_of m)).
Proof.
  intros Hs. pose proof (sendable_decodes m [] Hs) as Hd. rewrite app_nil_r in Hd.
  unfold faultline_message_decode in Hd. destruct (faultline_header_decode (frame_of m)) eqn:Eh; [done|].
  by eapply header_decode_length.
Qed.

Lemma frame_nonempty m : sendable m -> frame_of m <> [].
Proof. intros Hs E. pose proof (frame_size m Hs) as H. rewrite E in H. done. Qed.

(** A whole buffer that decodes is the frame of its message. *)
Lemma decoded_frame wire m consumed :
  bytes_ok wire -> faultline_message_decode wire = inr (m, consumed) ->
  sendable m /\ frame_of m = take (Z.to_nat consumed) wire.
Proof.
  intros Hb Hd. apply decode_message_inv in Hd as (Ht & _ & He); [|done].
  apply encode_frame_of in He as [? ?]; done.
Qed.
