(* ===== verification/Scheduler.v ===== *)
(** The scheduler: [include/scheduler.h], [src/coordinator/scheduler.c].

    The store is the array of 256 records of which the first [sched_count] are in
    use ([live]); accepted jobs stay in it for good. A function that changes the
    scheduler returns its result code, its out-parameter (written on success
    only) and the scheduler, unchanged when the call is rejected. *)

From S2P Require Import Prelude Job JobQueue Protocol.

Definition FAULTLINE_JOB_STORE_CAPACITY : nat := 256.

Record faultline_scheduler := mk_scheduler {
  sched_jobs : list faultline_job;
  sched_count : nat;
  next_job_id : Z;
  pending : faultline_job_queue;
}.

Inductive faultline_scheduler_result :=
| FAULTLINE_SCHEDULER_OK
| FAULTLINE_SCHEDULER_INVALID_ARGUMENT
| FAULTLINE_SCHEDULER_FULL
| FAULTLINE_SCHEDULER_ID_EXHAUSTED
| FAULTLINE_SCHEDULER_EMPTY
| FAULTLINE_SCHEDULER_WORKER_BUSY
| FAULTLINE_SCHEDULER_INVALID_JOB
| FAULTLINE_SCHEDULER_QUEUE_ERROR.

#[export] Instance faultline_scheduler_result_eq_dec : EqDecision faultline_scheduler_result.
Proof. solve_decision. Defined.

(** ** Operations *)

Definition faultline_scheduler_init : faultline_scheduler :=
  {| sched_jobs := replicate FAULTLINE_JOB_STORE_CAPACITY zero_job; sched_count := 0;
     next_job_id := 1; pending := faultline_job_queue_init |}.

(** The records in use, oldest first. *)
Definition live (scheduler : faultline_scheduler) : list faultline_job :=
  take (sched_count scheduler) (sched_jobs scheduler).

Definition find_slot (scheduler : faultline_scheduler) (id : Z) : nat :=
  first_index (fun job => job_id job =? id) (live scheduler).

Definition faultline_scheduler_find (scheduler : faultline_scheduler) (id : Z) :
    option faultline_job :=
  if id =? 0 then None
  else
    let slot := find_slot scheduler id in
    if (slot =? sched_count scheduler)%nat then None
    else Some (sched_jobs scheduler !!! slot).

(** The condition of the loop of [faultline_scheduler_active]. *)
Definition active_for (worker : Z) (job : faultline_job) : bool :=
  (worker_id job =? worker) &&
  (bool_decide (job_state job = FAULTLINE_JOB_ASSIGNED) ||
   bool_decide (job_state job = FAULTLINE_JOB_RUNNING)).

Definition faultline_scheduler_active (scheduler : faultline_scheduler) (worker : Z) :
    option faultline_job :=
  if worker =? 0 then None
  else
    live scheduler !! first_index (active_for worker) (live scheduler).

Definition faultline_scheduler_submit (scheduler : faultline_scheduler)
    (submit : faultline_job_submit_payload) (now_ms : Z) :
    faultline_scheduler_result * option Z * faultline_scheduler :=
  if now_ms <? 0 then (FAULTLINE_SCHEDULER_INVALID_ARGUMENT, None, scheduler)
  else if (sched_count scheduler =? FAULTLINE_JOB_STORE_CAPACITY)%nat then
    (FAULTLINE_SCHEDULER_FULL, None, scheduler)
  else if next_job_id scheduler =? 0 then (FAULTLINE_SCHEDULER_ID_EXHAUSTED, None, scheduler)
  else
    match faultline_job_init zero_job (next_job_id scheduler)
            (task_type_cast (s_task_type submit)) (Some (s_arguments submit))
            (s_argument_size submit) (s_max_retries submit) now_ms with
    | (FAULTLINE_JOB_OK, job) =>
        match faultline_job_queue_push (pending scheduler) job with
        | (FAULTLINE_JOB_QUEUE_OK, queue) =>
            (FAULTLINE_SCHEDULER_OK, Some (job_id job),
             {| sched_jobs := <[sched_count scheduler := job]> (sched_jobs scheduler);
                sched_count := S (sched_count scheduler);
                next_job_id := if job_id job =? UINT64_MAX then 0 else u64 (job_id job + 1);
                pending := queue |})
        | _ => (FAULTLINE_SCHEDULER_QUEUE_ERROR, None, scheduler)
        end
    | _ => (FAULTLINE_SCHEDULER_INVALID_JOB, None, scheduler)
    end.

(** The assignment message for a record that was just assigned. *)
Definition assignment_message (candidate : faultline_job) (worker : Z) : faultline_message :=
  MsgJobAssign
    {| a_identity := {| i_job_id := job_id candidate; i_worker_id := worker;
                        i_attempt := attempt candidate |};
       a_task_type := u16 (task_type_value (task_type candidate));
       a_argument_size := argument_size candidate;
       a_arguments := take (Z.to_nat (argument_size candidate)) (arguments candidate) |}.

Definition faultline_scheduler_assign (scheduler : faultline_scheduler) (worker now_ms : Z) :
    faultline_scheduler_result * option faultline_message * faultline_scheduler :=
  if (worker =? 0) || (now_ms <? 0) then
    (FAULTLINE_SCHEDULER_INVALID_ARGUMENT, None, scheduler)
  else if bool_decide (faultline_scheduler_active scheduler worker <> None) then
    (FAULTLINE_SCHEDULER_WORKER_BUSY, None, scheduler)
  else
    match faultline_job_queue_peek (pending scheduler) with
    | (FAULTLINE_JOB_QUEUE_OK, Some id) =>
        let slot := find_slot scheduler id in
        if (slot =? sched_count scheduler)%nat then
          (FAULTLINE_SCHEDULER_INVALID_JOB, None, scheduler)
        else
          match faultline_job_assign (sched_jobs scheduler !!! slot) worker now_ms with
          | (FAULTLINE_JOB_OK, candidate) =>
              match faultline_job_queue_pop (pending scheduler) with
              | (FAULTLINE_JOB_QUEUE_OK, removed, queue) =>
                  (FAULTLINE_SCHEDULER_OK, Some (assignment_message candidate worker),
                   {| sched_jobs := <[slot := candidate]> (sched_jobs scheduler);
                      sched_count := sched_count scheduler;
                      next_job_id := next_job_id scheduler; pending := queue |})
              | _ => (FAULTLINE_SCHEDULER_QUEUE_ERROR, None, scheduler)
              end
          | _ => (FAULTLINE_SCHEDULER_INVALID_JOB, None, scheduler)
          end
    | _ => (FAULTLINE_SCHEDULER_EMPTY, None, scheduler)
    end.

Definition publish_outcome (scheduler : faultline_scheduler) (slot : nat)
    (candidate : faultline_job) : faultline_scheduler_result * faultline_scheduler :=
  let publish queue :=
    (FAULTLINE_SCHEDULER_OK,
     {| sched_jobs := <[slot := candidate]> (sched_jobs scheduler);
        sched_count := sched_count scheduler;
        next_job_id := next_job_id scheduler; pending := queue |}) in
  if bool_decide (job_state candidate = FAULTLINE_JOB_QUEUED) then
    match faultline_job_queue_push (pending scheduler) candidate with
    | (FAULTLINE_JOB_QUEUE_OK, queue) => publish queue
    | _ => (FAULTLINE_SCHEDULER_QUEUE_ERROR, scheduler)
    end
  else publish (pending scheduler).

(** The identity a report carries; [None] is the default case of the switch. *)
Definition report_identity (report : faultline_message) : option faultline_job_identity :=
  match report with
  | MsgJobStarted identity => Some identity
  | MsgJobCompleted completed => Some (c_identity completed)
  | MsgJobFailed failed => Some (f_identity failed)
  | _ => None
  end.

(** The record operation a report asks for; [None] is the refused failure reason. *)
Definition apply_report (candidate : faultline_job) (worker : Z) (report : faultline_message)
    (now_ms : Z) : option (faultline_job_result * faultline_job) :=
  match report with
  | MsgJobStarted identity =>
      Some (faultline_job_start candidate worker (i_attempt identity) now_ms)
  | MsgJobCompleted completed =>
      Some (faultline_job_complete candidate worker (i_attempt (c_identity completed))
              (Some (c_result completed)) (c_result_size completed) now_ms)
  | MsgJobFailed failed =>
      if f_failure failed !=? job_failure_value FAULTLINE_JOB_FAILURE_TASK then None
      else Some (faultline_job_fail candidate worker (i_attempt (f_identity failed))
                   FAULTLINE_JOB_FAILURE_TASK now_ms)
  | _ => None
  end.

Definition faultline_scheduler_report (scheduler : faultline_scheduler) (worker : Z)
    (report : faultline_message) (now_ms : Z) :
    faultline_scheduler_result * faultline_scheduler :=
  if (worker =? 0) || (now_ms <? 0) then (FAULTLINE_SCHEDULER_INVALID_ARGUMENT, scheduler)
  else
    match report_identity report with
    | None => (FAULTLINE_SCHEDULER_INVALID_ARGUMENT, scheduler)
    | Some identity =>
        let slot := find_slot scheduler (i_job_id identity) in
        if (i_worker_id identity !=? worker) || (slot =? sched_count scheduler)%nat then
          (FAULTLINE_SCHEDULER_INVALID_JOB, scheduler)
        else
          match apply_report (sched_jobs scheduler !!! slot) worker report now_ms with
          | Some (FAULTLINE_JOB_OK, candidate) => publish_outcome scheduler slot candidate
          | _ => (FAULTLINE_SCHEDULER_INVALID_JOB, scheduler)
          end
    end.

Definition faultline_scheduler_worker_lost (scheduler : faultline_scheduler)
    (worker now_ms : Z) : faultline_scheduler_result * faultline_scheduler :=
  if (worker =? 0) || (now_ms <? 0) then (FAULTLINE_SCHEDULER_INVALID_ARGUMENT, scheduler)
  else
    match faultline_scheduler_active scheduler worker with
    | None => (FAULTLINE_SCHEDULER_EMPTY, scheduler)
    | Some active =>
        match faultline_job_fail active worker (attempt active)
                FAULTLINE_JOB_FAILURE_WORKER_LOST now_ms with
        | (FAULTLINE_JOB_OK, candidate) =>
            publish_outcome scheduler (find_slot scheduler (job_id candidate)) candidate
        | _ => (FAULTLINE_SCHEDULER_INVALID_JOB, scheduler)
        end
    end.

(** ** Invariant *)

Definition is_queued (j : faultline_job) : Prop := job_state j = FAULTLINE_JOB_QUEUED.

#[export] Instance is_queued_dec j : Decision (is_queued j).
Proof. unfold is_queued. apply _. Defined.

Definition queued_ids (l : list faultline_job) : list Z := job_id <$> filter is_queued l.

Definition active_job (j : faultline_job) : Prop := active_state (job_state j) = true.

(** Records are well formed with increasing IDs below the allocator, the pending
    queue holds exactly the IDs of the queued records, and a worker owns at most
    one active record. *)
Record sched_wf (s : faultline_scheduler) : Prop := {
  sched_capacity : length (sched_jobs s) = FAULTLINE_JOB_STORE_CAPACITY;
  sched_count_le : (sched_count s <= FAULTLINE_JOB_STORE_CAPACITY)%nat;
  sched_queue_wf : queue_wf (pending s);
  sched_jobs_wf : Forall job_wf (live s);
  sched_ids_sorted : StronglySorted Z.lt (job_id <$> live s);
  sched_next_range : in_u64 (next_job_id s);
  sched_next_fresh : next_job_id s <> 0 -> Forall (fun j => job_id j < next_job_id s) (live s);
  sched_pending : contents (pending s) ≡ₚ queued_ids (live s);
  sched_one_active : forall i k j j',
    live s !! i = Some j -> live s !! k = Some j' -> active_job j -> active_job j' ->
    worker_id j = worker_id j' -> i = k;
}.

Lemma live_length s : sched_wf s -> length (live s) = sched_count s.
Proof. intros [Hl Hc _ _ _ _ _ _ _]. unfold live. rewrite length_take. lia. Qed.

Lemma StronglySorted_NoDup (l : list Z) : StronglySorted Z.lt l -> NoDup l.
Proof.
  induction 1 as [|x l _ IH Hx]; constructor; [|done].
  rewrite Forall_forall in Hx. intros Hin. specialize (Hx x Hin). lia.
Qed.

Lemma live_ids_nodup s : sched_wf s -> NoDup (job_id <$> live s).
Proof. intros H. apply StronglySorted_NoDup, H. Qed.

Lemma live_unique s i k j j' :
  sched_wf s -> live s !! i = Some j -> live s !! k = Some j' -> job_id j = job_id j' -> i = k.
Proof.
  intros Hs Hi Hk Hid. eapply (NoDup_lookup (job_id <$> live s)).
  - by apply live_ids_nodup.
  - rewrite list_lookup_fmap, Hi. done.
  - rewrite list_lookup_fmap, Hk. simpl. by rewrite Hid.
Qed.

Lemma live_jobs s slot j :
  sched_wf s -> live s !! slot = Some j ->
  (slot < sched_count s)%nat /\ sched_jobs s !!! slot = j /\ job_wf j.
Proof.
  intros Hs Hj. pose proof (lookup_lt_Some _ _ _ Hj) as Hlt. rewrite live_length in Hlt by done.
  split; [done|]. split.
  - unfold live in Hj. rewrite lookup_take_lt in Hj by done. by apply list_lookup_total_correct.
  - eapply Forall_lookup_1; [apply Hs|done].
Qed.

Lemma find_slot_found s id slot j :
  sched_wf s -> live s !! slot = Some j -> job_id j = id -> find_slot s id = slot.
Proof.
  intros Hs Hj Hid. apply (first_index_unique _ _ _ j); [done|lia|].
  intros k y Hy Hp. eapply live_unique; eauto. lia.
Qed.

Lemma find_slot_cases s id :
  sched_wf s ->
  (find_slot s id = sched_count s /\ forall j, j ∈ live s -> job_id j <> id) \/
  exists j, live s !! find_slot s id = Some j /\ job_id j = id /\
    find_slot s id <> sched_count s.
Proof.
  intros Hs. pose proof (live_length s Hs) as Hl. unfold find_slot.
  pose proof (first_index_le (fun job => job_id job =? id) (live s)) as Hle.
  destruct (decide (first_index (fun job => job_id job =? id) (live s) = length (live s))) as [E|E].
  - left. split; [lia|]. intros j Hj. rewrite first_index_none in E. specialize (E j Hj). lia.
  - right. destruct (lookup_lt_is_Some_2 (live s)
      (first_index (fun job => job_id job =? id) (live s))) as [j Hj]; [lia|].
    exists j. pose proof (first_index_lookup _ _ _ _ eq_refl Hj) as Hp. cbn beta in Hp.
    split_and!; [done|lia|lia].
Qed.

Lemma active_for_true worker j :
  active_for worker j = true <-> worker_id j = worker /\ active_job j.
Proof.
  unfold active_for, active_job, active_state. rewrite andb_true_iff, Z.eqb_eq. done.
Qed.

Lemma active_some s worker j :
  faultline_scheduler_active s worker = Some j ->
  worker <> 0 /\ active_job j /\ worker_id j = worker /\ exists slot, live s !! slot = Some j.
Proof.
  unfold faultline_scheduler_active. destruct (Z.eqb_spec worker 0); [done|]. intros Hj.
  pose proof (first_index_lookup _ _ _ _ eq_refl Hj) as Hp.
  apply active_for_true in Hp as [Hw Ha]. eauto 6.
Qed.

Lemma active_none s worker :
  faultline_scheduler_active s worker = None <->
  worker = 0 \/ forall j, j ∈ live s -> active_job j -> worker_id j <> worker.
Proof.
  unfold faultline_scheduler_active. destruct (Z.eqb_spec worker 0); [naive_solver|].
  rewrite lookup_ge_None. pose proof (first_index_le (active_for worker) (live s)). split.
  - intros Hle. right. intros j Hj Ha Hw.
    assert (first_index (active_for worker) (live s) = length (live s)) as E by lia.
    rewrite first_index_none in E. specialize (E j Hj).
    rewrite <- not_true_iff_false, active_for_true in E. naive_solver.
  - intros [?|Hn]; [done|]. apply Nat.eq_le_incl. symmetry. apply first_index_none.
    intros j Hj. apply not_true_iff_false. rewrite active_for_true. naive_solver.
Qed.

(** ** Replacing one record *)

Definition replace_job (s : faultline_scheduler) (slot : nat) (c : faultline_job)
    (q : faultline_job_queue) : faultline_scheduler :=
  mk_scheduler (<[slot := c]> (sched_jobs s)) (sched_count s) (next_job_id s) q.

Lemma live_replace s slot c q :
  (slot < sched_count s)%nat -> live (replace_job s slot c q) = <[slot := c]> (live s).
Proof. intros Hlt. unfold live, replace_job. cbn. by apply take_insert_in. Qed.

Lemma replace_job_wf s slot j c q :
  sched_wf s -> live s !! slot = Some j -> job_wf c -> job_id c = job_id j -> queue_wf q ->
  contents q ≡ₚ queued_ids (<[slot := c]> (live s)) ->
  (active_job c -> forall k j', live s !! k = Some j' -> k <> slot -> active_job j' ->
    worker_id j' <> worker_id c) ->
  sched_wf (replace_job s slot c q).
Proof.
  intros Hs Hj Hc Hid Hq Hperm Hone.
  destruct (live_jobs s slot j Hs Hj) as (Hlt & _ & _).
  pose proof (live_replace s slot c q Hlt) as Hl.
  assert (job_id <$> live (replace_job s slot c q) = job_id <$> live s) as Hids.
  { rewrite Hl, list_fmap_insert. apply list_insert_id. rewrite list_lookup_fmap, Hj. simpl.
    by rewrite Hid. }
  constructor; rewrite ?Hids, ?Hl; unfold replace_job; cbn [sched_jobs sched_count next_job_id pending].
  - rewrite length_insert. apply Hs.
  - apply Hs.
  - done.
  - apply Forall_insert; [apply Hs|done].
  - apply Hs.
  - apply Hs.
  - intros Hn. apply Forall_insert; [by apply Hs|]. rewrite Hid.
    pose proof (sched_next_fresh s Hs Hn) as Hf. eapply Forall_lookup_1 in Hf; [|done]. done.
  - done.
  - intros i k x y Hi Hk Hax Hay Hw.
    destruct (decide (i = slot)) as [->|Hi'], (decide (k = slot)) as [->|Hk']; [done| | |].
    + rewrite list_lookup_insert_eq in Hi by (rewrite live_length; done). injection Hi as <-.
      rewrite list_lookup_insert_ne in Hk by done. exfalso. eapply Hone; eauto.
    + rewrite list_lookup_insert_eq in Hk by (rewrite live_length; done). injection Hk as <-.
      rewrite list_lookup_insert_ne in Hi by done. exfalso. eapply Hone; eauto.
    + rewrite list_lookup_insert_ne in Hi, Hk by done. eapply (sched_one_active s); eauto.
Qed.

(** The queued IDs when the record in a slot changes. *)
Lemma queued_ids_split (l : list faultline_job) slot j :
  l !! slot = Some j ->
  exists l1 l2, l = l1 ++ j :: l2 /\ forall c, <[slot := c]> l = l1 ++ c :: l2.
Proof.
  intros Hj. exists (take slot l), (drop (S slot) l). split.
  - symmetry. by apply take_drop_middle.
  - intros c. apply insert_take_drop. eapply lookup_lt_Some; eauto.
Qed.

Lemma queued_ids_cons j l :
  queued_ids (j :: l) =
  if decide (is_queued j) then job_id j :: queued_ids l else queued_ids l.
Proof. unfold queued_ids. rewrite filter_cons. by destruct (decide _). Qed.

Lemma queued_ids_app l k : queued_ids (l ++ k) = queued_ids l ++ queued_ids k.
Proof. unfold queued_ids. by rewrite filter_app, fmap_app. Qed.

Lemma queued_ids_same l slot j c :
  l !! slot = Some j -> job_id c = job_id j -> (is_queued c <-> is_queued j) ->
  queued_ids (<[slot := c]> l) = queued_ids l.
Proof.
  intros Hj Hid Hq. destruct (queued_ids_split l slot j Hj) as (l1 & l2 & -> & ->).
  rewrite !queued_ids_app, !queued_ids_cons, Hid.
  destruct (decide (is_queued c)), (decide (is_queued j)); tauto.
Qed.

Lemma queued_ids_leave l slot j c :
  l !! slot = Some j -> is_queued j -> ~ is_queued c ->
  job_id j :: queued_ids (<[slot := c]> l) ≡ₚ queued_ids l.
Proof.
  intros Hj Hq Hc. destruct (queued_ids_split l slot j Hj) as (l1 & l2 & -> & ->).
  rewrite !queued_ids_app, !queued_ids_cons, decide_False, decide_True by done.
  apply Permutation_middle.
Qed.

Lemma queued_ids_enter l slot j c :
  l !! slot = Some j -> ~ is_queued j -> is_queued c ->
  queued_ids (<[slot := c]> l) ≡ₚ queued_ids l ++ [job_id c].
Proof.
  intros Hj Hq Hc. destruct (queued_ids_split l slot j Hj) as (l1 & l2 & -> & ->).
  rewrite !queued_ids_app, !queued_ids_cons, decide_True, decide_False by done.
  etrans; [symmetry; apply Permutation_middle|]. apply Permutation_cons_append.
Qed.

Lemma queued_ids_length l : (length (queued_ids l) <= length l)%nat.
Proof. unfold queued_ids. rewrite length_fmap. apply length_filter. Qed.

Lemma queued_ids_room l slot j :
  l !! slot = Some j -> ~ is_queued j -> (length (queued_ids l) < length l)%nat.
Proof.
  intros Hj Hq. destruct (queued_ids_split l slot j Hj) as (l1 & l2 & -> & _).
  rewrite queued_ids_app, queued_ids_cons, decide_False, !length_app by done. simpl.
  pose proof (queued_ids_length l1). pose proof (queued_ids_length l2). lia.
Qed.

Lemma queued_ids_in l id :
  id ∈ queued_ids l <-> exists j, j ∈ l /\ is_queued j /\ job_id j = id.
Proof.
  unfold queued_ids. rewrite list_elem_of_fmap. setoid_rewrite list_elem_of_filter. naive_solver.
Qed.

Lemma active_not_queued j : active_job j -> ~ is_queued j.
Proof. unfold active_job, is_queued. intros Ha Hq. rewrite Hq in Ha. done. Qed.

(** An active record never sits in the queue. *)
Lemma not_pending s slot j :
  sched_wf s -> live s !! slot = Some j -> ~ is_queued j ->
  (job_id j ∉ contents (pending s)) /\
  (length (contents (pending s)) < FAULTLINE_JOB_QUEUE_CAPACITY)%nat.
Proof.
  intros Hs Hj Hq. rewrite (sched_pending s Hs). split.
  - rewrite queued_ids_in. intros (j' & [k Hk]%list_elem_of_lookup & Hq' & Hid).
    pose proof (live_unique s k slot j' j Hs Hk Hj Hid) as ->. rewrite Hj in Hk. congruence.
  - pose proof (queued_ids_room _ _ _ Hj Hq). rewrite live_length in H by done.
    pose proof (sched_count_le s Hs). change FAULTLINE_JOB_QUEUE_CAPACITY with 256%nat.
    change FAULTLINE_JOB_STORE_CAPACITY with 256%nat in *. lia.
Qed.

(** ** Behaviour of each operation *)

Definition requeued (c : faultline_job) : list Z :=
  if bool_decide (job_state c = FAULTLINE_JOB_QUEUED) then [job_id c] else [].

(** Publishing the outcome of an active record always succeeds: the queue has room. *)
Lemma publish_outcome_ok s slot j c :
  sched_wf s -> live s !! slot = Some j -> active_job j -> job_wf c -> job_id c = job_id j ->
  (active_job c -> worker_id c = worker_id j) ->
  exists q, publish_outcome s slot c = (FAULTLINE_SCHEDULER_OK, replace_job s slot c q) /\
    sched_wf (replace_job s slot c q) /\ contents q = contents (pending s) ++ requeued c.
Proof.
  intros Hs Hj Ha Hc Hid Hw.
  pose proof (active_not_queued j Ha) as Hnq.
  assert (active_job c -> forall k j', live s !! k = Some j' -> k <> slot -> active_job j' ->
    worker_id j' <> worker_id c) as Hone.
  { intros Hac k j' Hk Hne Ha' E. apply Hne. eapply (sched_one_active s); eauto.
    rewrite E. auto. }
  unfold publish_outcome, requeued. case_bool_decide as Hq.
  - destruct (not_pending s slot j Hs Hj Hnq) as [Hnin Hroom].
    destruct (queue_push_ok (pending s) c) as (q & -> & Hcont & Hqwf); try done.
    + apply Hs.
    + pose proof (wf_id c Hc). lia.
    + pose proof (wf_state c Hc) as Hst. unfold job_state_wf in Hst. rewrite Hq in Hst.
      destruct_and!. done.
    + by rewrite Hid.
    + exists q. split; [done|]. split; [|by rewrite bool_decide_eq_true_2]. eapply replace_job_wf; eauto.
      rewrite Hcont, (queued_ids_enter (live s) slot j c Hj Hnq Hq).
      by rewrite (sched_pending s Hs).
  - exists (pending s). split; [done|]. split; [|by rewrite bool_decide_eq_false_2, app_nil_r].
    eapply replace_job_wf; eauto; [apply Hs|].
    rewrite (queued_ids_same _ _ j c); [apply Hs|done|done|]. unfold is_queued in *. tauto.
Qed.

Lemma valid_task_cast z :
  1 <= task_type_value (task_type_cast z) <= 4 -> valid_task_type (task_type_cast z).
Proof. unfold task_type_cast. repeat case_match; simpl; try done. lia. Qed.

(** The record that a submission creates. *)
Definition submitted_job (s : faultline_scheduler) (p : faultline_job_submit_payload) (now : Z) :
    faultline_job :=
  snd (faultline_job_init zero_job (next_job_id s) (task_type_cast (s_task_type p))
         (Some (s_arguments p)) (s_argument_size p) (s_max_retries p) now).

Definition submit_typed (p : faultline_job_submit_payload) : Prop :=
  in_u32 (s_max_retries p) /\ s_argument_size p = Z.of_nat (length (s_arguments p)) /\
  bytes_ok (s_arguments p).

Lemma append_job_wf s job q :
  sched_wf s -> (sched_count s < FAULTLINE_JOB_STORE_CAPACITY)%nat -> next_job_id s <> 0 ->
  job_wf job -> next_job_id s <= job_id job -> is_queued job ->
  queue_wf q -> contents q = contents (pending s) ++ [job_id job] ->
  let s' := mk_scheduler (<[sched_count s := job]> (sched_jobs s)) (S (sched_count s))
              (if job_id job =? UINT64_MAX then 0 else u64 (job_id job + 1)) q in
  live s' = live s ++ [job] /\ sched_wf s'.
Proof.
  intros Hs Hroom Hnext Hj Hid Hst Hq Hc s'.
  assert (live s' = live s ++ [job]) as Hl.
  { unfold live, s'. cbn [sched_count sched_jobs]. apply take_insert_snoc.
    by rewrite (sched_capacity s Hs). }
  split; [done|]. pose proof (sched_next_fresh s Hs Hnext) as Hfresh.
  constructor; rewrite ?Hl; unfold s'; cbn [sched_jobs sched_count next_job_id pending].
  - rewrite length_insert. apply Hs.
  - lia.
  - done.
  - apply Forall_app. split; [apply Hs|by apply Forall_singleton].
  - rewrite fmap_app. apply StronglySorted_app_2; [|apply Hs|repeat constructor].
    intros x1 x2 (j1 & -> & Hj1)%list_elem_of_fmap Hx2. simpl in Hx2.
    apply list_elem_of_singleton in Hx2 as ->. rewrite Forall_forall in Hfresh.
    specialize (Hfresh j1 Hj1). lia.
  - destruct (Z.eqb_spec (job_id job) UINT64_MAX); [ilia|apply u64_range].
  - pose proof (sched_next_range s Hs). pose proof (wf_id job Hj).
    destruct (Z.eqb_spec (job_id job) UINT64_MAX); [done|]. intros _.
    rewrite u64_id by ilia. apply Forall_app. split; [|apply Forall_singleton; lia].
    eapply Forall_impl; [exact Hfresh|]. simpl. lia.
  - rewrite Hc, queued_ids_app, (sched_pending s Hs), queued_ids_cons, decide_True by done. done.
  - assert (~ active_job job) by (intros ?%active_not_queued; done).
    intros i k x y Hi Hk Hx Hy Hw.
    apply lookup_snoc_Some in Hi as [[_ Hi]|[-> ->]]; [|done].
    apply lookup_snoc_Some in Hk as [[_ Hk]|[-> ->]]; [|done].
    eapply (sched_one_active s); eauto.
Qed.

Lemma submit_ok s p now :
  sched_wf s -> submit_typed p -> now <= INT64_MAX ->
  let '(r, out, s') := faultline_scheduler_submit s p now in
  (r = FAULTLINE_SCHEDULER_OK /\ out = Some (next_job_id s) /\ next_job_id s <> 0 /\
   live s' = live s ++ [submitted_job s p now] /\
   contents (pending s') = contents (pending s) ++ [next_job_id s] /\
   fst (faultline_job_init zero_job (next_job_id s) (task_type_cast (s_task_type p))
         (Some (s_arguments p)) (s_argument_size p) (s_max_retries p) now) = FAULTLINE_JOB_OK /\
   sched_wf s') \/
  (out = None /\ s' = s /\
   (r = FAULTLINE_SCHEDULER_INVALID_ARGUMENT /\ now < 0 \/
    r = FAULTLINE_SCHEDULER_FULL /\ sched_count s = FAULTLINE_JOB_STORE_CAPACITY \/
    r = FAULTLINE_SCHEDULER_ID_EXHAUSTED /\ next_job_id s = 0 \/
    r = FAULTLINE_SCHEDULER_INVALID_JOB /\
      (~ 1 <= s_task_type p <= 4 \/ FAULTLINE_JOB_MAX_ARGUMENT_SIZE < s_argument_size p))).
Proof.
  intros Hs (Hret & Hsize & Hbytes) Hnow. unfold faultline_scheduler_submit, submitted_job.
  destruct (Z.ltb_spec now 0); [naive_solver|].
  destruct (Nat.eqb_spec (sched_count s) FAULTLINE_JOB_STORE_CAPACITY); [naive_solver|].
  destruct (Z.eqb_spec (next_job_id s) 0); [naive_solver|].
  destruct (faultline_job_init _ _ _ _ _ _ _) as [r job] eqn:Hi.
  destruct (decide (r = FAULTLINE_JOB_OK)) as [->|Hr].
  - pose proof (job_init_wf _ _ _ _ _ _ _ _ Hi) as Hwf.
    pose proof Hi as (Hid & _ & Htask & _ & _ & Hjob)%job_init_ok.
    assert (job_wf job) as Hj.
    { apply Hwf; try done; [by apply valid_task_cast|apply Hs|].
      split; [lia|]. intros l [= <-]. split; [lia|done]. }
    assert (job_id job = next_job_id s) as Hid' by (by rewrite Hjob).
    assert (is_queued job) as Hq by (by rewrite Hjob).
    pose proof (sched_count_le s Hs). pose proof (sched_next_fresh s Hs Hid) as Hfresh.
    destruct (queue_push_ok (pending s) job) as (q & -> & Hc & Hqwf); try done.
    + apply Hs.
    + by rewrite Hid'.
    + by rewrite Hjob.
    + rewrite (sched_pending s Hs), queued_ids_in. intros (j' & Hin & _ & E).
      rewrite Forall_forall in Hfresh. specialize (Hfresh j' Hin). lia.
    + rewrite (sched_pending s Hs). pose proof (queued_ids_length (live s)).
      rewrite live_length in * by done. unfold FAULTLINE_JOB_QUEUE_CAPACITY,
        FAULTLINE_JOB_STORE_CAPACITY in *. lia.
    + left. destruct (append_job_wf s job q) as [Hl Hs']; try done.
      { unfold FAULTLINE_JOB_STORE_CAPACITY in *. lia. }
      { by rewrite Hid'. }
      cbn [pending snd fst]. rewrite Hc, Hid'. split_and!; try done. rewrite <- Hid'. done.
  - replace (match r with FAULTLINE_JOB_OK => _ | _ => _ end)
      with (FAULTLINE_SCHEDULER_INVALID_JOB, @None Z, s) by (destruct r; done).
    right. split_and!; [done..|]. do 3 right. split; [done|].
    destruct (decide (1 <= s_task_type p <= 4 /\
      s_argument_size p <= FAULTLINE_JOB_MAX_ARGUMENT_SIZE)) as [[Ht Hm]|?]; [|lia].
    exfalso. apply Hr.
    enough (exists j', faultline_job_init zero_job (next_job_id s) (task_type_cast (s_task_type p))
      (Some (s_arguments p)) (s_argument_size p) (s_max_retries p) now = (FAULTLINE_JOB_OK, j'))
      as [j' E] by congruence.
    setoid_rewrite job_init_ok. eexists. split_and!; try done; try lia.
    all: assert (s_task_type p = 1 \/ s_task_type p = 2 \/ s_task_type p = 3 \/ s_task_type p = 4)
      as [E|[E|[E|E]]] by lia; rewrite E; cbn; lia.
Qed.

(** The record at the head of the queue. *)
Lemma pending_head s id rest :
  sched_wf s -> contents (pending s) = id :: rest ->
  exists slot j, live s !! slot = Some j /\ job_id j = id /\ is_queued j /\
    find_slot s id = slot /\ sched_jobs s !!! slot = j /\ slot <> sched_count s.
Proof.
  intros Hs Hc.
  assert (id ∈ queued_ids (live s)) as (j & Hin & Hq & Hid)%queued_ids_in.
  { rewrite <- (sched_pending s Hs), Hc. left. }
  apply list_elem_of_lookup in Hin as [slot Hj].
  destruct (live_jobs s slot j Hs Hj) as (Hlt & Htot & _).
  exists slot, j. split_and!; try done; [|lia]. by eapply find_slot_found.
Qed.

(** An assignment goes to the oldest queued record, and only a clock that runs
    backwards can make it fail. *)
Lemma assign_ok s worker now :
  sched_wf s -> in_u32 worker -> now <= INT64_MAX ->
  let '(r, out, s') := faultline_scheduler_assign s worker now in
  (exists id rest slot j q,
    r = FAULTLINE_SCHEDULER_OK /\ worker <> 0 /\ 0 <= now /\
    faultline_scheduler_active s worker = None /\
    contents (pending s) = id :: rest /\ live s !! slot = Some j /\ job_id j = id /\
    is_queued j /\
    fst (faultline_job_assign j worker now) = FAULTLINE_JOB_OK /\
    out = Some (assignment_message (snd (faultline_job_assign j worker now)) worker) /\
    s' = replace_job s slot (snd (faultline_job_assign j worker now)) q /\
    contents q = rest /\ sched_wf s') \/
  (out = None /\ s' = s /\
   (r = FAULTLINE_SCHEDULER_INVALID_ARGUMENT /\ (worker = 0 \/ now < 0) \/
    r = FAULTLINE_SCHEDULER_WORKER_BUSY /\ faultline_scheduler_active s worker <> None \/
    r = FAULTLINE_SCHEDULER_EMPTY /\ contents (pending s) = [] \/
    r = FAULTLINE_SCHEDULER_INVALID_JOB /\
      exists id rest slot j, contents (pending s) = id :: rest /\
        live s !! slot = Some j /\ job_id j = id /\ now < updated_at_ms j)).
Proof.
  intros Hs Hw Hnow. unfold faultline_scheduler_assign.
  destruct ((worker =? 0) || (now <? 0)) eqn:E0; [right; split_and!; try done; left; split; [done|lia]|].
  case_bool_decide as Hn; [right; naive_solver|].
  rewrite queue_peek_refines by apply Hs.
  destruct (contents (pending s)) as [|id rest] eqn:Hc; [right; naive_solver|].
  destruct (pending_head s id rest Hs Hc) as (slot & j & Hj & Hid & Hq & -> & -> & Hne).
  destruct (live_jobs s slot j Hs Hj) as (Hlt & _ & Hjwf).
  rewrite (proj2 (Nat.eqb_neq _ _) Hne).
  destruct (faultline_job_assign j worker now) as [r c] eqn:Has.
  destruct (decide (r = FAULTLINE_JOB_OK)) as [->|Hr].
  - destruct (queue_pop_cons (pending s) id rest) as (q & -> & Hcont & Hqwf); [apply Hs|done|].
    left. exists id, rest, slot, j, q. rewrite Has. cbn [fst snd].
    pose proof (job_assign_wf _ _ _ _ Has Hjwf Hw Hnow) as Hcwf.
    pose proof Has as (_ & _ & _ & _ & Hcj)%job_assign_ok.
    split_and!; try done; try lia. eapply replace_job_wf; eauto; [by rewrite Hcj| |].
    + assert (~ is_queued c) as Hnc by (by rewrite Hcj).
      pose proof (queued_ids_leave _ _ _ _ Hj Hq Hnc) as Hp.
      rewrite <- (sched_pending s Hs), Hc, Hid in Hp. rewrite Hcont.
      symmetry. by eapply Permutation_cons_inv.
    + intros _ k j' Hk _ Haj. apply active_none in Hn as [->|Hn]; [lia|].
      rewrite Hcj. cbn [worker_id]. apply Hn; [|done]. by eapply list_elem_of_lookup_2.
  - replace (match r with FAULTLINE_JOB_OK => _ | _ => _ end)
      with (FAULTLINE_SCHEDULER_INVALID_JOB, @None faultline_message, s) by (destruct r; done). right.
    split_and!; try done. do 3 right. split; [done|]. exists id, rest, slot, j.
    split_and!; try done. destruct (decide (now < updated_at_ms j)); [done|].
    exfalso. apply Hr.
    enough (exists c', faultline_job_assign j worker now = (FAULTLINE_JOB_OK, c')) as [? E]
      by congruence.
    setoid_rewrite job_assign_ok. eexists. split_and!; try done; lia.
Qed.

(** The step a report asks for, when it is accepted. *)
Lemma apply_report_ok j worker report now c :
  apply_report j worker report now = Some (FAULTLINE_JOB_OK, c) ->
  job_step j c /\ active_job j /\ job_id c = job_id j /\
  (active_job c -> worker_id c = worker_id j) /\
  match report_identity report with
  | Some i => i_attempt i = attempt j /\ worker = worker_id j
  | None => False
  end.
Proof.
  unfold apply_report, report_identity, active_job.
  destruct report; try done; try (destruct (_ !=? _); [done|]); intros [= H].
  - pose proof H as (-> & ? & ? & ? & ? & ? & ? & ->)%job_start_ok.
    split_and!; try done. by eapply step_start.
  - pose proof H as (-> & ? & ? & ? & ? & ? & ? & ? & ? & ->)%job_complete_ok.
    split_and!; try done. by eapply step_complete.
  - pose proof H as (Ha & ? & ? & ? & ? & ? & ? & ? & ->)%job_fail_ok.
    split_and!; try done; [by eapply step_fail| |]; unfold failed_job; case_match; done.
Qed.

Definition report_typed (report : faultline_message) : Prop :=
  match report with
  | MsgJobCompleted c => c_result_size c = Z.of_nat (length (c_result c)) /\ bytes_ok (c_result c)
  | _ => True
  end.

Lemma apply_report_wf j worker report now c :
  apply_report j worker report now = Some (FAULTLINE_JOB_OK, c) ->
  job_wf j -> now <= INT64_MAX -> report_typed report -> job_wf c.
Proof.
  unfold apply_report. destruct report; try done; try (destruct (_ !=? _); [done|]);
    intros [= H] Hj Hn Ht.
  - by eapply job_start_wf.
  - eapply job_complete_wf; eauto. destruct Ht. split; [lia|]. intros l [= <-]. split; [lia|done].
  - by eapply job_fail_wf.
Qed.

(** A report either replaces the one record it names by the step it asks for, or is
    rejected and changes nothing; it never finds the queue full. *)
Lemma report_ok s worker report now :
  sched_wf s -> now <= INT64_MAX -> report_typed report ->
  let '(r, s') := faultline_scheduler_report s worker report now in
  (exists i slot j c q,
    r = FAULTLINE_SCHEDULER_OK /\ worker <> 0 /\ 0 <= now /\
    report_identity report = Some i /\ i_worker_id i = worker /\
    live s !! slot = Some j /\ job_id j = i_job_id i /\
    apply_report j worker report now = Some (FAULTLINE_JOB_OK, c) /\
    s' = replace_job s slot c q /\ contents q = contents (pending s) ++ requeued c /\
    sched_wf s') \/
  (s' = s /\ (r = FAULTLINE_SCHEDULER_INVALID_ARGUMENT \/ r = FAULTLINE_SCHEDULER_INVALID_JOB) /\
   forall i slot j c, report_identity report = Some i -> i_worker_id i = worker ->
     worker <> 0 -> 0 <= now -> live s !! slot = Some j -> job_id j = i_job_id i ->
     apply_report j worker report now <> Some (FAULTLINE_JOB_OK, c)).
Proof.
  intros Hs Hnow Ht. unfold faultline_scheduler_report.
  destruct ((worker =? 0) || (now <? 0)) eqn:E0; [right; split_and!; auto; lia|].
  destruct (report_identity report) as [i|] eqn:Hi; [|right; naive_solver].
  destruct ((i_worker_id i !=? worker) || _) eqn:E1.
  { right. split_and!; auto. intros i' slot j c [= <-] Hw _ _ Hj Hid. exfalso.
    destruct (live_jobs s slot j Hs Hj) as (Hlt & _ & _).
    rewrite (find_slot_found s _ slot j) in E1 by done. rewrite Hw in E1.
    rewrite Z.eqb_refl in E1. cbn in E1. apply Nat.eqb_eq in E1. lia. }
  apply orb_false_iff in E1 as [Ew Es]. apply Nat.eqb_neq in Es.
  destruct (find_slot_cases s (i_job_id i) Hs) as [[? _]|(j & Hj & Hid & _)]; [done|].
  destruct (live_jobs s _ j Hs Hj) as (Hlt & -> & Hjwf).
  destruct (apply_report j worker report now) as [[r c]|] eqn:Ha.
  2:{ right. split_and!; auto. intros i' slot j' c [= <-] _ _ _ Hj' Hid'.
      pose proof (live_unique s _ _ _ _ Hs Hj' Hj ltac:(congruence)) as ->. congruence. }
  destruct (decide (r = FAULTLINE_JOB_OK)) as [->|Hr].
  - pose proof (apply_report_ok _ _ _ _ _ Ha) as (Hstep & Hact & Hcid & Hcw & _).
    destruct (publish_outcome_ok s (find_slot s (i_job_id i)) j c) as (q & -> & Hwf & Hc);
      try done; [by eapply apply_report_wf|].
    left. exists i, (find_slot s (i_job_id i)), j, c, q. split_and!; try done; lia.
  - replace (match r with FAULTLINE_JOB_OK => _ | _ => _ end)
      with (FAULTLINE_SCHEDULER_INVALID_JOB, s) by (destruct r; done). right.
    split_and!; auto. intros i' slot j' c' [= <-] _ _ _ Hj' Hid'.
    pose proof (live_unique s _ _ _ _ Hs Hj' Hj ltac:(congruence)) as ->. congruence.
Qed.

(** Losing a worker fails or requeues its active record, if it has one. *)
Lemma worker_lost_ok s worker now :
  sched_wf s -> now <= INT64_MAX ->
  let '(r, s') := faultline_scheduler_worker_lost s worker now in
  (exists slot j q, r = FAULTLINE_SCHEDULER_OK /\ worker <> 0 /\ 0 <= now /\
    faultline_scheduler_active s worker = Some j /\ live s !! slot = Some j /\
    updated_at_ms j <= now /\
    let c := failed_job j FAULTLINE_JOB_FAILURE_WORKER_LOST now in
    job_step j c /\ s' = replace_job s slot c q /\
    contents q = contents (pending s) ++ requeued c /\ sched_wf s') \/
  (s' = s /\
   (r = FAULTLINE_SCHEDULER_INVALID_ARGUMENT /\ (worker = 0 \/ now < 0) \/
    r = FAULTLINE_SCHEDULER_EMPTY /\ faultline_scheduler_active s worker = None \/
    r = FAULTLINE_SCHEDULER_INVALID_JOB /\
      exists j, faultline_scheduler_active s worker = Some j /\ now < updated_at_ms j)).
Proof.
  intros Hs Hnow. unfold faultline_scheduler_worker_lost.
  destruct ((worker =? 0) || (now <? 0)) eqn:E0; [right; split; [done|]; left; split; [done|lia]|].
  destruct (faultline_scheduler_active s worker) as [j|] eqn:Ha; [|right; naive_solver].
  destruct (active_some s worker j Ha) as (Hw & Hact & Hjw & slot & Hj).
  destruct (live_jobs s slot j Hs Hj) as (Hlt & Htot & Hjwf).
  pose proof (wf_state j Hjwf) as Hst.
  assert (attempt j <> 0) as Hatt.
  { pose proof (wf_retries j Hjwf). unfold job_state_wf, owned, active_job in *.
    destruct (job_state j); try done; destruct_and!; lia. }
  destruct (faultline_job_fail j worker (attempt j) FAULTLINE_JOB_FAILURE_WORKER_LOST now)
    as [r c] eqn:Hf.
  destruct (decide (r = FAULTLINE_JOB_OK)) as [->|Hr].
  - pose proof Hf as (_ & _ & Htime & _ & _ & _ & _ & _ & Hc)%job_fail_ok.
    assert (job_id c = job_id j) as Hcid by (rewrite Hc; unfold failed_job; by case_match).
    rewrite (find_slot_found s (job_id c) slot j) by done.
    destruct (publish_outcome_ok s slot j c) as (q & -> & Hwf & Hq); try done.
    { by eapply job_fail_wf. }
    { rewrite Hc. unfold failed_job, active_job. by case_match. }
    left. exists slot, j, q. rewrite <- Hc. split_and!; try done; [lia|]. by eapply step_fail.
  - replace (match r with FAULTLINE_JOB_OK => _ | _ => _ end)
      with (FAULTLINE_SCHEDULER_INVALID_JOB, s) by (destruct r; done). right.
    split; [done|]. do 2 right. split; [done|]. exists j. split; [done|].
    destruct (decide (now < updated_at_ms j)); [done|]. exfalso. apply Hr.
    enough (exists c', faultline_job_fail j worker (attempt j) FAULTLINE_JOB_FAILURE_WORKER_LOST now
      = (FAULTLINE_JOB_OK, c')) as [? E] by congruence.
    setoid_rewrite job_fail_ok. eexists. split_and!; try done; try lia. by right.
Qed.
