(* ===== verification/SchedulerProofs.v ===== *)
(** Correctness of the scheduler over histories of operations.

    [run_scheduler] runs a list of calls from a scheduler. [sched_wf] is an
    invariant of every history; every call either changes nothing, appends the
    record it accepts, or moves one record by one [job_step]. From this follow
    first-in first-out assignment, retention of every accepted job, and that an
    attempt has at most one outcome. *)

From S2P Require Import Prelude Job JobQueue Protocol Scheduler.

(** ** Histories *)

Inductive sched_op :=
| OpSubmit (p : faultline_job_submit_payload) (now : Z)
| OpAssign (worker now : Z)
| OpReport (worker : Z) (report : faultline_message) (now : Z)
| OpLost (worker now : Z).

Definition op_time (op : sched_op) : Z :=
  match op with
  | OpSubmit _ now | OpAssign _ now | OpReport _ _ now | OpLost _ now => now
  end.

(** The arguments fit their C types. *)
Definition op_typed (op : sched_op) : Prop :=
  op_time op <= INT64_MAX /\
  match op with
  | OpSubmit p _ => submit_typed p
  | OpAssign worker _ => in_u32 worker
  | OpReport _ report _ => report_typed report
  | OpLost _ _ => True
  end.

Definition run_op (s : faultline_scheduler) (op : sched_op) :
    faultline_scheduler_result * faultline_scheduler :=
  match op with
  | OpSubmit p now =>
      let '(r, _, s') := faultline_scheduler_submit s p now in (r, s')
  | OpAssign worker now =>
      let '(r, _, s') := faultline_scheduler_assign s worker now in (r, s')
  | OpReport worker report now => faultline_scheduler_report s worker report now
  | OpLost worker now => faultline_scheduler_worker_lost s worker now
  end.

Fixpoint run_scheduler (s : faultline_scheduler) (ops : list sched_op) :
    list faultline_scheduler_result * faultline_scheduler :=
  match ops with
  | [] => ([], s)
  | op :: rest =>
      let '(r, s') := run_op s op in
      let '(rs, final) := run_scheduler s' rest in (r :: rs, final)
  end.

(** ** One call *)

(** The three effects a call can have on the records. *)
Inductive sched_effect (s s' : faultline_scheduler) : Prop :=
| effect_none : s' = s -> sched_effect s s'
| effect_append j :
    live s' = live s ++ [j] -> job_id j = next_job_id s -> is_queued j -> attempt j = 0 ->
    sched_effect s s'
| effect_step slot j c :
    live s !! slot = Some j -> job_step j c -> live s' = <[slot := c]> (live s) ->
    sched_effect s s'.

Lemma submitted_fields s p now :
  fst (faultline_job_init zero_job (next_job_id s) (task_type_cast (s_task_type p))
        (Some (s_arguments p)) (s_argument_size p) (s_max_retries p) now) = FAULTLINE_JOB_OK ->
  submitted_job s p now =
  mk_job (next_job_id s) (task_type_cast (s_task_type p))
    (if s_argument_size p !=? 0 then copy_bytes (Some (s_arguments p)) (s_argument_size p) else [])
    (s_argument_size p) FAULTLINE_JOB_QUEUED 0 0 0 (s_max_retries p) now now (-1) (-1) (-1) [] 0
    FAULTLINE_JOB_FAILURE_NONE.
Proof.
  unfold submitted_job. destruct (faultline_job_init _ _ _ _ _ _ _) as [r j] eqn:E.
  cbn [fst snd]. intros ->. apply job_init_ok in E as (_ & _ & _ & _ & _ & ->). done.
Qed.

Lemma run_op_ok s op :
  sched_wf s -> op_typed op ->
  let '(r, s') := run_op s op in
  sched_wf s' /\ sched_effect s s' /\ r <> FAULTLINE_SCHEDULER_QUEUE_ERROR /\
  (r <> FAULTLINE_SCHEDULER_OK -> s' = s).
Proof.
  intros Hs [Ht Hop]. destruct op as [p now|worker now|worker report now|worker now];
    cbn [run_op op_time] in *.
  - pose proof (submit_ok s p now Hs Hop Ht) as H.
    destruct (faultline_scheduler_submit s p now) as [[r out] s'].
    destruct H as [(-> & -> & Hn & Hl & Hc & Hi & Hwf)|(-> & -> & H)].
    + split_and!; try done.
      apply (effect_append s s' (submitted_job s p now)); [done|by rewrite submitted_fields..].
    + split_and!; try done; [by constructor|naive_solver].
  - pose proof (assign_ok s worker now Hs Hop Ht) as H.
    destruct (faultline_scheduler_assign s worker now) as [[r out] s'].
    destruct H as [(id & rest & slot & j & q & -> & _ & _ & _ & _ & Hj & _ & _ & Hok & _ & -> & _ & Hwf)
                  |(-> & -> & H)].
    + split_and!; try done. eapply effect_step; [done| |].
      * apply (step_assign j worker now). rewrite (surjective_pairing (faultline_job_assign _ _ _)).
        by rewrite Hok.
      * apply live_replace. eapply live_jobs; eauto.
    + split_and!; try done; [by constructor|naive_solver].
  - pose proof (report_ok s worker report now Hs Ht Hop) as H.
    destruct (faultline_scheduler_report s worker report now) as [r s'].
    destruct H as [(i & slot & j & c & q & -> & _ & _ & _ & _ & Hj & _ & Ha & -> & _ & Hwf)
                  |(-> & H & _)].
    + split_and!; try done. eapply effect_step; [done|by eapply apply_report_ok|].
      apply live_replace. eapply live_jobs; eauto.
    + split_and!; try done; [by constructor|naive_solver].
  - pose proof (worker_lost_ok s worker now Hs Ht) as H.
    destruct (faultline_scheduler_worker_lost s worker now) as [r s'].
    destruct H as [(slot & j & q & -> & _ & _ & _ & Hj & _ & Hstep & -> & _ & Hwf)|(-> & H)].
    + split_and!; try done. eapply effect_step; [done|done|].
      apply live_replace. eapply live_jobs; eauto.
    + split_and!; try done; [by constructor|naive_solver].
Qed.

Lemma scheduler_init_wf : sched_wf faultline_scheduler_init.
Proof.
  constructor; try done.
  - unfold FAULTLINE_JOB_STORE_CAPACITY. cbn. lia.
  - apply queue_init_wf.
  - constructor.
Qed.

Lemma run_scheduler_ok ops s :
  sched_wf s -> Forall op_typed ops ->
  let '(rs, s') := run_scheduler s ops in
  sched_wf s' /\ Forall (fun r => r <> FAULTLINE_SCHEDULER_QUEUE_ERROR) rs.
Proof.
  intros Hs Hops. revert s Hs. induction Hops as [|op ops Hop _ IH]; intros s Hs; cbn; [done|].
  pose proof (run_op_ok s op Hs Hop) as H. destruct (run_op s op) as [r s1].
  destruct H as (Hs1 & _ & Hr & _). specialize (IH s1 Hs1).
  destruct (run_scheduler s1 ops) as [rs s2]. destruct IH. auto using Forall_cons_2.
Qed.

(** ** Retention of accepted jobs *)

Lemma find_some s id j :
  sched_wf s ->
  faultline_scheduler_find s id = Some j <-> id <> 0 /\ j ∈ live s /\ job_id j = id.
Proof.
  intros Hs. unfold faultline_scheduler_find. destruct (Z.eqb_spec id 0); [naive_solver|].
  destruct (find_slot_cases s id Hs) as [[E Hn]|(j' & Hj & Hid & Hne)].
  - rewrite E, Nat.eqb_refl. split; [done|]. intros (_ & Hin & <-). by apply Hn in Hin.
  - rewrite (proj2 (Nat.eqb_neq _ _) Hne). destruct (live_jobs s _ _ Hs Hj) as (_ & -> & _).
    split.
    + intros [= <-]. split_and!; [done|by eapply list_elem_of_lookup_2|done].
    + intros (_ & [k Hk]%list_elem_of_lookup & Hid').
      pose proof (live_unique s _ _ _ _ Hs Hk Hj ltac:(congruence)) as ->. congruence.
Qed.

Lemma effect_find s s' id j :
  sched_wf s -> sched_wf s' -> sched_effect s s' ->
  faultline_scheduler_find s id = Some j ->
  exists n j', faultline_scheduler_find s' id = Some j' /\ job_run j n j'.
Proof.
  intros Hs Hs' He Hf. pose proof Hf as (Hid & [k Hk]%list_elem_of_lookup & Hj)%find_some; [|done].
  destruct He as [->|x Hl _ _ _|slot x c Hx Hstep Hl].
  - exists 0%nat, j. split; [done|constructor].
  - exists 0%nat, j. split; [|constructor]. apply find_some; [done|]. split_and!; [done| |done].
    rewrite Hl. apply elem_of_app. left. by eapply list_elem_of_lookup_2.
  - destruct (decide (k = slot)) as [->|Hne].
    + rewrite Hx in Hk. injection Hk as ->. exists 1%nat, c. split.
      * apply find_some; [done|]. pose proof (job_step_keeps _ _ Hstep) as (Hc & _).
        split_and!; [done| |congruence]. rewrite Hl.
        eapply (list_elem_of_lookup_2 _ slot), list_lookup_insert_eq.
        eapply lookup_lt_Some; eauto.
      * eapply run_step; [done|constructor].
    + exists 0%nat, j. split; [|constructor]. apply find_some; [done|]. split_and!; [done| |done].
      rewrite Hl. eapply (list_elem_of_lookup_2 _ k). by rewrite list_lookup_insert_ne.
Qed.

Lemma job_run_trans j1 j2 j3 n m : job_run j1 n j2 -> job_run j2 m j3 -> job_run j1 (n + m) j3.
Proof. induction 1; intros; simpl; [done|]. eapply run_step; eauto. Qed.

Lemma run_scheduler_find ops s id j :
  sched_wf s -> Forall op_typed ops -> faultline_scheduler_find s id = Some j ->
  exists n j', faultline_scheduler_find (snd (run_scheduler s ops)) id = Some j' /\ job_run j n j'.
Proof.
  intros Hs Hops. revert s j Hs. induction Hops as [|op ops Hop _ IH]; intros s j Hs Hf; cbn.
  - exists 0%nat, j. split; [done|constructor].
  - pose proof (run_op_ok s op Hs Hop) as H. destruct (run_op s op) as [r s1].
    destruct H as (Hs1 & He & _). destruct (effect_find s s1 id j) as (n & j1 & Hf1 & Hr); try done.
    destruct (IH s1 j1 Hs1 Hf1) as (m & j2 & Hf2 & Hr2).
    destruct (run_scheduler s1 ops) as [rs s2]. exists (n + m)%nat, j2.
    split; [done|by eapply job_run_trans].
Qed.

(** ** An attempt has one outcome *)

(** The attempt [att] of job [id] is over. *)
Definition attempt_over (s : faultline_scheduler) (id att : Z) : Prop :=
  exists slot j, live s !! slot = Some j /\ job_id j = id /\
    (att < attempt j \/ attempt j = att /\ ~ active_job j).

Lemma job_step_attempt_mono j c :
  job_wf j -> job_step j c ->
  attempt j <= attempt c /\ (~ active_job j -> attempt j < attempt c).
Proof.
  intros Hj Hs. pose proof (wf_retries j Hj). pose proof (wf_max_retries j Hj).
  destruct Hs as [??? ? H'|???? ? H'|?????? ? H'|????? ? H'].
  - apply job_assign_ok in H' as (Hq & ? & ? & ? & ->). cbn [attempt].
    pose proof (wf_state j Hj) as Hst. unfold job_state_wf in Hst. rewrite Hq in Hst.
    destruct_and!. rewrite u64_id by ilia. lia.
  - apply job_start_ok in H' as (Hq & ? & ? & ? & ? & ? & ? & ->). cbn [attempt].
    unfold active_job. rewrite Hq. split; [lia|done].
  - apply job_complete_ok in H' as (Hq & ? & ? & ? & ? & ? & ? & ? & ? & ->). cbn [attempt].
    unfold active_job. rewrite Hq. split; [lia|done].
  - apply job_fail_ok in H' as (Ha & ? & ? & ? & ? & ? & ? & ? & ->).
    unfold failed_job. case_match; cbn [attempt]; split; try lia; done.
Qed.

Lemma attempt_over_effect s s' id att :
  sched_wf s -> sched_effect s s' -> attempt_over s id att -> attempt_over s' id att.
Proof.
  intros Hs He (k & j & Hk & Hid & Ho).
  destruct He as [->|x Hl _ _ _|slot x c Hx Hstep Hl]; [by exists k, j| |].
  - exists k, j. split; [|done]. rewrite Hl. by apply lookup_app_l_Some.
  - destruct (decide (k = slot)) as [->|Hne].
    + rewrite Hx in Hk. injection Hk as ->. exists slot, c.
      destruct (live_jobs s slot j Hs Hx) as (_ & _ & Hj).
      pose proof (job_step_keeps _ _ Hstep) as (Hc & _).
      pose proof (job_step_attempt_mono _ _ Hj Hstep) as [Hle Hlt].
      split_and!; [|congruence|].
      * rewrite Hl. apply list_lookup_insert_eq. eapply lookup_lt_Some; eauto.
      * left. destruct Ho as [?|[? Hna]]; [lia|]. specialize (Hlt Hna). lia.
    + exists k, j. split; [|done]. rewrite Hl. by rewrite list_lookup_insert_ne.
Qed.

(** Completed and failed reports for attempt [att] of job [id]. *)
Definition outcome_of (id att : Z) (op : sched_op) : bool :=
  match op with
  | OpReport _ (MsgJobCompleted c) _ =>
      (i_job_id (c_identity c) =? id) && (i_attempt (c_identity c) =? att)
  | OpReport _ (MsgJobFailed f) _ =>
      (i_job_id (f_identity f) =? id) && (i_attempt (f_identity f) =? att)
  | _ => false
  end.

(** How many of them the scheduler accepts along a history. *)
Fixpoint accepted_outcomes (id att : Z) (s : faultline_scheduler) (ops : list sched_op) : nat :=
  match ops with
  | [] => 0
  | op :: rest =>
      let '(r, s') := run_op s op in
      ((if outcome_of id att op && bool_decide (r = FAULTLINE_SCHEDULER_OK) then 1 else 0) +
       accepted_outcomes id att s' rest)%nat
  end.

Lemma outcome_report id att op :
  outcome_of id att op = true ->
  exists worker report now i, op = OpReport worker report now /\
    report_identity report = Some i /\ i_job_id i = id /\ i_attempt i = att /\
    forall j c, apply_report j worker report now = Some (FAULTLINE_JOB_OK, c) ->
      attempt c = attempt j /\ ~ active_job c.
Proof.
  destruct op as [| |worker [] now|]; cbn; try done; intros Hb; apply andb_prop in Hb as [E1 E2].
  - do 4 eexists. split; [done|]. split; [done|]. split; [lia|]. split; [lia|].
    intros j c [= (_ & _ & _ & _ & _ & _ & _ & _ & _ & ->)%job_complete_ok]. done.
  - do 4 eexists. split; [done|]. split; [done|]. split; [lia|]. split; [lia|].
    intros j c. unfold apply_report. destruct (_ !=? _); [done|].
    intros [= (_ & _ & _ & _ & _ & _ & _ & _ & ->)%job_fail_ok].
    unfold failed_job, active_job. case_match; done.
Qed.

Lemma outcome_accepted s id att op :
  sched_wf s -> op_typed op -> outcome_of id att op = true ->
  let '(r, s') := run_op s op in
  r = FAULTLINE_SCHEDULER_OK -> ~ attempt_over s id att /\ attempt_over s' id att.
Proof.
  intros Hs Hop (worker & report & now & i & -> & Hi & Hid & Hatt & Hstep)%outcome_report.
  destruct Hop as [Ht Hop]. cbn [run_op].
  pose proof (report_ok s worker report now Hs Ht Hop) as H.
  destruct (faultline_scheduler_report s worker report now) as [r s'].
  destruct H as [(i' & slot & j & c & q & -> & _ & _ & Hi' & _ & Hj & Hji & Ha & -> & _ & Hwf)
                |(_ & Hr & _)]; [|intros ->; naive_solver].
  intros _. rewrite Hi in Hi'. injection Hi' as <-.
  pose proof (apply_report_ok _ _ _ _ _ Ha) as (_ & Hact & Hcid & _ & Hat).
  rewrite Hi in Hat. destruct Hat as [Hat _]. destruct (Hstep j c Ha) as [Hca Hcn]. split.
  - intros (k & j' & Hk & Hid' & Ho).
    pose proof (live_unique s _ _ _ _ Hs Hk Hj ltac:(congruence)) as ->.
    rewrite Hj in Hk. injection Hk as ->. destruct Ho as [?|[? ?]]; [lia|done].
  - exists slot, c. rewrite live_replace by (eapply live_jobs; eauto). split_and!.
    + apply list_lookup_insert_eq. eapply lookup_lt_Some; eauto.
    + congruence.
    + right. split; [congruence|done].
Qed.

Lemma accepted_outcomes_over ops s id att :
  sched_wf s -> Forall op_typed ops -> attempt_over s id att ->
  accepted_outcomes id att s ops = 0%nat.
Proof.
  intros Hs Hops. revert s Hs. induction Hops as [|op ops Hop _ IH]; intros s Hs Ho; cbn; [done|].
  pose proof (run_op_ok s op Hs Hop) as H. pose proof (outcome_accepted s id att op Hs Hop) as Hacc.
  destruct (run_op s op) as [r s1]. destruct H as (Hs1 & He & _).
  rewrite IH by first [done | by apply (attempt_over_effect s s1)].
  destruct (outcome_of id att op); [|done]. case_bool_decide; [|done].
  exfalso. by apply Hacc.
Qed.

Lemma accepted_outcomes_le ops s id att :
  sched_wf s -> Forall op_typed ops -> (accepted_outcomes id att s ops <= 1)%nat.
Proof.
  intros Hs Hops. revert s Hs. induction Hops as [|op ops Hop Hops IH]; intros s Hs; cbn; [lia|].
  pose proof (run_op_ok s op Hs Hop) as H. pose proof (outcome_accepted s id att op Hs Hop) as Hacc.
  destruct (run_op s op) as [r s1]. destruct H as (Hs1 & He & _). specialize (IH s1 Hs1).
  destruct (outcome_of id att op); [|done]. case_bool_decide; [|done].
  rewrite (accepted_outcomes_over ops s1) by first [done | by apply Hacc]. done.
Qed.

(** ** Properties *)

(** C11: after every history of calls the store, the queue and the records agree: records
    are well formed with fresh increasing IDs, the queue holds exactly the queued ones, and
    no worker owns two active jobs. The queue errors that the code guards against never
    happen. *)
Theorem scheduler_invariant (ops : list sched_op) :
  Forall op_typed ops ->
  let '(rs, s) := run_scheduler faultline_scheduler_init ops in
  sched_wf s /\ Forall (fun r => r <> FAULTLINE_SCHEDULER_QUEUE_ERROR) rs.
Proof. intros Hops. by apply run_scheduler_ok; [apply scheduler_init_wf|]. Qed.

(** C14: along every history, at most one completed or failed report is accepted for an
    attempt of a job; duplicated and stale reports are rejected. *)
Theorem outcome_at_most_once (ops : list sched_op) (id att : Z) :
  Forall op_typed ops ->
  (accepted_outcomes id att faultline_scheduler_init ops <= 1)%nat.
Proof. apply accepted_outcomes_le, scheduler_init_wf. Qed.

(** C15: a job that was accepted is found again after every later history, with its ID,
    task and arguments, and moved only by successful operations on its record. *)
Theorem jobs_retained (before after : list sched_op) (id : Z) (j : faultline_job) :
  Forall op_typed before -> Forall op_typed after ->
  let s := snd (run_scheduler faultline_scheduler_init before) in
  faultline_scheduler_find s id = Some j ->
  exists n j', faultline_scheduler_find (snd (run_scheduler s after)) id = Some j' /\
    job_run j n j'.
Proof.
  intros Hb Ha s Hf. apply run_scheduler_find; try done.
  pose proof (run_scheduler_ok before _ scheduler_init_wf Hb) as H.
  unfold s. destruct (run_scheduler _ before). apply H.
Qed.

(** C26: an idle worker gets the oldest pending job: its identity with the next attempt
    number, its task and arguments; the job leaves the queue and is owned by the worker. A
    busy worker gets nothing, and nothing else can go wrong unless the clock runs back. *)
Theorem assign_fifo (s : faultline_scheduler) (worker now : Z) :
  sched_wf s -> in_u32 worker -> worker <> 0 -> 0 <= now <= INT64_MAX ->
  (forall j, j ∈ live s -> updated_at_ms j <= now) ->
  match faultline_scheduler_active s worker, contents (pending s) with
  | Some _, _ =>
      faultline_scheduler_assign s worker now = (FAULTLINE_SCHEDULER_WORKER_BUSY, None, s)
  | None, [] => faultline_scheduler_assign s worker now = (FAULTLINE_SCHEDULER_EMPTY, None, s)
  | None, id :: rest =>
      exists j j' s',
        faultline_scheduler_find s id = Some j /\
        faultline_scheduler_assign s worker now =
          (FAULTLINE_SCHEDULER_OK,
           Some (MsgJobAssign (mk_assign (mk_identity id worker (retry_count j + 1))
             (task_type_value (task_type j)) (argument_size j) (arguments j))), s') /\
        faultline_scheduler_find s' id = Some j' /\ contents (pending s') = rest /\
        job_state j' = FAULTLINE_JOB_ASSIGNED /\ worker_id j' = worker /\
        attempt j' = retry_count j + 1
  end.
Proof.
  intros Hs Hw32 Hw Hnow Htime. pose proof (assign_ok s worker now Hs Hw32 ltac:(lia)) as H.
  destruct (faultline_scheduler_assign s worker now) as [[r out] s'] eqn:E.
  destruct H as [(id & rest & slot & j & q & -> & _ & _ & -> & -> & Hj & Hid & Hq & Hok & -> & -> & Hc & Hwf)
    |(-> & -> & [[_ ?]|[[-> Ha]|[[-> Hc]|[-> (id & rest & slot & j & Hc & Hj & _ & Hlt)]]]])].
  - destruct (live_jobs s slot j Hs Hj) as (Hlt & _ & Hjwf).
    destruct (faultline_job_assign j worker now) as [r c] eqn:Has. cbn [fst] in Hok. subst r.
    cbn [snd] in *. pose proof Has as (_ & _ & _ & _ & Hcj)%job_assign_ok.
    pose proof (wf_state j Hjwf) as Hst. unfold job_state_wf in Hst. rewrite Hq in Hst.
    destruct_and!. pose proof (wf_retries j Hjwf). pose proof (wf_max_retries j Hjwf).
    assert (u64 (attempt j + 1) = retry_count j + 1) as Hatt by (rewrite u64_id; ilia).
    pose proof (wf_id j Hjwf). exists j, c, (replace_job s slot c q).
    rewrite !find_some by done. rewrite live_replace by done.
    split_and!; try done; try lia; try (by rewrite Hcj).
    + by eapply list_elem_of_lookup_2.
    + do 2 f_equal. rewrite Hcj. unfold assignment_message.
      cbn [job_id task_type arguments argument_size attempt].
      rewrite Hatt, Hid, take_ge by (pose proof (wf_argument_size j Hjwf); lia).
      do 4 f_equal. pose proof (wf_task j Hjwf). destruct (task_type j); done.
    + eapply (list_elem_of_lookup_2 _ slot), list_lookup_insert_eq.
      eapply lookup_lt_Some; eauto.
  - lia.
  - by destruct (faultline_scheduler_active s worker).
  - rewrite Hc. destruct (faultline_scheduler_active s worker) eqn:Ha; [|done].
    exfalso. unfold faultline_scheduler_assign in E. rewrite Ha in E.
    destruct (_ || _); [done|]. done.
  - apply list_elem_of_lookup_2 in Hj. specialize (Htime j Hj). lia.
Qed.

(** A submission is accepted exactly when there is room, an ID is left and the task
    and argument size are valid; it then gets an ID no job had before, and waits at the end
    of the queue with the submitted arguments and retry budget. *)
Theorem submit_accepts (s : faultline_scheduler) (p : faultline_job_submit_payload) (now : Z) :
  sched_wf s -> submit_typed p -> now <= INT64_MAX ->
  let '(r, out, s') := faultline_scheduler_submit s p now in
  (r = FAULTLINE_SCHEDULER_OK <->
   0 <= now /\ (sched_count s < FAULTLINE_JOB_STORE_CAPACITY)%nat /\ next_job_id s <> 0 /\
   1 <= s_task_type p <= 4 /\ s_argument_size p <= FAULTLINE_JOB_MAX_ARGUMENT_SIZE) /\
  (r <> FAULTLINE_SCHEDULER_OK -> out = None /\ s' = s) /\
  (r = FAULTLINE_SCHEDULER_OK ->
   exists id j, out = Some id /\ faultline_scheduler_find s id = None /\
     faultline_scheduler_find s' id = Some j /\
     contents (pending s') = contents (pending s) ++ [id] /\
     task_type_value (task_type j) = s_task_type p /\ arguments j = s_arguments p /\
     max_retries j = s_max_retries p /\ retry_count j = 0).
Proof.
  intros Hs Hp Hnow. pose proof (submit_ok s p now Hs Hp Hnow) as H.
  pose proof (sched_count_le s Hs) as Hle.
  destruct (faultline_scheduler_submit s p now) as [[r out] s'] eqn:E.
  destruct H as [(-> & -> & Hn & Hl & Hc & Hi & Hwf)|(-> & -> & Hr)].
  - rewrite (submitted_fields s p now Hi) in Hl.
    assert (exists j, faultline_job_init zero_job (next_job_id s) (task_type_cast (s_task_type p))
      (Some (s_arguments p)) (s_argument_size p) (s_max_retries p) now = (FAULTLINE_JOB_OK, j))
      as [j0 Hj0] by (apply fst_eq_iff; done).
    apply job_init_ok in Hj0 as (_ & Hnow' & Htask & Hsize & _ & _).
    assert (task_type_value (task_type_cast (s_task_type p)) = s_task_type p) as Hcast
      by (unfold task_type_cast; repeat case_match; simpl; lia).
    split_and!; try done.
    + split; [|done]. intros _. split_and!; try done; try lia.
      pose proof (live_length s Hs) as L1. pose proof (live_length s' Hwf) as L2.
      pose proof (sched_count_le s' Hwf). rewrite Hl, length_app in L2. simpl in L2. lia.
    + intros _. destruct Hp as (_ & Hsz & _). eexists _, _. split; [done|]. split.
      { destruct (faultline_scheduler_find s (next_job_id s)) as [j|] eqn:Hf; [|done].
        apply find_some in Hf as (_ & Hin & Hid); [|done].
        pose proof (sched_next_fresh s Hs Hn) as Hfr. rewrite Forall_forall in Hfr.
        specialize (Hfr j Hin). lia. }
      split. { apply find_some; [done|]. split; [done|]. rewrite Hl.
               split; [apply elem_of_app; right; by left|done]. }
      split; [done|]. cbn [task_type arguments max_retries retry_count].
      split_and!; try done. destruct (Z.eqb_spec (s_argument_size p) 0) as [Hz|Hz]; cbn [negb].
      * destruct (s_arguments p); [done|]. cbn in Hsz. lia.
      * unfold copy_bytes. cbn. rewrite take_ge; [done|lia].
  - split_and!; [|done|].
    + split; [|lia]. intros ->. naive_solver.
    + naive_solver.
Qed.

(** A report is accepted exactly when it names a stored job that the reporting worker
    owns with the attempt number it was given, the job is in the state the report continues,
    and the clock does not run back. Every other report changes nothing. *)
Theorem report_accepted (s : faultline_scheduler) (worker now : Z) (report : faultline_message) :
  sched_wf s -> now <= INT64_MAX -> report_typed report ->
  let '(r, s') := faultline_scheduler_report s worker report now in
  (r <> FAULTLINE_SCHEDULER_OK -> s' = s) /\
  (r = FAULTLINE_SCHEDULER_OK <->
   worker <> 0 /\ 0 <= now /\
   exists i j, report_identity report = Some i /\ i_worker_id i = worker /\
     faultline_scheduler_find s (i_job_id i) = Some j /\
     worker_id j = worker /\ attempt j = i_attempt i /\ updated_at_ms j <= now /\
     match report with
     | MsgJobStarted _ => job_state j = FAULTLINE_JOB_ASSIGNED
     | MsgJobCompleted c =>
         job_state j = FAULTLINE_JOB_RUNNING /\ c_result_size c <= FAULTLINE_JOB_MAX_RESULT_SIZE
     | MsgJobFailed f => active_job j /\ f_failure f = 1
     | _ => False
     end).
Proof.
  intros Hs Hnow Ht. pose proof (report_ok s worker report now Hs Hnow Ht) as H.
  destruct (faultline_scheduler_report s worker report now) as [r s'].
  destruct H as [(i & slot & j & c & q & -> & Hw & Hn & Hi & Hiw & Hj & Hji & Ha & _ & _ & _)
                |(-> & Hr & Hno)].
  - split; [done|]. split; [|done]. intros _. split_and!; try done. exists i, j.
    pose proof (apply_report_ok _ _ _ _ _ Ha) as (_ & _ & _ & _ & Hat). rewrite Hi in Hat.
    destruct (live_jobs s slot j Hs Hj) as (_ & _ & Hjwf). pose proof (wf_id j Hjwf).
    split; [done|]. split; [done|]. split.
    { apply find_some; [done|]. split_and!; [lia|by eapply list_elem_of_lookup_2|done]. }
    split; [lia|]. split; [lia|]. unfold apply_report in Ha. destruct report; try done.
    + injection Ha as (-> & ? & ? & _)%job_start_ok. done.
    + injection Ha as (-> & ? & ? & ? & ? & ? & ? & ? & _)%job_complete_ok. done.
    + destruct (_ !=? _) eqn:Ef; [done|]. injection Ha as (? & ? & ? & _)%job_fail_ok.
      split_and!; try done. cbn in Ef. lia.
  - split; [done|]. split; [naive_solver|].
    intros (Hw & Hn & i & j & Hi & Hiw & (_ & [slot Hj]%list_elem_of_lookup & Hji)%find_some
      & Hjw & Hja & Htime & Hst); [|done]. exfalso.
    assert (exists c, apply_report j worker report now = Some (FAULTLINE_JOB_OK, c)) as [c Hc];
      [|by eapply Hno].
    destruct (live_jobs s slot j Hs Hj) as (_ & _ & Hjwf).
    assert (active_job j -> attempt j <> 0) as Hatt.
    { pose proof (wf_retries j Hjwf). pose proof (wf_state j Hjwf).
      unfold job_state_wf, owned, active_job in *.
      destruct (job_state j); try done; destruct_and!; lia. }
    unfold apply_report, active_job in *. destruct report; try done; injection Hi as <-.
    + eexists. f_equal. apply job_start_ok. split_and!; try done; try lia.
      rewrite <- Hja. apply Hatt. by rewrite Hst.
    + destruct Hst as [Hst Hsz]. eexists. f_equal. apply job_complete_ok.
      split_and!; try done; try lia. rewrite <- Hja. apply Hatt. by rewrite Hst.
    + destruct Hst as [Hst Hf]. rewrite Hf. cbn [job_failure_value]. eexists. f_equal.
      apply job_fail_ok. split_and!; try done; try lia; [rewrite <- Hja; by apply Hatt|by left].
Qed.

(** When a worker is lost, its active job is requeued at the end of the queue with one
    retry used, or failed for good when no retry is left; the worker owns nothing afterwards
    and every other job stays as it was. *)
Theorem worker_lost_releases (s : faultline_scheduler) (worker now : Z) :
  sched_wf s -> worker <> 0 -> 0 <= now <= INT64_MAX ->
  (forall j, j ∈ live s -> updated_at_ms j <= now) ->
  let '(r, s') := faultline_scheduler_worker_lost s worker now in
  faultline_scheduler_active s' worker = None /\
  match faultline_scheduler_active s worker with
  | None => r = FAULTLINE_SCHEDULER_EMPTY /\ s' = s
  | Some j =>
      let c := failed_job j FAULTLINE_JOB_FAILURE_WORKER_LOST now in
      r = FAULTLINE_SCHEDULER_OK /\
      contents (pending s') =
        contents (pending s) ++ (if retry_count j <? max_retries j then [job_id j] else []) /\
      exists slot, live s !! slot = Some j /\ live s' = <[slot := c]> (live s)
  end.
Proof.
  intros Hs Hw Hnow Htime. pose proof (worker_lost_ok s worker now Hs ltac:(lia)) as H.
  destruct (faultline_scheduler_worker_lost s worker now) as [r s'].
  destruct H as [(slot & j & q & -> & _ & _ & Ha & Hj & _ & Hstep & -> & Hc & Hwf)
    |(-> & [[_ ?]|[[-> Ha]|[_ (j & Ha & Hlt)]]])].
  - destruct (live_jobs s slot j Hs Hj) as (Hlt & _ & _).
    destruct (active_some s worker j Ha) as (_ & Hact & Hjw & _). rewrite Ha. split.
    + apply active_none. right. rewrite live_replace by done.
      intros x [k Hk]%list_elem_of_lookup Hx Hxw. destruct (decide (k = slot)) as [->|Hne].
      * rewrite list_lookup_insert_eq in Hk by (rewrite live_length; done). injection Hk as <-.
        revert Hx. unfold failed_job, active_job. case_match; done.
      * rewrite list_lookup_insert_ne in Hk by done. apply Hne.
        eapply (sched_one_active s); eauto. congruence.
    + split; [done|]. split.
      * cbn [replace_job pending]. rewrite Hc. f_equal. unfold requeued, failed_job.
        by destruct (retry_count j <? max_retries j).
      * exists slot. split; [done|]. by apply live_replace.
  - lia.
  - by rewrite Ha.
  - exfalso. destruct (active_some s worker j Ha) as (_ & _ & _ & slot & Hj).
    apply list_elem_of_lookup_2 in Hj. specialize (Htime j Hj). lia.
Qed.

(** ** Witnesses *)

Definition sample_payload : faultline_job_submit_payload := mk_submit 3 1 2 [49; 48].

(** Two submissions; the first job is lost once with worker 5 and completes there later. *)
Definition sample_history : list sched_op :=
  [OpSubmit sample_payload 10; OpSubmit sample_payload 11; OpAssign 5 12; OpLost 5 13;
   OpAssign 6 14; OpAssign 5 15;
   OpReport 5 (MsgJobStarted (mk_identity 1 5 2)) 16;
   OpReport 5 (MsgJobCompleted (mk_completed (mk_identity 1 5 2) 1 [53])) 17].

Definition sample_sched : faultline_scheduler :=
  snd (run_scheduler faultline_scheduler_init sample_history).

Lemma sample_payload_typed : submit_typed sample_payload.
Proof.
  split; [|split]; [cbn; ilia|done|]. repeat apply Forall_cons_2; try ilia. constructor.
Qed.

Lemma sample_history_typed : Forall op_typed sample_history.
Proof.
  repeat apply Forall_cons_2; try apply Forall_nil_2; split; cbn; try ilia; try done;
    try apply sample_payload_typed.
  split; [done|]. apply Forall_singleton. ilia.
Qed.

Lemma sample_sched_wf : sched_wf sample_sched.
Proof.
  pose proof (run_scheduler_ok sample_history _ scheduler_init_wf sample_history_typed) as H.
  unfold sample_sched. destruct (run_scheduler _ _). apply H.
Qed.

Lemma scheduler_invariant_witness :
  let '(rs, s) := run_scheduler faultline_scheduler_init sample_history in
  sched_wf s /\ Forall (fun r => r <> FAULTLINE_SCHEDULER_QUEUE_ERROR) rs.
Proof. exact (scheduler_invariant sample_history sample_history_typed). Defined.

Lemma outcome_at_most_once_witness :
  (accepted_outcomes 1 2 faultline_scheduler_init (sample_history ++ sample_history) <= 1)%nat.
Proof.
  apply (outcome_at_most_once (sample_history ++ sample_history) 1 2).
  apply Forall_app; split; apply sample_history_typed.
Defined.

(** The state after the two submissions and after the first assignment. *)
Definition sample_queued : faultline_scheduler :=
  snd (run_scheduler faultline_scheduler_init (take 2 sample_history)).

Definition sample_assigned : faultline_scheduler :=
  snd (run_scheduler faultline_scheduler_init (take 3 sample_history)).

Lemma sample_prefix_wf k :
  sched_wf (snd (run_scheduler faultline_scheduler_init (take k sample_history))).
Proof.
  pose proof (run_scheduler_ok (take k sample_history) _ scheduler_init_wf
    (Forall_take _ _ _ sample_history_typed)) as H.
  destruct (run_scheduler _ _). apply H.
Qed.

Lemma sample_queued_wf : sched_wf sample_queued.
Proof. unfold sample_queued. apply sample_prefix_wf. Qed.

Lemma sample_assigned_wf : sched_wf sample_assigned.
Proof. unfold sample_assigned. apply sample_prefix_wf. Qed.

Lemma times_ok (l : list faultline_job) now :
  forallb (fun j => updated_at_ms j <=? now) l = true ->
  forall j, j ∈ l -> updated_at_ms j <= now.
Proof. rewrite forallb_forall. intros H j Hj%list_elem_of_In. specialize (H j Hj). lia. Qed.

Lemma jobs_retained_witness :
  exists n j',
    faultline_scheduler_find (snd (run_scheduler sample_queued (drop 2 sample_history))) 1
      = Some j' /\ job_run (live sample_queued !!! 0%nat) n j'.
Proof.
  apply (jobs_retained (take 2 sample_history) (drop 2 sample_history) 1
           (live sample_queued !!! 0%nat)).
  - apply Forall_take, sample_history_typed.
  - apply Forall_drop, sample_history_typed.
  - vm_compute. reflexivity.
Defined.

Lemma assign_fifo_witness :
  exists j j' s',
    faultline_scheduler_find sample_queued 1 = Some j /\
    faultline_scheduler_assign sample_queued 5 12 =
      (FAULTLINE_SCHEDULER_OK,
       Some (MsgJobAssign (mk_assign (mk_identity 1 5 (retry_count j + 1))
         (task_type_value (task_type j)) (argument_size j) (arguments j))), s') /\
    faultline_scheduler_find s' 1 = Some j' /\ contents (pending s') = [2] /\
    job_state j' = FAULTLINE_JOB_ASSIGNED /\ worker_id j' = 5 /\ attempt j' = retry_count j + 1.
Proof.
  pose proof (times_ok (live sample_queued) 12 ltac:(vm_compute; reflexivity)) as Ht.
  pose proof (assign_fifo sample_queued 5 12 sample_queued_wf ltac:(ilia) ltac:(lia)
    ltac:(ilia) Ht) as H.
  assert (faultline_scheduler_active sample_queued 5 = None) as E by (vm_compute; reflexivity).
  assert (contents (pending sample_queued) = [1; 2]) as Ec by (vm_compute; reflexivity).
  rewrite E, Ec in H. exact H.
Defined.

Lemma submit_accepts_witness :
  fst (fst (faultline_scheduler_submit sample_sched sample_payload 20)) = FAULTLINE_SCHEDULER_OK.
Proof.
  pose proof (submit_accepts sample_sched sample_payload 20 sample_sched_wf sample_payload_typed
    ltac:(ilia)) as H.
  destruct (faultline_scheduler_submit sample_sched sample_payload 20) as [[r out] s'].
  apply H. vm_compute. repeat split; congruence || lia.
Defined.

Lemma report_accepted_witness :
  fst (faultline_scheduler_report sample_assigned 5 (MsgJobStarted (mk_identity 1 5 1)) 13)
  = FAULTLINE_SCHEDULER_OK.
Proof.
  pose proof (report_accepted sample_assigned 5 13 (MsgJobStarted (mk_identity 1 5 1))
    sample_assigned_wf ltac:(ilia) I) as H.
  destruct (faultline_scheduler_report sample_assigned 5 (MsgJobStarted (mk_identity 1 5 1)) 13)
    as [r s']. apply H. split; [lia|]. split; [lia|].
  exists (mk_identity 1 5 1), (live sample_assigned !!! 0%nat).
  vm_compute. repeat split; congruence.
Defined.

Lemma sample_assigned_times (j : faultline_job) : j ∈ live sample_assigned -> updated_at_ms j <= 13.
Proof. apply times_ok. vm_compute. reflexivity. Qed.

Lemma worker_lost_releases_witness :
  let '(r, s') := faultline_scheduler_worker_lost sample_assigned 5 13 in
  faultline_scheduler_active s' 5 = None /\
  match faultline_scheduler_active sample_assigned 5 with
  | None => r = FAULTLINE_SCHEDULER_EMPTY /\ s' = sample_assigned
  | Some j =>
      let c := failed_job j FAULTLINE_JOB_FAILURE_WORKER_LOST 13 in
      r = FAULTLINE_SCHEDULER_OK /\
      contents (pending s') =
        contents (pending sample_assigned) ++
          (if retry_count j <? max_retries j then [job_id j] else []) /\
      exists slot, live sample_assigned !! slot = Some j /\
        live s' = <[slot := c]> (live sample_assigned)
  end.
Proof.
  refine (worker_lost_releases sample_assigned 5 13 sample_assigned_wf _ _ sample_assigned_times).
  - lia.
  - ilia.
Defined.
