(* ===== verification/Wal.v ===== *)
(** The log format: [include/wal.h], [src/coordinator/wal_format.c].

    A record keeps both members of its payload union; only the one its type names
    is read, and the decoder leaves the other zero. Encoders return the bytes they
    write ([*written] is their number), decoders take the available bytes and
    return [*consumed] with the record. *)

From S2P Require Import Prelude Job.

Definition FAULTLINE_WAL_VERSION : Z := 1.
Definition FAULTLINE_WAL_FILE_HEADER_SIZE : Z := 24.
Definition FAULTLINE_WAL_RECORD_MAGIC : Z := 0x464c5752.
Definition FAULTLINE_WAL_RECORD_HEADER_SIZE : Z := 32.
Definition FAULTLINE_WAL_JOB_PREFIX_SIZE : Z := 84.
Definition FAULTLINE_WAL_MAX_PAYLOAD_SIZE : Z :=
  FAULTLINE_WAL_JOB_PREFIX_SIZE + FAULTLINE_JOB_MAX_ARGUMENT_SIZE + FAULTLINE_JOB_MAX_RESULT_SIZE.
Definition FAULTLINE_WAL_MAX_RECORD_SIZE : Z :=
  FAULTLINE_WAL_RECORD_HEADER_SIZE + FAULTLINE_WAL_MAX_PAYLOAD_SIZE.

Inductive faultline_wal_record_type :=
| FAULTLINE_WAL_WORKER_ID_ALLOCATED
| FAULTLINE_WAL_JOB_CREATED
| FAULTLINE_WAL_JOB_ASSIGNED
| FAULTLINE_WAL_JOB_STARTED
| FAULTLINE_WAL_JOB_COMPLETED
| FAULTLINE_WAL_JOB_REQUEUED
| FAULTLINE_WAL_JOB_FAILED
| WAL_RECORD_TYPE_OTHER (raw : Z).

#[export] Instance faultline_wal_record_type_eq_dec : EqDecision faultline_wal_record_type.
Proof. solve_decision. Defined.

Definition wal_type_value (t : faultline_wal_record_type) : Z :=
  match t with
  | FAULTLINE_WAL_WORKER_ID_ALLOCATED => 1
  | FAULTLINE_WAL_JOB_CREATED => 2
  | FAULTLINE_WAL_JOB_ASSIGNED => 3
  | FAULTLINE_WAL_JOB_STARTED => 4
  | FAULTLINE_WAL_JOB_COMPLETED => 5
  | FAULTLINE_WAL_JOB_REQUEUED => 6
  | FAULTLINE_WAL_JOB_FAILED => 7
  | WAL_RECORD_TYPE_OTHER raw => raw
  end.

Definition wal_type_cast (z : Z) : faultline_wal_record_type :=
  if z =? 1 then FAULTLINE_WAL_WORKER_ID_ALLOCATED
  else if z =? 2 then FAULTLINE_WAL_JOB_CREATED
  else if z =? 3 then FAULTLINE_WAL_JOB_ASSIGNED
  else if z =? 4 then FAULTLINE_WAL_JOB_STARTED
  else if z =? 5 then FAULTLINE_WAL_JOB_COMPLETED
  else if z =? 6 then FAULTLINE_WAL_JOB_REQUEUED
  else if z =? 7 then FAULTLINE_WAL_JOB_FAILED
  else WAL_RECORD_TYPE_OTHER z.

Record faultline_wal_record := mk_wal_record {
  r_type : faultline_wal_record_type;
  r_sequence : Z;
  r_worker_id : Z;
  r_job : faultline_job;
}.

Record faultline_wal_record_header := mk_wal_header {
  rh_type : faultline_wal_record_type;
  rh_sequence : Z;
  rh_payload_length : Z;
  rh_payload_crc32 : Z;
}.

Inductive faultline_wal_result :=
| FAULTLINE_WAL_OK
| FAULTLINE_WAL_INVALID_ARGUMENT
| FAULTLINE_WAL_BUFFER_TOO_SMALL
| FAULTLINE_WAL_INCOMPLETE
| FAULTLINE_WAL_BAD_CHECKSUM
| FAULTLINE_WAL_BAD_MAGIC
| FAULTLINE_WAL_UNSUPPORTED_VERSION
| FAULTLINE_WAL_INVALID_HEADER
| FAULTLINE_WAL_UNKNOWN_RECORD_TYPE
| FAULTLINE_WAL_INVALID_SEQUENCE
| FAULTLINE_WAL_INVALID_PAYLOAD_LENGTH
| FAULTLINE_WAL_INVALID_PAYLOAD.

#[export] Instance faultline_wal_result_eq_dec : EqDecision faultline_wal_result.
Proof. solve_decision. Defined.

(** ** Integers and checksum *)

Definition put_u16 (value : Z) : list Z := be16 value.
Definition put_u32 (value : Z) : list Z := be32 value.
Definition put_u64 (value : Z) : list Z := be64 value.
Definition get_u16 (bytes : list Z) : Z := un_be16 bytes.
Definition get_u32 (bytes : list Z) : Z := un_be32 bytes.
Definition get_u64 (bytes : list Z) : Z := un_be64 bytes.

(** One turn of the bit loop. *)
Definition crc_step (crc : Z) : Z :=
  Z.lxor (Z.shiftr crc 1) (if Z.land crc 1 !=? 0 then 0xedb88320 else 0).

Definition crc_byte (crc byte : Z) : Z := Nat.iter 8 crc_step (Z.lxor crc byte).

Definition crc32 (data : list Z) : Z :=
  Z.lxor (fold_left crc_byte data UINT32_MAX) UINT32_MAX.

(** ** Payload rules *)

Definition payload_bounds (type : faultline_wal_record_type) : faultline_wal_result + Z * Z :=
  match type with
  | FAULTLINE_WAL_WORKER_ID_ALLOCATED => inr (4, 4)
  | FAULTLINE_WAL_JOB_CREATED | FAULTLINE_WAL_JOB_ASSIGNED | FAULTLINE_WAL_JOB_STARTED
  | FAULTLINE_WAL_JOB_REQUEUED | FAULTLINE_WAL_JOB_FAILED =>
      inr (FAULTLINE_WAL_JOB_PREFIX_SIZE,
           FAULTLINE_WAL_JOB_PREFIX_SIZE + FAULTLINE_JOB_MAX_ARGUMENT_SIZE)
  | FAULTLINE_WAL_JOB_COMPLETED =>
      inr (FAULTLINE_WAL_JOB_PREFIX_SIZE, FAULTLINE_WAL_MAX_PAYLOAD_SIZE)
  | WAL_RECORD_TYPE_OTHER _ => inl FAULTLINE_WAL_UNKNOWN_RECORD_TYPE
  end.

Definition valid_failure (f : faultline_job_failure) : bool :=
  bool_decide (f = FAULTLINE_JOB_FAILURE_TASK) ||
  bool_decide (f = FAULTLINE_JOB_FAILURE_WORKER_LOST).

Definition valid_job (type : faultline_wal_record_type) (job : faultline_job) : bool :=
  let task := task_type_value (task_type job) in
  let in_state s := bool_decide (job_state job = s) in
  let no_failure := bool_decide (failure job = FAULTLINE_JOB_FAILURE_NONE) in
  if (job_id job =? 0) || (task <? task_type_value FAULTLINE_TASK_SLEEP) ||
     (task_type_value FAULTLINE_TASK_HASH <? task) ||
     (FAULTLINE_JOB_MAX_ARGUMENT_SIZE <? argument_size job) ||
     (FAULTLINE_JOB_MAX_RESULT_SIZE <? result_size job) || (max_retries job <? retry_count job) ||
     (created_at_ms job <? 0) || (updated_at_ms job <? created_at_ms job)
  then false
  else if bool_decide (type = FAULTLINE_WAL_JOB_CREATED) ||
          bool_decide (type = FAULTLINE_WAL_JOB_REQUEUED) then
    if negb (in_state FAULTLINE_JOB_QUEUED) || (worker_id job !=? 0) || (result_size job !=? 0) ||
       (assigned_at_ms job !=? -1) || (started_at_ms job !=? -1) || (finished_at_ms job !=? -1)
    then false
    else if bool_decide (type = FAULTLINE_WAL_JOB_CREATED) then
      (attempt job =? 0) && (retry_count job =? 0) && no_failure &&
      (updated_at_ms job =? created_at_ms job)
    else (retry_count job !=? 0) && (attempt job =? retry_count job) && valid_failure (failure job)
  else if (worker_id job =? 0) || (attempt job !=? u64 (retry_count job + 1)) ||
          (assigned_at_ms job <? created_at_ms job) || (updated_at_ms job <? assigned_at_ms job)
  then false
  else
    match type with
    | FAULTLINE_WAL_JOB_ASSIGNED =>
        in_state FAULTLINE_JOB_ASSIGNED && no_failure && (result_size job =? 0) &&
        (updated_at_ms job =? assigned_at_ms job) && (started_at_ms job =? -1) &&
        (finished_at_ms job =? -1)
    | FAULTLINE_WAL_JOB_STARTED =>
        in_state FAULTLINE_JOB_RUNNING && no_failure && (result_size job =? 0) &&
        (assigned_at_ms job <=? started_at_ms job) &&
        (updated_at_ms job =? started_at_ms job) && (finished_at_ms job =? -1)
    | FAULTLINE_WAL_JOB_COMPLETED =>
        in_state FAULTLINE_JOB_DONE && no_failure &&
        (assigned_at_ms job <=? started_at_ms job) &&
        (started_at_ms job <=? finished_at_ms job) && (updated_at_ms job =? finished_at_ms job)
    | FAULTLINE_WAL_JOB_FAILED =>
        in_state FAULTLINE_JOB_FAILED && valid_failure (failure job) &&
        (retry_count job =? max_retries job) && (result_size job =? 0) &&
        ((started_at_ms job =? -1) || (assigned_at_ms job <=? started_at_ms job)) &&
        (assigned_at_ms job <=? finished_at_ms job) &&
        (started_at_ms job <=? finished_at_ms job) && (updated_at_ms job =? finished_at_ms job)
    | _ => false
    end.

(** ** File header *)

Definition file_magic : list Z := [70; 76; 73; 78; 87; 65; 76; 0].

Definition faultline_wal_file_header_encode (capacity : Z) : faultline_wal_result + list Z :=
  refuse capacity <? FAULTLINE_WAL_FILE_HEADER_SIZE with FAULTLINE_WAL_BUFFER_TOO_SMALL in
  let wire := file_magic ++ put_u16 FAULTLINE_WAL_VERSION ++
              put_u16 FAULTLINE_WAL_FILE_HEADER_SIZE ++ put_u32 0 ++ put_u32 0 in
  inr (wire ++ put_u32 (crc32 wire)).

Definition faultline_wal_file_header_decode (wire : list Z) : faultline_wal_result :=
  if Z.of_nat (length wire) <? FAULTLINE_WAL_FILE_HEADER_SIZE then FAULTLINE_WAL_INCOMPLETE
  else if get_u32 (drop 20 wire) !=? crc32 (take 20 wire) then FAULTLINE_WAL_BAD_CHECKSUM
  else if negb (bool_decide (take 8 wire = file_magic)) then FAULTLINE_WAL_BAD_MAGIC
  else if get_u16 (drop 8 wire) !=? FAULTLINE_WAL_VERSION then FAULTLINE_WAL_UNSUPPORTED_VERSION
  else if (get_u16 (drop 10 wire) !=? FAULTLINE_WAL_FILE_HEADER_SIZE) ||
          (get_u32 (drop 12 wire) !=? 0) || (get_u32 (drop 16 wire) !=? 0) then
    FAULTLINE_WAL_INVALID_HEADER
  else FAULTLINE_WAL_OK.

(** ** Records *)

Definition faultline_wal_record_header_decode (wire : list Z) (expected_sequence : Z) :
    faultline_wal_result + faultline_wal_record_header :=
  refuse expected_sequence =? 0 with FAULTLINE_WAL_INVALID_ARGUMENT in
  refuse Z.of_nat (length wire) <? FAULTLINE_WAL_RECORD_HEADER_SIZE
    with FAULTLINE_WAL_INCOMPLETE in
  refuse get_u32 (drop 28 wire) !=? crc32 (take 28 wire) with FAULTLINE_WAL_BAD_CHECKSUM in
  refuse get_u32 wire !=? FAULTLINE_WAL_RECORD_MAGIC with FAULTLINE_WAL_BAD_MAGIC in
  refuse get_u16 (drop 4 wire) !=? FAULTLINE_WAL_VERSION
    with FAULTLINE_WAL_UNSUPPORTED_VERSION in
  refuse get_u32 (drop 12 wire) !=? 0 with FAULTLINE_WAL_INVALID_HEADER in
  let decoded :=
    {| rh_type := wal_type_cast (get_u16 (drop 6 wire));
       rh_payload_length := get_u32 (drop 8 wire); rh_sequence := get_u64 (drop 16 wire);
       rh_payload_crc32 := get_u32 (drop 24 wire) |} in
  let! (minimum, maximum) := payload_bounds (rh_type decoded) in
  refuse (rh_payload_length decoded <? minimum) || (maximum <? rh_payload_length decoded)
    with FAULTLINE_WAL_INVALID_PAYLOAD_LENGTH in
  refuse rh_sequence decoded !=? expected_sequence with FAULTLINE_WAL_INVALID_SEQUENCE in
  inr decoded.

Definition encode_job (job : faultline_job) : list Z :=
  put_u64 (job_id job) ++ put_u16 (u16 (task_type_value (task_type job))) ++
  put_u16 (u16 (job_state_value (job_state job))) ++ put_u32 (worker_id job) ++
  put_u64 (attempt job) ++ put_u32 (retry_count job) ++ put_u32 (max_retries job) ++
  put_u64 (u64 (created_at_ms job)) ++ put_u64 (u64 (updated_at_ms job)) ++
  put_u64 (u64 (assigned_at_ms job)) ++ put_u64 (u64 (started_at_ms job)) ++
  put_u64 (u64 (finished_at_ms job)) ++ put_u16 (u16 (job_failure_value (failure job))) ++
  put_u16 0 ++ put_u32 (u32 (argument_size job)) ++ put_u32 (u32 (result_size job)) ++
  take (Z.to_nat (argument_size job)) (arguments job) ++
  take (Z.to_nat (result_size job)) (result job).

Definition faultline_wal_record_encode (capacity : Z) (record : faultline_wal_record) :
    faultline_wal_result + list Z :=
  let! (minimum, maximum) := payload_bounds (r_type record) in
  refuse r_sequence record =? 0 with FAULTLINE_WAL_INVALID_SEQUENCE in
  let allocated := bool_decide (r_type record = FAULTLINE_WAL_WORKER_ID_ALLOCATED) in
  refuse (if allocated then r_worker_id record =? 0
          else negb (valid_job (r_type record) (r_job record)))
    with FAULTLINE_WAL_INVALID_PAYLOAD in
  let payload_size :=
    if allocated then minimum
    else minimum + (argument_size (r_job record) + result_size (r_job record)) in
  let total := FAULTLINE_WAL_RECORD_HEADER_SIZE + payload_size in
  refuse capacity <? total with FAULTLINE_WAL_BUFFER_TOO_SMALL in
  let payload := if allocated then put_u32 (r_worker_id record) else encode_job (r_job record) in
  let header :=
    put_u32 FAULTLINE_WAL_RECORD_MAGIC ++ put_u16 FAULTLINE_WAL_VERSION ++
    put_u16 (u16 (wal_type_value (r_type record))) ++ put_u32 (u32 payload_size) ++ put_u32 0 ++
    put_u64 (r_sequence record) ++ put_u32 (crc32 payload) in
  inr (header ++ put_u32 (crc32 header) ++ payload).

(** [None] is the value 0 of the code: neither unset nor a nonnegative [int64_t]. *)
Definition decode_time (bytes : list Z) : option Z :=
  let value := get_u64 bytes in
  if value =? UINT64_MAX then Some FAULTLINE_JOB_TIME_UNSET
  else if value <=? INT64_MAX then Some value
  else None.

Definition decode_job (size : Z) (type : faultline_wal_record_type) (bytes : list Z) :
    faultline_wal_result + faultline_job :=
  let args := get_u32 (drop 76 bytes) in
  let results := get_u32 (drop 80 bytes) in
  refuse (FAULTLINE_JOB_MAX_ARGUMENT_SIZE <? args) || (FAULTLINE_JOB_MAX_RESULT_SIZE <? results) ||
         (size !=? FAULTLINE_WAL_JOB_PREFIX_SIZE + args + results)
    with FAULTLINE_WAL_INVALID_PAYLOAD_LENGTH in
  refuse get_u16 (drop 74 bytes) !=? 0 with FAULTLINE_WAL_INVALID_PAYLOAD in
  match decode_time (drop 32 bytes), decode_time (drop 40 bytes), decode_time (drop 48 bytes),
        decode_time (drop 56 bytes), decode_time (drop 64 bytes) with
  | Some created, Some updated, Some assigned, Some started, Some finished =>
      let job arguments_ result_ :=
        {| job_id := get_u64 bytes; task_type := task_type_cast (get_u16 (drop 8 bytes));
           job_state := job_state_cast (get_u16 (drop 10 bytes));
           worker_id := get_u32 (drop 12 bytes); attempt := get_u64 (drop 16 bytes);
           retry_count := get_u32 (drop 24 bytes); max_retries := get_u32 (drop 28 bytes);
           failure := job_failure_cast (get_u16 (drop 72 bytes));
           argument_size := args; result_size := results;
           created_at_ms := created; updated_at_ms := updated; assigned_at_ms := assigned;
           started_at_ms := started; finished_at_ms := finished;
           arguments := arguments_; result := result_ |} in
      refuse negb (valid_job type (job [] [])) with FAULTLINE_WAL_INVALID_PAYLOAD in
      let data := drop (Z.to_nat FAULTLINE_WAL_JOB_PREFIX_SIZE) bytes in
      inr (job (take (Z.to_nat args) data) (take (Z.to_nat results) (drop (Z.to_nat args) data)))
  | _, _, _, _, _ => inl FAULTLINE_WAL_INVALID_PAYLOAD
  end.

Definition faultline_wal_record_decode (wire : list Z) (expected_sequence : Z) :
    faultline_wal_result + faultline_wal_record * Z :=
  let! header := faultline_wal_record_header_decode wire expected_sequence in
  let total := FAULTLINE_WAL_RECORD_HEADER_SIZE + rh_payload_length header in
  refuse Z.of_nat (length wire) <? total with FAULTLINE_WAL_INCOMPLETE in
  let payload := drop (Z.to_nat FAULTLINE_WAL_RECORD_HEADER_SIZE) wire in
  refuse crc32 (take (Z.to_nat (rh_payload_length header)) payload) !=? rh_payload_crc32 header
    with FAULTLINE_WAL_BAD_CHECKSUM in
  if bool_decide (rh_type header = FAULTLINE_WAL_WORKER_ID_ALLOCATED) then
    refuse get_u32 payload =? 0 with FAULTLINE_WAL_INVALID_PAYLOAD in
    inr ({| r_type := rh_type header; r_sequence := rh_sequence header;
            r_worker_id := get_u32 payload; r_job := zero_job |}, total)
  else
    let! job := decode_job (rh_payload_length header) (rh_type header) payload in
    inr ({| r_type := rh_type header; r_sequence := rh_sequence header;
            r_worker_id := 0; r_job := job |}, total).
