(* ===== verification/WalProofs.v ===== *)
(** Correctness of the log format.

    The checksum distinguishes two byte strings that differ in one byte, whatever
    their length. Records survive encoding and decoding, accepted records are
    canonical, a record cut short is [INCOMPLETE] and a complete record with one
    damaged byte is a checksum error, so damage is never mistaken for a torn tail.
    Every well-formed job snapshot is accepted by the record type of its state. *)

From S2P Require Import Prelude Job Wal.

(** ** The checksum *)

Lemma lxor_u32 a b : in_u32 a -> in_u32 b -> in_u32 (Z.lxor a b).
Proof.
  intros Ha Hb. assert (0 <= Z.lxor a b) as H0 by (apply Z.lxor_nonneg; ilia).
  split; [done|]. destruct (Z.eq_dec (Z.lxor a b) 0) as [->|Hne]; [done|].
  apply Z.log2_lt_pow2; [lia|].
  assert (forall z, in_u32 z -> Z.log2 z < 32) as Hl.
  { intros z Hz. destruct (Z.eq_dec z 0) as [->|]; [done|]. apply Z.log2_lt_pow2; [ilia|apply Hz]. }
  pose proof (Z.log2_lxor a b ltac:(ilia) ltac:(ilia)). pose proof (Hl a Ha). pose proof (Hl b Hb).
  lia.
Qed.

Lemma land_1 a : (Z.land a 1 !=? 0) = Z.odd a.
Proof. change 1 with (Z.ones 1). rewrite Z.land_ones by lia. rewrite Zmod_odd. by destruct (Z.odd a). Qed.

Lemma crc_step_range a : in_u32 a -> in_u32 (crc_step a).
Proof.
  intros Ha. unfold crc_step. apply lxor_u32.
  - rewrite shiftr_div by lia. change (2 ^ 1) with 2. unfold_ints. Z.div_mod_to_equations. lia.
  - case_match; ilia.
Qed.

Lemma crc_step_top a : in_u32 a -> Z.testbit (crc_step a) 31 = Z.odd a.
Proof.
  intros Ha. unfold crc_step. rewrite land_1, Z.lxor_spec, Z.shiftr_spec by lia.
  change (31 + 1) with 32.
  assert (Z.testbit a 32 = false) as ->.
  { destruct (Z.eq_dec a 0) as [->|]; [done|]. apply Z.bits_above_log2; [ilia|].
    apply Z.log2_lt_pow2; [ilia|apply Ha]. }
  by destruct (Z.odd a).
Qed.

Lemma crc_step_inj a b : in_u32 a -> in_u32 b -> crc_step a = crc_step b -> a = b.
Proof.
  intros Ha Hb E. pose proof (crc_step_top a Ha) as Ta. pose proof (crc_step_top b Hb) as Tb.
  rewrite E, Tb in Ta. unfold crc_step in E. rewrite !land_1, Ta in E.
  assert (Z.shiftr a 1 = Z.shiftr b 1) as Hs.
  { apply (f_equal (fun z => Z.lxor z (if Z.odd a then 0xedb88320 else 0))) in E.
    by rewrite !Z.lxor_assoc, Z.lxor_nilpotent, !Z.lxor_0_r in E. }
  rewrite !shiftr_div in Hs by lia. change (2 ^ 1) with 2 in Hs.
  pose proof (Zmod_odd a). pose proof (Zmod_odd b). rewrite Ta in *.
  pose proof (Z.div_mod a 2). pose proof (Z.div_mod b 2). lia.
Qed.

Lemma crc_steps_range n a : in_u32 a -> in_u32 (Nat.iter n crc_step a).
Proof. intros Ha. induction n; simpl; [done|]. by apply crc_step_range. Qed.

Lemma crc_steps_inj n a b :
  in_u32 a -> in_u32 b -> Nat.iter n crc_step a = Nat.iter n crc_step b -> a = b.
Proof.
  intros Ha Hb. induction n as [|n IH]; simpl; [done|]. intros E. apply IH.
  apply crc_step_inj; [by apply crc_steps_range..|done].
Qed.

Lemma in_u8_u32 z : in_u8 z -> in_u32 z.
Proof. ilia. Qed.

Lemma crc_byte_range crc byte : in_u32 crc -> in_u8 byte -> in_u32 (crc_byte crc byte).
Proof.
  intros Hc Hb. exact (crc_steps_range 8 _ (lxor_u32 _ _ Hc (in_u8_u32 _ Hb))).
Qed.

Lemma crc_byte_lxor crc crc' byte byte' :
  in_u32 crc -> in_u32 crc' -> in_u8 byte -> in_u8 byte' ->
  crc_byte crc byte = crc_byte crc' byte' -> Z.lxor crc byte = Z.lxor crc' byte'.
Proof.
  intros Hc Hc' Hb Hb'.
  exact (crc_steps_inj 8 _ _ (lxor_u32 _ _ Hc (in_u8_u32 _ Hb))
    (lxor_u32 _ _ Hc' (in_u8_u32 _ Hb'))).
Qed.

Lemma lxor_inj_r a b c : Z.lxor a c = Z.lxor b c -> a = b.
Proof.
  intros E. apply (f_equal (fun z => Z.lxor z c)) in E.
  by rewrite !Z.lxor_assoc, Z.lxor_nilpotent, !Z.lxor_0_r in E.
Qed.

(** Rewriting with this equation, rather than computing, keeps [crc_byte] folded. *)
Lemma fold_left_cons {A B} (f : A -> B -> A) x l a :
  fold_left f (x :: l) a = fold_left f l (f a x).
Proof. reflexivity. Qed.

Lemma crc_fold_range l crc : in_u32 crc -> bytes_ok l -> in_u32 (fold_left crc_byte l crc).
Proof.
  intros Hc Hl. revert crc Hc. induction Hl; intros; [done|].
  rewrite fold_left_cons. auto using crc_byte_range.
Qed.

Lemma crc_fold_inj l a b :
  in_u32 a -> in_u32 b -> bytes_ok l -> fold_left crc_byte l a = fold_left crc_byte l b -> a = b.
Proof.
  intros Ha Hb Hl. revert a b Ha Hb.
  induction Hl as [|x l Hx _ IH]; intros a b Ha Hb; [done|].
  rewrite !fold_left_cons. intros E.
  apply IH in E; [|by apply crc_byte_range..].
  apply crc_byte_lxor in E; [|done..]. by apply lxor_inj_r in E.
Qed.

Lemma crc32_range l : bytes_ok l -> in_u32 (crc32 l).
Proof. intros Hl. apply lxor_u32; [|ilia]. apply crc_fold_range; [ilia|done]. Qed.

#[export] Hint Resolve crc32_range : faultline.

(** Two strings that differ in one byte have different checksums. *)
Lemma crc32_one_byte l1 l2 x y :
  bytes_ok l1 -> bytes_ok l2 -> in_u8 x -> in_u8 y -> x <> y ->
  crc32 (l1 ++ x :: l2) <> crc32 (l1 ++ y :: l2).
Proof.
  intros H1 H2 Hx Hy Hne E. apply lxor_inj_r in E. rewrite !fold_left_app, !fold_left_cons in E.
  assert (in_u32 (fold_left crc_byte l1 UINT32_MAX)) by (apply crc_fold_range; [ilia|done]).
  apply crc_fold_inj in E; [|by apply crc_byte_range..|done].
  apply crc_byte_lxor in E; [|done..].
  rewrite !(Z.lxor_comm (fold_left _ _ _)) in E. by apply lxor_inj_r in E.
Qed.

Lemma crc32_insert l k x y :
  bytes_ok l -> l !! k = Some x -> in_u8 y -> x <> y -> crc32 (<[k := y]> l) <> crc32 l.
Proof.
  intros Hl Hk Hy Hne.
  pose proof (Forall_lookup_1 _ _ _ _ Hl Hk) as Hx.
  pose proof (take_drop_middle l k x Hk) as Hm.
  rewrite (insert_take_drop l k y) by (by eapply lookup_lt_Some).
  rewrite <- Hm at 3. apply crc32_one_byte; auto with faultline.
Qed.

(** ** Records as bytes *)

Definition job_typed (j : faultline_job) : Prop :=
  in_u64 (job_id j) /\ in_u32 (worker_id j) /\ in_u64 (attempt j) /\
  in_u32 (retry_count j) /\ in_u32 (max_retries j) /\
  in_i64 (created_at_ms j) /\ in_i64 (updated_at_ms j) /\ in_i64 (assigned_at_ms j) /\
  in_i64 (started_at_ms j) /\ in_i64 (finished_at_ms j) /\
  argument_size j = Z.of_nat (length (arguments j)) /\ bytes_ok (arguments j) /\
  result_size j = Z.of_nat (length (result j)) /\ bytes_ok (result j).

(** A real enumerator is never stored as a raw number. *)
Definition task_canonical (j : faultline_job) : Prop :=
  task_type j = task_type_cast (task_type_value (task_type j)).

Definition allocated (r : faultline_wal_record) : bool :=
  bool_decide (r_type r = FAULTLINE_WAL_WORKER_ID_ALLOCATED).

(** Fields fit their types, and the union member that is not in use is zero. *)
Definition record_typed (r : faultline_wal_record) : Prop :=
  in_u64 (r_sequence r) /\
  if allocated r then in_u32 (r_worker_id r) /\ r_job r = zero_job
  else job_typed (r_job r) /\ task_canonical (r_job r) /\ r_worker_id r = 0.

(** What the encoder checks of a record. *)
Definition record_ok (r : faultline_wal_record) : Prop :=
  r_sequence r <> 0 /\
  if allocated r then r_worker_id r <> 0 else valid_job (r_type r) (r_job r) = true.

Definition record_payload (r : faultline_wal_record) : list Z :=
  if allocated r then put_u32 (r_worker_id r) else encode_job (r_job r).

Definition record_head (type : faultline_wal_record_type) (sequence : Z) (payload : list Z) :
    list Z :=
  put_u32 FAULTLINE_WAL_RECORD_MAGIC ++ put_u16 FAULTLINE_WAL_VERSION ++
  put_u16 (wal_type_value type) ++ put_u32 (Z.of_nat (length payload)) ++ put_u32 0 ++
  put_u64 sequence ++ put_u32 (crc32 payload).

Definition record_bytes (r : faultline_wal_record) : list Z :=
  let head := record_head (r_type r) (r_sequence r) (record_payload r) in
  head ++ put_u32 (crc32 head) ++ record_payload r.

Ltac unfold_wal :=
  unfold FAULTLINE_WAL_MAX_RECORD_SIZE, FAULTLINE_WAL_MAX_PAYLOAD_SIZE,
    FAULTLINE_WAL_VERSION, FAULTLINE_WAL_FILE_HEADER_SIZE, FAULTLINE_WAL_RECORD_HEADER_SIZE,
    FAULTLINE_WAL_JOB_PREFIX_SIZE in *;
  unfold FAULTLINE_WAL_JOB_PREFIX_SIZE, FAULTLINE_WAL_RECORD_HEADER_SIZE,
    FAULTLINE_JOB_MAX_ARGUMENT_SIZE, FAULTLINE_JOB_MAX_RESULT_SIZE in *.

Ltac wal_lia := unfold_wal; ilia.

Ltac unfold_puts := unfold put_u16, put_u32, put_u64, get_u16, get_u32, get_u64 in *.

(** The record type that logs a snapshot in a given state. *)
Definition snapshot_type (j : faultline_job) : faultline_wal_record_type :=
  match job_state j with
  | FAULTLINE_JOB_QUEUED =>
      if retry_count j =? 0 then FAULTLINE_WAL_JOB_CREATED else FAULTLINE_WAL_JOB_REQUEUED
  | FAULTLINE_JOB_ASSIGNED => FAULTLINE_WAL_JOB_ASSIGNED
  | FAULTLINE_JOB_RUNNING => FAULTLINE_WAL_JOB_STARTED
  | FAULTLINE_JOB_DONE => FAULTLINE_WAL_JOB_COMPLETED
  | FAULTLINE_JOB_FAILED => FAULTLINE_WAL_JOB_FAILED
  | JOB_STATE_OTHER raw => WAL_RECORD_TYPE_OTHER raw
  end.

Lemma valid_failure_true f : valid_failure f = true <-> real_failure f.
Proof. unfold valid_failure, real_failure. by rewrite orb_true_iff, !bool_decide_eq_true. Qed.

Lemma valid_task_type_value t : valid_task_type t -> 1 <= task_type_value t <= 4.
Proof. destruct t; simpl; try done; lia. Qed.

Lemma task_canonical_valid j :
  task_canonical j -> 1 <= task_type_value (task_type j) <= 4 -> valid_task_type (task_type j).
Proof.
  unfold task_canonical. intros -> H. revert H. generalize (task_type_value (task_type j)).
  intros z. unfold task_type_cast. repeat case_match; simpl; try done. lia.
Qed.

Ltac decide_types :=
  repeat match goal with
  | |- context [bool_decide (?a = ?b)] =>
      first [rewrite (bool_decide_eq_true_2 (a = b)) by done
            |rewrite (bool_decide_eq_false_2 (a = b)) by done]; cbn [orb negb andb]
  end.

Ltac prop_bools :=
  repeat match goal with
  | H : bool_decide _ = true |- _ => apply bool_decide_eq_true in H
  | H : valid_failure _ = true |- _ => apply valid_failure_true in H
  end.

(** Exactly the well-formed snapshots pass, each under the type of its state. *)
Lemma valid_job_wf type j :
  job_typed j -> task_canonical j ->
  valid_job type j = true <-> job_wf j /\ type = snapshot_type j.
Proof.
  intros Ht Hc. destruct Ht as (? & ? & ? & ? & ? & ? & ? & ? & ? & ? & Has & Hab & Hrs & Hrb).
  unfold valid_job. cbn zeta. change (task_type_value FAULTLINE_TASK_SLEEP) with 1.
  change (task_type_value FAULTLINE_TASK_HASH) with 4. rewrite (u64_id (retry_count j + 1)) by ilia.
  match goal with |- (if ?c then _ else _) = _ <-> _ => destruct c eqn:E end.
  { split; [done|]. intros [Hwf _]. exfalso. pose proof (valid_task_type_value _ (wf_task j Hwf)).
    pose proof (wf_id j Hwf). pose proof (wf_argument_max j Hwf). pose proof (wf_result_max j Hwf).
    pose proof (wf_retries j Hwf). pose proof (wf_times j Hwf).
    repeat (apply orb_true_iff in E as [E|E]; [|wal_lia]). wal_lia. }
  split_bools. reflect_bools.
  assert (job_wf j <-> job_state_wf j) as ->.
  { split; [apply wf_state|]. intros Hs.
    constructor; try done; try wal_lia. apply task_canonical_valid; [done|lia]. }
  unfold job_state_wf, owned, snapshot_type.
  split.
  - destruct type; decide_types; intros Hv;
      match type of Hv with (if ?c then _ else _) = _ => destruct c eqn:?; [done|] end;
      try done; split_bools; prop_bools; reflect_bools;
      match goal with H : job_state j = _ |- _ => rewrite H end; split; try done; try lia.
    + split_and!; try done; try lia. left. split_and!; [lia|done|lia].
    + by rewrite (proj2 (Z.eqb_eq _ _)) by lia.
    + split_and!; try done; ilia.
    + split_and!; try done; ilia.
    + split_and!; try done; ilia.
    + split_and!; try done; try lia. right. split; [lia|done].
    + by rewrite (proj2 (Z.eqb_neq _ _)) by lia.
    + split_and!; try done; ilia.
  - intros [Hs ->]. destruct (job_state j); try done.
    1: destruct Hs as (? & ? & ? & ? & ? & ? & [(Hr & -> & ?)|(Hr & Hf%valid_failure_true)]);
      [rewrite (proj2 (Z.eqb_eq _ _) Hr) | rewrite (proj2 (Z.eqb_neq _ _) Hr), Hf].
    all: destruct_and?; repeat match goal with
      | H : failure _ = _ |- _ => rewrite H; clear H
      | H : real_failure _ |- _ => apply valid_failure_true in H; rewrite H end;
      decide_types;
      match goal with |- (if ?c then _ else _) = _ =>
        assert (c = false) as -> by (apply not_true_is_false; intros E';
          repeat (apply orb_true_iff in E' as [E'|E']; [|lia]); lia) end;
      repeat (apply andb_true_intro; split); lia.
Qed.

(** ** Encoding *)

Lemma valid_job_facts type j :
  valid_job type j = true ->
  type <> FAULTLINE_WAL_WORKER_ID_ALLOCATED /\
  argument_size j <= 1024 /\ result_size j <= 1024 /\
  (result_size j = 0 \/ type = FAULTLINE_WAL_JOB_COMPLETED) /\
  exists m, payload_bounds type = inr (84, m) /\
    m = if bool_decide (type = FAULTLINE_WAL_JOB_COMPLETED) then 2132 else 1108.
Proof.
  unfold valid_job. cbn zeta.
  match goal with |- (if ?c then _ else _) = _ -> _ => destruct c eqn:E end; [done|].
  split_bools. reflect_bools. intros Hv.
  assert (type <> FAULTLINE_WAL_WORKER_ID_ALLOCATED /\ (forall z, type <> WAL_RECORD_TYPE_OTHER z) /\
    (result_size j = 0 \/ type = FAULTLINE_WAL_JOB_COMPLETED)) as (? & ? & ?).
  { revert Hv. destruct type; decide_types; intros Hv;
      match type of Hv with (if ?c then _ else _) = _ => destruct c eqn:? end; try done;
      split_bools; reflect_bools; split_and!; auto. }
  split_and!; try done; try wal_lia.
  destruct type; try naive_solver; eexists; split; try reflexivity; by decide_types.
Qed.

Lemma encode_job_length j :
  job_typed j -> length (encode_job j) = (84 + length (arguments j) + length (result j))%nat.
Proof.
  intros (_ & _ & _ & _ & _ & _ & _ & _ & _ & _ & Ha & _ & Hr & _).
  unfold encode_job. unfold_puts. rewrite !length_app, Ha, Hr, !Nat2Z.id, !take_ge by lia.
  unfold be64, be16, be32. cbn [length app]. lia.
Qed.

Lemma record_payload_size r :
  record_typed r -> record_ok r ->
  exists minimum maximum, payload_bounds (r_type r) = inr (minimum, maximum) /\
    minimum <= Z.of_nat (length (record_payload r)) <= maximum /\ maximum <= 2132 /\
    Z.of_nat (length (record_payload r)) =
      if allocated r then minimum
      else minimum + (argument_size (r_job r) + result_size (r_job r)).
Proof.
  unfold record_typed, record_ok, record_payload, allocated. intros [_ Ht] [_ Hok].
  case_bool_decide as E.
  - rewrite E. exists 4, 4. split_and!; try done; cbn; lia.
  - destruct (valid_job_facts _ _ Hok) as (_ & ? & ? & Hres & m & Hb & Hm).
    destruct Ht as [Ht _]. pose proof (encode_job_length _ Ht) as Hl.
    destruct Ht as (_ & _ & _ & _ & _ & _ & _ & _ & _ & _ & Ha & _ & Hr & _).
    exists 84, m. rewrite Hb, Hl.
    case_bool_decide; destruct Hres; split_and!; try done; lia.
Qed.

Lemma u16_wal_type r :
  record_typed r -> record_ok r -> u16 (wal_type_value (r_type r)) = wal_type_value (r_type r).
Proof.
  intros Ht Hok. destruct (record_payload_size r Ht Hok) as (mn & mx & Hb & _).
  by destruct (r_type r).
Qed.

#[export] Instance record_ok_dec r : Decision (record_ok r).
Proof. unfold record_ok. destruct (allocated r); apply _. Defined.

(** When the encoder succeeds, and what it writes. *)
Lemma record_encode_ok capacity r w :
  record_typed r ->
  faultline_wal_record_encode capacity r = inr w <->
  record_ok r /\ Z.of_nat (length (record_bytes r)) <= capacity /\ w = record_bytes r.
Proof.
  intros Ht. unfold faultline_wal_record_encode. fold (allocated r) (record_payload r).
  destruct (decide (record_ok r)) as [Hok|Hno].
  - destruct (record_payload_size r Ht Hok) as (mn & mx & -> & Hsize & Hmx & Hlen).
    rewrite (u16_wal_type r Ht Hok).
    replace (if allocated r then mn else _) with (Z.of_nat (length (record_payload r)))
      by (rewrite Hlen; by destruct (allocated r)).
    rewrite u32_id by ilia.
    replace (Z.of_nat (length (record_bytes r))) with
      (FAULTLINE_WAL_RECORD_HEADER_SIZE + Z.of_nat (length (record_payload r)))
      by (unfold record_bytes; rewrite !length_app; change (length (record_head _ _ _)) with 28%nat;
          cbn [put_u32 be32 length]; wal_lia).
    destruct Hok as [Hs Hp]. destruct (Z.eqb_spec (r_sequence r) 0); [done|].
    replace (if allocated r then r_worker_id r =? 0 else _) with false
      by (destruct (allocated r); [symmetry; by apply Z.eqb_neq|by rewrite Hp]).
    destruct (Z.ltb_spec capacity
      (FAULTLINE_WAL_RECORD_HEADER_SIZE + Z.of_nat (length (record_payload r)))).
    + split; [done|]. lia.
    + unfold record_bytes, record_head. split; [intros [= <-]|intros (_ & _ & ->)]; done.
  - split; [|naive_solver]. intros E. exfalso. apply Hno. unfold record_ok.
    destruct (payload_bounds (r_type r)) as [|[mn mx]]; [done|].
    destruct (Z.eqb_spec (r_sequence r) 0); [done|]. split; [done|].
    destruct (allocated r).
    + destruct (Z.eqb_spec (r_worker_id r) 0); done.
    + by destruct (valid_job (r_type r) (r_job r)).
Qed.

(** ** Decoding what was encoded *)

Definition time_ok (t : Z) : Prop := t = -1 \/ 0 <= t <= INT64_MAX.

Lemma decode_time_u64 t rest : time_ok t -> decode_time (be64 (u64 t) ++ rest) = Some t.
Proof.
  intros Ht. unfold decode_time. unfold_puts. rewrite un_be64_be64 by apply u64_range.
  destruct Ht as [->|Ht]; [done|]. rewrite u64_id by ilia.
  destruct (Z.eqb_spec t UINT64_MAX); [ilia|]. destruct (Z.leb_spec t INT64_MAX); [done|ilia].
Qed.

Lemma job_wf_times j :
  job_wf j ->
  time_ok (created_at_ms j) /\ time_ok (updated_at_ms j) /\ time_ok (assigned_at_ms j) /\
  time_ok (started_at_ms j) /\ time_ok (finished_at_ms j).
Proof.
  intros Hwf. unfold time_ok. wf_facts Hwf. unfold job_state_wf, owned in Hs.
  destruct (job_state j); try done; destruct_and!; split_and!; lia.
Qed.

Lemma job_state_cast_value s :
  (forall z, s <> JOB_STATE_OTHER z) ->
  in_u16 (job_state_value s) /\ job_state_cast (job_state_value s) = s.
Proof. intros H. destruct s; try (split; [cbn; ilia|done]). by destruct (H raw). Qed.

Lemma job_failure_cast_value f :
  (forall z, f <> JOB_FAILURE_OTHER z) ->
  in_u16 (job_failure_value f) /\ job_failure_cast (job_failure_value f) = f.
Proof. intros H. destruct f; try (split; [cbn; ilia|done]). by destruct (H raw). Qed.

Lemma job_wf_enums j :
  job_wf j -> (forall z, job_state j <> JOB_STATE_OTHER z) /\
    (forall z, failure j <> JOB_FAILURE_OTHER z).
Proof.
  intros Hwf. pose proof (wf_state j Hwf) as Hs. unfold job_state_wf, real_failure in Hs.
  split; intros z E; rewrite E in Hs; destruct (job_state j); naive_solver.
Qed.

Lemma drop_encode_job j rest :
  drop 84 (encode_job j ++ rest) =
  take (Z.to_nat (argument_size j)) (arguments j) ++
  take (Z.to_nat (result_size j)) (result j) ++ rest.
Proof. unfold encode_job. unfold_puts. rewrite <- !app_assoc. done. Qed.

Lemma decode_encode_job type j rest :
  job_typed j -> task_canonical j -> valid_job type j = true ->
  decode_job (Z.of_nat (length (encode_job j))) type (encode_job j ++ rest) = inr j.
Proof.
  intros Ht Hc Hv. pose proof Hv as [Hwf _]%valid_job_wf; try done.
  destruct (job_wf_times j Hwf) as (T1 & T2 & T3 & T4 & T5).
  destruct (job_wf_enums j Hwf) as [Hst Hf].
  destruct (job_state_cast_value _ Hst) as [S1 S2]. destruct (job_failure_cast_value _ Hf) as [F1 F2].
  pose proof (valid_task_type_value _ (wf_task j Hwf)) as Htask.
  pose proof (wf_argument_max j Hwf) as Ham. pose proof (wf_result_max j Hwf) as Hrm.
  rewrite (encode_job_length j Ht). unfold decode_job. cbn zeta.
  change (Z.to_nat FAULTLINE_WAL_JOB_PREFIX_SIZE) with 84%nat. rewrite drop_encode_job.
  destruct Ht as (? & ? & ? & ? & ? & ? & ? & ? & ? & ? & Ha & _ & Hr & _).
  unfold encode_job. unfold_puts. rewrite <- !app_assoc.
  autorewrite with be. rewrite !decode_time_u64, !u16_id, !u32_id by (done || wal_lia).
  destruct (_ || _ || _) eqn:E; [exfalso; repeat (apply orb_true_iff in E as [E|E]);
    split_bools; wal_lia|]. rewrite Z.eqb_refl, <- Hc, S2, F2. cbn [negb].
  assert (valid_job type
    (mk_job (job_id j) (task_type j) [] (argument_size j) (job_state j) (worker_id j) (attempt j)
       (retry_count j) (max_retries j) (created_at_ms j) (updated_at_ms j) (assigned_at_ms j)
       (started_at_ms j) (finished_at_ms j) [] (result_size j) (failure j)) = true) as ->
    by (destruct j; exact Hv).
  rewrite (take_app_length' (take _ (arguments j))), (drop_app_length' (take _ (arguments j))),
    (take_app_length' (take _ (result j))) by (rewrite length_take; lia).
  rewrite !take_ge by lia. by destruct j.
Qed.

(** ** Records *)

Lemma record_payload_bytes r : record_typed r -> bytes_ok (record_payload r).
Proof.
  intros [_ Ht]. unfold record_payload. destruct (allocated r); unfold_puts; auto with faultline.
  destruct Ht as [(_ & _ & _ & _ & _ & _ & _ & _ & _ & _ & _ & Ha & _ & Hr) _].
  unfold encode_job. unfold_puts. bytes_fields.
Qed.

Lemma record_head_bytes type sequence payload : bytes_ok (record_head type sequence payload).
Proof. unfold record_head. unfold_puts. bytes_fields. Qed.

Lemma record_head_length type sequence payload : length (record_head type sequence payload) = 28%nat.
Proof. reflexivity. Qed.

Lemma record_bytes_length r :
  length (record_bytes r) = (32 + length (record_payload r))%nat.
Proof. unfold record_bytes. rewrite !length_app, record_head_length. cbn [put_u32 be32 length]. lia. Qed.

(** The largest buffer is always large enough. *)
Lemma record_encode_max r :
  record_typed r -> record_ok r ->
  faultline_wal_record_encode FAULTLINE_WAL_MAX_RECORD_SIZE r = inr (record_bytes r).
Proof.
  intros Ht Ho. apply record_encode_ok; [done|]. split; [done|]. split; [|done].
  destruct (record_payload_size r Ht Ho) as (mn & mx & _ & ? & ? & ?).
  rewrite record_bytes_length. wal_lia.
Qed.

#[export] Hint Resolve record_payload_bytes record_head_bytes : faultline.

Lemma record_bytes_ok r : record_typed r -> bytes_ok (record_bytes r).
Proof. intros Hr. unfold record_bytes. unfold_puts. bytes_fields. Qed.

(** What the header decoder makes of any checksummed header followed by anything. *)
Lemma header_decode_head type sequence payload rest expected :
  (exists mn mx, payload_bounds type = inr (mn, mx) /\
     mn <= Z.of_nat (length payload) <= mx /\ mx <= 2132) ->
  bytes_ok payload -> in_u64 sequence -> expected <> 0 ->
  let head := record_head type sequence payload in
  faultline_wal_record_header_decode (head ++ put_u32 (crc32 head) ++ rest) expected =
  if sequence !=? expected then inl FAULTLINE_WAL_INVALID_SEQUENCE
  else inr (mk_wal_header type sequence (Z.of_nat (length payload)) (crc32 payload)).
Proof.
  intros (mn & mx & Hb & Hlen & Hmx) Hok Hseq Hexp head.
  unfold faultline_wal_record_header_decode.
  destruct (Z.eqb_spec expected 0); [done|].
  destruct (Z.ltb_spec (Z.of_nat (length (head ++ put_u32 (crc32 head) ++ rest)))
    FAULTLINE_WAL_RECORD_HEADER_SIZE) as [E|_].
  { rewrite length_app in E. change (length head) with 28%nat in E.
    rewrite length_app in E. cbn [put_u32 be32 length] in E. wal_lia. }
  change (drop 28 (head ++ put_u32 (crc32 head) ++ rest)) with (put_u32 (crc32 head) ++ rest).
  change (take 28 (head ++ put_u32 (crc32 head) ++ rest)) with head.
  assert (in_u32 (crc32 head)) by (apply crc32_range, record_head_bytes).
  assert (in_u32 (crc32 payload)) by auto with faultline.
  assert (in_u16 (wal_type_value type) /\ wal_type_cast (wal_type_value type) = type) as [Ht1 Ht2]
    by (destruct type; try done; split; try done; cbn; ilia).
  unfold get_u32 at 1. unfold put_u32 at 1. rewrite un_be32_be32 by done.
  rewrite Z.eqb_refl. cbn [negb]. subst head. unfold record_head. unfold_puts.
  rewrite <- !app_assoc. autorewrite with be.
  rewrite Ht2. rewrite !Z.eqb_refl. cbn [negb rh_type rh_payload_length rh_sequence].
  rewrite Hb. destruct (_ || _) eqn:E; [exfalso; apply orb_true_iff in E as [E|E]; ilia|].
  done.
Qed.

Lemma wal_type_known r :
  record_typed r -> record_ok r ->
  exists mn mx, payload_bounds (r_type r) = inr (mn, mx) /\
    mn <= Z.of_nat (length (record_payload r)) <= mx /\ mx <= 2132.
Proof.
  intros Ht Hok. destruct (record_payload_size r Ht Hok) as (mn & mx & ? & ? & ? & _). eauto 6.
Qed.

(** The payload checks of the decoder, on a payload that was encoded. *)
Lemma record_decode_bytes r rest expected :
  record_typed r -> record_ok r -> expected <> 0 ->
  faultline_wal_record_decode (record_bytes r ++ rest) expected =
  if r_sequence r !=? expected then inl FAULTLINE_WAL_INVALID_SEQUENCE
  else inr (r, Z.of_nat (length (record_bytes r))).
Proof.
  intros Ht Hok Hexp. unfold faultline_wal_record_decode, record_bytes. rewrite <- !app_assoc.
  rewrite header_decode_head; [|by apply wal_type_known|by apply record_payload_bytes|apply Ht|done].
  destruct (r_sequence r !=? expected); [done|].
  cbn [rh_payload_length rh_payload_crc32 rh_type rh_sequence].
  set (head := record_head _ _ _).
  change (drop (Z.to_nat FAULTLINE_WAL_RECORD_HEADER_SIZE) (head ++ put_u32 (crc32 head) ++
    record_payload r ++ rest)) with (record_payload r ++ rest).
  assert (Z.of_nat (length (head ++ put_u32 (crc32 head) ++ record_payload r ++ rest)) =
    32 + Z.of_nat (length (record_payload r)) + Z.of_nat (length rest)) as ->.
  { rewrite !length_app. change (length head) with 28%nat. cbn [put_u32 be32 length]. lia. }
  destruct (_ <? _) eqn:E; [wal_lia|]. clear E.
  rewrite Nat2Z.id, take_app_length, Z.eqb_refl. cbn [negb].
  assert (Z.of_nat (length (head ++ put_u32 (crc32 head) ++ record_payload r)) =
    FAULTLINE_WAL_RECORD_HEADER_SIZE + Z.of_nat (length (record_payload r))) as ->.
  { rewrite !length_app. change (length head) with 28%nat. cbn [put_u32 be32 length]. wal_lia. }
  destruct Ht as [_ Ht]. destruct Hok as [_ Hok]. unfold record_payload.
  fold (allocated r). destruct (allocated r) eqn:Ea.
  - destruct Ht as [Hw Hj]. unfold_puts. rewrite un_be32_be32 by done.
    destruct (Z.eqb_spec (r_worker_id r) 0); [done|]. destruct r; cbn in *. by subst.
  - destruct Ht as (Hj & Hc & Hw). rewrite decode_encode_job by done. destruct r; cbn in *. by subst.
Qed.

(** A record cut short is incomplete. *)
Lemma record_decode_prefix r k :
  record_typed r -> record_ok r -> (k < length (record_bytes r))%nat ->
  faultline_wal_record_decode (take k (record_bytes r)) (r_sequence r) =
  inl FAULTLINE_WAL_INCOMPLETE.
Proof.
  intros Ht Hok Hk. pose proof Hok as [Hseq _]. unfold faultline_wal_record_decode.
  rewrite record_bytes_length in Hk. destruct (decide (k < 32)%nat) as [Hlt|Hge].
  - unfold faultline_wal_record_header_decode. destruct (Z.eqb_spec (r_sequence r) 0); [done|].
    destruct (Z.ltb_spec (Z.of_nat (length (take k (record_bytes r))))
      FAULTLINE_WAL_RECORD_HEADER_SIZE) as [_|E]; [done|].
    rewrite length_take in E. wal_lia.
  - assert (take k (record_bytes r) =
      record_head (r_type r) (r_sequence r) (record_payload r) ++
      put_u32 (crc32 (record_head (r_type r) (r_sequence r) (record_payload r))) ++
      take (k - 32) (record_payload r)) as ->.
    { unfold record_bytes. rewrite take_app_ge by (rewrite record_head_length; lia).
      rewrite record_head_length, take_app_ge by (cbn [put_u32 be32 length]; lia).
      do 3 f_equal. cbn [put_u32 be32 length]. lia. }
    rewrite header_decode_head; [|by apply wal_type_known|by apply record_payload_bytes|apply Ht|done].
    rewrite Z.eqb_refl. cbn [negb rh_payload_length].
    rewrite !length_app, record_head_length, length_take. cbn [put_u32 be32 length].
    destruct (_ <? _) eqn:E; [done|wal_lia].
Qed.

(** A checksum field with a changed byte no longer matches. *)
Lemma be32_changed v k y rest :
  in_u32 v -> (k < 4)%nat -> in_u8 y -> be32 v !! k <> Some y ->
  un_be32 (<[k := y]> (be32 v) ++ rest) <> v.
Proof.
  intros Hv Hk Hy Hne E. apply Hne.
  assert (be32 (un_be32 (<[k := y]> (be32 v) ++ rest)) = <[k := y]> (be32 v)) as Hb.
  { assert (bytes_ok (<[k := y]> (be32 v))) as Hok.
    { apply Forall_insert; [apply be32_bytes_ok|done]. }
    destruct k as [|[|[|[|k]]]]; [..|lia]; cbn in *; split_bytes; by apply be32_un_be32. }
  rewrite E in Hb. rewrite Hb. apply list_lookup_insert_eq. cbn. lia.
Qed.

(** The header checksum is verified before anything else is read. *)
Lemma header_decode_damaged head rest k y expected :
  bytes_ok head -> length head = 28%nat -> (k < 32)%nat -> in_u8 y -> expected <> 0 ->
  (head ++ put_u32 (crc32 head) ++ rest) !! k <> Some y ->
  faultline_wal_record_header_decode (<[k := y]> (head ++ put_u32 (crc32 head) ++ rest)) expected =
  inl FAULTLINE_WAL_BAD_CHECKSUM.
Proof.
  intros Hhead Hhl Hk Hy Hexp Hne. pose proof (crc32_range head Hhead) as Hcrc.
  unfold faultline_wal_record_header_decode. destruct (Z.eqb_spec expected 0); [done|].
  destruct (Z.ltb_spec (Z.of_nat (length (<[k := y]> (head ++ put_u32 (crc32 head) ++ rest))))
    FAULTLINE_WAL_RECORD_HEADER_SIZE) as [E|_].
  { rewrite length_insert, !length_app, Hhl in E. cbn [put_u32 be32 length] in E. wal_lia. }
  enough (get_u32 (drop 28 (<[k := y]> (head ++ put_u32 (crc32 head) ++ rest)))
    <> crc32 (take 28 (<[k := y]> (head ++ put_u32 (crc32 head) ++ rest))))
    as Hd by (by rewrite (proj2 (Z.eqb_neq _ _) Hd)).
  unfold get_u32, put_u32 in *. destruct (decide (k < 28)%nat) as [Hlt'|Hge'].
  - rewrite insert_app_l by lia.
    rewrite drop_app_length', take_app_length' by (rewrite length_insert; lia).
    rewrite un_be32_be32 by done. rewrite lookup_app_l in Hne by lia.
    destruct (lookup_lt_is_Some_2 head k) as [x Hx]; [lia|].
    intros E. refine (crc32_insert head k x y Hhead Hx Hy _ (eq_sym E)).
    intros ->. by apply Hne.
  - rewrite insert_app_r_alt by lia. rewrite insert_app_l by (cbn; lia).
    rewrite drop_app_length', take_app_length' by lia.
    rewrite lookup_app_r, lookup_app_l in Hne by (rewrite ?Hhl; cbn; lia).
    apply be32_changed; try done; rewrite ?Hhl; lia.
Qed.

(** One changed byte anywhere in a record is always noticed. *)
Lemma record_decode_damaged r k y rest :
  record_typed r -> record_ok r -> (k < length (record_bytes r))%nat -> in_u8 y ->
  record_bytes r !! k <> Some y ->
  faultline_wal_record_decode (<[k := y]> (record_bytes r) ++ rest) (r_sequence r) =
  inl FAULTLINE_WAL_BAD_CHECKSUM.
Proof.
  intros Ht Hok Hk Hy Hne. pose proof Hok as [Hseq _].
  assert ((record_bytes r ++ rest) !! k <> Some y) as Hne' by (by rewrite lookup_app_l).
  rewrite <- insert_app_l by done. rewrite record_bytes_length in Hk. clear Hne.
  revert Hne'. unfold record_bytes. rewrite <- !app_assoc.
  set (head := record_head _ _ _). intros Hne.
  assert (length head = 28%nat) as Hhl by apply record_head_length.
  unfold faultline_wal_record_decode. destruct (decide (k < 32)%nat) as [Hlt|Hge].
  { rewrite header_decode_damaged; try done. apply record_head_bytes. }
  pose proof (record_payload_bytes r Ht) as Hpay.
  rewrite insert_app_r_alt by lia. rewrite insert_app_r_alt by (cbn; lia).
  rewrite lookup_app_r, lookup_app_r in Hne by (rewrite ?Hhl; cbn; lia).
  rewrite Hhl in *. cbn [put_u32 be32 length] in Hne |- *.
  set (i := (k - 28 - 4)%nat) in *. rewrite insert_app_l by lia. rewrite lookup_app_l in Hne by lia.
  unfold head at 1 2.
  rewrite header_decode_head; [|by apply wal_type_known|done|apply Ht|done].
  rewrite Z.eqb_refl. cbn [negb rh_payload_length rh_payload_crc32].
  destruct (_ <? _) eqn:E.
  { rewrite !length_app, length_insert, ?record_head_length, ?Hhl in E.
    cbn [put_u32 be32 length] in E. wal_lia. }
  change (drop (Z.to_nat FAULTLINE_WAL_RECORD_HEADER_SIZE) _)
    with (<[i := y]> (record_payload r) ++ rest).
  rewrite take_app_length' by (rewrite length_insert; lia).
  destruct (lookup_lt_is_Some_2 (record_payload r) i) as [x Hx]; [lia|].
  assert (crc32 (<[i := y]> (record_payload r)) <> crc32 (record_payload r)) as Hd.
  { refine (crc32_insert _ i x y Hpay Hx Hy _). intros ->. by apply Hne. }
  by rewrite (proj2 (Z.eqb_neq _ _) Hd).
Qed.

(** ** Accepted records are canonical *)

Lemma cast_task_value z : task_type_value (task_type_cast z) = z.
Proof. unfold task_type_cast. repeat case_match; simpl; lia. Qed.

Lemma cast_state_value z : job_state_value (job_state_cast z) = z.
Proof. unfold job_state_cast. repeat case_match; simpl; lia. Qed.

Lemma cast_failure_value z : job_failure_value (job_failure_cast z) = z.
Proof. unfold job_failure_cast. repeat case_match; simpl; lia. Qed.

Lemma cast_wal_value z : wal_type_value (wal_type_cast z) = z.
Proof. unfold wal_type_cast. repeat case_match; simpl; lia. Qed.

Lemma decode_time_inv bytes t :
  bytes_ok bytes -> (8 <= length bytes)%nat -> decode_time bytes = Some t ->
  put_u64 (u64 t) = take 8 bytes /\ in_i64 t.
Proof.
  intros Hok Hlen. unfold decode_time, FAULTLINE_JOB_TIME_UNSET. unfold_puts.
  pose proof (be64_read bytes Hok Hlen) as Hb. pose proof (un_be64_range bytes Hok Hlen) as Hr.
  destruct (Z.eqb_spec (un_be64 bytes) UINT64_MAX) as [E|_].
  - intros [= <-]. rewrite <- Hb, E. split; [reflexivity|ilia].
  - destruct (Z.leb_spec (un_be64 bytes) INT64_MAX); [|done]. intros [= <-].
    rewrite u64_id by done. split; [done|ilia].
Qed.

Ltac read_bytes := rewrite ?length_drop; auto with faultline; try lia.

Lemma decode_job_inv size type bytes j :
  bytes_ok bytes -> 84 <= size <= Z.of_nat (length bytes) ->
  decode_job size type bytes = inr j ->
  job_typed j /\ task_canonical j /\ valid_job type j = true /\
  encode_job j = take (Z.to_nat size) bytes.
Proof.
  intros Hok Hsize. unfold decode_job. cbn zeta.
  assert (in_u32 (get_u32 (drop 76 bytes))) as Ha by (apply un_be32_read_range; read_bytes).
  assert (in_u32 (get_u32 (drop 80 bytes))) as Hr by (apply un_be32_read_range; read_bytes).
  destruct (_ || _ || _) eqn:E1; [done|]. destruct (get_u16 (drop 74 bytes) !=? 0) eqn:E2; [done|].
  split_bools. reflect_bools.
  destruct (decode_time (drop 32 bytes)) as [t1|] eqn:T1; [|done].
  destruct (decode_time (drop 40 bytes)) as [t2|] eqn:T2; [|done].
  destruct (decode_time (drop 48 bytes)) as [t3|] eqn:T3; [|done].
  destruct (decode_time (drop 56 bytes)) as [t4|] eqn:T4; [|done].
  destruct (decode_time (drop 64 bytes)) as [t5|] eqn:T5; [|done].
  apply decode_time_inv in T1 as [P1 ?], T2 as [P2 ?], T3 as [P3 ?], T4 as [P4 ?], T5 as [P5 ?];
    try (by read_bytes).
  destruct (valid_job type _) eqn:Hv; cbn [negb]; [|done]. intros [= <-].
  change (Z.to_nat FAULTLINE_WAL_JOB_PREFIX_SIZE) with 84%nat.
  split; [|split; [|split]].
  - unfold job_typed. cbn [job_id worker_id attempt retry_count max_retries created_at_ms
      updated_at_ms assigned_at_ms started_at_ms finished_at_ms argument_size arguments
      result_size result]. unfold_puts.
    split_and?; try assumption;
      match goal with
      | |- in_u32 _ => apply un_be32_read_range; read_bytes
      | |- in_u64 _ => apply un_be64_range; read_bytes
      | |- bytes_ok _ => auto 6 with faultline
      | |- _ => rewrite length_take, ?length_drop; wal_lia
      end.
  - unfold task_canonical. cbn [task_type]. by rewrite cast_task_value.
  - exact Hv.
  - unfold encode_job. cbn [job_id worker_id attempt retry_count max_retries created_at_ms
      updated_at_ms assigned_at_ms started_at_ms finished_at_ms argument_size arguments
      result_size result task_type job_state failure].
    rewrite P1, P2, P3, P4, P5, cast_task_value, cast_state_value, cast_failure_value.
    assert (put_u16 0 = take 2 (drop 74 bytes)) as ->.
    { unfold_puts. rewrite <- be16_read by read_bytes. congruence. }
    rewrite !u32_id by done. unfold_puts. rewrite !u16_id by apply un_be16_range.
    rewrite ?be64_read, ?be32_read, ?be16_read by read_bytes.
    rewrite !take_take, !Nat.min_id, drop_drop.
    rewrite !slices_join by wal_lia. rewrite take_take_drop. f_equal. wal_lia.
Qed.

Lemma wal_header_decode_inv wire expected h :
  bytes_ok wire -> faultline_wal_record_header_decode wire expected = inr h ->
  (32 <= length wire)%nat /\ expected <> 0 /\ rh_sequence h = expected /\
  in_u64 (rh_sequence h) /\ in_u32 (rh_payload_crc32 h) /\
  (exists mn mx, payload_bounds (rh_type h) = inr (mn, mx) /\
    mn <= rh_payload_length h <= mx /\ 4 <= mn /\ mx <= 2132 /\
    (rh_type h <> FAULTLINE_WAL_WORKER_ID_ALLOCATED -> mn = 84) /\
    (rh_type h = FAULTLINE_WAL_WORKER_ID_ALLOCATED -> mn = 4 /\ mx = 4)) /\
  forall payload, Z.of_nat (length payload) = rh_payload_length h ->
    crc32 payload = rh_payload_crc32 h ->
    let head := record_head (rh_type h) (rh_sequence h) payload in
    take 28 wire = head /\ take 4 (drop 28 wire) = put_u32 (crc32 head).
Proof.
  intros Hok. unfold faultline_wal_record_header_decode.
  destruct (Z.eqb_spec expected 0); [done|].
  destruct (Z.ltb_spec (Z.of_nat (length wire)) FAULTLINE_WAL_RECORD_HEADER_SIZE) as [|E]; [done|].
  assert (32 <= length wire)%nat as Hlen by wal_lia. clear E.
  destruct (_ !=? crc32 _) eqn:Ec; [done|]. destruct (_ !=? FAULTLINE_WAL_RECORD_MAGIC) eqn:Em; [done|].
  destruct (_ !=? FAULTLINE_WAL_VERSION) eqn:Ev; [done|]. destruct (_ !=? 0) eqn:Ez; [done|].
  cbn zeta. cbn [rh_type rh_payload_length rh_sequence].
  destruct (payload_bounds _) as [|[mn mx]] eqn:Hb; [done|].
  destruct (_ || _) eqn:El; [done|]. destruct (_ !=? expected) eqn:Es; [done|].
  split_bools. reflect_bools. intros [= <-]. cbn [rh_type rh_payload_length rh_sequence rh_payload_crc32].
  split_and!; try done.
  - apply un_be64_range; read_bytes.
  - apply un_be32_read_range; read_bytes.
  - exists mn, mx. rewrite Hb. split; [done|]. split; [lia|].
    destruct (wal_type_cast _); try done; injection Hb as <- <-; split_and!; try wal_lia; try done;
      intros; done.
  - intros payload Hp Hcrc.
    assert (take 28 wire = record_head (wal_type_cast (get_u16 (drop 6 wire))) (get_u64 (drop 16 wire))
      payload) as Hh.
    { unfold record_head. rewrite Hp, Hcrc, cast_wal_value. unfold_puts.
      rewrite <- Em, <- Ev, <- Ez. rewrite ?be64_read, ?be32_read, ?be16_read by read_bytes.
      rewrite !slices_join by lia. by rewrite take_take_drop. }
    split; [done|]. rewrite <- Hh, <- Ec. unfold_puts. by rewrite be32_read by read_bytes.
Qed.

(** The record, its size and its bytes, when the decoder accepts. *)
Lemma record_decode_inv wire expected r n :
  bytes_ok wire -> faultline_wal_record_decode wire expected = inr (r, n) ->
  record_typed r /\ record_ok r /\ r_sequence r = expected /\
  n = Z.of_nat (length (record_bytes r)) /\ n <= Z.of_nat (length wire) /\
  take (Z.to_nat n) wire = record_bytes r.
Proof.
  intros Hok. unfold faultline_wal_record_decode.
  destruct (faultline_wal_record_header_decode wire expected) as [|h] eqn:Hh; [done|].
  apply wal_header_decode_inv in Hh as (Hlen & Hexp & Hseq & Hs64 & _ & (mn & mx & _ & Hl & Hmn & Hmx & Hjob & Halloc) & Hhead);
    [|done].
  destruct (Z.ltb_spec (Z.of_nat (length wire))
    (FAULTLINE_WAL_RECORD_HEADER_SIZE + rh_payload_length h)) as [|Hav]; [done|].
  change (Z.to_nat FAULTLINE_WAL_RECORD_HEADER_SIZE) with 32%nat.
  set (payload := take (Z.to_nat (rh_payload_length h)) (drop 32 wire)).
  destruct (crc32 payload !=? rh_payload_crc32 h) eqn:Ec; [done|]. split_bools. reflect_bools.
  assert (Z.of_nat (length payload) = rh_payload_length h) as Hpl
    by (unfold payload; rewrite length_take, length_drop; wal_lia).
  destruct (Hhead payload Hpl Ec) as [H28 Hcrc].
  assert (forall r, r_type r = rh_type h -> r_sequence r = rh_sequence h ->
    record_payload r = payload -> record_typed r -> record_ok r ->
    let n := FAULTLINE_WAL_RECORD_HEADER_SIZE + rh_payload_length h in
    record_typed r /\ record_ok r /\ r_sequence r = expected /\
    n = Z.of_nat (length (record_bytes r)) /\ n <= Z.of_nat (length wire) /\
    take (Z.to_nat n) wire = record_bytes r) as Hfin.
  { intros r' Hty Hsq Hpay Ht Ho. cbn zeta. rewrite record_bytes_length, Hpay.
    split_and!; [done|done|congruence|wal_lia|lia|].
    unfold record_bytes. rewrite Hty, Hsq, Hpay, <- Hcrc, <- H28. unfold payload.
    rewrite slices_join, take_take_drop by lia. f_equal. wal_lia. }
  assert (length (drop 32 wire) = (length wire - 32)%nat) as Hd by apply length_drop.
  assert (bytes_ok (drop 32 wire)) as Hdok by auto with faultline.
  assert (rh_sequence h <> 0) as Hs0 by congruence.
  clear Hhead H28 Hcrc Hseq Hexp.
  case_bool_decide as Hty.
  - destruct (Halloc Hty) as [-> ->].
    destruct (Z.eqb_spec (get_u32 (drop 32 wire)) 0) as [|Hw]; [done|]. intros [= <- <-].
    apply Hfin; unfold record_payload, record_typed, record_ok, allocated;
      cbn [r_type r_sequence r_worker_id r_job]; try done;
      rewrite bool_decide_eq_true_2 by done; try done.
    + unfold_puts. rewrite be32_read by (done || wal_lia). unfold payload. f_equal. lia.
    + split; [done|]. split; [|done]. apply un_be32_read_range; [done|wal_lia].
  - destruct (decode_job _ _ _) as [|j] eqn:Hj; [done|]. intros [= <- <-].
    pose proof (Hjob Hty). apply decode_job_inv in Hj as (Ht & Hc & Hv & He); [|done|wal_lia..].
    apply Hfin; unfold record_payload, record_typed, record_ok, allocated;
      cbn [r_type r_sequence r_worker_id r_job]; try done;
      rewrite bool_decide_eq_false_2 by done; try done.
Qed.

(** ** The file header *)

Definition file_header : list Z :=
  let wire := file_magic ++ put_u16 FAULTLINE_WAL_VERSION ++
              put_u16 FAULTLINE_WAL_FILE_HEADER_SIZE ++ put_u32 0 ++ put_u32 0 in
  wire ++ put_u32 (crc32 wire).

Lemma file_header_encode_ok capacity :
  faultline_wal_file_header_encode capacity =
  if capacity <? 24 then inl FAULTLINE_WAL_BUFFER_TOO_SMALL else inr file_header.
Proof. done. Qed.

Lemma file_header_length : length file_header = 24%nat.
Proof. done. Qed.

Lemma file_header_bytes : bytes_ok file_header.
Proof. vm_compute. repeat constructor; done. Qed.

Lemma file_header_decode_ok rest :
  faultline_wal_file_header_decode (file_header ++ rest) = FAULTLINE_WAL_OK.
Proof.
  unfold faultline_wal_file_header_decode.
  destruct (Z.ltb_spec (Z.of_nat (length (file_header ++ rest))) FAULTLINE_WAL_FILE_HEADER_SIZE) as [H|H].
  - rewrite length_app, file_header_length in H. wal_lia.
  - clear H. vm_compute. done.
Qed.

(** The only accepted header is the one the encoder writes. *)
Lemma file_header_decode_inv wire :
  bytes_ok wire -> faultline_wal_file_header_decode wire = FAULTLINE_WAL_OK ->
  take 24 wire = file_header.
Proof.
  intros Hok. unfold faultline_wal_file_header_decode.
  destruct (Z.ltb_spec (Z.of_nat (length wire)) FAULTLINE_WAL_FILE_HEADER_SIZE) as [|E]; [done|].
  assert (24 <= length wire)%nat as Hlen by wal_lia. clear E.
  destruct (_ !=? crc32 _) eqn:Ec; [done|]. destruct (negb (bool_decide _)) eqn:Em; [done|].
  destruct (_ !=? FAULTLINE_WAL_VERSION) eqn:Ev; [done|]. destruct (_ || _) eqn:Ez; [done|].
  intros _. split_bools. reflect_bools. prop_bools.
  assert (take 20 wire = file_magic ++ put_u16 FAULTLINE_WAL_VERSION ++
    put_u16 FAULTLINE_WAL_FILE_HEADER_SIZE ++ put_u32 0 ++ put_u32 0) as H20.
  { rewrite <- Em, <- Ev, <- H. rewrite <- H0 at 2. rewrite <- H1. unfold_puts.
    rewrite ?be32_read, ?be16_read by read_bytes. rewrite !slices_join by lia.
    by rewrite take_take_drop. }
  unfold file_header. cbn zeta. rewrite <- H20, <- Ec. unfold_puts.
  rewrite be32_read by read_bytes. by rewrite take_take_drop.
Qed.

(** ** The decoders look no further than the record *)

Lemma un_be16_app l t : (2 <= length l)%nat -> un_be16 (l ++ t) = un_be16 l.
Proof. destruct l as [|? [|? l]]; simpl; try lia. done. Qed.

Lemma un_be32_app l t : (4 <= length l)%nat -> un_be32 (l ++ t) = un_be32 l.
Proof. destruct l as [|? [|? [|? [|? l]]]]; simpl; try lia. done. Qed.

Lemma get_u16_app l t k : (k + 2 <= length l)%nat -> get_u16 (drop k (l ++ t)) = get_u16 (drop k l).
Proof. intros. rewrite drop_app_le by lia. apply un_be16_app. rewrite length_drop. lia. Qed.

Lemma get_u32_app l t k : (k + 4 <= length l)%nat -> get_u32 (drop k (l ++ t)) = get_u32 (drop k l).
Proof. intros. rewrite drop_app_le by lia. apply un_be32_app. rewrite length_drop. lia. Qed.

Lemma get_u64_app l t k : (k + 8 <= length l)%nat -> get_u64 (drop k (l ++ t)) = get_u64 (drop k l).
Proof.
  intros. unfold get_u64, un_be64. rewrite !drop_app_le by (rewrite ?length_drop; lia).
  rewrite !un_be32_app by (rewrite ?length_drop; lia). done.
Qed.

Lemma header_decode_app l t expected :
  (32 <= length l)%nat ->
  faultline_wal_record_header_decode (l ++ t) expected = faultline_wal_record_header_decode l expected.
Proof.
  intros Hl. unfold faultline_wal_record_header_decode. destruct (expected =? 0); [done|].
  rewrite length_app.
  destruct (Z.ltb_spec (Z.of_nat (length l)) FAULTLINE_WAL_RECORD_HEADER_SIZE) as [|_]; [wal_lia|].
  destruct (Z.ltb_spec (Z.of_nat (length l + length t)) FAULTLINE_WAL_RECORD_HEADER_SIZE) as [|_];
    [wal_lia|].
  rewrite take_app_le by lia. rewrite !get_u32_app, !get_u16_app, !get_u64_app by lia.
  unfold get_u32 at 2. rewrite un_be32_app by lia. done.
Qed.

(** A whole header is never called incomplete. *)
Lemma header_not_incomplete l expected e :
  (32 <= length l)%nat -> faultline_wal_record_header_decode l expected = inl e ->
  e <> FAULTLINE_WAL_INCOMPLETE.
Proof.
  intros Hl. unfold faultline_wal_record_header_decode. destruct (expected =? 0); [congruence|].
  destruct (Z.ltb_spec (Z.of_nat (length l)) FAULTLINE_WAL_RECORD_HEADER_SIZE) as [|_]; [wal_lia|].
  repeat (destruct (_ !=? _); [congruence|]). cbn zeta. cbn [rh_type].
  destruct (payload_bounds _) as [e'|[mn mx]] eqn:Hb.
  - intros [= <-]. unfold payload_bounds in Hb. destruct (wal_type_cast _); congruence.
  - destruct (_ || _); [congruence|]. destruct (_ !=? _); congruence.
Qed.

(** Nor is a whole record. *)
Lemma record_not_incomplete l expected h e :
  faultline_wal_record_header_decode l expected = inr h ->
  FAULTLINE_WAL_RECORD_HEADER_SIZE + rh_payload_length h <= Z.of_nat (length l) ->
  faultline_wal_record_decode l expected = inl e -> e <> FAULTLINE_WAL_INCOMPLETE.
Proof.
  intros Hh Hl. unfold faultline_wal_record_decode. rewrite Hh.
  destruct (Z.ltb_spec (Z.of_nat (length l))
    (FAULTLINE_WAL_RECORD_HEADER_SIZE + rh_payload_length h)) as [|_]; [lia|].
  destruct (crc32 _ !=? _); [congruence|]. case_bool_decide.
  - destruct (get_u32 _ =? 0); congruence.
  - unfold decode_job. repeat case_match; simplify_eq; congruence.
Qed.

Lemma record_decode_size l expected h r n :
  faultline_wal_record_header_decode l expected = inr h ->
  faultline_wal_record_decode l expected = inr (r, n) ->
  n = FAULTLINE_WAL_RECORD_HEADER_SIZE + rh_payload_length h.
Proof.
  intros Hh. unfold faultline_wal_record_decode. rewrite Hh. destruct (_ <? _); [done|].
  destruct (crc32 _ !=? _); [done|]. case_bool_decide.
  - destruct (get_u32 _ =? 0); congruence.
  - destruct (decode_job _ _ _); congruence.
Qed.

Lemma decode_job_app size type l t :
  bytes_ok l -> 84 <= size <= Z.of_nat (length l) ->
  decode_job size type (l ++ t) = decode_job size type l.
Proof.
  intros Hok Hs. unfold decode_job, decode_time. cbn zeta.
  change (get_u64 (l ++ t)) with (get_u64 (drop 0 (l ++ t))).
  rewrite !get_u32_app, !get_u16_app, !get_u64_app by lia. rewrite drop_0.
  destruct (_ || _ || _) eqn:E; [done|]. split_bools. reflect_bools.
  assert (in_u32 (get_u32 (drop 76 l))) as Ha by (apply un_be32_read_range; read_bytes).
  assert (in_u32 (get_u32 (drop 80 l))) as Hr by (apply un_be32_read_range; read_bytes).
  rewrite (drop_app_le _ _ (Z.to_nat FAULTLINE_WAL_JOB_PREFIX_SIZE)) by wal_lia.
  assert (length (drop (Z.to_nat FAULTLINE_WAL_JOB_PREFIX_SIZE) l) = (length l - 84)%nat) as Hd
    by (apply length_drop).
  set (data := drop (Z.to_nat FAULTLINE_WAL_JOB_PREFIX_SIZE) l) in *.
  set (args := get_u32 (drop 76 l)) in *. set (results := get_u32 (drop 80 l)) in *.
  rewrite (take_app_le data t) by wal_lia. rewrite (drop_app_le data t) by wal_lia.
  rewrite (take_app_le (drop _ data) t) by (rewrite length_drop; wal_lia). done.
Qed.

(** The decoder reads the record and nothing behind it. *)
Lemma record_decode_app l t expected h :
  bytes_ok l -> faultline_wal_record_header_decode l expected = inr h ->
  FAULTLINE_WAL_RECORD_HEADER_SIZE + rh_payload_length h <= Z.of_nat (length l) ->
  faultline_wal_record_decode (l ++ t) expected = faultline_wal_record_decode l expected.
Proof.
  intros Hok Hh Hl. pose proof Hh as (Hlen & _ & _ & _ & _ & (mn & mx & _ & Hb & Hmn & _ & Hjob & _) & _)%wal_header_decode_inv;
    [|done].
  unfold faultline_wal_record_decode. rewrite header_decode_app, Hh by done. rewrite length_app.
  destruct (Z.ltb_spec (Z.of_nat (length l))
    (FAULTLINE_WAL_RECORD_HEADER_SIZE + rh_payload_length h)) as [|_]; [lia|].
  destruct (Z.ltb_spec (Z.of_nat (length l + length t))
    (FAULTLINE_WAL_RECORD_HEADER_SIZE + rh_payload_length h)) as [|_]; [lia|].
  change (Z.to_nat FAULTLINE_WAL_RECORD_HEADER_SIZE) with 32%nat.
  rewrite drop_app_le by lia.
  assert (length (drop 32 l) = (length l - 32)%nat) as Hd by apply length_drop.
  rewrite take_app_le by wal_lia. destruct (crc32 _ !=? _); [done|].
  case_bool_decide as Hty.
  - unfold get_u32. rewrite un_be32_app by wal_lia. done.
  - specialize (Hjob Hty). rewrite decode_job_app; [done|auto with faultline|wal_lia].
Qed.

(** ** Properties of the log format *)

(** C27: Whatever record the encoder accepts, the decoder reads back exactly, whatever follows it in
    the log, reporting the number of bytes that were written; the encoded size is at most the
    largest record size. *)
Theorem record_round_trip capacity r wire rest :
  record_typed r -> faultline_wal_record_encode capacity r = inr wire ->
  faultline_wal_record_decode (wire ++ rest) (r_sequence r) = inr (r, Z.of_nat (length wire)) /\
  FAULTLINE_WAL_RECORD_HEADER_SIZE <= Z.of_nat (length wire) <= FAULTLINE_WAL_MAX_RECORD_SIZE.
Proof.
  intros Ht He. apply record_encode_ok in He as (Hok & _ & ->); [|done]. split.
  - rewrite record_decode_bytes by (try done; apply Hok). by rewrite Z.eqb_refl.
  - rewrite record_bytes_length.
    destruct (record_payload_size r Ht Hok) as (mn & mx & _ & ? & ? & ?). wal_lia.
Qed.

Definition sample_record : faultline_wal_record :=
  mk_wal_record FAULTLINE_WAL_JOB_CREATED 3 0 sample_job.

Lemma sample_record_typed : record_typed sample_record.
Proof.
  split; [done|]. vm_compute. split_and!; try done; repeat constructor; done.
Qed.

Lemma record_round_trip_witness :
  exists wire, faultline_wal_record_encode 4096 sample_record = inr wire /\
    faultline_wal_record_decode (wire ++ [1; 2; 3]) (r_sequence sample_record) =
      inr (sample_record, Z.of_nat (length wire)) /\
    FAULTLINE_WAL_RECORD_HEADER_SIZE <= Z.of_nat (length wire) <= FAULTLINE_WAL_MAX_RECORD_SIZE.
Proof.
  eexists. split; [vm_compute; reflexivity|].
  refine (record_round_trip 4096 sample_record _ [1; 2; 3] sample_record_typed _).
  vm_compute. reflexivity.
Defined.

(** The decoder accepts no other spelling: what it accepts at a given position is a record the
    encoder would also accept, the expected sequence number is in it, and the bytes read are
    exactly those the encoder writes for it. *)
Theorem record_decode_canonical wire expected r n :
  bytes_ok wire -> faultline_wal_record_decode wire expected = inr (r, n) ->
  r_sequence r = expected /\
  faultline_wal_record_encode FAULTLINE_WAL_MAX_RECORD_SIZE r = inr (take (Z.to_nat n) wire).
Proof.
  intros Hok Hd. apply record_decode_inv in Hd as (Ht & Ho & Hs & Hn & Hl & ->); [|done].
  split; [done|]. by apply record_encode_max.
Qed.

Lemma record_decode_canonical_witness :
  let wire := record_bytes sample_record ++ [9] in
  exists n, r_sequence sample_record = 3 /\
    faultline_wal_record_encode FAULTLINE_WAL_MAX_RECORD_SIZE sample_record =
      inr (take (Z.to_nat n) wire).
Proof.
  exists 117. refine (record_decode_canonical (record_bytes sample_record ++ [9]) 3 sample_record 117 _ _).
  - apply Forall_app_2; [apply record_bytes_ok, sample_record_typed|by apply Forall_singleton].
  - vm_compute. reflexivity.
Defined.

(** A log that ends inside a record reads as incomplete, never as corrupt and never as some
    other record: this is what lets recovery tell a torn final write from damage. *)
Theorem record_torn r k wire :
  record_typed r -> faultline_wal_record_encode FAULTLINE_WAL_MAX_RECORD_SIZE r = inr wire ->
  (k < length wire)%nat ->
  faultline_wal_record_decode (take k wire) (r_sequence r) = inl FAULTLINE_WAL_INCOMPLETE.
Proof.
  intros Ht He. apply record_encode_ok in He as (Hok & _ & ->); [|done].
  by apply record_decode_prefix.
Qed.

Lemma record_torn_witness :
  exists wire, faultline_wal_record_encode FAULTLINE_WAL_MAX_RECORD_SIZE sample_record = inr wire /\
    faultline_wal_record_decode (take 116 wire) (r_sequence sample_record) =
      inl FAULTLINE_WAL_INCOMPLETE.
Proof.
  eexists. split; [vm_compute; reflexivity|].
  refine (record_torn sample_record 116 _ sample_record_typed _ _); [vm_compute; reflexivity|].
  cbn. lia.
Defined.

(** C20: Whatever single byte of a logged record is changed to whatever other value, the decoder
    reports a checksum error. *)
Theorem record_damaged r wire k y rest :
  record_typed r -> faultline_wal_record_encode FAULTLINE_WAL_MAX_RECORD_SIZE r = inr wire ->
  (k < length wire)%nat -> in_u8 y -> wire !! k <> Some y ->
  faultline_wal_record_decode (<[k := y]> wire ++ rest) (r_sequence r) =
  inl FAULTLINE_WAL_BAD_CHECKSUM.
Proof.
  intros Ht He. apply record_encode_ok in He as (Hok & _ & ->); [|done].
  by apply record_decode_damaged.
Qed.

Lemma record_damaged_witness :
  exists wire, faultline_wal_record_encode FAULTLINE_WAL_MAX_RECORD_SIZE sample_record = inr wire /\
    faultline_wal_record_decode (<[40%nat := 255]> wire ++ [7]) (r_sequence sample_record) =
      inl FAULTLINE_WAL_BAD_CHECKSUM.
Proof.
  eexists. split; [vm_compute; reflexivity|].
  refine (record_damaged sample_record _ 40 255 [7] sample_record_typed _ _ _ _);
    [vm_compute; reflexivity|cbn; lia|done|done].
Defined.

(** The log's own check of a snapshot is the job state machine's well-formedness: a job is
    accepted under a record type exactly when it is well formed and the type is the one of its
    state. *)
Theorem valid_job_exact type j :
  job_typed j -> task_canonical j ->
  valid_job type j = true <-> job_wf j /\ type = snapshot_type j.
Proof. apply valid_job_wf. Qed.

Lemma valid_job_exact_witness :
  valid_job FAULTLINE_WAL_JOB_CREATED sample_job = true <->
  job_wf sample_job /\ FAULTLINE_WAL_JOB_CREATED = snapshot_type sample_job.
Proof.
  refine (valid_job_exact FAULTLINE_WAL_JOB_CREATED sample_job _ _); [|done].
  apply sample_record_typed.
Defined.
