(* ===== verification/WalWriter.v ===== *)
(** The log writer: [include/wal_writer.h], [src/coordinator/wal_writer_internal.h],
    [src/coordinator/wal_writer.c].

    The operating system is a parameter: [wal_os] is the table of I/O functions of
    [wal_writer_internal.h] together with the calls the writer and the replayer make
    directly ([open], [openat], [fstat] and the allocator), each a function of an
    abstract world [W]. A call returns its value or the [errno] of a negative return.
    The functions of the writer return their result code, the handle and the world.

    The code retries interrupted calls without limit. Here each loop runs on fuel that
    the world provides ([os_interrupts] bounds the interruptions still to come,
    [os_unread] the bytes still to be read); [OsFinite] states that these are bounds,
    and under it the loops are shown to satisfy the equations of the source loops. *)

From stdpp Require Import strings.
From S2P Require Import Prelude Wal.

(** ** Types *)

Inductive faultline_wal_writer_state :=
| FAULTLINE_WAL_WRITER_CLOSED
| FAULTLINE_WAL_WRITER_READY
| FAULTLINE_WAL_WRITER_FAILED
| FAULTLINE_WAL_WRITER_RECOVERING.

Inductive faultline_wal_writer_result :=
| FAULTLINE_WAL_WRITE_OK
| FAULTLINE_WAL_WRITE_INVALID_ARGUMENT
| FAULTLINE_WAL_WRITE_INVALID_STATE
| FAULTLINE_WAL_WRITE_INVALID_RECORD
| FAULTLINE_WAL_WRITE_SEQUENCE_EXHAUSTED
| FAULTLINE_WAL_WRITE_IO_ERROR.

Inductive faultline_wal_writer_operation :=
| FAULTLINE_WAL_IO_NONE
| FAULTLINE_WAL_IO_ALLOCATE_PATH
| FAULTLINE_WAL_IO_OPEN_DIRECTORY
| FAULTLINE_WAL_IO_CREATE_FILE
| FAULTLINE_WAL_IO_LOCK
| FAULTLINE_WAL_IO_WRITE_HEADER
| FAULTLINE_WAL_IO_SYNC_HEADER
| FAULTLINE_WAL_IO_SYNC_DIRECTORY
| FAULTLINE_WAL_IO_WRITE_RECORD
| FAULTLINE_WAL_IO_SYNC_RECORD
| FAULTLINE_WAL_IO_CLOSE_FILE
| FAULTLINE_WAL_IO_CLOSE_DIRECTORY
| FAULTLINE_WAL_IO_OPEN_EXISTING
| FAULTLINE_WAL_IO_STAT_FILE
| FAULTLINE_WAL_IO_READ_FILE
| FAULTLINE_WAL_IO_ALLOCATE_REPLAY
| FAULTLINE_WAL_IO_VALIDATE_REPLAY
| FAULTLINE_WAL_IO_TRUNCATE_TAIL
| FAULTLINE_WAL_IO_SYNC_RECOVERY
| WAL_IO_OTHER (raw : Z).

#[export] Instance faultline_wal_writer_state_eq_dec : EqDecision faultline_wal_writer_state.
Proof. solve_decision. Defined.
#[export] Instance faultline_wal_writer_result_eq_dec : EqDecision faultline_wal_writer_result.
Proof. solve_decision. Defined.
#[export] Instance faultline_wal_writer_operation_eq_dec :
  EqDecision faultline_wal_writer_operation.
Proof. solve_decision. Defined.

(** [io_set] says that the pointer [io] is not NULL. *)
Record faultline_wal_writer := mk_wal_writer {
  fd : Z;
  directory_fd : Z;
  writer_state : faultline_wal_writer_state;
  next_sequence : Z;
  synced_sequence : Z;
  system_error : Z;
  failed_operation : faultline_wal_writer_operation;
  io_set : bool;
}.

#[export] Instance set_fd : Setter fd := fun v w =>
  mk_wal_writer v (directory_fd w) (writer_state w) (next_sequence w) (synced_sequence w)
    (system_error w) (failed_operation w) (io_set w).
#[export] Instance set_directory_fd : Setter directory_fd := fun v w =>
  mk_wal_writer (fd w) v (writer_state w) (next_sequence w) (synced_sequence w) (system_error w)
    (failed_operation w) (io_set w).
#[export] Instance set_writer_state : Setter writer_state := fun v w =>
  mk_wal_writer (fd w) (directory_fd w) v (next_sequence w) (synced_sequence w) (system_error w)
    (failed_operation w) (io_set w).
#[export] Instance set_next_sequence : Setter next_sequence := fun v w =>
  mk_wal_writer (fd w) (directory_fd w) (writer_state w) v (synced_sequence w) (system_error w)
    (failed_operation w) (io_set w).
#[export] Instance set_synced_sequence : Setter synced_sequence := fun v w =>
  mk_wal_writer (fd w) (directory_fd w) (writer_state w) (next_sequence w) v (system_error w)
    (failed_operation w) (io_set w).
#[export] Instance set_system_error : Setter system_error := fun v w =>
  mk_wal_writer (fd w) (directory_fd w) (writer_state w) (next_sequence w) (synced_sequence w) v
    (failed_operation w) (io_set w).
#[export] Instance set_failed_operation : Setter failed_operation := fun v w =>
  mk_wal_writer (fd w) (directory_fd w) (writer_state w) (next_sequence w) (synced_sequence w)
    (system_error w) v (io_set w).
#[export] Instance set_io_set : Setter io_set := fun v w =>
  mk_wal_writer (fd w) (directory_fd w) (writer_state w) (next_sequence w) (synced_sequence w)
    (system_error w) (failed_operation w) v.

Definition FAULTLINE_WAL_WRITER_INIT : faultline_wal_writer :=
  mk_wal_writer (-1) (-1) FAULTLINE_WAL_WRITER_CLOSED 0 0 0 FAULTLINE_WAL_IO_NONE false.

(** ** The operating system *)

Definition EINTR : Z := 4.
Definition EIO : Z := 5.
Definition ENOMEM : Z := 12.
Definition EINVAL : Z := 22.
Definition EOVERFLOW : Z := 75.
Definition EILSEQ : Z := 84.

Inductive os_result (A : Type) :=
| OsOk (value : A)
| OsErr (errno : Z).
Arguments OsOk {A} value.
Arguments OsErr {A} errno.

(** A call, as a function of the world. *)
Definition os_call (W A : Type) : Type := W -> os_result A * W.

Record wal_os (W : Type) := mk_wal_os {
  os_alloc : W -> bool * W;                             (* strdup, malloc, calloc, realloc *)
  os_open : list Z -> os_call W Z;                      (* open of the directory *)
  os_openat : Z -> list Z -> bool -> os_call W Z;       (* directory, name, create *)
  os_fstat : Z -> os_call W bool;                       (* is it a regular file *)
  io_lock : Z -> os_call W unit;
  io_write : Z -> list Z -> os_call W Z;
  io_sync : Z -> os_call W unit;
  io_close : Z -> os_call W unit;
  io_read : Z -> Z -> os_call W (list Z);               (* the bytes stored in the buffer *)
  io_truncate : Z -> Z -> os_call W unit;
  os_interrupts : W -> nat;
  os_unread : W -> nat;
}.
Arguments os_alloc {W} w _ : rename.
Arguments os_open {W} w _ _ : rename.
Arguments os_openat {W} w _ _ _ _ : rename.
Arguments os_fstat {W} w _ _ : rename.
Arguments io_lock {W} w _ _ : rename.
Arguments io_write {W} w _ _ _ : rename.
Arguments io_sync {W} w _ _ : rename.
Arguments io_close {W} w _ _ : rename.
Arguments io_read {W} w _ _ _ : rename.
Arguments io_truncate {W} w _ _ _ : rename.
Arguments os_interrupts {W} w _ : rename.
Arguments os_unread {W} w _ : rename.

(** ** Paths *)

Definition slash : Z := 47.

(** The last byte is a slash, for a nonempty path. *)
Definition ends_in_slash (path : list Z) : bool :=
  match last path with Some c => c =? slash | None => false end.

(** The directory to open and the name in it, from the last slash ([strrchr]). *)
Definition split_path (path : list Z) : list Z * list Z :=
  let after := first_index (fun c => c =? slash) (reverse path) in
  if (after =? length path)%nat then ([46], path)
  else
    let position := (length path - 1 - after)%nat in
    ((if (position =? 0)%nat then [slash] else take position path), drop (S position) path).

(** ** Operations *)

(** The first error of a handle is kept; the caller always gets [IO_ERROR]. *)
Definition faultline_wal_writer_fail (writer : faultline_wal_writer)
    (operation : faultline_wal_writer_operation) (error : Z) : faultline_wal_writer :=
  if bool_decide (writer_state writer = FAULTLINE_WAL_WRITER_FAILED) then writer
  else
    writer <| system_error := if error !=? 0 then error else EIO |>
           <| failed_operation := operation |>
           <| writer_state := FAULTLINE_WAL_WRITER_FAILED |>.

Section Writer.
Context {W : Type} (os : wal_os W).

(** [do result = call; while (result < 0 && errno == EINTR)] *)
Fixpoint retry_loop {A} (fuel : nat) (call : os_call W A) (world : W) : os_result A * W :=
  match call world with
  | (OsErr error, world) =>
      if error =? EINTR then
        match fuel with
        | O => (OsErr error, world)
        | S fuel => retry_loop fuel call world
        end
      else (OsErr error, world)
  | done => done
  end.

Definition retry {A} (call : os_call W A) (world : W) : os_result A * W :=
  retry_loop (os_interrupts os world) call world.

(** [bytes] are the bytes still to be written. *)
Fixpoint write_loop (fuel : nat) (writer : faultline_wal_writer) (bytes : list Z)
    (operation : faultline_wal_writer_operation) (world : W) :
    faultline_wal_writer_result * faultline_wal_writer * W :=
  match bytes with
  | [] => (FAULTLINE_WAL_WRITE_OK, writer, world)
  | _ =>
      let failed error world :=
        (FAULTLINE_WAL_WRITE_IO_ERROR, faultline_wal_writer_fail writer operation error, world) in
      match io_write os (fd writer) bytes world with
      | (OsErr error, world) =>
          if error =? EINTR then
            match fuel with
            | O => failed error world
            | S fuel => write_loop fuel writer bytes operation world
            end
          else failed error world
      | (OsOk written, world) =>
          if (written =? 0) || (Z.of_nat (length bytes) <? written) then failed EIO world
          else
            match fuel with
            | O => failed EIO world
            | S fuel => write_loop fuel writer (drop (Z.to_nat written) bytes) operation world
            end
      end
  end.

Definition write_all (writer : faultline_wal_writer) (bytes : list Z)
    (operation : faultline_wal_writer_operation) (world : W) :
    faultline_wal_writer_result * faultline_wal_writer * W :=
  write_loop (os_interrupts os world + length bytes) writer bytes operation world.

Definition faultline_wal_writer_sync (writer : faultline_wal_writer) (descriptor : Z)
    (operation : faultline_wal_writer_operation) (world : W) :
    faultline_wal_writer_result * faultline_wal_writer * W :=
  match retry (io_sync os descriptor) world with
  | (OsErr error, world) =>
      (FAULTLINE_WAL_WRITE_IO_ERROR, faultline_wal_writer_fail writer operation error, world)
  | (OsOk _, world) => (FAULTLINE_WAL_WRITE_OK, writer, world)
  end.

Definition faultline_wal_writer_open_file (writer : faultline_wal_writer) (path : list Z)
    (create : bool) (world : W) :
    faultline_wal_writer_result * faultline_wal_writer * W :=
  let failed writer operation error world :=
    (FAULTLINE_WAL_WRITE_IO_ERROR, faultline_wal_writer_fail writer operation error, world) in
  if bool_decide (path = []) || ends_in_slash path then
    (FAULTLINE_WAL_WRITE_INVALID_ARGUMENT, writer, world)
  else if bool_decide (writer_state writer = FAULTLINE_WAL_WRITER_FAILED) then
    (FAULTLINE_WAL_WRITE_IO_ERROR, writer, world)
  else if negb (bool_decide (writer_state writer = FAULTLINE_WAL_WRITER_CLOSED)) ||
          (fd writer !=? -1) || (directory_fd writer !=? -1) then
    (FAULTLINE_WAL_WRITE_INVALID_STATE, writer, world)
  else
    let writer := writer <| io_set := true |> <| synced_sequence := 0 |> <| next_sequence := 0 |> in
    match os_alloc os world with
    | (false, world) => failed writer FAULTLINE_WAL_IO_ALLOCATE_PATH ENOMEM world
    | (true, world) =>
        let '(directory, name) := split_path path in
        match retry (os_open os directory) world with
        | (OsErr error, world) => failed writer FAULTLINE_WAL_IO_OPEN_DIRECTORY error world
        | (OsOk directory_, world) =>
            let writer := writer <| directory_fd := directory_ |> in
            match retry (os_openat os directory_ name create) world with
            | (OsErr error, world) =>
                failed writer (if create then FAULTLINE_WAL_IO_CREATE_FILE
                               else FAULTLINE_WAL_IO_OPEN_EXISTING) error world
            | (OsOk file, world) =>
                let writer := writer <| fd := file |> in
                match retry (os_fstat os file) world with
                | (OsErr error, world) => failed writer FAULTLINE_WAL_IO_STAT_FILE error world
                | (OsOk false, world) => failed writer FAULTLINE_WAL_IO_STAT_FILE EINVAL world
                | (OsOk true, world) =>
                    match retry (io_lock os file) world with
                    | (OsErr error, world) => failed writer FAULTLINE_WAL_IO_LOCK error world
                    | (OsOk _, world) =>
                        (FAULTLINE_WAL_WRITE_OK,
                         writer <| writer_state := FAULTLINE_WAL_WRITER_RECOVERING |>, world)
                    end
                end
            end
        end
    end.

Definition faultline_wal_writer_create_with_io (writer : faultline_wal_writer) (path : list Z)
    (world : W) : faultline_wal_writer_result * faultline_wal_writer * W :=
  match faultline_wal_writer_open_file writer path true world with
  | (FAULTLINE_WAL_WRITE_OK, writer, world) =>
      match faultline_wal_file_header_encode FAULTLINE_WAL_FILE_HEADER_SIZE with
      | inl _ => (FAULTLINE_WAL_WRITE_IO_ERROR, writer, world)
      | inr header =>
          match write_all writer header FAULTLINE_WAL_IO_WRITE_HEADER world with
          | (FAULTLINE_WAL_WRITE_OK, writer, world) =>
              match faultline_wal_writer_sync writer (fd writer) FAULTLINE_WAL_IO_SYNC_HEADER
                      world with
              | (FAULTLINE_WAL_WRITE_OK, writer, world) =>
                  match faultline_wal_writer_sync writer (directory_fd writer)
                          FAULTLINE_WAL_IO_SYNC_DIRECTORY world with
                  | (FAULTLINE_WAL_WRITE_OK, writer, world) =>
                      (FAULTLINE_WAL_WRITE_OK,
                       writer <| next_sequence := 1 |>
                              <| writer_state := FAULTLINE_WAL_WRITER_READY |>, world)
                  | (_, writer, world) => (FAULTLINE_WAL_WRITE_IO_ERROR, writer, world)
                  end
              | (_, writer, world) => (FAULTLINE_WAL_WRITE_IO_ERROR, writer, world)
              end
          | (_, writer, world) => (FAULTLINE_WAL_WRITE_IO_ERROR, writer, world)
          end
      end
  | refused => refused
  end.

Definition faultline_wal_writer_append (writer : faultline_wal_writer)
    (record : faultline_wal_record) (world : W) :
    faultline_wal_writer_result * faultline_wal_writer * W :=
  if bool_decide (writer_state writer = FAULTLINE_WAL_WRITER_FAILED) then
    (FAULTLINE_WAL_WRITE_IO_ERROR, writer, world)
  else if negb (bool_decide (writer_state writer = FAULTLINE_WAL_WRITER_READY)) then
    (FAULTLINE_WAL_WRITE_INVALID_STATE, writer, world)
  else if next_sequence writer =? 0 then
    (FAULTLINE_WAL_WRITE_SEQUENCE_EXHAUSTED, writer, world)
  else if r_sequence record !=? next_sequence writer then
    (FAULTLINE_WAL_WRITE_INVALID_RECORD, writer, world)
  else
    match faultline_wal_record_encode FAULTLINE_WAL_MAX_RECORD_SIZE record with
    | inl _ => (FAULTLINE_WAL_WRITE_INVALID_RECORD, writer, world)
    | inr bytes =>
        match write_all writer bytes FAULTLINE_WAL_IO_WRITE_RECORD world with
        | (FAULTLINE_WAL_WRITE_OK, writer, world) =>
            match faultline_wal_writer_sync writer (fd writer) FAULTLINE_WAL_IO_SYNC_RECORD
                    world with
            | (FAULTLINE_WAL_WRITE_OK, writer, world) =>
                (FAULTLINE_WAL_WRITE_OK,
                 writer <| synced_sequence := r_sequence record |>
                        <| next_sequence := if r_sequence record =? UINT64_MAX then 0
                                            else u64 (r_sequence record + 1) |>, world)
            | (_, writer, world) => (FAULTLINE_WAL_WRITE_IO_ERROR, writer, world)
            end
        | (_, writer, world) => (FAULTLINE_WAL_WRITE_IO_ERROR, writer, world)
        end
    end.

(** One descriptor is closed once, whatever the outcome. *)
Definition close_descriptor (descriptor : Z) (operation : faultline_wal_writer_operation)
    (writer : faultline_wal_writer) (world : W) : faultline_wal_writer * W :=
  if descriptor !=? -1 then
    match io_close os descriptor world with
    | (OsErr error, world) => (faultline_wal_writer_fail writer operation error, world)
    | (OsOk _, world) => (writer, world)
    end
  else (writer, world).

Definition faultline_wal_writer_close (writer : faultline_wal_writer) (world : W) :
    faultline_wal_writer_result * faultline_wal_writer * W :=
  if negb (io_set writer) && ((fd writer !=? -1) || (directory_fd writer !=? -1)) then
    (FAULTLINE_WAL_WRITE_INVALID_STATE, writer, world)
  else
    let '(writer, world) :=
      close_descriptor (fd writer) FAULTLINE_WAL_IO_CLOSE_FILE (writer <| fd := -1 |>) world in
    let '(writer, world) :=
      close_descriptor (directory_fd writer) FAULTLINE_WAL_IO_CLOSE_DIRECTORY
        (writer <| directory_fd := -1 |>) world in
    if bool_decide (writer_state writer = FAULTLINE_WAL_WRITER_FAILED) then
      (FAULTLINE_WAL_WRITE_IO_ERROR, writer, world)
    else
      (FAULTLINE_WAL_WRITE_OK, writer <| writer_state := FAULTLINE_WAL_WRITER_CLOSED |>, world).

End Writer.

Definition faultline_wal_writer_operation_name (operation : faultline_wal_writer_operation) :
    string :=
  match operation with
  | FAULTLINE_WAL_IO_NONE => "none"
  | FAULTLINE_WAL_IO_ALLOCATE_PATH => "allocate_path"
  | FAULTLINE_WAL_IO_OPEN_DIRECTORY => "open_directory"
  | FAULTLINE_WAL_IO_CREATE_FILE => "create_file"
  | FAULTLINE_WAL_IO_LOCK => "lock"
  | FAULTLINE_WAL_IO_WRITE_HEADER => "write_header"
  | FAULTLINE_WAL_IO_SYNC_HEADER => "sync_header"
  | FAULTLINE_WAL_IO_SYNC_DIRECTORY => "sync_directory"
  | FAULTLINE_WAL_IO_WRITE_RECORD => "write_record"
  | FAULTLINE_WAL_IO_SYNC_RECORD => "sync_record"
  | FAULTLINE_WAL_IO_CLOSE_FILE => "close_file"
  | FAULTLINE_WAL_IO_CLOSE_DIRECTORY => "close_directory"
  | FAULTLINE_WAL_IO_OPEN_EXISTING => "open_existing"
  | FAULTLINE_WAL_IO_STAT_FILE => "stat_file"
  | FAULTLINE_WAL_IO_READ_FILE => "read_file"
  | FAULTLINE_WAL_IO_ALLOCATE_REPLAY => "allocate_replay"
  | FAULTLINE_WAL_IO_VALIDATE_REPLAY => "validate_replay"
  | FAULTLINE_WAL_IO_TRUNCATE_TAIL => "truncate_tail"
  | FAULTLINE_WAL_IO_SYNC_RECOVERY => "sync_recovery"
  | WAL_IO_OTHER _ => "unknown"
  end.
