(* ===== verification/Disk.v ===== *)
(** What the log code relies on of the operating system, as type classes, and a
    simulated disk that satisfies it.

    [OsFinite]: a call is interrupted only finitely often and a file has an end, so that
    the loops of the code terminate. [Disk]: the documented behaviour of [open],
    [read], [write], [fsync] and [ftruncate] on one log file. A world has a [content] (what
    readers see, [None] when the file does not exist), a set [crash] of contents that can
    be found after the process is killed at this point, and the open descriptors. An error
    of [write] or [ftruncate] says nothing about how much was done. A successful [fsync] of the
    file leaves its content as the only one possible; that of the directory makes the
    file's existence certain.

    A kill between two system calls is the run in which all later calls fail without
    effect, so statements about all worlds that satisfy the laws cover every crash point. *)

From S2P Require Import Prelude Wal WalWriter.

(** ** Termination of the loops *)

Section Finite.
Context {W : Type} (os : wal_os W).

Definition interruptible {A} (call : os_call W A) : Prop :=
  forall world r world', call world = (r, world') ->
    (os_interrupts os world' <= os_interrupts os world)%nat /\
    (r = OsErr EINTR -> (os_interrupts os world' < os_interrupts os world)%nat).

Class OsFinite : Prop := {
  finite_open path : interruptible (os_open os path);
  finite_openat d name create : interruptible (os_openat os d name create);
  finite_fstat d : interruptible (os_fstat os d);
  finite_lock d : interruptible (io_lock os d);
  finite_write d data : interruptible (io_write os d data);
  finite_sync d : interruptible (io_sync os d);
  finite_read d size : interruptible (io_read os d size);
  finite_truncate d size : interruptible (io_truncate os d size);
  finite_unread d size world r world' : io_read os d size world = (r, world') ->
    (os_unread os world' <= os_unread os world)%nat /\
    (forall l, r = OsOk l -> l <> [] -> (os_unread os world' < os_unread os world)%nat);
  finite_written d data world n world' : io_write os d data world = (OsOk n, world') -> 0 <= n;
  finite_alloc world b world' : os_alloc os world = (b, world') ->
    (os_unread os world' <= os_unread os world)%nat;
}.

Lemma retry_loop_fuel {A} (call : os_call W A) fuel fuel' world :
  interruptible call -> (os_interrupts os world <= fuel)%nat -> (os_interrupts os world <= fuel')%nat ->
  retry_loop fuel call world = retry_loop fuel' call world.
Proof.
  intros Hc. revert fuel' world. induction fuel as [|fuel IH]; intros fuel' world H H';
    destruct (call world) as [r world'] eqn:E; destruct (Hc _ _ _ E) as [Hle Hlt].
  - destruct fuel'; simpl; rewrite E; destruct r as [|e]; try done.
    destruct (Z.eqb_spec e EINTR) as [->|]; [|done]. specialize (Hlt eq_refl). lia.
  - destruct fuel' as [|fuel']; simpl; rewrite E; destruct r as [|e]; try done;
      destruct (Z.eqb_spec e EINTR) as [->|]; try done; specialize (Hlt eq_refl); [lia|].
    apply IH; lia.
Qed.

(** The loop of the code. *)
Lemma retry_eq {A} (call : os_call W A) world :
  interruptible call ->
  retry os call world =
  match call world with
  | (OsErr error, world') => if error =? EINTR then retry os call world' else (OsErr error, world')
  | (OsOk value, world') => (OsOk value, world')
  end.
Proof.
  intros Hc. unfold retry at 1. destruct (call world) as [r world'] eqn:E.
  destruct (Hc _ _ _ E) as [Hle Hlt].
  destruct (os_interrupts os world) as [|n] eqn:En; simpl; rewrite E; destruct r as [|e]; try done;
    destruct (Z.eqb_spec e EINTR) as [->|]; try done; specialize (Hlt eq_refl); [lia|].
  unfold retry. apply retry_loop_fuel; [done|lia|done].
Qed.

(** What holds across every single call holds across the retried call. *)
Lemma retry_ind {A} (call : os_call W A) (P : W -> os_result A -> W -> Prop) :
  interruptible call ->
  (forall world r world', call world = (r, world') -> r <> OsErr EINTR -> P world r world') ->
  (forall world world' r world'', call world = (OsErr EINTR, world') ->
     P world' r world'' -> P world r world'') ->
  forall world r world', retry os call world = (r, world') -> P world r world'.
Proof.
  intros Hc Hbase Hstep world. remember (os_interrupts os world) as n eqn:En.
  revert world En. induction n as [n IH] using (well_founded_induction lt_wf).
  intros world -> r world' Hr. rewrite (retry_eq _ _ Hc) in Hr.
  destruct (call world) as [s w] eqn:E. destruct (Hc _ _ _ E) as [_ Hlt].
  destruct s as [v|e]; [simplify_eq; by apply Hbase|].
  destruct (Z.eqb_spec e EINTR) as [->|]; [|simplify_eq; apply Hbase; congruence].
  apply Hstep with w; [done|]. apply (IH (os_interrupts os w)); auto.
Qed.

(** A retried call ends with the first result that is not an interruption. *)
Lemma retry_result {A} (call : os_call W A) world r world' :
  interruptible call -> retry os call world = (r, world') -> r <> OsErr EINTR.
Proof. intros Hc. by apply (retry_ind call (fun _ r _ => r <> OsErr EINTR)). Qed.

Lemma write_loop_fuel {FIN : OsFinite} fuel fuel' writer bytes operation world :
  (os_interrupts os world + length bytes <= fuel)%nat ->
  (os_interrupts os world + length bytes <= fuel')%nat ->
  write_loop os fuel writer bytes operation world = write_loop os fuel' writer bytes operation world.
Proof.
  revert fuel' bytes world. induction fuel as [|fuel IH]; intros fuel' bytes world H H';
    destruct bytes as [|b bytes]; try (by destruct fuel'); [simpl in H; lia|].
  destruct fuel' as [|fuel']; [simpl in H'; lia|].
  cbn [write_loop]. destruct (io_write os (fd writer) (b :: bytes) world) as [r world'] eqn:E.
  destruct (finite_write (fd writer) (b :: bytes) _ _ _ E) as [Hle Hlt]. destruct r as [n|e].
  - pose proof (finite_written _ _ _ _ _ E).
    destruct (Z.eqb_spec n 0); [done|]. destruct (Z.ltb_spec (Z.of_nat (length (b :: bytes))) n); [done|].
    apply IH; rewrite length_drop; simpl in *; lia.
  - destruct (Z.eqb_spec e EINTR) as [->|]; [|done]. specialize (Hlt eq_refl). apply IH; lia.
Qed.

(** The loop of the code. *)
Lemma write_all_eq {FIN : OsFinite} writer bytes operation world :
  write_all os writer bytes operation world =
  let failed error world :=
    (FAULTLINE_WAL_WRITE_IO_ERROR, faultline_wal_writer_fail writer operation error, world) in
  match bytes with
  | [] => (FAULTLINE_WAL_WRITE_OK, writer, world)
  | _ =>
      match io_write os (fd writer) bytes world with
      | (OsErr error, world') =>
          if error =? EINTR then write_all os writer bytes operation world'
          else failed error world'
      | (OsOk written, world') =>
          if (written =? 0) || (Z.of_nat (length bytes) <? written) then failed EIO world'
          else write_all os writer (drop (Z.to_nat written) bytes) operation world'
      end
  end.
Proof.
  destruct bytes as [|b bytes]; [unfold write_all; by destruct (_ + _)%nat|].
  unfold write_all at 1.
  replace (os_interrupts os world + length (b :: bytes))%nat
    with (S (os_interrupts os world + length bytes)) by (simpl; lia). cbn [write_loop].
  destruct (io_write os (fd writer) (b :: bytes) world) as [r world'] eqn:E.
  destruct (finite_write (fd writer) (b :: bytes) _ _ _ E) as [Hle Hlt]. destruct r as [n|e].
  - pose proof (finite_written _ _ _ _ _ E).
    destruct (Z.eqb_spec n 0); [done|]. destruct (Z.ltb_spec (Z.of_nat (length (b :: bytes))) n); [done|].
    cbn [orb]. apply write_loop_fuel; rewrite length_drop; simpl in *; lia.
  - destruct (Z.eqb_spec e EINTR) as [->|]; [|done]. specialize (Hlt eq_refl).
    apply write_loop_fuel; simpl in *; lia.
Qed.

End Finite.

(** ** The log file *)

Record disk_view := mk_view {
  content : option (list Z);
  position : nat;
  file : option Z;
  directory : option Z;
}.

Definition with_content (c : list Z) (v : disk_view) : disk_view :=
  mk_view (Some c) (position v) (file v) (directory v).

Section Laws.
Context {W : Type} (os : wal_os W).

Class Disk := {
  view : W -> disk_view;
  crash : W -> option (list Z) -> Prop;

  law_alloc world b world' : os_alloc os world = (b, world') ->
    view world' = view world /\ forall x, crash world' x -> crash world x;
  law_fstat d world r world' : os_fstat os d world = (r, world') ->
    view world' = view world /\ forall x, crash world' x -> crash world x;
  law_lock d world r world' : io_lock os d world = (r, world') ->
    view world' = view world /\ forall x, crash world' x -> crash world x;
  law_close d world r world' : io_close os d world = (r, world') ->
    content (view world') = content (view world) /\ forall x, crash world' x -> crash world x;

  law_open p world r world' : os_open os p world = (r, world') ->
    (forall x, crash world' x -> crash world x) /\
    match r with
    | OsOk d => d <> -1 /\
        view world' = mk_view (content (view world)) (position (view world)) (file (view world)) (Some d)
    | OsErr _ => view world' = view world
    end;
  law_openat d name create world r world' : os_openat os d name create world = (r, world') ->
    match r with
    | OsOk f => f <> -1 /\
        if create : bool then
          content (view world) = None /\
          view world' = mk_view (Some []) 0 (Some f) (directory (view world)) /\
          forall x, crash world' x -> crash world x \/ x = Some []
        else
          content (view world) <> None /\
          view world' = mk_view (content (view world)) 0 (Some f) (directory (view world)) /\
          forall x, crash world' x -> crash world x
    | OsErr _ => view world' = view world /\ forall x, crash world' x -> crash world x
    end;

  law_write f data world r world' c :
    file (view world) = Some f -> content (view world) = Some c ->
    io_write os f data world = (r, world') ->
    file (view world') = Some f /\ directory (view world') = directory (view world) /\
    exists k, content (view world') = Some (c ++ take k data) /\
      (forall x, crash world' x -> crash world x \/ exists n, x = Some (c ++ take n data)) /\
      match r with
      | OsOk n => k = Z.to_nat n /\ 0 <= n <= Z.of_nat (length data)
      | OsErr e => e = EINTR -> k = 0%nat /\ forall x, crash world' x -> crash world x
      end;
  law_sync d world r world' : io_sync os d world = (r, world') ->
    view world' = view world /\ (forall x, crash world' x -> crash world x) /\
    forall u, r = OsOk u ->
      (file (view world) = Some d ->
       forall x, crash world' x -> x = None \/ x = content (view world)) /\
      (directory (view world) = Some d -> content (view world) <> None -> ~ crash world' None);
  law_read f size world r world' c :
    file (view world) = Some f -> content (view world) = Some c -> 0 <= size ->
    io_read os f size world = (r, world') ->
    (forall x, crash world' x -> crash world x) /\
    match r with
    | OsOk l =>
        Z.of_nat (length l) <= size /\ l = take (length l) (drop (position (view world)) c) /\
        (l = [] -> size <= 0 \/ (length c <= position (view world))%nat) /\
        view world' = mk_view (Some c) (position (view world) + length l) (Some f)
                        (directory (view world))
    | OsErr _ => view world' = view world
    end;
  law_truncate f size world r world' c :
    file (view world) = Some f -> content (view world) = Some c ->
    0 <= size <= Z.of_nat (length c) ->
    io_truncate os f size world = (r, world') ->
    (forall x, crash world' x -> crash world x \/ x = Some (take (Z.to_nat size) c)) /\
    match r with
    | OsOk _ => view world' = with_content (take (Z.to_nat size) c) (view world)
    | OsErr e => e = EINTR -> view world' = view world
    end /\
    (view world' = view world \/ view world' = with_content (take (Z.to_nat size) c) (view world));
}.

End Laws.
