(* ===== verification/SimDisk.v ===== *)
(** A simulated disk: the parameters of the log code instantiated by concrete functions,
    with a script of faults. It satisfies [OsFinite] and [Disk], so that every theorem
    about lawful systems applies to it and can be evaluated on it. *)

From S2P Require Import Prelude Wal WalWriter Disk.

(** What the next call does: work, work on at most [n] bytes, fail, or (a write) fail after
    [n] bytes reached the file. *)
Inductive fault :=
| Proceed
| Limit (n : nat)
| Fault (errno : Z)
| Torn (n : nat) (errno : Z).

Record sim := mk_sim {
  sim_view : disk_view;
  sim_images : list (option (list Z));
  sim_script : list fault;
}.

Definition sim_step (s : sim) : fault * sim :=
  match sim_script s with
  | [] => (Proceed, s)
  | f :: rest => (f, mk_sim (sim_view s) (sim_images s) rest)
  end.

(** A call that fails on a fault and else does [act]. *)
Definition sim_call {A} (act : fault -> sim -> os_result A * sim) (s : sim) : os_result A * sim :=
  match sim_step s with
  | (Fault e, s) | (Torn _ e, s) => (OsErr e, s)
  | (f, s) => act f s
  end.

Definition sim_set_view (v : disk_view) (s : sim) : sim := mk_sim v (sim_images s) (sim_script s).
Definition sim_set_images (l : list (option (list Z))) (s : sim) : sim :=
  mk_sim (sim_view s) l (sim_script s).

Definition sim_quiet {A} (a : A) : sim -> os_result A * sim := sim_call (fun _ s => (OsOk a, s)).

Definition sim_alloc (s : sim) : bool * sim :=
  match sim_step s with
  | (Fault _, s) | (Torn _ _, s) => (false, s)
  | (_, s) => (true, s)
  end.

Definition sim_open (_ : list Z) : sim -> os_result Z * sim :=
  sim_call (fun _ s =>
    let v := sim_view s in
    (OsOk 3, sim_set_view (mk_view (content v) (position v) (file v) (Some 3)) s)).

Definition sim_openat (_ : Z) (_ : list Z) (create : bool) : sim -> os_result Z * sim :=
  sim_call (fun _ s =>
    let v := sim_view s in
    match content v, create with
    | None, true =>
        (OsOk 4, sim_set_images (Some [] :: sim_images s)
                   (sim_set_view (mk_view (Some []) 0 (Some 4) (directory v)) s))
    | Some c, false => (OsOk 4, sim_set_view (mk_view (Some c) 0 (Some 4) (directory v)) s)
    | None, false => (OsErr 2, s)
    | Some _, true => (OsErr 17, s)
    end).

(** The first [n] bytes of [data] reach the file; after a kill any part of them may be there. *)
Definition sim_append (c data : list Z) (n : nat) (s : sim) : sim :=
  let v := sim_view s in
  mk_sim (mk_view (Some (c ++ take n data)) (length c + n) (file v) (directory v))
    (sim_images s ++ ((fun k => Some (c ++ take k data)) <$> seq 0 (S n)))
    (sim_script s).

Definition sim_write (f : Z) (data : list Z) (s : sim) : os_result Z * sim :=
  let '(flt, s) := sim_step s in
  match content (sim_view s) with
  | Some c =>
      if negb (bool_decide (file (sim_view s) = Some f)) then (OsErr 9, s)
      else
        match flt with
        | Proceed => (OsOk (Z.of_nat (length data)), sim_append c data (length data) s)
        | Limit n =>
            let n := Nat.min n (length data) in (OsOk (Z.of_nat n), sim_append c data n s)
        | Fault e => (OsErr e, s)
        | Torn n e => if e =? EINTR then (OsErr e, s) else (OsErr e, sim_append c data n s)
        end
  | None => (OsErr 9, s)
  end.

Definition sim_sync (d : Z) : sim -> os_result unit * sim :=
  sim_call (fun _ s =>
    let v := sim_view s in
    let images :=
      if bool_decide (file v = Some d) then
        content v :: (if bool_decide (None ∈ sim_images s) then [None] else [])
      else sim_images s in
    let images :=
      if bool_decide (directory v = Some d) then filter (fun x => x <> None) images else images in
    (OsOk (), sim_set_images (filter (fun x => x ∈ sim_images s) images) s)).

Definition sim_read (f : Z) (size : Z) : sim -> os_result (list Z) * sim :=
  sim_call (fun flt s =>
    let v := sim_view s in
    match content v with
    | Some c =>
        let n := match flt with Limit n => Nat.min (S n) (Z.to_nat size) | _ => Z.to_nat size end in
        let l := take n (drop (position v) c) in
        (OsOk l, sim_set_view (mk_view (Some c) (position v + length l) (file v) (directory v)) s)
    | None => (OsErr 9, s)
    end).

Definition sim_truncate (f : Z) (size : Z) : sim -> os_result unit * sim :=
  sim_call (fun _ s =>
    match content (sim_view s) with
    | Some c =>
        let c := take (Z.to_nat size) c in
        (OsOk (), sim_set_images (Some c :: sim_images s)
                    (sim_set_view (with_content c (sim_view s)) s))
    | None => (OsErr 9, s)
    end).

Definition sim_os : wal_os sim :=
  {| os_alloc := sim_alloc; os_open := sim_open; os_openat := sim_openat;
     os_fstat _ := sim_quiet true; io_lock _ := sim_quiet (); io_write := sim_write;
     io_sync := sim_sync; io_close _ := sim_quiet (); io_read := sim_read;
     io_truncate := sim_truncate;
     os_interrupts s := length (sim_script s);
     os_unread s :=
       match content (sim_view s) with
       | Some c => (length c - position (sim_view s))%nat
       | None => 0%nat
       end |}.

(** A machine on which the log does not exist yet. *)
Definition blank_disk (script : list fault) : sim :=
  mk_sim (mk_view None 0 None None) [None] script.

(** A machine restarted with the given log. *)
Definition restarted_disk (c : list Z) (script : list fault) : sim :=
  mk_sim (mk_view (Some c) 0 None None) [Some c] script.

(** ** The laws *)

Lemma sim_step_keeps s f s' :
  sim_step s = (f, s') ->
  sim_view s' = sim_view s /\ sim_images s' = sim_images s /\
  (length (sim_script s') <= length (sim_script s))%nat /\
  (f <> Proceed -> (length (sim_script s') < length (sim_script s))%nat).
Proof.
  unfold sim_step. destruct s as [v i [|g rest]]; intros [= <- <-]; simpl; split_and!; try done; lia.
Qed.

(** A call built by [sim_call] is interrupted only by its script. *)
Lemma sim_call_interruptible {A} (act : fault -> sim -> os_result A * sim) :
  (forall f s r s', act f s = (r, s') ->
     sim_script s' = sim_script s /\ r <> OsErr EINTR) ->
  interruptible sim_os (sim_call act).
Proof.
  intros Hact s r s'. unfold sim_call. destruct (sim_step s) as [f s1] eqn:E.
  destruct (sim_step_keeps _ _ _ E) as (_ & _ & Hle & Hlt). simpl.
  destruct f; intros Hr; try (injection Hr as <- <-; split; [done|]; intros _; by apply Hlt);
    apply Hact in Hr as [-> Hr]; split; done.
Qed.

Lemma sim_write_interruptible f data : interruptible sim_os (sim_write f data).
Proof.
  intros s r s'. unfold sim_write. destruct (sim_step s) as [flt s1] eqn:E.
  destruct (sim_step_keeps _ _ _ E) as (_ & _ & Hle & Hlt). simpl.
  destruct (content _); [|by intros [= <- <-]]. destruct (negb _); [by intros [= <- <-]|].
  destruct flt as [|n|e|n e]; try (intros [= <- <-]; simpl; split; [done|]; intros; by apply Hlt);
    try (by intros [= <- <-]).
  destruct (e =? EINTR); intros [= <- <-]; simpl; (split; [done|]; intros; by apply Hlt).
Qed.

#[export] Instance sim_finite : OsFinite sim_os.
Proof.
  split; intros; try (apply sim_call_interruptible; intros; simplify_eq/=; repeat case_match;
    simplify_eq/=; done).
  - apply sim_write_interruptible.
  - revert H. simpl. unfold sim_read, sim_call. destruct (sim_step world) as [f s1] eqn:E.
    destruct (sim_step_keeps _ _ _ E) as (Hv & _). rewrite <- Hv.
    destruct f; try (by intros [= <- <-]); destruct (content (sim_view s1)) as [c|] eqn:Ec;
      intros [= <- <-]; rewrite ?Ec; try done; simpl; rewrite ?length_take, ?length_drop;
      split; try lia; intros l [= <-] Hl; apply nonempty_length in Hl;
      rewrite length_take, length_drop in Hl; lia.
  - revert H. simpl. unfold sim_write. destruct (sim_step world) as [flt s1].
    repeat case_match; intros [= <- <-]; lia.
  - revert H. simpl. unfold sim_alloc. destruct (sim_step world) as [f s1] eqn:E.
    destruct (sim_step_keeps _ _ _ E) as (Hv & _). rewrite <- Hv.
    destruct f; by intros [= <- <-].
Qed.

Lemma sim_call_inv {A} (act : fault -> sim -> os_result A * sim) s r s' :
  sim_call act s = (r, s') ->
  exists s1, sim_view s1 = sim_view s /\ sim_images s1 = sim_images s /\
    ((exists e, r = OsErr e /\ s' = s1) \/ exists f, act f s1 = (r, s')).
Proof.
  unfold sim_call. destruct (sim_step s) as [f s1] eqn:E.
  destruct (sim_step_keeps _ _ _ E) as (Hv & Hi & _). intros H. exists s1. split_and!; try done.
  destruct f; first [right; by eexists | left; eexists; by injection H as <- <-].
Qed.

Definition sim_crash (s : sim) (x : option (list Z)) : Prop := x ∈ sim_images s.

(** Opens the simulated call in [H] into its outcomes. *)
Ltac sim_open H :=
  apply sim_call_inv in H as (s1 & Hv & Hi & [(e & -> & ->)|[flt H]]);
  rewrite <- ?Hv in *; unfold sim_crash in *; rewrite <- ?Hi in *; [|try injection H as <- <-].

Lemma sim_sync_law d s r s' :
  sim_sync d s = (r, s') ->
  sim_view s' = sim_view s /\ (forall x, sim_crash s' x -> sim_crash s x) /\
  forall u, r = OsOk u ->
    (file (sim_view s) = Some d ->
     forall x, sim_crash s' x -> x = None \/ x = content (sim_view s)) /\
    (directory (sim_view s) = Some d -> content (sim_view s) <> None -> ~ sim_crash s' None).
Proof.
  intros H. sim_open H; [done|]. simpl. split; [done|]. split.
  - intros x Hx. by apply list_elem_of_filter in Hx as [? _].
  - intros _ _. split.
    + intros Hf x Hx. apply list_elem_of_filter in Hx as [_ Hx].
      rewrite (bool_decide_eq_true_2 (file _ = _)) in Hx by done.
      repeat case_bool_decide; try apply list_elem_of_filter in Hx as [_ Hx];
        rewrite ?elem_of_cons, ?elem_of_nil in Hx; tauto.
    + intros Hd Hc Hx. apply list_elem_of_filter in Hx as [_ Hx].
      rewrite (bool_decide_eq_true_2 (directory _ = _)) in Hx by done.
      apply list_elem_of_filter in Hx as [? _]. done.
Qed.

Lemma sim_append_law c data n s x :
  sim_crash (sim_append c data n s) x -> sim_crash s x \/ exists m, x = Some (c ++ take m data).
Proof.
  unfold sim_crash, sim_append. cbn [sim_images]. rewrite elem_of_app. intros [Hx|Hx]; [by left|].
  apply list_elem_of_fmap in Hx as (m & -> & _). right. by exists m.
Qed.

#[export, refine] Instance sim_disk : Disk sim_os := {| view := sim_view; crash := sim_crash |}.
Proof.
  - intros s b s'. simpl. unfold sim_alloc. destruct (sim_step s) as [f s1] eqn:E.
    destruct (sim_step_keeps _ _ _ E) as (Hv & Hi & _). unfold sim_crash. rewrite <- Hv, <- Hi.
    destruct f; by intros [= <- <-].
  - intros d s r s' H. by sim_open H.
  - intros d s r s' H. by sim_open H.
  - intros d s r s' H. by sim_open H.
  - intros p s r s' H. by sim_open H.
  - intros d name create s r s' H. sim_open H; [done|].
    destruct (content (sim_view s1)) as [c|] eqn:Ec, create; injection H as <- <-; try done.
    simpl. split_and!; try done. intros x. rewrite elem_of_cons. tauto.
  - intros f data s r s' c Hf Hc H. simpl in H. unfold sim_write in H.
    destruct (sim_step s) as [flt s1] eqn:E.
    destruct (sim_step_keeps _ _ _ E) as (Hv & Hi & _). unfold sim_crash. rewrite <- Hv, <- Hi in *.
    rewrite Hc, bool_decide_eq_true_2 in H by done. cbn [negb] in H.
    assert (forall n, let s2 := sim_append c data n s1 in
      file (sim_view s2) = Some f /\ directory (sim_view s2) = directory (sim_view s1) /\
      content (sim_view s2) = Some (c ++ take n data) /\
      forall x, x ∈ sim_images s2 -> x ∈ sim_images s1 \/ exists m, x = Some (c ++ take m data)) as Ha.
    { intros n. split_and!; try done. intros x. apply sim_append_law. }
    assert (Some c = Some (c ++ take 0 data)) as Hnil by (by rewrite app_nil_r).
    destruct flt as [|n|e|n e].
    + injection H as <- <-. destruct (Ha (length data)) as (? & ? & ? & ?). split_and!; try done.
      exists (length data). split_and!; try done; lia.
    + injection H as <- <-. destruct (Ha (n `min` length data)%nat) as (? & ? & ? & ?).
      split_and!; try done. eexists. split_and!; try done; lia.
    + injection H as <- <-. rewrite Hc. split_and!; try done. exists 0%nat. split_and!; try done. tauto.
    + destruct (Z.eqb_spec e EINTR); injection H as <- <-.
      * rewrite Hc. split_and!; try done. exists 0%nat. split_and!; try done. tauto.
      * destruct (Ha n) as (? & ? & ? & ?). split_and!; try done. by exists n.
  - apply sim_sync_law.
  - intros f size s r s' c Hf Hc Hsize H. sim_open H; [done|]. rewrite Hc in H.
    injection H as <- <-. split; [done|].
    set (n := match flt with Limit _ => _ | _ => _ end).
    assert ((n <= Z.to_nat size)%nat /\ (0 < size -> (0 < n)%nat)) as [Hn Hn0]
      by (unfold n; destruct flt; try lia; destruct (Z.to_nat size) eqn:?; lia).
    rewrite length_take, length_drop. split_and!; try lia.
    + destruct (Nat.le_ge_cases n (length c - position (sim_view s1))) as [E|E].
      * by rewrite Nat.min_l by done.
      * rewrite Nat.min_r by done. by rewrite !take_ge by (rewrite length_drop; lia).
    + intros Hnil. apply (f_equal length) in Hnil. rewrite length_take, length_drop in Hnil.
      simpl in Hnil. lia.
    + simpl. by rewrite Hf.
  - intros f size s r s' c Hf Hc Hsize H. sim_open H.
    + split_and!; try done; tauto.
    + rewrite Hc in H. injection H as <- <-. simpl. split_and!; try done; [|by right].
      intros x. rewrite elem_of_cons. tauto.
Defined.
