(* ===== verification/WriterProofs.v ===== *)
(** The log writer on a lawful disk: complete and synced appends, the failure latch, and
    what a kill can leave behind. *)

From S2P Require Import Prelude Job Wal WalProofs WalWriter Disk SimDisk.

Section WriterProofs.
Context {W : Type} (os : wal_os W) {FIN : OsFinite os} {DISK : Disk os}.

(** The handle's descriptors are open on the log and its directory. *)
Definition attached (writer : faultline_wal_writer) (world : W) : Prop :=
  file (view os world) = Some (fd writer) /\
  directory (view os world) = Some (directory_fd writer).

(** [c] is in the file and is all that a kill can leave there. *)
Definition settled (world : W) (c : list Z) : Prop :=
  content (view os world) = Some c /\ forall x, crash os world x -> x = Some c.

(** The content is [c] followed by a part of [bytes], and so is whatever a kill leaves. *)
Definition torn (world : W) (c bytes : list Z) : Prop :=
  (exists k, content (view os world) = Some (c ++ take k bytes)) /\
  forall x, crash os world x -> exists k, x = Some (c ++ take k bytes).

Lemma settled_torn world c bytes : settled world c -> torn world c bytes.
Proof.
  intros [Hc Hx]. split; [exists 0%nat; by rewrite app_nil_r|].
  intros x H. exists 0%nat. rewrite app_nil_r. auto.
Qed.

Lemma retry_quiet {A} (call : os_call W A) world r world' :
  interruptible os call ->
  (forall world r world', call world = (r, world') ->
     view os world' = view os world /\ forall x, crash os world' x -> crash os world x) ->
  retry os call world = (r, world') ->
  view os world' = view os world /\ forall x, crash os world' x -> crash os world x.
Proof.
  intros Hi Hq. revert world r world'. apply retry_ind; [done|eauto|].
  intros world w1 r w2 H1 [Hv Hc]. apply Hq in H1 as [Hv1 Hc1]. split; [congruence|auto].
Qed.

Lemma write_all_disk writer bytes operation world c r writer' world' :
  attached writer world -> content (view os world) = Some c ->
  write_all os writer bytes operation world = (r, writer', world') ->
  attached writer world' /\
  (exists k, content (view os world') = Some (c ++ take k bytes) /\
     match r with
     | FAULTLINE_WAL_WRITE_OK => writer' = writer /\ k = length bytes
     | FAULTLINE_WAL_WRITE_IO_ERROR => exists e, writer' = faultline_wal_writer_fail writer operation e
     | _ => False
     end) /\
  forall x, crash os world' x -> crash os world x \/ exists k, x = Some (c ++ take k bytes).
Proof.
  remember (os_interrupts os world + length bytes)%nat as n eqn:En.
  revert bytes world c En. induction n as [n IH] using (well_founded_induction lt_wf).
  intros bytes world c En [Hf Hd] Hc. rewrite (write_all_eq os). cbn zeta.
  destruct bytes as [|b bytes'] eqn:Eb.
  { intros [= <- <- <-]. split; [done|]. split; [exists 0%nat; by rewrite app_nil_r|]. tauto. }
  rewrite <- Eb in *. clear Eb b bytes'.
  destruct (io_write os (fd writer) bytes world) as [w1 world1] eqn:Ew.
  destruct (law_write os _ _ _ _ _ _ Hf Hc Ew) as (Hf1 & Hd1 & k & Hc1 & Hx1 & Hr).
  destruct (finite_write os (fd writer) bytes _ _ _ Ew) as [Hle Hlt].
  assert (attached writer world1) as Ha1 by (split; congruence).
  destruct w1 as [written|e].
  - destruct Hr as [-> Hw]. destruct (_ || _) eqn:E.
    + intros [= <- <- <-]. split; [done|]. split; [|done]. eauto.
    + split_bools. reflect_bools. intros Hrec.
      destruct (IH (os_interrupts os world1 + length (drop (Z.to_nat written) bytes))%nat)
        with (drop (Z.to_nat written) bytes) world1 (c ++ take (Z.to_nat written) bytes)
        as (Ha & (k & Hk & Hres) & Hx); try done.
      { rewrite length_drop. lia. }
      split; [done|]. rewrite <- app_assoc, take_take_drop in Hk. split.
      * exists (Z.to_nat written + k)%nat. split; [done|]. destruct r; try done.
        destruct Hres as [-> ->]. split; [done|]. rewrite length_drop. lia.
      * intros x Hin. apply Hx in Hin as [Hin|[m ->]]; [by apply Hx1 in Hin|].
        right. exists (Z.to_nat written + m)%nat. by rewrite <- app_assoc, take_take_drop.
  - destruct (Z.eqb_spec e EINTR) as [->|].
    + intros Hrec. destruct (Hr eq_refl) as [-> Hsub]. rewrite app_nil_r in Hc1.
      destruct (IH (os_interrupts os world1 + length bytes)%nat) with bytes world1 c
        as (Ha & Hk & Hx); try done; [specialize (Hlt eq_refl); lia|].
      split; [done|]. split; [done|]. intros x H. apply Hx in H as [H|H]; auto.
    + intros [= <- <- <-]. split; [done|]. split; [|done]. eauto.
Qed.

Lemma sync_disk writer d operation world r writer' world' :
  faultline_wal_writer_sync os writer d operation world = (r, writer', world') ->
  view os world' = view os world /\ (forall x, crash os world' x -> crash os world x) /\
  match r with
  | FAULTLINE_WAL_WRITE_OK => writer' = writer /\
      (file (view os world) = Some d ->
       forall x, crash os world' x -> x = None \/ x = content (view os world)) /\
      (directory (view os world) = Some d -> content (view os world) <> None ->
       ~ crash os world' None)
  | FAULTLINE_WAL_WRITE_IO_ERROR => exists e, writer' = faultline_wal_writer_fail writer operation e
  | _ => False
  end.
Proof.
  unfold faultline_wal_writer_sync. destruct (retry os (io_sync os d) world) as [s w1] eqn:E.
  assert (view os w1 = view os world /\ (forall x, crash os w1 x -> crash os world x) /\
    forall u, s = OsOk u ->
      (file (view os world) = Some d ->
       forall x, crash os w1 x -> x = None \/ x = content (view os world)) /\
      (directory (view os world) = Some d -> content (view os world) <> None ->
       ~ crash os w1 None)) as (Hv & Hx & Hs).
  { revert world s w1 E. apply retry_ind; [apply (finite_sync os)|intros; by eapply (law_sync os)|].
    intros world w1 s w2 H (Hv & Hx & Hs). apply (law_sync os) in H as (Hv1 & Hx1 & _).
    rewrite <- Hv1. split; [done|]. split; [auto|]. done. }
  destruct s as [u|e]; intros [= <- <- <-]; split_and!; try done; [by apply (Hs u)..|eauto].
Qed.

(** ** Appending *)

(** A handle that may append: the log is synced and ends where the next record goes. *)
Definition ready (writer : faultline_wal_writer) (world : W) (c : list Z) : Prop :=
  writer_state writer = FAULTLINE_WAL_WRITER_READY /\ attached writer world /\ settled world c.

Definition next_after (sequence : Z) : Z :=
  if sequence =? UINT64_MAX then 0 else u64 (sequence + 1).

Lemma fail_failed writer operation e :
  writer_state (faultline_wal_writer_fail writer operation e) = FAULTLINE_WAL_WRITER_FAILED.
Proof. unfold faultline_wal_writer_fail. by case_bool_decide. Qed.

Lemma append_disk writer record world c r writer' world' :
  ready writer world c -> record_typed record ->
  faultline_wal_writer_append os writer record world = (r, writer', world') ->
  match r with
  | FAULTLINE_WAL_WRITE_OK =>
      ready writer' world' (c ++ record_bytes record) /\ record_ok record /\
      next_sequence writer <> 0 /\ r_sequence record = next_sequence writer /\
      writer' = writer <| synced_sequence := r_sequence record |>
                       <| next_sequence := next_after (r_sequence record) |>
  | FAULTLINE_WAL_WRITE_IO_ERROR =>
      writer_state writer' = FAULTLINE_WAL_WRITER_FAILED /\
      torn world' c (record_bytes record) /\ record_ok record /\
      next_sequence writer <> 0 /\ r_sequence record = next_sequence writer
  | FAULTLINE_WAL_WRITE_SEQUENCE_EXHAUSTED =>
      writer' = writer /\ world' = world /\ next_sequence writer = 0
  | FAULTLINE_WAL_WRITE_INVALID_RECORD =>
      writer' = writer /\ world' = world /\
      (r_sequence record <> next_sequence writer \/ ~ record_ok record)
  | _ => False
  end.
Proof.
  intros (Hst & Ha & Hset) Ht. pose proof Hset as [Hc Hcr]. unfold faultline_wal_writer_append.
  rewrite Hst. cbn. destruct (Z.eqb_spec (next_sequence writer) 0); [by intros [= <- <- <-]|].
  destruct (Z.eqb_spec (r_sequence record) (next_sequence writer)) as [Es|Es]; cbn [negb];
    [|intros [= <- <- <-]; auto].
  destruct (faultline_wal_record_encode FAULTLINE_WAL_MAX_RECORD_SIZE record) as [e|bytes] eqn:Ee.
  { intros [= <- <- <-]. split_and!; try done. right. intros Hok.
    assert (faultline_wal_record_encode FAULTLINE_WAL_MAX_RECORD_SIZE record = inr (record_bytes record));
      [|congruence]. apply record_encode_max; done. }
  apply record_encode_ok in Ee as (Hok & _ & ->); [|done].
  destruct (write_all _ _ _ _ _) as [[r1 writer1] w1] eqn:Ew.
  destruct (write_all_disk _ _ _ _ _ _ _ _ Ha Hc Ew) as (Ha1 & (k & Hk & Hr1) & Hx1).
  assert (torn w1 c (record_bytes record)) as Htorn.
  { split; [eauto|]. intros x H. apply Hx1 in H as [H|H]; [|done]. apply Hcr in H as ->.
    exists 0%nat. by rewrite app_nil_r. }
  destruct r1; try done; cycle 1.
  { destruct Hr1 as [e ->]. intros [= <- <- <-]. split_and!; try done. apply fail_failed. }
  destruct Hr1 as [-> ->]. rewrite take_ge in Hk by done.
  destruct (faultline_wal_writer_sync _ _ _ _ _) as [[r2 writer2] w2] eqn:Es2.
  apply sync_disk in Es2 as (Hv2 & Hx2 & Hr2).
  destruct r2; try done; intros [= <- <- <-].
  - destruct Hr2 as (-> & Hfile & _). split; [|done]. split; [done|].
    unfold attached, settled. rewrite Hv2. split; [done|]. split; [done|].
    intros x H. destruct (Hfile (proj1 Ha1) x H) as [-> | ->]; [|done].
    apply Hx2 in H. apply Htorn in H as [? ?]. done.
  - destruct Hr2 as [e ->]. split; [apply fail_failed|]. split; [|done]. split.
    + rewrite Hv2. apply (proj1 Htorn).
    + intros x H. apply Htorn. auto.
Qed.

(** Nothing is written through a handle that failed. *)
Lemma append_failed writer record world :
  writer_state writer = FAULTLINE_WAL_WRITER_FAILED ->
  faultline_wal_writer_append os writer record world =
  (FAULTLINE_WAL_WRITE_IO_ERROR, writer, world).
Proof. intros H. unfold faultline_wal_writer_append. by rewrite H. Qed.

(** ** Opening and creating *)

Definition unopened (writer : faultline_wal_writer) : Prop :=
  writer_state writer = FAULTLINE_WAL_WRITER_CLOSED /\ fd writer = -1 /\ directory_fd writer = -1.

(** The file is there as before, or was just created empty. *)
Definition opened_from (create : bool) (world world' : W) : Prop :=
  (content (view os world') = content (view os world) \/
   create = true /\ content (view os world) = None /\ content (view os world') = Some []) /\
  forall x, crash os world' x ->
    crash os world x \/ create = true /\ content (view os world) = None /\ x = Some [].

Lemma retry_open p world r world' :
  retry os (os_open os p) world = (r, world') ->
  (forall x, crash os world' x -> crash os world x) /\
  content (view os world') = content (view os world) /\
  match r with OsOk d => directory (view os world') = Some d | OsErr _ => True end.
Proof.
  revert world r world'. apply retry_ind; [apply (finite_open os)|..].
  - intros world r world' H _. apply (law_open os) in H as [Hx H].
    destruct r; [destruct H as [_ H]|]; by rewrite H.
  - intros world w1 r w2 H1 (Hx & Hc & Hr). apply (law_open os) in H1 as [Hx1 H1].
    rewrite Hc, H1. split_and!; auto.
Qed.

Lemma retry_openat d name create world r world' :
  retry os (os_openat os d name create) world = (r, world') ->
  opened_from create world world' /\
  match r with
  | OsOk f =>
      view os world' = mk_view (content (view os world')) 0 (Some f) (directory (view os world)) /\
      (if create then content (view os world) = None /\ content (view os world') = Some []
       else content (view os world) <> None /\ content (view os world') = content (view os world))
  | OsErr _ => True
  end.
Proof.
  revert world r world'. apply retry_ind; [apply (finite_openat os)|..].
  - intros world r world' H _. apply (law_openat os) in H. unfold opened_from.
    destruct r as [f|e]; [destruct H as [_ H]; destruct create|].
    + destruct H as (Hc & Hv & Hx). rewrite Hv. simpl. split_and!; auto.
      intros x Hin. apply Hx in Hin as [?|?]; auto.
    + destruct H as (Hc & Hv & Hx). rewrite Hv. simpl. split_and!; auto.
    + destruct H as [Hv Hx]. rewrite Hv. split_and!; auto.
  - intros world w1 r w2 H1 (Ho & Hr). apply (law_openat os) in H1 as [Hv1 Hx1].
    unfold opened_from in *. rewrite Hv1 in *. split; [|done]. destruct Ho as [? Ho].
    split; [done|]. intros x Hin. apply Ho in Hin as [?|?]; auto.
Qed.

Lemma opened_from_quiet create world w1 w2 :
  opened_from create world w1 -> view os w2 = view os w1 ->
  (forall x, crash os w2 x -> crash os w1 x) -> opened_from create world w2.
Proof. unfold opened_from. intros [Hc Hx] Hv Hsub. rewrite Hv. split; [done|]. auto. Qed.

Lemma opened_from_after create world w1 w2 :
  content (view os w1) = content (view os world) ->
  (forall x, crash os w1 x -> crash os world x) ->
  opened_from create w1 w2 -> opened_from create world w2.
Proof.
  unfold opened_from. intros Hc Hx [Ho Hox]. rewrite <- Hc. split; [done|].
  intros x Hin. apply Hox in Hin as [?|?]; auto.
Qed.

Lemma open_file_disk writer path create world r writer' world' :
  unopened writer -> path <> [] -> ends_in_slash path = false ->
  faultline_wal_writer_open_file os writer path create world = (r, writer', world') ->
  opened_from create world world' /\
  match r with
  | FAULTLINE_WAL_WRITE_OK =>
      attached writer' world' /\ position (view os world') = 0%nat /\
      writer' = mk_wal_writer (fd writer') (directory_fd writer') FAULTLINE_WAL_WRITER_RECOVERING
                  0 0 (system_error writer) (failed_operation writer) true /\
      (if create then content (view os world) = None /\ content (view os world') = Some []
       else content (view os world) <> None /\ content (view os world') = content (view os world))
  | FAULTLINE_WAL_WRITE_IO_ERROR => writer_state writer' = FAULTLINE_WAL_WRITER_FAILED
  | _ => False
  end.
Proof.
  intros (Hst & Hfd & Hdfd) Hp Hs. unfold faultline_wal_writer_open_file.
  rewrite (bool_decide_eq_false_2 (path = [])) by done. rewrite Hs, Hst, Hfd, Hdfd. cbn -[split_path].
  destruct (os_alloc os world) as [b w1] eqn:E1. apply (law_alloc os) in E1 as [Hv1 Hx1].
  assert (opened_from create world w1) as Ho1 by (split; [left; by rewrite Hv1|auto]).
  destruct b; [|intros [= <- <- <-]; split; [done|apply fail_failed]].
  destruct (split_path path) as [dir name].
  destruct (retry os (os_open os dir) w1) as [[d|e] w2] eqn:E2;
    apply retry_open in E2 as (Hx2 & Hc2 & Hd2); rewrite Hv1 in Hc2.
  2: { intros [= <- <- <-]; split; [split; [by left|auto]|apply fail_failed]. }
  destruct (retry os (os_openat os d name create) w2) as [r3 w3] eqn:E3.
  apply retry_openat in E3 as (Ho3 & H3). apply (opened_from_after _ world) in Ho3; [|done|auto].
  destruct r3 as [f|e]; [|intros [= <- <- <-]; split; [done|apply fail_failed]].
  destruct H3 as [Hv3 Hc3].
  destruct (retry os (os_fstat os f) w3) as [r4 w4] eqn:E4.
  apply retry_quiet in E4 as [Hv4 Hx4]; [|apply (finite_fstat os)|apply (law_fstat os)].
  pose proof (opened_from_quiet _ _ _ _ Ho3 Hv4 Hx4) as Ho4.
  destruct r4 as [[]|e]; [|intros [= <- <- <-]; split; [done|apply fail_failed]..].
  destruct (retry os (io_lock os f) w4) as [r5 w5] eqn:E5.
  apply retry_quiet in E5 as [Hv5 Hx5]; [|apply (finite_lock os)|apply (law_lock os)].
  pose proof (opened_from_quiet _ _ _ _ Ho4 Hv5 Hx5) as Ho5.
  destruct r5; intros [= <- <- <-]; (split; [done|]); [|apply fail_failed].
  unfold attached. rewrite Hv5, Hv4, Hv3, <- Hc2. cbn. rewrite Hd2. split_and!; try done.
Qed.

Lemma create_disk writer path world r writer' world' :
  unopened writer -> path <> [] -> ends_in_slash path = false ->
  (forall x, crash os world x -> x = content (view os world)) ->
  faultline_wal_writer_create_with_io os writer path world = (r, writer', world') ->
  match r with
  | FAULTLINE_WAL_WRITE_OK =>
      content (view os world) = None /\ ready writer' world' file_header /\
      writer' = mk_wal_writer (fd writer') (directory_fd writer') FAULTLINE_WAL_WRITER_READY
                  1 0 (system_error writer) (failed_operation writer) true
  | FAULTLINE_WAL_WRITE_IO_ERROR =>
      writer_state writer' = FAULTLINE_WAL_WRITER_FAILED /\
      match content (view os world) with
      | Some c => settled world' c
      | None => forall x, crash os world' x -> x = None \/ exists k, x = Some (take k file_header)
      end
  | _ => False
  end.
Proof.
  intros Hu Hp Hs Hx. unfold faultline_wal_writer_create_with_io.
  destruct (faultline_wal_writer_open_file _ _ _ _ _) as [[r1 writer1] w1] eqn:E1.
  apply open_file_disk in E1 as [[Hc1 Hx1] H1]; [|done..].
  destruct r1; try done; cycle 1.
  { intros [= <- <- <-]. split; [done|]. destruct (content (view os world)) as [c|] eqn:Ec.
    - destruct Hc1 as [Hc1|(? & ? & ?)]; [|done]. split; [done|].
      intros x Hin. destruct (Hx1 x Hin) as [Hin'|(_ & ? & _)]; [by apply Hx|done].
    - intros x Hin. destruct (Hx1 x Hin) as [Hin'|(_ & _ & ->)]; [left; auto|].
      right. by exists 0%nat. }
  destruct H1 as (Ha1 & _ & Hw1 & Hnone & Hsome). rewrite Hnone in Hx |- *.
  assert (forall x, crash os w1 x -> x = None \/ exists k, x = Some (take k file_header)) as Hp1.
  { intros x Hin. destruct (Hx1 x Hin) as [Hin'|(_ & _ & ->)]; [left; auto|].
    right. by exists 0%nat. }
  change (faultline_wal_file_header_encode FAULTLINE_WAL_FILE_HEADER_SIZE)
    with (inr file_header : faultline_wal_result + list Z). cbn match.
  destruct (write_all _ _ _ _ _) as [[r2 writer2] w2] eqn:E2.
  destruct (write_all_disk _ _ _ _ _ _ _ _ Ha1 Hsome E2) as (Ha2 & (k & Hk & Hr2) & Hx2).
  assert (forall x, crash os w2 x -> x = None \/ exists k, x = Some (take k file_header)) as Hp2.
  { intros x Hin. apply Hx2 in Hin as [Hin|[m ->]]; [auto|]. right. by exists m. }
  destruct r2; try done; cycle 1.
  { destruct Hr2 as [e ->]. intros [= <- <- <-]. split; [apply fail_failed|done]. }
  destruct Hr2 as [-> ->].
  destruct (faultline_wal_writer_sync _ _ _ FAULTLINE_WAL_IO_SYNC_HEADER _)
    as [[r3 writer3] w3] eqn:E3. apply sync_disk in E3 as (Hv3 & Hx3 & Hr3).
  destruct r3; try done; cycle 1.
  { destruct Hr3 as [e ->]. intros [= <- <- <-]. split; [apply fail_failed|auto]. }
  destruct Hr3 as (-> & Hfile & _). specialize (Hfile (proj1 Ha2)).
  destruct (faultline_wal_writer_sync _ _ _ FAULTLINE_WAL_IO_SYNC_DIRECTORY _)
    as [[r4 writer4] w4] eqn:E4. apply sync_disk in E4 as (Hv4 & Hx4 & Hr4).
  destruct r4; try done; cycle 1.
  { destruct Hr4 as [e ->]. intros [= <- <- <-]. split; [apply fail_failed|auto]. }
  destruct Hr4 as (-> & _ & Hdir). intros [= <- <- <-]. rewrite Hv3, Hk in Hdir.
  specialize (Hdir (proj2 Ha2) ltac:(done)). split; [done|].
  split; [|rewrite Hw1; done]. split; [done|].
  unfold attached, settled. rewrite Hv4, Hv3. split; [done|]. split; [done|].
  intros x Hin. assert (crash os w3 x) as Hin3 by auto. apply Hfile in Hin3 as [-> | ->]; done.
Qed.

(** ** Properties *)

(** C17: An append that reports success has put the whole encoded record behind the old log and
    synced it: nothing else can be found after a kill. One that reports an I/O error has put there
    some part of the record, and the handle has failed for good. Every other outcome has not
    touched the log or the handle. *)
Theorem append_durable writer record world c r writer' world' :
  ready writer world c -> record_typed record ->
  faultline_wal_writer_append os writer record world = (r, writer', world') ->
  match r with
  | FAULTLINE_WAL_WRITE_OK =>
      exists bytes,
        faultline_wal_record_encode FAULTLINE_WAL_MAX_RECORD_SIZE record = inr bytes /\
        ready writer' world' (c ++ bytes) /\ synced_sequence writer' = next_sequence writer
  | FAULTLINE_WAL_WRITE_IO_ERROR =>
      writer_state writer' = FAULTLINE_WAL_WRITER_FAILED /\
      exists bytes,
        faultline_wal_record_encode FAULTLINE_WAL_MAX_RECORD_SIZE record = inr bytes /\
        torn world' c bytes
  | _ => writer' = writer /\ world' = world
  end.
Proof.
  intros Hr Ht H. apply (append_disk _ _ _ _ _ _ _ Hr Ht) in H. destruct r; try tauto.
  - destruct H as (H & Hok & _ & Hs & ->). exists (record_bytes record).
    split; [by apply record_encode_max|]. by rewrite <- Hs.
  - destruct H as (Hf & Hx & Hok & _). split; [done|]. exists (record_bytes record).
    split; [by apply record_encode_max|done].
Qed.

(** Creating a log that is reported to have succeeded leaves exactly the file header, in a file
    that is certain to exist, and a handle whose next sequence number is 1. A log that exists
    already is never touched; a failed creation leaves at most a part of the header. *)
Theorem create_durable writer path world r writer' world' :
  unopened writer -> path <> [] -> ends_in_slash path = false ->
  (forall x, crash os world x -> x = content (view os world)) ->
  faultline_wal_writer_create_with_io os writer path world = (r, writer', world') ->
  match r with
  | FAULTLINE_WAL_WRITE_OK =>
      content (view os world) = None /\ ready writer' world' file_header /\
      faultline_wal_file_header_decode file_header = FAULTLINE_WAL_OK /\ next_sequence writer' = 1
  | FAULTLINE_WAL_WRITE_IO_ERROR =>
      writer_state writer' = FAULTLINE_WAL_WRITER_FAILED /\
      match content (view os world) with
      | Some c => settled world' c
      | None => forall x, crash os world' x -> x = None \/ exists k, x = Some (take k file_header)
      end
  | _ => False
  end.
Proof.
  intros Hu Hp Hs Hx H. apply create_disk in H; [|done..]. destruct r; try done.
  destruct H as (H1 & H2 & H3). split; [done|]. split; [done|].
  split; [vm_compute; reflexivity|by rewrite H3].
Qed.

(** The write loop terminates: it satisfies, without any bound, the equation of the source loop,
    in which interrupted calls are repeated, short writes go on with the rest and calls that make
    no progress fail the handle; and so does the loop around every other interruptible call. *)
Theorem io_loops_terminate writer bytes operation world :
  write_all os writer bytes operation world =
    match bytes with
    | [] => (FAULTLINE_WAL_WRITE_OK, writer, world)
    | _ =>
        match io_write os (fd writer) bytes world with
        | (OsErr error, world') =>
            if error =? EINTR then write_all os writer bytes operation world'
            else (FAULTLINE_WAL_WRITE_IO_ERROR,
                  faultline_wal_writer_fail writer operation error, world')
        | (OsOk written, world') =>
            if (written =? 0) || (Z.of_nat (length bytes) <? written) then
              (FAULTLINE_WAL_WRITE_IO_ERROR,
               faultline_wal_writer_fail writer operation EIO, world')
            else write_all os writer (drop (Z.to_nat written) bytes) operation world'
        end
    end /\
  forall A (call : os_call W A), interruptible os call ->
    retry os call world =
      match call world with
      | (OsErr error, world') =>
          if error =? EINTR then retry os call world' else (OsErr error, world')
      | (OsOk value, world') => (OsOk value, world')
      end.
Proof. split; [apply (write_all_eq os)|]. intros A call. apply retry_eq. Qed.

End WriterProofs.

(** ** Witnesses, on the simulated disk *)

Definition sample_path : list Z := [47; 119; 47; 108].

Lemma blank_disk_settled script x :
  crash sim_os (blank_disk script) x -> x = content (view sim_os (blank_disk script)).
Proof. intros Hx. by apply list_elem_of_singleton in Hx. Qed.

(** An interrupted call and a short write on the way. *)
Definition sample_start : sim :=
  blank_disk [Proceed; Fault EINTR; Proceed; Proceed; Proceed; Proceed; Limit 10].

Definition sample_created : faultline_wal_writer_result * faultline_wal_writer * sim :=
  faultline_wal_writer_create_with_io sim_os FAULTLINE_WAL_WRITER_INIT sample_path sample_start.

Definition sample_writer : faultline_wal_writer := snd (fst sample_created).
Definition sample_log : sim := snd sample_created.

(** The next append is cut short once and interrupted once. *)
Definition sample_faulty : sim := mk_sim (sim_view sample_log) (sim_images sample_log)
  [Limit 3; Fault EINTR; Limit 50].

Lemma sample_faulty_ready : ready sim_os sample_writer sample_faulty file_header.
Proof.
  vm_compute. split; [done|]. split; [done|]. split; [done|].
  intros x Hx. by apply list_elem_of_singleton in Hx.
Qed.

Definition first_record : faultline_wal_record :=
  mk_wal_record FAULTLINE_WAL_JOB_CREATED 1 0 sample_job.

Lemma first_record_typed : record_typed first_record.
Proof. split; [done|]. apply sample_record_typed. Qed.

Lemma append_durable_witness :
  let '(r, writer', world') :=
    faultline_wal_writer_append sim_os sample_writer first_record sample_faulty in
  r = FAULTLINE_WAL_WRITE_OK /\
  match r with
  | FAULTLINE_WAL_WRITE_OK =>
      exists bytes,
        faultline_wal_record_encode FAULTLINE_WAL_MAX_RECORD_SIZE first_record = inr bytes /\
        ready sim_os writer' world' (file_header ++ bytes) /\
        synced_sequence writer' = next_sequence sample_writer
  | _ => True
  end.
Proof.
  destruct (faultline_wal_writer_append sim_os sample_writer first_record sample_faulty)
    as [[r writer'] world'] eqn:E.
  pose proof (append_durable sim_os sample_writer first_record sample_faulty file_header
    r writer' world' sample_faulty_ready first_record_typed E) as H.
  assert (r = FAULTLINE_WAL_WRITE_OK) as ->.
  { change r with (fst (fst (r, writer', world'))). rewrite <- E. vm_compute. reflexivity. }
  split; [reflexivity|exact H].
Defined.

Lemma create_durable_witness :
  let '(r, writer', world') := sample_created in
  r = FAULTLINE_WAL_WRITE_OK /\
  match r with
  | FAULTLINE_WAL_WRITE_OK =>
      content (view sim_os sample_start) = None /\ ready sim_os writer' world' file_header /\
      faultline_wal_file_header_decode file_header = FAULTLINE_WAL_OK /\ next_sequence writer' = 1
  | _ => True
  end.
Proof.
  destruct sample_created as [[r writer'] world'] eqn:E.
  pose proof (create_durable sim_os FAULTLINE_WAL_WRITER_INIT sample_path sample_start r writer' world'
    ltac:(done) ltac:(done) ltac:(done) (blank_disk_settled _) E) as H.
  assert (r = FAULTLINE_WAL_WRITE_OK) as ->.
  { change r with (fst (fst (r, writer', world'))). rewrite <- E. vm_compute. reflexivity. }
  split; [reflexivity|exact H].
Defined.

(** One interruption and one short write, followed call by call. *)
Lemma io_loops_terminate_witness :
  write_all sim_os sample_writer [1; 2; 3; 4; 5] FAULTLINE_WAL_IO_WRITE_RECORD sample_faulty =
    match io_write sim_os (fd sample_writer) [1; 2; 3; 4; 5] sample_faulty with
    | (OsErr error, world') =>
        if error =? EINTR then
          write_all sim_os sample_writer [1; 2; 3; 4; 5] FAULTLINE_WAL_IO_WRITE_RECORD world'
        else (FAULTLINE_WAL_WRITE_IO_ERROR,
              faultline_wal_writer_fail sample_writer FAULTLINE_WAL_IO_WRITE_RECORD error, world')
    | (OsOk written, world') =>
        if (written =? 0) || (Z.of_nat (length [1; 2; 3; 4; 5]) <? written) then
          (FAULTLINE_WAL_WRITE_IO_ERROR,
           faultline_wal_writer_fail sample_writer FAULTLINE_WAL_IO_WRITE_RECORD EIO, world')
        else write_all sim_os sample_writer (drop (Z.to_nat written) [1; 2; 3; 4; 5])
               FAULTLINE_WAL_IO_WRITE_RECORD world'
    end.
Proof.
  exact (proj1 (io_loops_terminate sim_os sample_writer [1; 2; 3; 4; 5]
    FAULTLINE_WAL_IO_WRITE_RECORD sample_faulty)).
Defined.
