(* ===== verification/WalReplay.v ===== *)
(** Recovery of an existing log: [include/wal_replay.h],
    [src/coordinator/wal_replay.c].

    The candidate state is built record by record: each decoded record is applied by the
    same job and queue operations that produced it, and the snapshot these give must be the
    logged one byte for byte. Only an incomplete final record is cut off. *)

From S2P Require Import Prelude Job JobQueue WorkerRegistry Scheduler Wal WalWriter.

(** ** Types *)

Record faultline_wal_replay_state := mk_replay_state {
  rs_scheduler : faultline_scheduler;
  rs_workers : faultline_worker_registry;
  rs_last_sequence : Z;
  rs_highest_job_id : Z;
  rs_highest_worker_id : Z;
  rs_job_time_base_ms : Z;
}.

#[export] Instance set_rs_scheduler : Setter rs_scheduler := fun v w =>
  mk_replay_state v (rs_workers w) (rs_last_sequence w) (rs_highest_job_id w)
    (rs_highest_worker_id w) (rs_job_time_base_ms w).
#[export] Instance set_rs_workers : Setter rs_workers := fun v w =>
  mk_replay_state (rs_scheduler w) v (rs_last_sequence w) (rs_highest_job_id w)
    (rs_highest_worker_id w) (rs_job_time_base_ms w).
#[export] Instance set_rs_last_sequence : Setter rs_last_sequence := fun v w =>
  mk_replay_state (rs_scheduler w) (rs_workers w) v (rs_highest_job_id w)
    (rs_highest_worker_id w) (rs_job_time_base_ms w).
#[export] Instance set_rs_highest_job_id : Setter rs_highest_job_id := fun v w =>
  mk_replay_state (rs_scheduler w) (rs_workers w) (rs_last_sequence w) v
    (rs_highest_worker_id w) (rs_job_time_base_ms w).
#[export] Instance set_rs_highest_worker_id : Setter rs_highest_worker_id := fun v w =>
  mk_replay_state (rs_scheduler w) (rs_workers w) (rs_last_sequence w) (rs_highest_job_id w) v
    (rs_job_time_base_ms w).
#[export] Instance set_rs_job_time_base_ms : Setter rs_job_time_base_ms := fun v w =>
  mk_replay_state (rs_scheduler w) (rs_workers w) (rs_last_sequence w) (rs_highest_job_id w)
    (rs_highest_worker_id w) v.

Inductive faultline_wal_replay_result :=
| FAULTLINE_WAL_REPLAY_OK
| FAULTLINE_WAL_REPLAY_INVALID_ARGUMENT
| FAULTLINE_WAL_REPLAY_INVALID_STATE
| FAULTLINE_WAL_REPLAY_IO_ERROR
| FAULTLINE_WAL_REPLAY_BAD_FORMAT
| FAULTLINE_WAL_REPLAY_BAD_HISTORY
| FAULTLINE_WAL_REPLAY_CAPACITY
| FAULTLINE_WAL_REPLAY_NO_MEMORY.

Inductive faultline_wal_history_error :=
| FAULTLINE_WAL_HISTORY_OK
| FAULTLINE_WAL_HISTORY_ALLOCATION
| FAULTLINE_WAL_HISTORY_UNKNOWN_JOB
| FAULTLINE_WAL_HISTORY_UNKNOWN_WORKER
| FAULTLINE_WAL_HISTORY_BUSY_WORKER
| FAULTLINE_WAL_HISTORY_FIFO
| FAULTLINE_WAL_HISTORY_TIME
| FAULTLINE_WAL_HISTORY_TRANSITION
| FAULTLINE_WAL_HISTORY_SNAPSHOT.

#[export] Instance faultline_wal_replay_result_eq_dec : EqDecision faultline_wal_replay_result.
Proof. solve_decision. Defined.
#[export] Instance faultline_wal_history_error_eq_dec : EqDecision faultline_wal_history_error.
Proof. solve_decision. Defined.

Record faultline_wal_replay_report := mk_replay_report {
  valid_bytes : Z;
  tail_bytes : Z;
  error_offset : Z;
  report_last_sequence : Z;
  report_format_error : faultline_wal_result;
  report_history_error : faultline_wal_history_error;
}.

#[export] Instance set_valid_bytes : Setter valid_bytes := fun v w =>
  mk_replay_report v (tail_bytes w) (error_offset w) (report_last_sequence w)
    (report_format_error w) (report_history_error w).
#[export] Instance set_tail_bytes : Setter tail_bytes := fun v w =>
  mk_replay_report (valid_bytes w) v (error_offset w) (report_last_sequence w)
    (report_format_error w) (report_history_error w).
#[export] Instance set_error_offset : Setter error_offset := fun v w =>
  mk_replay_report (valid_bytes w) (tail_bytes w) v (report_last_sequence w)
    (report_format_error w) (report_history_error w).
#[export] Instance set_report_last_sequence : Setter report_last_sequence := fun v w =>
  mk_replay_report (valid_bytes w) (tail_bytes w) (error_offset w) v (report_format_error w)
    (report_history_error w).
#[export] Instance set_report_format_error : Setter report_format_error := fun v w =>
  mk_replay_report (valid_bytes w) (tail_bytes w) (error_offset w) (report_last_sequence w) v
    (report_history_error w).
#[export] Instance set_report_history_error : Setter report_history_error := fun v w =>
  mk_replay_report (valid_bytes w) (tail_bytes w) (error_offset w) (report_last_sequence w)
    (report_format_error w) v.

Definition zero_report : faultline_wal_replay_report :=
  mk_replay_report 0 0 0 0 FAULTLINE_WAL_OK FAULTLINE_WAL_HISTORY_OK.

Record worker_range := mk_range { first : Z; range_last : Z }.

(** The array in use is [ranges]; [capacity] is the number of allocated elements. *)
Record worker_index := mk_index { ranges : list worker_range; capacity : Z }.

Definition empty_index : worker_index := mk_index [] 0.

Definition SIZE_MAX : Z := UINT64_MAX.

(** [sizeof (struct worker_range)] *)
Definition worker_range_size : Z := 8.

Definition history_error (r : faultline_wal_replay_report) (error : faultline_wal_history_error) :
    faultline_wal_replay_result * faultline_wal_replay_report :=
  (FAULTLINE_WAL_REPLAY_BAD_HISTORY,
   r <| report_history_error := error |>).

Definition format_error (r : faultline_wal_replay_report) (error : faultline_wal_result) :
    faultline_wal_replay_result * faultline_wal_replay_report :=
  (FAULTLINE_WAL_REPLAY_BAD_FORMAT,
   r <| report_format_error := error |>).

(** ** The index of allocated worker IDs *)

(** The last range, when the array is not empty. *)
Definition last_range (index : worker_index) : option worker_range := last (ranges index).

(** Binary search between [low] and [high]; each round halves the interval. *)
Fixpoint search_ranges (fuel : nat) (l : list worker_range) (id : Z) (low high : nat) : bool :=
  match fuel with
  | O => false
  | S fuel =>
      if (low <? high)%nat then
        let middle := (low + (high - low) / 2)%nat in
        match l !! middle with
        | None => false
        | Some range =>
            if id <? first range then search_ranges fuel l id low middle
            else if range_last range <? id then search_ranges fuel l id (S middle) high
            else true
        end
      else false
  end.

Definition worker_was_allocated (index : worker_index) (id : Z) : bool :=
  search_ranges (S (length (ranges index))) (ranges index) id 0 (length (ranges index)).

(** ** Applying one record *)

(** The bytes of the record with the derived snapshot are the logged bytes. *)
Definition matches_snapshot (candidate : faultline_job) (record : faultline_wal_record)
    (wire : list Z) : bool :=
  match faultline_wal_record_encode FAULTLINE_WAL_MAX_RECORD_SIZE
          (mk_wal_record (r_type record) (r_sequence record) 0 candidate) with
  | inr bytes => bool_decide (bytes = wire)
  | inl _ => false
  end.

Section Replay.
Context {W : Type} (os : wal_os W).

(** A new range at the end; [None] when the array cannot grow. *)
Definition add_range (index : worker_index) (id : Z) (world : W) : option worker_index * W :=
  let added capacity := mk_index (ranges index ++ [mk_range id id]) capacity in
  if Z.of_nat (length (ranges index)) =? capacity index then
    if SIZE_MAX / 2 / worker_range_size <? capacity index then (None, world)
    else
      match os_alloc os world with
      | (false, world) => (None, world)
      | (true, world) =>
          (Some (added (if capacity index =? 0 then 16 else capacity index * 2)), world)
      end
  else (Some (added (capacity index)), world).

Definition allocate_worker (state : faultline_wal_replay_state) (index : worker_index) (id : Z)
    (report : faultline_wal_replay_report) (world : W) :
    faultline_wal_replay_result * faultline_wal_replay_state * worker_index *
    faultline_wal_replay_report * W :=
  if id <=? rs_highest_worker_id state then
    let '(result, report) := history_error report FAULTLINE_WAL_HISTORY_ALLOCATION in
    (result, state, index, report, world)
  else
    let '(grown, world) :=
      match last_range index with
      | Some range =>
          if range_last range + 1 =? id then
            (Some (mk_index (<[pred (length (ranges index)) := mk_range (first range) id]>
                               (ranges index)) (capacity index)), world)
          else add_range index id world
      | None => add_range index id world
      end in
    match grown with
    | None => (FAULTLINE_WAL_REPLAY_NO_MEMORY, state, index, report, world)
    | Some index =>
        (FAULTLINE_WAL_REPLAY_OK,
         state <| rs_highest_worker_id := id |>
               <| rs_workers := mk_registry (workers (rs_workers state))
                                  (if id =? UINT32_MAX then 0 else u32 (id + 1)) |>,
         index, report, world)
    end.

End Replay.

(** The snapshot the logged transition gives, from the state before it; [inl] is the refusal. *)
Definition derive_candidate (state : faultline_wal_replay_state) (index : worker_index)
    (record : faultline_wal_record) :
    faultline_wal_replay_result * faultline_wal_history_error +
    faultline_job_result * faultline_job :=
  let saved := r_job record in
  let scheduler := rs_scheduler state in
  let slot := Scheduler.find_slot scheduler (job_id saved) in
  let bad error := inl (FAULTLINE_WAL_REPLAY_BAD_HISTORY, error) in
  if bool_decide (r_type record = FAULTLINE_WAL_JOB_CREATED) then
    if job_id saved <=? rs_highest_job_id state then bad FAULTLINE_WAL_HISTORY_ALLOCATION
    else if (sched_count scheduler =? FAULTLINE_JOB_STORE_CAPACITY)%nat then
      inl (FAULTLINE_WAL_REPLAY_CAPACITY, FAULTLINE_WAL_HISTORY_OK)
    else
      inr (faultline_job_init zero_job (job_id saved) (task_type saved) (Some (arguments saved))
             (argument_size saved) (max_retries saved) (created_at_ms saved))
  else if (slot =? sched_count scheduler)%nat then bad FAULTLINE_WAL_HISTORY_UNKNOWN_JOB
  else
    let candidate := sched_jobs scheduler !!! slot in
    match r_type record with
    | FAULTLINE_WAL_JOB_ASSIGNED =>
        if negb (worker_was_allocated index (worker_id saved)) then
          bad FAULTLINE_WAL_HISTORY_UNKNOWN_WORKER
        else if bool_decide (faultline_scheduler_active scheduler (worker_id saved) <> None) then
          bad FAULTLINE_WAL_HISTORY_BUSY_WORKER
        else if negb (bool_decide (faultline_job_queue_peek (pending scheduler) =
                                   (FAULTLINE_JOB_QUEUE_OK, Some (job_id saved)))) then
          bad FAULTLINE_WAL_HISTORY_FIFO
        else inr (faultline_job_assign candidate (worker_id saved) (updated_at_ms saved))
    | FAULTLINE_WAL_JOB_STARTED =>
        inr (faultline_job_start candidate (worker_id saved) (attempt saved) (updated_at_ms saved))
    | FAULTLINE_WAL_JOB_COMPLETED =>
        inr (faultline_job_complete candidate (worker_id saved) (attempt saved)
               (Some (result saved)) (result_size saved) (updated_at_ms saved))
    | FAULTLINE_WAL_JOB_REQUEUED | FAULTLINE_WAL_JOB_FAILED =>
        inr (faultline_job_fail candidate (worker_id candidate) (attempt saved) (failure saved)
               (updated_at_ms saved))
    | _ => bad FAULTLINE_WAL_HISTORY_TRANSITION
    end.

(** The queue after the transition; [None] is the queue error. *)
Definition replay_queue (queue : faultline_job_queue) (record : faultline_wal_record)
    (candidate : faultline_job) : option faultline_job_queue :=
  if bool_decide (r_type record = FAULTLINE_WAL_JOB_ASSIGNED) then
    match faultline_job_queue_pop queue with
    | (FAULTLINE_JOB_QUEUE_OK, Some removed, queue) =>
        if removed =? job_id (r_job record) then Some queue else None
    | _ => None
    end
  else if bool_decide (job_state candidate = FAULTLINE_JOB_QUEUED) then
    match faultline_job_queue_push queue candidate with
    | (FAULTLINE_JOB_QUEUE_OK, queue) => Some queue
    | _ => None
    end
  else Some queue.

(** A job record; the state is the old one when it is refused. *)
Definition apply_job_record (state : faultline_wal_replay_state) (index : worker_index)
    (record : faultline_wal_record) (wire : list Z) :
    (faultline_wal_replay_result * faultline_wal_history_error) + faultline_wal_replay_state :=
  let saved := r_job record in
  let scheduler := rs_scheduler state in
  let bad error := inl (FAULTLINE_WAL_REPLAY_BAD_HISTORY, error) in
  if updated_at_ms saved <? rs_job_time_base_ms state then bad FAULTLINE_WAL_HISTORY_TIME
  else
    let slot := Scheduler.find_slot scheduler (job_id saved) in
    match derive_candidate state index record with
    | inl refusal => inl refusal
    | inr (FAULTLINE_JOB_OK, candidate) =>
        if negb (matches_snapshot candidate record wire) then bad FAULTLINE_WAL_HISTORY_SNAPSHOT
        else
          match replay_queue (pending scheduler) record candidate with
          | None => bad FAULTLINE_WAL_HISTORY_FIFO
          | Some queue =>
              let created := bool_decide (r_type record = FAULTLINE_WAL_JOB_CREATED) in
              inr (mk_replay_state
                (mk_scheduler (<[slot := candidate]> (sched_jobs scheduler))
                   (if created then S (sched_count scheduler) else sched_count scheduler)
                   (if created then if job_id saved =? UINT64_MAX then 0 else u64 (job_id saved + 1)
                    else next_job_id scheduler)
                   queue)
                (rs_workers state) (rs_last_sequence state)
                (if created then job_id saved else rs_highest_job_id state)
                (rs_highest_worker_id state) (updated_at_ms saved))
          end
    | inr _ => bad FAULTLINE_WAL_HISTORY_TRANSITION
    end.

(** ** Reading the log *)

Section ReplayOpen.
Context {W : Type} (os : wal_os W).

Definition apply_record (state : faultline_wal_replay_state) (index : worker_index)
    (record : faultline_wal_record) (wire : list Z) (report : faultline_wal_replay_report)
    (world : W) :
    faultline_wal_replay_result * faultline_wal_replay_state * worker_index *
    faultline_wal_replay_report * W :=
  if bool_decide (r_type record = FAULTLINE_WAL_WORKER_ID_ALLOCATED) then
    allocate_worker os state index (r_worker_id record) report world
  else
    match apply_job_record state index record wire with
    | inl (FAULTLINE_WAL_REPLAY_BAD_HISTORY, error) =>
        let '(result, report) := history_error report error in
        (result, state, index, report, world)
    | inl (result, _) => (result, state, index, report, world)
    | inr state => (FAULTLINE_WAL_REPLAY_OK, state, index, report, world)
    end.

(** [received] are the bytes read so far; [None] is the return of -1. *)
Fixpoint read_loop (fuel : nat) (writer : faultline_wal_writer) (size : Z) (received : list Z)
    (world : W) : option (list Z) * faultline_wal_writer * W :=
  let failed error world :=
    (None, faultline_wal_writer_fail writer FAULTLINE_WAL_IO_READ_FILE error, world) in
  let wanted := size - Z.of_nat (length received) in
  if 0 <? wanted then
    match io_read os (fd writer) wanted world with
    | (OsErr error, world) =>
        if error =? EINTR then
          match fuel with
          | O => failed error world
          | S fuel => read_loop fuel writer size received world
          end
        else failed error world
    | (OsOk [], world) => (Some received, writer, world)
    | (OsOk bytes, world) =>
        if wanted <? Z.of_nat (length bytes) then failed EIO world
        else
          match fuel with
          | O => failed EIO world
          | S fuel => read_loop fuel writer size (received ++ bytes) world
          end
    end
  else (Some received, writer, world).

Definition read_exact (writer : faultline_wal_writer) (size : Z) (world : W) :
    option (list Z) * faultline_wal_writer * W :=
  read_loop (os_interrupts os world + Z.to_nat size) writer size [] world.

(** What the loop of [read_history] changes. *)
Record replay_run := mk_run {
  run_writer : faultline_wal_writer;
  run_state : faultline_wal_replay_state;
  run_index : worker_index;
  run_report : faultline_wal_replay_report;
  run_world : W;
}.

(** The rest of one round, after a complete record header was read. *)
Definition read_record (run : replay_run) (bytes : list Z) :
    option faultline_wal_replay_result * replay_run :=
  let '(mk_run writer state index report world) := run in
  let sequence := u64 (rs_last_sequence state + 1) in
  match faultline_wal_record_header_decode bytes sequence with
  | inl format =>
      let '(result, report) := format_error report format in
      (Some result, mk_run writer state index report world)
  | inr header =>
      match read_exact writer (rh_payload_length header) world with
      | (None, writer, world) =>
          (Some FAULTLINE_WAL_REPLAY_IO_ERROR, mk_run writer state index report world)
      | (Some payload, writer, world) =>
          let received := Z.of_nat (length payload) in
          if received <? rh_payload_length header then
            (Some FAULTLINE_WAL_REPLAY_OK,
             mk_run writer state index
               (report <| tail_bytes := FAULTLINE_WAL_RECORD_HEADER_SIZE + received |>) world)
          else
            let wire := bytes ++ payload in
            let size := FAULTLINE_WAL_RECORD_HEADER_SIZE + received in
            match faultline_wal_record_decode wire sequence with
            | inl format =>
                let '(result, report) := format_error report format in
                (Some result, mk_run writer state index report world)
            | inr (record, _) =>
                if INT64_MAX - size <? valid_bytes report then
                  (Some FAULTLINE_WAL_REPLAY_IO_ERROR,
                   mk_run (faultline_wal_writer_fail writer FAULTLINE_WAL_IO_READ_FILE EOVERFLOW)
                     state index report world)
                else
                  match apply_record state index record wire report world with
                  | (FAULTLINE_WAL_REPLAY_OK, state, index, report, world) =>
                      (None,
                       mk_run writer (state <| rs_last_sequence := sequence |>) index
                         (report <| report_last_sequence := sequence |>
                                 <| valid_bytes := u64 (valid_bytes report + size) |>) world)
                  | (result, state, index, report, world) =>
                      (Some result, mk_run writer state index report world)
                  end
            end
      end
  end.

(** One round of the loop; [None] goes on, [Some] returns. *)
Definition history_step (run : replay_run) : option faultline_wal_replay_result * replay_run :=
  let '(mk_run writer state index report world) := run in
  let report := report <| error_offset := valid_bytes report |> in
  match read_exact writer FAULTLINE_WAL_RECORD_HEADER_SIZE world with
  | (None, writer, world) =>
      (Some FAULTLINE_WAL_REPLAY_IO_ERROR, mk_run writer state index report world)
  | (Some [], writer, world) =>
      (Some FAULTLINE_WAL_REPLAY_OK, mk_run writer state index report world)
  | (Some bytes, writer, world) =>
      if rs_last_sequence state =? UINT64_MAX then
        let '(result, report) := format_error report FAULTLINE_WAL_INVALID_SEQUENCE in
        (Some result, mk_run writer state index report world)
      else if Z.of_nat (length bytes) <? FAULTLINE_WAL_RECORD_HEADER_SIZE then
        (Some FAULTLINE_WAL_REPLAY_OK,
         mk_run writer state index (report <| tail_bytes := Z.of_nat (length bytes) |>) world)
      else read_record (mk_run writer state index report world) bytes
  end.

Fixpoint history_loop (fuel : nat) (run : replay_run) : faultline_wal_replay_result * replay_run :=
  match history_step run with
  | (Some result, run) => (result, run)
  | (None, run) =>
      match fuel with
      | O => (FAULTLINE_WAL_REPLAY_IO_ERROR, run)
      | S fuel => history_loop fuel run
      end
  end.

Definition read_history (run : replay_run) : faultline_wal_replay_result * replay_run :=
  let '(mk_run writer state index report world) := run in
  match read_exact writer FAULTLINE_WAL_FILE_HEADER_SIZE world with
  | (None, writer, world) =>
      (FAULTLINE_WAL_REPLAY_IO_ERROR, mk_run writer state index report world)
  | (Some bytes, writer, world) =>
      match faultline_wal_file_header_decode bytes with
      | FAULTLINE_WAL_OK =>
          history_loop (os_unread os world)
            (mk_run writer state index (report <| valid_bytes := FAULTLINE_WAL_FILE_HEADER_SIZE |>) world)
      | format =>
          let '(result, report) := format_error report format in
          (result, mk_run writer state index report world)
      end
  end.

Definition initial_replay_state : faultline_wal_replay_state :=
  mk_replay_state faultline_scheduler_init faultline_worker_registry_init 0 0 0 0.

(** Cutting off the incomplete tail. *)
Definition truncate_tail (writer : faultline_wal_writer) (report : faultline_wal_replay_report)
    (world : W) : faultline_wal_replay_result * faultline_wal_writer * W :=
  if tail_bytes report !=? 0 then
    match retry os (io_truncate os (fd writer) (valid_bytes report)) world with
    | (OsOk _, world) => (FAULTLINE_WAL_REPLAY_OK, writer, world)
    | (OsErr error, world) =>
        (FAULTLINE_WAL_REPLAY_IO_ERROR,
         faultline_wal_writer_fail writer FAULTLINE_WAL_IO_TRUNCATE_TAIL error, world)
    end
  else (FAULTLINE_WAL_REPLAY_OK, writer, world).

(** Syncing the file and its directory. *)
Definition sync_recovery (writer : faultline_wal_writer) (world : W) :
    faultline_wal_replay_result * faultline_wal_writer * W :=
  match faultline_wal_writer_sync os writer (fd writer) FAULTLINE_WAL_IO_SYNC_RECOVERY world with
  | (FAULTLINE_WAL_WRITE_OK, writer, world) =>
      match faultline_wal_writer_sync os writer (directory_fd writer)
              FAULTLINE_WAL_IO_SYNC_DIRECTORY world with
      | (FAULTLINE_WAL_WRITE_OK, writer, world) => (FAULTLINE_WAL_REPLAY_OK, writer, world)
      | (_, writer, world) => (FAULTLINE_WAL_REPLAY_IO_ERROR, writer, world)
      end
  | (_, writer, world) => (FAULTLINE_WAL_REPLAY_IO_ERROR, writer, world)
  end.

(** The failure a refused log leaves in the handle, unless an I/O error is there already. *)
Definition refuse_log (result : faultline_wal_replay_result) (writer : faultline_wal_writer) :
    faultline_wal_writer :=
  faultline_wal_writer_fail writer
    (if bool_decide (result = FAULTLINE_WAL_REPLAY_NO_MEMORY) then FAULTLINE_WAL_IO_ALLOCATE_REPLAY
     else FAULTLINE_WAL_IO_VALIDATE_REPLAY)
    (if bool_decide (result = FAULTLINE_WAL_REPLAY_NO_MEMORY) then ENOMEM
     else if bool_decide (result = FAULTLINE_WAL_REPLAY_CAPACITY) then EOVERFLOW else EILSEQ).

(** The recovered state is [None] unless it is published. *)
Definition faultline_wal_replay_open_with_io (writer : faultline_wal_writer) (path : list Z)
    (old_report : faultline_wal_replay_report) (world : W) :
    faultline_wal_replay_result * faultline_wal_writer * option faultline_wal_replay_state *
    faultline_wal_replay_report * W :=
  if bool_decide (path = []) || ends_in_slash path then
    (FAULTLINE_WAL_REPLAY_INVALID_ARGUMENT, writer, None, old_report, world)
  else
    match faultline_wal_writer_open_file os writer path false world with
    | (FAULTLINE_WAL_WRITE_OK, writer, world) =>
        let '(result, mk_run writer candidate _ report world) :=
          match os_alloc os world with
          | (false, world) =>
              (FAULTLINE_WAL_REPLAY_NO_MEMORY,
               mk_run writer initial_replay_state empty_index zero_report world)
          | (true, world) =>
              read_history (mk_run writer initial_replay_state empty_index zero_report world)
          end in
        let '(result, writer, world) :=
          match result with
          | FAULTLINE_WAL_REPLAY_OK => truncate_tail writer report world
          | _ => (result, writer, world)
          end in
        let '(result, writer, world) :=
          match result with
          | FAULTLINE_WAL_REPLAY_OK => sync_recovery writer world
          | _ => (result, writer, world)
          end in
        match result with
        | FAULTLINE_WAL_REPLAY_OK =>
            let last := rs_last_sequence candidate in
            (result,
             writer <| synced_sequence := last |>
                    <| next_sequence := if last =? UINT64_MAX then 0 else u64 (last + 1) |>
                    <| writer_state := FAULTLINE_WAL_WRITER_READY |>,
             Some candidate, report, world)
        | _ => (result, refuse_log result writer, None, report, world)
        end
    | (FAULTLINE_WAL_WRITE_INVALID_STATE, writer, world) =>
        (FAULTLINE_WAL_REPLAY_INVALID_STATE, writer, None, zero_report, world)
    | (_, writer, world) => (FAULTLINE_WAL_REPLAY_IO_ERROR, writer, None, zero_report, world)
    end.

End ReplayOpen.
