(* ===== verification/ReplayProofs.v ===== *)
(** Histories: the logs that replay.

    The index of worker IDs finds exactly the allocated ones. [log_history] relates the
    records of a log to the state they lead to; every such state satisfies the invariant of
    the scheduler ([history_inv]). *)

From S2P Require Import Prelude Job JobQueue WorkerRegistry Protocol Scheduler SchedulerProofs.
From S2P Require Import Wal WalProofs WalWriter WriterProofs WalReplay.

(** ** The index of worker IDs *)

Definition in_range (id : Z) (r : worker_range) : Prop := first r <= id <= range_last r.

(** The ranges are not empty and in increasing order. *)
Definition ranges_wf (l : list worker_range) : Prop :=
  Forall (fun r => first r <= range_last r) l /\
  StronglySorted (fun a b => range_last a < first b) l.

Lemma ranges_ordered l i k a b :
  StronglySorted (fun a b => range_last a < first b) l -> (i < k)%nat ->
  l !! i = Some a -> l !! k = Some b -> range_last a < first b.
Proof.
  intros Hs. revert i k. induction Hs as [|x l _ IH Hx]; [done|].
  intros i k Hik Ha Hb. destruct k as [|k]; [lia|]. destruct i as [|i]; simpl in *.
  - injection Ha as ->. rewrite Forall_forall in Hx. apply Hx. by eapply list_elem_of_lookup_2.
  - apply IH with i k; auto. lia.
Qed.

Lemma search_ranges_spec fuel l id low high :
  ranges_wf l -> (high <= length l)%nat -> (high - low < fuel)%nat ->
  search_ranges fuel l id low high = true <->
  exists i r, (low <= i < high)%nat /\ l !! i = Some r /\ in_range id r.
Proof.
  intros [Hne Hs]. unfold in_range. revert low high.
  induction fuel as [|fuel IH]; intros low high Hh Hf; [lia|]. cbn [search_ranges].
  destruct (Nat.ltb_spec low high) as [Hlt|Hge].
  2:{ split; [done|]. intros (i & r & ? & _). lia. }
  set (middle := (low + (high - low) / 2)%nat).
  assert (low <= middle < high)%nat as Hm.
  { unfold middle. pose proof (Nat.div_lt (high - low) 2). lia. }
  destruct (lookup_lt_is_Some_2 l middle) as [r Hr]; [lia|]. rewrite Hr.
  destruct (Z.ltb_spec id (first r)) as [H1|H1]; [|destruct (Z.ltb_spec (range_last r) id) as [H2|H2]].
  - rewrite IH by lia. split; intros (i & x & Hi & Hx & Hin); exists i, x; split_and!; try done; try lia.
    destruct (decide (i < middle)%nat); [done|]. exfalso.
    destruct (decide (i = middle)) as [->|]; [naive_solver lia|].
    pose proof (ranges_ordered l middle i r x Hs ltac:(lia) Hr Hx).
    rewrite Forall_lookup in Hne. specialize (Hne middle r Hr). lia.
  - rewrite IH by lia. split; intros (i & x & Hi & Hx & Hin); exists i, x; split_and!; try done; try lia.
    destruct (decide (middle < i)%nat); [lia|]. exfalso.
    destruct (decide (i = middle)) as [->|]; [naive_solver lia|].
    pose proof (ranges_ordered l i middle x r Hs ltac:(lia) Hx Hr).
    rewrite Forall_lookup in Hne. specialize (Hne middle r Hr). lia.
  - split; [|done]. intros _. exists middle, r. split_and!; done || lia.
Qed.

(** Binary search finds exactly the IDs that some range holds. *)
Lemma worker_was_allocated_spec ix id :
  ranges_wf (ranges ix) ->
  worker_was_allocated ix id = true <-> exists r, r ∈ ranges ix /\ in_range id r.
Proof.
  intros Hw. unfold worker_was_allocated. rewrite search_ranges_spec by (done || lia). split.
  - intros (i & r & _ & Hr & Hin). exists r. split; [|done]. by eapply list_elem_of_lookup_2.
  - intros (r & [i Hr]%list_elem_of_lookup & Hin). exists i, r. split_and!; try done; [lia|].
    by eapply lookup_lt_Some.
Qed.

(** The ranges after one more allocation. *)
Definition grown_ranges (l : list worker_range) (id : Z) : list worker_range :=
  match last l with
  | Some r =>
      if range_last r + 1 =? id then <[pred (length l) := mk_range (first r) id]> l
      else l ++ [mk_range id id]
  | None => l ++ [mk_range id id]
  end.

Lemma sorted_snoc l r :
  StronglySorted (fun a b => range_last a < first b) (l ++ [r]) <->
  StronglySorted (fun a b => range_last a < first b) l /\ Forall (fun a => range_last a < first r) l.
Proof.
  rewrite StronglySorted_app. split.
  - intros (H & Hl & _). split; [done|]. apply Forall_forall. intros a Ha. apply H; [done|left].
  - intros [Hl H]. split_and!; [|done|repeat constructor].
    intros a b Ha ->%list_elem_of_singleton. rewrite Forall_forall in H. auto.
Qed.

Lemma grown_ranges_wf l id :
  ranges_wf l -> Forall (fun r => range_last r < id) l ->
  ranges_wf (grown_ranges l id) /\ Forall (fun r => range_last r <= id) (grown_ranges l id) /\
  forall x, (exists r, r ∈ grown_ranges l id /\ in_range x r) <->
    x = id \/ exists r, r ∈ l /\ in_range x r.
Proof.
  intros [Hne Hs] Hlt.
  assert (let l' := l ++ [mk_range id id] in
    ranges_wf l' /\ Forall (fun r => range_last r <= id) l' /\
    forall x, (exists r, r ∈ l' /\ in_range x r) <-> x = id \/ exists r, r ∈ l /\ in_range x r) as Hnew.
  { cbn zeta. unfold ranges_wf. split_and!.
    - apply Forall_app. split; [done|]. apply Forall_singleton. simpl. lia.
    - apply sorted_snoc. split; [done|]. done.
    - apply Forall_app. split; [|apply Forall_singleton; simpl; lia].
      eapply Forall_impl; [done|]. simpl. lia.
    - intros x. setoid_rewrite elem_of_app. setoid_rewrite list_elem_of_singleton.
      unfold in_range. split; [intros (r & [?| ->] & Hin); [eauto|simpl in Hin; left; lia]|].
      intros [->|(r & ? & ?)]; [|eauto]. exists (mk_range id id). simpl. split; [auto|lia]. }
  unfold grown_ranges. destruct (last l) as [r|] eqn:El; [|done].
  destruct (Z.eqb_spec (range_last r + 1) id) as [E|]; [|done]. clear Hnew.
  apply last_Some in El as [l' ->]. rewrite length_app. cbn [length].
  replace (pred (length l' + 1)) with (length l' + 0)%nat by lia. rewrite insert_app_r. cbn.
  apply Forall_app in Hne as [Hne [Hner _]%Forall_cons_1].
  apply Forall_app in Hlt as [Hlt [Hltr _]%Forall_cons_1]. apply sorted_snoc in Hs as [Hs Hsr].
  unfold ranges_wf. split_and!.
  - apply Forall_app. split; [done|]. apply Forall_singleton. simpl in *. lia.
  - apply sorted_snoc. done.
  - apply Forall_app. split; [|apply Forall_singleton; simpl in *; lia].
    eapply Forall_impl; [exact Hlt|]. simpl in *. lia.
  - intros x. setoid_rewrite elem_of_app. setoid_rewrite list_elem_of_singleton.
    unfold in_range. split.
    + intros (y & [Hy | ->] & Hin); [right; exists y; auto|]. simpl in Hin.
      destruct (decide (x = id)); [auto|]. right. exists r. split; [auto|lia].
    + intros [->|(y & [Hy | ->] & Hin)]; [|exists y; auto|].
      * exists (mk_range (first r) id). simpl in *. split; [auto|lia].
      * exists (mk_range (first r) id). simpl in *. split; [auto|lia].
Qed.

(** ** Histories *)

(** The allocators: 0 when the IDs are used up. *)
Definition next_u32 (id : Z) : Z := if id =? UINT32_MAX then 0 else u32 (id + 1).

Definition allocated_state (st : faultline_wal_replay_state) (id : Z) :
    faultline_wal_replay_state :=
  st <| rs_highest_worker_id := id |>
     <| rs_workers := mk_registry (workers (rs_workers st)) (next_u32 id) |>.

(** [log_history recs st rs]: the records [recs], logged in this order from sequence
    number 1, lead to the state [st] and the worker ID ranges [rs]. *)
Inductive log_history : list faultline_wal_record -> faultline_wal_replay_state ->
    list worker_range -> Prop :=
| history_nil : log_history [] initial_replay_state []
| history_worker recs st rs r :
    log_history recs st rs -> record_typed r -> record_ok r ->
    r_sequence r = rs_last_sequence st + 1 ->
    r_type r = FAULTLINE_WAL_WORKER_ID_ALLOCATED ->
    rs_highest_worker_id st < r_worker_id r ->
    log_history (recs ++ [r])
      ((allocated_state st (r_worker_id r)) <| rs_last_sequence := r_sequence r |>)
      (grown_ranges rs (r_worker_id r))
| history_job recs st rs r st' :
    log_history recs st rs -> record_typed r -> record_ok r ->
    r_sequence r = rs_last_sequence st + 1 ->
    r_type r <> FAULTLINE_WAL_WORKER_ID_ALLOCATED ->
    apply_job_record st (mk_index rs 0) r (record_bytes r) = inr st' ->
    log_history (recs ++ [r]) (st' <| rs_last_sequence := r_sequence r |>) rs.

(** A well-formed job fits the types of its fields. *)
Lemma job_wf_typed j : job_wf j -> job_typed j /\ task_canonical j.
Proof.
  intros H. destruct H as [Hid Ht Has Ham Hab Hrs Hrm Hrb Hr Hmr Htm Hu Hs].
  split; [|unfold task_canonical; destruct (task_type j); try done; destruct Ht].
  unfold job_typed. split_and!; try done; try ilia;
    unfold job_state_wf, owned in Hs; destruct (job_state j); try done; destruct_and!; ilia.
Qed.

Definition job_record (type : faultline_wal_record_type) (sequence : Z) (j : faultline_job) :
    faultline_wal_record := mk_wal_record type sequence 0 j.

Lemma record_job_wf r :
  record_typed r -> record_ok r -> r_type r <> FAULTLINE_WAL_WORKER_ID_ALLOCATED ->
  job_wf (r_job r) /\ r_type r = snapshot_type (r_job r) /\
  r = job_record (r_type r) (r_sequence r) (r_job r).
Proof.
  unfold record_typed, record_ok, allocated. intros Ht Ho Hne.
  rewrite bool_decide_eq_false_2 in Ht, Ho by done. destruct Ht as (_ & Ht & Hc & Hw).
  destruct Ho as [_ Ho]. apply valid_job_wf in Ho as [Hwf Hty]; [|done..].
  split_and!; try done. destruct r. simpl in *. by rewrite Hw.
Qed.

Lemma job_record_ok type sequence j :
  job_wf j -> type = snapshot_type j -> sequence <> 0 -> in_u64 sequence ->
  record_typed (job_record type sequence j) /\ record_ok (job_record type sequence j).
Proof.
  intros Hwf Hty Hs Hs64. destruct (job_wf_typed j Hwf) as [Ht Hc].
  assert (type <> FAULTLINE_WAL_WORKER_ID_ALLOCATED) as Hne.
  { rewrite Hty. unfold snapshot_type. repeat case_match; done. }
  unfold record_typed, record_ok, allocated, job_record. cbn [r_type r_sequence r_worker_id r_job].
  rewrite bool_decide_eq_false_2 by done. split_and!; try done. by apply valid_job_wf.
Qed.

(** Equal bytes are equal records. *)
Lemma record_bytes_inj r r' :
  record_typed r -> record_ok r -> record_typed r' -> record_ok r' ->
  record_bytes r = record_bytes r' -> r_sequence r = r_sequence r' -> r = r'.
Proof.
  intros Ht Ho Ht' Ho' E Es.
  pose proof (record_decode_bytes r [] (r_sequence r) Ht Ho (proj1 Ho)) as H1.
  pose proof (record_decode_bytes r' [] (r_sequence r') Ht' Ho' (proj1 Ho')) as H2.
  rewrite Z.eqb_refl in H1, H2. cbn [negb] in H1, H2. rewrite E, Es, H2 in H1. congruence.
Qed.

(** A derived snapshot that matches the logged bytes is the logged one. *)
Lemma matches_snapshot_eq c r :
  record_typed r -> record_ok r -> r_type r <> FAULTLINE_WAL_WORKER_ID_ALLOCATED -> job_wf c ->
  matches_snapshot c r (record_bytes r) = true <-> c = r_job r.
Proof.
  intros Ht Ho Hne Hc. destruct (record_job_wf r Ht Ho Hne) as (Hwf & Hty & Er).
  unfold matches_snapshot. fold (job_record (r_type r) (r_sequence r) c).
  assert (record_typed (job_record (r_type r) (r_sequence r) c)) as Htc.
  { destruct (job_wf_typed c Hc). unfold record_typed, allocated. simpl.
    rewrite bool_decide_eq_false_2 by done. split; [apply Ht|]. done. }
  split.
  - destruct (faultline_wal_record_encode _ _) as [|bytes] eqn:Ee; [done|].
    apply record_encode_ok in Ee as (Hoc & _ & ->); [|done]. intros E%bool_decide_eq_true.
    apply record_bytes_inj in E; try done. by rewrite <- E.
  - intros ->. rewrite <- Er, record_encode_max by done. by apply bool_decide_eq_true.
Qed.

(** What holds of every state a log leads to. *)
Record history_inv (st : faultline_wal_replay_state) (rs : list worker_range) : Prop := {
  hi_sched : sched_wf (rs_scheduler st);
  hi_next_job : next_job_id (rs_scheduler st) = next_after (rs_highest_job_id st);
  hi_highest_job : 0 <= rs_highest_job_id st <= UINT64_MAX;
  hi_job_ids : Forall (fun j => job_id j <= rs_highest_job_id st) (live (rs_scheduler st));
  hi_time : 0 <= rs_job_time_base_ms st <= INT64_MAX;
  hi_times : Forall (fun j => updated_at_ms j <= rs_job_time_base_ms st) (live (rs_scheduler st));
  hi_workers : workers (rs_workers st) = workers faultline_worker_registry_init;
  hi_next_worker : next_worker_id (rs_workers st) = next_u32 (rs_highest_worker_id st);
  hi_highest_worker : 0 <= rs_highest_worker_id st <= UINT32_MAX;
  hi_ranges : ranges_wf rs;
  hi_ranges_max : Forall (fun r => range_last r <= rs_highest_worker_id st) rs;
  hi_sequence : 0 <= rs_last_sequence st <= UINT64_MAX;
}.

(** The slot of a record that is not a creation is in use. *)
Lemma derive_candidate_slot st ix r res :
  sched_wf (rs_scheduler st) -> r_type r <> FAULTLINE_WAL_JOB_CREATED ->
  derive_candidate st ix r = inr res ->
  exists j, live (rs_scheduler st) !! Scheduler.find_slot (rs_scheduler st) (job_id (r_job r)) = Some j /\
    sched_jobs (rs_scheduler st) !!! Scheduler.find_slot (rs_scheduler st) (job_id (r_job r)) = j /\
    job_id j = job_id (r_job r) /\ job_wf j.
Proof.
  intros Hs Hne. unfold derive_candidate. rewrite bool_decide_eq_false_2 by done.
  destruct (Nat.eqb_spec (Scheduler.find_slot (rs_scheduler st) (job_id (r_job r)))
    (sched_count (rs_scheduler st))); [done|]. intros _.
  destruct (find_slot_cases (rs_scheduler st) (job_id (r_job r)) Hs) as [[? _]|(j & Hj & Hid & _)]; [done|].
  destruct (live_jobs _ _ _ Hs Hj) as (_ & Htot & Hwf). eauto.
Qed.

(** The transition a job record stands for, on the snapshot in its slot. *)
Lemma derive_candidate_step st ix r c :
  derive_candidate st ix r = inr (FAULTLINE_JOB_OK, c) ->
  let saved := r_job r in
  let s := rs_scheduler st in
  let j := sched_jobs s !!! Scheduler.find_slot s (job_id saved) in
  match r_type r with
  | FAULTLINE_WAL_JOB_CREATED =>
      rs_highest_job_id st < job_id saved /\ sched_count s <> FAULTLINE_JOB_STORE_CAPACITY /\
      faultline_job_init zero_job (job_id saved) (task_type saved) (Some (arguments saved))
        (argument_size saved) (max_retries saved) (created_at_ms saved) = (FAULTLINE_JOB_OK, c)
  | FAULTLINE_WAL_JOB_ASSIGNED =>
      worker_was_allocated ix (worker_id saved) = true /\
      faultline_scheduler_active s (worker_id saved) = None /\
      faultline_job_queue_peek (pending s) = (FAULTLINE_JOB_QUEUE_OK, Some (job_id saved)) /\
      faultline_job_assign j (worker_id saved) (updated_at_ms saved) = (FAULTLINE_JOB_OK, c)
  | FAULTLINE_WAL_JOB_STARTED =>
      faultline_job_start j (worker_id saved) (attempt saved) (updated_at_ms saved) =
        (FAULTLINE_JOB_OK, c)
  | FAULTLINE_WAL_JOB_COMPLETED =>
      faultline_job_complete j (worker_id saved) (attempt saved) (Some (result saved))
        (result_size saved) (updated_at_ms saved) = (FAULTLINE_JOB_OK, c)
  | FAULTLINE_WAL_JOB_REQUEUED | FAULTLINE_WAL_JOB_FAILED =>
      faultline_job_fail j (worker_id j) (attempt saved) (failure saved) (updated_at_ms saved) =
        (FAULTLINE_JOB_OK, c)
  | _ => False
  end.
Proof.
  unfold derive_candidate. cbn zeta. case_bool_decide as Hc.
  - rewrite Hc. destruct (Z.leb_spec (job_id (r_job r)) (rs_highest_job_id st)); [done|].
    destruct (Nat.eqb_spec (sched_count (rs_scheduler st)) FAULTLINE_JOB_STORE_CAPACITY); [done|].
    intros [= H']. done.
  - destruct (_ =? _)%nat; [done|]. destruct (r_type r); try done; try (by intros [= H']).
    destruct (worker_was_allocated _ _); [|done]. cbn [negb]. case_bool_decide as Ha; [done|].
    case_bool_decide as Hp; [|done]. cbn [negb]. intros [= H']. by split_and!.
Qed.

(** The derived snapshot is well formed. *)
Lemma derive_candidate_wf st ix r c :
  sched_wf (rs_scheduler st) -> job_wf (r_job r) ->
  derive_candidate st ix r = inr (FAULTLINE_JOB_OK, c) -> job_wf c.
Proof.
  intros Hs Hw Hd. pose proof (derive_candidate_step st ix r c Hd) as H. cbn zeta in H.
  pose proof (wf_updated _ Hw) as Hu. destruct (job_wf_typed _ Hw) as [Ht _].
  destruct (decide (r_type r = FAULTLINE_WAL_JOB_CREATED)) as [E|E].
  - rewrite E in H. destruct H as (_ & _ & Hi). destruct Hw.
    eapply job_init_wf; [exact Hi|done|apply Ht|apply Ht|lia|].
    split; [lia|]. intros l [= <-]. split; [lia|done].
  - destruct (derive_candidate_slot st ix r _ Hs E Hd) as (j & _ & Etot & _ & Hj).
    rewrite Etot in H. destruct (r_type r); try done.
    + destruct H as (_ & _ & _ & Ha). eapply job_assign_wf; eauto. apply Ht.
    + by eapply job_start_wf.
    + destruct Hw. eapply job_complete_wf; eauto. split; [lia|]. intros l [= <-]. split; [lia|done].
    + by eapply job_fail_wf.
    + by eapply job_fail_wf.
Qed.

(** The state after a job record: the snapshot in its slot, the queue changed. *)
Definition replayed_state (st : faultline_wal_replay_state) (r : faultline_wal_record)
    (q : faultline_job_queue) : faultline_wal_replay_state :=
  let saved := r_job r in
  let s := rs_scheduler st in
  let created := bool_decide (r_type r = FAULTLINE_WAL_JOB_CREATED) in
  mk_replay_state
    (mk_scheduler (<[Scheduler.find_slot s (job_id saved) := saved]> (sched_jobs s))
       (if created then S (sched_count s) else sched_count s)
       (if created then next_after (job_id saved) else next_job_id s) q)
    (rs_workers st) (rs_last_sequence st)
    (if created then job_id saved else rs_highest_job_id st) (rs_highest_worker_id st)
    (updated_at_ms saved).

(** Exactly the records whose transition gives the logged snapshot are applied. *)
Lemma apply_job_record_ok st ix r st' :
  sched_wf (rs_scheduler st) -> record_typed r -> record_ok r ->
  r_type r <> FAULTLINE_WAL_WORKER_ID_ALLOCATED ->
  apply_job_record st ix r (record_bytes r) = inr st' <->
  exists q, rs_job_time_base_ms st <= updated_at_ms (r_job r) /\
    derive_candidate st ix r = inr (FAULTLINE_JOB_OK, r_job r) /\
    replay_queue (pending (rs_scheduler st)) r (r_job r) = Some q /\ st' = replayed_state st r q.
Proof.
  intros Hs Ht Ho Hne. destruct (record_job_wf r Ht Ho Hne) as (Hwf & _).
  unfold apply_job_record. cbn zeta.
  destruct (Z.ltb_spec (updated_at_ms (r_job r)) (rs_job_time_base_ms st)).
  { split; [done|]. intros (q & ? & _). lia. }
  destruct (derive_candidate st ix r) as [|[res c]] eqn:Hd; [split; [done|naive_solver]|].
  destruct (decide (res = FAULTLINE_JOB_OK)) as [->|Hres].
  2:{ destruct res; try done; split; try done; naive_solver. }
  pose proof (derive_candidate_wf st ix r c Hs Hwf Hd) as Hc.
  pose proof (matches_snapshot_eq c r Ht Ho Hne Hc) as Hm.
  destruct (matches_snapshot c r (record_bytes r)); cbn [negb].
  - pose proof (proj1 Hm eq_refl) as ->. destruct (replay_queue _ _ _) as [q|]; [|naive_solver].
    split; [intros [= <-]; eauto|]. intros (q' & _ & _ & [= <-] & ->). done.
  - split; [done|]. intros (q & _ & [= ->] & _). exfalso. by apply diff_false_true, Hm.
Qed.

Lemma replay_queue_publish s slot r c q :
  r_type r <> FAULTLINE_WAL_JOB_ASSIGNED ->
  replay_queue (pending s) r c = Some q ->
  publish_outcome s slot c = (FAULTLINE_SCHEDULER_OK, replace_job s slot c q).
Proof.
  intros Hne. unfold replay_queue, publish_outcome. rewrite bool_decide_eq_false_2 by done.
  destruct (decide (job_state c = FAULTLINE_JOB_QUEUED)).
  - rewrite !bool_decide_eq_true_2 by done.
    destruct (faultline_job_queue_push (pending s) c) as [[] q']; by intros [= <-].
  - rewrite !bool_decide_eq_false_2 by done. by intros [= <-].
Qed.

Lemma replayed_sched_wf st ix r q :
  history_inv st (ranges ix) -> record_typed r -> record_ok r ->
  r_type r <> FAULTLINE_WAL_WORKER_ID_ALLOCATED ->
  derive_candidate st ix r = inr (FAULTLINE_JOB_OK, r_job r) ->
  replay_queue (pending (rs_scheduler st)) r (r_job r) = Some q ->
  let s := rs_scheduler st in
  let s' := rs_scheduler (replayed_state st r q) in
  sched_wf s' /\
  live s' = if bool_decide (r_type r = FAULTLINE_WAL_JOB_CREATED) then live s ++ [r_job r]
            else <[Scheduler.find_slot s (job_id (r_job r)) := r_job r]> (live s).
Proof.
  intros HI Ht Ho Hne Hd Hq. pose proof (hi_sched _ _ HI) as Hs.
  destruct (record_job_wf r Ht Ho Hne) as (Hwf & _).
  pose proof (derive_candidate_step st ix r _ Hd) as H. cbn zeta in *.
  unfold replayed_state. cbn [rs_scheduler].
  case_bool_decide as E.
  - rewrite E in H. destruct H as (Hid & Hcount & Hi). apply job_init_ok in Hi as (_ & _ & _ & _ & _ & Hj).
    pose proof (wf_id _ Hwf). pose proof (hi_highest_job _ _ HI).
    assert (next_job_id (rs_scheduler st) = rs_highest_job_id st + 1) as Hnext.
    { rewrite (hi_next_job _ _ HI). unfold next_after.
      destruct (Z.eqb_spec (rs_highest_job_id st) UINT64_MAX); [lia|]. apply u64_id. ilia. }
    assert (is_queued (r_job r)) as Hqd by (by rewrite Hj).
    unfold replay_queue in Hq. unfold is_queued in Hqd.
    rewrite bool_decide_eq_false_2, bool_decide_eq_true_2 in Hq by congruence.
    destruct (faultline_job_queue_push _ _) as [[] q'] eqn:Hp; try done. injection Hq as <-.
    apply queue_push_inv in Hp as (Hc & Hqw & _); [|apply Hs].
    pose proof (sched_count_le _ Hs).
    assert (Scheduler.find_slot (rs_scheduler st) (job_id (r_job r)) = sched_count (rs_scheduler st)) as ->.
    { destruct (find_slot_cases (rs_scheduler st) (job_id (r_job r)) Hs) as [[? _]|(j & Hj' & Hji & _)]; [done|].
      pose proof (hi_job_ids _ _ HI) as Hids. eapply Forall_lookup_1 in Hids; [|done]. simpl in Hids. lia. }
    destruct (append_job_wf (rs_scheduler st) (r_job r) q') as [Hl Hw]; try done; lia.
  - destruct (derive_candidate_slot st ix r _ Hs E Hd) as (j & Hj & Etot & Hid & Hjwf).
    set (slot := Scheduler.find_slot (rs_scheduler st) (job_id (r_job r))) in *.
    destruct (live_jobs _ _ _ Hs Hj) as (Hlt & _ & _).
    fold (replace_job (rs_scheduler st) slot (r_job r) q).
    split; [|by apply live_replace].
    destruct (decide (r_type r = FAULTLINE_WAL_JOB_ASSIGNED)) as [Ea|Ea].
    + rewrite Ea in H. destruct H as (_ & Hact & Hpeek & Hass). rewrite Etot in Hass.
      pose proof (job_wf_typed _ Hwf) as [(_ & Hw32 & _) _].
      pose proof (assign_ok (rs_scheduler st) (worker_id (r_job r)) (updated_at_ms (r_job r)) Hs Hw32
        (wf_updated _ Hwf)) as Hok.
      pose proof Hass as (_ & H0 & _ & Hw0 & _)%job_assign_ok.
      unfold replay_queue in Hq. rewrite bool_decide_eq_true_2 in Hq by done.
      unfold faultline_scheduler_assign in Hok. rewrite Hact, Hpeek in Hok. fold slot in Hok.
      rewrite (proj2 (Z.eqb_neq _ _) Hw0), (proj2 (Z.ltb_ge _ _) H0) in Hok. cbn in Hok.
      rewrite (proj2 (Nat.eqb_neq slot _)), Etot, Hass in Hok by lia.
      destruct (faultline_job_queue_pop _) as [[[] [removed|]] q'] eqn:Hp; try done.
      destruct (removed =? _); [|done]. injection Hq as <-.
      destruct Hok as [(id & rest & sl & jj & qq & _ & _ & _ & _ & _ & _ & _ & _ & _ & _ & _ & _ & Hw)|[Hn _]];
        [exact Hw|done].
    + pose proof (replay_queue_publish (rs_scheduler st) slot r _ _ Ea Hq) as Hpub.
      assert (active_job j /\ job_id (r_job r) = job_id j /\
        (active_job (r_job r) -> worker_id (r_job r) = worker_id j)) as (Haj & _ & Haw).
      { unfold active_job. rewrite Etot in H. destruct (r_type r); try done.
        - apply job_start_ok in H as (-> & _ & _ & _ & _ & _ & _ & Hj'). by rewrite Hj'.
        - apply job_complete_ok in H as (-> & _ & _ & _ & _ & _ & _ & _ & _ & Hj'). by rewrite Hj'.
        - apply job_fail_ok in H as (Ha & _ & _ & _ & _ & _ & _ & _ & Hj'). rewrite Hj'.
          unfold failed_job. by case_match.
        - apply job_fail_ok in H as (Ha & _ & _ & _ & _ & _ & _ & _ & Hj'). rewrite Hj'.
          unfold failed_job. by case_match. }
      destruct (publish_outcome_ok (rs_scheduler st) slot j (r_job r)) as (q' & Hpub' & Hw & _); try done.
      rewrite Hpub in Hpub'. injection Hpub' as ->. done.
Qed.

Lemma history_inv_initial : history_inv initial_replay_state [].
Proof.
  constructor; try done; try (apply scheduler_init_wf); try (vm_compute; split; done).
  all: try (apply Forall_nil_2). split; constructor.
Qed.

Lemma replayed_inv st rs r q :
  history_inv st rs -> record_typed r -> record_ok r ->
  r_sequence r = rs_last_sequence st + 1 ->
  r_type r <> FAULTLINE_WAL_WORKER_ID_ALLOCATED ->
  rs_job_time_base_ms st <= updated_at_ms (r_job r) ->
  derive_candidate st (mk_index rs 0) r = inr (FAULTLINE_JOB_OK, r_job r) ->
  replay_queue (pending (rs_scheduler st)) r (r_job r) = Some q ->
  history_inv ((replayed_state st r q) <| rs_last_sequence := r_sequence r |>) rs.
Proof.
  intros HI Ht Ho Hseq Hne Htime Hd Hq. destruct (record_job_wf r Ht Ho Hne) as (Hwf & _).
  destruct (replayed_sched_wf st (mk_index rs 0) r q HI Ht Ho Hne Hd Hq) as [Hs' Hl'].
  pose proof (hi_times _ _ HI) as Htimes. pose proof (hi_job_ids _ _ HI) as Hids.
  pose proof (wf_id _ Hwf) as Hid0. pose proof (wf_times _ Hwf). pose proof (wf_updated _ Hwf).
  pose proof (derive_candidate_step _ _ _ _ Hd) as Hstep. cbn zeta in Hstep.
  constructor; try exact Hs';
    change (rs_scheduler (_ <| rs_last_sequence := _ |>)) with (rs_scheduler (replayed_state st r q));
    rewrite ?Hl'; cbn -[live]; try apply HI; try done.
  - case_bool_decide; [done|]. apply HI.
  - case_bool_decide; [lia|]. apply HI.
  - case_bool_decide as E.
    + rewrite E in Hstep. destruct Hstep as (Hgt & _).
      apply Forall_app. split; [|by apply Forall_singleton].
      eapply Forall_impl; [exact Hids|]. simpl. lia.
    + apply Forall_insert; [done|].
      destruct (derive_candidate_slot st (mk_index rs 0) r _ (hi_sched _ _ HI) E Hd) as (j & Hj & _ & Hid & _).
      rewrite <- Hid. by eapply Forall_lookup_1 in Hids.
  - lia.
  - assert (Forall (fun j => updated_at_ms j <= updated_at_ms (r_job r)) (live (rs_scheduler st))).
    { eapply Forall_impl; [exact Htimes|]. simpl. lia. }
    case_bool_decide; [apply Forall_app; split; [done|by apply Forall_singleton]|].
    by apply Forall_insert.
  - destruct Ht as [Hs64 _]. ilia.
Qed.

Lemma log_history_inv recs st rs : log_history recs st rs -> history_inv st rs.
Proof.
  induction 1 as [|recs st rs r _ HI Ht Ho Hseq Hty Hid|recs st rs r st' _ HI Ht Ho Hseq Hty Ha].
  - apply history_inv_initial.
  - assert (in_u32 (r_worker_id r)) as Hid32.
    { destruct Ht as [_ Ht]. unfold allocated in Ht. rewrite bool_decide_eq_true_2 in Ht by done. apply Ht. }
    pose proof (hi_highest_worker _ _ HI) as Hh.
    destruct (grown_ranges_wf rs (r_worker_id r)) as (Hw & Hmax & _); [apply HI| |].
    { eapply Forall_impl; [apply (hi_ranges_max _ _ HI)|]. simpl. lia. }
    constructor; cbn; try apply HI; try done; [ilia|]. destruct Ht as [Hs64 _]. ilia.
  - apply apply_job_record_ok in Ha as (q & Htime & Hd & Hq & ->); [|apply HI|done..].
    by apply replayed_inv.
Qed.

Lemma snoc_inj {A} (l l' : list A) x x' : l ++ [x] = l' ++ [x'] -> l = l' /\ x = x'.
Proof. apply app_inj_tail. Qed.

Lemma log_history_snoc recs r st2 rs2 :
  log_history (recs ++ [r]) st2 rs2 ->
  exists st rs, log_history recs st rs /\ record_typed r /\ record_ok r /\
    r_sequence r = rs_last_sequence st + 1 /\
    ((r_type r = FAULTLINE_WAL_WORKER_ID_ALLOCATED /\ rs_highest_worker_id st < r_worker_id r /\
      st2 = (allocated_state st (r_worker_id r)) <| rs_last_sequence := r_sequence r |> /\
      rs2 = grown_ranges rs (r_worker_id r)) \/
     (r_type r <> FAULTLINE_WAL_WORKER_ID_ALLOCATED /\
      exists st', apply_job_record st (mk_index rs 0) r (record_bytes r) = inr st' /\
        st2 = st' <| rs_last_sequence := r_sequence r |> /\ rs2 = rs)).
Proof.
  intros H. remember (recs ++ [r]) as l eqn:El.
  destruct H as [|recs' st rs r' ? ? ? ? ? ?|recs' st rs r' st' ? ? ? ? ? ?]; [by destruct recs|..];
    apply snoc_inj in El as [-> ->]; exists st, rs; (do 4 (split; [done|])); [by left|right; eauto].
Qed.

Lemma log_history_det recs st rs st' rs' :
  log_history recs st rs -> log_history recs st' rs' -> st = st' /\ rs = rs'.
Proof.
  revert st rs st' rs'. induction recs as [|r recs IH] using rev_ind; intros st rs st' rs' H H'.
  - remember [] as l eqn:El. destruct H as [|l' ? ? ? ?|l' ? ? ? ? ?]; [|by destruct l'..].
    remember [] as l eqn:El'. destruct H' as [|l' ? ? ? ?|l' ? ? ? ? ?]; [|by destruct l'..]. done.
  - apply log_history_snoc in H as (s1 & rs1 & H1 & _ & _ & _ & Hc).
    apply log_history_snoc in H' as (s2 & rs2 & H2 & _ & _ & _ & Hc').
    destruct (IH _ _ _ _ H1 H2) as [-> ->].
    destruct Hc as [(? & ? & -> & ->)|(? & x & Hx & -> & ->)],
      Hc' as [(? & ? & -> & ->)|(? & y & Hy & -> & ->)]; try done. rewrite Hx in Hy. by injection Hy as ->.
Qed.

(** Only the ranges of the index matter. *)
Lemma apply_job_record_ranges st ix r wire :
  apply_job_record st ix r wire = apply_job_record st (mk_index (ranges ix) 0) r wire.
Proof. done. Qed.

(** The only refusals. *)
Lemma apply_job_record_error st ix r wire res e :
  apply_job_record st ix r wire = inl (res, e) ->
  res = FAULTLINE_WAL_REPLAY_BAD_HISTORY \/ res = FAULTLINE_WAL_REPLAY_CAPACITY.
Proof.
  unfold apply_job_record, derive_candidate. cbn zeta.
  repeat case_match; intros; simplify_eq; auto.
Qed.
