(* ===== verification/ReplayDisk.v ===== *)
(** Recovery of a log from a lawful disk.

    The reading loops are followed round by round: what they find in the file is determined
    by its bytes. An intact or torn log is recovered to the state of its history, a damaged
    one is refused, and the file is never changed but by cutting off an incomplete tail. *)

From S2P Require Import Prelude Job JobQueue WorkerRegistry Protocol Scheduler SchedulerProofs.
From S2P Require Import Wal WalProofs WalWriter Disk SimDisk WriterProofs WalReplay.
From S2P Require Import ReplayProofs.

(** ** Reading *)

Section Reading.
Context {W : Type} (os : wal_os W) {FIN : OsFinite os} {DISK : Disk os}.

(** Nothing but the position of the log descriptor has changed. *)
Definition only_read (world world' : W) : Prop :=
  view os world' = mk_view (content (view os world)) (position (view os world'))
                     (file (view os world)) (directory (view os world)) /\
  (forall x, crash os world' x -> crash os world x) /\
  (os_unread os world' <= os_unread os world)%nat.

Lemma only_read_same world world' :
  view os world' = view os world -> (forall x, crash os world' x -> crash os world x) ->
  (os_unread os world' <= os_unread os world)%nat -> only_read world world'.
Proof. intros Hv Hx Hu. split; [|done]. rewrite Hv. by destruct (view os world). Qed.

Lemma only_read_refl world : only_read world world.
Proof. by apply only_read_same. Qed.

Lemma only_read_trans w1 w2 w3 : only_read w1 w2 -> only_read w2 w3 -> only_read w1 w3.
Proof.
  intros (Hv & Hx & Hu) (Hv' & Hx' & Hu'). split_and!; [|auto|lia].
  rewrite Hv', Hv. cbn. done.
Qed.

Lemma read_loop_disk fuel writer size received world c res writer' world' :
  file (view os world) = Some (fd writer) -> content (view os world) = Some c ->
  (os_interrupts os world + Z.to_nat (size - Z.of_nat (length received)) <= fuel)%nat ->
  read_loop os fuel writer size received world = (res, writer', world') ->
  only_read world world' /\
  match res with
  | Some l =>
      let new := take (Z.to_nat (size - Z.of_nat (length received)))
                   (drop (position (view os world)) c) in
      writer' = writer /\ l = received ++ new /\
      position (view os world') = (position (view os world) + length new)%nat /\
      (new <> [] -> (os_unread os world' < os_unread os world)%nat)
  | None => exists e, writer' = faultline_wal_writer_fail writer FAULTLINE_WAL_IO_READ_FILE e
  end.
Proof.
  revert received world. induction fuel as [|fuel IH]; intros received world Hf Hc Hfuel;
    cbn [read_loop]; set (wanted := size - Z.of_nat (length received)) in *.
  { destruct (Z.ltb_spec 0 wanted); [lia|]. intros [= <- <- <-].
    split; [apply only_read_refl|]. replace (Z.to_nat wanted) with 0%nat by lia.
    rewrite take_0, app_nil_r. split_and!; try done. }
  destruct (Z.ltb_spec 0 wanted) as [Hw|Hw]; cycle 1.
  { intros [= <- <- <-]. split; [apply only_read_refl|]. replace (Z.to_nat wanted) with 0%nat by lia.
    rewrite take_0, app_nil_r. split_and!; try done. }
  destruct (io_read os (fd writer) wanted world) as [r w1] eqn:Er.
  destruct (law_read os _ _ _ _ _ _ Hf Hc (Z.lt_le_incl _ _ Hw) Er) as [Hx1 Hr1].
  destruct (finite_read os _ _ _ _ _ Er) as [Hle Hlt].
  destruct (finite_unread os _ _ _ _ _ Er) as [Hu Hus].
  destruct r as [bytes|e].
  - destruct Hr1 as (Hlen & Hb & Hnil & Hv1).
    assert (only_read world w1) as Ho1.
    { split; [by rewrite Hv1, Hc, Hf|]. done. }
    destruct bytes as [|b bytes'] eqn:Eb.
    + intros [= <- <- <-]. split; [done|]. destruct (Hnil eq_refl) as [|Hend]; [lia|].
      rewrite drop_ge, take_nil, app_nil_r by done. rewrite Hv1. simpl. split_and!; done.
    + rewrite <- Eb in *. clear Hnil.
      destruct (Z.ltb_spec wanted (Z.of_nat (length bytes))); [lia|]. intros Hrec.
      assert (length bytes <> 0)%nat as Hne by (subst bytes; simpl; lia).
      apply IH in Hrec as [Ho Hres]; try (by rewrite Hv1).
      2:{ rewrite length_app. lia. }
      split; [by eapply only_read_trans|]. destruct res as [l|]; [|done].
      rewrite Hv1 in Hres. cbn [position] in Hres. rewrite length_app in Hres. cbn zeta in *.
      destruct Hres as (-> & -> & Hpos & Hu').
      assert (bytes ++ take (Z.to_nat (size - Z.of_nat (length received + length bytes)))
          (drop (position (view os world) + length bytes) c) =
        take (Z.to_nat wanted) (drop (position (view os world)) c)) as E.
      { rewrite Hb at 1. rewrite slices_join by lia. f_equal. lia. }
      rewrite <- E, <- app_assoc, length_app. split_and!; try done; [lia|].
      intros _. destruct Ho as (_ & _ & ?). specialize (Hus bytes eq_refl ltac:(by subst bytes)). lia.
  - assert (only_read world w1) as Ho1 by (by apply only_read_same).
    destruct (Z.eqb_spec e EINTR) as [->|].
    + intros Hrec. specialize (Hlt eq_refl).
      apply IH in Hrec as [Ho Hres]; rewrite ?Hr1; try done; [|lia].
      split; [by eapply only_read_trans|]. rewrite Hr1 in Hres. destruct res; [|done].
      cbn zeta in *. destruct Hres as (? & ? & ? & Hus'). split_and!; try done.
      intros Hn. specialize (Hus' Hn). lia.
    + intros [= <- <- <-]. split; [done|]. eauto.
Qed.

(** What [read_exact] returns: the next bytes of the file, all that were asked for unless the
    file ends. *)
Lemma read_exact_disk writer size world c res writer' world' :
  file (view os world) = Some (fd writer) -> content (view os world) = Some c ->
  read_exact os writer size world = (res, writer', world') ->
  only_read world world' /\
  match res with
  | Some l =>
      writer' = writer /\ l = take (Z.to_nat size) (drop (position (view os world)) c) /\
      position (view os world') = (position (view os world) + length l)%nat /\
      (l <> [] -> (os_unread os world' < os_unread os world)%nat)
  | None => writer_state writer' = FAULTLINE_WAL_WRITER_FAILED
  end.
Proof.
  intros Hf Hc H. unfold read_exact in H. apply (read_loop_disk _ _ _ _ _ c) in H; try done.
  - destruct H as [Ho H]. split; [done|]. destruct res as [l|].
    + cbn zeta in H. simpl length in H. rewrite Z.sub_0_r in H.
      destruct H as (-> & -> & ? & ?). done.
    + destruct H as [e ->]. apply fail_failed.
  - simpl. lia.
Qed.

(** ** One round of the loop *)

Definition log_bytes (recs : list faultline_wal_record) : list Z :=
  file_header ++ concat (record_bytes <$> recs).

Lemma log_bytes_snoc recs r : log_bytes (recs ++ [r]) = log_bytes recs ++ record_bytes r.
Proof.
  unfold log_bytes. rewrite fmap_app, concat_app.
  change (concat (record_bytes <$> [r])) with (record_bytes r ++ []). by rewrite app_nil_r, app_assoc.
Qed.

(** The loop has read the records [recs] and [rest] is before it. *)
Record at_log (run : replay_run (W := W)) (recs : list faultline_wal_record) (rest : list Z) : Prop := {
  al_file : file (view os (run_world run)) = Some (fd (run_writer run));
  al_content : content (view os (run_world run)) = Some (log_bytes recs ++ rest);
  al_position : position (view os (run_world run)) = length (log_bytes recs);
  al_valid : valid_bytes (run_report run) = Z.of_nat (length (log_bytes recs));
  al_tail : tail_bytes (run_report run) = 0;
  al_bound : Z.of_nat (length (log_bytes recs ++ rest)) <= INT64_MAX;
  al_history : log_history recs (run_state run) (ranges (run_index run));
}.

(** Only the read position and the report changed; the handle is as before or has failed. *)
Record same_but_read (run run' : replay_run (W := W)) : Prop := {
  sr_state : run_state run' = run_state run;
  sr_world : only_read (run_world run) (run_world run');
  sr_valid : valid_bytes (run_report run') = valid_bytes (run_report run);
  sr_writer : run_writer run' = run_writer run \/
              writer_state (run_writer run') = FAULTLINE_WAL_WRITER_FAILED;
}.

Lemma at_log_read run recs rest size res writer' world' :
  at_log run recs rest ->
  read_exact os (run_writer run) size (run_world run) = (res, writer', world') ->
  only_read (run_world run) world' /\
  match res with
  | Some l =>
      writer' = run_writer run /\ l = take (Z.to_nat size) rest /\
      position (view os world') = length (log_bytes recs ++ l) /\
      (l <> [] -> (os_unread os world' < os_unread os (run_world run))%nat)
  | None => writer_state writer' = FAULTLINE_WAL_WRITER_FAILED
  end.
Proof.
  intros [Hf Hc Hp _ _ _ _] H. apply (read_exact_disk _ _ _ _ _ _ _ Hf Hc) in H as [Ho H].
  split; [done|]. destruct res as [l|]; [|done]. rewrite Hp, drop_app_length in H.
  rewrite length_app. done.
Qed.

(** The payload that follows, when the header has been read. *)
Lemma read_rest run recs rest writer1 w1 n size res writer' world' :
  at_log run recs rest -> only_read (run_world run) w1 -> fd writer1 = fd (run_writer run) ->
  position (view os w1) = (length (log_bytes recs) + n)%nat ->
  read_exact os writer1 size w1 = (res, writer', world') ->
  only_read (run_world run) world' /\
  match res with
  | Some l =>
      writer' = writer1 /\ l = take (Z.to_nat size) (drop n rest) /\
      position (view os world') = (length (log_bytes recs) + n + length l)%nat /\
      (os_unread os world' <= os_unread os w1)%nat
  | None => writer_state writer' = FAULTLINE_WAL_WRITER_FAILED
  end.
Proof.
  intros [Hf Hc _ _ _ _ _] Ho1 Hfd Hp H. pose proof Ho1 as (Hv & _ & _).
  apply (read_exact_disk _ _ _ (log_bytes recs ++ rest)) in H as [Ho H];
    [|by rewrite Hv, Hf, Hfd|by rewrite Hv].
  split; [by eapply only_read_trans|]. destruct res as [l|]; [|done].
  rewrite Hp, drop_app_add in H. destruct Ho as (_ & _ & ?). by destruct H as (? & ? & ? & _).
Qed.

Lemma allocate_worker_disk st ix id report world res st' ix' report' world' :
  allocate_worker os st ix id report world = (res, st', ix', report', world') ->
  view os world' = view os world /\ (forall x, crash os world' x -> crash os world x) /\
  (os_unread os world' <= os_unread os world)%nat /\
  match res with
  | FAULTLINE_WAL_REPLAY_OK =>
      rs_highest_worker_id st < id /\ report' = report /\
      st' = allocated_state st id /\ ranges ix' = grown_ranges (ranges ix) id
  | FAULTLINE_WAL_REPLAY_NO_MEMORY => report' = report /\ st' = st
  | FAULTLINE_WAL_REPLAY_BAD_HISTORY =>
      id <= rs_highest_worker_id st /\ valid_bytes report' = valid_bytes report /\ st' = st
  | _ => False
  end.
Proof.
  unfold allocate_worker. destruct (Z.leb_spec id (rs_highest_worker_id st)).
  { intros [= <- <- <- <- <-]. cbn. split_and!; auto. }
  assert (forall grown w1, add_range os ix id world = (grown, w1) ->
    view os w1 = view os world /\ (forall x, crash os w1 x -> crash os world x) /\
    (os_unread os w1 <= os_unread os world)%nat /\
    forall ix1, grown = Some ix1 -> ranges ix1 = ranges ix ++ [mk_range id id]) as Hadd.
  { intros grown w1. unfold add_range. destruct (_ =? _); [destruct (_ <? _)|].
    - intros [= <- <-]. split_and!; auto. done.
    - destruct (os_alloc os world) as [b w2] eqn:Ea.
      pose proof (law_alloc os _ _ _ Ea) as [? ?]. pose proof (finite_alloc os _ _ _ Ea).
      destruct b; intros [= <- <-]; split_and!; auto; by intros ix1 [= <-].
    - intros [= <- <-]. split_and!; auto. by intros ix1 [= <-]. }
  unfold last_range, grown_ranges. destruct (last (ranges ix)) as [range|] eqn:El;
    [destruct (_ =? id)|].
  1: { intros [= <- <- <- <- <-]. split_and!; auto. }
  all: destruct (add_range os ix id world) as [grown w1];
    destruct (Hadd grown w1 eq_refl) as (Hv & Hx & Hu & Hg);
    destruct grown as [ix1|]; intros [= <- <- <- <- <-]; split_and!; auto.
Qed.

Lemma apply_record_disk recs st ix r report world res st' ix' report' world' :
  log_history recs st (ranges ix) -> record_typed r -> record_ok r ->
  r_sequence r = rs_last_sequence st + 1 ->
  apply_record os st ix r (record_bytes r) report world = (res, st', ix', report', world') ->
  view os world' = view os world /\ (forall x, crash os world' x -> crash os world x) /\
  (os_unread os world' <= os_unread os world)%nat /\
  valid_bytes report' = valid_bytes report /\
  match res with
  | FAULTLINE_WAL_REPLAY_OK =>
      report' = report /\
      log_history (recs ++ [r]) (st' <| rs_last_sequence := r_sequence r |>) (ranges ix')
  | FAULTLINE_WAL_REPLAY_NO_MEMORY => True
  | FAULTLINE_WAL_REPLAY_BAD_HISTORY | FAULTLINE_WAL_REPLAY_CAPACITY =>
      forall st2 rs2, ~ log_history (recs ++ [r]) st2 rs2
  | _ => False
  end.
Proof.
  intros Hh Ht Ho Hs. unfold apply_record. case_bool_decide as Hty.
  - intros H. apply allocate_worker_disk in H as (Hv & Hx & Hu & H). split_and!; try done.
    + destruct res; try done; destruct_and!; congruence.
    + destruct res; try done.
      * destruct H as (Hid & -> & -> & ->). split; [done|]. by apply history_worker.
      * destruct H as (Hid & _). intros st2 rs2 H2.
        apply log_history_snoc in H2 as (s1 & rs1 & H1 & _ & _ & _ & Hc).
        destruct (log_history_det _ _ _ _ _ Hh H1) as [<- <-].
        destruct Hc as [(_ & ? & _)|(? & _)]; [lia|done].
  - assert (forall e, apply_job_record st ix r (record_bytes r) = inl e ->
      forall st2 rs2, ~ log_history (recs ++ [r]) st2 rs2) as Hno.
    { intros e He st2 rs2 H2. apply log_history_snoc in H2 as (s1 & rs1 & H1 & _ & _ & _ & Hc).
      destruct (log_history_det _ _ _ _ _ Hh H1) as [<- <-].
      destruct Hc as [(? & _)|(_ & x & Hx & _)]; [done|].
      rewrite apply_job_record_ranges in He. congruence. }
    destruct (apply_job_record st ix r (record_bytes r)) as [[res' e]|st1] eqn:Ha.
    + specialize (Hno _ eq_refl).
      assert (res' = FAULTLINE_WAL_REPLAY_BAD_HISTORY \/ res' = FAULTLINE_WAL_REPLAY_CAPACITY) as Hres.
      { by eapply apply_job_record_error. }
      destruct Hres as [-> | ->]; intros [= <- <- <- <- <-]; split_and!; auto.
    + intros [= <- <- <- <- <-]. split_and!; auto. by apply history_job with st.
Qed.

(** The outcome of a round, by what the decoder says of the bytes that follow. *)
Definition round_outcome (run : replay_run (W := W)) (recs : list faultline_wal_record)
    (rest : list Z) (out : option faultline_wal_replay_result) (run' : replay_run (W := W)) : Prop :=
  let sequence := rs_last_sequence (run_state run) + 1 in
  match out with
  | None =>
      exists r rest', rest = record_bytes r ++ rest' /\ record_typed r /\ record_ok r /\
        r_sequence r = sequence /\ at_log run' (recs ++ [r]) rest' /\
        run_writer run' = run_writer run /\
        (os_unread os (run_world run') < os_unread os (run_world run))%nat
  | Some FAULTLINE_WAL_REPLAY_OK =>
      run_state run' = run_state run /\ run_writer run' = run_writer run /\
      valid_bytes (run_report run') = Z.of_nat (length (log_bytes recs)) /\
      tail_bytes (run_report run') = Z.of_nat (length rest) /\
      (rest = [] \/ faultline_wal_record_decode rest sequence = inl FAULTLINE_WAL_INCOMPLETE)
  | Some FAULTLINE_WAL_REPLAY_BAD_FORMAT =>
      rest <> [] /\
      (rs_last_sequence (run_state run) = UINT64_MAX \/
       exists e, faultline_wal_record_decode rest sequence = inl e /\ e <> FAULTLINE_WAL_INCOMPLETE)
  | Some FAULTLINE_WAL_REPLAY_BAD_HISTORY | Some FAULTLINE_WAL_REPLAY_CAPACITY =>
      exists r rest', rest = record_bytes r ++ rest' /\ record_typed r /\ record_ok r /\
        r_sequence r = sequence /\ forall st rs, ~ log_history (recs ++ [r]) st rs
  | Some FAULTLINE_WAL_REPLAY_IO_ERROR =>
      writer_state (run_writer run') = FAULTLINE_WAL_WRITER_FAILED
  | Some FAULTLINE_WAL_REPLAY_NO_MEMORY => True
  | _ => False
  end.

Lemma record_decode_short l expected :
  expected <> 0 -> (length l < 32)%nat ->
  faultline_wal_record_decode l expected = inl FAULTLINE_WAL_INCOMPLETE.
Proof.
  intros He Hl. unfold faultline_wal_record_decode, faultline_wal_record_header_decode.
  destruct (Z.eqb_spec expected 0); [done|].
  destruct (Z.ltb_spec (Z.of_nat (length l)) FAULTLINE_WAL_RECORD_HEADER_SIZE); [done|wal_lia].
Qed.

(** Applying the decoded record and going on. *)
Lemma apply_round run w2 recs rest report r res st' ix' report' w3 :
  at_log run recs (record_bytes r ++ rest) -> record_typed r -> record_ok r ->
  r_sequence r = rs_last_sequence (run_state run) + 1 ->
  only_read (run_world run) w2 ->
  (os_unread os w2 < os_unread os (run_world run))%nat ->
  position (view os w2) = length (log_bytes (recs ++ [r])) ->
  valid_bytes report = valid_bytes (run_report run) -> tail_bytes report = 0 ->
  apply_record os (run_state run) (run_index run) r (record_bytes r) report w2 =
    (res, st', ix', report', w3) ->
  only_read (run_world run) w3 /\
  match res with
  | FAULTLINE_WAL_REPLAY_OK =>
      round_outcome run recs (record_bytes r ++ rest) None
        (mk_run (run_writer run) (st' <| rs_last_sequence := r_sequence r |>) ix'
           (report' <| report_last_sequence := r_sequence r |>
                    <| valid_bytes := u64 (valid_bytes report' + Z.of_nat (length (record_bytes r))) |>) w3)
  | _ =>
      round_outcome run recs (record_bytes r ++ rest) (Some res)
        (mk_run (run_writer run) st' ix' report' w3)
  end.
Proof.
  intros Hat Ht Ho Hs Hr2 Hu2 Hp2 Hval Htail Ha.
  apply (apply_record_disk recs) in Ha as (Hv & Hx & Hu & Hval' & H); try done;
    [|apply (al_history _ _ _ Hat)].
  assert (only_read (run_world run) w3) as Hr3.
  { eapply only_read_trans; [done|]. by apply only_read_same. }
  split; [done|]. destruct Hr3 as (Hv3 & _ & Hu3). destruct Hat as [Hf Hc Hp Hvalid _ Hbound _].
  assert (length (log_bytes (recs ++ [r])) = length (log_bytes recs) + length (record_bytes r))%nat as Hl
    by (by rewrite log_bytes_snoc, length_app).
  destruct res; try done.
  - destruct H as [-> Hh]. exists r, rest. split_and!; try done; cbn -[log_bytes record_bytes]; [|lia].
    constructor; cbn -[log_bytes record_bytes]; try done.
    + by rewrite Hv3.
    + rewrite Hv3. cbn -[log_bytes record_bytes]. by rewrite Hc, log_bytes_snoc, app_assoc.
    + by rewrite Hv.
    + rewrite Hval, Hvalid. rewrite app_assoc, !length_app in Hbound. rewrite u64_id by ilia. lia.
    + rewrite log_bytes_snoc, <- app_assoc. done.
  - exists r, rest. split_and!; done.
  - exists r, rest. split_and!; done.
Qed.

(** The second half of a round: the record header has been read. *)
Lemma read_record_spec run w1 recs rest report out run' :
  at_log run recs rest -> bytes_ok rest -> (32 <= length rest)%nat ->
  rs_last_sequence (run_state run) <> UINT64_MAX ->
  only_read (run_world run) w1 -> (os_unread os w1 < os_unread os (run_world run))%nat ->
  position (view os w1) = (length (log_bytes recs) + 32)%nat ->
  valid_bytes report = valid_bytes (run_report run) -> tail_bytes report = 0 ->
  read_record os (mk_run (run_writer run) (run_state run) (run_index run) report w1)
    (take 32 rest) = (out, run') ->
  only_read (run_world run) (run_world run') /\ round_outcome run recs rest out run'.
Proof.
  intros Hat Hok Hlen Hmax Ho1 Hu1 Hp1 Hval Htail.
  pose proof (hi_sequence _ _ (log_history_inv _ _ _ (al_history _ _ _ Hat))) as Hseq.
  unfold read_record. set (last := rs_last_sequence (run_state run)) in *.
  assert (u64 (last + 1) = last + 1) as -> by (apply u64_id; ilia).
  set (bytes := take 32 rest).
  assert (length bytes = 32)%nat as Hb by (unfold bytes; rewrite length_take; lia).
  assert (bytes_ok bytes) as Hbok by (unfold bytes; auto with faultline).
  assert (rest = bytes ++ drop 32 rest) as Hrest by (symmetry; apply take_drop).
  pose proof (header_decode_app bytes (drop 32 rest) (last + 1) ltac:(lia)) as Hdec.
  rewrite <- Hrest in Hdec.
  destruct (faultline_wal_record_header_decode bytes (last + 1)) as [e|h] eqn:Hh.
  { intros [= <- <-]. split; [done|]. split; [by intros ->|]. right. exists e. fold last.
    unfold faultline_wal_record_decode. rewrite Hdec. split; [done|].
    apply (header_not_incomplete bytes (last + 1)); [lia|done]. }
  pose proof Hh as (_ & _ & _ & _ & _ & (mn & mx & _ & Hb1 & Hmn & _) & _)%wal_header_decode_inv; [|done].
  destruct (read_exact os (run_writer run) (rh_payload_length h) w1) as [[res writer2] w2] eqn:Er.
  eapply read_rest in Er as [Ho2 Hr2]; [|done..].
  destruct res as [payload|]; [|intros [= <- <-]; done].
  destruct Hr2 as (-> & Hpay & Hp2 & Hu2).
  destruct (Z.ltb_spec (Z.of_nat (length payload)) (rh_payload_length h)) as [Hshort|Hfull].
  { intros [= <- <-]. split; [done|].
    assert (payload = drop 32 rest) as Hall.
    { rewrite Hpay, take_ge; [done|]. rewrite Hpay, length_take in Hshort. lia. }
    assert (Z.of_nat (length rest) = 32 + Z.of_nat (length payload)) as Hlr
      by (rewrite Hrest, length_app, <- Hall; lia).
    split; [done|]. split; [done|]. split; [cbn; rewrite Hval; apply (al_valid _ _ _ Hat)|]. split.
    - cbn. unfold FAULTLINE_WAL_RECORD_HEADER_SIZE. lia.
    - right. fold last. unfold faultline_wal_record_decode. rewrite Hdec.
      destruct (Z.ltb_spec (Z.of_nat (length rest))
        (FAULTLINE_WAL_RECORD_HEADER_SIZE + rh_payload_length h)); [done|wal_lia]. }
  assert (Z.of_nat (length payload) = rh_payload_length h) as Hpl.
  { rewrite Hpay, length_take in Hfull |- *. lia. }
  set (wire := bytes ++ payload).
  assert (rest = wire ++ drop (Z.to_nat (rh_payload_length h)) (drop 32 rest)) as Hrest'.
  { unfold wire. rewrite <- app_assoc, Hpay, take_drop. done. }
  assert (bytes_ok wire) as Hwok.
  { unfold wire. rewrite Hpay. apply Forall_app_2; [done|]. by apply bytes_ok_take, bytes_ok_drop. }
  assert (faultline_wal_record_header_decode wire (last + 1) = inr h) as Hhw.
  { unfold wire. rewrite header_decode_app; [done|lia]. }
  assert (Z.of_nat (length wire) = FAULTLINE_WAL_RECORD_HEADER_SIZE + rh_payload_length h) as Hwl.
  { unfold wire. rewrite length_app, Hb. wal_lia. }
  pose proof (record_decode_app wire (drop (Z.to_nat (rh_payload_length h)) (drop 32 rest))
    (last + 1) h Hwok Hhw ltac:(lia)) as Hrd. rewrite <- Hrest' in Hrd.
  destruct (faultline_wal_record_decode wire (last + 1)) as [e|[r n]] eqn:Hd.
  { intros [= <- <-]. split; [done|]. split; [by intros ->|]. right. exists e. fold last.
    split; [done|]. by apply (record_not_incomplete wire (last + 1) h e Hhw ltac:(lia)). }
  pose proof (record_decode_size wire (last + 1) h r n Hhw Hd) as Hsize.
  apply record_decode_inv in Hd as (Ht & Ho & Hs & Hn & Hn' & Hw); [|done].
  rewrite take_ge in Hw by lia.
  pose proof (al_bound _ _ _ Hat) as Hbound. pose proof (al_valid _ _ _ Hat) as Hvalid.
  assert (Z.of_nat (length rest) = Z.of_nat (length wire) +
    Z.of_nat (length (drop (Z.to_nat (rh_payload_length h)) (drop 32 rest)))) as Hrl
    by (rewrite Hrest' at 1; rewrite length_app; lia).
  rewrite length_app in Hbound. rewrite Hval, Hpl, Hvalid.
  destruct (Z.ltb_spec (INT64_MAX - (FAULTLINE_WAL_RECORD_HEADER_SIZE + rh_payload_length h))
    (Z.of_nat (length (log_bytes recs)))) as [|_]; [lia|].
  rewrite Hw. rewrite Hw in Hrest', Hwl. rewrite Hrest' in Hat. rewrite <- Hwl.
  destruct (apply_record os _ _ _ _ _ _) as [[[[res st'] ix'] report'] w3] eqn:Ha.
  destruct (apply_round run w2 recs _ report r res st' ix' report' w3 Hat Ht Ho Hs Ho2)
    as [Ho3 Hout]; try done; [lia| |].
  { rewrite Hp2, log_bytes_snoc, length_app. wal_lia. }
  rewrite <- Hrest' in Hout. fold last in Hs. rewrite <- Hs.
  destruct res; intros [= <- <-]; done.
Qed.

Lemma history_step_spec run recs rest out run' :
  at_log run recs rest -> bytes_ok rest ->
  history_step os run = (out, run') ->
  only_read (run_world run) (run_world run') /\ round_outcome run recs rest out run'.
Proof.
  intros Hat Hok. unfold history_step. destruct run as [writer st ix report world].
  destruct (read_exact os writer FAULTLINE_WAL_RECORD_HEADER_SIZE world) as [[res writer1] w1] eqn:Er.
  pose proof (at_log_read _ _ _ _ _ _ _ Hat Er) as [Ho1 Hr]. cbn [run_writer run_world] in *.
  destruct res as [bytes|]; [|intros [= <- <-]; done].
  destruct Hr as (-> & Hb & Hp & Hu). rewrite length_app in Hp.
  change (Z.to_nat FAULTLINE_WAL_RECORD_HEADER_SIZE) with 32%nat in Hb.
  pose proof (log_history_inv _ _ _ (al_history _ _ _ Hat)) as HI.
  destruct bytes as [|b bytes'] eqn:Eb.
  { intros [= <- <-]. split; [done|]. destruct rest; [|done]. split_and!; try done; cbn.
    - apply (al_valid _ _ _ Hat).
    - apply (al_tail _ _ _ Hat).
    - by left. }
  rewrite <- Eb in *. assert (bytes <> []) as Hne by (by rewrite Eb). clear Eb b bytes'.
  assert (rest <> []) as Hrne by (intros ->; done). specialize (Hu Hne).
  destruct (Z.eqb_spec (rs_last_sequence st) UINT64_MAX) as [Em|Em].
  { intros [= <- <-]. split; [done|]. split; [done|]. by left. }
  destruct (Z.ltb_spec (Z.of_nat (length bytes)) FAULTLINE_WAL_RECORD_HEADER_SIZE) as [Hs|Hs].
  { intros [= <- <-]. split; [done|].
    assert (bytes = rest) as ->.
    { rewrite Hb, take_ge; [done|]. rewrite Hb, length_take in Hs. wal_lia. }
    split_and!; try done; cbn; [apply (al_valid _ _ _ Hat)|]. right.
    apply record_decode_short; [|wal_lia]. pose proof (hi_sequence _ _ HI). cbn in *. lia. }
  assert (32 <= length rest)%nat as Hl by (rewrite Hb, length_take in Hs; wal_lia).
  subst bytes. intros H.
  apply (read_record_spec (mk_run writer st ix report world) w1 recs rest
    (report <| error_offset := valid_bytes report |>)); try done.
  - rewrite Hp, length_take. lia.
  - apply (al_tail _ _ _ Hat).
Qed.

(** What the loop found: the records [recs] were applied and [rest] follows. *)
Definition verdict (res : faultline_wal_replay_result) (recs : list faultline_wal_record)
    (rest : list Z) (st : faultline_wal_replay_state) : Prop :=
  let sequence := rs_last_sequence st + 1 in
  match res with
  | FAULTLINE_WAL_REPLAY_OK =>
      rest = [] \/ faultline_wal_record_decode rest sequence = inl FAULTLINE_WAL_INCOMPLETE
  | FAULTLINE_WAL_REPLAY_BAD_FORMAT =>
      rest <> [] /\
      (rs_last_sequence st = UINT64_MAX \/
       exists e, faultline_wal_record_decode rest sequence = inl e /\ e <> FAULTLINE_WAL_INCOMPLETE)
  | FAULTLINE_WAL_REPLAY_BAD_HISTORY | FAULTLINE_WAL_REPLAY_CAPACITY =>
      exists r rest', rest = record_bytes r ++ rest' /\ record_typed r /\ record_ok r /\
        r_sequence r = sequence /\ forall st' rs', ~ log_history (recs ++ [r]) st' rs'
  | _ => False
  end.

Lemma history_loop_spec fuel run recs rest res run' :
  at_log run recs rest -> bytes_ok rest -> (os_unread os (run_world run) <= fuel)%nat ->
  history_loop os fuel run = (res, run') ->
  only_read (run_world run) (run_world run') /\
  (res = FAULTLINE_WAL_REPLAY_IO_ERROR /\
     writer_state (run_writer run') = FAULTLINE_WAL_WRITER_FAILED \/
   res = FAULTLINE_WAL_REPLAY_NO_MEMORY \/
   exists recs' rest' st rs, log_bytes recs ++ rest = log_bytes recs' ++ rest' /\
     log_history recs' st rs /\ verdict res recs' rest' st /\
     (res = FAULTLINE_WAL_REPLAY_OK ->
      run_state run' = st /\ run_writer run' = run_writer run /\
      valid_bytes (run_report run') = Z.of_nat (length (log_bytes recs')) /\
      tail_bytes (run_report run') = Z.of_nat (length rest'))).
Proof.
  revert run recs rest. induction fuel as [|fuel IH]; intros run recs rest Hat Hok Hfuel; cbn [history_loop];
    destruct (history_step os run) as [out run1] eqn:Hstep;
    apply (history_step_spec _ _ _ _ _ Hat Hok) in Hstep as [Ho Hout].
  all: destruct out as [res1|];
    [intros [= -> ->]; split; [done|]; unfold round_outcome in Hout; cbn zeta in Hout;
     destruct res; try done; auto; right; right;
     exists recs, rest, (run_state run), (ranges (run_index run));
     (split; [done|]; split; [apply (al_history _ _ _ Hat)|]);
     (split; [unfold verdict; cbn zeta; tauto|]; intros; try done; tauto)|].
  - destruct Hout as (r & rest' & _ & _ & _ & _ & _ & _ & Hu). lia.
  - destruct Hout as (r & rest' & -> & _ & _ & _ & Hat' & Hwr & Hu). intros H.
    apply (IH _ _ _ Hat') in H as [Ho' H]; [|by apply bytes_ok_app in Hok as [_ ?]|lia].
    split; [by eapply only_read_trans|]. destruct H as [H|[H|H]]; auto.
    right; right. rewrite log_bytes_snoc, <- app_assoc, Hwr in H. done.
Qed.

Lemma read_history_spec writer world c res run' :
  file (view os world) = Some (fd writer) -> content (view os world) = Some c ->
  position (view os world) = 0%nat -> bytes_ok c -> Z.of_nat (length c) <= INT64_MAX ->
  read_history os (mk_run writer initial_replay_state empty_index zero_report world) = (res, run') ->
  only_read world (run_world run') /\
  (res = FAULTLINE_WAL_REPLAY_IO_ERROR /\
     writer_state (run_writer run') = FAULTLINE_WAL_WRITER_FAILED \/
   res = FAULTLINE_WAL_REPLAY_NO_MEMORY \/
   res = FAULTLINE_WAL_REPLAY_BAD_FORMAT /\ take 24 c <> file_header \/
   exists recs rest st rs, c = log_bytes recs ++ rest /\
     log_history recs st rs /\ verdict res recs rest st /\
     (res = FAULTLINE_WAL_REPLAY_OK ->
      run_state run' = st /\ run_writer run' = writer /\
      valid_bytes (run_report run') = Z.of_nat (length (log_bytes recs)) /\
      tail_bytes (run_report run') = Z.of_nat (length rest))).
Proof.
  intros Hf Hc Hp Hok Hbound. unfold read_history.
  destruct (read_exact os writer FAULTLINE_WAL_FILE_HEADER_SIZE world) as [[r writer1] w1] eqn:Er.
  apply (read_exact_disk _ _ _ _ _ _ _ Hf Hc) in Er as [Ho1 Hr].
  destruct r as [bytes|]; [|intros [= <- <-]; split; [done|]; by left].
  destruct Hr as (-> & Hb & Hp1 & _). rewrite Hp, drop_0 in Hb.
  change (Z.to_nat FAULTLINE_WAL_FILE_HEADER_SIZE) with 24%nat in Hb.
  destruct (decide (faultline_wal_file_header_decode bytes = FAULTLINE_WAL_OK)) as [E|E].
  - rewrite E. intros H. subst bytes.
    apply file_header_decode_inv in E as Hh; [|auto with faultline].
    rewrite take_take, Nat.min_id in Hh.
    assert (c = log_bytes [] ++ drop 24 c) as Hc'.
    { unfold log_bytes. change (concat (record_bytes <$> [])) with (@nil Z).
      rewrite app_nil_r, <- Hh. symmetry. apply take_drop. }
    eapply (history_loop_spec _ _ [] (drop 24 c)) in H as [Ho H].
    + split; [by eapply only_read_trans|]. rewrite <- Hc' in H. tauto.
    + destruct Ho1 as (Hv & _). constructor; cbn -[log_bytes]; try done.
      * by rewrite Hv.
      * rewrite Hv. cbn -[log_bytes]. by rewrite Hc, <- Hc'.
      * rewrite Hp1, Hp, Hh. done.
      * by rewrite <- Hc'.
      * constructor.
    + auto with faultline.
    + done.
  - assert (take 24 c <> file_header) as Hne.
    { intros Hh. apply E. rewrite Hb, Hh. rewrite <- (app_nil_r file_header). apply file_header_decode_ok. }
    destruct (faultline_wal_file_header_decode bytes); try done;
      intros [= <- <-]; (split; [done|]); right; right; by left.
Qed.

(** ** A log has one reading *)

(** Valid records numbered from [n + 1] on. *)
Fixpoint numbered (n : Z) (recs : list faultline_wal_record) : Prop :=
  match recs with
  | [] => True
  | r :: rest => record_typed r /\ record_ok r /\ r_sequence r = n + 1 /\ numbered (n + 1) rest
  end.

Lemma numbered_app n l k :
  numbered n (l ++ k) <-> numbered n l /\ numbered (n + Z.of_nat (length l)) k.
Proof.
  revert n. induction l as [|r l IH]; intros n; cbn [numbered app length].
  - rewrite Z.add_0_r. tauto.
  - rewrite IH. replace (n + Z.of_nat (S (length l))) with (n + 1 + Z.of_nat (length l)) by lia. tauto.
Qed.

Lemma log_history_numbered recs st rs :
  log_history recs st rs -> numbered 0 recs /\ rs_last_sequence st = Z.of_nat (length recs).
Proof.
  revert st rs. induction recs as [|r recs IH] using rev_ind; intros st rs H.
  - destruct (log_history_det _ _ _ _ _ H history_nil) as [-> _]. done.
  - apply log_history_snoc in H as (s1 & rs1 & H1 & Ht & Ho & Hs & Hc).
    destruct (IH _ _ H1) as [Hn Hl]. rewrite numbered_app, length_app. cbn [numbered length].
    rewrite Hl in Hs. split; [split_and!; done || lia|].
    destruct Hc as [(_ & _ & -> & _)|(_ & x & _ & -> & _)]; cbn; lia.
Qed.

Lemma log_history_prefix l k st rs :
  log_history (l ++ k) st rs -> exists st' rs', log_history l st' rs'.
Proof.
  revert st rs. induction k as [|r k IH] using rev_ind; intros st rs H; [rewrite app_nil_r in H; eauto|].
  rewrite app_assoc in H. apply log_history_snoc in H as (s1 & rs1 & H1 & _). eauto.
Qed.

(** What the decoder sees at the start of a record. *)
Lemma decode_next n r l rest :
  numbered n (r :: l) ->
  faultline_wal_record_decode (record_bytes r ++ rest) (n + 1) =
  inr (r, Z.of_nat (length (record_bytes r))).
Proof.
  intros (Ht & Ho & Hs & _). rewrite <- Hs.
  rewrite record_decode_bytes by (try done; apply Ho). by rewrite Z.eqb_refl.
Qed.

Lemma records_compare n l l' a b :
  numbered n l -> numbered n l' ->
  concat (record_bytes <$> l) ++ a = concat (record_bytes <$> l') ++ b ->
  (exists r k rest, l' = l ++ r :: k /\ a = record_bytes r ++ rest) \/
  (exists r k rest, l = l' ++ r :: k /\ b = record_bytes r ++ rest) \/
  l = l' /\ a = b.
Proof.
  revert n l'. induction l as [|r l IH]; intros n [|r' l'] Hl Hl' E; cbn [fmap list_fmap concat app] in E.
  - auto.
  - left. exists r', l', (concat (record_bytes <$> l') ++ b). by rewrite <- app_assoc in E.
  - right; left. exists r, l, (concat (record_bytes <$> l) ++ a). by rewrite <- app_assoc in E.
  - rewrite <- !app_assoc in E.
    pose proof (decode_next n r l (concat (record_bytes <$> l) ++ a) Hl) as D.
    rewrite E, (decode_next n r' l' _ Hl') in D. injection D as -> _. apply app_inv_head in E.
    destruct (IH (n + 1) l') as [(x & k & rest & -> & ->)|[(x & k & rest & -> & ->)|[-> ->]]];
      [apply Hl|apply Hl'|done|..]; eauto 10.
Qed.

(** Where the decoder stops, no record of the sequence starts. *)
Lemma no_record_follows n rest r k x :
  rest = [] \/ (exists e, faultline_wal_record_decode rest (n + 1) = inl e) -> numbered n (r :: k) ->
  rest <> record_bytes r ++ x.
Proof.
  intros Hrest Hn ->. pose proof (decode_next n r k x Hn) as D. rewrite D in Hrest.
  destruct Hrest as [Hr|[e ?]]; [|done].
  apply (f_equal length) in Hr. rewrite length_app, record_bytes_length in Hr. simpl in Hr. lia.
Qed.

(** A history after which the decoder stops is the longest one in the bytes. *)
Lemma longest_history recs rest st rs recs' rest' st' rs' :
  log_history recs st rs ->
  rest = [] \/ (exists e, faultline_wal_record_decode rest (rs_last_sequence st + 1) = inl e) ->
  log_bytes recs ++ rest = log_bytes recs' ++ rest' -> log_history recs' st' rs' ->
  recs' `prefix_of` recs.
Proof.
  intros Hh Hrest E Hh'. destruct (log_history_numbered _ _ _ Hh) as [Hn Hl].
  destruct (log_history_numbered _ _ _ Hh') as [Hn' _].
  unfold log_bytes in E. rewrite <- !app_assoc in E. apply app_inv_head in E.
  destruct (records_compare 0 _ _ _ _ Hn Hn' E) as [(r & k & x & -> & Hr)|[(r & k & x & -> & _)|[-> _]]];
    [exfalso|by apply prefix_app_r|done].
  apply numbered_app in Hn' as [_ Hn']. rewrite <- Hl in Hn'.
  exact (no_record_follows _ _ r k x Hrest Hn' Hr).
Qed.

(** The bytes determine how far the loop comes. *)
Lemma verdict_unique res recs rest st rs recs' rest' st' rs' :
  log_history recs st rs ->
  rest = [] \/ (exists e, faultline_wal_record_decode rest (rs_last_sequence st + 1) = inl e) ->
  log_bytes recs ++ rest = log_bytes recs' ++ rest' ->
  log_history recs' st' rs' -> verdict res recs' rest' st' ->
  recs' = recs /\ rest' = rest /\ st' = st.
Proof.
  intros Hh Hrest E Hh' Hv.
  enough (recs' = recs /\ rest' = rest) as [-> ->].
  { split; [reflexivity|]. split; [reflexivity|]. apply (log_history_det _ _ _ _ _ Hh' Hh). }
  destruct (log_history_numbered _ _ _ Hh) as [Hn Hl].
  destruct (log_history_numbered _ _ _ Hh') as [Hn' Hl'].
  unfold log_bytes in E. rewrite <- !app_assoc in E. apply app_inv_head in E.
  destruct (records_compare 0 _ _ _ _ Hn Hn' E) as [(r & k & x & -> & ->)|[(r & k & x & -> & ->)|[-> ->]]];
    [exfalso..|done].
  - apply numbered_app in Hn' as [_ Hn']. rewrite <- Hl in Hn'.
    exact (no_record_follows _ _ r k x Hrest Hn' eq_refl).
  - apply numbered_app in Hn as [_ Hn]. rewrite <- Hl' in Hn.
    pose proof (decode_next _ r k x Hn) as D. change (0 + rs_last_sequence st') with (rs_last_sequence st') in D.
    destruct (log_history_prefix (recs' ++ [r]) k st rs) as (st1 & rs1 & H1); [by rewrite <- app_assoc|].
    assert (record_bytes r ++ x <> []) as Hne.
    { intros Hr. apply (f_equal length) in Hr. rewrite length_app, record_bytes_length in Hr. simpl in Hr. lia. }
    unfold verdict in Hv. cbn zeta in Hv. rewrite D in Hv. destruct res; try done.
    + destruct Hv; done.
    + destruct Hv as [_ [Hm|(e & ? & _)]]; [|done]. destruct Hn as ([Hr64 _] & _ & Hs & _).
      change (0 + rs_last_sequence st') with (rs_last_sequence st') in Hs. ilia.
    + destruct Hv as (r2 & x2 & E2 & Ht2 & Ho2 & Hs2 & Hno).
      pose proof (decode_next _ r2 [] x2 (conj Ht2 (conj Ho2 (conj Hs2 I)))) as D2.
      rewrite <- E2, D in D2. injection D2 as -> _. exact (Hno st1 rs1 H1).
    + destruct Hv as (r2 & x2 & E2 & Ht2 & Ho2 & Hs2 & Hno).
      pose proof (decode_next _ r2 [] x2 (conj Ht2 (conj Ho2 (conj Hs2 I)))) as D2.
      rewrite <- E2, D in D2. injection D2 as -> _. exact (Hno st1 rs1 H1).
Qed.

(** ** Repairing and opening *)

(** The file has the content [c] or its part [good], and so has whatever a kill leaves. *)
Definition repaired (world : W) (c good : list Z) : Prop :=
  (content (view os world) = Some c \/ content (view os world) = Some good) /\
  forall x, crash os world x -> x = Some c \/ x = Some good.

Lemma truncate_disk f size world r world' c :
  file (view os world) = Some f -> content (view os world) = Some c ->
  0 <= size <= Z.of_nat (length c) ->
  retry os (io_truncate os f size) world = (r, world') ->
  (forall x, crash os world' x -> crash os world x \/ x = Some (take (Z.to_nat size) c)) /\
  (view os world' = view os world \/
   view os world' = with_content (take (Z.to_nat size) c) (view os world)) /\
  match r with
  | OsOk _ => view os world' = with_content (take (Z.to_nat size) c) (view os world)
  | OsErr _ => True
  end.
Proof.
  intros Hf Hc Hs H. revert Hf Hc. revert world r world' H.
  apply (retry_ind os (io_truncate os f size) (fun world r world' =>
    file (view os world) = Some f -> content (view os world) = Some c ->
    (forall x, crash os world' x -> crash os world x \/ x = Some (take (Z.to_nat size) c)) /\
    (view os world' = view os world \/
     view os world' = with_content (take (Z.to_nat size) c) (view os world)) /\
    match r with
    | OsOk _ => view os world' = with_content (take (Z.to_nat size) c) (view os world)
    | OsErr _ => True
    end)); [apply (finite_truncate os)|..].
  - intros world r world' H _ Hf Hc.
    destruct (law_truncate os _ _ _ _ _ _ Hf Hc Hs H) as (Hx & Hr & Hv). split; [done|]. split; [done|].
    by destruct r.
  - intros world w1 r w2 H IH Hf Hc.
    destruct (law_truncate os _ _ _ _ _ _ Hf Hc Hs H) as (Hx & Hr & _). specialize (Hr eq_refl).
    rewrite Hr in IH. destruct (IH Hf Hc) as (Hx2 & Hv2 & Hr2). split; [|done].
    intros x Hin. apply Hx2 in Hin as [Hin| ->]; auto.
Qed.

Lemma truncate_tail_disk writer report world good rest res writer' world' :
  attached os writer world -> settled os world (good ++ rest) ->
  valid_bytes report = Z.of_nat (length good) -> tail_bytes report = Z.of_nat (length rest) ->
  truncate_tail os writer report world = (res, writer', world') ->
  repaired world' (good ++ rest) good /\
  match res with
  | FAULTLINE_WAL_REPLAY_OK =>
      writer' = writer /\ attached os writer world' /\ content (view os world') = Some good
  | FAULTLINE_WAL_REPLAY_IO_ERROR => writer_state writer' = FAULTLINE_WAL_WRITER_FAILED
  | _ => False
  end.
Proof.
  intros [Hf Hd] [Hc Hcr] Hv Ht. unfold truncate_tail. rewrite Ht, Hv.
  destruct (Z.eqb_spec (Z.of_nat (length rest)) 0) as [E|E]; cbn [negb].
  { destruct rest; [|cbn in E; lia]. rewrite app_nil_r in *. intros [= <- <- <-].
    split; [|by split_and!]. split; [auto|]. intros x Hin. left. auto. }
  destruct (retry os _ _) as [r w1] eqn:Er.
  eapply truncate_disk in Er as (Hx & Hv1 & Hr); [|done|done|rewrite length_app; lia].
  rewrite Nat2Z.id, take_app_length in *.
  assert (repaired w1 (good ++ rest) good) as Hrep.
  { split; [destruct Hv1 as [-> | ->]; auto|]. intros x Hin. apply Hx in Hin as [Hin| ->]; auto. }
  destruct r; intros [= <- <- <-]; (split; [done|]); [|apply fail_failed].
  unfold attached. rewrite Hr. by split_and!.
Qed.

Lemma sync_recovery_disk writer world c good res writer' world' :
  attached os writer world -> content (view os world) = Some good -> repaired world c good ->
  sync_recovery os writer world = (res, writer', world') ->
  match res with
  | FAULTLINE_WAL_REPLAY_OK => writer' = writer /\ attached os writer world' /\ settled os world' good
  | FAULTLINE_WAL_REPLAY_IO_ERROR =>
      writer_state writer' = FAULTLINE_WAL_WRITER_FAILED /\ repaired world' c good
  | _ => False
  end.
Proof.
  intros Ha Hc [_ Hcr]. unfold sync_recovery.
  destruct (faultline_wal_writer_sync os writer (fd writer) _ world) as [[r1 writer1] w1] eqn:E1.
  apply (sync_disk os) in E1 as (Hv1 & Hx1 & Hr1).
  assert (repaired w1 c good) as Hrep1 by (split; [right; by rewrite Hv1|auto]).
  destruct r1; try done; [|destruct Hr1 as [e ->]; intros [= <- <- <-]; split; [apply fail_failed|done]].
  destruct Hr1 as (-> & Hfile & _). specialize (Hfile (proj1 Ha)).
  destruct (faultline_wal_writer_sync os writer (directory_fd writer) _ w1) as [[r2 writer2] w2] eqn:E2.
  apply (sync_disk os) in E2 as (Hv2 & Hx2 & Hr2).
  destruct r2; try done; [|destruct Hr2 as [e ->]].
  - destruct Hr2 as (-> & _). intros [= <- <- <-]. split; [done|]. unfold attached, settled.
    rewrite Hv2, Hv1. split; [done|]. split; [done|].
    intros x Hin. apply Hx2 in Hin. destruct (Hfile x Hin) as [-> | ->]; [|done].
    apply Hx1, Hcr in Hin as [?|?]; done.
  - intros [= <- <- <-]. split; [apply fail_failed|]. split; [right; by rewrite Hv2, Hv1|auto].
Qed.

Lemma only_read_settled world world' c : settled os world c -> only_read world world' -> settled os world' c.
Proof. intros [Hc Hx] (Hv & Hsub & _). split; [by rewrite Hv|auto]. Qed.

Lemma refuse_log_failed res writer :
  writer_state (refuse_log res writer) = FAULTLINE_WAL_WRITER_FAILED.
Proof. apply fail_failed. Qed.

(** What the log is found to hold. *)
Definition log_reading (res : faultline_wal_replay_result) (c : list Z)
    (recs : list faultline_wal_record) (rest : list Z) (st : faultline_wal_replay_state) : Prop :=
  c = log_bytes recs ++ rest /\ (exists rs, log_history recs st rs) /\ verdict res recs rest st.

Lemma replay_open_disk writer path old world c res writer' st report world' :
  unopened writer -> path <> [] -> ends_in_slash path = false ->
  settled os world c -> bytes_ok c -> Z.of_nat (length c) <= INT64_MAX ->
  faultline_wal_replay_open_with_io os writer path old world = (res, writer', st, report, world') ->
  match res with
  | FAULTLINE_WAL_REPLAY_OK =>
      exists recs rest st0, log_reading res c recs rest st0 /\ st = Some st0 /\
        ready os writer' world' (log_bytes recs) /\
        next_sequence writer' = next_after (rs_last_sequence st0)
  | FAULTLINE_WAL_REPLAY_IO_ERROR =>
      writer_state writer' = FAULTLINE_WAL_WRITER_FAILED /\ st = None /\
      (settled os world' c \/
       exists recs rest st0, log_reading FAULTLINE_WAL_REPLAY_OK c recs rest st0 /\
         repaired world' c (log_bytes recs))
  | FAULTLINE_WAL_REPLAY_NO_MEMORY =>
      writer_state writer' = FAULTLINE_WAL_WRITER_FAILED /\ st = None /\ settled os world' c
  | _ =>
      writer_state writer' = FAULTLINE_WAL_WRITER_FAILED /\ st = None /\ settled os world' c /\
      (res = FAULTLINE_WAL_REPLAY_BAD_FORMAT /\ take 24 c <> file_header \/
       exists recs rest st0, log_reading res c recs rest st0)
  end.
Proof.
  intros Hu Hp Hs [Hc Hcr] Hok Hbound. unfold faultline_wal_replay_open_with_io.
  rewrite (bool_decide_eq_false_2 (path = [])), Hs by done. cbn [orb].
  destruct (faultline_wal_writer_open_file os writer path false world) as [[r1 writer1] w1] eqn:E1.
  apply (open_file_disk os) in E1 as [[Hc1 Hx1] H1]; [|done..].
  assert (settled os w1 c) as Hset1.
  { split; [destruct Hc1 as [->|[? _]]; done|]. intros x Hin. destruct (Hx1 x Hin) as [|[? _]]; auto. done. }
  destruct r1; try done; cycle 1.
  { intros [= <- <- <- <- <-]. auto. }
  destruct H1 as (Ha1 & Hp1 & Hw1 & _ & Hsame).
  destruct (os_alloc os w1) as [b w2] eqn:Ea. pose proof (law_alloc os _ _ _ Ea) as [Hv2 Hx2].
  pose proof (finite_alloc os _ _ _ Ea) as Hu2.
  assert (settled os w2 c) as Hset2 by (eapply only_read_settled; [done|by apply only_read_same]).
  destruct b; cycle 1.
  { intros [= <- <- <- <- <-]. split; [apply refuse_log_failed|]. done. }
  destruct (read_history os _) as [r3 [writer3 st3 ix3 report3 w3]] eqn:E3.
  apply (read_history_spec _ _ c) in E3 as [Ho3 H3]; [|by rewrite Hv2; apply Ha1|apply (proj1 Hset2)|by rewrite Hv2|done..].
  cbn [run_world run_writer run_report run_state] in *.
  pose proof (only_read_settled _ _ _ Hset2 Ho3) as Hset3.
  destruct (decide (r3 = FAULTLINE_WAL_REPLAY_OK)) as [->|Hr3]; cycle 1.
  { intros H. cbv beta iota in H. pose proof (refuse_log_failed r3 writer3) as Hfail.
    assert (exists report', (r3, refuse_log r3 writer3, None, report', w3) =
      (res, writer', st, report, world')) as [report' E] by (destruct r3; try done; eauto).
    injection E as <- <- <- _ <-.
    destruct H3 as [[-> _]|[->|[[-> Hne]|(recs & rest & st0 & rs & Hcc & Hh & Hver & _)]]]; auto 10.
    destruct r3; try done; (split; [done|]; split; [done|]; split; [done|]); right;
      exists recs, rest, st0; unfold log_reading; eauto. }
  destruct H3 as [[? _]|[?|[[? _]|(recs & rest & st0 & rs & Hcc & Hh & Hver & Hres)]]]; try done.
  destruct (Hres eq_refl) as (-> & -> & Hval & Htail). clear Hres.
  assert (log_reading FAULTLINE_WAL_REPLAY_OK c recs rest st0) as Hread by (unfold log_reading; eauto).
  assert (attached os writer1 w3) as Ha3.
  { destruct Ho3 as (Hv3 & _). unfold attached. rewrite Hv3, Hv2. apply Ha1. }
  destruct (truncate_tail os writer1 report3 w3) as [[r4 writer4] w4] eqn:E4.
  rewrite Hcc in Hset3. apply (truncate_tail_disk _ _ _ (log_bytes recs) rest) in E4 as [Hrep4 H4]; [|done..].
  rewrite <- Hcc in Hrep4.
  destruct r4; try done; cycle 1.
  { intros [= <- <- <- <- <-]. split; [apply refuse_log_failed|]. split; [done|]. right. by exists recs, rest, st0. }
  destruct H4 as (-> & Ha4 & Hc4).
  destruct (sync_recovery os writer1 w4) as [[r5 writer5] w5] eqn:E5.
  apply (sync_recovery_disk _ _ c (log_bytes recs)) in E5; [|done..].
  destruct r5; try done; intros [= <- <- <- <- <-].
  - destruct E5 as (-> & Ha5 & Hset5). exists recs, rest, st0. split; [done|]. split; [done|].
    split; [|done]. split; [done|]. done.
  - destruct E5 as [_ Hrep5]. split; [apply refuse_log_failed|]. split; [done|]. right. by exists recs, rest, st0.
Qed.

(** A byte of the log is a byte of the header or of one record. *)
Lemma locate_byte recs k :
  (k < length (concat (record_bytes <$> recs)))%nat ->
  exists recs1 r recs2 i, recs = recs1 ++ r :: recs2 /\
    k = (length (concat (record_bytes <$> recs1)) + i)%nat /\ (i < length (record_bytes r))%nat.
Proof.
  revert k. induction recs as [|r recs IH]; intros k; cbn [fmap list_fmap concat length]; [lia|].
  rewrite length_app. intros Hk. destruct (decide (k < length (record_bytes r))%nat).
  - by exists [], r, recs, k.
  - destruct (IH (k - length (record_bytes r))%nat) as (l1 & x & l2 & i & -> & Hi & Hlt); [lia|].
    exists (r :: l1), x, l2, i. cbn [fmap list_fmap concat app]. rewrite length_app.
    split_and!; [done|lia|done].
Qed.

(** A log that was damaged in one byte has no reading that is accepted. *)
Lemma damaged_reading recs st rs k y res recs' rest' st' :
  log_history recs st rs -> (k < length (log_bytes recs))%nat -> in_u8 y ->
  log_bytes recs !! k <> Some y ->
  log_reading res (<[k := y]> (log_bytes recs)) recs' rest' st' ->
  res = FAULTLINE_WAL_REPLAY_BAD_FORMAT /\ take 24 (<[k := y]> (log_bytes recs)) = file_header.
Proof.
  intros Hh Hk Hy Hne (Hc & [rs' Hh'] & Hver).
  assert (take 24 (<[k := y]> (log_bytes recs)) = file_header) as Hhead.
  { rewrite Hc. unfold log_bytes. rewrite <- app_assoc. by rewrite take_app_length'. }
  split; [|done]. destruct (decide (k < 24)%nat) as [Hlt|Hge].
  { exfalso. apply Hne. unfold log_bytes in *. rewrite lookup_app_l by (rewrite file_header_length; lia).
    rewrite <- Hhead. rewrite lookup_take_lt by lia. by rewrite list_lookup_insert_eq. }
  unfold log_bytes in Hk, Hne. rewrite length_app, file_header_length in Hk.
  rewrite lookup_app_r in Hne by (rewrite file_header_length; lia).
  rewrite file_header_length in Hne.
  destruct (locate_byte recs (k - 24)) as (recs1 & r & recs2 & i & -> & Hi & Hlt); [lia|].
  rewrite Hi, fmap_app, concat_app, lookup_app_r in Hne by lia.
  replace (_ + i - _)%nat with i in Hne by lia.
  cbn [fmap list_fmap concat] in Hne. rewrite lookup_app_l in Hne by done.
  set (more := concat (record_bytes <$> recs2)).
  assert (<[k := y]> (log_bytes (recs1 ++ r :: recs2)) =
    log_bytes recs1 ++ <[i := y]> (record_bytes r) ++ more) as Hdam.
  { unfold log_bytes. rewrite fmap_app, concat_app, app_assoc.
    replace k with (length (file_header ++ concat (record_bytes <$> recs1)) + i)%nat
      by (rewrite length_app, file_header_length; lia).
    rewrite insert_app_r. cbn [fmap list_fmap concat]. by rewrite insert_app_l. }
  destruct (log_history_prefix recs1 (r :: recs2) st rs Hh) as (st1 & rs1 & Hh1).
  destruct (log_history_numbered _ _ _ Hh) as [Hnum _]. apply numbered_app in Hnum as [_ Hnum].
  destruct (log_history_numbered _ _ _ Hh1) as [_ Hlast].
  destruct Hnum as (Ht & Ho & Hseq & _). rewrite <- Hlast in Hseq.
  change (0 + rs_last_sequence st1) with (rs_last_sequence st1) in Hseq.
  pose proof (record_decode_damaged r i y more Ht Ho Hlt Hy Hne) as Hd. rewrite Hseq in Hd.
  rewrite Hdam in Hc.
  destruct (verdict_unique res recs1 _ st1 rs1 recs' rest' st' rs' Hh1 (or_intror (ex_intro _ _ Hd)) Hc Hh' Hver)
    as (-> & -> & ->).
  assert (forall r2 x, <[i := y]> (record_bytes r) ++ more = record_bytes r2 ++ x ->
    record_typed r2 -> record_ok r2 -> r_sequence r2 = rs_last_sequence st1 + 1 -> False) as Hno.
  { intros r2 x E Ht2 Ho2 Hs2.
    pose proof (decode_next _ r2 [] x (conj Ht2 (conj Ho2 (conj Hs2 I)))) as D.
    rewrite <- E, Hd in D. discriminate D. }
  unfold verdict in Hver. cbn zeta in Hver. rewrite Hd in Hver.
  destruct res; try reflexivity; exfalso; try exact Hver.
  - destruct Hver as [Hnil|Hver]; [|discriminate Hver]. apply (f_equal length) in Hnil.
    rewrite length_app, length_insert in Hnil. simpl in Hnil. lia.
  - destruct Hver as (r2 & x & E & Ht2 & Ho2 & Hs2 & _). exact (Hno r2 x E Ht2 Ho2 Hs2).
  - destruct Hver as (r2 & x & E & Ht2 & Ho2 & Hs2 & _). exact (Hno r2 x E Ht2 Ho2 Hs2).
Qed.

(** An empty or incomplete rest is the only reason to stop with success. *)
Lemma torn_verdict res recs rest st :
  rest = [] \/ rs_last_sequence st <> UINT64_MAX /\
    faultline_wal_record_decode rest (rs_last_sequence st + 1) = inl FAULTLINE_WAL_INCOMPLETE ->
  verdict res recs rest st -> res = FAULTLINE_WAL_REPLAY_OK.
Proof.
  unfold verdict. cbn zeta. intros Hr Hv.
  assert (forall r x, rest = record_bytes r ++ x -> record_typed r -> record_ok r ->
    r_sequence r = rs_last_sequence st + 1 -> False) as Hno.
  { intros r x -> Ht Ho Hs. pose proof (decode_next _ r [] x (conj Ht (conj Ho (conj Hs I)))) as D.
    destruct Hr as [Hr|[_ Hr]]; [|rewrite D in Hr; discriminate Hr].
    apply (f_equal length) in Hr. rewrite length_app, record_bytes_length in Hr. simpl in Hr. lia. }
  destruct res; try reflexivity; exfalso; try exact Hv.
  - destruct Hv as [Hne [Hv|(e & Hv & He)]]; destruct Hr as [|[? Hr]]; try contradiction.
    rewrite Hr in Hv. injection Hv as <-. contradiction.
  - destruct Hv as (r & x & E & Ht & Ho & Hs & _). exact (Hno r x E Ht Ho Hs).
  - destruct Hv as (r & x & E & Ht & Ho & Hs & _). exact (Hno r x E Ht Ho Hs).
Qed.

Lemma log_bytes_ok recs st rs : log_history recs st rs -> bytes_ok (log_bytes recs).
Proof.
  intros Hh. destruct (log_history_numbered _ _ _ Hh) as [Hn _]. clear Hh st rs.
  apply bytes_ok_app. split; [apply file_header_bytes|]. revert Hn. generalize 0.
  induction recs as [|r recs IH]; intros n; [intros _; constructor|]. intros (Ht & _ & _ & Hn).
  cbn [fmap list_fmap concat]. apply bytes_ok_app. split; [by apply record_bytes_ok|by apply (IH (n + 1))].
Qed.

(** ** Properties *)

(** C9: Whatever bytes a log file holds, a recovery that succeeds publishes the state of a valid
    history that is encoded in the file and followed by nothing, or by bytes that the decoder finds
    to be an incomplete record with the next number; so it is the longest history in the file, and
    no complete record, valid or damaged, is dropped. The scheduler invariant holds, no worker is
    live, and the file is left with exactly the records of that history, synced, and a handle that
    continues the sequence. A recovery that fails publishes nothing. *)
Theorem recovery_sound writer path old world c res writer' st report world' :
  unopened writer -> path <> [] -> ends_in_slash path = false ->
  settled os world c -> bytes_ok c -> Z.of_nat (length c) <= INT64_MAX ->
  faultline_wal_replay_open_with_io os writer path old world = (res, writer', st, report, world') ->
  match res with
  | FAULTLINE_WAL_REPLAY_OK =>
      exists recs rest st0 rs, st = Some st0 /\ c = log_bytes recs ++ rest /\
        log_history recs st0 rs /\ sched_wf (rs_scheduler st0) /\
        workers (rs_workers st0) = workers faultline_worker_registry_init /\
        ready os writer' world' (log_bytes recs) /\
        next_sequence writer' = next_after (Z.of_nat (length recs)) /\
        (rest = [] \/ faultline_wal_record_decode rest (Z.of_nat (length recs) + 1) =
           inl FAULTLINE_WAL_INCOMPLETE) /\
        (forall recs' rest' st' rs', c = log_bytes recs' ++ rest' -> log_history recs' st' rs' ->
           recs' `prefix_of` recs)
  | _ => st = None /\ writer_state writer' = FAULTLINE_WAL_WRITER_FAILED
  end.
Proof.
  intros Hu Hp Hs Hset Hok Hb H. apply (replay_open_disk _ _ _ _ c) in H; try done.
  destruct res; try (destruct_and!; done).
  destruct H as (recs & rest & st0 & (-> & [rs Hh] & Hver) & -> & Hr & Hn).
  unfold verdict in Hver. cbv zeta iota in Hver.
  exists recs, rest, st0, rs. pose proof (log_history_inv _ _ _ Hh) as HI.
  destruct (log_history_numbered _ _ _ Hh) as [_ <-].
  do 3 (split; [done|]). split; [apply HI|]. split; [apply HI|]. split; [apply Hr|]. split; [exact Hn|].
  split; [exact Hver|]. intros recs' rest' st' rs' Hc. eapply longest_history; [exact Hh| |exact Hc].
  destruct Hver as [Hver|Hver]; [by left|right; eexists; exact Hver].
Qed.

(** A log that is whole, or cut inside its last record, is recovered. *)
Lemma replay_open_intact writer path old world recs st0 rs rest res writer' st report world' :
  unopened writer -> path <> [] -> ends_in_slash path = false ->
  log_history recs st0 rs ->
  rest = [] \/ (exists r k, record_typed r /\ record_ok r /\
    r_sequence r = Z.of_nat (length recs) + 1 /\ (k < length (record_bytes r))%nat /\
    rest = take k (record_bytes r)) ->
  settled os world (log_bytes recs ++ rest) -> bytes_ok (log_bytes recs ++ rest) ->
  Z.of_nat (length (log_bytes recs ++ rest)) <= INT64_MAX ->
  faultline_wal_replay_open_with_io os writer path old world = (res, writer', st, report, world') ->
  (res = FAULTLINE_WAL_REPLAY_OK /\ st = Some st0 /\ ready os writer' world' (log_bytes recs) /\
   next_sequence writer' = next_after (rs_last_sequence st0)) \/
  ((res = FAULTLINE_WAL_REPLAY_IO_ERROR \/ res = FAULTLINE_WAL_REPLAY_NO_MEMORY) /\ st = None /\
   repaired world' (log_bytes recs ++ rest) (log_bytes recs)).
Proof.
  intros Hu Hp Hs Hh Hrest Hset Hok Hb H.
  destruct (log_history_numbered _ _ _ Hh) as [_ Hlast].
  assert (rest = [] \/ rs_last_sequence st0 <> UINT64_MAX /\
    faultline_wal_record_decode rest (rs_last_sequence st0 + 1) = inl FAULTLINE_WAL_INCOMPLETE) as Hdec.
  { destruct Hrest as [->|(r & k & Ht & Ho & Hseq & Hk & ->)]; [by left|right].
    rewrite Hlast. split; [destruct Ht as [? _]; ilia|]. rewrite <- Hseq. by apply record_decode_prefix. }
  assert (forall res recs' rest' st', log_reading res (log_bytes recs ++ rest) recs' rest' st' ->
    recs' = recs /\ st' = st0 /\ res = FAULTLINE_WAL_REPLAY_OK) as Hread.
  { intros res1 recs' rest' st' (Hc & [rs' Hh'] & Hver).
    assert (rest = [] \/ exists e, faultline_wal_record_decode rest (rs_last_sequence st0 + 1) = inl e)
      as Hd by (destruct Hdec as [|[_ ?]]; eauto).
    destruct (verdict_unique res1 _ _ _ _ _ _ _ _ Hh Hd Hc Hh' Hver) as (-> & -> & ->).
    split; [done|]. split; [done|]. by apply (torn_verdict res1 recs rest st0). }
  apply (replay_open_disk _ _ _ _ (log_bytes recs ++ rest)) in H; try done.
  assert (forall w, settled os w (log_bytes recs ++ rest) ->
    repaired w (log_bytes recs ++ rest) (log_bytes recs)) as Hsr.
  { intros w [Hc Hx]. split; [by left|]. intros x Hin. left. auto. }
  destruct res; try (destruct H as (_ & _ & _ & [[? Hne]|(recs' & rest' & st' & H)]);
    [|by apply Hread in H as (_ & _ & ?)]; try done).
  - destruct H as (recs' & rest' & st' & H & -> & Hr & ?). apply Hread in H as (-> & -> & _). auto.
  - destruct H as (_ & -> & [H|(recs' & rest' & st' & H & Hrep)]); [auto 10|].
    apply Hread in H as (-> & -> & _). auto 10.
  - destruct H as (_ & -> & H). auto 10.
Qed.

(** C12: A log that was written by a history and then perhaps cut inside the next record is
    recovered to exactly the state of that history, and the cut record is removed. Apart from
    memory or I/O failing, nothing else happens; then the log still holds that history. *)
Theorem recovery_complete writer path old world recs st0 rs rest res writer' st report world' :
  unopened writer -> path <> [] -> ends_in_slash path = false ->
  log_history recs st0 rs ->
  rest = [] \/ (exists r k, record_typed r /\ record_ok r /\
    r_sequence r = Z.of_nat (length recs) + 1 /\ (k < length (record_bytes r))%nat /\
    rest = take k (record_bytes r)) ->
  settled os world (log_bytes recs ++ rest) -> bytes_ok (log_bytes recs ++ rest) ->
  Z.of_nat (length (log_bytes recs ++ rest)) <= INT64_MAX ->
  faultline_wal_replay_open_with_io os writer path old world = (res, writer', st, report, world') ->
  (res = FAULTLINE_WAL_REPLAY_OK /\ st = Some st0 /\ ready os writer' world' (log_bytes recs)) \/
  ((res = FAULTLINE_WAL_REPLAY_IO_ERROR \/ res = FAULTLINE_WAL_REPLAY_NO_MEMORY) /\ st = None /\
   repaired world' (log_bytes recs ++ rest) (log_bytes recs)).
Proof.
  intros Hu Hp Hs Hh Hrest Hset Hok Hb H.
  destruct (replay_open_intact _ _ _ _ _ _ _ _ _ _ _ _ _ Hu Hp Hs Hh Hrest Hset Hok Hb H)
    as [(? & ? & ? & _)|?]; [by left|by right].
Qed.

(** C16: If any single byte of a written log was changed to any other value, recovery refuses the
    log and leaves the file as it is; it never publishes a state from it. *)
Theorem recovery_detects_damage writer path old world recs st0 rs k y res writer' st report world' :
  unopened writer -> path <> [] -> ends_in_slash path = false ->
  log_history recs st0 rs -> (k < length (log_bytes recs))%nat -> in_u8 y ->
  log_bytes recs !! k <> Some y ->
  settled os world (<[k := y]> (log_bytes recs)) ->
  Z.of_nat (length (log_bytes recs)) <= INT64_MAX ->
  faultline_wal_replay_open_with_io os writer path old world = (res, writer', st, report, world') ->
  (res = FAULTLINE_WAL_REPLAY_BAD_FORMAT \/ res = FAULTLINE_WAL_REPLAY_IO_ERROR \/
   res = FAULTLINE_WAL_REPLAY_NO_MEMORY) /\
  st = None /\ settled os world' (<[k := y]> (log_bytes recs)).
Proof.
  intros Hu Hp Hs Hh Hk Hy Hne Hset Hb H.
  pose proof (fun res recs' rest' st' => damaged_reading recs st0 rs k y res recs' rest' st' Hh Hk Hy Hne) as Hread.
  apply (replay_open_disk _ _ _ _ (<[k := y]> (log_bytes recs))) in H; try done.
  - destruct res; try (destruct H as (_ & -> & Hw & [[? _]|(recs' & rest' & st' & H)]); [done|];
      by apply Hread in H as [? _]).
    + destruct H as (recs' & rest' & st' & H & _). by apply Hread in H as [? _].
    + destruct H as (_ & -> & [H|(recs' & rest' & st' & H & _)]); [auto|]. by apply Hread in H as [? _].
    + destruct H as (_ & -> & Hw & _). auto.
    + destruct H as (_ & -> & H). auto.
  - apply Forall_insert; [|done]. by eapply log_bytes_ok.
  - by rewrite length_insert.
Qed.
End Reading.

(** ** Witnesses, on the simulated disk *)

Definition second_record : faultline_wal_record :=
  mk_wal_record FAULTLINE_WAL_WORKER_ID_ALLOCATED 2 1 zero_job.

Lemma second_record_ok : record_typed second_record /\ record_ok second_record.
Proof. by vm_compute. Qed.

Definition sample_replayed : faultline_wal_replay_state :=
  match apply_job_record initial_replay_state (mk_index [] 0) first_record (record_bytes first_record) with
  | inr st => st <| rs_last_sequence := 1 |>
  | inl _ => initial_replay_state
  end.

Lemma sample_replayed_eq :
  (replayed_state initial_replay_state first_record (pending (rs_scheduler sample_replayed)))
    <| rs_last_sequence := r_sequence first_record |> = sample_replayed.
Proof. vm_compute. reflexivity. Qed.

Lemma sample_history : log_history [first_record] sample_replayed [].
Proof.
  rewrite <- sample_replayed_eq.
  apply (history_job [] initial_replay_state [] first_record
    (replayed_state initial_replay_state first_record (pending (rs_scheduler sample_replayed)))).
  - constructor.
  - apply first_record_typed.
  - split; [done|]. vm_compute. reflexivity.
  - reflexivity.
  - done.
  - vm_compute. reflexivity.
Qed.

Lemma restarted_settled c script : settled sim_os (restarted_disk c script) c.
Proof. split; [done|]. intros x Hx. by apply list_elem_of_singleton in Hx. Qed.

(** The second record was cut; reading is interrupted and delivers short counts. *)
Definition cut_log : list Z := log_bytes [first_record] ++ take 35 (record_bytes second_record).

Definition sample_restart : sim :=
  restarted_disk cut_log
    [Proceed; Proceed; Proceed; Proceed; Proceed; Proceed; Limit 5; Fault EINTR; Limit 2].

Lemma sample_restart_settled : settled sim_os sample_restart cut_log.
Proof. unfold sample_restart. apply restarted_settled. Qed.

Lemma fresh_writer : unopened FAULTLINE_WAL_WRITER_INIT.
Proof. by split_and!. Qed.

Lemma sample_path_ok : sample_path <> [] /\ ends_in_slash sample_path = false.
Proof. by split. Qed.

Lemma cut_log_ok : bytes_ok cut_log.
Proof.
  apply bytes_ok_app. split; [apply (log_bytes_ok _ _ _ sample_history)|].
  apply bytes_ok_take, record_bytes_ok, second_record_ok.
Qed.

Lemma cut_log_torn :
  take 35 (record_bytes second_record) = [] \/ exists r k, record_typed r /\ record_ok r /\
    r_sequence r = Z.of_nat (length [first_record]) + 1 /\ (k < length (record_bytes r))%nat /\
    take 35 (record_bytes second_record) = take k (record_bytes r).
Proof.
  right. exists second_record, 35%nat. destruct second_record_ok as [Ht Ho].
  split; [exact Ht|]. split; [exact Ho|]. split; [reflexivity|]. split; [|reflexivity].
  vm_compute. repeat constructor.
Qed.

Lemma cut_log_size : Z.of_nat (length cut_log) <= INT64_MAX.
Proof. vm_compute. discriminate. Qed.

Lemma recovery_sound_witness :
  let '(res, writer', st, report, world') :=
    faultline_wal_replay_open_with_io sim_os FAULTLINE_WAL_WRITER_INIT sample_path zero_report
      sample_restart in
  match res with
  | FAULTLINE_WAL_REPLAY_OK =>
      exists recs rest st0 rs, st = Some st0 /\ cut_log = log_bytes recs ++ rest /\
        log_history recs st0 rs /\ sched_wf (rs_scheduler st0) /\
        workers (rs_workers st0) = workers faultline_worker_registry_init /\
        ready sim_os writer' world' (log_bytes recs) /\
        next_sequence writer' = next_after (Z.of_nat (length recs)) /\
        (rest = [] \/ faultline_wal_record_decode rest (Z.of_nat (length recs) + 1) =
           inl FAULTLINE_WAL_INCOMPLETE) /\
        (forall recs' rest' st' rs', cut_log = log_bytes recs' ++ rest' -> log_history recs' st' rs' ->
           recs' `prefix_of` recs)
  | _ => st = None /\ writer_state writer' = FAULTLINE_WAL_WRITER_FAILED
  end.
Proof.
  destruct (faultline_wal_replay_open_with_io _ _ _ _ _) as [[[[res writer'] st] report] world'] eqn:E.
  exact (recovery_sound sim_os FAULTLINE_WAL_WRITER_INIT sample_path zero_report sample_restart cut_log
    res writer' st report world' fresh_writer (proj1 sample_path_ok) (proj2 sample_path_ok)
    sample_restart_settled cut_log_ok cut_log_size E).
Defined.

(** The cut log is recovered indeed. *)
Lemma sample_restart_ok :
  fst (fst (fst (fst (faultline_wal_replay_open_with_io sim_os FAULTLINE_WAL_WRITER_INIT sample_path
    zero_report sample_restart)))) = FAULTLINE_WAL_REPLAY_OK.
Proof. vm_compute. reflexivity. Qed.

Lemma recovery_complete_witness :
  let '(res, writer', st, report, world') :=
    faultline_wal_replay_open_with_io sim_os FAULTLINE_WAL_WRITER_INIT sample_path zero_report
      sample_restart in
  res = FAULTLINE_WAL_REPLAY_OK /\ st = Some sample_replayed /\
  ready sim_os writer' world' (log_bytes [first_record]).
Proof.
  pose proof sample_restart_ok as Hres. revert Hres.
  destruct (faultline_wal_replay_open_with_io _ _ _ _ _) as [[[[res writer'] st] report] world'] eqn:E.
  cbn [fst]. intros ->.
  pose proof (recovery_complete sim_os FAULTLINE_WAL_WRITER_INIT sample_path zero_report sample_restart
    [first_record] sample_replayed [] (take 35 (record_bytes second_record))
    FAULTLINE_WAL_REPLAY_OK writer' st report world' fresh_writer (proj1 sample_path_ok)
    (proj2 sample_path_ok) sample_history
    cut_log_torn
    sample_restart_settled cut_log_ok cut_log_size E) as [H|[[H|H] _]]; [exact H|discriminate H..].
Defined.

(** One byte of the header of the record was changed. *)
Definition damaged_disk : sim := restarted_disk (<[30%nat := 9]> (log_bytes [first_record])) [].

Lemma damaged_disk_settled : settled sim_os damaged_disk (<[30%nat := 9]> (log_bytes [first_record])).
Proof. unfold damaged_disk. apply restarted_settled. Qed.

Lemma recovery_detects_damage_witness :
  let '(res, writer', st, report, world') :=
    faultline_wal_replay_open_with_io sim_os FAULTLINE_WAL_WRITER_INIT sample_path zero_report
      damaged_disk in
  (res = FAULTLINE_WAL_REPLAY_BAD_FORMAT \/ res = FAULTLINE_WAL_REPLAY_IO_ERROR \/
   res = FAULTLINE_WAL_REPLAY_NO_MEMORY) /\
  st = None /\ settled sim_os world' (<[30%nat := 9]> (log_bytes [first_record])).
Proof.
  assert (30 < length (log_bytes [first_record]))%nat as Hk by (vm_compute; repeat constructor).
  assert (in_u8 9) as Hy by done.
  assert (log_bytes [first_record] !! 30%nat <> Some 9) as Hne by (vm_compute; discriminate).
  assert (Z.of_nat (length (log_bytes [first_record])) <= INT64_MAX) as Hb by (vm_compute; discriminate).
  destruct (faultline_wal_replay_open_with_io _ _ _ _ _) as [[[[res writer'] st] report] world'] eqn:E.
  exact (recovery_detects_damage sim_os FAULTLINE_WAL_WRITER_INIT sample_path zero_report
    damaged_disk [first_record] sample_replayed [] 30 9 res writer' st report world'
    fresh_writer (proj1 sample_path_ok) (proj2 sample_path_ok) sample_history Hk Hy Hne
    damaged_disk_settled Hb E).
Defined.
