(* ===== verification/CoordinatorStore.v ===== *)
(** The durable store of the coordinator: [include/coordinator_store.h],
    [src/coordinator/coordinator_store.c].

    Every change is prepared on a copy ([scratch]), appended to the log and synced, and
    only then published in [jobs] or [store_workers]. A function returns its result code,
    its out-parameter (written on success only), the store and the world. *)

From S2P Require Import Prelude Job JobQueue WorkerRegistry Protocol Scheduler Wal WalWriter.
From S2P Require Import WalReplay.

(** ** Types *)

Inductive faultline_store_result :=
| FAULTLINE_STORE_OK
| FAULTLINE_STORE_REJECTED
| FAULTLINE_STORE_EMPTY
| FAULTLINE_STORE_FATAL.

Inductive faultline_store_failure :=
| FAULTLINE_STORE_FAILURE_NONE
| FAULTLINE_STORE_FAILURE_OPEN
| FAULTLINE_STORE_FAILURE_WAL
| FAULTLINE_STORE_FAILURE_CLOCK
| FAULTLINE_STORE_FAILURE_INTERNAL.

#[export] Instance faultline_store_result_eq_dec : EqDecision faultline_store_result.
Proof. solve_decision. Defined.
#[export] Instance faultline_store_failure_eq_dec : EqDecision faultline_store_failure.
Proof. solve_decision. Defined.

Record faultline_coordinator_store := mk_store {
  jobs : faultline_scheduler;
  store_workers : faultline_worker_registry;
  scratch : faultline_scheduler;
  wal : faultline_wal_writer;
  replay_report : faultline_wal_replay_report;
  replay_result : faultline_wal_replay_result;
  write_result : faultline_wal_writer_result;
  store_failure : faultline_store_failure;
  opened : bool;
  time_base_ms : Z;
  session_start_ms : Z;
  last_job_time_ms : Z;
  interrupted_jobs : nat;
}.

#[export] Instance set_jobs : Setter jobs := fun v s =>
  mk_store v (store_workers s) (scratch s) (wal s) (replay_report s) (replay_result s)
    (write_result s) (store_failure s) (opened s) (time_base_ms s) (session_start_ms s)
    (last_job_time_ms s) (interrupted_jobs s).
#[export] Instance set_store_workers : Setter store_workers := fun v s =>
  mk_store (jobs s) v (scratch s) (wal s) (replay_report s) (replay_result s) (write_result s)
    (store_failure s) (opened s) (time_base_ms s) (session_start_ms s) (last_job_time_ms s)
    (interrupted_jobs s).
#[export] Instance set_scratch : Setter scratch := fun v s =>
  mk_store (jobs s) (store_workers s) v (wal s) (replay_report s) (replay_result s)
    (write_result s) (store_failure s) (opened s) (time_base_ms s) (session_start_ms s)
    (last_job_time_ms s) (interrupted_jobs s).
#[export] Instance set_wal : Setter wal := fun v s =>
  mk_store (jobs s) (store_workers s) (scratch s) v (replay_report s) (replay_result s)
    (write_result s) (store_failure s) (opened s) (time_base_ms s) (session_start_ms s)
    (last_job_time_ms s) (interrupted_jobs s).
#[export] Instance set_replay_report : Setter replay_report := fun v s =>
  mk_store (jobs s) (store_workers s) (scratch s) (wal s) v (replay_result s) (write_result s)
    (store_failure s) (opened s) (time_base_ms s) (session_start_ms s) (last_job_time_ms s)
    (interrupted_jobs s).
#[export] Instance set_replay_result : Setter replay_result := fun v s =>
  mk_store (jobs s) (store_workers s) (scratch s) (wal s) (replay_report s) v (write_result s)
    (store_failure s) (opened s) (time_base_ms s) (session_start_ms s) (last_job_time_ms s)
    (interrupted_jobs s).
#[export] Instance set_write_result : Setter write_result := fun v s =>
  mk_store (jobs s) (store_workers s) (scratch s) (wal s) (replay_report s) (replay_result s) v
    (store_failure s) (opened s) (time_base_ms s) (session_start_ms s) (last_job_time_ms s)
    (interrupted_jobs s).
#[export] Instance set_store_failure : Setter store_failure := fun v s =>
  mk_store (jobs s) (store_workers s) (scratch s) (wal s) (replay_report s) (replay_result s)
    (write_result s) v (opened s) (time_base_ms s) (session_start_ms s) (last_job_time_ms s)
    (interrupted_jobs s).
#[export] Instance set_opened : Setter opened := fun v s =>
  mk_store (jobs s) (store_workers s) (scratch s) (wal s) (replay_report s) (replay_result s)
    (write_result s) (store_failure s) v (time_base_ms s) (session_start_ms s)
    (last_job_time_ms s) (interrupted_jobs s).
#[export] Instance set_time_base_ms : Setter time_base_ms := fun v s =>
  mk_store (jobs s) (store_workers s) (scratch s) (wal s) (replay_report s) (replay_result s)
    (write_result s) (store_failure s) (opened s) v (session_start_ms s) (last_job_time_ms s)
    (interrupted_jobs s).
#[export] Instance set_session_start_ms : Setter session_start_ms := fun v s =>
  mk_store (jobs s) (store_workers s) (scratch s) (wal s) (replay_report s) (replay_result s)
    (write_result s) (store_failure s) (opened s) (time_base_ms s) v (last_job_time_ms s)
    (interrupted_jobs s).
#[export] Instance set_last_job_time_ms : Setter last_job_time_ms := fun v s =>
  mk_store (jobs s) (store_workers s) (scratch s) (wal s) (replay_report s) (replay_result s)
    (write_result s) (store_failure s) (opened s) (time_base_ms s) (session_start_ms s) v
    (interrupted_jobs s).
#[export] Instance set_interrupted_jobs : Setter interrupted_jobs := fun v s =>
  mk_store (jobs s) (store_workers s) (scratch s) (wal s) (replay_report s) (replay_result s)
    (write_result s) (store_failure s) (opened s) (time_base_ms s) (session_start_ms s)
    (last_job_time_ms s) v.

(** ** Operations *)

(** The first failure is kept; the caller always gets [FATAL]. *)
Definition fail (store : faultline_coordinator_store) (failure : faultline_store_failure) :
    faultline_coordinator_store :=
  if bool_decide (store_failure store = FAULTLINE_STORE_FAILURE_NONE) then
    store <| store_failure := failure |>
  else store.

Definition usable (store : faultline_coordinator_store) : bool :=
  opened store && bool_decide (store_failure store = FAULTLINE_STORE_FAILURE_NONE).

Definition faultline_store_init : faultline_coordinator_store :=
  mk_store faultline_scheduler_init faultline_worker_registry_init
    (mk_scheduler (replicate FAULTLINE_JOB_STORE_CAPACITY zero_job) 0 0 faultline_job_queue_init)
    FAULTLINE_WAL_WRITER_INIT zero_report FAULTLINE_WAL_REPLAY_OK FAULTLINE_WAL_WRITE_OK
    FAULTLINE_STORE_FAILURE_NONE false 0 0 0 0.

(** The logical time of a clock reading; [None] is the return of -1. *)
Definition job_time (store : faultline_coordinator_store) (raw : Z) :
    option Z * faultline_coordinator_store :=
  if (raw <? session_start_ms store) || (raw <? 0) ||
     (INT64_MAX - time_base_ms store <? raw - session_start_ms store) then
    (None, fail store FAULTLINE_STORE_FAILURE_CLOCK)
  else
    let time := time_base_ms store + (raw - session_start_ms store) in
    if time <? last_job_time_ms store then (None, fail store FAULTLINE_STORE_FAILURE_CLOCK)
    else (Some time, store).

Section Store.
Context {W : Type} (os : wal_os W).

Definition append (store : faultline_coordinator_store) (record : faultline_wal_record)
    (world : W) : faultline_store_result * faultline_coordinator_store * W :=
  let record := mk_wal_record (r_type record) (next_sequence (wal store)) (r_worker_id record)
                  (r_job record) in
  let '(result, writer, world) := faultline_wal_writer_append os (wal store) record world in
  let store := store <| wal := writer |> <| write_result := result |> in
  match result with
  | FAULTLINE_WAL_WRITE_OK => (FAULTLINE_STORE_OK, store, world)
  | _ => (FAULTLINE_STORE_FATAL, fail store FAULTLINE_STORE_FAILURE_WAL, world)
  end.

Definition commit_job (store : faultline_coordinator_store) (id : Z)
    (type : faultline_wal_record_type) (world : W) :
    faultline_store_result * faultline_coordinator_store * W :=
  match faultline_scheduler_find (scratch store) id with
  | None => (FAULTLINE_STORE_FATAL, fail store FAULTLINE_STORE_FAILURE_INTERNAL, world)
  | Some job =>
      match append store (mk_wal_record type 0 0 job) world with
      | (FAULTLINE_STORE_OK, store, world) =>
          (FAULTLINE_STORE_OK,
           store <| jobs := scratch store |> <| last_job_time_ms := updated_at_ms job |>, world)
      | (_, store, world) => (FAULTLINE_STORE_FATAL, store, world)
      end
  end.

Definition faultline_store_register (store : faultline_coordinator_store) (fd now_ms : Z)
    (world : W) : faultline_store_result * option Z * faultline_coordinator_store * W :=
  if negb (usable store) then (FAULTLINE_STORE_FATAL, None, store, world)
  else if now_ms <? 0 then
    (FAULTLINE_STORE_FATAL, None, fail store FAULTLINE_STORE_FAILURE_CLOCK, world)
  else
    match faultline_worker_register (store_workers store) fd now_ms with
    | (FAULTLINE_REGISTRY_OK, Some id, candidate) =>
        match append store (mk_wal_record FAULTLINE_WAL_WORKER_ID_ALLOCATED 0 id zero_job) world with
        | (FAULTLINE_STORE_OK, store, world) =>
            (FAULTLINE_STORE_OK, Some id, store <| store_workers := candidate |>, world)
        | (_, store, world) => (FAULTLINE_STORE_FATAL, None, store, world)
        end
    | _ => (FAULTLINE_STORE_REJECTED, None, store, world)
    end.

Definition faultline_store_submit (store : faultline_coordinator_store)
    (submit : faultline_job_submit_payload) (now_ms : Z) (world : W) :
    faultline_store_result * option Z * faultline_coordinator_store * W :=
  if negb (usable store) then (FAULTLINE_STORE_FATAL, None, store, world)
  else
    match job_time store now_ms with
    | (None, store) => (FAULTLINE_STORE_FATAL, None, store, world)
    | (Some time, store) =>
        let '(result, id, scheduler) := faultline_scheduler_submit (jobs store) submit time in
        let store := store <| scratch := scheduler |> in
        match result, id with
        | FAULTLINE_SCHEDULER_OK, Some id =>
            match commit_job store id FAULTLINE_WAL_JOB_CREATED world with
            | (FAULTLINE_STORE_OK, store, world) => (FAULTLINE_STORE_OK, Some id, store, world)
            | (_, store, world) => (FAULTLINE_STORE_FATAL, None, store, world)
            end
        | FAULTLINE_SCHEDULER_QUEUE_ERROR, _ =>
            (FAULTLINE_STORE_FATAL, None, fail store FAULTLINE_STORE_FAILURE_INTERNAL, world)
        | _, _ => (FAULTLINE_STORE_REJECTED, None, store, world)
        end
    end.

(** The registry has the worker, alive. *)
Definition alive_worker (store : faultline_coordinator_store) (worker_id : Z) : bool :=
  match faultline_worker_find (store_workers store) worker_id with
  | Some worker => bool_decide (w_state worker = FAULTLINE_WORKER_ALIVE)
  | None => false
  end.

(** [candidate.payload.job_assign.identity.job_id] *)
Definition assigned_job_id (assignment : faultline_message) : Z :=
  match assignment with MsgJobAssign a => i_job_id (a_identity a) | _ => 0 end.

Definition faultline_store_assign (store : faultline_coordinator_store) (worker_id now_ms : Z)
    (world : W) : faultline_store_result * option faultline_message *
    faultline_coordinator_store * W :=
  if negb (usable store) then (FAULTLINE_STORE_FATAL, None, store, world)
  else if negb (alive_worker store worker_id) then (FAULTLINE_STORE_REJECTED, None, store, world)
  else
    match job_time store now_ms with
    | (None, store) => (FAULTLINE_STORE_FATAL, None, store, world)
    | (Some time, store) =>
        let '(result, candidate, scheduler) :=
          faultline_scheduler_assign (jobs store) worker_id time in
        let store := store <| scratch := scheduler |> in
        match result, candidate with
        | FAULTLINE_SCHEDULER_EMPTY, _ => (FAULTLINE_STORE_EMPTY, None, store, world)
        | FAULTLINE_SCHEDULER_WORKER_BUSY, _ => (FAULTLINE_STORE_REJECTED, None, store, world)
        | FAULTLINE_SCHEDULER_OK, Some candidate =>
            match commit_job store (assigned_job_id candidate) FAULTLINE_WAL_JOB_ASSIGNED world with
            | (FAULTLINE_STORE_OK, store, world) =>
                (FAULTLINE_STORE_OK, Some candidate, store, world)
            | (_, store, world) => (FAULTLINE_STORE_FATAL, None, store, world)
            end
        | _, _ => (FAULTLINE_STORE_FATAL, None, fail store FAULTLINE_STORE_FAILURE_INTERNAL, world)
        end
    end.

(** The record type for the state a report leads to. *)
Definition report_record_type (state : faultline_job_state) : faultline_wal_record_type :=
  match state with
  | FAULTLINE_JOB_RUNNING => FAULTLINE_WAL_JOB_STARTED
  | FAULTLINE_JOB_DONE => FAULTLINE_WAL_JOB_COMPLETED
  | FAULTLINE_JOB_QUEUED => FAULTLINE_WAL_JOB_REQUEUED
  | _ => FAULTLINE_WAL_JOB_FAILED
  end.

(** The job of the worker is in the copy as well: the pointers read here are never NULL. *)
Definition faultline_store_report (store : faultline_coordinator_store) (worker_id : Z)
    (report : faultline_message) (now_ms : Z) (world : W) :
    faultline_store_result * faultline_coordinator_store * W :=
  if negb (usable store) then (FAULTLINE_STORE_FATAL, store, world)
  else
    match alive_worker store worker_id, faultline_scheduler_active (jobs store) worker_id with
    | true, Some active =>
        match job_time store now_ms with
        | (None, store) => (FAULTLINE_STORE_FATAL, store, world)
        | (Some time, store) =>
            let '(result, scheduler) :=
              faultline_scheduler_report (jobs store) worker_id report time in
            let store := store <| scratch := scheduler |> in
            match result with
            | FAULTLINE_SCHEDULER_OK =>
                let candidate :=
                  default zero_job (faultline_scheduler_find (scratch store) (job_id active)) in
                commit_job store (job_id active) (report_record_type (job_state candidate)) world
            | FAULTLINE_SCHEDULER_QUEUE_ERROR =>
                (FAULTLINE_STORE_FATAL, fail store FAULTLINE_STORE_FAILURE_INTERNAL, world)
            | _ => (FAULTLINE_STORE_REJECTED, store, world)
            end
        end
    | _, _ => (FAULTLINE_STORE_REJECTED, store, world)
    end.

Definition commit_worker_loss (store : faultline_coordinator_store) (worker_id now_ms : Z)
    (world : W) : faultline_store_result * faultline_coordinator_store * W :=
  match faultline_scheduler_active (jobs store) worker_id with
  | None => (FAULTLINE_STORE_EMPTY, store, world)
  | Some active =>
      match job_time store now_ms with
      | (None, store) => (FAULTLINE_STORE_FATAL, store, world)
      | (Some time, store) =>
          let '(result, scheduler) :=
            faultline_scheduler_worker_lost (jobs store) worker_id time in
          let store := store <| scratch := scheduler |> in
          match result with
          | FAULTLINE_SCHEDULER_OK =>
              let candidate :=
                default zero_job (faultline_scheduler_find (scratch store) (job_id active)) in
              commit_job store (job_id active)
                (if bool_decide (job_state candidate = FAULTLINE_JOB_QUEUED)
                 then FAULTLINE_WAL_JOB_REQUEUED else FAULTLINE_WAL_JOB_FAILED) world
          | _ => (FAULTLINE_STORE_FATAL, fail store FAULTLINE_STORE_FAILURE_INTERNAL, world)
          end
      end
  end.

Definition faultline_store_worker_lost (store : faultline_coordinator_store)
    (worker_id now_ms : Z) (world : W) :
    faultline_store_result * faultline_coordinator_store * W :=
  if negb (usable store) then (FAULTLINE_STORE_FATAL, store, world)
  else commit_worker_loss store worker_id now_ms world.

(** The loop from index [i]; [fuel] is the number of slots left. *)
Fixpoint recover_loop (fuel : nat) (i : nat) (store : faultline_coordinator_store) (now_ms : Z)
    (world : W) : faultline_store_result * faultline_coordinator_store * W :=
  match fuel with
  | O => (FAULTLINE_STORE_OK, store, world)
  | S fuel =>
      if (i <? sched_count (jobs store))%nat then
        let job := sched_jobs (jobs store) !!! i in
        if bool_decide (job_state job = FAULTLINE_JOB_ASSIGNED) ||
           bool_decide (job_state job = FAULTLINE_JOB_RUNNING) then
          match commit_worker_loss store (worker_id job) now_ms world with
          | (FAULTLINE_STORE_OK, store, world) =>
              recover_loop fuel (S i)
                (store <| interrupted_jobs := S (interrupted_jobs store) |>) now_ms world
          | (_, store, world) => (FAULTLINE_STORE_FATAL, store, world)
          end
        else recover_loop fuel (S i) store now_ms world
      else (FAULTLINE_STORE_OK, store, world)
  end.

Definition recover_interrupted_jobs (store : faultline_coordinator_store) (now_ms : Z)
    (world : W) : faultline_store_result * faultline_coordinator_store * W :=
  recover_loop (sched_count (jobs store)) 0 store now_ms world.

(** The part common to a new and a recovered log. *)
Definition start_session (store : faultline_coordinator_store) (now_ms : Z) (world : W) :
    faultline_store_result * faultline_coordinator_store * W :=
  let store := store <| session_start_ms := now_ms |> <| last_job_time_ms := time_base_ms store |> in
  match recover_interrupted_jobs store now_ms world with
  | (FAULTLINE_STORE_OK, store, world) =>
      (FAULTLINE_STORE_OK, store <| opened := true |>, world)
  | (_, store, world) => (FAULTLINE_STORE_FATAL, store, world)
  end.

Definition faultline_store_open_with_io (store : faultline_coordinator_store) (path : list Z)
    (initialize now_ms : Z) (world : W) :
    faultline_store_result * faultline_coordinator_store * W :=
  if (initialize !=? 0) && (initialize !=? 1) then (FAULTLINE_STORE_REJECTED, store, world)
  else if opened store || io_set (wal store) ||
          negb (bool_decide (store_failure store = FAULTLINE_STORE_FAILURE_NONE)) then
    (FAULTLINE_STORE_FATAL, store, world)
  else if now_ms <? 0 then
    (FAULTLINE_STORE_FATAL, fail store FAULTLINE_STORE_FAILURE_CLOCK, world)
  else if initialize =? 1 then
    let '(result, writer, world) :=
      faultline_wal_writer_create_with_io os (wal store) path world in
    let store := store <| wal := writer |> <| write_result := result |> in
    match result with
    | FAULTLINE_WAL_WRITE_OK => start_session store now_ms world
    | _ => (FAULTLINE_STORE_FATAL, fail store FAULTLINE_STORE_FAILURE_OPEN, world)
    end
  else
    match os_alloc os world with
    | (false, world) =>
        (FAULTLINE_STORE_FATAL,
         fail (store <| replay_result := FAULTLINE_WAL_REPLAY_NO_MEMORY |>)
           FAULTLINE_STORE_FAILURE_OPEN, world)
    | (true, world) =>
        let '(result, writer, recovered, report, world) :=
          faultline_wal_replay_open_with_io os (wal store) path (replay_report store) world in
        let store := store <| wal := writer |> <| replay_report := report |>
                           <| replay_result := result |> in
        match result, recovered with
        | FAULTLINE_WAL_REPLAY_OK, Some state =>
            start_session
              (store <| jobs := rs_scheduler state |> <| store_workers := rs_workers state |>
                     <| time_base_ms := rs_job_time_base_ms state |>) now_ms world
        | _, _ => (FAULTLINE_STORE_FATAL, fail store FAULTLINE_STORE_FAILURE_OPEN, world)
        end
    end.

Definition faultline_store_close (store : faultline_coordinator_store) (world : W) :
    faultline_store_result * faultline_coordinator_store * W :=
  let store := store <| opened := false |> in
  let '(result, writer, world) := faultline_wal_writer_close os (wal store) world in
  let store := store <| wal := writer |> in
  match result with
  | FAULTLINE_WAL_WRITE_OK =>
      (if bool_decide (store_failure store = FAULTLINE_STORE_FAILURE_NONE)
       then FAULTLINE_STORE_OK else FAULTLINE_STORE_FATAL, store, world)
  | _ => (FAULTLINE_STORE_FATAL, fail store FAULTLINE_STORE_FAILURE_WAL, world)
  end.

End Store.
