(* ===== verification/StoreProofs.v ===== *)
(** What the store commits is what recovery replays.

    Every accepted operation of the scheduler gives a record that replays to the very state the
    store publishes ([replays]). Along any run of store operations the published state is the
    one of the log, whatever the disk does ([durable]). *)

From S2P Require Import Prelude Job JobQueue WorkerRegistry Protocol Scheduler SchedulerProofs.
From S2P Require Import Wal WalProofs WalWriter Disk SimDisk WriterProofs WalReplay.
From S2P Require Import ReplayProofs ReplayDisk CoordinatorStore.

(** ** Scheduler operations as log records *)

(** The record of type [type] with the snapshot [j] leads from [st] to the scheduler [s']. *)
Definition replays (st : faultline_wal_replay_state) (rs : list worker_range)
    (type : faultline_wal_record_type) (j : faultline_job) (s' : faultline_scheduler) : Prop :=
  job_wf j /\ type = snapshot_type j /\ rs_job_time_base_ms st <= updated_at_ms j /\
  forall sequence, let r := job_record type sequence j in
    derive_candidate st (mk_index rs 0) r = inr (FAULTLINE_JOB_OK, j) /\
    exists q, replay_queue (pending (rs_scheduler st)) r j = Some q /\
      rs_scheduler (replayed_state st r q) = s'.

Lemma copy_whole l size :
  size = Z.of_nat (length l) -> (if size !=? 0 then copy_bytes (Some l) size else []) = l.
Proof.
  intros ->. destruct (Z.eqb_spec (Z.of_nat (length l)) 0); cbn [negb].
  - destruct l; [done|]. simpl in *. lia.
  - unfold copy_bytes. rewrite Nat2Z.id. by apply take_ge.
Qed.

Lemma next_after_0 z : 0 <= z <= UINT64_MAX -> next_after z <> 0 -> next_after z = z + 1.
Proof.
  unfold next_after. intros Hz. destruct (Z.eqb_spec z UINT64_MAX); [done|]. intros _.
  apply u64_id. ilia.
Qed.

(** Initialising again from the fields of a new record gives the record. *)
Lemma job_init_again storage id task data size retries now job :
  faultline_job_init storage id task data size retries now = (FAULTLINE_JOB_OK, job) ->
  job_wf job ->
  faultline_job_init storage (job_id job) (task_type job) (Some (arguments job))
    (argument_size job) (max_retries job) (created_at_ms job) = (FAULTLINE_JOB_OK, job).
Proof.
  intros (Hid & Hnow & Htask & Hmax & _ & Hjob)%job_init_ok Hwf.
  pose proof (wf_argument_size _ Hwf). apply job_init_ok. rewrite copy_whole by done.
  subst job. cbn in *. split_and!; done || lia.
Qed.

Lemma submit_replays st rs p time id s' :
  history_inv st rs -> submit_typed p -> rs_job_time_base_ms st <= time <= INT64_MAX ->
  faultline_scheduler_submit (rs_scheduler st) p time = (FAULTLINE_SCHEDULER_OK, Some id, s') ->
  exists j, faultline_scheduler_find s' id = Some j /\ updated_at_ms j = time /\
    replays st rs FAULTLINE_WAL_JOB_CREATED j s'.
Proof.
  intros HI Hp Htime Hsub. pose proof (hi_sched _ _ HI) as Hs.
  pose proof (submit_ok (rs_scheduler st) p time Hs Hp ltac:(lia)) as Hok. rewrite Hsub in Hok.
  destruct Hok as [(_ & [= ->] & Hnext & Hlive & _ & Hinit & Hs')|(? & _)]; [|done].
  unfold submitted_job in Hlive. unfold faultline_scheduler_submit in Hsub.
  destruct (time <? 0); [done|].
  destruct (Nat.eqb_spec (sched_count (rs_scheduler st)) FAULTLINE_JOB_STORE_CAPACITY) as [|Hcap]; [done|].
  destruct (next_job_id (rs_scheduler st) =? 0); [done|].
  destruct (faultline_job_init _ _ _ _ _ _ _) as [r job] eqn:Hi. cbn [fst snd] in *. subst r.
  destruct (faultline_job_queue_push (pending (rs_scheduler st)) job) as [[] q] eqn:Hpush; try done.
  injection Hsub as Hid Hsub.
  assert (job ∈ live s') as Hin by (rewrite Hlive; set_solver).
  assert (Hwf : job_wf job).
  { apply list_elem_of_lookup in Hin as [slot Hslot]. by apply (live_jobs s' slot job). }
  pose proof (hi_highest_job _ _ HI). pose proof (hi_next_job _ _ HI) as Hnj.
  rewrite Hnj in Hnext. rewrite next_after_0 in Hnj by done.
  assert (Hslot : Scheduler.find_slot (rs_scheduler st) (job_id job) = sched_count (rs_scheduler st)).
  { destruct (find_slot_cases (rs_scheduler st) (job_id job) Hs) as [[? _]|(j & Hj & Hjid & _)]; [done|].
    pose proof (proj1 (Forall_lookup _ _) (hi_job_ids _ _ HI) _ _ Hj). simpl in *. lia. }
  exists job. split; [apply find_some; [done|]; rewrite Hid, Hnj; split_and!; [lia|done|done]|].
  pose proof (job_init_again _ _ _ _ _ _ _ _ Hi Hwf) as Hagain.
  apply job_init_ok in Hi as (_ & _ & _ & _ & _ & Hjob).
  assert (updated_at_ms job = time /\ snapshot_type job = FAULTLINE_WAL_JOB_CREATED /\
    job_state job = FAULTLINE_JOB_QUEUED) as (Hup & Hty & Hst) by (by rewrite Hjob).
  split; [done|]. split; [done|]. split; [done|]. split; [lia|].
  intros sequence. cbn zeta. split.
  - unfold derive_candidate, job_record. cbn [r_type r_job]. rewrite bool_decide_eq_true_2 by done.
    rewrite (proj2 (Z.leb_gt _ _)), (proj2 (Nat.eqb_neq _ _)) by (done || lia). by rewrite Hagain.
  - exists q. unfold replay_queue, job_record. cbn [r_type r_job].
    rewrite bool_decide_eq_false_2, bool_decide_eq_true_2, Hpush by done. split; [done|].
    unfold replayed_state. cbn [r_type r_job rs_scheduler]. by rewrite bool_decide_eq_true_2, Hslot by done.
Qed.

(** A transition of one live job. *)
Lemma replace_replays st rs type j c slot q :
  history_inv st rs -> live (rs_scheduler st) !! slot = Some j -> job_id c = job_id j ->
  job_wf c -> type = snapshot_type c -> type <> FAULTLINE_WAL_JOB_CREATED ->
  rs_job_time_base_ms st <= updated_at_ms c ->
  (forall sequence, derive_candidate st (mk_index rs 0) (job_record type sequence c) =
    inr (FAULTLINE_JOB_OK, c)) ->
  (forall sequence, replay_queue (pending (rs_scheduler st)) (job_record type sequence c) c = Some q) ->
  replays st rs type c (replace_job (rs_scheduler st) slot c q).
Proof.
  intros HI Hj Hid Hc Hty Hne Htime Hd Hq. split; [done|]. split; [done|]. split; [done|].
  intros sequence. split; [done|]. exists q. split; [done|].
  unfold replayed_state, job_record. cbn [r_type r_job rs_scheduler].
  rewrite bool_decide_eq_false_2 by done.
  by rewrite (find_slot_found _ _ slot j) by (done || apply HI).
Qed.

Lemma replaced_find s slot j c q :
  sched_wf (replace_job s slot c q) -> (slot < sched_count s)%nat ->
  live s !! slot = Some j -> job_wf c -> job_id c = job_id j ->
  faultline_scheduler_find (replace_job s slot c q) (job_id j) = Some c.
Proof.
  intros Hs Hlt Hj Hc Hid. apply find_some; [done|]. pose proof (wf_id _ Hc).
  split; [lia|]. split; [|done]. rewrite live_replace by done.
  apply list_elem_of_lookup. exists slot. apply list_lookup_insert_eq. by apply lookup_lt_Some in Hj.
Qed.

(** The queue of a published outcome is the one replay computes. *)
Lemma publish_replay_queue s slot c s' :
  publish_outcome s slot c = (FAULTLINE_SCHEDULER_OK, s') ->
  exists q, s' = replace_job s slot c q /\ forall type sequence,
    type <> FAULTLINE_WAL_JOB_ASSIGNED ->
    replay_queue (pending s) (job_record type sequence c) c = Some q.
Proof.
  unfold publish_outcome, replay_queue, job_record. cbn [r_type r_job]. intros Hp.
  destruct (bool_decide (job_state c = FAULTLINE_JOB_QUEUED)).
  - destruct (faultline_job_queue_push (pending s) c) as [[] q]; try done.
    injection Hp as <-. exists q. split; [done|]. intros ty seq Hne. by rewrite bool_decide_eq_false_2.
  - injection Hp as <-. exists (pending s). split; [done|]. intros ty seq Hne.
    by rewrite bool_decide_eq_false_2.
Qed.

Lemma assign_pending s worker now out s' :
  faultline_scheduler_assign s worker now = (FAULTLINE_SCHEDULER_OK, out, s') ->
  pending s' = snd (faultline_job_queue_pop (pending s)).
Proof. unfold faultline_scheduler_assign. intros H. repeat case_match; by simplify_eq. Qed.

Lemma derive_found st r j slot :
  sched_wf (rs_scheduler st) -> live (rs_scheduler st) !! slot = Some j ->
  job_id j = job_id (r_job r) ->
  Scheduler.find_slot (rs_scheduler st) (job_id (r_job r)) = slot /\
  (slot =? sched_count (rs_scheduler st))%nat = false /\
  sched_jobs (rs_scheduler st) !!! slot = j.
Proof.
  intros Hs Hj Hid. destruct (live_jobs _ _ _ Hs Hj) as (Hlt & Htot & _).
  split; [by apply find_slot_found with j|]. split; [|done]. apply Nat.eqb_neq. lia.
Qed.

Lemma assign_replays st rs worker time out s' :
  history_inv st rs -> in_u32 worker -> rs_job_time_base_ms st <= time <= INT64_MAX ->
  worker_was_allocated (mk_index rs 0) worker = true ->
  faultline_scheduler_assign (rs_scheduler st) worker time = (FAULTLINE_SCHEDULER_OK, out, s') ->
  exists a j, out = Some a /\ faultline_scheduler_find s' (assigned_job_id a) = Some j /\
    updated_at_ms j = time /\ replays st rs FAULTLINE_WAL_JOB_ASSIGNED j s'.
Proof.
  intros HI Hw Htime Halloc Hasg. pose proof (hi_sched _ _ HI) as Hs.
  pose proof (assign_ok (rs_scheduler st) worker time Hs Hw ltac:(lia)) as Hok. rewrite Hasg in Hok.
  destruct Hok as [(id & rest & slot & j & q & _ & Hw0 & _ & Hfree & Hcont & Hj & Hid & Hqd & Hfst &
    -> & -> & Hrest & Hs')|(_ & _ & Hbad)]; [|naive_solver].
  destruct (faultline_job_assign j worker time) as [res c] eqn:Ha. cbn [fst snd] in *. subst res.
  destruct (live_jobs _ _ _ Hs Hj) as (Hlt & Htot & Hwf).
  pose proof (job_assign_wf _ _ _ _ Ha Hwf Hw ltac:(lia)) as Hc.
  pose proof Ha as (_ & _ & _ & _ & Hcj)%job_assign_ok.
  assert (job_id c = job_id j /\ updated_at_ms c = time /\ worker_id c = worker /\
    snapshot_type c = FAULTLINE_WAL_JOB_ASSIGNED) as (Hcid & Hup & Hcw & Hty) by (by rewrite Hcj).
  exists (assignment_message c worker), c. split; [done|]. split; [|split; [done|]].
  { cbn. rewrite Hcid. by apply replaced_find. }
  apply assign_pending in Hasg. cbn in Hasg.
  destruct (queue_pop_cons _ _ _ (sched_queue_wf _ Hs) Hcont) as (q' & Hpop & _).
  rewrite Hpop in Hasg. cbn in Hasg. subst q'.
  apply replace_replays with (j := j); try done; [lia| |]; intros sequence.
  - unfold derive_candidate.
    destruct (derive_found st (job_record FAULTLINE_WAL_JOB_ASSIGNED sequence c) j slot Hs Hj)
      as (-> & -> & ->); [done|].
    unfold job_record. cbn [r_type r_job]. rewrite bool_decide_eq_false_2, Hcw, Halloc by done. cbn [negb].
    rewrite bool_decide_eq_false_2 by (rewrite Hfree; naive_solver).
    rewrite queue_peek_refines, Hcont by apply Hs.
    rewrite bool_decide_eq_true_2 by (by rewrite Hcid, Hid). cbn [negb]. by rewrite Hup, Ha.
  - unfold replay_queue, job_record. cbn [r_type r_job].
    rewrite bool_decide_eq_true_2, Hpop by done. by rewrite Hcid, Hid, Z.eqb_refl.
Qed.

(** The operation on a live job that a record of a given type logs. *)
Definition logged_step (j c : faultline_job) : Prop :=
  match snapshot_type c with
  | FAULTLINE_WAL_JOB_STARTED =>
      faultline_job_start j (worker_id c) (attempt c) (updated_at_ms c) = (FAULTLINE_JOB_OK, c)
  | FAULTLINE_WAL_JOB_COMPLETED =>
      faultline_job_complete j (worker_id c) (attempt c) (Some (result c)) (result_size c)
        (updated_at_ms c) = (FAULTLINE_JOB_OK, c)
  | FAULTLINE_WAL_JOB_REQUEUED | FAULTLINE_WAL_JOB_FAILED =>
      faultline_job_fail j (worker_id j) (attempt c) (failure c) (updated_at_ms c) =
        (FAULTLINE_JOB_OK, c)
  | _ => False
  end.

Lemma outcome_replays st rs slot j c s' :
  history_inv st rs -> live (rs_scheduler st) !! slot = Some j -> job_id c = job_id j ->
  job_wf c -> rs_job_time_base_ms st <= updated_at_ms c -> logged_step j c ->
  publish_outcome (rs_scheduler st) slot c = (FAULTLINE_SCHEDULER_OK, s') -> sched_wf s' ->
  faultline_scheduler_find s' (job_id j) = Some c /\ replays st rs (snapshot_type c) c s'.
Proof.
  intros HI Hj Hid Hc Htime Hstep Hpub Hs'. pose proof (hi_sched _ _ HI) as Hs.
  destruct (live_jobs _ _ _ Hs Hj) as (Hlt & Htot & Hwf).
  apply publish_replay_queue in Hpub as (q & -> & Hq).
  assert (snapshot_type c <> FAULTLINE_WAL_JOB_CREATED /\ snapshot_type c <> FAULTLINE_WAL_JOB_ASSIGNED)
    as [Hcr Has] by (unfold logged_step in Hstep; by destruct (snapshot_type c)).
  split; [by apply replaced_find|].
  apply replace_replays with (j := j); try done; [|by intros; apply Hq].
  intros sequence. unfold derive_candidate.
  destruct (derive_found st (job_record (snapshot_type c) sequence c) j slot Hs Hj)
    as (-> & -> & ->); [done|].
  unfold job_record. cbn [r_type r_job]. rewrite bool_decide_eq_false_2 by done.
  unfold logged_step in Hstep. destruct (snapshot_type c); try done; by rewrite Hstep.
Qed.

Lemma fail_logged j worker att reason now c :
  faultline_job_fail j worker att reason now = (FAULTLINE_JOB_OK, c) -> job_wf j ->
  logged_step j c /\ updated_at_ms c = now /\
  snapshot_type c = (if bool_decide (job_state c = FAULTLINE_JOB_QUEUED)
                     then FAULTLINE_WAL_JOB_REQUEUED else FAULTLINE_WAL_JOB_FAILED) /\
  report_record_type (job_state c) = snapshot_type c.
Proof.
  intros Hf Hwf. pose proof Hf as (_ & _ & _ & _ & _ & -> & -> & _ & Hc)%job_fail_ok.
  pose proof (wf_retries _ Hwf). pose proof (wf_max_retries _ Hwf).
  assert (attempt c = attempt j /\ failure c = reason /\ updated_at_ms c = now) as (Ha & Hr & Hu).
  { rewrite Hc. unfold failed_job. by destruct (_ <? _). }
  assert (snapshot_type c = (if bool_decide (job_state c = FAULTLINE_JOB_QUEUED)
    then FAULTLINE_WAL_JOB_REQUEUED else FAULTLINE_WAL_JOB_FAILED) /\
    report_record_type (job_state c) = snapshot_type c) as [Hty Hrt].
  { rewrite Hc. unfold failed_job, snapshot_type.
    destruct (Z.ltb_spec (retry_count j) (max_retries j)); [|done]. cbn.
    rewrite u32_id by ilia. by rewrite (proj2 (Z.eqb_neq _ _)) by lia. }
  split_and!; try done. unfold logged_step. rewrite Hty, Ha, Hr, Hu. by destruct (bool_decide _).
Qed.

Lemma apply_report_logged j worker report now c :
  apply_report j worker report now = Some (FAULTLINE_JOB_OK, c) -> job_wf j -> job_wf c ->
  logged_step j c /\ updated_at_ms c = now /\ report_record_type (job_state c) = snapshot_type c.
Proof.
  intros Hr Hwf Hcwf. unfold apply_report in Hr. destruct report; try done.
  - injection Hr as Hr. pose proof Hr as (_ & _ & _ & _ & _ & Hw & Ha & Hc)%job_start_ok.
    rewrite Hw, Ha in Hr. clear Hw Ha.
    assert (snapshot_type c = FAULTLINE_WAL_JOB_STARTED) as Hty by (by rewrite Hc).
    assert (worker_id c = worker_id j /\ attempt c = attempt j /\ updated_at_ms c = now)
      as (Hw & Ha & Hu) by (by rewrite Hc).
    split; [unfold logged_step; by rewrite Hty, Hw, Ha, Hu|]. split; [done|]. by rewrite Hty, Hc.
  - injection Hr as Hr.
    pose proof (wf_result_size _ Hcwf) as Hrs.
    pose proof Hr as (? & ? & ? & ? & Hne & ? & Ha & ? & _ & Hc)%job_complete_ok.
    rewrite Ha in Hne.
    assert (snapshot_type c = FAULTLINE_WAL_JOB_COMPLETED) as Hty by (by rewrite Hc).
    split; [|split; [by rewrite Hc|by rewrite Hty, Hc]].
    unfold logged_step. rewrite Hty. apply job_complete_ok. rewrite copy_whole by done.
    rewrite Hc in *. cbn in *. split_and!; done || congruence.
  - destruct (_ !=? _); [done|]. injection Hr as Hr.
    destruct (fail_logged _ _ _ _ _ _ Hr Hwf) as (? & ? & _ & ?). done.
Qed.

(** A report is about the one active job of the worker. *)
Lemma report_replays st rs worker report time s' active :
  history_inv st rs -> rs_job_time_base_ms st <= time <= INT64_MAX -> report_typed report ->
  faultline_scheduler_active (rs_scheduler st) worker = Some active ->
  faultline_scheduler_report (rs_scheduler st) worker report time = (FAULTLINE_SCHEDULER_OK, s') ->
  exists c, faultline_scheduler_find s' (job_id active) = Some c /\ updated_at_ms c = time /\
    replays st rs (report_record_type (job_state c)) c s'.
Proof.
  intros HI Htime Hr Hact Hrep. pose proof (hi_sched _ _ HI) as Hs.
  pose proof (report_ok (rs_scheduler st) worker report time Hs ltac:(lia) Hr) as Hok.
  rewrite Hrep in Hok.
  destruct Hok as [(i & slot & j & c & q & _ & Hw0 & Ht0 & Hi & Hiw & Hj & Hji & Happ & -> & _ & Hs')
    |(_ & Hbad & _)]; [|naive_solver].
  destruct (live_jobs _ _ _ Hs Hj) as (Hlt & Htot & Hwf).
  destruct (apply_report_ok _ _ _ _ _ Happ) as (_ & Haj & Hcid & _ & Hiw').
  rewrite Hi in Hiw'. destruct Hiw' as [_ Hwj].
  pose proof (apply_report_wf _ _ _ _ _ Happ Hwf ltac:(lia) Hr) as Hc.
  apply active_some in Hact as (_ & Haa & Haw & k & Hk).
  assert (k = slot) as -> by (apply (sched_one_active _ Hs k slot active j); done || congruence).
  rewrite Hj in Hk. injection Hk as <-.
  destruct (apply_report_logged _ _ _ _ _ Happ Hwf Hc) as (Hlog & Hup & Hty).
  assert (Hpub : publish_outcome (rs_scheduler st) slot c =
    (FAULTLINE_SCHEDULER_OK, replace_job (rs_scheduler st) slot c q)).
  { unfold faultline_scheduler_report in Hrep.
    rewrite (proj2 (Z.eqb_neq _ _) Hw0), (proj2 (Z.ltb_ge _ _) Ht0), Hi in Hrep. cbn [orb] in Hrep.
    rewrite (find_slot_found _ _ slot j Hs Hj Hji), Hiw, Z.eqb_refl in Hrep.
    rewrite (proj2 (Nat.eqb_neq _ _)), Htot, Happ in Hrep by lia. done. }
  exists c. rewrite Hty.
  destruct (outcome_replays st rs slot j c _ HI Hj Hcid Hc ltac:(lia) Hlog Hpub Hs'). done.
Qed.

Lemma worker_lost_replays st rs worker time s' active :
  history_inv st rs -> rs_job_time_base_ms st <= time <= INT64_MAX ->
  faultline_scheduler_active (rs_scheduler st) worker = Some active ->
  faultline_scheduler_worker_lost (rs_scheduler st) worker time = (FAULTLINE_SCHEDULER_OK, s') ->
  exists c, faultline_scheduler_find s' (job_id active) = Some c /\ updated_at_ms c = time /\
    replays st rs (if bool_decide (job_state c = FAULTLINE_JOB_QUEUED)
                   then FAULTLINE_WAL_JOB_REQUEUED else FAULTLINE_WAL_JOB_FAILED) c s'.
Proof.
  intros HI Htime Hact Hlost. pose proof (hi_sched _ _ HI) as Hs.
  assert (Hs' : sched_wf s').
  { pose proof (worker_lost_ok (rs_scheduler st) worker time Hs ltac:(lia)) as Hok.
    rewrite Hlost in Hok. destruct Hok as [(? & ? & ? & Hok)|(_ & Hbad)]; [by apply Hok|naive_solver]. }
  unfold faultline_scheduler_worker_lost in Hlost. destruct (_ || _); [done|].
  rewrite Hact in Hlost.
  destruct (faultline_job_fail active worker (attempt active) FAULTLINE_JOB_FAILURE_WORKER_LOST time)
    as [res c] eqn:Hf.
  destruct res; try done.
  pose proof Hact as (_ & Haa & Haw & slot & Hj)%active_some.
  destruct (live_jobs _ _ _ Hs Hj) as (Hlt & Htot & Hwf).
  pose proof (job_fail_wf _ _ _ _ _ _ Hf Hwf ltac:(lia)) as Hc.
  destruct (fail_logged _ _ _ _ _ _ Hf Hwf) as (Hlog & Hup & Hty & _).
  assert (Hid : job_id c = job_id active).
  { apply job_fail_ok in Hf as (_ & _ & _ & _ & _ & _ & _ & _ & ->).
    unfold failed_job. by destruct (_ <? _). }
  rewrite Hid, (find_slot_found _ _ slot active Hs Hj eq_refl) in Hlost.
  exists c. rewrite <- Hty.
  destruct (outcome_replays st rs slot active c s' HI Hj Hid Hc ltac:(lia) Hlog Hlost Hs'). done.
Qed.

(** A replayed record extends the history of the log. *)
Lemma replays_history recs st rs type j s' :
  log_history recs st rs -> replays st rs type j s' -> rs_last_sequence st < UINT64_MAX ->
  let r := job_record type (rs_last_sequence st + 1) j in
  record_typed r /\ record_ok r /\
  exists st', log_history (recs ++ [r]) st' rs /\ rs_scheduler st' = s' /\
    rs_job_time_base_ms st' = updated_at_ms j /\ rs_workers st' = rs_workers st /\
    rs_last_sequence st' = rs_last_sequence st + 1.
Proof.
  intros Hl (Hwf & Hty & Htime & Hr) Hseq r.
  pose proof (log_history_inv _ _ _ Hl) as HI. pose proof (hi_sequence _ _ HI).
  destruct (Hr (rs_last_sequence st + 1)) as (Hd & q & Hq & Hs').
  destruct (job_record_ok type (rs_last_sequence st + 1) j Hwf Hty) as [Ht Ho]; [lia|ilia|].
  assert (Hne : r_type r <> FAULTLINE_WAL_WORKER_ID_ALLOCATED).
  { unfold r, job_record. cbn [r_type]. rewrite Hty. unfold snapshot_type. by repeat case_match. }
  split; [done|]. split; [done|].
  exists ((replayed_state st r q) <| rs_last_sequence := r_sequence r |>).
  split; [|done]. apply history_job with st; try done.
  apply apply_job_record_ok; try done; [apply HI|]. by exists q.
Qed.

(** A worker ID above all earlier ones extends it as well. *)
Lemma register_history recs st rs id :
  log_history recs st rs -> rs_highest_worker_id st < id <= UINT32_MAX ->
  rs_last_sequence st < UINT64_MAX ->
  let r := mk_wal_record FAULTLINE_WAL_WORKER_ID_ALLOCATED (rs_last_sequence st + 1) id zero_job in
  record_typed r /\ record_ok r /\
  log_history (recs ++ [r]) ((allocated_state st id) <| rs_last_sequence := r_sequence r |>)
    (grown_ranges rs id).
Proof.
  intros Hl Hid Hseq r. pose proof (log_history_inv _ _ _ Hl) as HI.
  pose proof (hi_sequence _ _ HI). pose proof (hi_highest_worker _ _ HI).
  assert (record_typed r /\ record_ok r) as [Ht Ho].
  { unfold record_typed, record_ok, allocated, r. cbn [r_type r_sequence r_worker_id r_job].
    rewrite bool_decide_eq_true_2 by done. repeat split; done || ilia. }
  split; [done|]. split; [done|]. apply history_worker; try done. cbn. lia.
Qed.
