(* ===== verification/Durability.v ===== *)
(** The store keeps its promise: what it has published is what recovery brings back.

    [published] ties the store to its log: the jobs and the next IDs are the ones the logged
    records lead to, and the log is settled on the disk. Every operation keeps it, or stops the
    store for good with at most one record in doubt. *)

From S2P Require Import Prelude Job JobQueue WorkerRegistry Protocol Scheduler SchedulerProofs.
From S2P Require Import Wal WalProofs WalWriter Disk SimDisk WriterProofs WalReplay.
From S2P Require Import ReplayProofs ReplayDisk CoordinatorStore StoreProofs.

(** Every worker ID in the registry was allocated in the log. *)
Definition ids_logged (r : faultline_worker_registry) (rs : list worker_range) : Prop :=
  forall w, w ∈ workers r -> used w -> worker_was_allocated (mk_index rs 0) (w_id w) = true.

Lemma grown_logged st rs id :
  history_inv st rs -> rs_highest_worker_id st < id ->
  forall x, x = id \/ worker_was_allocated (mk_index rs 0) x = true ->
  worker_was_allocated (mk_index (grown_ranges rs id) 0) x = true.
Proof.
  intros HI Hid x Hx. pose proof (hi_ranges _ _ HI) as Hr.
  destruct (grown_ranges_wf rs id Hr) as (Hg & _ & Hin).
  { eapply Forall_impl; [apply (hi_ranges_max _ _ HI)|]. intros r ?. simpl in *. lia. }
  apply worker_was_allocated_spec; [done|]. apply Hin.
  destruct Hx as [->|Hx]; [by left|right]. by apply worker_was_allocated_spec in Hx.
Qed.

Lemma insert_ids r rs rs' slot w n :
  ids_logged r rs ->
  (forall x, worker_was_allocated (mk_index rs 0) x = true ->
    worker_was_allocated (mk_index rs' 0) x = true) ->
  worker_was_allocated (mk_index rs' 0) (w_id w) = true ->
  ids_logged (mk_registry (<[slot := w]> (workers r)) n) rs'.
Proof.
  intros Hids Hmono Hw v [k Hk]%list_elem_of_lookup Hu. cbn in Hk.
  apply list_lookup_insert_Some in Hk as [(_ & <- & _)|[_ Hk]]; [done|].
  apply Hmono, Hids; [|done]. by eapply list_elem_of_lookup_2.
Qed.

(** The connection events change neither an ID nor the next one. *)
Lemma connection_ids r rs r' :
  registry_wf r -> ids_logged r rs ->
  (exists id fd now, r' = snd (faultline_worker_heartbeat r id fd now)) \/
  (exists id fd, r' = snd (faultline_worker_mark_dead r id fd)) ->
  ids_logged r' rs /\ next_worker_id r' = next_worker_id r /\ registry_wf r'.
Proof.
  intros Hr Hids [(id & fd & now & ->)|(id & fd & ->)].
  - split; [|split; [|by apply heartbeat_wf]]; unfold faultline_worker_heartbeat;
      [|by repeat case_match].
    destruct (now <? 0); [done|]. destruct (find_live_connection r id fd) as [[] slot] eqn:E; try done.
    destruct (find_live_connection_ok r Hr _ _ _ E) as (w & Hw & -> & Ha & _).
    destruct (_ <? _); [done|]. apply (insert_ids r rs rs); try done. apply (Hids w); [|by apply used_alive].
    by eapply list_elem_of_lookup_2.
  - split; [|split; [|by apply mark_dead_wf]]; unfold faultline_worker_mark_dead;
      [|by repeat case_match].
    destruct (find_live_connection r id fd) as [[] slot] eqn:E; try done.
    destruct (find_live_connection_ok r Hr _ _ _ E) as (w & Hw & -> & Ha & _).
    apply (insert_ids r rs rs); try done. apply (Hids w); [|by apply used_alive].
    by eapply list_elem_of_lookup_2.
Qed.

Section Durability.
Context {W : Type} (os : wal_os W) {FIN : OsFinite os} {DISK : Disk os}.

(** Whatever a kill leaves is the log of [recs], or that log and a part of the next record. *)
Definition in_doubt (world : W) (recs : list faultline_wal_record) : Prop :=
  settled os world (log_bytes recs) \/
  exists r st rs, log_history (recs ++ [r]) st rs /\
    torn os world (log_bytes recs) (record_bytes r).

Record published (store : faultline_coordinator_store) (world : W)
    (recs : list faultline_wal_record) (st : faultline_wal_replay_state)
    (rs : list worker_range) : Prop := {
  pub_log : ready os (wal store) world (log_bytes recs);
  pub_history : log_history recs st rs;
  pub_sequence : next_sequence (wal store) = next_after (rs_last_sequence st);
  pub_jobs : jobs store = rs_scheduler st;
  pub_registry : registry_wf (store_workers store);
  pub_next_worker : next_worker_id (store_workers store) = next_worker_id (rs_workers st);
  pub_ids : ids_logged (store_workers store) rs;
  pub_time : last_job_time_ms store = rs_job_time_base_ms st;
  pub_base : 0 <= time_base_ms store <= INT64_MAX;
  pub_failure : store_failure store = FAULTLINE_STORE_FAILURE_NONE;
}.

(** A store that has failed; the jobs it shows are still the ones of the settled log. *)
Record halted (store : faultline_coordinator_store) (world : W)
    (recs : list faultline_wal_record) (st : faultline_wal_replay_state)
    (rs : list worker_range) : Prop := {
  halt_failure : store_failure store <> FAULTLINE_STORE_FAILURE_NONE;
  halt_history : log_history recs st rs;
  halt_jobs : jobs store = rs_scheduler st;
  halt_disk : in_doubt world recs;
}.

(** What an operation on a published store leads to. *)
Definition outcome (res : faultline_store_result) (store : faultline_coordinator_store) (world : W)
    (store' : faultline_coordinator_store) (world' : W) (recs : list faultline_wal_record)
    (st : faultline_wal_replay_state) (rs : list worker_range) : Prop :=
  opened store' = opened store /\
  match res with
  | FAULTLINE_STORE_OK => exists r st' rs', published store' world' (recs ++ [r]) st' rs'
  | FAULTLINE_STORE_FATAL => store_workers store' = store_workers store /\ halted store' world' recs st rs
  | _ => world' = world /\ jobs store' = jobs store /\ store_workers store' = store_workers store /\
      published store' world' recs st rs
  end.

Lemma fail_kept store failure :
  failure <> FAULTLINE_STORE_FAILURE_NONE ->
  store_failure (fail store failure) <> FAULTLINE_STORE_FAILURE_NONE /\
  jobs (fail store failure) = jobs store /\ opened (fail store failure) = opened store /\
  store_workers (fail store failure) = store_workers store.
Proof. intros H. unfold fail. by case_bool_decide. Qed.

Lemma published_settled store world recs st rs :
  published store world recs st rs -> settled os world (log_bytes recs).
Proof. intros H. apply (pub_log _ _ _ _ _ H). Qed.

Lemma published_halt store world recs st rs failure :
  published store world recs st rs -> failure <> FAULTLINE_STORE_FAILURE_NONE ->
  outcome FAULTLINE_STORE_FATAL store world (fail store failure) world recs st rs.
Proof.
  intros HP Hf. destruct (fail_kept store failure Hf) as (? & Hj & ? & ?).
  split; [done|]. split; [done|]. constructor; try done.
  - apply HP.
  - rewrite Hj. apply HP.
  - left. by eapply published_settled.
Qed.

Lemma published_scratch store world recs st rs s :
  published store world recs st rs -> published (store <| scratch := s |>) world recs st rs.
Proof. intros []. by constructor. Qed.

Lemma published_inv store world recs st rs :
  published store world recs st rs -> history_inv st rs.
Proof. intros HP. apply (log_history_inv recs). apply HP. Qed.

(** ** One record *)

Lemma append_exhausted writer record world c :
  ready os writer world c -> next_sequence writer = 0 ->
  faultline_wal_writer_append os writer record world =
  (FAULTLINE_WAL_WRITE_SEQUENCE_EXHAUSTED, writer, world).
Proof. intros [Hst _] Hn. unfold faultline_wal_writer_append. by rewrite Hst, Hn. Qed.

Lemma append_halt store world recs st rs writer result world' :
  published store world recs st rs -> in_doubt world' recs ->
  outcome FAULTLINE_STORE_FATAL store world
    (fail (store <| wal := writer |> <| write_result := result |>) FAULTLINE_STORE_FAILURE_WAL)
    world' recs st rs.
Proof.
  intros HP Hd.
  destruct (fail_kept (store <| wal := writer |> <| write_result := result |>)
    FAULTLINE_STORE_FAILURE_WAL ltac:(done)) as (? & Hj & ? & ?).
  split; [done|]. split; [done|]. constructor; try done; [apply HP|]. rewrite Hj. apply HP.
Qed.

Lemma store_append store world recs st rs record r store' world' :
  published store world recs st rs ->
  let logged := mk_wal_record (r_type record) (rs_last_sequence st + 1) (r_worker_id record)
                  (r_job record) in
  (rs_last_sequence st < UINT64_MAX -> record_typed logged /\ record_ok logged /\
    exists st' rs', log_history (recs ++ [logged]) st' rs') ->
  append os store record world = (r, store', world') ->
  (r = FAULTLINE_STORE_OK /\ rs_last_sequence st < UINT64_MAX /\
   ready os (wal store') world' (log_bytes (recs ++ [logged])) /\
   next_sequence (wal store') = next_after (rs_last_sequence st + 1) /\
   store' = store <| wal := wal store' |> <| write_result := FAULTLINE_WAL_WRITE_OK |>) \/
  (r = FAULTLINE_STORE_FATAL /\ outcome r store world store' world' recs st rs).
Proof.
  intros HP logged Hlog. unfold append.
  pose proof (hi_sequence _ _ (published_inv _ _ _ _ _ HP)) as Hseq.
  pose proof (pub_log _ _ _ _ _ HP) as Hready. pose proof (pub_sequence _ _ _ _ _ HP) as Hnext.
  destruct (decide (rs_last_sequence st = UINT64_MAX)) as [He|Hne].
  { rewrite He in Hnext. rewrite (append_exhausted _ _ _ _ Hready Hnext).
    intros [= <- <- <-]. right. split; [done|]. apply append_halt; [done|]. left. apply Hready. }
  assert (Hn : next_sequence (wal store) = rs_last_sequence st + 1).
  { rewrite Hnext. unfold next_after. rewrite (proj2 (Z.eqb_neq _ _) Hne). apply u64_id. ilia. }
  rewrite Hn. fold logged. destruct Hlog as (Ht & Ho & st' & rs' & Hl); [lia|].
  destruct (faultline_wal_writer_append os (wal store) logged world) as [[res writer] w] eqn:Ha.
  apply (append_disk os _ _ _ _ _ _ _ Hready Ht) in Ha.
  destruct res; try contradiction.
  - intros [= <- <- <-]. left. destruct Ha as (Hr & _ & _ & _ & Hw).
    split; [done|]. split; [lia|]. cbn [wal set_wal set_write_result]. rewrite log_bytes_snoc.
    split; [exact Hr|]. split; [by rewrite Hw|reflexivity].
  - destruct Ha as (_ & _ & [Hbad|Hbad]); [|contradiction]. by rewrite Hn in Hbad.
  - destruct Ha as (_ & _ & Hbad). lia.
  - intros [= <- <- <-]. right. split; [done|]. apply append_halt; [done|].
    right. exists logged, st', rs'. split; [exact Hl|]. apply Ha.
Qed.

(** A job is committed with one record, which holds the job as the scratch scheduler has it. *)
Lemma commit_job_logged store world recs st rs id type j r store' world' :
  published store world recs st rs -> faultline_scheduler_find (scratch store) id = Some j ->
  replays st rs type j (scratch store) ->
  commit_job os store id type world = (r, store', world') ->
  r = FAULTLINE_STORE_FATAL /\ outcome r store world store' world' recs st rs \/
  r = FAULTLINE_STORE_OK /\ opened store' = opened store /\ exists st',
    published store' world' (recs ++ [job_record type (rs_last_sequence st + 1) j]) st' rs.
Proof.
  intros HP Hfind Hrep. unfold commit_job. rewrite Hfind.
  destruct (append os store (mk_wal_record type 0 0 j) world) as [[res s1] w1] eqn:Ha.
  pose proof (pub_history _ _ _ _ _ HP) as Hl.
  apply (store_append _ _ _ _ _ _ _ _ _ HP) in Ha.
  2:{ intros Hlt. destruct (replays_history _ _ _ _ _ _ Hl Hrep Hlt) as (Ht & Ho & st' & Hl' & _).
      split; [exact Ht|]. split; [exact Ho|]. by exists st', rs. }
  destruct Ha as [(-> & Hlt & Hready & Hnext & Hs1)|(-> & Hout)].
  2:{ intros [= <- <- <-]. by left. }
  intros [= <- <- <-]. right. split; [done|].
  destruct (replays_history _ _ _ _ _ _ Hl Hrep Hlt) as (_ & _ & st' & Hl' & Hsch & Htime & Hwk & Hseq).
  split; [by rewrite Hs1|]. exists st'.
  constructor; cbn [jobs store_workers wal last_job_time_ms time_base_ms store_failure set_jobs
    set_last_job_time_ms]; try done.
  - rewrite Hseq. exact Hnext.
  - rewrite Hs1. cbn. done.
  - rewrite Hs1. cbn. apply HP.
  - rewrite Hs1, Hwk. apply HP.
  - rewrite Hs1. apply (pub_ids _ _ _ _ _ HP).
  - rewrite Hs1. apply HP.
  - rewrite Hs1. apply HP.
Qed.

Lemma commit_job_outcome store world recs st rs id type j r store' world' :
  published store world recs st rs -> faultline_scheduler_find (scratch store) id = Some j ->
  replays st rs type j (scratch store) ->
  commit_job os store id type world = (r, store', world') ->
  outcome r store world store' world' recs st rs.
Proof.
  intros HP Hfind Hrep H. destruct (commit_job_logged _ _ _ _ _ _ _ _ _ _ _ HP Hfind Hrep H)
    as [[_ Hout]|(-> & Ho & st' & HP')]; [done|]. split; [done|]. by eexists _, _, _.
Qed.

Lemma commit_job_result store id type world r store' world' :
  commit_job os store id type world = (r, store', world') ->
  r = FAULTLINE_STORE_OK \/ r = FAULTLINE_STORE_FATAL.
Proof. unfold commit_job. intros H. repeat case_match; simplify_eq; auto. Qed.

(** ** The operations *)

Lemma job_time_published store world recs st rs raw :
  published store world recs st rs ->
  (exists time, job_time store raw = (Some time, store) /\
    rs_job_time_base_ms st <= time <= INT64_MAX) \/
  exists store', job_time store raw = (None, store') /\
    outcome FAULTLINE_STORE_FATAL store world store' world recs st rs.
Proof.
  intros HP. pose proof (pub_time _ _ _ _ _ HP). pose proof (pub_base _ _ _ _ _ HP).
  unfold job_time. destruct (_ || _) eqn:E.
  { right. eexists. split; [done|]. by apply published_halt. }
  split_bools. destruct (Z.ltb_spec (time_base_ms store + (raw - session_start_ms store))
    (last_job_time_ms store)).
  - right. eexists. split; [done|]. by apply published_halt.
  - left. eexists. split; [done|]. lia.
Qed.

Lemma usable_published store world recs st rs :
  published store world recs st rs -> opened store = true -> usable store = true.
Proof.
  intros HP Ho. unfold usable. rewrite Ho, bool_decide_eq_true_2; [done|]. apply HP.
Qed.

Lemma outcome_kept res store world recs st rs s :
  published store world recs st rs ->
  res = FAULTLINE_STORE_REJECTED \/ res = FAULTLINE_STORE_EMPTY ->
  outcome res store world (store <| scratch := s |>) world recs st rs.
Proof.
  intros HP Hres. apply (published_scratch _ _ _ _ _ s) in HP.
  split; [done|]. by destruct Hres as [-> | ->].
Qed.

Lemma outcome_scratch res store world store' world' recs st rs s :
  outcome res (store <| scratch := s |>) world store' world' recs st rs ->
  outcome res store world store' world' recs st rs.
Proof. done. Qed.

Lemma submit_outcome store world recs st rs p now res id store' world' :
  published store world recs st rs -> opened store = true -> submit_typed p ->
  faultline_store_submit os store p now world = (res, id, store', world') ->
  outcome res store world store' world' recs st rs.
Proof.
  intros HP Ho Hp. unfold faultline_store_submit. rewrite (usable_published _ _ _ _ _ HP Ho). cbn [negb].
  destruct (job_time_published _ _ _ _ _ now HP) as [(time & -> & Htime)|(s1 & -> & Hout)].
  2:{ intros [= <- <- <- <-]. done. }
  destruct (faultline_scheduler_submit (jobs store) p time) as [[r out] s'] eqn:Hs.
  pose proof Hs as Hs0. rewrite (pub_jobs _ _ _ _ _ HP) in Hs0.
  pose proof (published_inv _ _ _ _ _ HP) as HI.
  apply (published_scratch _ _ _ _ _ s') in HP as HP'.
  pose proof (submit_ok (rs_scheduler st) p time (hi_sched _ _ HI) Hp ltac:(lia)) as Hok.
  rewrite Hs0 in Hok.
  destruct Hok as [(-> & -> & _)|(-> & _ & Hbad)].
  - destruct (submit_replays _ _ _ _ _ _ HI Hp Htime Hs0) as (j & Hfind & _ & Hrep).
    destruct (commit_job os _ _ _ world) as [[r1 s1] w1] eqn:Hc.
    pose proof (commit_job_result _ _ _ _ _ _ _ Hc) as Hr.
    apply (commit_job_outcome _ _ _ _ _ _ _ j _ _ _ HP') in Hc; [|done..].
    apply outcome_scratch in Hc. by destruct Hr as [-> | ->]; intros [= <- <- <- <-].
  - assert (r <> FAULTLINE_SCHEDULER_OK /\ r <> FAULTLINE_SCHEDULER_QUEUE_ERROR) as [? ?] by naive_solver.
    destruct r; try done; intros [= <- <- <- <-]; apply outcome_kept; auto.
Qed.

Lemma alive_logged store world recs st rs worker :
  published store world recs st rs -> alive_worker store worker = true ->
  in_u32 worker /\ worker_was_allocated (mk_index rs 0) worker = true.
Proof.
  intros HP. unfold alive_worker. pose proof (pub_registry _ _ _ _ _ HP) as Hr.
  destruct (faultline_worker_find (store_workers store) worker) as [w|] eqn:Hf; [|done]. intros _.
  apply worker_find_some in Hf as (Hin & Hu & <- & _); [|done].
  pose proof (reg_ids _ Hr w Hin Hu). split; [ilia|]. by apply (pub_ids _ _ _ _ _ HP).
Qed.

Lemma assign_outcome store world recs st rs worker now res out store' world' :
  published store world recs st rs -> opened store = true ->
  faultline_store_assign os store worker now world = (res, out, store', world') ->
  outcome res store world store' world' recs st rs.
Proof.
  intros HP Ho. unfold faultline_store_assign. rewrite (usable_published _ _ _ _ _ HP Ho). cbn [negb].
  destruct (alive_worker store worker) eqn:Hal; cbn [negb].
  2:{ intros [= <- <- <- <-]. split; [done|]. done. }
  destruct (alive_logged _ _ _ _ _ _ HP Hal) as [Hw Hall].
  destruct (job_time_published _ _ _ _ _ now HP) as [(time & -> & Htime)|(s1 & -> & Hout)].
  2:{ intros [= <- <- <- <-]. done. }
  destruct (faultline_scheduler_assign (jobs store) worker time) as [[r msg] s'] eqn:Hs.
  pose proof Hs as Hs0. rewrite (pub_jobs _ _ _ _ _ HP) in Hs0.
  pose proof (published_inv _ _ _ _ _ HP) as HI.
  apply (published_scratch _ _ _ _ _ s') in HP as HP'.
  destruct (decide (r = FAULTLINE_SCHEDULER_OK)) as [->|Hne].
  - destruct (assign_replays _ _ _ _ _ _ HI Hw Htime Hall Hs0) as (a & j & -> & Hfind & _ & Hrep).
    destruct (commit_job os _ _ _ world) as [[r1 s1] w1] eqn:Hc.
    pose proof (commit_job_result _ _ _ _ _ _ _ Hc) as Hr.
    apply (commit_job_outcome _ _ _ _ _ _ _ j _ _ _ HP') in Hc; [|done..].
    apply outcome_scratch in Hc. by destruct Hr as [-> | ->]; intros [= <- <- <- <-].
  - destruct r; try done; intros [= <- <- <- <-];
      solve [apply outcome_kept; auto | apply outcome_scratch with s'; by apply published_halt].
Qed.

Lemma report_outcome store world recs st rs worker report now res store' world' :
  published store world recs st rs -> opened store = true -> report_typed report ->
  faultline_store_report os store worker report now world = (res, store', world') ->
  outcome res store world store' world' recs st rs.
Proof.
  intros HP Ho Hrt. unfold faultline_store_report. rewrite (usable_published _ _ _ _ _ HP Ho). cbn [negb].
  destruct (alive_worker store worker).
  2:{ intros [= <- <- <-]. split; [done|]. done. }
  destruct (faultline_scheduler_active (jobs store) worker) as [active|] eqn:Hact.
  2:{ intros [= <- <- <-]. split; [done|]. done. }
  destruct (job_time_published _ _ _ _ _ now HP) as [(time & -> & Htime)|(s1 & -> & Hout)].
  2:{ intros [= <- <- <-]. done. }
  destruct (faultline_scheduler_report (jobs store) worker report time) as [r s'] eqn:Hs.
  rewrite (pub_jobs _ _ _ _ _ HP) in Hs, Hact.
  pose proof (published_inv _ _ _ _ _ HP) as HI.
  apply (published_scratch _ _ _ _ _ s') in HP as HP'.
  destruct (decide (r = FAULTLINE_SCHEDULER_OK)) as [->|Hne].
  - destruct (report_replays _ _ _ _ _ _ _ HI Htime Hrt Hact Hs) as (c & Hfind & _ & Hrep).
    change (scratch (store <| scratch := s' |>)) with s'. rewrite Hfind. cbn [default].
    intros Hc. by apply (commit_job_outcome _ _ _ _ _ _ _ c _ _ _ HP') in Hc.
  - destruct r; try done; intros [= <- <- <-];
      solve [apply outcome_kept; auto | apply outcome_scratch with s'; by apply published_halt].
Qed.

Lemma worker_loss_outcome store world recs st rs worker now res store' world' :
  published store world recs st rs ->
  commit_worker_loss os store worker now world = (res, store', world') ->
  outcome res store world store' world' recs st rs.
Proof.
  intros HP. unfold commit_worker_loss.
  destruct (faultline_scheduler_active (jobs store) worker) as [active|] eqn:Hact.
  2:{ intros [= <- <- <-]. split; [done|]. done. }
  destruct (job_time_published _ _ _ _ _ now HP) as [(time & -> & Htime)|(s1 & -> & Hout)].
  2:{ intros [= <- <- <-]. done. }
  destruct (faultline_scheduler_worker_lost (jobs store) worker time) as [r s'] eqn:Hs.
  rewrite (pub_jobs _ _ _ _ _ HP) in Hs, Hact.
  pose proof (published_inv _ _ _ _ _ HP) as HI.
  apply (published_scratch _ _ _ _ _ s') in HP as HP'.
  destruct (decide (r = FAULTLINE_SCHEDULER_OK)) as [->|Hne].
  - destruct (worker_lost_replays _ _ _ _ _ _ HI Htime Hact Hs) as (c & Hfind & _ & Hrep).
    change (scratch (store <| scratch := s' |>)) with s'. rewrite Hfind. cbn [default].
    intros Hc. by apply (commit_job_outcome _ _ _ _ _ _ _ c _ _ _ HP') in Hc.
  - destruct r; try done; intros [= <- <- <-];
      solve [apply outcome_scratch with s'; by apply published_halt].
Qed.

Lemma register_outcome store world recs st rs fd now res id store' world' :
  published store world recs st rs -> opened store = true ->
  faultline_store_register os store fd now world = (res, id, store', world') ->
  outcome res store world store' world' recs st rs.
Proof.
  intros HP Ho. unfold faultline_store_register. rewrite (usable_published _ _ _ _ _ HP Ho). cbn [negb].
  destruct (now <? 0). { intros [= <- <- <- <-]. by apply published_halt. }
  destruct (faultline_worker_register (store_workers store) fd now) as [[r out] reg] eqn:Hreg.
  assert (Hrej : outcome FAULTLINE_STORE_REJECTED store world store world recs st rs)
    by (split; [done|]; done).
  destruct (decide (r = FAULTLINE_REGISTRY_OK)) as [->|Hne].
  2:{ destruct r; try done; intros [= <- <- <- <-]; done. }
  pose proof (pub_registry _ _ _ _ _ HP) as Hwf. pose proof (published_inv _ _ _ _ _ HP) as HI.
  pose proof (register_wf _ _ _ _ _ _ Hwf Hreg) as Hwf'.
  apply (register_ok _ _ _ _ _ Hwf) in Hreg as (slot & _ & -> & Hn0 & _ & _ & _ & _ & Hreg).
  pose proof (pub_next_worker _ _ _ _ _ HP) as Hnext. rewrite (hi_next_worker _ _ HI) in Hnext.
  pose proof (hi_highest_worker _ _ HI) as Hhigh.
  assert (next_worker_id (store_workers store) = rs_highest_worker_id st + 1 /\
    rs_highest_worker_id st < UINT32_MAX) as [Hid Hlt].
  { unfold next_u32 in Hnext. destruct (Z.eqb_spec (rs_highest_worker_id st) UINT32_MAX); [lia|].
    rewrite u32_id in Hnext by ilia. lia. }
  rewrite Hid in *. set (w := rs_highest_worker_id st + 1) in *.
  destruct (append os store _ world) as [[r1 s1] w1] eqn:Ha.
  pose proof (pub_history _ _ _ _ _ HP) as Hl.
  apply (store_append _ _ _ _ _ _ _ _ _ HP) in Ha.
  2:{ intros Hseq. destruct (register_history _ _ _ w Hl ltac:(lia) Hseq) as (Ht & Hok & Hl').
      split; [exact Ht|]. split; [exact Hok|]. eexists _, _. exact Hl'. }
  destruct Ha as [(-> & Hseq & Hready & Hsq & Hs1)|(-> & Hout)].
  2:{ intros [= <- <- <- <-]. exact Hout. }
  intros [= <- <- <- <-].
  destruct (register_history _ _ _ w Hl ltac:(lia) Hseq) as (_ & _ & Hl').
  split; [by rewrite Hs1|]. eexists _, _, _. constructor; [exact Hready|exact Hl'|exact Hsq|..].
  - rewrite Hs1. apply HP.
  - done.
  - cbn. rewrite Hreg. cbn. unfold next_u32. destruct (w =? UINT32_MAX) eqn:E; [done|].
    apply Z.eqb_neq in E. rewrite u32_id; [done|]. unfold w in *. ilia.
  - cbn. rewrite Hreg. apply (insert_ids _ rs); [apply HP| |]; intros;
      apply (grown_logged st rs w HI ltac:(lia)); auto.
  - rewrite Hs1. apply HP.
  - rewrite Hs1. apply HP.
  - rewrite Hs1. apply HP.
Qed.

(** ** Runs *)

Lemma worker_lost_outcome store world recs st rs worker now res store' world' :
  published store world recs st rs -> opened store = true ->
  faultline_store_worker_lost os store worker now world = (res, store', world') ->
  outcome res store world store' world' recs st rs.
Proof.
  intros HP Ho. unfold faultline_store_worker_lost. rewrite (usable_published _ _ _ _ _ HP Ho).
  by apply worker_loss_outcome.
Qed.

(** The log after an operation has the records of before, and the operation's if it was accepted. *)
Definition tracked (store : faultline_coordinator_store) (world : W)
    (recs : list faultline_wal_record) : Prop :=
  opened store = true /\
  exists recs' st rs, recs `prefix_of` recs' /\
    (published store world recs' st rs \/ halted store world recs' st rs).

Lemma outcome_tracked res store world store' world' recs st rs :
  outcome res store world store' world' recs st rs -> opened store = true ->
  tracked store' world' recs.
Proof.
  intros [Ho H] Hopen. split; [congruence|]. destruct res.
  - destruct H as (r & st' & rs' & H). exists (recs ++ [r]), st', rs'.
    split; [by apply prefix_app_r|by left].
  - exists recs, st, rs. split; [done|]. left. apply H.
  - exists recs, st, rs. split; [done|]. left. apply H.
  - exists recs, st, rs. split; [done|]. right. apply H.
Qed.

Lemma connection_tracked store world recs st rs r' :
  published store world recs st rs -> opened store = true ->
  (exists id fd now, r' = snd (faultline_worker_heartbeat (store_workers store) id fd now)) \/
  (exists id fd, r' = snd (faultline_worker_mark_dead (store_workers store) id fd)) ->
  tracked (store <| store_workers := r' |>) world recs.
Proof.
  intros HP Ho Hr.
  destruct (connection_ids (store_workers store) rs r') as (Hids & Hn & Hwf); try done; try apply HP.
  split; [done|]. exists recs, st, rs. split; [done|]. left.
  destruct HP. constructor; try done. cbn. congruence.
Qed.

End Durability.

(** The calls the coordinator makes: the operations of the store, and the connection events it
    applies to the registry of the store. *)
Inductive store_op :=
| StoreRegister (fd now : Z)
| StoreSubmit (submit : faultline_job_submit_payload) (now : Z)
| StoreAssign (worker now : Z)
| StoreReport (worker : Z) (report : faultline_message) (now : Z)
| StoreLost (worker now : Z)
| StoreHeartbeat (worker fd now : Z)
| StoreDisconnect (worker fd : Z).

Definition store_op_typed (op : store_op) : Prop :=
  match op with
  | StoreSubmit p _ => submit_typed p
  | StoreReport _ report _ => report_typed report
  | _ => True
  end.

Definition run_store_op {W} (os : wal_os W) (op : store_op)
    (store : faultline_coordinator_store) (world : W) : faultline_coordinator_store * W :=
  match op with
  | StoreRegister fd now =>
      let '(_, _, store, world) := faultline_store_register os store fd now world in (store, world)
  | StoreSubmit submit now =>
      let '(_, _, store, world) := faultline_store_submit os store submit now world in (store, world)
  | StoreAssign worker now =>
      let '(_, _, store, world) := faultline_store_assign os store worker now world in (store, world)
  | StoreReport worker report now =>
      let '(_, store, world) := faultline_store_report os store worker report now world in
      (store, world)
  | StoreLost worker now =>
      let '(_, store, world) := faultline_store_worker_lost os store worker now world in
      (store, world)
  | StoreHeartbeat worker fd now =>
      (store <| store_workers := snd (faultline_worker_heartbeat (store_workers store) worker fd now) |>,
       world)
  | StoreDisconnect worker fd =>
      (store <| store_workers := snd (faultline_worker_mark_dead (store_workers store) worker fd) |>,
       world)
  end.

Fixpoint run_store {W} (os : wal_os W) (ops : list store_op)
    (store : faultline_coordinator_store) (world : W) : faultline_coordinator_store * W :=
  match ops with
  | [] => (store, world)
  | op :: ops => let '(store, world) := run_store_op os op store world in run_store os ops store world
  end.

Section Runs.
Context {W : Type} (os : wal_os W) {FIN : OsFinite os} {DISK : Disk os}.

(** A failed store refuses every later change. *)
Lemma halted_step op store world recs st rs :
  halted os store world recs st rs ->
  halted os (fst (run_store_op os op store world)) (snd (run_store_op os op store world)) recs st rs /\
  opened (fst (run_store_op os op store world)) = opened store.
Proof.
  intros H. assert (Hu : usable store = false).
  { unfold usable. rewrite bool_decide_eq_false_2; [apply andb_false_r|apply H]. }
  destruct op; cbn; unfold faultline_store_register, faultline_store_submit, faultline_store_assign,
    faultline_store_report, faultline_store_worker_lost; rewrite ?Hu; cbn; try done;
    (split; [|done]); by destruct H.
Qed.

Lemma run_store_op_tracked op store world recs st rs :
  published os store world recs st rs -> opened store = true -> store_op_typed op ->
  tracked os (fst (run_store_op os op store world)) (snd (run_store_op os op store world)) recs.
Proof.
  intros HP Ho Ht. destruct op; cbn [run_store_op].
  - destruct (faultline_store_register _ _ _ _ _) as [[[? ?] ?] ?] eqn:E.
    eapply outcome_tracked; [|done]. by eapply (register_outcome os).
  - destruct (faultline_store_submit _ _ _ _ _) as [[[? ?] ?] ?] eqn:E.
    eapply outcome_tracked; [|done]. by eapply (submit_outcome os).
  - destruct (faultline_store_assign _ _ _ _ _) as [[[? ?] ?] ?] eqn:E.
    eapply outcome_tracked; [|done]. by eapply (assign_outcome os).
  - destruct (faultline_store_report _ _ _ _ _ _) as [[? ?] ?] eqn:E.
    eapply outcome_tracked; [|done]. by eapply (report_outcome os).
  - destruct (faultline_store_worker_lost _ _ _ _ _) as [[? ?] ?] eqn:E.
    eapply outcome_tracked; [|done]. by eapply (worker_lost_outcome os).
  - eapply connection_tracked; eauto 10.
  - eapply connection_tracked; eauto 10.
Qed.

Lemma run_store_tracked ops store world recs :
  tracked os store world recs -> Forall store_op_typed ops ->
  tracked os (fst (run_store os ops store world)) (snd (run_store os ops store world)) recs.
Proof.
  intros HT Hops. revert store world HT. induction Hops as [|op ops Hop _ IH]; [done|].
  intros store world (Ho & recs' & st & rs & Hpre & H). cbn [run_store].
  destruct (run_store_op os op store world) as [store' world'] eqn:E. apply IH.
  destruct H as [H|H].
  - pose proof (run_store_op_tracked op _ _ _ _ _ H Ho Hop) as HT. rewrite E in HT.
    destruct HT as (Ho' & recs2 & st2 & rs2 & Hpre2 & H2). split; [done|].
    exists recs2, st2, rs2. split; [|done]. by transitivity recs'.
  - destruct (halted_step op _ _ _ _ _ H) as [H' Ho']. rewrite E in H', Ho'. cbn in H', Ho'.
    split; [congruence|]. exists recs', st, rs. auto.
Qed.

(** What a kill leaves is a log, and possibly a record that was cut. *)
Definition image_of (recs : list faultline_wal_record) (c : list Z) : Prop :=
  exists rest, c = log_bytes recs ++ rest /\
    (rest = [] \/ (exists r k, record_typed r /\ record_ok r /\
      r_sequence r = Z.of_nat (length recs) + 1 /\ (k < length (record_bytes r))%nat /\
      rest = take k (record_bytes r))).

Lemma settled_image world recs x :
  settled os world (log_bytes recs) -> crash os world x ->
  exists c, x = Some c /\ image_of recs c.
Proof.
  intros [_ Hc] Hx. exists (log_bytes recs). split; [auto|]. exists [].
  split; [by rewrite app_nil_r|by left].
Qed.

Lemma torn_image world recs r st rs x :
  log_history (recs ++ [r]) st rs -> torn os world (log_bytes recs) (record_bytes r) ->
  crash os world x ->
  exists c, x = Some c /\ (image_of recs c \/ image_of (recs ++ [r]) c).
Proof.
  intros Hl [_ Ht] Hx. destruct (Ht x Hx) as [k ->]. eexists. split; [done|].
  destruct (log_history_snoc _ _ _ _ Hl) as (st0 & rs0 & Hl0 & Htyped & Hok & Hseq & _).
  destruct (log_history_numbered _ _ _ Hl0) as [_ Hlast].
  destruct (decide (k < length (record_bytes r))%nat) as [Hk|Hk].
  - left. exists (take k (record_bytes r)). split; [done|]. right. exists r, k.
    rewrite <- Hlast. by split_and!.
  - right. exists []. rewrite take_ge by lia. rewrite log_bytes_snoc, app_nil_r. split; [done|by left].
Qed.

Lemma tracked_image store world recs x :
  tracked os store world recs -> crash os world x ->
  exists c recs' st', x = Some c /\ recs `prefix_of` recs' /\
    (exists rs', log_history recs' st' rs') /\ image_of recs' c /\
    (rs_scheduler st' = jobs store \/
     store_failure store <> FAULTLINE_STORE_FAILURE_NONE /\
     exists recs0 r st0 rs0, recs' = recs0 ++ [r] /\ log_history recs0 st0 rs0 /\
       rs_scheduler st0 = jobs store).
Proof.
  intros (_ & recs0 & st0 & rs0 & Hpre & H) Hx.
  assert (settled os world (log_bytes recs0) -> log_history recs0 st0 rs0 ->
    jobs store = rs_scheduler st0 -> exists c recs' st', x = Some c /\ recs `prefix_of` recs' /\
    (exists rs', log_history recs' st' rs') /\ image_of recs' c /\ rs_scheduler st' = jobs store) as Hset.
  { intros Hs Hh Hj. destruct (settled_image _ _ _ Hs Hx) as (c & -> & Hi).
    exists c, recs0, st0. split_and!; eauto. }
  destruct H as [H|[Hf Hh Hj [Hs|(r & st1 & rs1 & Hl & Ht)]]].
  - destruct Hset as (c & recs' & st' & ? & ? & ? & ? & ?); [by eapply published_settled|apply H..|].
    exists c, recs', st'. by split_and!; try left.
  - destruct Hset as (c & recs' & st' & ? & ? & ? & ? & ?); [done..|].
    exists c, recs', st'. by split_and!; try left.
  - destruct (torn_image _ _ _ _ _ _ Hl Ht Hx) as (c & -> & [Hi|Hi]).
    + exists c, recs0, st0. split_and!; eauto.
    + exists c, (recs0 ++ [r]), st1. split_and!; eauto; [by apply prefix_app_r|].
      right. split; [done|]. exists recs0, r, st0, rs0. by split_and!.
Qed.

End Runs.
