(* ===== verification/StoreRecovery.v ===== *)
(** Opening the store, and recovery after a kill at any point.

    Opening establishes [published] and leaves no job with a worker of the session before. From
    there on, whatever a kill leaves on the disk is recovered to the jobs the store showed, up to
    the one transaction that was being written when the store failed. *)

From S2P Require Import Prelude Job JobQueue WorkerRegistry Protocol Scheduler SchedulerProofs.
From S2P Require Import Wal WalProofs WalWriter Disk SimDisk WriterProofs WalReplay.
From S2P Require Import ReplayProofs ReplayDisk CoordinatorStore StoreProofs Durability.

#[export] Instance active_job_dec j : Decision (active_job j).
Proof. unfold active_job. apply _. Defined.

(** The jobs a worker has, from a slot on. *)
Definition active_from (i : nat) (s : faultline_scheduler) : nat :=
  length (filter active_job (drop i (live s))).

Lemma active_from_step s i j :
  live s !! i = Some j ->
  active_from i s = ((if decide (active_job j) then 1 else 0) + active_from (S i) s)%nat.
Proof.
  intros Hj. unfold active_from. rewrite (drop_S _ _ _ Hj), filter_cons. by case_decide.
Qed.

Lemma active_from_replace s i c q :
  (i < sched_count s)%nat -> active_from (S i) (replace_job s i c q) = active_from (S i) s.
Proof. intros Hi. unfold active_from. rewrite live_replace by done. by rewrite drop_insert_lt by lia. Qed.

(** A job that was with a worker counts as failed at [time], with the worker lost. *)
Definition recovered_job (time : Z) (j : faultline_job) : faultline_job :=
  if decide (active_job j) then failed_job j FAULTLINE_JOB_FAILURE_WORKER_LOST time else j.

(** The record of that. *)
Definition loss_record (time sequence : Z) (j : faultline_job) : faultline_wal_record :=
  let c := failed_job j FAULTLINE_JOB_FAILURE_WORKER_LOST time in
  job_record (if bool_decide (job_state c = FAULTLINE_JOB_QUEUED)
              then FAULTLINE_WAL_JOB_REQUEUED else FAULTLINE_WAL_JOB_FAILED) sequence c.

(** The records for the jobs of [l] that were with a worker, from a sequence number on. *)
Fixpoint loss_records (time sequence : Z) (l : list faultline_job) : list faultline_wal_record :=
  match l with
  | [] => []
  | j :: l =>
      if decide (active_job j) then loss_record time sequence j :: loss_records time (sequence + 1) l
      else loss_records time sequence l
  end.

(** A store that was initialised and not yet opened. *)
Record fresh (store : faultline_coordinator_store) : Prop := {
  fresh_opened : opened store = false;
  fresh_io : io_set (wal store) = false;
  fresh_wal : unopened (wal store);
  fresh_failure : store_failure store = FAULTLINE_STORE_FAILURE_NONE;
  fresh_jobs : jobs store = faultline_scheduler_init;
  fresh_workers : store_workers store = faultline_worker_registry_init;
  fresh_base : time_base_ms store = 0;
  fresh_interrupted : interrupted_jobs store = 0%nat;
}.

Lemma init_fresh : fresh faultline_store_init.
Proof. by constructor. Qed.

Section Opening.
Context {W : Type} (os : wal_os W) {FIN : OsFinite os} {DISK : Disk os}.

(** ** Interrupted jobs *)

Lemma append_store store record world r store' world' :
  append os store record world = (r, store', world') ->
  scratch store' = scratch store /\ interrupted_jobs store' = interrupted_jobs store /\
  store_workers store' = store_workers store /\ time_base_ms store' = time_base_ms store /\
  session_start_ms store' = session_start_ms store.
Proof.
  unfold append. intros H. destruct (faultline_wal_writer_append _ _ _ _) as [[res w] w1].
  destruct res; injection H as <- <- <-; unfold fail; try case_bool_decide; done.
Qed.

Lemma commit_job_store store id type world store' world' :
  commit_job os store id type world = (FAULTLINE_STORE_OK, store', world') ->
  jobs store' = scratch store /\ interrupted_jobs store' = interrupted_jobs store /\
  store_workers store' = store_workers store /\ time_base_ms store' = time_base_ms store /\
  session_start_ms store' = session_start_ms store.
Proof.
  unfold commit_job. destruct (faultline_scheduler_find _ _) as [j|]; [|done].
  destruct (append os store _ world) as [[res s1] w1] eqn:Ha. apply append_store in Ha as (<- & <- & <- & <- & <-).
  destruct res; try done. intros [= <- <-]. done.
Qed.

Lemma active_worker j : job_wf j -> active_job j -> worker_id j <> 0.
Proof.
  intros Hwf Ha. pose proof (wf_state _ Hwf) as Hs. unfold active_job, active_state in Ha.
  unfold job_state_wf, owned in Hs. destruct (job_state j); try done; destruct_and!; lia.
Qed.

Lemma failed_inactive j reason now : ~ active_job (failed_job j reason now).
Proof. unfold active_job, failed_job. by destruct (_ <? _). Qed.

Lemma job_time_value store raw time store' :
  job_time store raw = (Some time, store') -> time = time_base_ms store + (raw - session_start_ms store).
Proof. unfold job_time. destruct (_ || _); [done|]. destruct (_ <? _); [done|]. by intros [= <- _]. Qed.

(** The job that an interrupted session left with a worker is taken from it. *)
Lemma loss_step store world recs st rs i j now res store' world' :
  published os store world recs st rs -> live (jobs store) !! i = Some j -> active_job j ->
  commit_worker_loss os store (worker_id j) now world = (res, store', world') ->
  let time := time_base_ms store + (now - session_start_ms store) in
  opened store' = opened store /\
  (res = FAULTLINE_STORE_FATAL /\ halted os store' world' recs st rs \/
   res = FAULTLINE_STORE_OK /\ interrupted_jobs store' = interrupted_jobs store /\
   store_workers store' = store_workers store /\ time_base_ms store' = time_base_ms store /\
   session_start_ms store' = session_start_ms store /\
   exists q st', jobs store' = replace_job (jobs store) i (recovered_job time j) q /\
     published os store' world' (recs ++ [loss_record time (rs_last_sequence st + 1) j]) st' rs).
Proof.
  intros HP Hj Ha H time. pose proof (worker_loss_outcome os _ _ _ _ _ _ _ _ _ _ HP H) as [Ho Hout].
  split; [done|].
  assert (res = FAULTLINE_STORE_FATAL -> halted os store' world' recs st rs) as Hfatal.
  { intros ->. apply Hout. }
  unfold commit_worker_loss in H. pose proof (published_inv _ _ _ _ _ _ HP) as HI.
  assert (Hs : sched_wf (jobs store)) by (rewrite (pub_jobs _ _ _ _ _ _ HP); apply HI).
  destruct (live_jobs _ _ _ Hs Hj) as (Hlt & _ & Hwf).
  destruct (faultline_scheduler_active (jobs store) (worker_id j)) as [active|] eqn:Hact.
  2:{ apply active_none in Hact as [Hz|Hno]; [by apply active_worker in Hz|].
      exfalso. by apply (Hno j); [eapply list_elem_of_lookup_2|..]. }
  destruct (job_time_published os _ _ _ _ _ now HP) as [(t & Ht & Htime)|(s1 & Ht & _)];
    rewrite Ht in H; [|injection H as <- <- <-; left; auto].
  apply job_time_value in Ht. fold time in Ht. subst t.
  pose proof (worker_lost_ok (jobs store) (worker_id j) time Hs ltac:(lia)) as Hok.
  destruct (faultline_scheduler_worker_lost (jobs store) (worker_id j) time) as [r s'] eqn:El.
  destruct Hok as [(slot & j' & q & -> & _ & _ & Hact' & Hj' & _ & Hok)|(_ & Hbad)]; cycle 1.
  { assert (r <> FAULTLINE_SCHEDULER_OK) by naive_solver.
    destruct r; try done; injection H as <- <- <-; left; auto. }
  cbv zeta in Hok. destruct Hok as (Hstep & Hs' & _ & Hwf').
  rewrite Hact in Hact'. injection Hact' as ->.
  apply active_some in Hact as Hsome. destruct Hsome as (_ & Haj & Hw & _).
  assert (slot = i) as -> by (by apply (sched_one_active _ Hs slot i j' j)).
  assert (j' = j) as -> by congruence.
  rewrite (pub_jobs _ _ _ _ _ _ HP) in El, Hact.
  destruct (worker_lost_replays _ _ _ _ _ _ HI Htime Hact El) as (c & Hfind & _ & Hrep).
  assert (c = failed_job j FAULTLINE_JOB_FAILURE_WORKER_LOST time) as ->.
  { pose proof (find_some s' (job_id j) (failed_job j FAULTLINE_JOB_FAILURE_WORKER_LOST time) Hwf') as [_ Hf].
    enough (faultline_scheduler_find s' (job_id j) =
      Some (failed_job j FAULTLINE_JOB_FAILURE_WORKER_LOST time)) by congruence.
    apply Hf. apply find_some in Hfind as (Hne & _); [|done]. split; [done|].
    split; [|by unfold failed_job; destruct (_ <? _)].
    rewrite Hs', live_replace by done. apply list_elem_of_insert. by rewrite live_length. }
  apply (published_scratch os _ _ _ _ _ s') in HP as HP'.
  change (scratch (store <| scratch := s' |>)) with s' in H. rewrite Hfind in H. cbn [default] in H.
  pose proof H as Hc. apply (commit_job_logged os _ _ _ _ _ _ _ _ _ _ _ HP' Hfind Hrep) in Hc.
  destruct Hc as [[-> _]|(-> & _ & st' & Hpub)]; [left; auto|right].
  apply commit_job_store in H as (Hjobs & Hint & Hws & Hbase & Hstart). cbn in Hjobs.
  do 5 (split; [done|]). exists q, st'. unfold recovered_job. rewrite decide_True by done.
  split; [by rewrite Hjobs|exact Hpub].
Qed.

(** What the recovery of the jobs [l], which follow the jobs [before], leads to: exactly those that
    were with a worker have failed at [time], each with a record; or the store has halted with a log
    that extends [recs]. *)
Definition recovered (res : faultline_store_result) (recs : list faultline_wal_record) (time : Z)
    (before l : list faultline_job) (store : faultline_coordinator_store) (world : W) (interrupted : nat) : Prop :=
  match res with
  | FAULTLINE_STORE_OK =>
      (exists st' rs', published os store world
         (recs ++ loss_records time (Z.of_nat (length recs) + 1) l) st' rs') /\
      live (jobs store) = before ++ (recovered_job time <$> l) /\ interrupted_jobs store = interrupted
  | FAULTLINE_STORE_FATAL =>
      exists recs' st' rs', recs `prefix_of` recs' /\ halted os store world recs' st' rs'
  | _ => False
  end.

Lemma recovered_inactive time (l : list faultline_job) j : j ∈ recovered_job time <$> l -> ~ active_job j.
Proof.
  intros (j0 & -> & _)%list_elem_of_fmap. unfold recovered_job. case_decide; [apply failed_inactive|done].
Qed.

(** One more job was with a worker. *)
Lemma recovered_lost res recs time before j l store world interrupted :
  active_job j ->
  recovered res (recs ++ [loss_record time (Z.of_nat (length recs) + 1) j]) time
    (before ++ [recovered_job time j]) l store world (S interrupted) ->
  recovered res recs time before (j :: l) store world (interrupted + 1).
Proof.
  intros Ha. unfold recovered. destruct res; try done.
  - rewrite length_app. cbn [loss_records length fmap list_fmap]. rewrite decide_True by done.
    replace (Z.of_nat (length recs + 1) + 1) with (Z.of_nat (length recs) + 1 + 1) by lia.
    rewrite <- !app_assoc, Nat.add_1_r. done.
  - intros (recs' & st' & rs' & Hpre & Hh). exists recs', st', rs'. split; [by eapply prefix_app_l|done].
Qed.

Lemma recovered_kept res recs time before j l store world interrupted :
  ~ active_job j -> recovered res recs time (before ++ [j]) l store world interrupted ->
  recovered res recs time before (j :: l) store world interrupted.
Proof.
  intros Ha. unfold recovered. destruct res; try done. cbn [loss_records fmap list_fmap].
  rewrite decide_False by done. unfold recovered_job at 2. rewrite decide_False by done.
  by rewrite <- app_assoc.
Qed.

Lemma recover_loop_spec fuel i store now world recs st rs res store' world' :
  published os store world recs st rs -> (fuel + i)%nat = sched_count (jobs store) ->
  session_start_ms store = now ->
  recover_loop os fuel i store now world = (res, store', world') ->
  opened store' = opened store /\
  (res = FAULTLINE_STORE_OK -> store_workers store' = store_workers store) /\
  recovered res recs (time_base_ms store) (take i (live (jobs store))) (drop i (live (jobs store)))
    store' world' (interrupted_jobs store + active_from i (jobs store))%nat.
Proof.
  revert i store world recs st rs. induction fuel as [|fuel IH];
    intros i store world recs st rs HP Hi Hnow H; cbn [recover_loop] in H;
    assert (sched_wf (jobs store)) as Hs by (rewrite (pub_jobs _ _ _ _ _ _ HP);
      apply (published_inv _ _ _ _ _ _ HP)).
  { injection H as <- <- <-. split; [done|]. split; [done|]. unfold active_from.
    rewrite drop_ge, take_ge by (rewrite live_length by done; lia). cbn.
    rewrite !app_nil_r, Nat.add_0_r. split; [by exists st, rs|done]. }
  rewrite (proj2 (Nat.ltb_lt _ _)) in H by lia.
  destruct (lookup_lt_is_Some_2 (live (jobs store)) i) as [j Hj]; [rewrite live_length by done; lia|].
  destruct (live_jobs _ _ _ Hs Hj) as (Hlt & Htot & Hwf). rewrite Htot in H.
  rewrite (active_from_step _ _ _ Hj), (drop_S _ _ _ Hj). fold (active_state (job_state j)) in H.
  destruct (active_state (job_state j)) eqn:Ha.
  - rewrite decide_True by done.
    destruct (commit_worker_loss os store (worker_id j) now world) as [[r s1] w1] eqn:Hc.
    destruct (loss_step _ _ _ _ _ _ _ _ _ _ _ HP Hj Ha Hc) as [Ho Hres].
    rewrite Hnow, Z.sub_diag, Z.add_0_r in Hres.
    destruct Hres as [[-> Hh]|(-> & Hint & Hws & Hbase & Hstart & q & st1 & Hjobs & HP1)].
    { injection H as <- <- <-. split; [done|]. split; [done|]. by exists recs, st, rs. }
    apply IH with (st := st1) (rs := rs) (recs := recs ++ [loss_record (time_base_ms store) (rs_last_sequence st + 1) j])
      in H; [|by destruct HP1|cbn; rewrite Hjobs; cbn; lia|cbn; congruence].
    destruct H as (Ho' & Hws' & Hrec). split; [cbn in Ho'; congruence|].
    split; [intros E; specialize (Hws' E); cbn in Hws'; congruence|].
    cbn in Hrec. rewrite Hbase, Hjobs, active_from_replace, live_replace, drop_insert_lt, Hint in Hrec by (done || lia).
    rewrite (take_S_r _ _ (recovered_job (time_base_ms store) j)) in Hrec
      by (apply list_lookup_insert_eq; by rewrite live_length).
    rewrite take_insert_ge in Hrec by lia.
    destruct (log_history_numbered _ _ _ (pub_history _ _ _ _ _ _ HP)) as [_ Hlast]. rewrite Hlast in Hrec.
    apply recovered_lost in Hrec; [|done]. by rewrite <- Nat.add_assoc, (Nat.add_comm _ 1) in Hrec.
  - rewrite decide_False by (unfold active_job; by rewrite Ha).
    apply IH with (recs := recs) (st := st) (rs := rs) in H as (? & ? & Hrec); [|done|lia|done].
    split; [done|]. split; [done|]. apply recovered_kept; [unfold active_job; by rewrite Ha|].
    by rewrite <- (take_S_r _ _ _ Hj).
Qed.

(** ** Sessions *)

Lemma recovered_registry st rs :
  history_inv st rs -> registry_wf (rs_workers st) /\ ids_logged (rs_workers st) rs.
Proof.
  intros HI. pose proof (hi_workers _ _ HI) as Hw. split.
  - pose proof (hi_highest_worker _ _ HI).
    replace (rs_workers st) with (mk_registry (workers faultline_worker_registry_init)
      (next_worker_id (rs_workers st))) by (rewrite <- Hw; by destruct (rs_workers st)).
    apply unused_registry_wf. rewrite (hi_next_worker _ _ HI). unfold next_u32.
    destruct (Z.eqb_spec (rs_highest_worker_id st) UINT32_MAX); [ilia|].
    rewrite u32_id; ilia.
  - intros w. rewrite Hw. intros Hin Hu. by apply init_unused in Hin.
Qed.

Lemma start_session_spec store now world recs st rs res store' world' :
  ready os (wal store) world (log_bytes recs) -> log_history recs st rs ->
  next_sequence (wal store) = next_after (rs_last_sequence st) ->
  jobs store = rs_scheduler st -> store_workers store = rs_workers st ->
  time_base_ms store = rs_job_time_base_ms st ->
  store_failure store = FAULTLINE_STORE_FAILURE_NONE ->
  start_session os store now world = (res, store', world') ->
  recovered res recs (time_base_ms store) [] (live (jobs store)) store' world'
    (interrupted_jobs store + active_from 0 (jobs store))%nat /\
  opened store' = (if bool_decide (res = FAULTLINE_STORE_OK) then true else opened store) /\
  (res = FAULTLINE_STORE_OK -> store_workers store' = store_workers store).
Proof.
  intros Hr Hl Hn Hj Hw Ht Hf H. pose proof (log_history_inv _ _ _ Hl) as HI.
  pose proof (hi_time _ _ HI). destruct (recovered_registry _ _ HI) as [Hreg Hids].
  unfold start_session, recover_interrupted_jobs in H.
  set (s0 := store <| session_start_ms := now |> <| last_job_time_ms := time_base_ms store |>) in *.
  assert (HP : published os s0 world recs st rs).
  { constructor; try done; cbn; try congruence; try (rewrite Hw; done). }
  destruct (recover_loop os (sched_count (jobs s0)) 0 s0 now world) as [[r s1] w1] eqn:E.
  apply (recover_loop_spec _ _ _ _ _ _ _ _ _ _ _ HP) in E as (Ho & Hws & Hrec); [|lia|done].
  destruct r; [|by destruct Hrec..|]; injection H as <- <- <-; (split; [|split; [done|]]).
  - destruct Hrec as ((st' & rs' & HP') & Hrec). split; [|exact Hrec]. exists st', rs'. by destruct HP'.
  - intros _. by apply Hws.
  - exact Hrec.
  - done.
Qed.

(** Every image of a log consists of bytes. *)
Lemma image_bytes recs st rs c : log_history recs st rs -> image_of recs c -> bytes_ok c.
Proof.
  intros Hl (rest & -> & Hrest). apply Forall_app. split; [by eapply log_bytes_ok|].
  destruct Hrest as [->|(r & k & Ht & _ & _ & _ & ->)]; [by constructor|].
  apply Forall_take. by apply record_bytes_ok.
Qed.

(** Whatever a kill leaves is the log of [recs], extended or not. *)
Definition extends (world : W) (recs : list faultline_wal_record) : Prop :=
  forall x, crash os world x -> exists c recs' st' rs', x = Some c /\
    recs `prefix_of` recs' /\ log_history recs' st' rs' /\ image_of recs' c.

Lemma halted_extends store world recs recs' st rs :
  halted os store world recs' st rs -> recs `prefix_of` recs' -> extends world recs.
Proof.
  intros [_ Hl _ [Hs|(r & st' & rs' & Hl' & Ht)]] Hpre x Hx.
  - destruct (settled_image os _ _ _ Hs Hx) as (c & -> & Hi). exists c, recs', st, rs. done.
  - destruct (torn_image os _ _ _ _ _ _ Hl' Ht Hx) as (c & -> & [Hi|Hi]).
    + by exists c, recs', st, rs.
    + exists c, (recs' ++ [r]), st', rs'. split_and!; try done. by apply prefix_app_r.
Qed.

Lemma open_existing store path now world recs st rs c res store' world' :
  fresh store -> path <> [] -> ends_in_slash path = false -> 0 <= now ->
  image_of recs c -> log_history recs st rs -> settled os world c ->
  Z.of_nat (length c) <= INT64_MAX ->
  faultline_store_open_with_io os store path 0 now world = (res, store', world') ->
  match res with
  | FAULTLINE_STORE_OK =>
      opened store' = true /\
      recovered res recs (rs_job_time_base_ms st) [] (live (rs_scheduler st)) store' world'
        (active_from 0 (rs_scheduler st)) /\
      workers (store_workers store') = workers faultline_worker_registry_init
  | FAULTLINE_STORE_FATAL =>
      opened store' = false /\ store_failure store' <> FAULTLINE_STORE_FAILURE_NONE /\
      extends world' recs
  | _ => False
  end.
Proof.
  intros [Hfo Hfi Hfw Hff Hfj Hfr Hfb Hfn] Hp Hsl Hnow Himg Hl Hset Hlen.
  assert (Hext : forall w, repaired os w c (log_bytes recs) -> extends w recs).
  { intros w [_ Hx] x [-> | ->]%Hx; eexists _, recs, st, rs; split; try done.
    split_and!; try done. exists []. rewrite app_nil_r. auto. }
  assert (Hsr : forall w, settled os w c -> repaired os w c (log_bytes recs)).
  { intros w [Hc Hx]. split; [by left|]. intros x Hin. left. auto. }
  pose proof (image_bytes _ _ _ _ Hl Himg) as Hbytes.
  unfold faultline_store_open_with_io. rewrite Hfo, Hfi, Hff, bool_decide_eq_true_2 by done.
  rewrite (proj2 (Z.ltb_ge _ _) Hnow). cbn [negb orb andb Z.eqb].
  destruct (os_alloc os world) as [b w0] eqn:Ea. apply (law_alloc os) in Ea as [Hv Hx0].
  assert (Hset0 : settled os w0 c).
  { destruct Hset as [Hc Hx]. split; [by rewrite Hv|]. auto. }
  destruct b.
  2:{ intros [= <- <- <-].
      destruct (fail_kept (store <| replay_result := FAULTLINE_WAL_REPLAY_NO_MEMORY |>)
        FAULTLINE_STORE_FAILURE_OPEN) as (? & _ & Ho & _); [done|]. rewrite Ho. auto. }
  destruct (faultline_wal_replay_open_with_io os _ _ _ w0) as [[[[r writer] out] report] w1] eqn:Er.
  destruct Himg as (rest & -> & Hrest).
  apply (replay_open_intact os _ _ _ _ recs st rs rest) in Er; try done.
  destruct Er as [(-> & -> & Hready & Hn)|(Hr & -> & Hrep)].
  - intros H. apply (start_session_spec _ _ _ recs st rs) in H as (Hrec & Ho & Hws); try done.
    cbn in Hrec. rewrite Hfn in Hrec. cbn in Ho. rewrite Hfo in Ho.
    destruct res; try (by destruct Hrec).
    { split; [done|]. split; [done|]. rewrite Hws by done. apply (hi_workers _ _ (log_history_inv _ _ _ Hl)). }
    split; [done|]. destruct Hrec as (recs' & st' & rs' & Hpre & Hh).
    split; [apply Hh|]. by eapply halted_extends.
  - intros H. assert (Hres : res = FAULTLINE_STORE_FATAL /\ w1 = world' /\
      store' = fail (store <| wal := writer |> <| replay_report := report |> <| replay_result := r |>)
        FAULTLINE_STORE_FAILURE_OPEN).
    { destruct Hr as [-> | ->]; by injection H as <- <- <-. }
    destruct Hres as (-> & <- & ->).
    destruct (fail_kept (store <| wal := writer |> <| replay_report := report |> <| replay_result := r |>)
      FAULTLINE_STORE_FAILURE_OPEN) as (? & _ & Ho & _); [done|]. rewrite Ho. auto.
Qed.

Lemma open_new store path now world res store' world' :
  fresh store -> path <> [] -> ends_in_slash path = false -> 0 <= now ->
  (forall x, crash os world x -> x = content (view os world)) ->
  faultline_store_open_with_io os store path 1 now world = (res, store', world') ->
  match res with
  | FAULTLINE_STORE_OK =>
      content (view os world) = None /\ opened store' = true /\
      published os store' world' [] initial_replay_state [] /\
      workers (store_workers store') = workers faultline_worker_registry_init
  | FAULTLINE_STORE_FATAL =>
      opened store' = false /\ store_failure store' <> FAULTLINE_STORE_FAILURE_NONE /\
      match content (view os world) with
      | Some c => settled os world' c
      | None => forall x, crash os world' x -> x = None \/ exists k, x = Some (take k file_header)
      end
  | _ => False
  end.
Proof.
  intros [Hfo Hfi Hfw Hff Hfj Hfr Hfb Hfn] Hp Hsl Hnow Hx.
  unfold faultline_store_open_with_io. rewrite Hfo, Hfi, Hff, bool_decide_eq_true_2 by done.
  rewrite (proj2 (Z.ltb_ge _ _) Hnow). cbn [negb orb andb Z.eqb Pos.eqb].
  destruct (faultline_wal_writer_create_with_io os (wal store) path world) as [[r writer] w1] eqn:Ec.
  apply (create_disk os) in Ec; try done.
  destruct r; try contradiction.
  - destruct Ec as (Hnone & Hready & Hw). unfold start_session, recover_interrupted_jobs.
    replace (sched_count _) with 0%nat by (cbn; by rewrite Hfj). cbn [recover_loop].
    intros [= <- <- <-]. split; [done|]. split; [done|].
    pose proof registry_init_wf as Hreg. rewrite <- Hfr in Hreg.
    split; [|cbn; by rewrite Hfr].
    constructor; [exact Hready|apply history_nil|by rewrite Hw|..]; cbn; try done; try congruence; try ilia.
    + by rewrite Hfr.
    + rewrite Hfr. intros w Hin Hu. by apply init_unused in Hin.
  - intros [= <- <- <-].
    destruct (fail_kept (store <| wal := writer |> <| write_result := FAULTLINE_WAL_WRITE_IO_ERROR |>)
      FAULTLINE_STORE_FAILURE_OPEN) as (? & _ & Ho & _); [done|]. rewrite Ho.
    split; [done|]. split; [done|]. apply Ec.
Qed.

End Opening.

(** ** Properties *)

Section Properties.
Context {W : Type} (os : wal_os W) {FIN : OsFinite os} {DISK : Disk os}.

(** C1: after any sequence of calls on an opened store, under any faults of the disk, a kill at
    any point leaves a log that recovery on any lawful system accepts unless that system itself
    fails. The recovered jobs are the jobs the store showed. Only when the store had failed can
    they be one logged transition ahead: the one it was writing when it failed. *)
Theorem crash_recovery {W2 : Type} (os2 : wal_os W2) {FIN2 : OsFinite os2} {DISK2 : Disk os2}
    ops store world recs st rs store' world' c writer path old world2 res writer2 out report world2' :
  published os store world recs st rs -> opened store = true -> Forall store_op_typed ops ->
  run_store os ops store world = (store', world') -> crash os world' (Some c) ->
  unopened writer -> path <> [] -> ends_in_slash path = false ->
  settled os2 world2 c -> Z.of_nat (length c) <= INT64_MAX ->
  faultline_wal_replay_open_with_io os2 writer path old world2 = (res, writer2, out, report, world2') ->
  ~ crash os world' None /\
  ((res = FAULTLINE_WAL_REPLAY_OK /\ exists st2, out = Some st2 /\
    (rs_scheduler st2 = jobs store' \/
     store_failure store' <> FAULTLINE_STORE_FAILURE_NONE /\
     exists recs0 r st0 rs0 rs2, log_history recs0 st0 rs0 /\ rs_scheduler st0 = jobs store' /\
       log_history (recs0 ++ [r]) st2 rs2)) \/
   ((res = FAULTLINE_WAL_REPLAY_IO_ERROR \/ res = FAULTLINE_WAL_REPLAY_NO_MEMORY) /\ out = None)).
Proof.
  intros HP Ho Hops Hrun Hc Hu Hp Hsl Hset Hlen Hopen.
  assert (tracked os store' world' recs) as HT.
  { assert (tracked os store world recs) as HT by (split; [done|]; exists recs, st, rs; auto).
    pose proof (run_store_tracked os ops _ _ _ HT Hops) as HT'. by rewrite Hrun in HT'. }
  split.
  { intros Hn. destruct (tracked_image os _ _ _ _ HT Hn) as (? & ? & ? & ? & _). done. }
  destruct (tracked_image os _ _ _ _ HT Hc) as (c' & recs' & st' & [= <-] & _ & [rs' Hl] & Himg & Hj).
  pose proof (image_bytes _ _ _ _ Hl Himg) as Hb. destruct Himg as (rest & -> & Hrest).
  apply (replay_open_intact os2 _ _ _ _ recs' st' rs' rest) in Hopen; try done.
  destruct Hopen as [(-> & -> & _)|(Hres & -> & _)]; [left|right; done].
  split; [done|]. exists st'. split; [done|].
  destruct Hj as [|[Hf (recs0 & r & st0 & rs0 & -> & Hl0 & Hj)]]; [by left|right].
  split; [done|]. exists recs0, r, st0, rs0, rs'. auto.
Qed.

(** C13: opening the store on the log a kill left succeeds with the jobs of that log, and takes
    every job from its worker of the session before, and changes nothing else: a job that was with
    a worker has failed with the worker lost, at the last time of the log, every other job is as it
    was, and the log has grown by exactly one record for each of the former, in order. So no job is
    left active, and the counter tells how many were. If the disk fails the store is not opened,
    and what is on the disk still extends the log. *)
Theorem open_recovers path now world recs st rs c res store' world' :
  path <> [] -> ends_in_slash path = false -> 0 <= now ->
  image_of recs c -> log_history recs st rs -> settled os world c ->
  Z.of_nat (length c) <= INT64_MAX ->
  faultline_store_open_with_io os faultline_store_init path 0 now world = (res, store', world') ->
  let time := rs_job_time_base_ms st in
  match res with
  | FAULTLINE_STORE_OK =>
      opened store' = true /\
      interrupted_jobs store' = length (filter active_job (live (rs_scheduler st))) /\
      (forall j, j ∈ live (jobs store') -> ~ active_job j) /\
      live (jobs store') = recovered_job time <$> live (rs_scheduler st) /\
      exists st' rs', published os store' world'
        (recs ++ loss_records time (Z.of_nat (length recs) + 1) (live (rs_scheduler st))) st' rs'
  | FAULTLINE_STORE_FATAL =>
      opened store' = false /\ store_failure store' <> FAULTLINE_STORE_FAILURE_NONE /\
      extends os world' recs
  | _ => False
  end.
Proof.
  intros Hp Hsl Hnow Himg Hl Hset Hlen H.
  apply (open_existing os _ _ _ _ recs st rs c) in H; try done.
  destruct res; try done. destruct H as (Ho & (HP & Hlive & Hn) & _).
  split; [done|]. split; [by rewrite Hn|]. split; [|by split].
  rewrite Hlive. apply recovered_inactive.
Qed.

(** Opening a new store creates the log exclusively. On success the log holds its header and
    nothing a kill leaves differs from it; an existing file is never changed, and a failed
    creation leaves no file or a part of the header. *)
Theorem open_creates path now world res store' world' :
  path <> [] -> ends_in_slash path = false -> 0 <= now ->
  (forall x, crash os world x -> x = content (view os world)) ->
  faultline_store_open_with_io os faultline_store_init path 1 now world = (res, store', world') ->
  match res with
  | FAULTLINE_STORE_OK =>
      content (view os world) = None /\ opened store' = true /\
      published os store' world' [] initial_replay_state []
  | FAULTLINE_STORE_FATAL =>
      opened store' = false /\ store_failure store' <> FAULTLINE_STORE_FAILURE_NONE /\
      match content (view os world) with
      | Some c => settled os world' c
      | None => forall x, crash os world' x -> x = None \/ exists k, x = Some (take k file_header)
      end
  | _ => False
  end.
Proof.
  intros ? ? ? ? H. apply (open_new os) in H; try done. destruct res; try done.
  destruct H as (? & ? & ? & _). done.
Qed.

(** C10: every operation of an opened store is write-ahead. Success means that its record is in
    the log, settled on the disk, and that the store shows the state the log leads to. A refused
    operation changes neither the jobs, nor the registry, nor the disk. A fatal error leaves the
    jobs and the registry as they were, with at most the one record in doubt. *)
Theorem store_write_ahead store world recs st rs :
  published os store world recs st rs -> opened store = true ->
  (forall fd now res id store' world',
     faultline_store_register os store fd now world = (res, id, store', world') ->
     outcome os res store world store' world' recs st rs) /\
  (forall p now res id store' world', submit_typed p ->
     faultline_store_submit os store p now world = (res, id, store', world') ->
     outcome os res store world store' world' recs st rs) /\
  (forall worker now res out store' world',
     faultline_store_assign os store worker now world = (res, out, store', world') ->
     outcome os res store world store' world' recs st rs) /\
  (forall worker report now res store' world', report_typed report ->
     faultline_store_report os store worker report now world = (res, store', world') ->
     outcome os res store world store' world' recs st rs) /\
  (forall worker now res store' world',
     faultline_store_worker_lost os store worker now world = (res, store', world') ->
     outcome os res store world store' world' recs st rs).
Proof.
  intros HP Ho. split; [|split; [|split; [|split]]]; intros.
  - by eapply register_outcome.
  - by eapply submit_outcome.
  - by eapply assign_outcome.
  - by eapply report_outcome.
  - by eapply worker_lost_outcome.
Qed.

(** C28: a store that has failed, or was never opened, stays as it is: every operation returns the
    fatal result and touches neither the store nor the disk. *)
Theorem failed_store_frozen store world :
  opened store = false \/ store_failure store <> FAULTLINE_STORE_FAILURE_NONE ->
  forall fd worker p report now,
  faultline_store_register os store fd now world = (FAULTLINE_STORE_FATAL, None, store, world) /\
  faultline_store_submit os store p now world = (FAULTLINE_STORE_FATAL, None, store, world) /\
  faultline_store_assign os store worker now world = (FAULTLINE_STORE_FATAL, None, store, world) /\
  faultline_store_report os store worker report now world = (FAULTLINE_STORE_FATAL, store, world) /\
  faultline_store_worker_lost os store worker now world = (FAULTLINE_STORE_FATAL, store, world).
Proof.
  intros H fd worker p report now.
  assert (Hu : usable store = false).
  { unfold usable. destruct H as [->|H]; [done|]. rewrite bool_decide_eq_false_2 by done.
    apply andb_false_r. }
  unfold faultline_store_register, faultline_store_submit, faultline_store_assign,
    faultline_store_report, faultline_store_worker_lost. by rewrite Hu.
Qed.

End Properties.

(** ** Witnesses *)

(** A worker registers, a job is submitted, assigned and started; the write of a second
    submission is torn. *)
Definition sample_session : list store_op :=
  [StoreRegister 7 100; StoreSubmit sample_payload 110; StoreAssign 1 120;
   StoreReport 1 (MsgJobStarted (mk_identity 1 1 1)) 130; StoreHeartbeat 1 7 135;
   StoreSubmit sample_payload 140].

Definition sample_machine : sim := blank_disk (replicate 16 Proceed ++ [Torn 30 5]).

Definition sample_open : faultline_store_result * faultline_coordinator_store * sim :=
  faultline_store_open_with_io sim_os faultline_store_init sample_path 1 90 sample_machine.

Definition sample_store : faultline_coordinator_store := snd (fst sample_open).
Definition sample_world : sim := snd sample_open.

Definition sample_end : faultline_coordinator_store * sim :=
  run_store sim_os sample_session sample_store sample_world.

Lemma sample_open_ok : sample_open = (FAULTLINE_STORE_OK, sample_store, sample_world).
Proof. vm_compute. reflexivity. Qed.

Lemma sample_published : published sim_os sample_store sample_world [] initial_replay_state [] /\
  opened sample_store = true.
Proof.
  pose proof sample_open_ok as H. unfold sample_open in H.
  apply (open_new sim_os) in H; [|apply init_fresh|apply sample_path_ok..|lia|apply blank_disk_settled].
  split; apply H.
Qed.

Lemma sample_session_typed : Forall store_op_typed sample_session.
Proof. repeat constructor; try done; apply sample_payload_typed. Qed.

(** One of the images the torn write leaves: the cut record is in the file. *)
Definition sample_image : list Z := default [] (mjoin (sim_images (snd sample_end) !! 20%nat)).

Lemma sample_image_crash :
  crash sim_os (snd (run_store sim_os sample_session sample_store sample_world)) (Some sample_image).
Proof. apply list_elem_of_lookup. exists 20%nat. vm_compute. reflexivity. Qed.

Lemma sample_image_size : Z.of_nat (length sample_image) <= INT64_MAX.
Proof. apply Z.leb_le. vm_compute. reflexivity. Qed.

Lemma sample_recovery_ok :
  fst (fst (fst (fst (faultline_wal_replay_open_with_io sim_os FAULTLINE_WAL_WRITER_INIT
    sample_path zero_report (restarted_disk sample_image []))))) = FAULTLINE_WAL_REPLAY_OK.
Proof. vm_compute. reflexivity. Qed.

Lemma crash_recovery_witness :
  let '(store', world') := run_store sim_os sample_session sample_store sample_world in
  let '(res, _, out, _, _) := faultline_wal_replay_open_with_io sim_os FAULTLINE_WAL_WRITER_INIT
    sample_path zero_report (restarted_disk sample_image []) in
  ~ crash sim_os world' None /\ res = FAULTLINE_WAL_REPLAY_OK /\
  exists st2, out = Some st2 /\
    (rs_scheduler st2 = jobs store' \/
     store_failure store' <> FAULTLINE_STORE_FAILURE_NONE /\
     exists recs0 r st0 rs0 rs2, log_history recs0 st0 rs0 /\
       rs_scheduler st0 = jobs store' /\ log_history (recs0 ++ [r]) st2 rs2).
Proof.
  pose proof sample_recovery_ok as Hok. pose proof sample_image_crash as Hcrash.
  destruct (faultline_wal_replay_open_with_io _ _ _ _ _) as [[[[res writer'] out] report] world2'] eqn:E.
  destruct (run_store _ _ _ _) as [store' world'] eqn:Erun. cbn [fst snd] in *. subst res.
  destruct (crash_recovery sim_os sim_os sample_session sample_store sample_world [] initial_replay_state []
    store' world' sample_image FAULTLINE_WAL_WRITER_INIT sample_path zero_report
    (restarted_disk sample_image []) FAULTLINE_WAL_REPLAY_OK writer' out report world2'
    (proj1 sample_published) (proj2 sample_published) sample_session_typed Erun Hcrash fresh_writer
    (proj1 sample_path_ok) (proj2 sample_path_ok) (restarted_settled sample_image []) sample_image_size E)
    as [Hn [H|[[H|H] _]]]; [split; [exact Hn|exact H]|discriminate H..].
Defined.

(** A log with a job that a worker of the session before still has. *)
Definition assigned_record : faultline_wal_record :=
  job_record FAULTLINE_WAL_JOB_ASSIGNED 3 (snd (faultline_job_assign sample_job 1 1500)).

Definition before_assigned : faultline_wal_replay_state :=
  (allocated_state sample_replayed 1) <| rs_last_sequence := 2 |>.

Definition assigned_state : faultline_wal_replay_state :=
  match apply_job_record before_assigned (mk_index (grown_ranges [] 1) 0) assigned_record
          (record_bytes assigned_record) with
  | inr st => st
  | inl _ => before_assigned
  end.

Lemma assigned_record_ok : record_typed assigned_record /\ record_ok assigned_record.
Proof.
  apply job_record_ok; [|done|done|done].
  apply (job_assign_wf sample_job 1 1500); [done|apply sample_job_wf|done|done].
Qed.

Lemma assigned_applied :
  apply_job_record before_assigned (mk_index (grown_ranges [] 1) 0) assigned_record
    (record_bytes assigned_record) = inr assigned_state.
Proof. vm_compute. reflexivity. Qed.

Definition assigned_log : list faultline_wal_record := [first_record; second_record; assigned_record].

Lemma assigned_history :
  log_history assigned_log (assigned_state <| rs_last_sequence := 3 |>) (grown_ranges [] 1).
Proof.
  apply (history_job [first_record; second_record] before_assigned _ assigned_record);
    [|apply assigned_record_ok..|done|done|apply assigned_applied].
  apply (history_worker [first_record] sample_replayed [] second_record);
    [apply sample_history|apply second_record_ok..|vm_compute; reflexivity|done|vm_compute; reflexivity].
Qed.

Lemma assigned_image : image_of assigned_log (log_bytes assigned_log).
Proof. exists []. split; [by rewrite app_nil_r|by left]. Qed.

Lemma assigned_log_size : Z.of_nat (length (log_bytes assigned_log)) <= INT64_MAX.
Proof. apply Z.leb_le. vm_compute. reflexivity. Qed.

Lemma assigned_interrupted :
  length (filter active_job (live (rs_scheduler (assigned_state <| rs_last_sequence := 3 |>)))) = 1%nat.
Proof. vm_compute. reflexivity. Qed.

Lemma assigned_open_ok :
  fst (fst (faultline_store_open_with_io sim_os faultline_store_init sample_path 0 90
    (restarted_disk (log_bytes assigned_log) []))) = FAULTLINE_STORE_OK.
Proof. vm_compute. reflexivity. Qed.

Lemma open_recovers_witness :
  let '(res, store', world') := faultline_store_open_with_io sim_os faultline_store_init sample_path
    0 90 (restarted_disk (log_bytes assigned_log) []) in
  res = FAULTLINE_STORE_OK /\ opened store' = true /\ interrupted_jobs store' = 1%nat /\
  (forall j, j ∈ live (jobs store') -> ~ active_job j) /\
  live (jobs store') = recovered_job (rs_job_time_base_ms assigned_state) <$> live (rs_scheduler assigned_state) /\
  exists st' rs', published sim_os store' world'
    (assigned_log ++ loss_records (rs_job_time_base_ms assigned_state) 4 (live (rs_scheduler assigned_state))) st' rs'.
Proof.
  pose proof assigned_open_ok as Hok. pose proof assigned_interrupted as Hn.
  destruct (faultline_store_open_with_io _ _ _ _ _ _) as [[res store'] world'] eqn:E.
  cbn [fst] in Hok. subst res.
  pose proof (open_recovers sim_os sample_path 90 (restarted_disk (log_bytes assigned_log) []) assigned_log
    _ _ (log_bytes assigned_log) FAULTLINE_STORE_OK store' world' (proj1 sample_path_ok)
    (proj2 sample_path_ok) ltac:(lia) assigned_image assigned_history
    (restarted_settled (log_bytes assigned_log) []) assigned_log_size E) as H.
  cbv iota in H. rewrite Hn in H. split; [reflexivity|exact H].
Defined.

Lemma open_creates_witness :
  let '(res, store', world') := faultline_store_open_with_io sim_os faultline_store_init sample_path
    1 90 sample_machine in
  res = FAULTLINE_STORE_OK /\ content (view sim_os sample_machine) = None /\ opened store' = true /\
  published sim_os store' world' [] initial_replay_state [].
Proof.
  pose proof (f_equal (fun o => fst (fst o)) sample_open_ok) as Hok. unfold sample_open in Hok.
  destruct (faultline_store_open_with_io _ _ _ _ _ _) as [[res store'] world'] eqn:E.
  cbn [fst] in Hok. subst res.
  pose proof (open_creates sim_os sample_path 90 sample_machine FAULTLINE_STORE_OK store' world'
    (proj1 sample_path_ok) (proj2 sample_path_ok) ltac:(lia) (blank_disk_settled _) E) as H.
  split; [reflexivity|exact H].
Defined.

Lemma store_write_ahead_witness :
  let '(res, _, store', world') :=
    faultline_store_submit sim_os sample_store sample_payload 110 sample_world in
  outcome sim_os res sample_store sample_world store' world' [] initial_replay_state [].
Proof.
  destruct (faultline_store_submit _ _ _ _ _) as [[[res id] store'] world'] eqn:E.
  exact (proj1 (proj2 (store_write_ahead sim_os sample_store sample_world [] initial_replay_state []
    (proj1 sample_published) (proj2 sample_published))) sample_payload 110 res id store' world'
    sample_payload_typed E).
Defined.

Lemma failed_store_frozen_witness :
  faultline_store_submit sim_os faultline_store_init sample_payload 110 sample_world =
  (FAULTLINE_STORE_FATAL, None, faultline_store_init, sample_world).
Proof.
  exact (proj1 (proj2 (failed_store_frozen sim_os faultline_store_init sample_world (or_introl eq_refl)
    0 0 sample_payload (MsgJobStarted (mk_identity 1 1 1)) 110))).
Defined.
