(* ===== verification/CoordinatorStats.v ===== *)
(** The statistics of the coordinator: [include/coordinator_stats.h],
    [src/coordinator/coordinator_stats.c].

    A function returns [None] for -1; the output is then left as it was. *)

From S2P Require Import Prelude Job JobQueue WorkerRegistry Protocol Scheduler WalWriter.
From S2P Require Import WalReplay CoordinatorStore.

Record faultline_stats_session := mk_session {
  ready_at_ms : Z;
  sess_startup_duration_ms : Z;
  sess_startup_interrupted_jobs : Z;
  submitted_at_start : Z;
  completed_at_start : Z;
  failed_at_start : Z;
  retries_at_start : Z;
}.

Definition zero_stats : faultline_stats_payload :=
  mk_stats 0 0 0 0 0 0 0 0 0 0 0 0 0 0 0 0 0 0 0 0 0 0 0 0.

#[export] Instance set_jobs_submitted_total : Setter jobs_submitted_total :=
  fun v '(mk_stats _ b c d e f g h i j k l m n o p q r s t u w x y) =>
    mk_stats v b c d e f g h i j k l m n o p q r s t u w x y.
#[export] Instance set_jobs_queued : Setter jobs_queued :=
  fun v '(mk_stats a _ c d e f g h i j k l m n o p q r s t u w x y) =>
    mk_stats a v c d e f g h i j k l m n o p q r s t u w x y.
#[export] Instance set_jobs_assigned : Setter jobs_assigned :=
  fun v '(mk_stats a b _ d e f g h i j k l m n o p q r s t u w x y) =>
    mk_stats a b v d e f g h i j k l m n o p q r s t u w x y.
#[export] Instance set_jobs_running : Setter jobs_running :=
  fun v '(mk_stats a b c _ e f g h i j k l m n o p q r s t u w x y) =>
    mk_stats a b c v e f g h i j k l m n o p q r s t u w x y.
#[export] Instance set_jobs_completed_total : Setter jobs_completed_total :=
  fun v '(mk_stats a b c d _ f g h i j k l m n o p q r s t u w x y) =>
    mk_stats a b c d v f g h i j k l m n o p q r s t u w x y.
#[export] Instance set_jobs_failed_total : Setter jobs_failed_total :=
  fun v '(mk_stats a b c d e _ g h i j k l m n o p q r s t u w x y) =>
    mk_stats a b c d e v g h i j k l m n o p q r s t u w x y.
#[export] Instance set_job_attempts_total : Setter job_attempts_total :=
  fun v '(mk_stats a b c d e f _ h i j k l m n o p q r s t u w x y) =>
    mk_stats a b c d e f v h i j k l m n o p q r s t u w x y.
#[export] Instance set_job_retries_total : Setter job_retries_total :=
  fun v '(mk_stats a b c d e f g _ i j k l m n o p q r s t u w x y) =>
    mk_stats a b c d e f g v i j k l m n o p q r s t u w x y.
#[export] Instance set_completed_latency_avg_ms : Setter completed_latency_avg_ms :=
  fun v '(mk_stats a b c d e f g h _ j k l m n o p q r s t u w x y) =>
    mk_stats a b c d e f g h v j k l m n o p q r s t u w x y.
#[export] Instance set_workers_retained : Setter workers_retained :=
  fun v '(mk_stats a b c d e f g h i _ k l m n o p q r s t u w x y) =>
    mk_stats a b c d e f g h i v k l m n o p q r s t u w x y.
#[export] Instance set_workers_alive : Setter workers_alive :=
  fun v '(mk_stats a b c d e f g h i j _ l m n o p q r s t u w x y) =>
    mk_stats a b c d e f g h i j v l m n o p q r s t u w x y.
#[export] Instance set_workers_expired : Setter workers_expired :=
  fun v '(mk_stats a b c d e f g h i j k _ m n o p q r s t u w x y) =>
    mk_stats a b c d e f g h i j k v m n o p q r s t u w x y.
#[export] Instance set_workers_dead : Setter workers_dead :=
  fun v '(mk_stats a b c d e f g h i j k l _ n o p q r s t u w x y) =>
    mk_stats a b c d e f g h i j k l v n o p q r s t u w x y.
#[export] Instance set_workers_busy : Setter workers_busy :=
  fun v '(mk_stats a b c d e f g h i j k l m _ o p q r s t u w x y) =>
    mk_stats a b c d e f g h i j k l m v o p q r s t u w x y.
#[export] Instance set_workers_idle : Setter workers_idle :=
  fun v '(mk_stats a b c d e f g h i j k l m n _ p q r s t u w x y) =>
    mk_stats a b c d e f g h i j k l m n v p q r s t u w x y.
#[export] Instance set_session_uptime_ms : Setter session_uptime_ms :=
  fun v '(mk_stats a b c d e f g h i j k l m n o _ q r s t u w x y) =>
    mk_stats a b c d e f g h i j k l m n o v q r s t u w x y.
#[export] Instance set_session_jobs_submitted : Setter session_jobs_submitted :=
  fun v '(mk_stats a b c d e f g h i j k l m n o p _ r s t u w x y) =>
    mk_stats a b c d e f g h i j k l m n o p v r s t u w x y.
#[export] Instance set_session_jobs_completed : Setter session_jobs_completed :=
  fun v '(mk_stats a b c d e f g h i j k l m n o p q _ s t u w x y) =>
    mk_stats a b c d e f g h i j k l m n o p q v s t u w x y.
#[export] Instance set_session_jobs_failed : Setter session_jobs_failed :=
  fun v '(mk_stats a b c d e f g h i j k l m n o p q r _ t u w x y) =>
    mk_stats a b c d e f g h i j k l m n o p q r v t u w x y.
#[export] Instance set_session_job_retries : Setter session_job_retries :=
  fun v '(mk_stats a b c d e f g h i j k l m n o p q r s _ u w x y) =>
    mk_stats a b c d e f g h i j k l m n o p q r s v u w x y.
#[export] Instance set_startup_jobs_recovered : Setter startup_jobs_recovered :=
  fun v '(mk_stats a b c d e f g h i j k l m n o p q r s t _ w x y) =>
    mk_stats a b c d e f g h i j k l m n o p q r s t v w x y.
#[export] Instance set_startup_interrupted_jobs : Setter startup_interrupted_jobs :=
  fun v '(mk_stats a b c d e f g h i j k l m n o p q r s t u _ x y) =>
    mk_stats a b c d e f g h i j k l m n o p q r s t u v x y.
#[export] Instance set_startup_duration_ms : Setter startup_duration_ms :=
  fun v '(mk_stats a b c d e f g h i j k l m n o p q r s t u w _ y) =>
    mk_stats a b c d e f g h i j k l m n o p q r s t u w v y.
#[export] Instance set_heartbeat_timeout_ms : Setter heartbeat_timeout_ms :=
  fun v '(mk_stats a b c d e f g h i j k l m n o p q r s t u w x _) =>
    mk_stats a b c d e f g h i j k l m n o p q r s t u w x v.

(** ** Jobs *)

(** The switch and the sums of the first loop, for one job. *)
Definition count_state (stats : faultline_stats_payload) (job : faultline_job) :
    option faultline_stats_payload :=
  match job_state job with
  | FAULTLINE_JOB_QUEUED => Some (stats <| jobs_queued := u64 (jobs_queued stats + 1) |>)
  | FAULTLINE_JOB_ASSIGNED => Some (stats <| jobs_assigned := u64 (jobs_assigned stats + 1) |>)
  | FAULTLINE_JOB_RUNNING => Some (stats <| jobs_running := u64 (jobs_running stats + 1) |>)
  | FAULTLINE_JOB_DONE =>
      Some (stats <| jobs_completed_total := u64 (jobs_completed_total stats + 1) |>)
  | FAULTLINE_JOB_FAILED =>
      Some (stats <| jobs_failed_total := u64 (jobs_failed_total stats + 1) |>)
  | JOB_STATE_OTHER _ => None
  end.

Fixpoint count_jobs (jobs : list faultline_job) (stats : faultline_stats_payload) :
    option faultline_stats_payload :=
  match jobs with
  | [] => Some stats
  | job :: jobs =>
      match count_state stats job with
      | None => None
      | Some stats =>
          if (max_retries job <? retry_count job) ||
             (attempt job !=? u64 (retry_count job +
                if bool_decide (job_state job = FAULTLINE_JOB_QUEUED) then 0 else 1))
          then None
          else
            count_jobs jobs
              (stats <| job_attempts_total := u64 (job_attempts_total stats + attempt job) |>
                     <| job_retries_total := u64 (job_retries_total stats + retry_count job) |>)
      end
  end.

(** The second loop: the whole part of the mean so far, and the sum of the remainders. *)
Fixpoint add_latencies (jobs : list faultline_job) (stats : faultline_stats_payload)
    (remainder : Z) : option (faultline_stats_payload * Z) :=
  match jobs with
  | [] => Some (stats, remainder)
  | job :: jobs =>
      if negb (bool_decide (job_state job = FAULTLINE_JOB_DONE)) then
        add_latencies jobs stats remainder
      else if (created_at_ms job <? 0) || (finished_at_ms job <? created_at_ms job) then None
      else
        let latency := u64 (finished_at_ms job - created_at_ms job) in
        add_latencies jobs
          (stats <| completed_latency_avg_ms :=
             u64 (completed_latency_avg_ms stats + latency / jobs_completed_total stats) |>)
          (u64 (remainder + latency mod jobs_completed_total stats))
  end.

Definition collect_jobs (store : faultline_coordinator_store) (stats : faultline_stats_payload) :
    option faultline_stats_payload :=
  if negb (opened store) ||
     negb (bool_decide (store_failure store = FAULTLINE_STORE_FAILURE_NONE)) ||
     (FAULTLINE_JOBS_MAX_ENTRIES <? Z.of_nat (sched_count (jobs store))) then None
  else
    let listed := take (sched_count (jobs store)) (sched_jobs (jobs store)) in
    match count_jobs listed
            (stats <| jobs_submitted_total := Z.of_nat (sched_count (jobs store)) |>) with
    | None => None
    | Some stats =>
        match add_latencies listed stats 0 with
        | None => None
        | Some (stats, remainder) =>
            Some (if jobs_completed_total stats !=? 0 then
                    stats <| completed_latency_avg_ms :=
                      u64 (completed_latency_avg_ms stats + remainder / jobs_completed_total stats) |>
                  else stats)
        end
    end.

(** ** Session and snapshot *)

Definition faultline_stats_begin (store : faultline_coordinator_store) (now_ms : Z) :
    option faultline_stats_session :=
  if (session_start_ms store <? 0) || (now_ms <? session_start_ms store) then None
  else
    match collect_jobs store zero_stats with
    | None => None
    | Some baseline =>
        if (sched_count (jobs store) <? interrupted_jobs store)%nat then None
        else Some {| ready_at_ms := now_ms;
                     sess_startup_duration_ms := u64 (now_ms - session_start_ms store);
                     sess_startup_interrupted_jobs := Z.of_nat (interrupted_jobs store);
                     submitted_at_start := jobs_submitted_total baseline;
                     completed_at_start := jobs_completed_total baseline;
                     failed_at_start := jobs_failed_total baseline;
                     retries_at_start := job_retries_total baseline |}
    end.

(** The loop over the registry. *)
Fixpoint count_workers (scheduler : faultline_scheduler) (now_ms timeout_ms : Z)
    (l : list faultline_worker) (stats : faultline_stats_payload) :
    option faultline_stats_payload :=
  match l with
  | [] => Some stats
  | worker :: l =>
      if bool_decide (w_state worker = FAULTLINE_WORKER_UNUSED) then
        count_workers scheduler now_ms timeout_ms l stats
      else
        let stats := stats <| workers_retained := u64 (workers_retained stats + 1) |> in
        if bool_decide (w_state worker = FAULTLINE_WORKER_DEAD) then
          count_workers scheduler now_ms timeout_ms l
            (stats <| workers_dead := u64 (workers_dead stats + 1) |>)
        else if negb (bool_decide (w_state worker = FAULTLINE_WORKER_ALIVE)) ||
                (w_last_heartbeat_ms worker <? 0) || (now_ms <? w_last_heartbeat_ms worker) then None
        else if faultline_worker_timed_out (Some worker) now_ms timeout_ms then
          count_workers scheduler now_ms timeout_ms l
            (stats <| workers_expired := u64 (workers_expired stats + 1) |>)
        else
          let stats := stats <| workers_alive := u64 (workers_alive stats + 1) |> in
          count_workers scheduler now_ms timeout_ms l
            (if bool_decide (faultline_scheduler_active scheduler (w_id worker) <> None) then
               stats <| workers_busy := u64 (workers_busy stats + 1) |>
             else stats <| workers_idle := u64 (workers_idle stats + 1) |>)
  end.

Definition faultline_stats_snapshot (session : faultline_stats_session)
    (store : faultline_coordinator_store) (now_ms heartbeat_timeout : Z) :
    option faultline_stats_payload :=
  if (ready_at_ms session <? 0) || (now_ms <? ready_at_ms session) || (heartbeat_timeout <=? 0)
  then None
  else
    match collect_jobs store zero_stats with
    | None => None
    | Some stats =>
        if (jobs_submitted_total stats <? submitted_at_start session) ||
           (jobs_completed_total stats <? completed_at_start session) ||
           (jobs_failed_total stats <? failed_at_start session) ||
           (job_retries_total stats <? retries_at_start session) then None
        else
          count_workers (jobs store) now_ms heartbeat_timeout (workers (store_workers store))
            (stats <| session_uptime_ms := u64 (now_ms - ready_at_ms session) |>
                   <| session_jobs_submitted := u64 (jobs_submitted_total stats - submitted_at_start session) |>
                   <| session_jobs_completed := u64 (jobs_completed_total stats - completed_at_start session) |>
                   <| session_jobs_failed := u64 (jobs_failed_total stats - failed_at_start session) |>
                   <| session_job_retries := u64 (job_retries_total stats - retries_at_start session) |>
                   <| startup_jobs_recovered := submitted_at_start session |>
                   <| startup_interrupted_jobs := sess_startup_interrupted_jobs session |>
                   <| startup_duration_ms := sess_startup_duration_ms session |>
                   <| heartbeat_timeout_ms := u64 heartbeat_timeout |>)
    end.
