(* ===== verification/StatsProofs.v ===== *)
(** The statistics are exact: every counter is the number it names, the mean latency is the
    floored mean over unbounded integers, and a snapshot always passes the protocol's check. *)

From S2P Require Import Prelude Job JobQueue WorkerRegistry Protocol ProtocolProofs Scheduler.
From S2P Require Import SchedulerProofs Wal WalProofs WalWriter Disk SimDisk WriterProofs.
From S2P Require Import WalReplay ReplayProofs ReplayDisk CoordinatorStore StoreProofs Durability.
From S2P Require Import StoreRecovery CoordinatorStats.

(** ** What the counters mean *)

Definition has_state (s : faultline_job_state) (j : faultline_job) : bool :=
  bool_decide (job_state j = s).

Definition in_state (s : faultline_job_state) (l : list faultline_job) : Z :=
  Z.of_nat (length (filter (has_state s) l)).

Definition total (f : faultline_job -> Z) (l : list faultline_job) : Z := foldr Z.add 0 (f <$> l).

Definition latency (j : faultline_job) : Z := finished_at_ms j - created_at_ms j.

Definition done_jobs (l : list faultline_job) : list faultline_job :=
  filter (has_state FAULTLINE_JOB_DONE) l.

(** The mean over the completed jobs, rounded down. *)
Definition mean_latency (l : list faultline_job) : Z :=
  total latency (done_jobs l) / Z.of_nat (length (done_jobs l)).

Definition job_stats (l : list faultline_job) : faultline_stats_payload :=
  mk_stats (Z.of_nat (length l)) (in_state FAULTLINE_JOB_QUEUED l) (in_state FAULTLINE_JOB_ASSIGNED l)
    (in_state FAULTLINE_JOB_RUNNING l) (in_state FAULTLINE_JOB_DONE l)
    (in_state FAULTLINE_JOB_FAILED l) (total attempt l) (total retry_count l) (mean_latency l)
    0 0 0 0 0 0 0 0 0 0 0 0 0 0 0.

Lemma in_state_cons s j l :
  in_state s (j :: l) = in_state s l + (if has_state s j then 1 else 0).
Proof. unfold in_state. rewrite filter_cons. destruct (has_state s j); simpl; lia. Qed.

(** Decides the tests of known states. *)
Ltac has_states :=
  repeat first [rewrite bool_decide_eq_true_2 by done | rewrite bool_decide_eq_false_2 by done].

Lemma has_state_true s j : has_state s j = true <-> job_state j = s.
Proof. apply bool_decide_eq_true. Qed.

Lemma in_state_le s l : 0 <= in_state s l <= Z.of_nat (length l).
Proof. unfold in_state. pose proof (length_filter (has_state s) l). lia. Qed.

Lemma total_cons f j l : total f (j :: l) = f j + total f l.
Proof. done. Qed.

Lemma total_bound f l lo hi :
  Forall (fun j => lo <= f j <= hi) l ->
  lo * Z.of_nat (length l) <= total f l <= hi * Z.of_nat (length l).
Proof. induction 1 as [|j l Hj _ IH]; [unfold total; simpl; lia|]. rewrite total_cons. simpl length. lia. Qed.

Lemma wf_attempt j :
  job_wf j -> attempt j = retry_count j + (if has_state FAULTLINE_JOB_QUEUED j then 0 else 1).
Proof.
  intros Hwf. pose proof (wf_state _ Hwf) as Hs. unfold job_state_wf, owned, has_state in *.
  destruct (job_state j); try done; has_states; destruct_and!; lia.
Qed.

Lemma attempts_retries l :
  Forall job_wf l ->
  total attempt l = total retry_count l + (Z.of_nat (length l) - in_state FAULTLINE_JOB_QUEUED l).
Proof.
  induction 1 as [|j l Hj _ IH]; [done|].
  rewrite !total_cons, in_state_cons, (wf_attempt j Hj), IH. simpl length. destruct (has_state _ j); lia.
Qed.

Lemma states_partition l :
  Forall job_wf l ->
  in_state FAULTLINE_JOB_QUEUED l + in_state FAULTLINE_JOB_ASSIGNED l +
  in_state FAULTLINE_JOB_RUNNING l + in_state FAULTLINE_JOB_DONE l +
  in_state FAULTLINE_JOB_FAILED l = Z.of_nat (length l).
Proof.
  induction 1 as [|j l Hj _ IH]; [done|]. rewrite !in_state_cons. simpl length.
  pose proof (wf_state _ Hj) as Hs. unfold job_state_wf, has_state in *.
  destruct (job_state j); try done; has_states; lia.
Qed.

(** ** The loops *)

Definition small (x : Z) : Prop := 0 <= x < 2 ^ 63.

Lemma count_state_ok j n q a r c f att ret z :
  job_wf j -> small q -> small a -> small r -> small c -> small f ->
  count_state (mk_stats n q a r c f att ret z 0 0 0 0 0 0 0 0 0 0 0 0 0 0 0) j =
  Some (mk_stats n (q + if has_state FAULTLINE_JOB_QUEUED j then 1 else 0)
    (a + if has_state FAULTLINE_JOB_ASSIGNED j then 1 else 0)
    (r + if has_state FAULTLINE_JOB_RUNNING j then 1 else 0)
    (c + if has_state FAULTLINE_JOB_DONE j then 1 else 0)
    (f + if has_state FAULTLINE_JOB_FAILED j then 1 else 0) att ret z
    0 0 0 0 0 0 0 0 0 0 0 0 0 0 0).
Proof.
  unfold small. intros Hj ? ? ? ? ?. pose proof (wf_state _ Hj) as Hs.
  unfold count_state, job_state_wf, has_state in *. destruct (job_state j); try done; has_states; cbn;
    rewrite ?u64_id by ilia; by rewrite ?Z.add_0_r.
Qed.

Lemma count_jobs_ok l :
  Forall job_wf l -> forall n q a r c f att ret z,
  Forall (fun x => 0 <= x /\ x + Z.of_nat (length l) * 2 ^ 33 < 2 ^ 62) [q; a; r; c; f; att; ret] ->
  count_jobs l (mk_stats n q a r c f att ret z 0 0 0 0 0 0 0 0 0 0 0 0 0 0 0) =
  Some (mk_stats n (q + in_state FAULTLINE_JOB_QUEUED l) (a + in_state FAULTLINE_JOB_ASSIGNED l)
    (r + in_state FAULTLINE_JOB_RUNNING l) (c + in_state FAULTLINE_JOB_DONE l)
    (f + in_state FAULTLINE_JOB_FAILED l) (att + total attempt l) (ret + total retry_count l) z
    0 0 0 0 0 0 0 0 0 0 0 0 0 0 0).
Proof.
  induction 1 as [|j l Hj Hl IH]; intros n q a r c f att ret z Hb.
  - cbn. by rewrite !Z.add_0_r.
  - repeat (apply Forall_cons in Hb as [? Hb]). simpl length in *.
    pose proof (wf_retries _ Hj). pose proof (wf_max_retries _ Hj).
    pose proof (wf_attempt _ Hj) as Hatt. pose proof (wf_state _ Hj) as Hs.
    assert (Hr : retry_count j <= UINT32_MAX) by lia.
    assert (Hguard : (max_retries j <? retry_count j) || (attempt j !=? u64 (retry_count j +
      if bool_decide (job_state j = FAULTLINE_JOB_QUEUED) then 0 else 1)) = false).
    { change (bool_decide _) with (has_state FAULTLINE_JOB_QUEUED j).
      rewrite u64_id by (destruct (has_state _ j); ilia). rewrite Hatt.
      rewrite Z.eqb_refl. cbn [negb]. rewrite orb_false_r. lia. }
    cbn [count_jobs]. rewrite Hguard, !in_state_cons, !total_cons.
    rewrite count_state_ok by (done || unfold small; lia).
    assert (0 <= attempt j <= 2 ^ 32) by (rewrite Hatt; destruct (has_state _ j); ilia).
    cbn. rewrite !u64_id by ilia. rewrite IH.
    + f_equal. f_equal; lia.
    + repeat apply Forall_cons_2; try apply Forall_nil_2;
        repeat match goal with |- context [has_state ?s j] => destruct (has_state s j) end; ilia.
Qed.

Lemma done_latency j :
  job_wf j -> job_state j = FAULTLINE_JOB_DONE ->
  0 <= created_at_ms j <= finished_at_ms j /\ finished_at_ms j <= INT64_MAX.
Proof.
  intros Hwf Hst. pose proof (wf_state _ Hwf) as Hs. pose proof (wf_times _ Hwf).
  pose proof (wf_updated _ Hwf). unfold job_state_wf, owned in Hs. rewrite Hst in Hs.
  destruct_and!. lia.
Qed.

Lemma done_jobs_cons j l :
  done_jobs (j :: l) = if has_state FAULTLINE_JOB_DONE j then j :: done_jobs l else done_jobs l.
Proof. unfold done_jobs. rewrite filter_cons. by destruct (has_state FAULTLINE_JOB_DONE j). Qed.

Lemma add_latencies_ok l :
  Forall job_wf l -> forall stats rem n, jobs_completed_total stats = n ->
  in_state FAULTLINE_JOB_DONE l <= n <= 256 -> 0 <= completed_latency_avg_ms stats ->
  completed_latency_avg_ms stats + in_state FAULTLINE_JOB_DONE l * (INT64_MAX / n) <= INT64_MAX ->
  0 <= rem -> rem + in_state FAULTLINE_JOB_DONE l * n <= 2 ^ 32 ->
  add_latencies l stats rem =
  Some (stats <| completed_latency_avg_ms := completed_latency_avg_ms stats +
                   total (fun j => latency j / n) (done_jobs l) |>,
        rem + total (fun j => latency j mod n) (done_jobs l)).
Proof.
  induction 1 as [|j l Hj Hl IH]; intros stats rem n Hn Hc Ha Hab Hr Hrb.
  { cbn. rewrite !Z.add_0_r. by destruct stats. }
  cbn [add_latencies]. change (bool_decide _) with (has_state FAULTLINE_JOB_DONE j).
  rewrite in_state_cons in *. rewrite done_jobs_cons. pose proof (in_state_le FAULTLINE_JOB_DONE l).
  destruct (has_state FAULTLINE_JOB_DONE j) eqn:Hd; cbn [negb].
  - apply has_state_true in Hd. destruct (done_latency _ Hj Hd) as [Hcr Hfin].
    rewrite (proj2 (Z.ltb_ge _ _)), (proj2 (Z.ltb_ge _ _)) by lia. cbn [orb].
    rewrite Hn. fold (latency j). rewrite (u64_id (latency j)) by (unfold latency; ilia).
    assert (0 <= latency j / n <= INT64_MAX / n).
    { split; [apply Z.div_pos|apply Z.div_le_mono]; unfold latency; lia. }
    pose proof (Z.mod_pos_bound (latency j) n ltac:(lia)).
    assert (0 <= in_state FAULTLINE_JOB_DONE l * (INT64_MAX / n)) by (apply Z.mul_nonneg_nonneg; lia).
    assert (0 <= in_state FAULTLINE_JOB_DONE l * n) by (apply Z.mul_nonneg_nonneg; lia).
    rewrite Z.mul_add_distr_r, Z.mul_1_l in Hab, Hrb.
    rewrite !(u64_id (_ + _)) by ilia. rewrite (IH _ _ n).
    + rewrite !total_cons. f_equal. f_equal; [|lia]. destruct stats. cbn. f_equal. lia.
    + by destruct stats.
    + lia.
    + destruct stats. cbn in *. lia.
    + destruct stats. cbn in *. lia.
    + lia.
    + lia.
  - apply IH; try done; lia.
Qed.

(** The whole parts and the remainders together give the exact mean. *)
Lemma mean_split l n :
  0 < n ->
  total (fun j => latency j / n) l + total (fun j => latency j mod n) l / n = total latency l / n.
Proof.
  intros Hn. rewrite <- Z.div_add_l by lia. f_equal.
  induction l as [|j l IH]; [done|]. rewrite !total_cons, <- IH.
  rewrite (Z.div_mod (latency j) n) at 3 by lia. lia.
Qed.

Lemma mean_latency_bound l : Forall job_wf l -> 0 <= mean_latency l <= INT64_MAX.
Proof.
  intros Hl. unfold mean_latency.
  assert (Forall (fun j => 0 <= latency j <= INT64_MAX) (done_jobs l)) as Hd.
  { apply Forall_forall. intros j [Hj Hin]%list_elem_of_filter.
    apply Is_true_eq_true, has_state_true in Hj.
    pose proof (done_latency j (proj1 (Forall_forall _ _) Hl j Hin) Hj). unfold latency. lia. }
  apply total_bound in Hd. destruct (done_jobs l) as [|j k]; [done|].
  split; [apply Z.div_pos; simpl in *; lia|]. apply Z.div_le_upper_bound; simpl length in *; lia.
Qed.

Lemma collect_jobs_ok store :
  opened store = true -> store_failure store = FAULTLINE_STORE_FAILURE_NONE -> sched_wf (jobs store) ->
  collect_jobs store zero_stats = Some (job_stats (live (jobs store))).
Proof.
  intros Ho Hf Hs. unfold collect_jobs. rewrite Ho, Hf, bool_decide_eq_true_2 by done. cbn [negb orb].
  pose proof (sched_count_le _ Hs) as Hcap. pose proof (live_length _ Hs) as Hlen.
  pose proof (sched_jobs_wf _ Hs) as Hwf.
  unfold FAULTLINE_JOBS_MAX_ENTRIES, FAULTLINE_JOB_STORE_CAPACITY in *.
  rewrite (proj2 (Z.ltb_ge _ _)) by lia.
  fold (live (jobs store)). set (l := live (jobs store)) in *. rewrite <- Hlen.
  change (zero_stats <| jobs_submitted_total := Z.of_nat (length l) |>)
    with (mk_stats (Z.of_nat (length l)) 0 0 0 0 0 0 0 0 0 0 0 0 0 0 0 0 0 0 0 0 0 0 0).
  rewrite count_jobs_ok by (done || (repeat apply Forall_cons_2; try apply Forall_nil_2; lia)).
  rewrite !Z.add_0_l. pose proof (in_state_le FAULTLINE_JOB_DONE l) as Hd.
  set (n := in_state FAULTLINE_JOB_DONE l) in *.
  assert (n * (INT64_MAX / n) <= INT64_MAX).
  { destruct (decide (n = 0)) as [->|]; [done|]. apply Z.mul_div_le. lia. }
  rewrite (add_latencies_ok l Hwf _ _ n); cbn [jobs_completed_total completed_latency_avg_ms];
    try done; try lia; [|nia].
  rewrite !Z.add_0_l. unfold job_stats, mean_latency. fold n.
  change (Z.of_nat (length (done_jobs l))) with n. cbn.
  destruct (Z.eqb_spec n 0) as [Hz|Hnz]; cbn.
  - do 2 f_equal. unfold n, in_state in Hz. unfold done_jobs.
    destruct (filter _ l); [done|simpl in Hz; lia].
  - rewrite mean_split by lia. rewrite u64_id; [done|].
    pose proof (mean_latency_bound l Hwf) as Hm. unfold mean_latency in Hm.
    change (Z.of_nat (length (done_jobs l))) with n in Hm. ilia.
Qed.

(** ** Workers *)

Definition tally (p : faultline_worker -> bool) (l : list faultline_worker) : Z :=
  Z.of_nat (length (filter p l)).

Definition is_used (w : faultline_worker) : bool := negb (bool_decide (w_state w = FAULTLINE_WORKER_UNUSED)).
Definition is_dead (w : faultline_worker) : bool := bool_decide (w_state w = FAULTLINE_WORKER_DEAD).
Definition is_expired (now timeout : Z) (w : faultline_worker) : bool :=
  faultline_worker_timed_out (Some w) now timeout.
Definition is_current (now timeout : Z) (w : faultline_worker) : bool :=
  bool_decide (w_state w = FAULTLINE_WORKER_ALIVE) && negb (is_expired now timeout w).
Definition has_job (s : faultline_scheduler) (w : faultline_worker) : bool :=
  bool_decide (faultline_scheduler_active s (w_id w) <> None).

Lemma tally_cons p w l : tally p (w :: l) = tally p l + (if p w then 1 else 0).
Proof. unfold tally. rewrite filter_cons. destruct (p w); simpl; lia. Qed.

Lemma tally_le p l : 0 <= tally p l <= Z.of_nat (length l).
Proof. unfold tally. pose proof (length_filter p l). lia. Qed.

Definition add_workers (s : faultline_scheduler) (now timeout : Z) (l : list faultline_worker)
    (stats : faultline_stats_payload) : faultline_stats_payload :=
  stats <| workers_retained := workers_retained stats + tally is_used l |>
        <| workers_alive := workers_alive stats + tally (is_current now timeout) l |>
        <| workers_expired := workers_expired stats + tally (is_expired now timeout) l |>
        <| workers_dead := workers_dead stats + tally is_dead l |>
        <| workers_busy := workers_busy stats +
             tally (fun w => is_current now timeout w && has_job s w) l |>
        <| workers_idle := workers_idle stats +
             tally (fun w => is_current now timeout w && negb (has_job s w)) l |>.

(** The clock is not before any heartbeat of a live worker. *)
Definition clock_after (now : Z) (l : list faultline_worker) : Prop :=
  Forall (fun w => alive w -> 0 <= w_last_heartbeat_ms w <= now) l.

Lemma expired_alive now timeout w : is_expired now timeout w = true -> alive w.
Proof.
  unfold is_expired, faultline_worker_timed_out, alive. intros H.
  repeat apply andb_prop in H as [H _]. by apply bool_decide_eq_true in H.
Qed.

Lemma worker_kinds now timeout w :
  match w_state w with
  | FAULTLINE_WORKER_UNUSED =>
      is_used w = false /\ is_dead w = false /\ is_expired now timeout w = false /\
      is_current now timeout w = false
  | FAULTLINE_WORKER_DEAD =>
      is_used w = true /\ is_dead w = true /\ is_expired now timeout w = false /\
      is_current now timeout w = false
  | FAULTLINE_WORKER_ALIVE =>
      is_used w = true /\ is_dead w = false /\
      is_current now timeout w = negb (is_expired now timeout w)
  end.
Proof.
  unfold is_used, is_dead, is_current, is_expired, faultline_worker_timed_out.
  destruct (w_state w); done.
Qed.

Lemma count_workers_ok s now timeout l :
  clock_after now l -> forall stats,
  Forall (fun x => 0 <= x /\ x + Z.of_nat (length l) < 2 ^ 32)
    [workers_retained stats; workers_alive stats; workers_expired stats; workers_dead stats;
     workers_busy stats; workers_idle stats] ->
  count_workers s now timeout l stats = Some (add_workers s now timeout l stats).
Proof.
  induction 1 as [|w l Hw Hl IH]; intros stats Hb.
  { unfold add_workers, tally. cbn. destruct stats; cbn. by rewrite !Z.add_0_r. }
  repeat (apply Forall_cons in Hb as [? Hb]). simpl length in *.
  cbn [count_workers]. pose proof (worker_kinds now timeout w) as Hk. unfold alive in Hw.
  fold (is_expired now timeout w). fold (has_job s w).
  destruct (w_state w); has_states; cbn [negb orb].
  - rewrite IH by (repeat apply Forall_cons_2; try apply Forall_nil_2; lia).
    destruct Hk as (Hu & Hd & He & Hc). unfold add_workers.
    rewrite !tally_cons, Hu, Hd, He, Hc. cbn [andb]. by rewrite !Z.add_0_r.
  - destruct Hk as (Hu & Hd & Hc). destruct (Hw eq_refl).
    rewrite (proj2 (Z.ltb_ge _ _)), (proj2 (Z.ltb_ge _ _)) by lia. cbn [orb].
    unfold add_workers. rewrite !tally_cons, Hu, Hd, Hc.
    destruct (is_expired now timeout w); cbn [negb andb]; [|destruct (has_job s w); cbn [negb andb]];
      (rewrite IH; unfold add_workers; destruct stats; cbn in *; rewrite !u64_id by ilia;
       [f_equal; f_equal; lia|repeat apply Forall_cons_2; try apply Forall_nil_2; lia]).
  - destruct Hk as (Hu & Hd & He & Hc). unfold add_workers. rewrite !tally_cons, Hu, Hd, He, Hc.
    rewrite IH; unfold add_workers; destruct stats; cbn in *; rewrite !u64_id by ilia;
      [f_equal; f_equal; lia|repeat apply Forall_cons_2; try apply Forall_nil_2; lia].
Qed.

Lemma workers_partition now timeout l :
  tally (is_current now timeout) l + tally (is_expired now timeout) l + tally is_dead l =
  tally is_used l.
Proof.
  induction l as [|w l IH]; [done|]. rewrite !tally_cons.
  pose proof (worker_kinds now timeout w) as Hk.
  destruct (w_state w); destruct_and! Hk; repeat case_match; simpl in *; try done; lia.
Qed.

Lemma tally_split (p q : faultline_worker -> bool) l :
  tally (fun w => p w && q w) l + tally (fun w => p w && negb (q w)) l = tally p l.
Proof.
  induction l as [|w l IH]; [done|]. rewrite !tally_cons.
  destruct (p w), (q w); simpl; lia.
Qed.

Lemma NoDup_filter_unique {A} (f : A -> Z) (p : A -> bool) (l : list A) :
  (forall i k v w, l !! i = Some v -> l !! k = Some w -> p v = true -> p w = true ->
    f v = f w -> i = k) ->
  NoDup (f <$> filter p l).
Proof.
  induction l as [|x l IH]; intros H; [constructor|]. rewrite filter_cons.
  assert (NoDup (f <$> filter p l)) as Hl.
  { apply IH. intros i k v w Hv Hw Pv Pw E.
    by assert (S i = S k) as [=] by (apply (H _ _ v w); done). }
  destruct (p x) eqn:Px; cbn; [|done]. apply NoDup_cons. split; [|done].
  intros (w & E & [Pw [k Hk]%list_elem_of_lookup]%list_elem_of_filter)%list_elem_of_fmap.
  apply Is_true_eq_true in Pw. by assert (0%nat = S k) by (apply (H _ _ x w); done).
Qed.

Lemma active_count l :
  Z.of_nat (length (filter active_job l)) =
  in_state FAULTLINE_JOB_ASSIGNED l + in_state FAULTLINE_JOB_RUNNING l.
Proof.
  induction l as [|j l IH]; [done|]. rewrite filter_cons, !in_state_cons.
  unfold has_state. case_decide as Ha; unfold active_job, active_state in Ha;
    destruct (job_state j); try done; has_states; simpl length; lia.
Qed.

(** Two workers never share a job, so no more are busy than jobs are active. *)
Lemma busy_bound s r now timeout :
  sched_wf s -> registry_wf r ->
  tally (fun w => is_current now timeout w && has_job s w) (workers r) <=
  in_state FAULTLINE_JOB_ASSIGNED (live s) + in_state FAULTLINE_JOB_RUNNING (live s).
Proof.
  intros Hs Hr. rewrite <- active_count. unfold tally.
  set (p := fun w => is_current now timeout w && has_job s w).
  assert (Hcur : forall w, p w = true -> used w /\ faultline_scheduler_active s (w_id w) <> None).
  { intros w [Hc Hj]%andb_prop. split; [|by apply bool_decide_eq_true in Hj].
    apply andb_prop in Hc as [Hc _]. apply bool_decide_eq_true in Hc. by apply used_alive. }
  assert (NoDup (w_id <$> filter p (workers r))) as Hnd.
  { apply NoDup_filter_unique. intros i k v w Hv Hw Pv Pw E.
    apply (reg_unique r Hr i k v w); try done; by apply Hcur. }
  apply inj_le. rewrite <- (length_fmap w_id), <- (length_fmap worker_id).
  apply submseteq_length, NoDup_submseteq; [done|].
  intros id (w & -> & [Pw _]%list_elem_of_filter)%list_elem_of_fmap.
  apply Is_true_eq_true, Hcur in Pw as [_ Ha].
  destruct (faultline_scheduler_active s (w_id w)) as [j|] eqn:E; [|done].
  apply active_some in E as (_ & Haj & <- & slot & Hj).
  apply list_elem_of_fmap. exists j. split; [done|]. apply list_elem_of_filter.
  split; [done|]. by eapply list_elem_of_lookup_2.
Qed.

(** ** Counters only grow *)

Definition progress (l l' : list faultline_job) : Prop :=
  (length l <= length l')%nat /\
  in_state FAULTLINE_JOB_DONE l <= in_state FAULTLINE_JOB_DONE l' /\
  in_state FAULTLINE_JOB_FAILED l <= in_state FAULTLINE_JOB_FAILED l' /\
  total retry_count l <= total retry_count l'.

#[export] Instance progress_preorder : PreOrder progress.
Proof. split; unfold progress; [intros l; lia|intros l1 l2 l3 ? ?; lia]. Qed.

Lemma in_state_app s l k : in_state s (l ++ k) = in_state s l + in_state s k.
Proof. unfold in_state. rewrite filter_app, length_app. lia. Qed.

Lemma total_app f l k : total f (l ++ k) = total f l + total f k.
Proof. induction l as [|j l IH]; [done|]. cbn [app]. rewrite !total_cons, IH. lia. Qed.

Lemma job_step_progress j c :
  job_wf j -> job_step j c ->
  has_state FAULTLINE_JOB_DONE j = false /\ has_state FAULTLINE_JOB_FAILED j = false /\
  retry_count j <= retry_count c.
Proof.
  intros Hwf Hs. pose proof (wf_retries _ Hwf). pose proof (wf_max_retries _ Hwf). unfold has_state.
  destruct Hs as [??? ? H1|???? ? H1|?????? ? H1|????? ? H1].
  - apply job_assign_ok in H1 as (-> & _ & _ & _ & ->). split_and!; [done..|cbn; lia].
  - apply job_start_ok in H1 as (-> & _ & _ & _ & _ & _ & _ & ->). split_and!; [done..|cbn; lia].
  - apply job_complete_ok in H1 as (-> & _ & _ & _ & _ & _ & _ & _ & _ & ->).
    split_and!; [done..|cbn; lia].
  - apply job_fail_ok in H1 as (Ha & _ & _ & _ & _ & _ & _ & _ & ->). unfold active_state in Ha.
    split; [by destruct (job_state j)|]. split; [by destruct (job_state j)|].
    unfold failed_job. destruct (Z.ltb_spec (retry_count j) (max_retries j)); cbn; [|lia].
    rewrite u32_id by ilia. lia.
Qed.

Lemma progress_insert l slot j c :
  l !! slot = Some j -> job_wf j -> job_step j c -> progress l (<[slot := c]> l).
Proof.
  intros Hj Hwf Hs. destruct (job_step_progress _ _ Hwf Hs) as (Hd & Hf & Hr).
  split; [by rewrite length_insert|]. pose proof (lookup_lt_Some _ _ _ Hj) as Hlt.
  rewrite (insert_take_drop l slot c Hlt). rewrite <- (take_drop_middle l slot j Hj) at 1 4 7.
  rewrite !in_state_app, !total_app, !in_state_cons, !total_cons, Hd, Hf.
  repeat case_match; lia.
Qed.

Lemma record_progress recs r st rs st' rs' :
  log_history recs st rs -> log_history (recs ++ [r]) st' rs' ->
  progress (live (rs_scheduler st)) (live (rs_scheduler st')).
Proof.
  intros Hl Hl'. destruct (log_history_snoc _ _ _ _ Hl') as (st0 & rs0 & Hl0 & Ht & Ho & Hseq & Hr).
  destruct (log_history_det _ _ _ _ _ Hl Hl0) as [<- <-]. pose proof (log_history_inv _ _ _ Hl) as HI.
  destruct Hr as [(_ & _ & -> & _)|(Hne & st1 & Ha & -> & ->)]; [reflexivity|].
  apply apply_job_record_ok in Ha as (q & _ & Hd & Hq & ->); try done; [|apply HI].
  change (rs_scheduler (_ <| rs_last_sequence := _ |>)) with (rs_scheduler (replayed_state st r q)).
  destruct (replayed_sched_wf st (mk_index rs 0) r q HI Ht Ho Hne Hd Hq) as [_ ->].
  destruct (record_job_wf r Ht Ho Hne) as (Hwf & _).
  destruct (decide (r_type r = FAULTLINE_WAL_JOB_CREATED)) as [Hc|Hc].
  - rewrite bool_decide_eq_true_2 by done. unfold progress. pose proof (wf_retries _ Hwf).
    pose proof (in_state_le FAULTLINE_JOB_DONE [r_job r]).
    pose proof (in_state_le FAULTLINE_JOB_FAILED [r_job r]).
    rewrite length_app, !in_state_app, total_app, total_cons. change (total retry_count []) with 0. lia.
  - rewrite bool_decide_eq_false_2 by done.
    destruct (derive_candidate_slot _ _ _ _ (hi_sched _ _ HI) Hc Hd) as (j & Hj & Htot & _ & Hjwf).
    apply derive_candidate_step in Hd. rewrite Htot in Hd. eapply progress_insert; [exact Hj|done|].
    destruct (r_type r); try done.
    + destruct Hd as (_ & _ & _ & Hd). by eapply step_assign.
    + by eapply step_start.
    + by eapply step_complete.
    + by eapply step_fail.
    + by eapply step_fail.
Qed.

Lemma history_progress recs more st rs st' rs' :
  log_history recs st rs -> log_history (recs ++ more) st' rs' ->
  progress (live (rs_scheduler st)) (live (rs_scheduler st')).
Proof.
  intros Hl. revert st' rs'. induction more as [|r more IH] using rev_ind; intros st' rs' Hl'.
  - rewrite app_nil_r in Hl'. by destruct (log_history_det _ _ _ _ _ Hl Hl') as [<- _].
  - rewrite app_assoc in Hl'. destruct (log_history_prefix _ _ _ _ Hl') as (st1 & rs1 & Hl1).
    etransitivity; [by eapply IH|]. by eapply record_progress.
Qed.

Lemma mean_latency_none l : in_state FAULTLINE_JOB_DONE l = 0 -> mean_latency l = 0.
Proof.
  unfold in_state, mean_latency, done_jobs. destruct (filter _ l); [done|]. simpl. lia.
Qed.

Lemma retries_bound l :
  Forall job_wf l -> 0 <= total retry_count l <= Z.of_nat (length l) * UINT32_MAX.
Proof.
  intros Hl. assert (Forall (fun j => 0 <= retry_count j <= UINT32_MAX) l) as Hb.
  { eapply Forall_impl; [exact Hl|]. intros j Hj. pose proof (wf_retries _ Hj).
    pose proof (wf_max_retries _ Hj). lia. }
  apply total_bound in Hb. lia.
Qed.

(** ** Properties *)

(** C29: the job counters of a snapshot are the numbers of jobs in each state and the sums of their
    attempts and retries, and the mean latency is the mean over unbounded integers rounded down:
    splitting every duration before adding loses nothing and nothing wraps. *)
Theorem stats_exact store :
  opened store = true -> store_failure store = FAULTLINE_STORE_FAILURE_NONE -> sched_wf (jobs store) ->
  collect_jobs store zero_stats = Some (job_stats (live (jobs store))).
Proof. apply collect_jobs_ok. Qed.

Section Snapshot.
Context {W : Type} (os : wal_os W) {FIN : OsFinite os} {DISK : Disk os}.

Lemma begin_session store now session :
  opened store = true -> store_failure store = FAULTLINE_STORE_FAILURE_NONE -> sched_wf (jobs store) ->
  now <= INT64_MAX -> faultline_stats_begin store now = Some session ->
  let l := live (jobs store) in
  ready_at_ms session = now /\ 0 <= now /\ 0 <= sess_startup_duration_ms session <= INT64_MAX /\
  0 <= sess_startup_interrupted_jobs session <= Z.of_nat (length l) /\
  submitted_at_start session = Z.of_nat (length l) /\
  completed_at_start session = in_state FAULTLINE_JOB_DONE l /\
  failed_at_start session = in_state FAULTLINE_JOB_FAILED l /\
  retries_at_start session = total retry_count l.
Proof.
  intros Ho Hf Hs Hnow. unfold faultline_stats_begin. destruct (_ || _) eqn:E; [done|]. split_bools.
  rewrite collect_jobs_ok by done.
  destruct (Nat.ltb_spec (sched_count (jobs store)) (interrupted_jobs store)); [done|].
  intros [= <-]. cbn. rewrite live_length by done. rewrite u64_id by ilia. split_and!; lia.
Qed.

Lemma snapshot_consistent session store now timeout :
  opened store = true -> store_failure store = FAULTLINE_STORE_FAILURE_NONE -> sched_wf (jobs store) ->
  registry_wf (store_workers store) -> clock_after now (workers (store_workers store)) ->
  0 < timeout <= INT_MAX -> 0 <= ready_at_ms session <= now -> now <= INT64_MAX ->
  0 <= sess_startup_duration_ms session <= INT64_MAX ->
  0 <= sess_startup_interrupted_jobs session <= submitted_at_start session ->
  let l := live (jobs store) in
  submitted_at_start session <= Z.of_nat (length l) ->
  0 <= completed_at_start session <= in_state FAULTLINE_JOB_DONE l ->
  0 <= failed_at_start session <= in_state FAULTLINE_JOB_FAILED l ->
  0 <= retries_at_start session <= total retry_count l ->
  exists stats, faultline_stats_snapshot session store now timeout = Some stats /\
    Forall in_u64 (stats_fields stats) /\ stats_consistent stats.
Proof.
  intros Ho Hf Hs Hr Hclock Ht Hready Hnow Hdur Hint l Hsub Hcomp Hfail Hret.
  unfold faultline_stats_snapshot.
  rewrite (proj2 (Z.ltb_ge _ _)), (proj2 (Z.ltb_ge _ _)), (proj2 (Z.leb_gt _ _)) by lia. cbn [orb].
  rewrite collect_jobs_ok by done. fold l. unfold job_stats at 1 2 3 4. cbn [jobs_submitted_total
    jobs_completed_total jobs_failed_total job_retries_total].
  rewrite !(proj2 (Z.ltb_ge _ _)) by lia. cbn [orb].
  rewrite count_workers_ok; [|done|].
  2:{ cbn. rewrite (reg_length _ Hr). repeat apply Forall_cons_2; try apply Forall_nil_2; done. }
  eexists. split; [done|].
  pose proof (sched_jobs_wf _ Hs) as Hwf. fold l in Hwf.
  pose proof (sched_count_le _ Hs) as Hcap. rewrite <- (live_length _ Hs) in Hcap. fold l in Hcap.
  pose proof (states_partition l Hwf). pose proof (attempts_retries l Hwf).
  pose proof (mean_latency_bound l Hwf) as Hmean.
  pose proof (workers_partition now timeout (workers (store_workers store))).
  pose proof (tally_split (is_current now timeout) (has_job (jobs store)) (workers (store_workers store))).
  pose proof (busy_bound (jobs store) (store_workers store) now timeout Hs Hr) as Hbusy. fold l in Hbusy.
  pose proof (in_state_le FAULTLINE_JOB_QUEUED l). pose proof (in_state_le FAULTLINE_JOB_ASSIGNED l).
  pose proof (in_state_le FAULTLINE_JOB_RUNNING l). pose proof (in_state_le FAULTLINE_JOB_DONE l).
  pose proof (in_state_le FAULTLINE_JOB_FAILED l). pose proof (retries_bound l Hwf).
  pose proof (tally_le (is_current now timeout) (workers (store_workers store))).
  pose proof (tally_le (is_expired now timeout) (workers (store_workers store))).
  pose proof (tally_le is_dead (workers (store_workers store))).
  pose proof (tally_le is_used (workers (store_workers store))) as Hused.
  rewrite (reg_length _ Hr) in Hused. unfold FAULTLINE_MAX_WORKERS in Hused.
  pose proof (tally_le (fun w => is_current now timeout w && has_job (jobs store) w)
    (workers (store_workers store))).
  pose proof (tally_le (fun w => is_current now timeout w && negb (has_job (jobs store) w))
    (workers (store_workers store))).
  assert (in_state FAULTLINE_JOB_DONE l = 0 -> mean_latency l = 0) as Hzero by apply mean_latency_none.
  unfold FAULTLINE_JOB_STORE_CAPACITY in Hcap.
  unfold add_workers, stats_consistent, stats_fields, FAULTLINE_JOBS_MAX_ENTRIES,
    FAULTLINE_WORKERS_MAX_ENTRIES. cbn.
  rewrite !u64_id by ilia.
  split; [repeat apply Forall_cons_2; try apply Forall_nil_2; ilia|].
  split_and!; try done; ilia.
Qed.

Lemma published_sched store world recs st rs :
  published os store world recs st rs -> sched_wf (jobs store).
Proof. intros HP. rewrite (pub_jobs _ _ _ _ _ _ HP). apply (published_inv _ _ _ _ _ _ HP). Qed.

(** C30: a snapshot can be taken at any later time of the session, whatever happened in between:
    no counter has gone down, and the payload passes the validation that the protocol encoder
    applies to it. *)
Theorem stats_snapshot_valid ops store world recs st rs session start store' world' now timeout :
  published os store world recs st rs -> opened store = true ->
  faultline_stats_begin store start = Some session -> start <= now <= INT64_MAX ->
  Forall store_op_typed ops -> run_store os ops store world = (store', world') ->
  store_failure store' = FAULTLINE_STORE_FAILURE_NONE -> 0 < timeout <= INT_MAX ->
  clock_after now (workers (store_workers store')) ->
  exists stats, faultline_stats_snapshot session store' now timeout = Some stats /\
    validate_stats stats = FAULTLINE_PROTOCOL_OK.
Proof.
  intros HP Ho Hbegin Hnow Hops Hrun Hf Ht Hclock.
  assert (tracked os store' world' recs) as (Ho' & recs' & st' & rs' & [more ->] & [HP'|Hh]).
  { assert (tracked os store world recs) as HT by (split; [done|]; exists recs, st, rs; auto).
    pose proof (run_store_tracked os ops _ _ _ HT Hops) as HT'. by rewrite Hrun in HT'. }
  2:{ by destruct (halt_failure _ _ _ _ _ _ Hh). }
  pose proof (published_sched _ _ _ _ _ HP) as Hs. pose proof (published_sched _ _ _ _ _ HP') as Hs'.
  apply begin_session in Hbegin as (Hready & Hstart & Hdur & Hint & Hsub & Hc & Hfl & Hret);
    try done; [|apply HP|lia].
  pose proof (history_progress _ _ _ _ _ _ (pub_history _ _ _ _ _ _ HP) (pub_history _ _ _ _ _ _ HP'))
    as Hprog.
  rewrite <- (pub_jobs _ _ _ _ _ _ HP), <- (pub_jobs _ _ _ _ _ _ HP') in Hprog.
  destruct Hprog as (Hlen & Hdone & Hfailed & Hretries).
  pose proof (in_state_le FAULTLINE_JOB_DONE (live (jobs store))).
  pose proof (in_state_le FAULTLINE_JOB_FAILED (live (jobs store))).
  pose proof (retries_bound _ (sched_jobs_wf _ Hs)).
  destruct (snapshot_consistent session store' now timeout) as (stats & Hsnap & Hu & Hcons); try done;
    try lia; [apply HP'|]. 
  exists stats. split; [done|]. by apply validate_stats_spec.
Qed.

End Snapshot.

(** ** Witnesses *)

(** The sample session without its last call, so that nothing fails. *)
Definition quiet_session : list store_op := take 5 sample_session.

Lemma quiet_session_typed : Forall store_op_typed quiet_session.
Proof. apply Forall_take, sample_session_typed. Qed.

Definition sample_stats_session : faultline_stats_session :=
  default (mk_session 0 0 0 0 0 0 0) (faultline_stats_begin sample_store 95).

Lemma sample_stats_begin : faultline_stats_begin sample_store 95 = Some sample_stats_session.
Proof. vm_compute. reflexivity. Qed.

Lemma clock_check now l :
  forallb (fun w => (0 <=? w_last_heartbeat_ms w) && (w_last_heartbeat_ms w <=? now)) l = true ->
  clock_after now l.
Proof.
  intros H. apply Forall_forall. intros w Hw _. apply forallb_forall with (x := w) in H; [lia|].
  by apply list_elem_of_In.
Qed.

Lemma quiet_session_ok :
  let store' := fst (run_store sim_os quiet_session sample_store sample_world) in
  store_failure store' = FAULTLINE_STORE_FAILURE_NONE /\ clock_after 150 (workers (store_workers store')).
Proof. cbv zeta. split; [|apply clock_check]; vm_compute; reflexivity. Qed.

Lemma stats_snapshot_valid_witness :
  exists stats,
    faultline_stats_snapshot sample_stats_session
      (fst (run_store sim_os quiet_session sample_store sample_world)) 150 1000 = Some stats /\
    validate_stats stats = FAULTLINE_PROTOCOL_OK.
Proof.
  pose proof quiet_session_ok as Hok. cbv zeta in Hok.
  destruct (run_store _ _ _ _) as [store' world'] eqn:E. cbn [fst] in *.
  exact (stats_snapshot_valid sim_os quiet_session sample_store sample_world [] initial_replay_state []
    sample_stats_session 95 store' world' 150 1000 (proj1 sample_published) (proj2 sample_published)
    sample_stats_begin ltac:(ilia) quiet_session_typed E (proj1 Hok) ltac:(ilia) (proj2 Hok)).
Defined.

Lemma with_jobs store s :
  opened (store <| jobs := s |>) = opened store /\ store_failure (store <| jobs := s |>) = store_failure store /\
  jobs (store <| jobs := s |>) = s.
Proof. done. Qed.

(** A store with jobs. *)
Lemma stats_exact_witness :
  exists store, jobs store = sample_sched /\ collect_jobs store zero_stats = Some (job_stats (live sample_sched)).
Proof.
  destruct sample_published as [HP Ho]. pose proof (pub_failure _ _ _ _ _ _ HP) as Hf.
  pose proof sample_sched_wf as Hs. clear HP.
  generalize dependent sample_store. intros store Ho Hf. generalize dependent sample_sched. intros s Hs.
  destruct (with_jobs store s) as (Eo & Ef & Ej). exists (store <| jobs := s |>). split; [exact Ej|].
  rewrite <- Ej at 2. apply stats_exact; [by rewrite Eo|by rewrite Ef|by rewrite Ej].
Defined.
