(* ===== verification/Text.v ===== *)
(** Text as bytes: C strings, the conversions of [printf] that the programs use, and
    decimal numerals. A C string is the list of its bytes without the closing NUL. *)

From Stdlib Require Import Ascii.
From stdpp Require Export strings.
From S2P Require Import Prelude.

#[global] Open Scope Z_scope.
#[global] Open Scope faultline_scope.

(** ** Literals *)

Fixpoint text (s : string) : list Z :=
  match s with
  | EmptyString => []
  | String c s => Z.of_N (N_of_ascii c) :: text s
  end.

Arguments text s%_string.

(** [strcmp(a, b) == 0]. *)
Definition text_eqb (a b : list Z) : bool := bool_decide (a = b).

(** ** Printing *)

(** [%u], [%zu], [PRIu64]: the digits of a value, most significant first. The fuel is the
    number of binary digits, which bounds that of the decimal ones. *)
Fixpoint print_digits (fuel : nat) (z : Z) (acc : list Z) : list Z :=
  if z <? 10 then (48 + z) :: acc
  else match fuel with
       | O => acc
       | S fuel => print_digits fuel (z / 10) ((48 + z mod 10) :: acc)
       end.

Definition print_uint (z : Z) : list Z := print_digits (Z.to_nat (Z.log2 z)) z [].

(** [%d], [%ld], [PRId64]. *)
Definition print_int (z : Z) : list Z := if z <? 0 then 45 :: print_uint (- z) else print_uint z.

Definition hex_char (d : Z) : Z := if d <? 10 then 48 + d else 87 + d.

(** [%0<width>x] for a value that fits the width. *)
Fixpoint print_hex (width : nat) (z : Z) : list Z :=
  match width with
  | O => []
  | S width => print_hex width (Z.shiftr z 4) ++ [hex_char (Z.land z 15)]
  end.

(** [%-<width>s]. *)
Definition pad_right (width : nat) (l : list Z) : list Z := l ++ replicate (width - length l) 32.

(** [%0<width>d] for a nonnegative value. *)
Definition print_padded (width : nat) (z : Z) : list Z :=
  let l := print_uint z in replicate (width - length l) 48 ++ l.

(** ** Numerals *)

Definition is_digit (c : Z) : bool := (48 <=? c) && (c <=? 57).

(** The value of a numeral with unbounded integers; [None] if it is empty or has
    anything but digits. *)
Definition digits_from (value : Z) (l : list Z) : option Z :=
  if forallb is_digit l then Some (foldl (fun v c => v * 10 + (c - 48)) value l) else None.

Definition decimal_value (l : list Z) : option Z :=
  match l with [] => None | _ => digits_from 0 l end.

(** A value that a parser with inclusive bounds accepts. *)
Definition decimal_between (low high : Z) (l : list Z) : option Z :=
  match decimal_value l with
  | Some v => if (low <=? v) && (v <=? high) then Some v else None
  | None => None
  end.

Lemma digits_from_cons value c l :
  digits_from value (c :: l) =
  if is_digit c then digits_from (value * 10 + (c - 48)) l else None.
Proof. unfold digits_from. cbn. by destruct (is_digit c). Qed.

Lemma is_digit_spec c : is_digit c = negb ((c <? 48) || (57 <? c)).
Proof. unfold is_digit. lia. Qed.

Lemma digits_from_le value l v :
  0 <= value -> digits_from value l = Some v -> value <= v.
Proof.
  revert value. induction l as [|c l IH]; intros value Hv.
  - intros [= <-]. lia.
  - rewrite digits_from_cons. unfold is_digit. destruct (_ && _) eqn:E; [|done].
    intros H. apply IH in H; lia.
Qed.

(** A loop over the digits of a numeral that stops before its value would pass [high]. *)
Lemma bounded_numeral (loop : Z -> list Z -> option Z) (high : Z) :
  (forall v, loop v [] = Some v) ->
  (forall v c l, 0 <= v <= high -> loop v (c :: l) =
     if (c <? 48) || (57 <? c) then None
     else if v * 10 + (c - 48) <=? high then loop (v * 10 + (c - 48)) l else None) ->
  forall l v, 0 <= v <= high ->
    loop v l = match digits_from v l with
               | Some x => if x <=? high then Some x else None
               | None => None
               end.
Proof.
  intros Hnil Hcons. induction l as [|c l IH]; intros v Hv.
  - rewrite Hnil. cbn. by rewrite (proj2 (Z.leb_le _ _)) by lia.
  - rewrite Hcons, digits_from_cons, is_digit_spec by done.
    destruct ((c <? 48) || (57 <? c)) eqn:E; [done|]. cbn [negb]. split_bools. reflect_bools.
    destruct (Z.leb_spec (v * 10 + (c - 48)) high); [apply IH; lia|].
    destruct (digits_from _ l) as [x|] eqn:Ed; [|done].
    apply digits_from_le in Ed; [|lia]. by rewrite (proj2 (Z.leb_gt _ _)) by lia.
Qed.

(** The test before the multiplication, for the loops that have one. *)
Lemma quotient_test (high value digit : Z) :
  0 <= digit <= 9 -> ((high - digit) / 10 <? value) = negb (value * 10 + digit <=? high).
Proof.
  intros Hd. destruct (Z.ltb_spec ((high - digit) / 10) value) as [H|H];
    destruct (Z.leb_spec (value * 10 + digit) high) as [H'|H']; cbn; try done; exfalso;
    Z.div_mod_to_equations; lia.
Qed.

Lemma digits_from_app value l k :
  digits_from value (l ++ k) =
  match digits_from value l with Some v => digits_from v k | None => None end.
Proof.
  revert value. induction l as [|c l IH]; intros value; [done|].
  cbn [app]. rewrite !digits_from_cons. destruct (is_digit c); [apply IH|done].
Qed.

Lemma print_digits_value fuel z acc :
  0 <= z < 2 ^ (Z.of_nat fuel + 1) -> forallb is_digit acc = true ->
  exists ds, print_digits fuel z acc = ds ++ acc /\ ds <> [] /\ digits_from 0 ds = Some z.
Proof.
  revert z acc. induction fuel as [|fuel IH]; intros z acc Hz Hacc; cbn [print_digits].
  - rewrite (proj2 (Z.ltb_lt _ _)) by (cbn in Hz; lia). exists [48 + z]. split_and!; try done.
    rewrite digits_from_cons. unfold is_digit. rewrite !(proj2 (Z.leb_le _ _)) by (cbn in Hz; lia).
    cbn. f_equal. lia.
  - destruct (Z.ltb_spec z 10) as [Hlt|Hge].
    + exists [48 + z]. split_and!; try done. rewrite digits_from_cons. unfold is_digit.
      rewrite !(proj2 (Z.leb_le _ _)) by lia. cbn. f_equal. lia.
    + pose proof (Z.mod_pos_bound z 10).
      destruct (IH (z / 10) ((48 + z mod 10) :: acc)) as (ds & Hds & Hne & Hval).
      { replace (Z.of_nat (S fuel) + 1) with (Z.succ (Z.of_nat fuel + 1)) in Hz by lia.
        rewrite Z.pow_succ_r in Hz by lia. Z.div_mod_to_equations. lia. }
      { cbn. rewrite Hacc. unfold is_digit. lia. }
      exists (ds ++ [48 + z mod 10]). split_and!.
      * rewrite Hds. by rewrite <- app_assoc.
      * by destruct ds.
      * rewrite digits_from_app, Hval, digits_from_cons. unfold is_digit.
        rewrite !(proj2 (Z.leb_le _ _)) by lia. cbn. f_equal. Z.div_mod_to_equations. lia.
Qed.

(** Printing and reading a numeral. *)
Lemma print_uint_decimal z : 0 <= z -> decimal_value (print_uint z) = Some z.
Proof.
  intros Hz. unfold print_uint.
  destruct (print_digits_value (Z.to_nat (Z.log2 z)) z []) as (ds & -> & Hne & Hval); try done.
  - pose proof (Z.log2_nonneg z). split; [done|]. rewrite Z2Nat.id by done.
    destruct (decide (z = 0)) as [->|]; [done|]. apply Z.log2_spec. lia.
  - rewrite app_nil_r. by destruct ds.
Qed.

Lemma digits_of_value value l v :
  digits_from value l = Some v -> Forall (fun c => 48 <= c <= 57) l.
Proof.
  revert value. induction l as [|c l IH]; intros value; [done|].
  rewrite digits_from_cons. unfold is_digit. destruct (_ && _) eqn:E; [|done].
  intros H. constructor; [lia|by eapply IH].
Qed.

Lemma print_uint_digits z : 0 <= z -> Forall (fun c => 48 <= c <= 57) (print_uint z).
Proof.
  intros Hz. pose proof (print_uint_decimal z Hz) as H.
  destruct (print_uint z) as [|c l]; [done|]. by eapply digits_of_value.
Qed.

Lemma print_uint_nonempty z : 0 <= z -> print_uint z <> [].
Proof. intros Hz H. pose proof (print_uint_decimal z Hz) as E. by rewrite H in E. Qed.

Lemma print_uint_inj a b : 0 <= a -> 0 <= b -> print_uint a = print_uint b -> a = b.
Proof.
  intros Ha Hb E. apply print_uint_decimal in Ha. rewrite E, print_uint_decimal in Ha by done.
  by injection Ha.
Qed.

Lemma print_digits_length fuel z acc n :
  0 <= z < 10 ^ Z.of_nat n -> (0 < n)%nat -> (length (print_digits fuel z acc) <= n + length acc)%nat.
Proof.
  revert z acc n. induction fuel as [|fuel IH]; intros z acc n Hz Hn; cbn [print_digits].
  - destruct (z <? 10); cbn; lia.
  - destruct (Z.ltb_spec z 10); [cbn; lia|].
    destruct n as [|[|n]]; [lia|cbn in Hz; lia|].
    etrans; [apply (IH _ _ (S n))|]; [|lia|cbn; lia].
    replace (Z.of_nat (S (S n))) with (Z.succ (Z.of_nat (S n))) in Hz by lia.
    rewrite Z.pow_succ_r in Hz by lia. Z.div_mod_to_equations. lia.
Qed.

Lemma print_uint_length z n :
  0 <= z < 10 ^ Z.of_nat n -> (0 < n)%nat -> (length (print_uint z) <= n)%nat.
Proof.
  intros Hz Hn. unfold print_uint. etrans; [by apply (print_digits_length _ _ _ n)|]. cbn. lia.
Qed.

(** ** Hexadecimal *)

Lemma print_hex_length width z : length (print_hex width z) = width.
Proof.
  revert z. induction width as [|width IH]; intros z; [done|]. cbn.
  rewrite length_app, IH. cbn. lia.
Qed.

(** ** Printed text consists of bytes *)

Lemma text_bytes s : bytes_ok (text s).
Proof.
  induction s as [|c s IH]; cbn; constructor; [|done]. pose proof (N_ascii_bounded c). unfold in_u8. lia.
Qed.

Lemma print_uint_bytes z : 0 <= z -> bytes_ok (print_uint z).
Proof.
  intros Hz. eapply Forall_impl; [by apply print_uint_digits|]. intros c Hc. cbn in Hc. unfold in_u8. lia.
Qed.

Lemma print_hex_bytes width z : bytes_ok (print_hex width z).
Proof.
  revert z. induction width as [|width IH]; intros z; cbn [print_hex]; [constructor|].
  apply Forall_app. split; [apply IH|]. constructor; [|constructor].
  change 15 with (Z.ones 4). rewrite Z.land_ones by done. pose proof (Z.mod_pos_bound z (2 ^ 4)).
  unfold hex_char, in_u8. destruct (_ <? _); lia.
Qed.
