(* ===== verification/Net.v ===== *)
(** Network helpers: [include/net.h], [src/common/net.c].

    The operating system is a parameter: [net_os] is the table of the calls that the
    three programs make on sockets, clocks, streams and signals, each a function of an
    abstract world. A failed call returns its [errno]. [poll] returns the events it
    stored; its C result is the number of those that are not zero. A failed read of the
    clock gives -1 as in the code, and leaves the one documented [errno], [EINVAL].

    The code retries interrupted calls without limit; the loops here run on fuel that the
    world provides ([os_transients] bounds the interruptions still to come). [NetFinite] in
    NetLaws states that it is a bound. *)

From S2P Require Import Prelude Text WalWriter.

(** ** Constants of the system *)

Definition EBADF : Z := 9.
Definition EAGAIN : Z := 11.
Definition EWOULDBLOCK : Z := 11.
Definition EPIPE : Z := 32.
Definition ETIMEDOUT : Z := 110.
Definition EINPROGRESS : Z := 115.

Definition POLLIN : Z := 1.
Definition POLLOUT : Z := 4.
Definition POLLERR : Z := 8.
Definition POLLHUP : Z := 16.
Definition POLLNVAL : Z := 32.

Definition O_NONBLOCK : Z := 2048.
Definition EXIT_SUCCESS : Z := 0.
Definition EXIT_FAILURE : Z := 1.

Definition AF_INET : Z := 2.
Definition INET_ADDRSTRLEN : Z := 16.

(** Signals and their dispositions. *)
Inductive signal := SIGINT | SIGTERM | SIGPIPE.
Inductive disposition := SIG_IGN | REQUEST_STOP.

(** The standard streams. *)
Inductive stream := stdout | stderr.

#[export] Instance stream_eq_dec : EqDecision stream.
Proof. solve_decision. Defined.

(** [sin_port] holds the two bytes that [htons] stores. *)
Record sockaddr_in := mk_sockaddr {
  sin_family : Z;
  sin_port : list Z;
  sin_addr : Z;
}.

Record net_os (W : Type) := mk_net_os {
  os_monotonic : os_call W (Z * Z);                    (* clock_gettime(CLOCK_MONOTONIC) *)
  os_realtime : os_call W (Z * Z);                     (* clock_gettime(CLOCK_REALTIME) *)
  os_poll : list (Z * Z) -> Z -> os_call W (list Z);   (* (fd, events) and timeout; revents *)
  os_recv : Z -> Z -> os_call W (list Z);              (* the bytes stored in the buffer *)
  os_send : Z -> list Z -> os_call W Z;
  os_accept : Z -> os_call W Z;
  os_socket : os_call W Z;
  os_getfl : Z -> os_call W Z;                         (* fcntl(fd, F_GETFL, 0) *)
  os_setfl : Z -> Z -> os_call W unit;                 (* fcntl(fd, F_SETFL, flags) *)
  os_reuseaddr : Z -> os_call W unit;                  (* setsockopt(SO_REUSEADDR) *)
  os_bind : Z -> sockaddr_in -> os_call W unit;
  os_listen : Z -> Z -> os_call W unit;
  os_connect : Z -> sockaddr_in -> os_call W unit;
  os_so_error : Z -> os_call W Z;                      (* getsockopt(SO_ERROR) *)
  os_close : Z -> W -> W;
  os_sigaction : signal -> disposition -> os_call W unit;
  os_stopping : W -> Z * W;                            (* reading the flag of the handler *)
  os_print : stream -> list Z -> W -> bool * W;        (* fprintf, fputs, ...: no error *)
  os_flush : stream -> W -> bool * W;                  (* fflush and ferror: no error *)
  os_getpid : Z;
  os_inet_pton : list Z -> option Z;
  os_strerror : Z -> option (list Z);
  os_transients : W -> nat;
}.
Arguments os_monotonic {W} n _ : rename.
Arguments os_realtime {W} n _ : rename.
Arguments os_poll {W} n _ _ _ : rename.
Arguments os_recv {W} n _ _ _ : rename.
Arguments os_send {W} n _ _ _ : rename.
Arguments os_accept {W} n _ _ : rename.
Arguments os_socket {W} n _ : rename.
Arguments os_getfl {W} n _ _ : rename.
Arguments os_setfl {W} n _ _ _ : rename.
Arguments os_reuseaddr {W} n _ _ : rename.
Arguments os_bind {W} n _ _ _ : rename.
Arguments os_listen {W} n _ _ _ : rename.
Arguments os_connect {W} n _ _ _ : rename.
Arguments os_so_error {W} n _ _ : rename.
Arguments os_close {W} n _ _ : rename.
Arguments os_sigaction {W} n _ _ _ : rename.
Arguments os_stopping {W} n _ : rename.
Arguments os_print {W} n _ _ _ : rename.
Arguments os_flush {W} n _ _ : rename.
Arguments os_getpid {W} n : rename.
Arguments os_inet_pton {W} n _ : rename.
Arguments os_strerror {W} n _ : rename.
Arguments os_transients {W} n _ : rename.

(** ** Defaults and results *)

Definition FAULTLINE_DEFAULT_HOST : list Z := text "127.0.0.1".
Definition FAULTLINE_DEFAULT_PORT : Z := 9000.
Definition FAULTLINE_IO_TIMEOUT_MS : Z := 5000.
Definition FAULTLINE_DEFAULT_HEARTBEAT_INTERVAL_MS : Z := 2000.
Definition FAULTLINE_DEFAULT_HEARTBEAT_TIMEOUT_MS : Z := 6000.

Inductive faultline_receive_result :=
| FAULTLINE_RECEIVE_OK
| FAULTLINE_RECEIVE_EOF
| FAULTLINE_RECEIVE_TRUNCATED
| FAULTLINE_RECEIVE_ERROR.

#[export] Instance faultline_receive_result_eq_dec : EqDecision faultline_receive_result.
Proof. solve_decision. Defined.

(** ** Parsing

    The outputs are written only on success: a parser returns them as an option. Bytes
    are unsigned here; a signed [char] above 127 is negative and refused by the same tests. *)

Fixpoint parse_port_loop (value : Z) (cursor : list Z) : option Z :=
  match cursor with
  | [] => Some value
  | c :: cursor =>
      if (c <? 48) || (57 <? c) then None
      else
        let value := u32 (value * 10 + u32 (c - 48)) in
        if UINT16_MAX <? value then None else parse_port_loop value cursor
  end.

Definition faultline_parse_port (text : list Z) : option Z :=
  match text with
  | [] => None
  | _ =>
      match parse_port_loop 0 text with
      | None => None
      | Some value => if value =? 0 then None else Some (u16 value)
      end
  end.

Fixpoint parse_duration_loop (value : Z) (cursor : list Z) : option Z :=
  match cursor with
  | [] => Some value
  | c :: cursor =>
      let digit := c - 48 in
      if (digit <? 0) || (9 <? digit) || ((INT_MAX - digit) / 10 <? value) then None
      else parse_duration_loop (value * 10 + digit) cursor
  end.

Definition faultline_parse_duration_ms (text : list Z) : option Z :=
  match text with
  | [] => None
  | _ =>
      match parse_duration_loop 0 text with
      | None => None
      | Some value => if value =? 0 then None else Some value
      end
  end.

(** [strchr(text, ':')] as the text before the first colon and the text after it. *)
Fixpoint split_colon (l : list Z) : option (list Z * list Z) :=
  match l with
  | [] => None
  | c :: l =>
      if c =? 58 then Some ([], l)
      else match split_colon l with
           | None => None
           | Some (before, after) => Some (c :: before, after)
           end
  end.

Section Net.
Context {W : Type} (net : net_os W).

Definition faultline_parse_endpoint (text : list Z) (host_size : Z) : option (list Z * Z) :=
  match split_colon text with
  | None => None
  | Some (before, after) =>
      let length := Z.of_nat (length before) in
      if (length =? 0) || (INET_ADDRSTRLEN <=? length) || (host_size <=? length) then None
      else
        match faultline_parse_port after with
        | None => None
        | Some parsed_port =>
            match os_inet_pton net before with
            | None => None
            | Some _ => Some (before, parsed_port)
            end
        end
  end.

(** ** Small wrappers *)

Definition faultline_set_nonblocking (fd : Z) (world : W) : os_result unit * W :=
  match os_getfl net fd world with
  | (OsErr error, world) => (OsErr error, world)
  | (OsOk flags, world) => os_setfl net fd (Z.lor flags O_NONBLOCK) world
  end.

(** [sigemptyset] on a local set cannot fail. *)
Definition faultline_ignore_sigpipe (world : W) : os_result unit * W :=
  os_sigaction net SIGPIPE SIG_IGN world.

Definition faultline_monotonic_ms (world : W) : Z * W :=
  match os_monotonic net world with
  | (OsErr _, world) => (-1, world)
  | (OsOk (tv_sec, tv_nsec), world) => (tv_sec * 1000 + Z.quot tv_nsec 1000000, world)
  end.

(** ** Waiting *)

Fixpoint wait_ready_loop (fuel : nat) (fd events deadline : Z) (world : W) : os_result unit * W :=
  let '(now, world) := faultline_monotonic_ms world in
  if now <? 0 then (OsErr EINVAL, world)
  else if deadline <=? now then (OsErr ETIMEDOUT, world)
  else
    match os_poll net [(fd, events)] (deadline - now) world with
    | (OsErr error, world) =>
        if error =? EINTR then
          match fuel with
          | O => (OsErr error, world)
          | S fuel => wait_ready_loop fuel fd events deadline world
          end
        else (OsErr error, world)
    | (OsOk revents, world) =>
        let revents := revents !!! 0%nat in
        if revents =? 0 then (OsErr ETIMEDOUT, world)
        else if Z.land revents POLLNVAL !=? 0 then (OsErr EBADF, world)
        else if Z.land revents (Z.lor events (Z.lor POLLHUP POLLERR)) !=? 0 then (OsOk tt, world)
        else
          match fuel with
          | O => (OsErr ETIMEDOUT, world)
          | S fuel => wait_ready_loop fuel fd events deadline world
          end
    end.

Definition wait_ready (fd events deadline : Z) (world : W) : os_result unit * W :=
  wait_ready_loop (os_transients net world) fd events deadline world.

(** ** Sockets *)

Definition close_failed_socket {A} (fd errno : Z) (world : W) : os_result A * W :=
  (OsErr errno, os_close net fd world).

Definition make_address (host : list Z) (port : Z) : option sockaddr_in :=
  if port =? 0 then None
  else
    match os_inet_pton net host with
    | None => None
    | Some address => Some (mk_sockaddr AF_INET (be16 port) address)
    end.

Definition faultline_listen (host : list Z) (port backlog : Z) (world : W) : os_result Z * W :=
  match make_address host port with
  | None => (OsErr EINVAL, world)
  | Some address =>
      match os_socket net world with
      | (OsErr error, world) => (OsErr error, world)
      | (OsOk fd, world) =>
          match os_reuseaddr net fd world with
          | (OsErr error, world) => close_failed_socket fd error world
          | (OsOk _, world) =>
          match faultline_set_nonblocking fd world with
          | (OsErr error, world) => close_failed_socket fd error world
          | (OsOk _, world) =>
          match os_bind net fd address world with
          | (OsErr error, world) => close_failed_socket fd error world
          | (OsOk _, world) =>
          match os_listen net fd backlog world with
          | (OsErr error, world) => close_failed_socket fd error world
          | (OsOk _, world) => (OsOk fd, world)
          end end end end
      end
  end.

Definition faultline_connect (host : list Z) (port timeout_ms : Z) (world : W) : os_result Z * W :=
  if timeout_ms <=? 0 then (OsErr EINVAL, world)
  else
    match make_address host port with
    | None => (OsErr EINVAL, world)
    | Some address =>
        let '(now, world) := faultline_monotonic_ms world in
        if now <? 0 then (OsErr EINVAL, world)
        else
          match os_socket net world with
          | (OsErr error, world) => (OsErr error, world)
          | (OsOk fd, world) =>
              match faultline_set_nonblocking fd world with
              | (OsErr error, world) => close_failed_socket fd error world
              | (OsOk _, world) =>
                  match os_connect net fd address world with
                  | (OsOk _, world) => (OsOk fd, world)
                  | (OsErr error, world) =>
                      if (error !=? EINPROGRESS) && (error !=? EINTR) then
                        close_failed_socket fd error world
                      else
                        match wait_ready fd POLLOUT (now + timeout_ms) world with
                        | (OsErr error, world) => close_failed_socket fd error world
                        | (OsOk _, world) =>
                            match os_so_error net fd world with
                            | (OsErr error, world) => close_failed_socket fd error world
                            | (OsOk socket_error, world) =>
                                if socket_error !=? 0 then close_failed_socket fd socket_error world
                                else (OsOk fd, world)
                            end
                        end
                  end
              end
          end
    end.

(** ** Whole transfers *)

Definition transient (error : Z) : bool :=
  (error =? EINTR) || (error =? EAGAIN) || (error =? EWOULDBLOCK).

(** [data] is what is still to be sent. *)
Fixpoint send_all_loop (fuel : nat) (fd : Z) (data : list Z) (deadline : Z) (world : W) :
    os_result unit * W :=
  match data with
  | [] => (OsOk tt, world)
  | _ =>
      match wait_ready fd POLLOUT deadline world with
      | (OsErr error, world) => (OsErr error, world)
      | (OsOk _, world) =>
          let continue data world :=
            match fuel with
            | O => (OsErr EPIPE, world)
            | S fuel => send_all_loop fuel fd data deadline world
            end in
          match os_send net fd data world with
          | (OsOk count, world) =>
              if count =? 0 then (OsErr EPIPE, world) else continue (drop (Z.to_nat count) data) world
          | (OsErr error, world) =>
              if transient error then continue data world else (OsErr error, world)
          end
      end
  end.

Definition faultline_send_all (fd : Z) (data : list Z) (timeout_ms : Z) (world : W) :
    os_result unit * W :=
  if (fd <? 0) || (timeout_ms <=? 0) then (OsErr EINVAL, world)
  else
    let '(start, world) := faultline_monotonic_ms world in
    if start <? 0 then (OsErr EINVAL, world)
    else send_all_loop (os_transients net world + length data) fd data (start + timeout_ms) world.

(** The result, the bytes stored in the buffer so far, and the [errno] of an error. *)
Record receive := mk_receive {
  receive_result : faultline_receive_result;
  receive_data : list Z;
  receive_errno : Z;
}.

Fixpoint recv_exact_loop (fuel : nat) (fd : Z) (received : list Z) (size deadline : Z) (world : W) :
    receive * W :=
  if Z.of_nat (length received) <? size then
    match wait_ready fd POLLIN deadline world with
    | (OsErr error, world) => (mk_receive FAULTLINE_RECEIVE_ERROR received error, world)
    | (OsOk _, world) =>
        let continue received world :=
          match fuel with
          | O => (mk_receive FAULTLINE_RECEIVE_ERROR received EIO, world)
          | S fuel => recv_exact_loop fuel fd received size deadline world
          end in
        match os_recv net fd (size - Z.of_nat (length received)) world with
        | (OsOk [], world) =>
            (mk_receive (match received with
                         | [] => FAULTLINE_RECEIVE_EOF
                         | _ => FAULTLINE_RECEIVE_TRUNCATED
                         end) received 0, world)
        | (OsOk bytes, world) => continue (received ++ bytes) world
        | (OsErr error, world) =>
            if transient error then continue received world
            else (mk_receive FAULTLINE_RECEIVE_ERROR received error, world)
        end
    end
  else (mk_receive FAULTLINE_RECEIVE_OK received 0, world).

Definition faultline_recv_exact (fd size timeout_ms : Z) (world : W) : receive * W :=
  if (fd <? 0) || (timeout_ms <=? 0) then (mk_receive FAULTLINE_RECEIVE_ERROR [] EINVAL, world)
  else
    let '(start, world) := faultline_monotonic_ms world in
    if start <? 0 then (mk_receive FAULTLINE_RECEIVE_ERROR [] EINVAL, world)
    else
      recv_exact_loop (os_transients net world + Z.to_nat size) fd [] size (start + timeout_ms) world.

End Net.
