(* ===== verification/NetLaws.v ===== *)
(** What the programs rely on of sockets, clocks and signals, as type classes.

    [NetFinite]: a call is interrupted, or wrongly reported ready, only finitely often.
    [Net]: the documented behaviour of the calls on an abstract view of the world. The view has
    the monotonic clock, whether a stop signal has been handled, the open descriptors, and
    for every descriptor the bytes handed to the system so far ([outgoing]) and the bytes that
    the peer has sent or will send and that have not been received yet ([incoming]). *)

From S2P Require Import Prelude Text WalWriter Net.

Record net_view := mk_net_view {
  clock : Z;
  stopped : bool;
  descriptors : list Z;
  incoming : Z -> list Z;
  outgoing : Z -> list Z;
}.

(** Nothing but the time and the stop flag has changed. *)
Record same_sockets (v v' : net_view) : Prop := {
  same_clock : clock v <= clock v';
  same_stopped : stopped v = true -> stopped v' = true;
  same_descriptors : descriptors v' = descriptors v;
  same_incoming d : incoming v' d = incoming v d;
  same_outgoing d : outgoing v' d = outgoing v d;
}.

(** Nothing but the time, the stop flag and the socket [fd] has changed. *)
Record same_others (fd : Z) (v v' : net_view) : Prop := {
  others_clock : clock v <= clock v';
  others_stopped : stopped v = true -> stopped v' = true;
  others_descriptors d : d <> fd -> d ∈ descriptors v' <-> d ∈ descriptors v;
  others_incoming d : d <> fd -> incoming v' d = incoming v d;
  others_outgoing d : d <> fd -> outgoing v' d = outgoing v d;
}.

#[export] Instance same_sockets_preorder : PreOrder same_sockets.
Proof.
  split.
  - intros v. by split.
  - intros v1 v2 v3 [] []. split; try lia; try congruence; try tauto; intros d; congruence.
Qed.

#[export] Instance same_others_preorder fd : PreOrder (same_others fd).
Proof.
  split.
  - intros v. by split.
  - intros v1 v2 v3 [] []. split; try lia; try tauto; intros d Hd; try rewrite others_descriptors1 by done;
      rewrite ?others_incoming1, ?others_outgoing1 by done; auto.
Qed.

Lemma same_sockets_others fd v v' : same_sockets v v' -> same_others fd v v'.
Proof. intros [? ? Hd ? ?]. split; auto. intros d _. by rewrite Hd. Qed.

Section Laws.
Context {W : Type} (net : net_os W).

Definition never_less {A} (call : W -> A * W) : Prop :=
  forall world r world', call world = (r, world') ->
    (os_transients net world' <= os_transients net world)%nat.

(** An interrupted or spurious result uses up one of finitely many. *)
Definition uses_up {A} (call : os_call W A) : Prop :=
  forall world r world', call world = (r, world') ->
    (os_transients net world' <= os_transients net world)%nat /\
    (forall e, r = OsErr e -> transient e = true ->
       (os_transients net world' < os_transients net world)%nat).

Class NetFinite : Prop := {
  finite_monotonic : never_less (os_monotonic net);
  finite_stopping : never_less (os_stopping net);
  finite_poll l timeout : uses_up (os_poll net l timeout);
  finite_recv d size : uses_up (os_recv net d size);
  finite_send d data : uses_up (os_send net d data);
}.

Class Net := {
  net_state : W -> net_view;
  quiet {A} (call : W -> A * W) : Prop := forall world r world',
    call world = (r, world') -> same_sockets (net_state world) (net_state world');
  law_monotonic world r world' : os_monotonic net world = (r, world') ->
    same_sockets (net_state world) (net_state world') /\
    forall sec nsec, r = OsOk (sec, nsec) -> 0 <= sec /\ 0 <= nsec < 1000000000 /\
      clock (net_state world) <= sec * 1000 + nsec / 1000000 <= clock (net_state world');
  law_realtime : quiet (os_realtime net);
  law_poll l timeout world r world' : os_poll net l timeout world = (r, world') ->
    same_sockets (net_state world) (net_state world') /\
    forall revents, r = OsOk revents -> length revents = length l /\
      (forall i fd events ready, l !! i = Some (fd, events) -> revents !! i = Some ready ->
         (fd < 0 -> ready = 0) /\
         Z.land ready (Z.lor events (Z.lor POLLNVAL (Z.lor POLLHUP POLLERR))) = ready) /\
      (0 <= timeout -> (forall ready, ready ∈ revents -> ready = 0) ->
         clock (net_state world) + timeout <= clock (net_state world'));
  law_recv d size world r world' : os_recv net d size world = (r, world') ->
    same_others d (net_state world) (net_state world') /\
    descriptors (net_state world') = descriptors (net_state world) /\
    outgoing (net_state world') d = outgoing (net_state world) d /\
    match r with
    | OsOk bytes =>
        incoming (net_state world) d = bytes ++ incoming (net_state world') d /\
        bytes_ok bytes /\ Z.of_nat (length bytes) <= Z.max 0 size /\
        (0 < size -> bytes = [] -> incoming (net_state world) d = [])
    | OsErr _ => incoming (net_state world') d = incoming (net_state world) d
    end;
  law_send d data world r world' : os_send net d data world = (r, world') ->
    same_others d (net_state world) (net_state world') /\
    descriptors (net_state world') = descriptors (net_state world) /\
    incoming (net_state world') d = incoming (net_state world) d /\
    match r with
    | OsOk count => 0 <= count <= Z.of_nat (length data) /\
        outgoing (net_state world') d = outgoing (net_state world) d ++ take (Z.to_nat count) data
    | OsErr _ => outgoing (net_state world') d = outgoing (net_state world) d
    end;
  law_accept d world r world' : os_accept net d world = (r, world') ->
    match r with
    | OsOk fd => 0 <= fd /\ (fd ∉ descriptors (net_state world)) /\
        same_others fd (net_state world) (net_state world') /\
        fd ∈ descriptors (net_state world') /\ outgoing (net_state world') fd = []
    | OsErr _ => same_sockets (net_state world) (net_state world')
    end;
  law_socket world r world' : os_socket net world = (r, world') ->
    match r with
    | OsOk fd => 0 <= fd /\ (fd ∉ descriptors (net_state world)) /\
        same_others fd (net_state world) (net_state world') /\
        fd ∈ descriptors (net_state world') /\ outgoing (net_state world') fd = []
    | OsErr _ => same_sockets (net_state world) (net_state world')
    end;
  law_connect d address world r world' : os_connect net d address world = (r, world') ->
    same_others d (net_state world) (net_state world') /\
    descriptors (net_state world') = descriptors (net_state world) /\
    outgoing (net_state world') d = outgoing (net_state world) d;
  law_close d world :
    same_others d (net_state world) (net_state (os_close net d world)) /\
    d ∉ descriptors (net_state (os_close net d world));
  law_getfl d : quiet (os_getfl net d);
  law_setfl d flags : quiet (os_setfl net d flags);
  law_reuseaddr d : quiet (os_reuseaddr net d);
  law_bind d address : quiet (os_bind net d address);
  law_listen d backlog : quiet (os_listen net d backlog);
  law_so_error d : quiet (os_so_error net d);
  law_sigaction s disp : quiet (os_sigaction net s disp);
  law_print s l : quiet (os_print net s l);
  law_flush s : quiet (os_flush net s);
  law_stopping world z world' : os_stopping net world = (z, world') ->
    same_sockets (net_state world) (net_state world') /\
    (z <> 0 <-> stopped (net_state world') = true);
}.

End Laws.

#[export] Hint Resolve same_sockets_others : faultline.
