(* ===== verification/SimNet.v ===== *)
(** A simulated network: sockets with scripted peers, a clock that advances with every
    call, scripted interruptions and partial transfers. It satisfies the laws of NetLaws
    and serves to run the programs on concrete inputs.

    A peer's stream is a list of segments. [poll] reports a descriptor readable when its
    next segment is not empty or when there is none left (the peer has closed); an empty
    segment stands for a wait in which nothing arrives. *)

From stdpp Require Import gmap.
From S2P Require Import Prelude Text WalWriter Net NetLaws.

Inductive net_fault :=
| NetProceed
| NetInterrupt
| NetChunk (n : nat).

Record sim_net := mk_sim_net {
  sn_clock : Z;
  sn_stop : Z;                          (* the signal that has been handled, or 0 *)
  sn_signals : list Z;                  (* what later reads of the flag find *)
  sn_fds : list Z;
  sn_in : gmap Z (list (list Z));
  sn_out : gmap Z (list Z);
  sn_peers : list (list (list Z));      (* the streams of the connections to come *)
  sn_faults : list net_fault;
  sn_printed : list (stream * list Z);
}.

Definition quiet_net (clock : Z) (peers : list (list (list Z))) : sim_net :=
  mk_sim_net clock 0 [] [] ∅ ∅ peers [] [].

(** ** State *)

Definition tick (ms : Z) (w : sim_net) : sim_net :=
  mk_sim_net (sn_clock w + Z.max 1 ms) (sn_stop w) (sn_signals w) (sn_fds w) (sn_in w) (sn_out w)
    (sn_peers w) (sn_faults w) (sn_printed w).

Definition next_fault (w : sim_net) : net_fault * sim_net :=
  match sn_faults w with
  | [] => (NetProceed, w)
  | f :: faults =>
      (f, mk_sim_net (sn_clock w) (sn_stop w) (sn_signals w) (sn_fds w) (sn_in w) (sn_out w)
            (sn_peers w) faults (sn_printed w))
  end.

Definition segments (w : sim_net) (d : Z) : list (list Z) := default [] (sn_in w !! d).

Definition set_segments (d : Z) (l : list (list Z)) (w : sim_net) : sim_net :=
  mk_sim_net (sn_clock w) (sn_stop w) (sn_signals w) (sn_fds w) (<[d := l]> (sn_in w)) (sn_out w)
    (sn_peers w) (sn_faults w) (sn_printed w).

Definition set_out (d : Z) (l : list Z) (w : sim_net) : sim_net :=
  mk_sim_net (sn_clock w) (sn_stop w) (sn_signals w) (sn_fds w) (sn_in w) (<[d := l]> (sn_out w))
    (sn_peers w) (sn_faults w) (sn_printed w).

(** A descriptor above all that are open. *)
Definition fresh_fd (w : sim_net) : Z := foldr Z.max 2 (sn_fds w) + 1.

Definition open_peer (w : sim_net) : Z * sim_net :=
  let fd := fresh_fd w in
  (fd, mk_sim_net (sn_clock w) (sn_stop w) (sn_signals w) (fd :: sn_fds w)
         (match sn_peers w with p :: _ => <[fd := p]> (sn_in w) | [] => sn_in w end)
         (<[fd := []]> (sn_out w)) (tail (sn_peers w)) (sn_faults w) (sn_printed w)).

(** ** Calls *)

(** The interruption of a call, if one is due. *)
Definition interruptible_call {A} (call : net_fault -> sim_net -> os_result A * sim_net) :
    os_call sim_net A := fun w =>
  match next_fault w with
  | (NetInterrupt, w) => (OsErr EINTR, tick 1 w)
  | (f, w) => call f w
  end.

(** The events of one descriptor, and the segments it has left. *)
Definition poll_one (w : sim_net) (d events : Z) : Z * list (list Z) :=
  let writable := Z.land events POLLOUT in
  if d <? 0 then (0, segments w d)
  else
    match sn_in w !! d with
    | None =>
        if bool_decide (sn_peers w = []) then (writable, []) else (Z.lor writable (Z.land events POLLIN), [])
    | Some ([] :: rest) => (writable, rest)
    | Some l => (Z.lor writable (Z.land events POLLIN), l)
    end.

Fixpoint poll_all (l : list (Z * Z)) (w : sim_net) : list Z * sim_net :=
  match l with
  | [] => ([], w)
  | (d, events) :: l =>
      let '(ready, rest) := poll_one w d events in
      let '(revents, w') :=
        poll_all l (if bool_decide (sn_in w !! d = None) then w else set_segments d rest w) in
      (ready :: revents, w')
  end.

Definition sim_poll (l : list (Z * Z)) (timeout : Z) : os_call sim_net (list Z) :=
  interruptible_call (fun _ w =>
    let '(revents, w) := poll_all l w in
    (OsOk revents, if forallb (Z.eqb 0) revents then tick timeout w else tick 1 w)).

Definition chunk (f : net_fault) (n : nat) : nat :=
  match f with NetChunk c => Nat.min (Nat.max 1 c) n | _ => n end.

Fixpoint take_segment (n : nat) (l : list (list Z)) : list Z * list (list Z) :=
  match l with
  | [] => ([], [])
  | [] :: l => take_segment n l
  | s :: l => (take n s, match drop n s with [] => l | rest => rest :: l end)
  end.

Definition sim_recv (d size : Z) : os_call sim_net (list Z) :=
  interruptible_call (fun f w =>
    let '(bytes, rest) := take_segment (chunk f (Z.to_nat size)) (segments w d) in
    (OsOk (u8 <$> bytes), tick 1 (set_segments d rest w))).

Definition sim_send (d : Z) (data : list Z) : os_call sim_net Z :=
  interruptible_call (fun f w =>
    let n := chunk f (length data) in
    (OsOk (Z.of_nat n), tick 1 (set_out d (default [] (sn_out w !! d) ++ take n data) w))).

Definition sim_accept (d : Z) : os_call sim_net Z := fun w =>
  match sn_peers w with
  | [] => (OsErr EAGAIN, tick 1 w)
  | _ => let '(fd, w) := open_peer w in (OsOk fd, tick 1 w)
  end.

Definition sim_socket : os_call sim_net Z := fun w => let '(fd, w) := open_peer w in (OsOk fd, tick 1 w).

Definition sim_ok {A} (a : A) : os_call sim_net A := fun w => (OsOk a, tick 1 w).

Definition sim_clock : os_call sim_net (Z * Z) := fun w =>
  (OsOk (Z.max 0 (sn_clock w) / 1000, Z.max 0 (sn_clock w) mod 1000 * 1000000),
   mk_sim_net (Z.max 0 (sn_clock w) + 1) (sn_stop w) (sn_signals w) (sn_fds w) (sn_in w) (sn_out w)
     (sn_peers w) (sn_faults w) (sn_printed w)).

Definition sim_stopping (w : sim_net) : Z * sim_net :=
  let stop := if sn_stop w !=? 0 then sn_stop w else hd 0 (sn_signals w) in
  (stop, mk_sim_net (sn_clock w) stop (tail (sn_signals w)) (sn_fds w) (sn_in w) (sn_out w)
           (sn_peers w) (sn_faults w) (sn_printed w)).

Definition sim_close (d : Z) (w : sim_net) : sim_net :=
  mk_sim_net (sn_clock w) (sn_stop w) (sn_signals w) (filter (fun x => x <> d) (sn_fds w)) (sn_in w)
    (sn_out w) (sn_peers w) (sn_faults w) (sn_printed w).

Definition sim_print (s : stream) (l : list Z) (w : sim_net) : bool * sim_net :=
  (true, mk_sim_net (sn_clock w) (sn_stop w) (sn_signals w) (sn_fds w) (sn_in w) (sn_out w)
           (sn_peers w) (sn_faults w) (sn_printed w ++ [(s, l)])).

(** The address parser accepts digits and dots. *)
Definition sim_inet_pton (l : list Z) : option Z :=
  if forallb (fun c => is_digit c || (c =? 46)) l then Some 0 else None.

Definition sim_net_os : net_os sim_net := {|
  os_monotonic := sim_clock;
  os_realtime := sim_clock;
  os_poll := sim_poll;
  os_recv := sim_recv;
  os_send := sim_send;
  os_accept := sim_accept;
  os_socket := sim_socket;
  os_getfl := fun _ => sim_ok 2;
  os_setfl := fun _ _ => sim_ok tt;
  os_reuseaddr := fun _ => sim_ok tt;
  os_bind := fun _ _ => sim_ok tt;
  os_listen := fun _ _ => sim_ok tt;
  os_connect := fun _ _ => sim_ok tt;
  os_so_error := fun _ => sim_ok 0;
  os_close := sim_close;
  os_sigaction := fun _ _ => sim_ok tt;
  os_stopping := sim_stopping;
  os_print := sim_print;
  os_flush := fun _ w => (true, w);
  os_getpid := 42;
  os_inet_pton := sim_inet_pton;
  os_strerror := fun e => Some (text "error " ++ print_int e);
  os_transients := fun w => length (sn_faults w);
|}.

(** ** Laws *)

Definition sim_net_view (w : sim_net) : net_view := {|
  clock := sn_clock w;
  stopped := sn_stop w !=? 0;
  descriptors := sn_fds w;
  incoming := fun d => u8 <$> concat (segments w d);
  outgoing := fun d => default [] (sn_out w !! d);
|}.

Lemma tick_sockets ms w : same_sockets (sim_net_view w) (sim_net_view (tick ms w)).
Proof. split; cbn; auto. lia. Qed.

Lemma next_fault_spec w f w' :
  next_fault w = (f, w') ->
  sim_net_view w' = sim_net_view w /\ (length (sn_faults w') <= length (sn_faults w))%nat /\
  (f = NetInterrupt -> (length (sn_faults w') < length (sn_faults w))%nat).
Proof.
  unfold next_fault. destruct (sn_faults w) as [|g l] eqn:E; intros [= <- <-]; cbn; rewrite ?E; [done|].
  cbn. split_and!; [done|lia|lia].
Qed.

Lemma concat_take_segment n l bytes rest :
  take_segment n l = (bytes, rest) -> concat l = bytes ++ concat rest.
Proof.
  induction l as [|[|b s] l IH]; cbn [take_segment]; [intros [= <- <-]; done|auto|].
  intros [= <- <-]. rewrite (concat_cons (b :: s)). rewrite <- (take_drop n (b :: s)) at 1.
  rewrite <- app_assoc. f_equal. by destruct (drop n (b :: s)).
Qed.

Lemma take_segment_length n l : (length (fst (take_segment n l)) <= n)%nat.
Proof.
  induction l as [|[|b s] l IH]; cbn [take_segment]; [cbn; lia|done|]. cbn [fst].
  rewrite length_take. lia.
Qed.

Lemma take_segment_end n l : (0 < n)%nat -> fst (take_segment n l) = [] -> concat l = [].
Proof.
  intros Hn. induction l as [|[|b s] l IH]; cbn [take_segment]; [done|done|]. by destruct n; [lia|].
Qed.

Lemma fresh_fd_spec w : 0 <= fresh_fd w /\ fresh_fd w ∉ sn_fds w.
Proof.
  assert (forall l x, x ∈ l -> x <= foldr Z.max 2 l) as Hmax.
  { induction l as [|y l IH]; intros x Hx; [set_solver|]. cbn.
    apply elem_of_cons in Hx as [->|Hx]; [lia|]. apply IH in Hx. lia. }
  assert (forall l, 2 <= foldr Z.max 2 l) as Hmin by (induction l; cbn; lia).
  unfold fresh_fd. split; [pose proof (Hmin (sn_fds w)); lia|]. intros Hx. apply Hmax in Hx. lia.
Qed.

Lemma poll_one_spec w d events ready rest :
  poll_one w d events = (ready, rest) ->
  (d < 0 -> ready = 0) /\
  Z.land ready (Z.lor events (Z.lor POLLNVAL (Z.lor POLLHUP POLLERR))) = ready /\
  (sn_in w !! d <> None -> concat rest = concat (segments w d)).
Proof.
  assert (forall a m, Z.land (Z.land a m) (Z.lor a (Z.lor POLLNVAL (Z.lor POLLHUP POLLERR))) = Z.land a m)
    as Hbits.
  { intros a m. apply Z.bits_inj'. intros i Hi. rewrite !Z.land_spec, Z.lor_spec.
    by destruct (Z.testbit a i), (Z.testbit m i). }
  unfold poll_one, segments. destruct (Z.ltb_spec d 0); [by intros [= <- <-]|].
  intros H'. split; [lia|]. revert H'.
  destruct (sn_in w !! d) as [[|[|b s] l]|]; cbn [default]; [| | |case_bool_decide]; intros [= <- <-];
    rewrite <- ?Z.land_lor_distr_r; (split; [apply Hbits|done]).
Qed.

Lemma poll_all_spec l w revents w' :
  poll_all l w = (revents, w') ->
  sn_clock w' = sn_clock w /\ sn_stop w' = sn_stop w /\ sn_faults w' = sn_faults w /\
  sn_fds w' = sn_fds w /\ sn_out w' = sn_out w /\ (forall d, concat (segments w' d) = concat (segments w d)) /\
  length revents = length l /\
  forall i fd events ready, l !! i = Some (fd, events) -> revents !! i = Some ready ->
    (fd < 0 -> ready = 0) /\
    Z.land ready (Z.lor events (Z.lor POLLNVAL (Z.lor POLLHUP POLLERR))) = ready.
Proof.
  revert w revents. induction l as [|[d events] l IH]; intros w revents; cbn [poll_all].
  { intros [= <- <-]. split_and!; done. }
  destruct (poll_one w d events) as [ready rest] eqn:E1.
  apply poll_one_spec in E1 as (Hneg & Hbits & Hrest).
  destruct (poll_all l _) as [more w2] eqn:E2. intros [= <- <-].
  apply IH in E2 as (Hc & Hst & Hf & Hfd & Ho & Hs & Hl & Hr).
  assert (forall d', concat (segments (if bool_decide (sn_in w !! d = None) then w
            else set_segments d rest w) d') = concat (segments w d')) as Hseg.
  { intros d'. case_bool_decide as Hd; [done|]. unfold segments, set_segments at 1. cbn.
    destruct (decide (d' = d)) as [->|]; [|by rewrite lookup_insert_ne].
    rewrite lookup_insert_eq. by apply Hrest. }
  split_and!; [by rewrite Hc; case_bool_decide|by rewrite Hst; case_bool_decide
    |by rewrite Hf; case_bool_decide|by rewrite Hfd; case_bool_decide|by rewrite Ho; case_bool_decide
    |intros d'; by rewrite Hs, Hseg|cbn; by rewrite Hl|].
  intros [|i] fd ev rd; cbn; [intros [= <- <-] [= <-]; done|apply Hr].
Qed.

Lemma interruptible_spec {A} (call : net_fault -> sim_net -> os_result A * sim_net)
    (P : sim_net -> os_result A -> sim_net -> Prop) w r w' :
  (forall w v, sim_net_view v = sim_net_view w -> P w (OsErr EINTR) (tick 1 v)) ->
  (forall f w v r w', sim_net_view v = sim_net_view w -> call f v = (r, w') -> P w r w') ->
  interruptible_call call w = (r, w') -> P w r w'.
Proof.
  intros Hint Hcall. unfold interruptible_call. destruct (next_fault w) as [f v] eqn:E.
  apply next_fault_spec in E as (Hv & _). destruct f; [|intros [= <- <-]; auto|]; eauto.
Qed.

Lemma interruptible_uses_up {A} (call : net_fault -> sim_net -> os_result A * sim_net) :
  (forall f w r w', call f w = (r, w') -> sn_faults w' = sn_faults w /\ forall e, r <> OsErr e) ->
  uses_up sim_net_os (interruptible_call call).
Proof.
  intros Hcall w r w'. unfold interruptible_call. destruct (next_fault w) as [f v] eqn:E.
  apply next_fault_spec in E as (_ & Hle & Hlt). cbn [os_transients sim_net_os]. destruct f.
  2:{ intros [= <- <-]. cbn [tick sn_faults]. specialize (Hlt eq_refl). split; [lia|]. lia. }
  all: intros H; apply Hcall in H as [-> Hr]; (split; [lia|]); intros e He; by destruct (Hr e).
Qed.

#[export] Instance sim_net_finite : NetFinite sim_net_os.
Proof.
  split.
  - intros w r w' [= <- <-]. cbn. lia.
  - intros w r w'. cbn. unfold sim_stopping. intros [= <- <-]. cbn. lia.
  - intros l timeout. apply interruptible_uses_up. intros _ w r w'.
    destruct (poll_all l w) as [revents w1] eqn:E. apply poll_all_spec in E as (_ & _ & Hf & _).
    intros [= <- <-]. split; [|done]. by destruct (forallb _ _).
  - intros d size. apply interruptible_uses_up. intros f w r w'.
    destruct (take_segment _ _) as [bytes rest]. by intros [= <- <-].
  - intros d data. apply interruptible_uses_up. intros f w r w'. by intros [= <- <-].
Qed.

Lemma sim_poll_law l timeout w r w' :
  sim_poll l timeout w = (r, w') ->
  same_sockets (sim_net_view w) (sim_net_view w') /\
  forall revents, r = OsOk revents -> length revents = length l /\
    (forall i fd events ready, l !! i = Some (fd, events) -> revents !! i = Some ready ->
       (fd < 0 -> ready = 0) /\
       Z.land ready (Z.lor events (Z.lor POLLNVAL (Z.lor POLLHUP POLLERR))) = ready) /\
    (0 <= timeout -> (forall ready, ready ∈ revents -> ready = 0) ->
       clock (sim_net_view w) + timeout <= clock (sim_net_view w')).
Proof.
  revert w r w'. refine (fun w r w' => interruptible_spec _ (fun w r w' => _) w r w' _ _).
  { intros w1 v Hv. split; [rewrite <- Hv; apply tick_sockets|done]. }
  intros _ w1 v r1 w1' Hv. destruct (poll_all l v) as [revents w2] eqn:E.
  apply poll_all_spec in E as (Hc & Hst & Hf & Hfd & Ho & Hs & Hl & Hr). intros [= <- <-].
  assert (same_sockets (sim_net_view v) (sim_net_view w2)) as H2.
  { split; cbn; rewrite ?Hc, ?Hst, ?Hfd, ?Ho; auto; [lia|]. intros d. by rewrite Hs. }
  rewrite <- Hv. split.
  - etrans; [exact H2|]. destruct (forallb _ _); apply tick_sockets.
  - intros revents' [= <-]. split; [done|]. split; [done|]. intros Ht Hz.
    assert (forallb (Z.eqb 0) revents = true) as ->.
    { apply forallb_forall. intros x Hx. apply list_elem_of_In in Hx. apply Hz in Hx as ->. done. }
    cbn. lia.
Qed.

Lemma sim_recv_law d size w r w' :
  sim_recv d size w = (r, w') ->
  same_others d (sim_net_view w) (sim_net_view w') /\
  descriptors (sim_net_view w') = descriptors (sim_net_view w) /\
  outgoing (sim_net_view w') d = outgoing (sim_net_view w) d /\
  match r with
  | OsOk bytes => incoming (sim_net_view w) d = bytes ++ incoming (sim_net_view w') d /\
      bytes_ok bytes /\ Z.of_nat (length bytes) <= Z.max 0 size /\
      (0 < size -> bytes = [] -> incoming (sim_net_view w) d = [])
  | OsErr _ => incoming (sim_net_view w') d = incoming (sim_net_view w) d
  end.
Proof.
  revert w r w'. refine (fun w r w' => interruptible_spec _ (fun w r w' => _) w r w' _ _).
  { intros w1 v Hv. rewrite <- Hv. split; [apply same_sockets_others, tick_sockets|done]. }
  intros f w1 v r1 w1' Hv. rewrite <- Hv.
  pose proof (take_segment_length (chunk f (Z.to_nat size)) (segments v d)) as Hlen.
  pose proof (take_segment_end (chunk f (Z.to_nat size)) (segments v d)) as Hend.
  destruct (take_segment _ (segments v d)) as [bytes rest] eqn:E. cbn in Hlen, Hend.
  apply concat_take_segment in E. intros [= <- <-].
  assert (chunk f (Z.to_nat size) <= Z.to_nat size)%nat by (destruct f; cbn; lia).
  assert (0 < size -> (0 < chunk f (Z.to_nat size))%nat) by (destruct f; cbn; lia).
  split; [|split; [done|split; [done|]]].
  - split; cbn; auto; [lia|]. intros d' Hd'. unfold segments, tick, set_segments. cbn.
    by rewrite lookup_insert_ne.
  - cbn [incoming sim_net_view]. split_and!.
    + rewrite E, fmap_app. f_equal. unfold segments, tick, set_segments. cbn. by rewrite lookup_insert_eq.
    + apply Forall_fmap, Forall_true. intros x. apply u8_range.
    + rewrite length_fmap. lia.
    + intros Hs Hb. apply fmap_nil_inv in Hb. rewrite Hend; [done|auto|done].
Qed.

Lemma sim_send_law d data w r w' :
  sim_send d data w = (r, w') ->
  same_others d (sim_net_view w) (sim_net_view w') /\
  descriptors (sim_net_view w') = descriptors (sim_net_view w) /\
  incoming (sim_net_view w') d = incoming (sim_net_view w) d /\
  match r with
  | OsOk count => 0 <= count <= Z.of_nat (length data) /\
      outgoing (sim_net_view w') d = outgoing (sim_net_view w) d ++ take (Z.to_nat count) data
  | OsErr _ => outgoing (sim_net_view w') d = outgoing (sim_net_view w) d
  end.
Proof.
  revert w r w'. refine (fun w r w' => interruptible_spec _ (fun w r w' => _) w r w' _ _).
  { intros w1 v Hv. rewrite <- Hv. split; [apply same_sockets_others, tick_sockets|done]. }
  intros f w1 v r1 w1' Hv. rewrite <- Hv. intros [= <- <-].
  assert (chunk f (length data) <= length data)%nat by (destruct f; cbn; lia).
  split; [|split; [done|split; [done|split; [lia|]]]].
  - split; cbn; auto; [lia|]. intros d' Hd'. by rewrite lookup_insert_ne.
  - cbn. rewrite lookup_insert_eq, Nat2Z.id. done.
Qed.

Lemma open_peer_law w fd w' :
  open_peer w = (fd, w') ->
  0 <= fd /\ (fd ∉ sn_fds w) /\ same_others fd (sim_net_view w) (sim_net_view (tick 1 w')) /\
  fd ∈ sn_fds (tick 1 w') /\ outgoing (sim_net_view (tick 1 w')) fd = [].
Proof.
  unfold open_peer. intros [= <- <-]. destruct (fresh_fd_spec w) as [Hpos Hfresh].
  split; [done|]. split; [done|]. split; [|split; [cbn; set_solver|]].
  - split; cbn; auto; [lia|set_solver| |]; intros d Hd; unfold segments; cbn.
    + destruct (sn_peers w); [done|]. by rewrite lookup_insert_ne.
    + by rewrite lookup_insert_ne.
  - cbn. by rewrite lookup_insert_eq.
Qed.

#[export] Instance sim_net_laws : Net sim_net_os.
Proof.
  refine {| net_state := sim_net_view : sim_net -> net_view |}; cbn [os_monotonic os_realtime os_poll os_recv os_send
    os_accept os_socket os_getfl os_setfl os_reuseaddr os_bind os_listen os_connect os_so_error os_close
    os_sigaction os_stopping os_print os_flush sim_net_os].
  - intros w r w' [= <- <-]. split; [split; cbn; auto; lia|]. intros s n [= <- <-]. cbn.
    pose proof (Z.mod_pos_bound (Z.max 0 (sn_clock w)) 1000). rewrite Z.div_mul by done.
    split_and!; [|lia|lia| |]; Z.div_mod_to_equations; lia.
  - intros w r w' [= <- <-]. split; cbn; auto; lia.
  - apply sim_poll_law.
  - apply sim_recv_law.
  - apply sim_send_law.
  - intros d w r w'. unfold sim_accept. destruct (sn_peers w) eqn:E; [intros [= <- <-]; apply tick_sockets|].
    destruct (open_peer w) as [fd v] eqn:Eo. intros [= <- <-]. by apply open_peer_law.
  - intros w r w'. unfold sim_socket. destruct (open_peer w) as [fd v] eqn:Eo. intros [= <- <-].
    by apply open_peer_law.
  - intros d address w r w' [= <- <-]. split; [apply same_sockets_others, tick_sockets|done].
  - intros d w. split; [|cbn; rewrite list_elem_of_filter; tauto].
    split; cbn; auto; [lia|]. intros d' Hd'. rewrite list_elem_of_filter. tauto.
  - intros d w r w' [= <- <-]. apply tick_sockets.
  - intros d flags w r w' [= <- <-]. apply tick_sockets.
  - intros d w r w' [= <- <-]. apply tick_sockets.
  - intros d address w r w' [= <- <-]. apply tick_sockets.
  - intros d backlog w r w' [= <- <-]. apply tick_sockets.
  - intros d w r w' [= <- <-]. apply tick_sockets.
  - intros s disp w r w' [= <- <-]. apply tick_sockets.
  - intros s l w r w' [= <- <-]. split; cbn; auto; lia.
  - intros s w r w' [= <- <-]. done.
  - intros w z w'. unfold sim_stopping. intros [= <- <-]. cbn. split.
    + split; cbn; auto; [lia|]. intros H. by rewrite H, H.
    + destruct (Z.eqb_spec (if sn_stop w !=? 0 then sn_stop w else hd 0 (sn_signals w)) 0) as [->|]; done.
Defined.
