(* ===== verification/NetProofs.v ===== *)
(** The network helpers: what the parsers accept, that the loops end, and that whole
    transfers are exact. *)

From stdpp Require Import gmap.
From S2P Require Import Prelude Text WalWriter Net NetLaws SimNet.

(** ** Parsers *)

Lemma parse_port_loop_spec cursor value :
  0 <= value <= UINT16_MAX ->
  parse_port_loop value cursor =
  match digits_from value cursor with
  | Some v => if v <=? UINT16_MAX then Some v else None
  | None => None
  end.
Proof.
  revert cursor value. apply bounded_numeral; [done|]. intros v c l Hv. cbn [parse_port_loop].
  destruct ((c <? 48) || (57 <? c)) eqn:E; [done|]. split_bools. reflect_bools.
  rewrite (u32_id (c - 48)), u32_id by ilia. rewrite Z.leb_antisym. by destruct (_ <? _).
Qed.

Lemma parse_port_spec text : faultline_parse_port text = decimal_between 1 UINT16_MAX text.
Proof.
  unfold faultline_parse_port, decimal_between, decimal_value. destruct text as [|c text]; [done|].
  rewrite parse_port_loop_spec by done. destruct (digits_from 0 _) as [v|] eqn:E; [|done].
  apply digits_from_le in E; [|done].
  destruct (Z.leb_spec v UINT16_MAX); [|by rewrite andb_false_r].
  destruct (Z.eqb_spec v 0) as [->|]; [done|]. rewrite (proj2 (Z.leb_le 1 v)) by lia. cbn.
  by rewrite u16_id by ilia.
Qed.

Lemma parse_duration_loop_spec cursor value :
  0 <= value <= INT_MAX ->
  parse_duration_loop value cursor =
  match digits_from value cursor with
  | Some v => if v <=? INT_MAX then Some v else None
  | None => None
  end.
Proof.
  revert cursor value. apply bounded_numeral; [done|]. intros v c l Hv. cbn [parse_duration_loop].
  replace (c - 48 <? 0) with (c <? 48) by lia. replace (9 <? c - 48) with (57 <? c) by lia.
  destruct ((c <? 48) || (57 <? c)) eqn:E; [done|]. cbn [orb]. split_bools. reflect_bools.
  rewrite quotient_test by lia. by destruct (_ <=? _).
Qed.

Lemma parse_duration_spec text : faultline_parse_duration_ms text = decimal_between 1 INT_MAX text.
Proof.
  unfold faultline_parse_duration_ms, decimal_between, decimal_value. destruct text as [|c text]; [done|].
  rewrite parse_duration_loop_spec by done. destruct (digits_from 0 _) as [v|] eqn:E; [|done].
  apply digits_from_le in E; [|done].
  destruct (Z.leb_spec v INT_MAX); [|by rewrite andb_false_r].
  destruct (Z.eqb_spec v 0) as [->|]; [done|]. by rewrite (proj2 (Z.leb_le 1 v)) by lia.
Qed.

Lemma split_colon_app before after :
  58 ∉ before -> split_colon (before ++ 58 :: after) = Some (before, after).
Proof.
  induction before as [|c before IH]; intros Hc; [done|]. apply not_elem_of_cons in Hc as [Hne Hc].
  cbn. rewrite (proj2 (Z.eqb_neq _ _)) by congruence. by rewrite IH.
Qed.

Lemma split_colon_spec l before after :
  split_colon l = Some (before, after) -> l = before ++ 58 :: after /\ 58 ∉ before.
Proof.
  revert before. induction l as [|c l IH]; intros before; cbn; [done|].
  destruct (Z.eqb_spec c 58) as [->|Hne]; [intros [= <- <-]; split; [done|set_solver]|].
  destruct (split_colon l) as [[b a]|]; [|done]. intros [= <- ->].
  destruct (IH b eq_refl) as [-> Hb]. split; [done|]. apply not_elem_of_cons. by split.
Qed.

(** ** Loops *)

Section NetProofs.
Context {W : Type} (net : net_os W) {FIN : NetFinite net} {NET : Net net}.

Lemma monotonic_step world t world' :
  faultline_monotonic_ms net world = (t, world') ->
  same_sockets (net_state net world) (net_state net world') /\
  (os_transients net world' <= os_transients net world)%nat /\
  (0 <= t -> clock (net_state net world) <= t <= clock (net_state net world')).
Proof.
  unfold faultline_monotonic_ms. destruct (os_monotonic net world) as [[[s n]|e] w1] eqn:E;
    intros [= <- <-]; destruct (law_monotonic net _ _ _ E) as [Hs Ht]; (split; [done|]);
    (split; [by eapply (finite_monotonic net)|]); [|lia].
  destruct (Ht s n eq_refl) as (? & ? & ?). intros _. rewrite Z.quot_div_nonneg by lia. lia.
Qed.

(** The events that [poll] can report of one descriptor decide the wait. *)
Lemma poll_decides fd events timeout world revents world' :
  os_poll net [(fd, events)] timeout world = (OsOk revents, world') ->
  exists ready, revents = [ready] /\
    (ready = 0 \/ Z.land ready POLLNVAL <> 0 \/
     Z.land ready (Z.lor events (Z.lor POLLHUP POLLERR)) <> 0).
Proof.
  intros E. destruct (law_poll net _ _ _ _ _ E) as [_ H]. destruct (H revents eq_refl) as (Hl & Hr & _).
  destruct revents as [|ready [|]]; try done. exists ready. split; [done|].
  destruct (Hr 0%nat fd events ready) as (_ & Hbits); [done..|].
  destruct (decide (ready = 0)) as [|Hne]; [by left|right].
  destruct (decide (Z.land ready POLLNVAL = 0)) as [E1|]; [|by left].
  destruct (decide (Z.land ready (Z.lor events (Z.lor POLLHUP POLLERR)) = 0)) as [E2|]; [|by right].
  destruct Hne. rewrite <- Hbits, Z.lor_assoc, (Z.lor_comm events), <- Z.lor_assoc, Z.land_lor_distr_r.
  by rewrite E1, E2.
Qed.

Lemma wait_ready_fuel fuel fuel' fd events deadline world :
  (os_transients net world <= fuel)%nat -> (os_transients net world <= fuel')%nat ->
  wait_ready_loop net fuel fd events deadline world = wait_ready_loop net fuel' fd events deadline world.
Proof.
  revert fuel' world. induction fuel as [|fuel IH]; intros fuel' world H H';
    destruct fuel' as [|fuel']; cbn [wait_ready_loop]; try done;
    destruct (faultline_monotonic_ms net world) as [now w1] eqn:E1;
    apply monotonic_step in E1 as (_ & Ht & _);
    destruct (now <? 0); try done; destruct (deadline <=? now); try done;
    destruct (os_poll net _ _ w1) as [[revents|e] w2] eqn:E2;
    destruct (finite_poll net _ _ _ _ _ E2) as [Hle Hlt].
  1,3,5: destruct (poll_decides _ _ _ _ _ _ E2) as (ready & -> & Hready); cbn;
    destruct (Z.eqb_spec ready 0); [done|]; destruct (Z.eqb_spec (Z.land ready POLLNVAL) 0); [|done];
    destruct (Z.eqb_spec (Z.land ready (Z.lor events (Z.lor POLLHUP POLLERR))) 0); [|done]; tauto.
  all: destruct (Z.eqb_spec e EINTR) as [->|]; [|done];
    specialize (Hlt _ eq_refl eq_refl); try lia.
  apply IH; lia.
Qed.

(** The loop of the code. *)
Lemma wait_ready_eq fd events deadline world :
  wait_ready net fd events deadline world =
  let '(now, world) := faultline_monotonic_ms net world in
  if now <? 0 then (OsErr EINVAL, world)
  else if deadline <=? now then (OsErr ETIMEDOUT, world)
  else
    match os_poll net [(fd, events)] (deadline - now) world with
    | (OsErr error, world) =>
        if error =? EINTR then wait_ready net fd events deadline world else (OsErr error, world)
    | (OsOk revents, world) =>
        let revents := revents !!! 0%nat in
        if revents =? 0 then (OsErr ETIMEDOUT, world)
        else if Z.land revents POLLNVAL !=? 0 then (OsErr EBADF, world)
        else if Z.land revents (Z.lor events (Z.lor POLLHUP POLLERR)) !=? 0 then (OsOk tt, world)
        else wait_ready net fd events deadline world
    end.
Proof.
  unfold wait_ready at 1. destruct (os_transients net world) as [|n] eqn:En; cbn [wait_ready_loop];
    destruct (faultline_monotonic_ms net world) as [now w1] eqn:E1;
    apply monotonic_step in E1 as (_ & Ht & _);
    destruct (now <? 0); try done; destruct (deadline <=? now); try done;
    destruct (os_poll net _ _ w1) as [[revents|e] w2] eqn:E2;
    destruct (finite_poll net _ _ _ _ _ E2) as [Hle Hlt].
  1,3: destruct (poll_decides _ _ _ _ _ _ E2) as (ready & -> & Hready); cbn;
    destruct (Z.eqb_spec ready 0); [done|]; destruct (Z.eqb_spec (Z.land ready POLLNVAL) 0); [|done];
    destruct (Z.eqb_spec (Z.land ready (Z.lor events (Z.lor POLLHUP POLLERR))) 0); [|done]; tauto.
  all: destruct (Z.eqb_spec e EINTR) as [->|]; [|done];
    specialize (Hlt _ eq_refl eq_refl); try lia.
  apply wait_ready_fuel; lia.
Qed.

Lemma wait_ready_step fd events deadline world r world' :
  wait_ready net fd events deadline world = (r, world') ->
  same_sockets (net_state net world) (net_state net world') /\
  (os_transients net world' <= os_transients net world)%nat.
Proof.
  remember (os_transients net world) as n eqn:En. revert world En.
  induction n as [n IH] using (well_founded_induction lt_wf). intros world ->.
  rewrite wait_ready_eq. destruct (faultline_monotonic_ms net world) as [now w1] eqn:E1.
  apply monotonic_step in E1 as (Hs1 & Ht1 & _).
  destruct (now <? 0); [by intros [= <- <-]|]. destruct (deadline <=? now); [by intros [= <- <-]|].
  destruct (os_poll net _ _ w1) as [[revents|e] w2] eqn:E2;
    destruct (finite_poll net _ _ _ _ _ E2) as [Hle Hlt];
    destruct (law_poll net _ _ _ _ _ E2) as [Hs2 _].
  - destruct (poll_decides _ _ _ _ _ _ E2) as (ready & -> & Hready). cbn.
    assert (same_sockets (net_state net world) (net_state net w2)) by (by etrans).
    destruct (Z.eqb_spec ready 0); [intros [= <- <-]; split; [done|lia]|].
    destruct (Z.eqb_spec (Z.land ready POLLNVAL) 0); [|intros [= <- <-]; split; [done|lia]].
    destruct (Z.eqb_spec (Z.land ready (Z.lor events (Z.lor POLLHUP POLLERR))) 0);
      [tauto|intros [= <- <-]; split; [done|lia]].
  - destruct (Z.eqb_spec e EINTR) as [->|]; [|intros [= <- <-]; split; [by etrans|lia]].
    specialize (Hlt _ eq_refl eq_refl). intros H.
    destruct (IH (os_transients net w2) ltac:(lia) w2 eq_refl H) as [Hs Ht].
    split; [by do 2 (etrans; [done|])|lia].
Qed.

(** ** Sending *)

Lemma send_all_fuel fuel fuel' fd data deadline world :
  (os_transients net world + length data <= fuel)%nat ->
  (os_transients net world + length data <= fuel')%nat ->
  send_all_loop net fuel fd data deadline world = send_all_loop net fuel' fd data deadline world.
Proof.
  revert fuel' data world. induction fuel as [|fuel IH]; intros fuel' data world H H'.
  { destruct data; [|cbn in H; lia]. by destruct fuel'. }
  destruct data as [|b data']; [by destruct fuel'|].
  destruct fuel' as [|fuel']; [cbn in H'; lia|].
  set (data := b :: data') in *. cbn [send_all_loop].
  destruct (wait_ready net fd POLLOUT deadline world) as [[[]|e] w1] eqn:E1; [|done].
  apply wait_ready_step in E1 as [_ Ht1].
  destruct (os_send net fd data w1) as [[count|e] w2] eqn:E2;
    destruct (finite_send net _ _ _ _ _ E2) as [Hle Hlt];
    destruct (law_send net _ _ _ _ _ E2) as (_ & _ & _ & Hs).
  - destruct (Z.eqb_spec count 0); [done|]. apply IH; rewrite length_drop; lia.
  - destruct (transient e) eqn:Et; [|done]. specialize (Hlt _ eq_refl Et). apply IH; lia.
Qed.

(** Sending all of [data] until the deadline, as the loop of the code does it. *)
Definition send_from (fd : Z) (data : list Z) (deadline : Z) (world : W) : os_result unit * W :=
  send_all_loop net (os_transients net world + length data) fd data deadline world.

Lemma send_from_eq fd data deadline world :
  send_from fd data deadline world =
  match data with
  | [] => (OsOk tt, world)
  | _ =>
      match wait_ready net fd POLLOUT deadline world with
      | (OsErr error, world) => (OsErr error, world)
      | (OsOk _, world) =>
          match os_send net fd data world with
          | (OsOk count, world) =>
              if count =? 0 then (OsErr EPIPE, world)
              else send_from fd (drop (Z.to_nat count) data) deadline world
          | (OsErr error, world) =>
              if transient error then send_from fd data deadline world else (OsErr error, world)
          end
      end
  end.
Proof.
  unfold send_from at 1. destruct data as [|b data']; [by destruct (_ + _)%nat|].
  set (data := b :: data') in *.
  replace (os_transients net world + length data)%nat
    with (S (os_transients net world + length data')) by (cbn; lia).
  cbn [send_all_loop]. unfold data at 1.
  destruct (wait_ready net fd POLLOUT deadline world) as [[[]|e] w1] eqn:E1; [|done].
  apply wait_ready_step in E1 as [_ Ht1].
  destruct (os_send net fd data w1) as [[count|e] w2] eqn:E2;
    destruct (finite_send net _ _ _ _ _ E2) as [Hle Hlt];
    destruct (law_send net _ _ _ _ _ E2) as (_ & _ & _ & Hs).
  - destruct (Z.eqb_spec count 0); [done|]. apply send_all_fuel; rewrite ?length_drop; cbn; lia.
  - destruct (transient e) eqn:Et; [|done]. specialize (Hlt _ eq_refl Et).
    apply send_all_fuel; cbn; lia.
Qed.

(** What a transfer to [fd] changes: it has appended [sent] to what was handed over. *)
Record appended (fd : Z) (sent : list Z) (world world' : W) : Prop := {
  app_others : same_others fd (net_state net world) (net_state net world');
  app_descriptors : descriptors (net_state net world') = descriptors (net_state net world);
  app_incoming : incoming (net_state net world') fd = incoming (net_state net world) fd;
  app_outgoing : outgoing (net_state net world') fd = outgoing (net_state net world) fd ++ sent;
  app_transients : (os_transients net world' <= os_transients net world)%nat;
}.

Lemma appended_trans fd l k world1 world2 world3 :
  appended fd l world1 world2 -> appended fd k world2 world3 -> appended fd (l ++ k) world1 world3.
Proof.
  intros [] []. split; [by etrans|congruence|congruence| |lia].
  rewrite app_outgoing1, app_outgoing0. by rewrite app_assoc.
Qed.

Lemma quiet_appended fd world world' :
  same_sockets (net_state net world) (net_state net world') ->
  (os_transients net world' <= os_transients net world)%nat -> appended fd [] world world'.
Proof.
  intros Hs Ht. split; auto with faultline; try apply Hs. rewrite app_nil_r. apply Hs.
Qed.

Lemma send_from_spec fd data deadline world r world' :
  send_from fd data deadline world = (r, world') ->
  exists k, (k <= length data)%nat /\ appended fd (take k data) world world' /\
    (r = OsOk tt <-> k = length data).
Proof.
  remember (os_transients net world + length data)%nat as n eqn:En. revert data world En.
  induction n as [n IH] using (well_founded_induction lt_wf). intros data world ->.
  rewrite send_from_eq. destruct data as [|b data'].
  { intros [= <- <-]. exists 0%nat. split; [done|]. split; [|done]. by apply quiet_appended. }
  set (data := b :: data') in *.
  assert (forall w e, appended fd [] world w -> exists k, (k <= length data)%nat /\
    appended fd (take k data) world w /\ (OsErr e = OsOk tt <-> k = length data)) as Hnone.
  { intros w e Hw. exists 0%nat. split; [lia|]. split; [done|]. split; [done|]. cbn. lia. }
  destruct (wait_ready net fd POLLOUT deadline world) as [[[]|e] w1] eqn:E1;
    apply wait_ready_step in E1 as [Hs1 Ht1];
    pose proof (quiet_appended fd _ _ Hs1 Ht1) as H1.
  2:{ intros [= <- <-]. by apply (Hnone w1). }
  destruct (os_send net fd data w1) as [[count|e] w2] eqn:E2;
    destruct (finite_send net _ _ _ _ _ E2) as [Hle Hlt];
    destruct (law_send net _ _ _ _ _ E2) as (Ho & Hd & Hi & Hs).
  - destruct Hs as [Hc Hout].
    assert (appended fd (take (Z.to_nat count) data) world w2) as H2.
    { apply (appended_trans fd [] _ _ w1); [done|]. by split. }
    destruct (Z.eqb_spec count 0) as [->|].
    { intros [= <- <-]. by apply (Hnone w2). }
    intros H. apply (IH (os_transients net w2 + length (drop (Z.to_nat count) data))%nat) in H
      as (k & Hk & Ha & Hr); [|rewrite length_drop; lia|done].
    rewrite length_drop in Hk, Hr. exists (Z.to_nat count + k)%nat. split; [lia|].
    split; [|rewrite Hr; lia].
    rewrite <- (take_take_drop data). by eapply appended_trans.
  - assert (appended fd [] world w2) as H2.
    { apply (appended_trans fd [] [] _ w1); [done|]. split; try done. by rewrite app_nil_r. }
    destruct (transient e) eqn:Et.
    + specialize (Hlt _ eq_refl Et). intros H.
      apply (IH (os_transients net w2 + length data)%nat) in H as (k & Hk & Ha & Hr); [|lia|done].
      exists k. split; [done|]. split; [|done]. by apply (appended_trans fd [] _ _ w2).
    + intros [= <- <-]. by apply (Hnone w2).
Qed.

Lemma send_all_spec fd data timeout world r world' :
  faultline_send_all net fd data timeout world = (r, world') ->
  exists k, (k <= length data)%nat /\ appended fd (take k data) world world' /\
    (r = OsOk tt -> k = length data) /\ (r <> OsOk tt -> data <> [] -> (k < length data)%nat).
Proof.
  assert (data <> [] -> (0 < length data)%nat) as Hpos by (destruct data; [done|cbn; lia]).
  unfold faultline_send_all. destruct (_ || _).
  { intros [= <- <-]. exists 0%nat. split; [lia|]. split; [by apply quiet_appended|by split; auto]. }
  destruct (faultline_monotonic_ms net world) as [start w1] eqn:E1.
  apply monotonic_step in E1 as (Hs1 & Ht1 & _). pose proof (quiet_appended fd _ _ Hs1 Ht1) as H1.
  destruct (start <? 0).
  { intros [= <- <-]. exists 0%nat. split; [lia|]. by split_and!; auto. }
  intros H. apply send_from_spec in H as (k & Hk & Ha & Hr). exists k. split; [done|].
  split; [by apply (appended_trans fd [] _ _ w1)|]. split; [apply Hr|].
  intros Hne _. destruct (decide (k = length data)) as [E|]; [|lia]. by apply Hr in E.
Qed.

(** ** Receiving *)

Lemma recv_exact_fuel fuel fuel' fd received size deadline world :
  (os_transients net world + (Z.to_nat size - length received) <= fuel)%nat ->
  (os_transients net world + (Z.to_nat size - length received) <= fuel')%nat ->
  recv_exact_loop net fuel fd received size deadline world =
  recv_exact_loop net fuel' fd received size deadline world.
Proof.
  revert fuel' received world. induction fuel as [|fuel IH]; intros fuel' received world H H'.
  { destruct fuel'; [done|]. cbn [recv_exact_loop].
    destruct (Z.ltb_spec (Z.of_nat (length received)) size); [lia|done]. }
  destruct fuel' as [|fuel'].
  { cbn [recv_exact_loop]. destruct (Z.ltb_spec (Z.of_nat (length received)) size); [lia|done]. }
  cbn [recv_exact_loop]. destruct (Z.ltb_spec (Z.of_nat (length received)) size); [|done].
  destruct (wait_ready net fd POLLIN deadline world) as [[[]|e] w1] eqn:E1; [|done].
  apply wait_ready_step in E1 as [_ Ht1].
  destruct (os_recv net fd _ w1) as [[[|b bytes]|e] w2] eqn:E2;
    destruct (finite_recv net _ _ _ _ _ E2) as [Hle Hlt]; [done| |].
  - apply IH; rewrite length_app; cbn; lia.
  - destruct (transient e) eqn:Et; [|done]. specialize (Hlt _ eq_refl Et). apply IH; lia.
Qed.

Definition recv_from (fd : Z) (received : list Z) (size deadline : Z) (world : W) : receive * W :=
  recv_exact_loop net (os_transients net world + (Z.to_nat size - length received)) fd received size
    deadline world.

Lemma recv_from_eq fd received size deadline world :
  recv_from fd received size deadline world =
  if Z.of_nat (length received) <? size then
    match wait_ready net fd POLLIN deadline world with
    | (OsErr error, world) => (mk_receive FAULTLINE_RECEIVE_ERROR received error, world)
    | (OsOk _, world) =>
        match os_recv net fd (size - Z.of_nat (length received)) world with
        | (OsOk [], world) =>
            (mk_receive (match received with
                         | [] => FAULTLINE_RECEIVE_EOF
                         | _ => FAULTLINE_RECEIVE_TRUNCATED
                         end) received 0, world)
        | (OsOk bytes, world) => recv_from fd (received ++ bytes) size deadline world
        | (OsErr error, world) =>
            if transient error then recv_from fd received size deadline world
            else (mk_receive FAULTLINE_RECEIVE_ERROR received error, world)
        end
    end
  else (mk_receive FAULTLINE_RECEIVE_OK received 0, world).
Proof.
  unfold recv_from at 1. destruct (Z.ltb_spec (Z.of_nat (length received)) size) as [Hlt|Hge].
  2:{ destruct (_ + _)%nat; cbn [recv_exact_loop]; by rewrite (proj2 (Z.ltb_ge _ _)) by lia. }
  replace (os_transients net world + (Z.to_nat size - length received))%nat
    with (S (os_transients net world + (Z.to_nat size - length received - 1))) by lia.
  cbn [recv_exact_loop]. rewrite (proj2 (Z.ltb_lt _ _)) by done.
  destruct (wait_ready net fd POLLIN deadline world) as [[[]|e] w1] eqn:E1; [|done].
  apply wait_ready_step in E1 as [_ Ht1].
  destruct (os_recv net fd _ w1) as [[[|b bytes]|e] w2] eqn:E2;
    destruct (finite_recv net _ _ _ _ _ E2) as [Hle Hlt']; [done| |].
  - apply recv_exact_fuel; rewrite ?length_app; cbn; lia.
  - destruct (transient e) eqn:Et; [|done]. specialize (Hlt' _ eq_refl Et).
    apply recv_exact_fuel; lia.
Qed.

(** What a transfer from [fd] changes: it has taken [bytes] off the front of the stream. *)
Record consumed (fd : Z) (bytes : list Z) (world world' : W) : Prop := {
  con_others : same_others fd (net_state net world) (net_state net world');
  con_descriptors : descriptors (net_state net world') = descriptors (net_state net world);
  con_outgoing : outgoing (net_state net world') fd = outgoing (net_state net world) fd;
  con_incoming : incoming (net_state net world) fd = bytes ++ incoming (net_state net world') fd;
  con_bytes : bytes_ok bytes;
  con_transients : (os_transients net world' <= os_transients net world)%nat;
}.

Lemma consumed_trans fd l k world1 world2 world3 :
  consumed fd l world1 world2 -> consumed fd k world2 world3 -> consumed fd (l ++ k) world1 world3.
Proof.
  intros [] []. split; [by etrans|congruence|congruence| |by apply bytes_ok_app|lia].
  rewrite con_incoming0, con_incoming1. by rewrite app_assoc.
Qed.

Lemma quiet_consumed fd world world' :
  same_sockets (net_state net world) (net_state net world') ->
  (os_transients net world' <= os_transients net world)%nat -> consumed fd [] world world'.
Proof.
  intros Hs Ht. split; auto with faultline; try apply Hs; [|by apply Forall_nil].
  symmetry. apply Hs.
Qed.

Lemma recv_consumed fd size world r world' :
  os_recv net fd size world = (r, world') ->
  consumed fd (match r with OsOk bytes => bytes | OsErr _ => [] end) world world'.
Proof.
  intros E. destruct (finite_recv net _ _ _ _ _ E) as [Hle _].
  destruct (law_recv net _ _ _ _ _ E) as (Ho & Hd & Hout & Hin).
  destruct r as [bytes|e]; [destruct Hin as (Hin & Hb & _)|]; (split; try done); by apply Forall_nil.
Qed.

(** The outcome of a receive of [size] bytes against the stream. *)
Definition received_right (size : Z) (r : receive) (fd : Z) (world' : W) : Prop :=
  match receive_result r with
  | FAULTLINE_RECEIVE_OK => Z.of_nat (length (receive_data r)) = size
  | FAULTLINE_RECEIVE_EOF => receive_data r = [] /\ incoming (net_state net world') fd = []
  | FAULTLINE_RECEIVE_TRUNCATED =>
      0 < Z.of_nat (length (receive_data r)) < size /\ incoming (net_state net world') fd = []
  | FAULTLINE_RECEIVE_ERROR => Z.of_nat (length (receive_data r)) < Z.max 1 size
  end.

Lemma recv_from_spec fd received size deadline world r world' :
  Z.of_nat (length received) <= size ->
  recv_from fd received size deadline world = (r, world') ->
  exists bytes, receive_data r = received ++ bytes /\ consumed fd bytes world world' /\
    received_right size r fd world'.
Proof.
  remember (os_transients net world + (Z.to_nat size - length received))%nat as n eqn:En.
  revert received world En. induction n as [n IH] using (well_founded_induction lt_wf).
  intros received world -> Hsize. rewrite recv_from_eq.
  destruct (Z.ltb_spec (Z.of_nat (length received)) size) as [Hlt|Hge].
  2:{ intros [= <- <-]. exists []. cbn. rewrite app_nil_r. split; [done|].
      split; [by apply quiet_consumed|]. cbn. lia. }
  destruct (wait_ready net fd POLLIN deadline world) as [[[]|e] w1] eqn:E1;
    apply wait_ready_step in E1 as [Hs1 Ht1]; pose proof (quiet_consumed fd _ _ Hs1 Ht1) as H1.
  2:{ intros [= <- <-]. exists []. cbn. rewrite app_nil_r. split; [done|]. split; [done|]. cbn. lia. }
  destruct (os_recv net fd _ w1) as [rr w2] eqn:E2.
  destruct (finite_recv net _ _ _ _ _ E2) as [Hle Hlt'].
  pose proof (consumed_trans _ _ _ _ _ _ H1 (recv_consumed _ _ _ _ _ E2)) as H2. cbn in H2.
  destruct (law_recv net _ _ _ _ _ E2) as (_ & _ & _ & Hin).
  destruct rr as [[|b bytes]|e].
  - intros [= <- <-]. exists []. cbn. rewrite app_nil_r. split; [done|]. split; [done|].
    destruct Hin as (Hin & _ & _ & Hend). specialize (Hend ltac:(lia) eq_refl). rewrite Hin in Hend.
    cbn in Hend. destruct received; unfold received_right; cbn in *; split; try done; lia.
  - destruct Hin as (_ & _ & Hlen & _). intros H.
    apply (IH (os_transients net w2 + (Z.to_nat size - length (received ++ b :: bytes)))%nat) in H
      as (more & Hdata & Hc & Hr); [|rewrite length_app; cbn in *; lia|done|rewrite length_app; lia].
    exists ((b :: bytes) ++ more). split; [by rewrite Hdata, <- app_assoc|]. split; [|done].
    by eapply consumed_trans.
  - destruct (transient e) eqn:Et.
    + specialize (Hlt' _ eq_refl Et). intros H.
      apply (IH (os_transients net w2 + (Z.to_nat size - length received))%nat) in H
        as (more & Hdata & Hc & Hr); [|lia|done|done].
      exists more. split; [done|]. split; [|done]. by apply (consumed_trans fd [] _ _ w2).
    + intros [= <- <-]. exists []. cbn. rewrite app_nil_r. split; [done|]. split; [done|]. cbn. lia.
Qed.

Lemma recv_exact_spec fd size timeout world r world' :
  0 <= size -> faultline_recv_exact net fd size timeout world = (r, world') ->
  consumed fd (receive_data r) world world' /\ received_right size r fd world'.
Proof.
  intros Hsize. unfold faultline_recv_exact. destruct (_ || _).
  { intros [= <- <-]. split; [by apply quiet_consumed|]. cbn. lia. }
  destruct (faultline_monotonic_ms net world) as [start w1] eqn:E1.
  apply monotonic_step in E1 as (Hs1 & Ht1 & _). pose proof (quiet_consumed fd _ _ Hs1 Ht1) as H1.
  destruct (start <? 0).
  { intros [= <- <-]. split; [done|]. cbn. lia. }
  replace (Z.to_nat size) with (Z.to_nat size - length (@nil Z))%nat by (cbn; lia).
  intros H. apply recv_from_spec in H as (bytes & Hdata & Hc & Hr); [|done].
  cbn in Hdata. subst bytes. split; [|done]. by apply (consumed_trans fd [] _ _ w1).
Qed.

(** ** Conversations *)

(** On [fd], [sent] has been handed over and [got] has been received. *)
Record moved (fd : Z) (sent got : list Z) (world world' : W) : Prop := {
  mv_others : same_others fd (net_state net world) (net_state net world');
  mv_sent : outgoing (net_state net world') fd = outgoing (net_state net world) fd ++ sent;
  mv_got : incoming (net_state net world) fd = got ++ incoming (net_state net world') fd;
}.

Lemma moved_trans fd sent got sent' got' world1 world2 world3 :
  moved fd sent got world1 world2 -> moved fd sent' got' world2 world3 ->
  moved fd (sent ++ sent') (got ++ got') world1 world3.
Proof.
  intros [Ho1 Hs1 Hg1] [Ho2 Hs2 Hg2]. split; [by etrans|by rewrite Hs2, Hs1, app_assoc|].
  by rewrite Hg1, Hg2, app_assoc.
Qed.

Lemma moved_quiet fd world world' : same_sockets (net_state net world) (net_state net world') -> moved fd [] [] world world'.
Proof. intros H. split; [by apply same_sockets_others|rewrite app_nil_r; apply H|symmetry; apply H]. Qed.

Lemma moved_after fd sent got world1 world2 world3 :
  moved fd sent got world1 world2 -> same_sockets (net_state net world2) (net_state net world3) ->
  moved fd sent got world1 world3.
Proof.
  intros H Hq. rewrite <- (app_nil_r sent), <- (app_nil_r got). eapply moved_trans; [done|by apply moved_quiet].
Qed.

Lemma moved_before fd sent got world1 world2 world3 :
  same_sockets (net_state net world1) (net_state net world2) -> moved fd sent got world2 world3 ->
  moved fd sent got world1 world3.
Proof. intros Hq H. apply (moved_trans fd [] [] sent got _ _ _ (moved_quiet fd _ _ Hq) H). Qed.

Lemma send_all_moved fd data timeout world r world' :
  faultline_send_all net fd data timeout world = (r, world') ->
  match r with
  | OsOk _ => moved fd data [] world world'
  | OsErr _ => exists part, part `prefix_of` data /\ moved fd part [] world world'
  end.
Proof.
  intros H. apply (send_all_spec) in H as (k & Hk & [Ho _ Hi Hout _] & Hr & _).
  assert (moved fd (take k data) [] world world') as Hm by (by split).
  destruct r as [[]|e]; [rewrite (Hr eq_refl), take_ge in Hm by lia; done|].
  exists (take k data). split; [apply prefix_take|done].
Qed.

(** A start of [whole] that is not all of it. *)
Definition cut_of (part whole : list Z) : Prop := part `prefix_of` whole /\ (length part < length whole)%nat.

(** A send that fails has not handed over everything. *)
Lemma send_all_cut fd data timeout world e world' :
  data <> [] -> faultline_send_all net fd data timeout world = (OsErr e, world') ->
  exists part, cut_of part data /\ moved fd part [] world world'.
Proof.
  intros Hne H. apply send_all_spec in H as (k & Hk & [Ho _ Hi Hout _] & _ & Hr).
  specialize (Hr ltac:(done) Hne). exists (take k data). split; [|by split].
  split; [apply prefix_take|]. rewrite length_take. lia.
Qed.

(** ** Properties *)

(** C31: a whole transfer is exact whatever the interruptions and short counts: sending hands over the
    data in order, all of it on success and a prefix of it otherwise; receiving takes exactly the
    requested bytes off the front of the stream on success, reports the end of the stream only when
    it is there, tells a stream that ended before the first byte from one that ended inside the
    data, and touches no other socket. *)
Theorem transfers_exact fd data size timeout world :
  (forall r world', faultline_send_all net fd data timeout world = (r, world') ->
     exists k, (k <= length data)%nat /\ appended fd (take k data) world world' /\
       (r = OsOk tt -> k = length data)) /\
  (0 <= size -> forall r world', faultline_recv_exact net fd size timeout world = (r, world') ->
     consumed fd (receive_data r) world world' /\ received_right size r fd world').
Proof.
  split.
  - intros r world' H. apply send_all_spec in H as (k & Hk & Ha & Hr & _). by exists k.
  - intros Hsize r world'. by apply recv_exact_spec.
Qed.

(** The endpoint of a coordinator is read back from its text, and an accepted text is an address
    that the system accepts, a colon and a port. *)
Theorem endpoint_round_trip host port text size :
  (os_inet_pton net host <> None -> 58 ∉ host -> 0 < Z.of_nat (length host) < INET_ADDRSTRLEN ->
   1 <= port <= UINT16_MAX ->
   faultline_parse_endpoint net (host ++ 58 :: print_uint port) INET_ADDRSTRLEN = Some (host, port)) /\
  (faultline_parse_endpoint net text size = Some (host, port) ->
   exists digits, text = host ++ 58 :: digits /\ (58 ∉ host) /\ os_inet_pton net host <> None /\
     decimal_value digits = Some port /\ 1 <= port <= UINT16_MAX /\
     0 < Z.of_nat (length host) < size).
Proof.
  unfold faultline_parse_endpoint. split.
  - intros Hh Hc Hl Hp. rewrite split_colon_app by done.
    rewrite (proj2 (Z.eqb_neq _ 0)), !(proj2 (Z.leb_gt _ _)) by lia. cbn [orb].
    rewrite parse_port_spec. unfold decimal_between. rewrite print_uint_decimal by lia.
    rewrite !(proj2 (Z.leb_le _ _)) by lia. cbn. by destruct (os_inet_pton net host).
  - destruct (split_colon text) as [[before after]|] eqn:E; [|done].
    apply split_colon_spec in E as [-> Hc].
    destruct (_ || _) eqn:El; [done|]. split_bools. reflect_bools.
    rewrite parse_port_spec. unfold decimal_between.
    destruct (decimal_value after) as [v|] eqn:Ev; [|done]. destruct (_ && _) eqn:Er; [|done].
    destruct (os_inet_pton net before) eqn:Ei; [|done]. intros [= -> ->].
    exists after. split_and!; try done; try congruence; lia.
Qed.

End NetProofs.

Arguments moved_trans {W net NET}.
Arguments moved_quiet {W net NET}.
Arguments moved_after {W net NET}.
Arguments moved_before {W net NET}.

(** ** Witnesses *)

Definition transfer_machine : sim_net :=
  mk_sim_net 0 0 [] [3] {[3 := [[1; 2]; [3; 4; 5; 6]]]} ∅ []
    [NetProceed; NetChunk 2; NetInterrupt; NetProceed; NetInterrupt; NetProceed; NetChunk 1] [].

Lemma transfers_exact_witness :
  exists world' world'',
    faultline_send_all sim_net_os 3 [7; 8; 9] 1000 transfer_machine = (OsOk tt, world') /\
    appended sim_net_os 3 [7; 8; 9] transfer_machine world' /\
    faultline_recv_exact sim_net_os 3 5 1000 transfer_machine =
      (mk_receive FAULTLINE_RECEIVE_OK [1; 2; 3; 4; 5] 0, world'') /\
    consumed sim_net_os 3 [1; 2; 3; 4; 5] transfer_machine world''.
Proof.
  pose proof (transfers_exact sim_net_os 3 [7; 8; 9] 5 1000 transfer_machine) as [Hsend Hrecv].
  destruct (faultline_send_all sim_net_os 3 [7; 8; 9] 1000 transfer_machine) as [r world'] eqn:Es.
  destruct (faultline_recv_exact sim_net_os 3 5 1000 transfer_machine) as [rr world''] eqn:Er.
  assert (r = OsOk tt) as -> by (apply (f_equal fst) in Es; vm_compute in Es; congruence).
  assert (rr = mk_receive FAULTLINE_RECEIVE_OK [1; 2; 3; 4; 5] 0) as ->
    by (apply (f_equal fst) in Er; vm_compute in Er; congruence).
  exists world', world''. split; [done|].
  destruct (Hsend _ _ eq_refl) as (k & Hk & Ha & Hall). rewrite (Hall eq_refl) in Ha.
  split; [exact Ha|]. split; [done|]. by apply (Hrecv ltac:(lia) _ _ eq_refl).
Defined.

Lemma endpoint_round_trip_witness :
  faultline_parse_endpoint sim_net_os (text "10.0.0.1:9000") INET_ADDRSTRLEN =
  Some (text "10.0.0.1", 9000).
Proof.
  exact (proj1 (endpoint_round_trip sim_net_os (text "10.0.0.1") 9000 [] 0)
    ltac:(done) ltac:(vm_compute; set_solver) ltac:(vm_compute; done) ltac:(vm_compute; done)).
Defined.
