(* ===== verification/Log.v ===== *)
(** Logging: [include/log.h], [src/common/log.c], and the round trip of escaped bytes.

    A record is printed in pieces under the lock of its stream. The variable arguments
    are formatted by the caller: [body] is the text that [vfprintf] prints, [None] for a format
    that is NULL or empty. The pointers that [faultline_log] tests are never NULL. *)

From S2P Require Import Prelude Text WalWriter Net.

Definition SIZE_MAX : Z := 2 ^ 64 - 1.

(** The character that closes a quoted field. *)
Definition quote : list Z := [34].

(** ** Levels and fields of a record *)

Definition INFO : list Z := text "INFO".
Definition WARN : list Z := text "WARN".
Definition ERROR : list Z := text "ERROR".

(** [name=value] *)
Definition field (name : string) (value : list Z) : list Z := text name ++ text "=" ++ value.

(** Fields with a blank between them. *)
Fixpoint fields (l : list (list Z)) : list Z :=
  match l with
  | [] => []
  | [f] => f
  | f :: l => f ++ text " " ++ fields l
  end.
Arguments field name%_string value.

(** ** Escaping *)

Definition printable (byte : Z) : bool :=
  (32 <=? byte) && (byte <=? 126) && (byte !=? 34) && (byte !=? 92).

Fixpoint escaped_size (needed : Z) (bytes : list Z) : Z :=
  match bytes with
  | [] => needed
  | b :: bytes => escaped_size (u64 (needed + (if printable b then 1 else 4))) bytes
  end.

Fixpoint escape_loop (bytes : list Z) : list Z :=
  match bytes with
  | [] => []
  | b :: bytes =>
      if printable b then b :: escape_loop bytes
      else 92 :: 120 :: hex_char (Z.shiftr b 4) :: hex_char (Z.land b 15) :: escape_loop bytes
  end.

(** The output without its closing NUL, [None] for -1. *)
Definition faultline_log_escape (capacity : Z) (bytes : list Z) : option (list Z) :=
  if (SIZE_MAX - 1) / 4 <? Z.of_nat (length bytes) then None
  else if capacity <? escaped_size 1 bytes then None
  else Some (escape_loop bytes).

(** ** Time stamps *)

(** [gmtime_r] and [strftime] of the C library for the proleptic Gregorian calendar: the era of
    400 years, the year of the era and the day of a year that starts in March. *)
Definition civil_from_days (days : Z) : Z * Z * Z :=
  let z := days + 719468 in
  let era := z / 146097 in
  let doe := z mod 146097 in
  let yoe := (doe - doe / 1460 + doe / 36524 - doe / 146096) / 365 in
  let doy := doe - (365 * yoe + yoe / 4 - yoe / 100) in
  let mp := (5 * doy + 2) / 153 in
  let day := doy - (153 * mp + 2) / 5 + 1 in
  let month := if mp <? 10 then mp + 3 else mp - 9 in
  (yoe + era * 400 + (if month <=? 2 then 1 else 0), month, day).

(** [None] when the year does not fit an [int]. *)
Definition format_utc (seconds : Z) : option (list Z) :=
  let '(year, month, day) := civil_from_days (seconds / 86400) in
  let second := seconds mod 86400 in
  if (year - 1900 <? - INT_MAX - 1) || (INT_MAX <? year - 1900) then None
  else Some (print_int year ++ text "-" ++ print_padded 2 month ++ text "-" ++ print_padded 2 day ++
             text "T" ++ print_padded 2 (second / 3600) ++ text ":" ++
             print_padded 2 (second / 60 mod 60) ++ text ":" ++ print_padded 2 (second mod 60)).

Section Log.
Context {W : Type} (net : net_os W).

Definition log_timestamp (world : W) : list Z * W :=
  match os_realtime net world with
  | (OsErr _, world) => (text "time=unavailable", world)
  | (OsOk (tv_sec, tv_nsec), world) =>
      match format_utc tv_sec with
      | None => (text "time=unavailable", world)
      | Some date =>
          if 32 <=? Z.of_nat (length date) then (text "time=unavailable", world)
          else (date ++ text "." ++ print_padded 3 (Z.quot tv_nsec 1000000) ++ text "Z", world)
      end
  end.

Definition log_monotonic (world : W) : Z * W :=
  match os_monotonic net world with
  | (OsErr _, world) => (-1, world)
  | (OsOk (tv_sec, tv_nsec), world) =>
      if (0 <=? tv_sec) && (tv_sec <=? (INT64_MAX - 999) / 1000) then
        (tv_sec * 1000 + Z.quot tv_nsec 1000000, world)
      else (-1, world)
  end.

(** ** Records *)

Definition log_head (timestamp level component event : list Z) : list Z :=
  timestamp ++ text " [" ++ level ++ text "] " ++ component ++ text " " ++ event.

Definition log_tail (monotonic_ms : Z) : list Z :=
  text " pid=" ++ print_int (os_getpid net) ++ text " monotonic_ms=" ++ print_int monotonic_ms ++ [10].

(** [true] for 0: no piece failed. *)
Definition faultline_log (s : stream) (level component event : list Z) (body : option (list Z))
    (world : W) : bool * W :=
  let '(timestamp, world) := log_timestamp world in
  let '(monotonic_ms, world) := log_monotonic world in
  let '(ok1, world) := os_print net s (log_head timestamp level component event) world in
  let '(ok2, world) :=
    match body with
    | None => (true, world)
    | Some body =>
        let '(ok, world) := os_print net s (text " ") world in
        let '(ok', world) := os_print net s body world in (ok && ok', world)
    end in
  let '(ok3, world) := os_print net s (log_tail monotonic_ms) world in
  let '(ok4, world) :=
    if ok3 : bool then os_flush net s world else (false, world) in
  (ok1 && ok2 && ok4, world).

Definition error_description (error : Z) : list Z :=
  let message :=
    match os_strerror net error with
    | Some message =>
        if Z.of_nat (length message) <? 256 then message else text "error description unavailable"
    | None => text "error description unavailable"
    end in
  default (text "error description unavailable") (faultline_log_escape 1025 message).

Definition faultline_log_error (level component operation : list Z) (error : Z) (world : W) : W :=
  snd (faultline_log stderr level component (text "system_error")
         (Some (text "operation=" ++ quote ++ operation ++ quote ++ text " errno=" ++ print_int error ++
                text " message=" ++ quote ++ component ++ text ": " ++ operation ++ text ": " ++
                error_description error ++ quote)) world).

End Log.

(** What the clocks and the streams respect, a record respects. *)
Lemma log_respects {W} (net : net_os W) (R : relation W) `{!PreOrder R} s level component event body world :
  (forall w r w', os_realtime net w = (r, w') -> R w w') ->
  (forall w r w', os_monotonic net w = (r, w') -> R w w') ->
  (forall l w b w', os_print net s l w = (b, w') -> R w w') ->
  (forall w b w', os_flush net s w = (b, w') -> R w w') ->
  R world (snd (faultline_log net s level component event body world)).
Proof.
  intros Hreal Hmono Hprint Hflush. unfold faultline_log.
  destruct (log_timestamp net world) as [timestamp w1] eqn:E1. assert (R world w1) as H1.
  { unfold log_timestamp in E1. destruct (os_realtime net world) as [[[a n]|e] w] eqn:E; apply Hreal in E;
      repeat case_match; by injection E1 as _ <-. }
  destruct (log_monotonic net w1) as [m w2] eqn:E2. assert (R w1 w2) as H2.
  { unfold log_monotonic in E2. destruct (os_monotonic net w1) as [[[a n]|e] w] eqn:E; apply Hmono in E;
      repeat case_match; by injection E2 as _ <-. }
  destruct (os_print net s _ w2) as [ok1 w3] eqn:E3. apply Hprint in E3.
  match goal with |- context [let '(ok2, world) := ?b in _] => destruct b as [ok2 w4] eqn:E4 end.
  assert (R w3 w4) as H4.
  { destruct body; [|by injection E4 as _ <-]. destruct (os_print net s (text " ") w3) as [ok w] eqn:E5.
    apply Hprint in E5. destruct (os_print net s _ w) as [ok' w'] eqn:E6. apply Hprint in E6.
    injection E4 as _ <-. by etrans. }
  destruct (os_print net s (log_tail net m) w4) as [ok3 w5] eqn:E5. apply Hprint in E5.
  assert (R world w5) by (do 4 (etrans; [done|]); done).
  destruct ok3; [|done]. destruct (os_flush net s w5) as [ok4 w6] eqn:E6. apply Hflush in E6. by etrans.
Qed.

(** ** Escaped text *)

Definition hex_value (c : Z) : Z := if c <? 97 then c - 48 else c - 87.

(** The bytes that an escaped text stands for. *)
Fixpoint unescape (l : list Z) : list Z :=
  match l with
  | [] => []
  | c :: rest =>
      if c =? 92 then
        match rest with
        | _ :: high :: low :: rest => (16 * hex_value high + hex_value low) :: unescape rest
        | _ => []
        end
      else c :: unescape rest
  end.

(** A character that can stand inside a quoted field of a one-line record. *)
Definition field_char (c : Z) : Prop := 32 <= c <= 126 /\ c <> 34.

Lemma hex_char_value d : 0 <= d < 16 -> hex_value (hex_char d) = d.
Proof. unfold hex_value, hex_char. intros Hd. repeat (case_match; reflect_bools); lia. Qed.

Lemma hex_char_field d : 0 <= d < 16 -> field_char (hex_char d).
Proof. unfold field_char, hex_char. intros Hd. case_match; lia. Qed.

Lemma byte_nibbles b : in_u8 b -> 0 <= Z.shiftr b 4 < 16 /\ 0 <= Z.land b 15 < 16 /\
  16 * Z.shiftr b 4 + Z.land b 15 = b.
Proof.
  intros Hb. rewrite shiftr_div by lia. change 15 with (Z.ones 4). rewrite Z.land_ones by lia.
  change (2 ^ 4) with 16. unfold_ints. Z.div_mod_to_equations. lia.
Qed.

Lemma unescape_escape bytes : bytes_ok bytes -> unescape (escape_loop bytes) = bytes.
Proof.
  induction 1 as [|b bytes Hb _ IH]; [done|]. cbn [escape_loop]. unfold printable.
  destruct (_ && _) eqn:E.
  - split_bools. cbn [unescape]. replace (b =? 92) with false by lia. by rewrite IH.
  - destruct (byte_nibbles b Hb) as (Hh & Hl & Hv). cbn [unescape Z.eqb].
    rewrite !hex_char_value by done. rewrite IH. cbn. f_equal. lia.
Qed.

Lemma escape_fields bytes : bytes_ok bytes -> Forall field_char (escape_loop bytes).
Proof.
  induction 1 as [|b bytes Hb _ IH]; [done|]. cbn [escape_loop]. unfold printable.
  destruct (_ && _) eqn:E.
  - constructor; [|done]. unfold field_char. lia.
  - destruct (byte_nibbles b Hb) as (Hh & Hl & Hv).
    repeat apply Forall_cons_2; try done; by apply hex_char_field.
Qed.

Lemma escaped_size_spec needed bytes :
  0 <= needed -> needed + 4 * Z.of_nat (length bytes) <= SIZE_MAX ->
  escaped_size needed bytes = needed + Z.of_nat (length (escape_loop bytes)).
Proof.
  revert needed. induction bytes as [|b bytes IH]; intros needed H0 Hn; cbn [escaped_size escape_loop];
    [cbn; lia|]. cbn [length] in Hn. unfold SIZE_MAX in *.
  rewrite u64_id by (destruct (printable b); ilia).
  rewrite IH by (destruct (printable b); lia). destruct (printable b); cbn [length]; lia.
Qed.

(** C33: escaped bytes stay inside their quoted field on their line, stand for exactly the bytes they
    came from, and are refused only when they do not fit the buffer. *)
Theorem escape_round_trip capacity bytes :
  bytes_ok bytes -> Z.of_nat (length bytes) <= (SIZE_MAX - 1) / 4 ->
  match faultline_log_escape capacity bytes with
  | Some out => unescape out = bytes /\ Forall field_char out /\ Z.of_nat (length out) < capacity
  | None => capacity <= Z.of_nat (length (escape_loop bytes))
  end.
Proof.
  intros Hb Hlen. unfold faultline_log_escape. rewrite (proj2 (Z.ltb_ge _ _)) by done.
  rewrite escaped_size_spec by (unfold SIZE_MAX in *; Z.div_mod_to_equations; lia).
  destruct (Z.ltb_spec capacity (1 + Z.of_nat (length (escape_loop bytes)))); [lia|].
  split; [by apply unescape_escape|]. split; [by apply escape_fields|lia].
Qed.

Lemma escape_round_trip_witness :
  faultline_log_escape 16 [97; 34; 10] = Some (text "a\x22\x0a") /\
  unescape (text "a\x22\x0a") = [97; 34; 10].
Proof.
  pose proof (escape_round_trip 16 [97; 34; 10] ltac:(repeat constructor; done) ltac:(vm_compute; done))
    as (Hu & _). split; [reflexivity|exact Hu].
Defined.
