(* ===== verification/Task.v ===== *)
(** The tasks of the worker: [include/task.h], [src/worker/task.c].

    The executor runs on its own thread. It reads the cancellation flag, which the
    networking thread may set at any time, reads the clock and sleeps: [task_os] has the calls
    that the table of Net lacks. Pointers to the flag and to the result are never NULL
    here; [arguments] is [None] for NULL, and its list holds the first [argument_size]
    bytes. The result is returned with the status, and only with [FAULTLINE_TASK_OK]. *)

From S2P Require Import Prelude Text Job WalWriter Net.

Definition FAULTLINE_SLEEP_MAX_MS : Z := 86400000.
Definition FAULTLINE_PRIME_COUNT_MAX : Z := 100000000.
Definition FAULTLINE_FIBONACCI_MAX : Z := 93.

Inductive faultline_task_status :=
| FAULTLINE_TASK_OK
| FAULTLINE_TASK_INVALID_ARGUMENT
| FAULTLINE_TASK_CANCELLED
| FAULTLINE_TASK_SYSTEM_ERROR.

#[export] Instance faultline_task_status_eq_dec : EqDecision faultline_task_status.
Proof. solve_decision. Defined.

(** The first [tr_size] bytes of the buffer, and the size. *)
Record faultline_task_result := mk_task_result {
  tr_bytes : list Z;
  tr_size : Z;
}.

Record task_os (W : Type) := mk_task_os {
  task_cancel : W -> bool * W;              (* atomic_load(cancel) *)
  task_nanosleep : Z -> os_call W unit;     (* nanoseconds below one second *)
}.
Arguments task_cancel {W} t _ : rename.
Arguments task_nanosleep {W} t _ _ : rename.

(** ** Arguments *)

Fixpoint parse_number_loop (value limit : Z) (bytes : list Z) : option Z :=
  match bytes with
  | [] => Some value
  | b :: bytes =>
      if (b <? 48) || (57 <? b) then None
      else
        let digit := b - 48 in
        if (limit / 10 <? value) || ((value =? limit / 10) && (limit mod 10 <? digit)) then None
        else parse_number_loop (u64 (value * 10 + digit)) limit bytes
  end.

Definition parse_number (bytes : list Z) (size limit : Z) : option Z :=
  if size =? 0 then None else parse_number_loop 0 limit (take (Z.to_nat size) bytes).

Section Task.
Context {W : Type} (net : net_os W) (tasks : task_os W).

(** ** Sleeping *)

Fixpoint sleep_loop (fuel : nat) (deadline : Z) (world : W) : faultline_task_status * W :=
  let '(cancelled, world) := task_cancel tasks world in
  if cancelled : bool then (FAULTLINE_TASK_CANCELLED, world)
  else
    let '(now, world) := faultline_monotonic_ms net world in
    if now <? 0 then (FAULTLINE_TASK_SYSTEM_ERROR, world)
    else if deadline <=? now then (FAULTLINE_TASK_OK, world)
    else
      let remaining := deadline - now in
      let slice_ms := if 20 <? remaining then 20 else remaining in
      let '(r, world) := task_nanosleep tasks (slice_ms * 1000000) world in
      match r with
      | OsErr error =>
          if error !=? EINTR then (FAULTLINE_TASK_SYSTEM_ERROR, world)
          else match fuel with
               | O => (FAULTLINE_TASK_SYSTEM_ERROR, world)
               | S fuel => sleep_loop fuel deadline world
               end
      | OsOk _ =>
          match fuel with
          | O => (FAULTLINE_TASK_SYSTEM_ERROR, world)
          | S fuel => sleep_loop fuel deadline world
          end
      end.

Definition run_sleep (duration : Z) (world : W) : faultline_task_status * W :=
  let '(start, world) := faultline_monotonic_ms net world in
  if start <? 0 then (FAULTLINE_TASK_SYSTEM_ERROR, world)
  else sleep_loop (os_transients net world + Z.to_nat duration) (start + duration) world.

(** ** Counting primes

    [None] when the task is cancelled. *)

Fixpoint divisor_loop (fuel : nat) (candidate divisor : Z) (world : W) : option bool * W :=
  if divisor <=? candidate / divisor then
    let '(cancelled, world) := task_cancel tasks world in
    if cancelled : bool then (None, world)
    else if candidate mod divisor =? 0 then (Some false, world)
    else match fuel with
         | O => (None, world)
         | S fuel => divisor_loop fuel candidate (u64 (divisor + 2)) world
         end
  else (Some true, world).

Fixpoint prime_loop (fuel : nat) (number candidate count : Z) (world : W) : option Z * W :=
  if candidate <=? number then
    let '(cancelled, world) := task_cancel tasks world in
    if cancelled : bool then (None, world)
    else
      let '(prime, world) := divisor_loop (Z.to_nat (Z.sqrt candidate)) candidate 3 world in
      match prime with
      | None => (None, world)
      | Some prime =>
          let count := if prime : bool then u64 (count + 1) else count in
          match fuel with
          | O => (None, world)
          | S fuel => prime_loop fuel number (u64 (candidate + 2)) count world
          end
      end
  else (Some count, world).

Definition run_prime_count (number : Z) (world : W) : option Z * W :=
  prime_loop (Z.to_nat number) number 3 (if 2 <=? number then 1 else 0) world.

(** ** Fibonacci numbers and hashing *)

Fixpoint fibonacci_loop (steps : nat) (previous current : Z) : Z :=
  match steps with
  | O => current
  | S steps => fibonacci_loop steps current (u64 (previous + current))
  end.

(** The loop runs for [i] from 2 to [number]. *)
Definition run_fibonacci (number : Z) : Z :=
  let current := fibonacci_loop (Z.to_nat (number - 1)) 0 1 in
  if number =? 0 then 0 else current.

Definition FNV_OFFSET : Z := 14695981039346656037.
Definition FNV_PRIME : Z := 1099511628211.

Fixpoint hash_loop (hash : Z) (bytes : list Z) : Z :=
  match bytes with
  | [] => hash
  | b :: bytes => hash_loop (u64 (Z.lxor hash b * FNV_PRIME)) bytes
  end.

(** ** The executor *)

(** The checks after the result has been printed into the buffer. *)
Definition complete_task (text : list Z) (world : W) :
    faultline_task_status * option faultline_task_result * W :=
  if FAULTLINE_JOB_MAX_RESULT_SIZE <=? Z.of_nat (length text) then
    (FAULTLINE_TASK_SYSTEM_ERROR, None, world)
  else
    let '(cancelled, world) := task_cancel tasks world in
    if cancelled : bool then (FAULTLINE_TASK_CANCELLED, None, world)
    else (FAULTLINE_TASK_OK, Some (mk_task_result text (Z.of_nat (length text))), world).

Definition faultline_task_execute (task_type : Z) (arguments : option (list Z))
    (argument_size : Z) (world : W) : faultline_task_status * option faultline_task_result * W :=
  if (match arguments with None => argument_size !=? 0 | Some _ => false end) ||
     (FAULTLINE_JOB_MAX_ARGUMENT_SIZE <? argument_size) then
    (FAULTLINE_TASK_INVALID_ARGUMENT, None, world)
  else
    let bytes := default [] arguments in
    let '(cancelled, world) := task_cancel tasks world in
    if cancelled : bool then (FAULTLINE_TASK_CANCELLED, None, world)
    else
      match task_type_cast task_type with
      | FAULTLINE_TASK_SLEEP =>
          match parse_number bytes argument_size FAULTLINE_SLEEP_MAX_MS with
          | None => (FAULTLINE_TASK_INVALID_ARGUMENT, None, world)
          | Some number =>
              match run_sleep number world with
              | (FAULTLINE_TASK_OK, world) =>
                  complete_task (text "slept_ms=" ++ print_uint number) world
              | (status, world) => (status, None, world)
              end
          end
      | FAULTLINE_TASK_PRIME_COUNT =>
          match parse_number bytes argument_size FAULTLINE_PRIME_COUNT_MAX with
          | None => (FAULTLINE_TASK_INVALID_ARGUMENT, None, world)
          | Some number =>
              match run_prime_count number world with
              | (None, world) => (FAULTLINE_TASK_CANCELLED, None, world)
              | (Some count, world) => complete_task (print_uint count) world
              end
          end
      | FAULTLINE_TASK_FIBONACCI =>
          match parse_number bytes argument_size FAULTLINE_FIBONACCI_MAX with
          | None => (FAULTLINE_TASK_INVALID_ARGUMENT, None, world)
          | Some number => complete_task (print_uint (run_fibonacci number)) world
          end
      | FAULTLINE_TASK_HASH =>
          complete_task
            (print_hex 16 (hash_loop FNV_OFFSET (take (Z.to_nat argument_size) bytes))) world
      | TASK_TYPE_OTHER _ => (FAULTLINE_TASK_INVALID_ARGUMENT, None, world)
      end.

End Task.
