(* ===== verification/TaskProofs.v ===== *)
(** The tasks of the worker compute what they promise: prime counts against the definition
    of primality, Fibonacci numbers without overflow, sleeps of at least the requested
    time; and every run on valid arguments ends. *)

From Stdlib Require Import Znumtheory.
From S2P Require Import Prelude Text Job WalWriter Net NetLaws NetProofs SimNet Task.

(** ** Arguments *)

Lemma limit_test (limit value digit : Z) :
  0 <= digit <= 9 ->
  (limit / 10 <? value) || ((value =? limit / 10) && (limit mod 10 <? digit)) =
  negb (value * 10 + digit <=? limit).
Proof.
  intros Hd. destruct (Z.leb_spec (value * 10 + digit) limit) as [H|H]; cbn [negb].
  - apply orb_false_iff. split; [|apply andb_false_iff]; Z.div_mod_to_equations; lia.
  - apply orb_true_iff. rewrite andb_true_iff. Z.div_mod_to_equations. lia.
Qed.

Lemma parse_number_loop_spec limit bytes value :
  limit <= UINT64_MAX -> 0 <= value <= limit ->
  parse_number_loop value limit bytes =
  match digits_from value bytes with
  | Some v => if v <=? limit then Some v else None
  | None => None
  end.
Proof.
  intros Hl. revert bytes value. apply (bounded_numeral (fun v => parse_number_loop v limit)); [done|].
  intros v c l Hv. cbn [parse_number_loop].
  destruct ((c <? 48) || (57 <? c)) eqn:E; [done|]. split_bools. reflect_bools.
  rewrite limit_test by lia. destruct (Z.leb_spec (v * 10 + (c - 48)) limit); [|done].
  by rewrite u64_id by ilia.
Qed.

Lemma parse_number_spec bytes size limit :
  0 <= limit <= UINT64_MAX -> size = Z.of_nat (length bytes) ->
  parse_number bytes size limit = decimal_between 0 limit bytes.
Proof.
  intros Hl ->. unfold parse_number, decimal_between, decimal_value.
  rewrite Nat2Z.id, take_ge by lia. destruct bytes as [|c bytes]; [done|].
  rewrite parse_number_loop_spec by lia.
  cbn [length Z.of_nat Z.eqb]. destruct (digits_from 0 _) as [v|] eqn:E; [|done].
  apply digits_from_le in E; [|done]. by rewrite (proj2 (Z.leb_le 0 v)) by lia.
Qed.

(** ** Fibonacci numbers *)

Fixpoint fibonacci (n : nat) : Z :=
  match n with
  | O => 0
  | S O => 1
  | S (S n as p) => fibonacci n + fibonacci p
  end.

Lemma fibonacci_step n : fibonacci (S (S n)) = fibonacci n + fibonacci (S n).
Proof. done. Qed.

Lemma fibonacci_nonneg n : 0 <= fibonacci n <= fibonacci (S n).
Proof.
  induction n as [|n IH]; [cbn; lia|]. rewrite fibonacci_step. destruct n; cbn in *; lia.
Qed.

Lemma fibonacci_mono n m : (n <= m)%nat -> fibonacci n <= fibonacci m.
Proof. induction 1 as [|m _ IH]; [done|]. pose proof (fibonacci_nonneg m). lia. Qed.

(** The pair of the last two numbers, to evaluate the bound of the code. *)
Lemma fibonacci_pair n :
  Nat.iter n (fun '(a, b) => (b, a + b)) (0, 1) = (fibonacci n, fibonacci (S n)).
Proof. induction n as [|n IH]; [done|]. by rewrite Nat.iter_succ, IH, fibonacci_step. Qed.

Lemma fibonacci_iter n : fst (Nat.iter n (fun '(a, b) => (b, a + b)) (0, 1)) = fibonacci n.
Proof. by rewrite fibonacci_pair. Qed.

Lemma fibonacci_fits n : (n <= 93)%nat -> in_u64 (fibonacci n).
Proof.
  intros Hn. pose proof (fibonacci_nonneg n). split; [lia|].
  apply Z.le_lt_trans with (fibonacci 93); [by apply fibonacci_mono|].
  rewrite <- fibonacci_iter. by vm_compute.
Qed.

Lemma fibonacci_loop_spec steps n :
  (steps + n < 93)%nat ->
  fibonacci_loop steps (fibonacci n) (fibonacci (S n)) = fibonacci (steps + S n).
Proof.
  revert n. induction steps as [|steps IH]; intros n Hn; [done|].
  cbn [fibonacci_loop]. rewrite <- fibonacci_step, u64_id by (apply fibonacci_fits; lia).
  rewrite IH by lia. f_equal. lia.
Qed.

Lemma run_fibonacci_spec number :
  0 <= number <= FAULTLINE_FIBONACCI_MAX -> run_fibonacci number = fibonacci (Z.to_nat number).
Proof.
  unfold FAULTLINE_FIBONACCI_MAX. intros Hn. unfold run_fibonacci.
  destruct (Z.eqb_spec number 0) as [->|]; [done|].
  rewrite (fibonacci_loop_spec _ 0) by lia. f_equal. lia.
Qed.

(** ** Primes *)

#[export] Instance prime_decision p : Decision (Z.prime p).
Proof.
  destruct (prime_dec p) as [H|H]; [left|right]; rewrite prime_alt; done.
Defined.

(** The number of primes up to [n]. *)
Definition prime_count (n : Z) : Z := Z.of_nat (length (filter Z.prime (seqZ 0 (n + 1)))).

(** No odd number from [d] on whose square is at most [c] divides [c]. *)
Definition no_odd_divisor (c d : Z) : Prop :=
  forall e, d <= e -> Z.odd e = true -> e * e <= c -> ~ (e | c).

Lemma odd_prime c : 3 <= c -> Z.odd c = true -> no_odd_divisor c 3 <-> Z.prime c.
Proof.
  intros Hc Hodd. split.
  - intros Hno. destruct (prime_dec c) as [|Hnp]; [by apply prime_alt|].
    destruct (not_prime_divide c) as (n & Hn & m & Hm); [lia|done|].
    assert (Z.odd m = true /\ Z.odd n = true) as [Hom Hon].
    { rewrite Hm, Z.odd_mul in Hodd. by apply andb_true_iff in Hodd. }
    assert (1 < m) by nia.
    assert (forall x, 1 < x -> Z.odd x = true -> 3 <= x) as Hge.
    { intros x Hx Ho. destruct (decide (x = 2)) as [->|]; [done|lia]. }
    destruct (Z.le_ge_cases n m).
    + destruct (Hno n); [by apply Hge; [lia|]|done|nia|]. exists m. lia.
    + destruct (Hno m); [by apply Hge; [lia|]|done|nia|]. exists n. lia.
  - intros Hp e He _ Hsq Hdiv. apply Z.divide_prime_r in Hdiv; [|done]. nia.
Qed.

Lemma square_test c d : 0 < d -> (d <=? c / d) = (d * d <=? c).
Proof.
  intros Hd. destruct (Z.leb_spec d (c / d)) as [H|H], (Z.leb_spec (d * d) c) as [H'|H']; try done;
    Z.div_mod_to_equations; nia.
Qed.

Lemma no_odd_divisor_end c d : d * d > c -> 0 < d -> no_odd_divisor c d.
Proof. intros H Hd e He _ Hsq. nia. Qed.

Lemma no_odd_divisor_next c d :
  Z.odd d = true -> ~ (d | c) -> no_odd_divisor c (d + 2) <-> no_odd_divisor c d.
Proof.
  intros Hodd Hd. split; intros H e He Ho Hsq; [|apply H; [lia|done|done]].
  destruct (decide (e = d)) as [->|]; [done|].
  destruct (decide (e = d + 1)) as [->|]; [|apply H; [lia|done|done]].
  rewrite Z.odd_add in Ho. by rewrite Hodd in Ho.
Qed.

Lemma even_not_prime c : 3 <= c -> Z.odd c = true -> ~ Z.prime (c + 1).
Proof.
  intros Hc Hodd Hp. assert (2 | c + 1) as H2.
  { apply Z.mod_divide; [lia|]. rewrite Zmod_odd, Z.odd_add, Hodd. done. }
  apply Z.divide_prime_r in H2; [|done]. lia.
Qed.

Lemma prime_count_succ c :
  0 <= c -> prime_count c = prime_count (c - 1) + (if bool_decide (Z.prime c) then 1 else 0).
Proof.
  intros Hc. unfold prime_count. replace (c - 1 + 1) with c by lia.
  rewrite (seqZ_app 0 c 1) by lia. rewrite filter_app, length_app.
  replace (seqZ (0 + c) 1) with [c] by (rewrite seqZ_cons, seqZ_nil by lia; done).
  rewrite filter_cons, filter_nil.
  destruct (decide (Z.prime c)) as [H|H]; [rewrite bool_decide_eq_true_2 by done
    |rewrite bool_decide_eq_false_2 by done]; cbn [length]; lia.
Qed.

(** The outer loop passes an odd number and the even one after it. *)
Lemma prime_count_even c : 3 <= c -> Z.odd c = true -> prime_count (c + 1) = prime_count c.
Proof.
  intros Hc Hodd. rewrite prime_count_succ by lia. replace (c + 1 - 1) with c by lia.
  rewrite bool_decide_eq_false_2 by (by apply even_not_prime). lia.
Qed.

Lemma prime_count_small n : n <= 1 -> prime_count n = 0.
Proof.
  intros Hn. destruct (decide (n < 0)).
  { unfold prime_count. by rewrite seqZ_nil by lia. }
  assert (forall p, p <= 1 -> bool_decide (Z.prime p) = false) as Hp.
  { intros p Hp. apply bool_decide_eq_false_2. intros [H _]. lia. }
  rewrite prime_count_succ, Hp by lia. destruct (decide (n = 0)) as [->|].
  { unfold prime_count. by rewrite seqZ_nil by lia. }
  rewrite prime_count_succ, Hp by lia. unfold prime_count. by rewrite seqZ_nil by lia.
Qed.

Lemma prime_count_bound n : 0 <= prime_count n <= Z.max 0 (n + 1).
Proof.
  unfold prime_count. pose proof (length_filter Z.prime (seqZ 0 (n + 1))) as H.
  rewrite length_seqZ in H. lia.
Qed.

Lemma prime_count_two : prime_count 2 = 1.
Proof.
  rewrite prime_count_succ, bool_decide_eq_true_2 by (try apply Z.prime_2; lia).
  by rewrite prime_count_small.
Qed.

Section Loops.
Context {W : Type} (net : net_os W) (tasks : task_os W).

Lemma divisor_loop_spec fuel candidate divisor world :
  3 <= divisor -> Z.odd divisor = true -> 0 <= candidate <= FAULTLINE_PRIME_COUNT_MAX ->
  divisor <= candidate + 2 -> forall b world', divisor_loop tasks fuel candidate divisor world = (Some b, world') ->
  b = true <-> no_odd_divisor candidate divisor.
Proof.
  unfold FAULTLINE_PRIME_COUNT_MAX. revert divisor world.
  induction fuel as [|fuel IH]; intros divisor world H3 Hodd Hc Hle b world';
    cbn [divisor_loop]; rewrite square_test by lia;
    (destruct (Z.leb_spec (divisor * divisor) candidate) as [Hsq|Hsq];
      [|intros [= <- _]; split; [|done]; intros _; apply no_odd_divisor_end; lia]);
    destruct (task_cancel tasks world) as [[] w1]; try done;
    (destruct (Z.eqb_spec (candidate mod divisor) 0) as [Hz|Hz];
      [intros [= <- _]; split; [done|]; intros H; destruct (H divisor); [lia|done|done|];
       by apply Z.mod_divide; [lia|]|]); [done|].
  rewrite u64_id by ilia. intros H. apply IH in H; [|lia|by rewrite Z.odd_add, Hodd|lia|nia].
  rewrite H. apply no_odd_divisor_next; [done|]. by rewrite <- Z.mod_divide by lia.
Qed.

Lemma prime_loop_spec fuel number candidate count world :
  3 <= candidate -> Z.odd candidate = true -> 2 <= number <= FAULTLINE_PRIME_COUNT_MAX ->
  candidate <= number + 2 -> count = prime_count (candidate - 1) ->
  forall result world', prime_loop tasks fuel number candidate count world = (Some result, world') ->
  result = prime_count number.
Proof.
  unfold FAULTLINE_PRIME_COUNT_MAX. revert candidate count world.
  induction fuel as [|fuel IH]; intros candidate count world H3 Hodd Hn Hle Hcount result world';
    cbn [prime_loop];
    (destruct (Z.leb_spec candidate number) as [Hcn|Hcn];
      [|intros [= <- _]; subst count; destruct (decide (number = candidate - 1)) as [->|]; [done|];
        replace number with (candidate - 2) by lia;
        replace (candidate - 1) with (candidate - 2 + 1) by lia; apply prime_count_even;
        [destruct (decide (candidate = 4)) as [->|]; [done|lia]|by rewrite Z.odd_sub, Hodd]]);
    destruct (task_cancel tasks world) as [[] w1]; try done;
    destruct (divisor_loop tasks _ candidate 3 w1) as [[prime|] w2] eqn:E; try done.
  apply divisor_loop_spec in E; [|lia|done|unfold FAULTLINE_PRIME_COUNT_MAX; lia|lia].
  rewrite odd_prime in E by done.
  rewrite u64_id by ilia. intros H. apply IH in H; [done|lia|by rewrite Z.odd_add, Hodd|lia|lia|].
  replace (candidate + 2 - 1) with (candidate + 1) by lia.
  rewrite prime_count_even, prime_count_succ, <- Hcount by (try done; lia).
  pose proof (prime_count_bound (candidate - 1)).
  destruct prime; [rewrite bool_decide_eq_true_2 by tauto|rewrite bool_decide_eq_false_2 by (intros Hp; by apply E in Hp)];
    rewrite ?u64_id by ilia; lia.
Qed.

Lemma run_prime_count_spec number world result world' :
  0 <= number <= FAULTLINE_PRIME_COUNT_MAX ->
  run_prime_count tasks number world = (Some result, world') -> result = prime_count number.
Proof.
  intros Hn. unfold run_prime_count. destruct (Z.leb_spec 2 number) as [H|H].
  - apply prime_loop_spec; try done; try lia.
    change (3 - 1) with 2. by rewrite prime_count_two.
  - rewrite prime_count_small by lia.
    destruct (Z.to_nat number); cbn [prime_loop]; rewrite (proj2 (Z.leb_gt _ _)) by lia; by intros [= <- _].
Qed.

(** *** Loops that are not cancelled end *)

Lemma divisor_loop_ends fuel candidate divisor world :
  (forall w, fst (task_cancel tasks w) = false) ->
  3 <= divisor -> 0 <= candidate <= FAULTLINE_PRIME_COUNT_MAX ->
  divisor <= candidate + 2 -> Z.sqrt candidate < Z.of_nat fuel + divisor ->
  exists b world', divisor_loop tasks fuel candidate divisor world = (Some b, world').
Proof.
  intros Hcalm. unfold FAULTLINE_PRIME_COUNT_MAX. revert divisor world.
  induction fuel as [|fuel IH]; intros divisor world H3 Hc Hle Hfuel;
    cbn [divisor_loop]; rewrite square_test by lia;
    (destruct (Z.leb_spec (divisor * divisor) candidate) as [Hsq|Hsq]; [|by eauto]);
    pose proof (Z.sqrt_le_mono _ _ Hsq) as Hroot; rewrite Z.sqrt_square in Hroot by lia; [lia|];
    specialize (Hcalm world); destruct (task_cancel tasks world) as [cancelled w1]; cbn in Hcalm; subst;
    (destruct (candidate mod divisor =? 0); [by eauto|]).
  rewrite u64_id by ilia. apply IH; [lia|lia|nia|lia].
Qed.

Lemma prime_loop_ends fuel number candidate count world :
  (forall w, fst (task_cancel tasks w) = false) ->
  3 <= candidate -> number <= FAULTLINE_PRIME_COUNT_MAX -> number < Z.of_nat fuel + candidate ->
  exists result world', prime_loop tasks fuel number candidate count world = (Some result, world').
Proof.
  intros Hcalm. unfold FAULTLINE_PRIME_COUNT_MAX. revert candidate count world.
  induction fuel as [|fuel IH]; intros candidate count world H3 Hn Hfuel; cbn [prime_loop];
    (destruct (Z.leb_spec candidate number) as [Hcn|Hcn]; [|by eauto]); [lia|].
  pose proof (Hcalm world) as Hcalm1. destruct (task_cancel tasks world) as [cancelled w1].
  cbn in Hcalm1. subst. pose proof (Z.sqrt_nonneg candidate).
  destruct (divisor_loop_ends (Z.to_nat (Z.sqrt candidate)) candidate 3 w1) as (b & w2 & ->); try done;
    try (unfold FAULTLINE_PRIME_COUNT_MAX; lia).
  rewrite u64_id by ilia. apply IH; lia.
Qed.

Lemma run_prime_count_ends number world :
  (forall w, fst (task_cancel tasks w) = false) -> 0 <= number <= FAULTLINE_PRIME_COUNT_MAX ->
  exists result world', run_prime_count tasks number world = (Some result, world').
Proof. intros Hcalm Hn. apply prime_loop_ends; try done; lia. Qed.

End Loops.

(** ** Sleeping *)

(** What the executor relies on of the flag and of [nanosleep]: neither touches a socket, and a
    completed nap takes at least its time. *)
Class TaskLaws {W : Type} (net : net_os W) (tasks : task_os W) {NET : Net net} : Prop := {
  law_cancel world b world' : task_cancel tasks world = (b, world') ->
    same_sockets (net_state net world) (net_state net world') /\
    (os_transients net world' <= os_transients net world)%nat;
  law_nanosleep ns world r world' : task_nanosleep tasks ns world = (r, world') ->
    same_sockets (net_state net world) (net_state net world') /\
    (r = OsOk tt -> clock (net_state net world) + ns / 1000000 <= clock (net_state net world'));
  finite_nanosleep ns : uses_up net (task_nanosleep tasks ns);
}.

(** Nobody cancels the task, the clock works, and naps are at most interrupted. *)
Class TaskCalm {W : Type} (net : net_os W) (tasks : task_os W) : Prop := {
  calm_cancel world : fst (task_cancel tasks world) = false;
  calm_clock world : exists now world', os_monotonic net world = (OsOk now, world');
  calm_nanosleep ns world e world' : task_nanosleep tasks ns world = (OsErr e, world') -> e = EINTR;
}.

Section Sleep.
Context {W : Type} (net : net_os W) (tasks : task_os W).
Context {FIN : NetFinite net} {NET : Net net} {TASK : TaskLaws net tasks}.

Lemma sleep_loop_spec fuel deadline world status world' :
  sleep_loop net tasks fuel deadline world = (status, world') ->
  same_sockets (net_state net world) (net_state net world') /\
  status <> FAULTLINE_TASK_INVALID_ARGUMENT /\
  (status = FAULTLINE_TASK_OK -> deadline <= clock (net_state net world')).
Proof.
  revert world. induction fuel as [|fuel IH]; intros world; cbn [sleep_loop];
    destruct (task_cancel tasks world) as [cancelled w1] eqn:E1;
    apply (law_cancel (net := net)) in E1 as [Hs1 _];
    (destruct cancelled; [by intros [= <- <-]|]);
    destruct (faultline_monotonic_ms net w1) as [now w2] eqn:E2;
    apply (monotonic_step net) in E2 as (Hs2 & _ & Hnow);
    assert (same_sockets (net_state net world) (net_state net w2)) as Hs by (by etrans);
    (destruct (Z.ltb_spec now 0); [by intros [= <- <-]|]);
    (destruct (Z.leb_spec deadline now); [intros [= <- <-]; split_and!; [done|done|lia]|]);
    destruct (task_nanosleep tasks _ w2) as [r w3] eqn:E3;
    apply (law_nanosleep (net := net)) in E3 as [Hs3 _];
    assert (same_sockets (net_state net world) (net_state net w3)) as Hs' by (by etrans);
    (destruct r as [[]|e]; [|destruct (e !=? EINTR); [by intros [= <- <-]|]]);
    try (intros [= <- <-]; done); intros Hrec; apply IH in Hrec as [Hrec Hd]; (split; [by etrans|done]).
Qed.

Lemma run_sleep_spec duration world status world' :
  run_sleep net tasks duration world = (status, world') ->
  same_sockets (net_state net world) (net_state net world') /\
  status <> FAULTLINE_TASK_INVALID_ARGUMENT /\
  (status = FAULTLINE_TASK_OK ->
     clock (net_state net world) + duration <= clock (net_state net world')).
Proof.
  unfold run_sleep. destruct (faultline_monotonic_ms net world) as [start w1] eqn:E1.
  apply (monotonic_step net) in E1 as (Hs1 & _ & Hstart).
  destruct (Z.ltb_spec start 0); [by intros [= <- <-]|].
  intros H'. apply sleep_loop_spec in H' as (Hs & Hst & Hd). split; [by etrans|]. split; [done|]. intros ->.
  specialize (Hd eq_refl). lia.
Qed.

Lemma calm_reading {CALM : TaskCalm net tasks} world now world' :
  faultline_monotonic_ms net world = (now, world') -> 0 <= now.
Proof.
  unfold faultline_monotonic_ms. destruct (calm_clock world) as ([s n] & w1 & E).
  pose proof (law_monotonic net _ _ _ E) as [_ H]. destruct (H s n eq_refl) as (? & ? & _).
  rewrite E. intros [= <- <-]. rewrite Z.quot_div_nonneg by lia.
  pose proof (Z.div_pos n 1000000). lia.
Qed.

Lemma sleep_loop_ends {CALM : TaskCalm net tasks} fuel deadline world :
  Z.of_nat (os_transients net world) + (deadline - clock (net_state net world)) <= Z.of_nat fuel ->
  exists world', sleep_loop net tasks fuel deadline world = (FAULTLINE_TASK_OK, world').
Proof.
  revert world. induction fuel as [|fuel IH]; intros world Hfuel; cbn [sleep_loop];
    pose proof (calm_cancel (tasks := tasks) world) as Hcancel;
    destruct (task_cancel tasks world) as [cancelled w1] eqn:E1; cbn in Hcancel; subst cancelled;
    apply (law_cancel (net := net)) in E1 as [Hs1 Ht1]; pose proof (same_clock _ _ Hs1);
    destruct (faultline_monotonic_ms net w1) as [now w2] eqn:E2;
    pose proof (calm_reading _ _ _ E2); apply (monotonic_step net) in E2 as (Hs2 & Ht2 & Hnow);
    specialize (Hnow ltac:(done));
    rewrite (proj2 (Z.ltb_ge now 0)) by lia;
    (destruct (Z.leb_spec deadline now); [by eauto|]); [lia|];
    set (slice := if 20 <? deadline - now then 20 else deadline - now);
    assert (1 <= slice <= deadline - now) as Hslice by (unfold slice; destruct (Z.ltb_spec 20 (deadline - now)); lia);
    destruct (task_nanosleep tasks _ w2) as [r w3] eqn:E3;
    pose proof (calm_nanosleep (tasks := tasks) (slice * 1000000) w2) as Hcalm;
    destruct (finite_nanosleep (net := net) (tasks := tasks) _ _ _ _ E3) as [Hle Hlt];
    pose proof (law_nanosleep (net := net) _ _ _ _ E3) as [Hs3 Hnap]; pose proof (same_clock _ _ Hs3);
    rewrite Z.div_mul in Hnap by done; destruct r as [[]|e].
  - specialize (Hnap eq_refl). apply IH. lia.
  - apply Hcalm in E3 as ->. specialize (Hlt _ eq_refl eq_refl). apply IH. lia.
Qed.

Lemma run_sleep_ends {CALM : TaskCalm net tasks} duration world :
  0 <= duration -> exists world', run_sleep net tasks duration world = (FAULTLINE_TASK_OK, world').
Proof.
  intros Hd. unfold run_sleep. destruct (faultline_monotonic_ms net world) as [start w1] eqn:E1.
  pose proof (calm_reading _ _ _ E1). apply (monotonic_step net) in E1 as (_ & _ & Hstart).
  rewrite (proj2 (Z.ltb_ge start 0)) by lia. apply sleep_loop_ends. lia.
Qed.

End Sleep.

(** ** The executor *)

(** The 64-bit FNV-1a hash. *)
Definition fnv1a (l : list Z) : Z :=
  foldl (fun h b => (Z.lxor h b * FNV_PRIME) mod 2 ^ 64) FNV_OFFSET l.

Lemma hash_loop_spec hash l :
  hash_loop hash l = foldl (fun h b => (Z.lxor h b * FNV_PRIME) mod 2 ^ 64) hash l.
Proof. revert hash. induction l as [|b l IH]; intros hash; [done|]. apply IH. Qed.

(** The result that a task promises for its arguments; [None] if it refuses them. *)
Definition task_answer (type : Z) (args : list Z) : option (list Z) :=
  match task_type_cast type with
  | FAULTLINE_TASK_SLEEP =>
      (fun n => text "slept_ms=" ++ print_uint n) <$> decimal_between 0 FAULTLINE_SLEEP_MAX_MS args
  | FAULTLINE_TASK_PRIME_COUNT =>
      (fun n => print_uint (prime_count n)) <$> decimal_between 0 FAULTLINE_PRIME_COUNT_MAX args
  | FAULTLINE_TASK_FIBONACCI =>
      (fun n => print_uint (fibonacci (Z.to_nat n))) <$> decimal_between 0 FAULTLINE_FIBONACCI_MAX args
  | FAULTLINE_TASK_HASH => Some (print_hex 16 (fnv1a args))
  | TASK_TYPE_OTHER _ => None
  end.

Lemma decimal_between_range low high l v : decimal_between low high l = Some v -> low <= v <= high.
Proof.
  unfold decimal_between. destruct (decimal_value l); [|done].
  destruct (_ && _) eqn:E; [|done]. intros [= <-]. lia.
Qed.

Lemma print_uint_short z : in_u64 z -> (length (print_uint z) <= 20)%nat.
Proof. intros Hz. apply print_uint_length; [|lia]. cbn. ilia. Qed.

Lemma task_answer_short type args text :
  task_answer type args = Some text -> Z.of_nat (length text) < FAULTLINE_JOB_MAX_RESULT_SIZE.
Proof.
  unfold task_answer, FAULTLINE_JOB_MAX_RESULT_SIZE. destruct (task_type_cast type); [| | | |done].
  1-3: destruct (decimal_between _ _ args) as [v|] eqn:E; [|done]; intros [= <-];
    apply decimal_between_range in E.
  - unfold FAULTLINE_SLEEP_MAX_MS in E. pose proof (print_uint_short v ltac:(ilia)).
    cbn [length]. lia.
  - pose proof (prime_count_bound v). unfold FAULTLINE_PRIME_COUNT_MAX in E.
    pose proof (print_uint_short (prime_count v) ltac:(ilia)). lia.
  - unfold FAULTLINE_FIBONACCI_MAX in E.
    pose proof (print_uint_short (fibonacci (Z.to_nat v)) ltac:(apply fibonacci_fits; lia)). lia.
  - intros H. apply Some_inj in H. rewrite <- H, print_hex_length. lia.
Qed.

Lemma task_answer_bytes type args text : task_answer type args = Some text -> bytes_ok text.
Proof.
  unfold task_answer. destruct (task_type_cast type); [| | | |done].
  1-3: destruct (decimal_between _ _ args) as [v|] eqn:E; [|done]; intros H; apply Some_inj in H as <-;
    apply decimal_between_range in E.
  - apply Forall_app. split; [apply text_bytes|apply print_uint_bytes; lia].
  - apply print_uint_bytes. pose proof (prime_count_bound v). lia.
  - apply print_uint_bytes. apply fibonacci_nonneg.
  - intros H. apply Some_inj in H as <-. apply print_hex_bytes.
Qed.

Section Execute.
Context {W : Type} (net : net_os W) (tasks : task_os W).
Context {FIN : NetFinite net} {NET : Net net} {TASK : TaskLaws net tasks}.

(** What a run of the executor may return for arguments with the answer [answer]. *)
Definition task_outcome (answer : option (list Z)) (status : faultline_task_status)
    (result : option faultline_task_result) : Prop :=
  match status with
  | FAULTLINE_TASK_OK => exists text, answer = Some text /\
      result = Some (mk_task_result text (Z.of_nat (length text)))
  | FAULTLINE_TASK_INVALID_ARGUMENT => answer = None /\ result = None
  | FAULTLINE_TASK_CANCELLED | FAULTLINE_TASK_SYSTEM_ERROR => result = None
  end.

Lemma divisor_world fuel candidate divisor world :
  same_sockets (net_state net world)
    (net_state net (snd (divisor_loop tasks fuel candidate divisor world))).
Proof.
  revert divisor world. induction fuel as [|fuel IH]; intros divisor world; cbn [divisor_loop];
    (destruct (divisor <=? _); [|done]); destruct (task_cancel tasks world) as [[] w1] eqn:E;
    apply (law_cancel (net := net)) in E as [Hs _]; try done;
    (destruct (_ =? 0); [done|]); [done|]. etrans; [exact Hs|]. apply IH.
Qed.

Lemma prime_loop_world fuel number candidate count world :
  same_sockets (net_state net world)
    (net_state net (snd (prime_loop tasks fuel number candidate count world))).
Proof.
  revert candidate count world.
  induction fuel as [|fuel IH]; intros candidate count world; cbn [prime_loop];
    (destruct (candidate <=? number); [|done]); destruct (task_cancel tasks world) as [[] w1] eqn:E;
    apply (law_cancel (net := net)) in E as [Hs _]; try done;
    pose proof (divisor_world (Z.to_nat (Z.sqrt candidate)) candidate 3 w1) as Hd;
    destruct (divisor_loop tasks _ candidate 3 w1) as [[] w2]; cbn in Hd; try (by etrans).
  do 2 (etrans; [done|]). apply IH.
Qed.

Lemma prime_world number world :
  same_sockets (net_state net world) (net_state net (snd (run_prime_count tasks number world))).
Proof. apply prime_loop_world. Qed.

Lemma complete_task_spec text answer world status result world' :
  answer = Some text -> complete_task tasks text world = (status, result, world') ->
  same_sockets (net_state net world) (net_state net world') /\ task_outcome answer status result.
Proof.
  intros ->. unfold complete_task. destruct (_ <=? _); [by intros [= <- <- <-]|].
  destruct (task_cancel tasks world) as [cancelled w1] eqn:E.
  apply (law_cancel (net := net)) in E as [Hs _].
  destruct cancelled; intros [= <- <- <-]; (split; [done|]); cbn; eauto.
Qed.

Lemma complete_task_ends {CALM : TaskCalm net tasks} text type args world :
  task_answer type args = Some text ->
  exists world', complete_task tasks text world =
    (FAULTLINE_TASK_OK, Some (mk_task_result text (Z.of_nat (length text))), world').
Proof.
  intros Ha. unfold complete_task. apply task_answer_short in Ha.
  rewrite (proj2 (Z.leb_gt _ _)) by done. pose proof (calm_cancel (tasks := tasks) world) as Hc.
  destruct (task_cancel tasks world) as [cancelled w1]. cbn in Hc. subst. eauto.
Qed.

Lemma task_execute_spec type args world status result world' :
  Z.of_nat (length args) <= FAULTLINE_JOB_MAX_ARGUMENT_SIZE ->
  faultline_task_execute net tasks type (Some args) (Z.of_nat (length args)) world =
    (status, result, world') ->
  same_sockets (net_state net world) (net_state net world') /\
  task_outcome (task_answer type args) status result /\
  (status = FAULTLINE_TASK_OK -> task_type_cast type = FAULTLINE_TASK_SLEEP ->
   forall n, decimal_value args = Some n ->
     clock (net_state net world) + n <= clock (net_state net world')).
Proof.
  intros Hlen. unfold faultline_task_execute. cbn [orb default id].
  rewrite (proj2 (Z.ltb_ge _ _)) by done.
  destruct (task_cancel tasks world) as [cancelled w1] eqn:E1.
  apply (law_cancel (net := net)) in E1 as [Hs1 _].
  destruct cancelled; [by intros [= <- <- <-]|].
  unfold task_answer. destruct (task_type_cast type) eqn:Et.
  - rewrite parse_number_spec by done.
    destruct (decimal_between 0 FAULTLINE_SLEEP_MAX_MS args) as [n|] eqn:En; [|by intros [= <- <- <-]].
    destruct (run_sleep net tasks n w1) as [st w2] eqn:E2.
    apply (run_sleep_spec net tasks) in E2 as (Hs2 & Hst & Hd).
    assert (same_sockets (net_state net world) (net_state net w2)) as Hs by (by etrans).
    destruct st; try by intros [= <- <- <-].
    intros H. eapply complete_task_spec in H as [Hs3 Ho]; [|done].
    split; [by etrans|]. split; [done|]. intros _ _ m Hm.
    unfold decimal_between in En. rewrite Hm in En. destruct (_ && _); [|done]. injection En as <-.
    specialize (Hd eq_refl). pose proof (same_clock _ _ Hs1). pose proof (same_clock _ _ Hs3). lia.
  - rewrite parse_number_spec by done.
    destruct (decimal_between 0 FAULTLINE_PRIME_COUNT_MAX args) as [n|] eqn:En; [|by intros [= <- <- <-]].
    apply decimal_between_range in En. pose proof (prime_world n w1) as Hs2.
    destruct (run_prime_count tasks n w1) as [[count|] w2] eqn:E2; cbn in Hs2;
      [|intros [= <- <- <-]; split; [by etrans|done]].
    apply run_prime_count_spec in E2 as ->; [|done].
    intros H. eapply complete_task_spec in H as [Hs3 Ho]; [|done]. split; [by do 2 (etrans; [done|])|done].
  - rewrite parse_number_spec by done.
    destruct (decimal_between 0 FAULTLINE_FIBONACCI_MAX args) as [n|] eqn:En; [|by intros [= <- <- <-]].
    apply decimal_between_range in En. rewrite run_fibonacci_spec by done.
    intros H. eapply complete_task_spec in H as [Hs3 Ho]; [|done]. split; [by etrans|done].
  - rewrite Nat2Z.id, take_ge by lia. rewrite hash_loop_spec.
    intros H. eapply complete_task_spec in H as [Hs3 Ho]; [|done]. split; [by etrans|done].
  - by intros [= <- <- <-].
Qed.

(** C34: whatever the task thread does, its result is right: a success carries exactly the text that
    the task promises (the number of primes up to the argument, the Fibonacci number, the FNV-1a
    hash, and for a sleep, that at least the requested time has passed); arguments are called
    invalid only when the task refuses them; a cancelled or failed task has no result. *)
Theorem task_results_exact type args world status result world' :
  Z.of_nat (length args) <= FAULTLINE_JOB_MAX_ARGUMENT_SIZE ->
  faultline_task_execute net tasks type (Some args) (Z.of_nat (length args)) world =
    (status, result, world') ->
  same_sockets (net_state net world) (net_state net world') /\
  task_outcome (task_answer type args) status result /\
  (status = FAULTLINE_TASK_OK -> task_type_cast type = FAULTLINE_TASK_SLEEP ->
   forall n, decimal_value args = Some n ->
     clock (net_state net world) + n <= clock (net_state net world')).
Proof. apply task_execute_spec. Qed.

(** C35: a task that nobody cancels, on a machine whose clock and sleep work, always ends, and ends in
    success with the promised text when its arguments are accepted and in refusal when not: no loop
    runs out, whatever the interruptions, and no result overflows its buffer. *)
Theorem task_completes {CALM : TaskCalm net tasks} type args world :
  Z.of_nat (length args) <= FAULTLINE_JOB_MAX_ARGUMENT_SIZE ->
  exists world',
    faultline_task_execute net tasks type (Some args) (Z.of_nat (length args)) world =
    match task_answer type args with
    | Some text => (FAULTLINE_TASK_OK, Some (mk_task_result text (Z.of_nat (length text))), world')
    | None => (FAULTLINE_TASK_INVALID_ARGUMENT, None, world')
    end.
Proof.
  intros Hlen. unfold faultline_task_execute. cbn [orb default id].
  rewrite (proj2 (Z.ltb_ge _ _)) by done.
  pose proof (calm_cancel (tasks := tasks) world) as Hc.
  destruct (task_cancel tasks world) as [cancelled w1]. cbn in Hc. subst cancelled.
  pose proof (fun text => complete_task_ends text type args) as Hdone.
  unfold task_answer in *. destruct (task_type_cast type) eqn:Et.
  - rewrite parse_number_spec by done.
    destruct (decimal_between 0 FAULTLINE_SLEEP_MAX_MS args) as [n|] eqn:En; [|by eauto].
    apply decimal_between_range in En. destruct (run_sleep_ends net tasks n w1) as [w2 ->]; [lia|].
    apply (Hdone _ w2 eq_refl).
  - rewrite parse_number_spec by done.
    destruct (decimal_between 0 FAULTLINE_PRIME_COUNT_MAX args) as [n|] eqn:En; [|by eauto].
    apply decimal_between_range in En.
    destruct (run_prime_count_ends tasks n w1) as (count & w2 & E); [apply CALM|done|].
    rewrite E. apply run_prime_count_spec in E as ->; [|done]. apply (Hdone _ w2 eq_refl).
  - rewrite parse_number_spec by done.
    destruct (decimal_between 0 FAULTLINE_FIBONACCI_MAX args) as [n|] eqn:En; [|by eauto].
    apply decimal_between_range in En. rewrite run_fibonacci_spec by done. apply (Hdone _ w1 eq_refl).
  - rewrite Nat2Z.id, take_ge by lia. rewrite hash_loop_spec. apply (Hdone _ w1 eq_refl).
  - by eauto.
Qed.

End Execute.

(** ** Witnesses *)

(** A task thread on the simulated machine: never cancelled, with one interrupted nap for each
    scripted interruption. *)
Definition sim_tasks : task_os sim_net := {|
  task_cancel := fun w => (false, w);
  task_nanosleep := fun ns =>
    interruptible_call (fun _ w => (OsOk tt, tick (ns / 1000000) w));
|}.

#[export] Instance sim_task_laws : TaskLaws sim_net_os sim_tasks.
Proof.
  split.
  - intros w b w' [= <- <-]. by split.
  - intros ns. refine (fun w r w' => interruptible_spec _ (fun w r w' => _) w r w' _ _).
    + intros w1 v Hv. cbn. rewrite <- Hv. split; [apply tick_sockets|done].
    + intros f w1 v r1 w1' Hv [= <- <-]. change (net_state sim_net_os) with sim_net_view. rewrite <- Hv.
      split; [apply tick_sockets|]. cbn. lia.
  - intros ns. apply interruptible_uses_up. intros f w r w' [= <- <-]. by split.
Qed.

#[export] Instance sim_task_calm : TaskCalm sim_net_os sim_tasks.
Proof.
  split; [done|by eauto|]. intros ns. refine (fun w e w' => _). cbn. unfold interruptible_call.
  destruct (next_fault w) as [[] v]; by intros [= <-].
Qed.

(** A machine that interrupts the first two naps. *)
Definition task_machine : sim_net :=
  mk_sim_net 7 0 [] [] ∅ ∅ [] [NetInterrupt; NetInterrupt; NetProceed] [].

Lemma task_results_exact_witness :
  exists world', faultline_task_execute sim_net_os sim_tasks 1 (Some (text "45")) 2 task_machine =
    (FAULTLINE_TASK_OK, Some (mk_task_result (text "slept_ms=45") 11), world') /\
  clock (sim_net_view task_machine) + 45 <= clock (sim_net_view world').
Proof.
  destruct (faultline_task_execute sim_net_os sim_tasks 1 (Some (text "45")) 2 task_machine)
    as [[status result] world'] eqn:E.
  assert (Z.of_nat (length (text "45")) <= FAULTLINE_JOB_MAX_ARGUMENT_SIZE) as Hlen by (vm_compute; done).
  destruct (task_results_exact sim_net_os sim_tasks 1 (text "45") task_machine status result world' Hlen E)
    as (_ & _ & Hslept).
  assert (fst (faultline_task_execute sim_net_os sim_tasks 1 (Some (text "45")) 2 task_machine) =
    (FAULTLINE_TASK_OK, Some (mk_task_result (text "slept_ms=45") 11))) as Hfst by (vm_compute; reflexivity).
  rewrite E in Hfst. injection Hfst as -> ->. exists world'. split; [done|]. by apply Hslept.
Defined.

Lemma task_completes_witness :
  exists world', faultline_task_execute sim_net_os sim_tasks 2 (Some (text "1000")) 4 task_machine =
    (FAULTLINE_TASK_OK, Some (mk_task_result (print_uint (prime_count 1000))
       (Z.of_nat (length (print_uint (prime_count 1000))))), world').
Proof.
  exact (task_completes sim_net_os sim_tasks 2 (text "1000") task_machine ltac:(vm_compute; done)).
Defined.
