(* ===== verification/Worker.v ===== *)
(** The worker process: [src/worker/main.c].

    The task runs on a second thread that shares two flags with the networking thread. [thread_os]
    has the calls on threads: creating one yields the world that the new thread will see, with
    every reading of its clock and of its cancellation flag; the flags [done] and [cancel] are read
    and set through the thread. The result of the task is read only after the thread was
    joined, so it is computed there, from the world of the thread.

    The worker runs until it is stopped: [worker_rounds] makes a given number of iterations of the loop and
    returns [None] if it is still running then. The waits end by their deadline; their fuel counts the
    interruptions still to come and the milliseconds of the deadline. *)

From S2P Require Import Prelude Text Job Protocol WalWriter Net Log Task.

Record thread_os (W : Type) := mk_thread_os {
  thr_block : os_call W unit;               (* pthread_sigmask(SIG_BLOCK) *)
  thr_restore : os_call W unit;             (* pthread_sigmask(SIG_SETMASK) *)
  thr_create : os_call W W;                 (* pthread_create, with both flags false *)
  thr_done : W -> W -> bool * W;            (* atomic_load(&done) *)
  thr_cancel : W -> W -> W;                 (* atomic_store(&cancel, true) *)
  thr_join : W -> os_call W unit;
}.
Arguments thr_block {W} t _ : rename.
Arguments thr_restore {W} t _ : rename.
Arguments thr_create {W} t _ : rename.
Arguments thr_done {W} t _ _ : rename.
Arguments thr_cancel {W} t _ _ : rename.
Arguments thr_join {W} t _ _ : rename.

(** [WAIT_ERROR] comes with [errno]. *)
Inductive wait_result :=
| WAIT_ERROR (errno : Z)
| WAIT_STOP
| WAIT_INPUT
| WAIT_DEADLINE.

(** The thread, if one was created, is the world it sees. *)
Record execution (W : Type) := mk_execution {
  ex_assignment : faultline_job_assign_payload;
  ex_result : faultline_task_result;
  ex_status : faultline_task_status;
  ex_thread : option W;
}.
Arguments mk_execution {W} _ _ _ _.
Arguments ex_assignment {W} _.
Arguments ex_result {W} _.
Arguments ex_status {W} _.
Arguments ex_thread {W} _.

(** [struct execution execution = {0}] *)
Definition no_execution {W : Type} : execution W :=
  mk_execution (mk_assign (mk_identity 0 0 0) 0 0 []) (mk_task_result [] 0) FAULTLINE_TASK_OK None.

(** [execution->assignment.identity.job_id = 0] *)
Definition release_assignment {W : Type} (e : execution W) : execution W :=
  let a := ex_assignment e in
  mk_execution
    (mk_assign (mk_identity 0 (i_worker_id (a_identity a)) (i_attempt (a_identity a)))
       (a_task_type a) (a_argument_size a) (a_arguments a))
    (ex_result e) (ex_status e) (ex_thread e).

(** The local variables of the loop; [received] is the length of [input]. *)
Record worker_state (W : Type) := mk_worker_state {
  ws_input : list Z;
  ws_expected : Z;
  ws_frame_started : Z;
  ws_next_heartbeat : Z;
  ws_execution : execution W;
}.
Arguments mk_worker_state {W} _ _ _ _ _.
Arguments ws_input {W} _.
Arguments ws_expected {W} _.
Arguments ws_frame_started {W} _.
Arguments ws_next_heartbeat {W} _.
Arguments ws_execution {W} _.

(** How a part of an iteration ends: it falls through, continues, breaks or returns
    [EXIT_FAILURE]. *)
Inductive flow :=
| FallThrough
| ContinueLoop
| BreakLoop
| ReturnFailure.

Definition newline : list Z := [10].

Definition usage : list Z :=
  text "Usage: faultline-worker [--coordinator IPv4:PORT] [--heartbeat-interval-ms MS]" ++ newline ++
  text "Default coordinator: 127.0.0.1:9000; heartbeat interval: " ++
  print_int FAULTLINE_DEFAULT_HEARTBEAT_INTERVAL_MS ++ text " ms" ++ newline ++
  text "MS must be a positive decimal integer in 1..INT_MAX." ++ newline.

Record worker_options := mk_worker_options {
  wo_host : list Z;
  wo_port : Z;
  wo_interval_ms : Z;
  wo_endpoint_seen : bool;
  wo_interval_seen : bool;
}.

Definition default_options : worker_options :=
  mk_worker_options FAULTLINE_DEFAULT_HOST FAULTLINE_DEFAULT_PORT
    FAULTLINE_DEFAULT_HEARTBEAT_INTERVAL_MS false false.

Section Worker.
Context {W : Type} (net : net_os W) (tasks : task_os W) (threads : thread_os W).

(** ** Log records *)

Definition log (s : stream) (level : list Z) (event : string) (body : list Z) (world : W) : W :=
  snd (faultline_log net s level (text "worker") (text event) (Some body) world).
Arguments log s level event%_string body world.

Definition log_error (operation : string) (error : Z) (world : W) : W :=
  faultline_log_error net ERROR (text "worker") (text operation) error world.
Arguments log_error operation%_string error world.

Definition runtime_error (message : string) (world : W) : W :=
  log stderr ERROR "runtime_error" (text "message=" ++ quote ++ text "worker: " ++ text message ++ quote) world.
Arguments runtime_error message%_string world.

Definition identity_fields (identity : faultline_job_identity) : list (list Z) :=
  [field "job_id" (print_uint (i_job_id identity)); field "worker_id" (print_uint (i_worker_id identity));
   field "attempt" (print_uint (i_attempt identity))].

(** ** Waiting *)

Fixpoint wait_loop (fuel : nat) (fd deadline : Z) (world : W) : wait_result * W :=
  let '(stopping, world) := os_stopping net world in
  if stopping !=? 0 then (WAIT_STOP, world)
  else
    let wait timeout world :=
      match os_poll net [(fd, POLLIN)] timeout world with
      | (OsErr error, world) =>
          if error =? EINTR then
            match fuel with
            | O => (WAIT_ERROR error, world)
            | S fuel => wait_loop fuel fd deadline world
            end
          else (WAIT_ERROR error, world)
      | (OsOk revents, world) =>
          let revents := revents !!! 0%nat in
          if Z.land revents POLLNVAL !=? 0 then (WAIT_ERROR EBADF, world)
          else if Z.land revents (Z.lor POLLIN (Z.lor POLLHUP POLLERR)) !=? 0 then
            let '(stopping, world) := os_stopping net world in
            (if stopping !=? 0 then WAIT_STOP else WAIT_INPUT, world)
          else
            match fuel with
            | O => (WAIT_ERROR ETIMEDOUT, world)
            | S fuel => wait_loop fuel fd deadline world
            end
      end in
    if 0 <=? deadline then
      let '(now, world) := faultline_monotonic_ms net world in
      if now <? 0 then (WAIT_ERROR EINVAL, world)
      else if deadline <=? now then (WAIT_DEADLINE, world)
      else wait (if deadline - now <? 250 then deadline - now else 250) world
    else wait 250 world.

Definition wait_for_input (fd deadline : Z) (world : W) : wait_result * W :=
  wait_loop (os_transients net world + Z.to_nat deadline) fd deadline world.

(** ** Registration *)

Definition REGISTER_ACK_FRAME : Z := FAULTLINE_HEADER_SIZE + FAULTLINE_WORKER_REGISTER_ACK_PAYLOAD_SIZE.

(** An iteration; [again] is the rest of the loop, with the bytes received and expected. *)
Definition ack_step (again : list Z -> Z -> W -> option (list Z) * W) (fd : Z) (wire : list Z)
    (expected deadline : Z) (world : W) : option (list Z) * W :=
  let received := Z.of_nat (length wire) in
  if expected <=? received then (Some wire, world)
  else
    let failed error world := (None, log_error "receive registration ACK" error world) in
    match wait_for_input fd deadline world with
    | (WAIT_STOP, world) => (None, world)
    | (WAIT_DEADLINE, world) => failed ETIMEDOUT world
    | (WAIT_ERROR error, world) => failed error world
    | (WAIT_INPUT, world) =>
        match os_recv net fd (expected - received) world with
        | (OsOk [], world) =>
            (None, runtime_error (if received =? 0 then "coordinator closed before registration ACK"
                                  else "coordinator closed during registration ACK") world)
        | (OsErr error, world) =>
            if transient error then again wire expected world else failed error world
        | (OsOk bytes, world) =>
            let wire := wire ++ bytes in
            if Z.of_nat (length wire) =? FAULTLINE_HEADER_SIZE then
              match faultline_header_decode wire with
              | inr header =>
                  if (h_message_type header !=? FAULTLINE_MSG_WORKER_REGISTER_ACK) ||
                     (h_payload_length header !=? FAULTLINE_WORKER_REGISTER_ACK_PAYLOAD_SIZE) then
                    (None, runtime_error "expected registration ACK with a 4-byte worker ID" world)
                  else again wire REGISTER_ACK_FRAME world
              | inl _ => (None, runtime_error "expected registration ACK with a 4-byte worker ID" world)
              end
            else again wire expected world
        end
    end.

(** The frame of the acknowledgement; [None] when the code returns -1. *)
Fixpoint ack_loop (fuel : nat) (fd : Z) (wire : list Z) (expected deadline : Z) (world : W) :
    option (list Z) * W :=
  ack_step (fun wire expected world =>
    match fuel with
    | O => (None, world)
    | S fuel => ack_loop fuel fd wire expected deadline world
    end) fd wire expected deadline world.

(** The header allows no other message than the acknowledgement. *)
Definition receive_registration_ack (fd : Z) (world : W) : option Z * W :=
  let '(start, world) := faultline_monotonic_ms net world in
  if start <? 0 then (None, log_error "clock" EINVAL world)
  else
    match ack_loop (os_transients net world + Z.to_nat REGISTER_ACK_FRAME) fd [] FAULTLINE_HEADER_SIZE
            (start + FAULTLINE_IO_TIMEOUT_MS) world with
    | (None, world) => (None, world)
    | (Some wire, world) =>
        match faultline_message_decode wire with
        | inr (MsgWorkerRegisterAck id, _) => (Some id, world)
        | _ => (None, runtime_error "invalid registration ACK payload" world)
        end
    end.

(** ** The task *)

(** What the thread leaves in the record; it sees [thread]. *)
Definition execute_task (e : execution W) (thread : W) : execution W :=
  let job := ex_assignment e in
  let '(status, result, _) :=
    faultline_task_execute net tasks (a_task_type job) (Some (a_arguments job)) (a_argument_size job) thread in
  mk_execution job (default (ex_result e) result) status (ex_thread e).

Definition start_execution (e : execution W) (world : W) : os_result unit * execution W * W :=
  match thr_block threads world with
  | (OsErr error, world) => (OsErr error, e, world)
  | (OsOk _, world) =>
      let '(created, world) := thr_create threads world in
      let e := mk_execution (ex_assignment e) (ex_result e) (ex_status e)
                 (match created with OsOk thread => Some thread | OsErr _ => None end) in
      let '(restored, world) := thr_restore threads world in
      (match restored with
       | OsErr error => OsErr error
       | OsOk _ => match created with OsErr error => OsErr error | OsOk _ => OsOk tt end
       end, e, world)
  end.

(** ** Reports *)

(** [false] when the code returns -1. *)
Definition send_message (fd : Z) (message : faultline_message) (world : W) : bool * W :=
  match faultline_message_encode FAULTLINE_MESSAGE_MAX_FRAME_SIZE message with
  | inl _ => (false, runtime_error "could not encode job report" world)
  | inr wire =>
      match faultline_send_all net fd wire FAULTLINE_IO_TIMEOUT_MS world with
      | (OsErr error, world) => (false, log_error "send job report" error world)
      | (OsOk _, world) => (true, world)
      end
  end.

Definition status_name (status : faultline_task_status) : list Z :=
  match status with
  | FAULTLINE_TASK_OK => text "ok"
  | FAULTLINE_TASK_INVALID_ARGUMENT => text "invalid_arguments"
  | FAULTLINE_TASK_CANCELLED => text "cancelled"
  | FAULTLINE_TASK_SYSTEM_ERROR => text "system_error"
  end.

Definition report_message (e : execution W) : faultline_message :=
  let identity := a_identity (ex_assignment e) in
  match ex_status e with
  | FAULTLINE_TASK_OK =>
      MsgJobCompleted (mk_completed identity (tr_size (ex_result e)) (tr_bytes (ex_result e)))
  | _ => MsgJobFailed (mk_failed identity (job_failure_value FAULTLINE_JOB_FAILURE_TASK))
  end.

Definition report_execution (fd : Z) (e : execution W) (world : W) : bool * W :=
  let identity := a_identity (ex_assignment e) in
  let ok := bool_decide (ex_status e = FAULTLINE_TASK_OK) in
  match send_message fd (report_message e) world with
  | (false, world) => (false, world)
  | (true, world) =>
      (true, log stdout (if ok then INFO else WARN)
               (if ok then "job_completed_sent" else "job_failed_sent")
               (fields (identity_fields identity ++
                 [field "task_status" (status_name (ex_status e));
                  field "result_bytes" (print_uint (if ok then tr_size (ex_result e) else 0));
                  text "acceptance=unconfirmed"])) world)
  end.

(** ** The loop *)

(** The part of an iteration that joins a finished task and reports it. *)
Definition reap_task (fd : Z) (s : worker_state W) (world : W) : flow * worker_state W * W :=
  let e := ws_execution s in
  let keep e := mk_worker_state (ws_input s) (ws_expected s) (ws_frame_started s) (ws_next_heartbeat s) e in
  match ex_thread e with
  | None => (FallThrough, s, world)
  | Some thread =>
      let '(done, world) := thr_done threads thread world in
      if negb done then (FallThrough, s, world)
      else
        match thr_join threads thread world with
        | (OsErr error, world) => (ReturnFailure, s, log_error "join task" error world)
        | (OsOk _, world) =>
            let e := execute_task e thread in
            let e := mk_execution (ex_assignment e) (ex_result e) (ex_status e) None in
            let '(stopping, world) := os_stopping net world in
            if stopping !=? 0 then (BreakLoop, keep e, world)
            else
              match report_execution fd e world with
              | (false, world) => (ReturnFailure, keep e, world)
              | (true, world) => (FallThrough, keep (release_assignment e), world)
              end
        end
  end.

(** When the wait of an iteration ends at the latest. *)
Definition wait_deadline (s : worker_state W) (now : Z) : Z :=
  let deadline := ws_next_heartbeat s in
  let deadline :=
    match ex_thread (ws_execution s) with
    | Some _ => if now + 50 <? deadline then now + 50 else deadline
    | None => deadline
    end in
  if (0 <=? ws_frame_started s) && (ws_frame_started s + FAULTLINE_IO_TIMEOUT_MS <? deadline)
  then ws_frame_started s + FAULTLINE_IO_TIMEOUT_MS else deadline.

(** A whole frame has arrived. The header allows no other message than the assignment. *)
Definition handle_assignment (fd worker_id : Z) (s : worker_state W) (world : W) :
    flow * worker_state W * W :=
  let refused := (ReturnFailure, s, runtime_error "invalid assignment or worker already busy" world) in
  match faultline_message_decode (ws_input s) with
  | inr (MsgJobAssign active, _) =>
      if (i_worker_id (a_identity active) !=? worker_id) ||
         (i_job_id (a_identity (ex_assignment (ws_execution s))) !=? 0) then refused
      else
        let e := ws_execution s in
        let e := mk_execution active (ex_result e) (ex_status e) (ex_thread e) in
        let keep e := mk_worker_state (ws_input s) (ws_expected s) (ws_frame_started s) (ws_next_heartbeat s) e in
        let next e := mk_worker_state [] FAULTLINE_HEADER_SIZE (-1) (ws_next_heartbeat s) e in
        let identity := mk_identity (i_job_id (a_identity active)) worker_id (i_attempt (a_identity active)) in
        let world := log stdout INFO "job_assigned" (fields (identity_fields identity ++
          [field "task_type" (print_uint (a_task_type active));
           field "argument_bytes" (print_uint (a_argument_size active))])) world in
        let '(stopping, world) := os_stopping net world in
        if stopping !=? 0 then (BreakLoop, keep e, world)
        else
          match send_message fd (MsgJobStarted (a_identity active)) world with
          | (false, world) => (ReturnFailure, keep e, world)
          | (true, world) =>
              let world := log stdout INFO "job_started_sent"
                (fields (identity_fields identity ++ [text "acceptance=unconfirmed"])) world in
              match start_execution e world with
              | (OsOk _, e, world) =>
                  (FallThrough, next e,
                   log stdout INFO "task_thread_started" (fields (identity_fields identity)) world)
              | (OsErr error, e, world) =>
                  let world := log_error "start task thread" error world in
                  match ex_thread e with
                  | Some _ => (ReturnFailure, keep e, world)
                  | None =>
                      let e := mk_execution (ex_assignment e) (ex_result e) FAULTLINE_TASK_SYSTEM_ERROR None in
                      match report_execution fd e world with
                      | (false, world) => (ReturnFailure, keep e, world)
                      | (true, world) => (FallThrough, next (release_assignment e), world)
                      end
                  end
              end
          end
  | _ => refused
  end.

(** The first bytes of every frame of this version. *)
Definition FRAME_PREFIX : list Z := [0x46; 0x4c; 0x49; 0x4e; 0; 1].

(** Input that has arrived, [now]. *)
Definition read_assignment (fd worker_id now : Z) (s : worker_state W) (world : W) :
    flow * worker_state W * W :=
  match os_recv net fd (ws_expected s - Z.of_nat (length (ws_input s))) world with
  | (OsErr error, world) =>
      if transient error then (ContinueLoop, s, world)
      else (ReturnFailure, s, log_error "coordinator connection" error world)
  | (OsOk [], world) => (ReturnFailure, s, runtime_error "coordinator disconnected" world)
  | (OsOk bytes, world) =>
      let input := ws_input s ++ bytes in
      let frame_started := match ws_input s with [] => now | _ => ws_frame_started s end in
      let with_expected expected :=
        mk_worker_state input expected frame_started (ws_next_heartbeat s) (ws_execution s) in
      let s := with_expected (ws_expected s) in
      let received := Z.of_nat (length input) in
      let prefix_size := Nat.min (length input) (length FRAME_PREFIX) in
      if negb (text_eqb (take prefix_size input) (take prefix_size FRAME_PREFIX)) then
        (ReturnFailure, s, runtime_error "unexpected data after registration" world)
      else if received <? ws_expected s then (ContinueLoop, s, world)
      else if received =? FAULTLINE_HEADER_SIZE then
        let refused :=
          (ReturnFailure, s,
           runtime_error "unexpected data after registration; expected job assignment" world) in
        match faultline_header_decode input with
        | inl _ => refused
        | inr header =>
            if (h_message_type header !=? FAULTLINE_MSG_JOB_ASSIGN) ||
               (h_payload_length header <? FAULTLINE_JOB_ASSIGN_PREFIX_SIZE) ||
               (FAULTLINE_MESSAGE_MAX_FRAME_SIZE - FAULTLINE_HEADER_SIZE <? h_payload_length header) then
              refused
            else (ContinueLoop, with_expected (FAULTLINE_HEADER_SIZE + h_payload_length header), world)
        end
      else handle_assignment fd worker_id s world
  end.

(** The heartbeat, sent when it is due. *)
Definition send_heartbeat (fd worker_id interval_ms : Z) (wire : list Z) (s : worker_state W)
    (world : W) : flow * worker_state W * W :=
  match faultline_send_all net fd wire FAULTLINE_IO_TIMEOUT_MS world with
  | (OsErr error, world) => (ReturnFailure, s, log_error "send heartbeat" error world)
  | (OsOk _, world) =>
      let '(now, world) := faultline_monotonic_ms net world in
      if now <? 0 then (ReturnFailure, s, log_error "clock" EINVAL world)
      else
        (ContinueLoop,
         mk_worker_state (ws_input s) (ws_expected s) (ws_frame_started s) (now + interval_ms) (ws_execution s),
         log stdout INFO "heartbeat_sent" (field "worker_id" (print_uint worker_id)) world)
  end.

(** The wait of an iteration and what follows it. *)
Definition wait_and_act (fd worker_id interval_ms : Z) (wire : list Z) (s : worker_state W) (world : W) :
    flow * worker_state W * W :=
  let '(now, world) := faultline_monotonic_ms net world in
  if now <? 0 then (ReturnFailure, s, log_error "clock" EINVAL world)
  else
    match wait_for_input fd (wait_deadline s now) world with
    | (WAIT_STOP, world) => (BreakLoop, s, world)
    | (WAIT_ERROR error, world) => (ReturnFailure, s, log_error "wait for coordinator" error world)
    | (ready, world) =>
        let '(now, world) := faultline_monotonic_ms net world in
        if now <? 0 then (ReturnFailure, s, log_error "clock" EINVAL world)
        else if (0 <=? ws_frame_started s) && (FAULTLINE_IO_TIMEOUT_MS <=? now - ws_frame_started s) then
          (ReturnFailure, s, runtime_error "assignment receive timeout" world)
        else if ws_next_heartbeat s <=? now then send_heartbeat fd worker_id interval_ms wire s world
        else
          match ready with
          | WAIT_INPUT => read_assignment fd worker_id now s world
          | _ => (ContinueLoop, s, world)
          end
    end.

Definition worker_step (fd worker_id interval_ms : Z) (wire : list Z) (s : worker_state W) (world : W) :
    flow * worker_state W * W :=
  match reap_task fd s world with
  | (FallThrough, s, world) => wait_and_act fd worker_id interval_ms wire s world
  | (flow, s, world) => (flow, s, world)
  end.

Fixpoint worker_rounds (rounds : nat) (fd worker_id interval_ms : Z) (wire : list Z)
    (s : worker_state W) (world : W) : option Z * worker_state W * W :=
  match rounds with
  | O => (None, s, world)
  | S rounds =>
      let '(stopping, world) := os_stopping net world in
      if stopping !=? 0 then (Some EXIT_SUCCESS, s, world)
      else
        match worker_step fd worker_id interval_ms wire s world with
        | (BreakLoop, s, world) => (Some EXIT_SUCCESS, s, world)
        | (ReturnFailure, s, world) => (Some EXIT_FAILURE, s, world)
        | (_, s, world) => worker_rounds rounds fd worker_id interval_ms wire s world
        end
  end.

Definition HEARTBEAT_FRAME : Z := FAULTLINE_HEADER_SIZE + FAULTLINE_HEARTBEAT_PAYLOAD_SIZE.

Definition worker_loop (rounds : nat) (fd worker_id interval_ms : Z) (world : W) :
    option Z * execution W * W :=
  let '(now, world) := faultline_monotonic_ms net world in
  if now <? 0 then (Some EXIT_FAILURE, no_execution, log_error "clock" EINVAL world)
  else
    match faultline_message_encode HEARTBEAT_FRAME (MsgHeartbeat worker_id) with
    | inl _ => (Some EXIT_FAILURE, no_execution, runtime_error "could not encode heartbeat" world)
    | inr wire =>
        let '(status, s, world) :=
          worker_rounds rounds fd worker_id interval_ms wire
            (mk_worker_state [] FAULTLINE_HEADER_SIZE (-1) (now + interval_ms) no_execution) world in
        (status, ws_execution s, world)
    end.

Definition run_worker (rounds : nat) (fd worker_id interval_ms : Z) (world : W) : option Z * W :=
  match worker_loop rounds fd worker_id interval_ms world with
  | (None, _, world) => (None, world)
  | (Some status, e, world) =>
      match ex_thread e with
      | None => (Some status, world)
      | Some thread =>
          let world := thr_cancel threads thread world in
          match thr_join threads thread world with
          | (OsErr error, world) => (Some EXIT_FAILURE, log_error "join cancelled task" error world)
          | (OsOk _, world) =>
              let identity := a_identity (ex_assignment e) in
              (Some status,
               log stdout INFO "task_joined"
                 (fields (identity_fields (mk_identity (i_job_id identity) worker_id (i_attempt identity)) ++
                   [text "cancel_requested=1"; text "terminal_report_sent=0"])) world)
          end
      end
  end.

(** ** The process *)

(** One iteration of the loop over the arguments: the option and its value. *)
Definition parse_option (o : worker_options) (name value : list Z) : option worker_options :=
  match (if text_eqb name (text "--coordinator") && negb (wo_endpoint_seen o)
         then faultline_parse_endpoint net value INET_ADDRSTRLEN else None) with
  | Some (host, port) =>
      Some (mk_worker_options host port (wo_interval_ms o) true (wo_interval_seen o))
  | None =>
      match (if text_eqb name (text "--heartbeat-interval-ms") && negb (wo_interval_seen o)
             then faultline_parse_duration_ms value else None) with
      | Some interval => Some (mk_worker_options (wo_host o) (wo_port o) interval (wo_endpoint_seen o) true)
      | None => None
      end
  end.

(** [argv] without the name of the program; [None] is the exit with the usage. *)
Fixpoint parse_options (o : worker_options) (argv : list (list Z)) : option worker_options :=
  match argv with
  | [] => Some o
  | [_] => None
  | name :: value :: argv =>
      match parse_option o name value with
      | None => None
      | Some o => parse_options o argv
      end
  end.

Definition configure_signals (world : W) : os_result unit * W :=
  match os_sigaction net SIGINT REQUEST_STOP world with
  | (OsErr error, world) => (OsErr error, world)
  | (OsOk _, world) =>
      match os_sigaction net SIGTERM REQUEST_STOP world with
      | (OsErr error, world) => (OsErr error, world)
      | (OsOk _, world) => faultline_ignore_sigpipe net world
      end
  end.

(** From the connection to the end of the loop: the status and the ID of the worker. *)
Definition register_and_run (rounds : nat) (o : worker_options) (fd : Z) (world : W) : option Z * Z * W :=
  let failed world := (Some EXIT_FAILURE, FAULTLINE_WORKER_ID_UNASSIGNED, world) in
  let '(stopping, world) := os_stopping net world in
  if stopping !=? 0 then failed world
  else
    match faultline_message_encode FAULTLINE_HEADER_SIZE (MsgWorkerRegister 0) with
    | inl _ => failed (runtime_error "could not encode registration" world)
    | inr wire =>
        match faultline_send_all net fd wire FAULTLINE_IO_TIMEOUT_MS world with
        | (OsErr error, world) => failed (log_error "send registration" error world)
        | (OsOk _, world) =>
            match receive_registration_ack fd world with
            | (None, world) => failed world
            | (Some worker_id, world) =>
                let '(stopping, world) := os_stopping net world in
                if stopping !=? 0 then (Some EXIT_FAILURE, worker_id, world)
                else
                  let world := log stdout INFO "registered"
                    (fields [field "worker_id" (print_uint worker_id);
                       field "coordinator" (wo_host o ++ text ":" ++ print_uint (wo_port o));
                       field "heartbeat_interval_ms" (print_int (wo_interval_ms o))]) world in
                  let '(status, world) := run_worker rounds fd worker_id (wo_interval_ms o) world in
                  (status, worker_id, world)
            end
        end
    end.

(** After [done:]. Each use of the flag reads it again. *)
Definition stop_worker (status fd worker_id : Z) (world : W) : Z * W :=
  let world := os_close net fd world in
  let world :=
    if worker_id !=? FAULTLINE_WORKER_ID_UNASSIGNED then
      let '(level, world) := os_stopping net world in
      let '(code, world) := os_stopping net world in
      let '(reason, world) := os_stopping net world in
      let '(signal, world) := os_stopping net world in
      log stdout (if (level !=? 0) || (status =? EXIT_SUCCESS) then INFO else ERROR) "stopped"
        (fields [field "worker_id" (print_uint worker_id);
           field "exit_code" (print_int (if code !=? 0 then EXIT_SUCCESS else status));
           field "reason" (if reason !=? 0 then text "signal" else text "error");
           field "signal" (print_int signal)]) world
    else world in
  let '(stopping, world) := os_stopping net world in
  (if stopping !=? 0 then EXIT_SUCCESS else status, world).

(** The exit status, [None] while the worker is still running after [rounds]. *)
Definition main (rounds : nat) (argv : list (list Z)) (world : W) : option Z * W :=
  if bool_decide (argv = [text "--help"]) then
    (Some EXIT_SUCCESS, snd (os_print net stdout usage world))
  else
    match parse_options default_options argv with
    | None => (Some EXIT_FAILURE, snd (os_print net stderr usage world))
    | Some o =>
        match configure_signals world with
        | (OsErr error, world) => (Some EXIT_FAILURE, log_error "configure signals" error world)
        | (OsOk _, world) =>
            match faultline_connect net (wo_host o) (wo_port o) FAULTLINE_IO_TIMEOUT_MS world with
            | (OsErr error, world) =>
                let '(stopping, world) := os_stopping net world in
                if stopping !=? 0 then (Some EXIT_SUCCESS, world)
                else (Some EXIT_FAILURE, log_error "connect" error world)
            | (OsOk fd, world) =>
                match register_and_run rounds o fd world with
                | (None, _, world) => (None, world)
                | (Some status, worker_id, world) =>
                    let '(status, world) := stop_worker status fd worker_id world in (Some status, world)
                end
            end
        end
    end.

End Worker.
