(* ===== verification/WorkerProofs.v ===== *)
(** The worker: its loops, which never run out of their fuel, and its conversation with the coordinator.

    The bytes that the worker has sent are always whole frames of a conversation: heartbeats at any
    time, and for every assignment it took, in order, a STARTED message and then one report, which is
    truthful about the task ([work_log]). *)

From S2P Require Import Prelude Text Job Protocol ProtocolProofs WalWriter Net NetLaws SimNet NetProofs Log Task TaskProofs Framing Worker.

(** The calls on threads and flags do not touch the sockets. *)
Class ThreadLaws {W : Type} (net : net_os W) (threads : thread_os W) {NET : Net net} : Prop := {
  law_block : quiet net (thr_block threads);
  law_restore : quiet net (thr_restore threads);
  law_create world r world' : thr_create threads world = (r, world') ->
    same_sockets (net_state net world) (net_state net world');
  law_done thread : quiet net (thr_done threads thread);
  law_join thread : quiet net (thr_join threads thread);
  law_thread_cancel thread world :
    same_sockets (net_state net world) (net_state net (thr_cancel threads thread world));
}.

Section Waits.
Context {W : Type} (net : net_os W) {FIN : NetFinite net} {NET : Net net}.

(** How many times a wait until [deadline] can still turn around. *)
Definition turns (deadline : Z) (world : W) : nat :=
  os_transients net world + Z.to_nat (deadline - Z.max 0 (clock (net_state net world))).

Lemma stopping_step world z world' :
  os_stopping net world = (z, world') ->
  same_sockets (net_state net world) (net_state net world') /\
  (os_transients net world' <= os_transients net world)%nat.
Proof.
  intros E. split; [by apply (law_stopping net) in E as [? _]|by eapply (finite_stopping net)].
Qed.

(** A wait that turns around has used up a turn. *)
Lemma wait_turn fd deadline now timeout world world1 world2 world3 r :
  same_sockets (net_state net world) (net_state net world1) ->
  (os_transients net world1 <= os_transients net world)%nat ->
  faultline_monotonic_ms net world1 = (now, world2) -> 0 <= now -> now < deadline ->
  timeout = (if deadline - now <? 250 then deadline - now else 250) ->
  os_poll net [(fd, POLLIN)] timeout world2 = (r, world3) ->
  match r with
  | OsErr e => e = EINTR
  | OsOk revents => Z.land (revents !!! 0%nat) POLLNVAL = 0 /\
      Z.land (revents !!! 0%nat) (Z.lor POLLIN (Z.lor POLLHUP POLLERR)) = 0
  end ->
  (turns deadline world3 < turns deadline world)%nat /\
  same_sockets (net_state net world) (net_state net world3).
Proof.
  intros Hs1 Ht1 E2 Hnow Hd -> E3 Hr. apply (monotonic_step net) in E2 as (Hs2 & Ht2 & Hc2).
  specialize (Hc2 Hnow). destruct (finite_poll net _ _ _ _ _ E3) as [Hle Hlt].
  destruct (law_poll net _ _ _ _ _ E3) as [Hs3 Hp].
  split; [|by do 2 (etrans; [done|])].
  pose proof (same_clock _ _ Hs1). pose proof (same_clock _ _ Hs3). unfold turns.
  destruct r as [revents|e].
  - destruct (poll_decides net _ _ _ _ _ _ E3) as (ready & -> & Hready). cbn in Hr.
    destruct (Hp _ eq_refl) as (_ & _ & Hclock). destruct Hready as [->|Hready]; [|tauto].
    specialize (Hclock ltac:(destruct (Z.ltb_spec (deadline - now) 250); lia)
      ltac:(by intros ? ->%list_elem_of_singleton)).
    destruct (Z.ltb_spec (deadline - now) 250); lia.
  - subst e. specialize (Hlt _ eq_refl eq_refl). lia.
Qed.

Lemma wait_fuel fuel fuel' fd deadline world :
  0 <= deadline -> (turns deadline world <= fuel)%nat -> (turns deadline world <= fuel')%nat ->
  wait_loop net fuel fd deadline world = wait_loop net fuel' fd deadline world.
Proof.
  intros Hd. revert fuel' world. induction fuel as [|fuel IH]; intros fuel' world H H';
    destruct fuel' as [|fuel']; cbn [wait_loop]; try done;
    rewrite (proj2 (Z.leb_le _ _) Hd);
    destruct (os_stopping net world) as [z w1] eqn:E1; apply stopping_step in E1 as [Hs1 Ht1];
    (destruct (negb _); [done|]);
    destruct (faultline_monotonic_ms net w1) as [now w2] eqn:E2;
    destruct (Z.ltb_spec now 0) as [|Hnow]; try done; destruct (Z.leb_spec deadline now); try done;
    destruct (os_poll net _ _ w2) as [[revents|e] w3] eqn:E3;
    pose proof (wait_turn fd deadline now _ world w1 w2 w3 _ Hs1 Ht1 E2 Hnow ltac:(lia) eq_refl E3) as Hturn.
  1,3,5: destruct (Z.eqb_spec (Z.land (revents !!! 0%nat) POLLNVAL) 0); [|done]; cbn [negb];
    destruct (Z.eqb_spec (Z.land (revents !!! 0%nat) (Z.lor POLLIN (Z.lor POLLHUP POLLERR))) 0); [|done];
    cbn [negb]; destruct Hturn as [Hturn _]; [done|..]; try lia; apply IH; lia.
  all: destruct (Z.eqb_spec e EINTR) as [->|]; [|done]; destruct Hturn as [Hturn _]; [done|..]; try lia; apply IH; lia.
Qed.

Lemma turns_bound deadline world : (turns deadline world <= os_transients net world + Z.to_nat deadline)%nat.
Proof. unfold turns. lia. Qed.

(** The loop of the code. *)
Lemma wait_eq fd deadline world :
  0 <= deadline ->
  wait_for_input net fd deadline world =
  let '(stopping, world) := os_stopping net world in
  if stopping !=? 0 then (WAIT_STOP, world)
  else
    let '(now, world) := faultline_monotonic_ms net world in
    if now <? 0 then (WAIT_ERROR EINVAL, world)
    else if deadline <=? now then (WAIT_DEADLINE, world)
    else
      match os_poll net [(fd, POLLIN)] (if deadline - now <? 250 then deadline - now else 250) world with
      | (OsErr error, world) =>
          if error =? EINTR then wait_for_input net fd deadline world else (WAIT_ERROR error, world)
      | (OsOk revents, world) =>
          let revents := revents !!! 0%nat in
          if Z.land revents POLLNVAL !=? 0 then (WAIT_ERROR EBADF, world)
          else if Z.land revents (Z.lor POLLIN (Z.lor POLLHUP POLLERR)) !=? 0 then
            let '(stopping, world) := os_stopping net world in
            (if stopping !=? 0 then WAIT_STOP else WAIT_INPUT, world)
          else wait_for_input net fd deadline world
      end.
Proof.
  intros Hd. pose proof (turns_bound deadline world) as Hb. unfold wait_for_input at 1.
  destruct (os_transients net world + Z.to_nat deadline)%nat as [|n]; cbn [wait_loop];
    rewrite (proj2 (Z.leb_le _ _) Hd);
    destruct (os_stopping net world) as [z w1] eqn:E1; apply stopping_step in E1 as [Hs1 Ht1];
    (destruct (negb _); [done|]);
    destruct (faultline_monotonic_ms net w1) as [now w2] eqn:E2;
    destruct (Z.ltb_spec now 0) as [|Hnow]; try done; destruct (Z.leb_spec deadline now); try done;
    destruct (os_poll net _ _ w2) as [[revents|e] w3] eqn:E3;
    pose proof (wait_turn fd deadline now _ world w1 w2 w3 _ Hs1 Ht1 E2 Hnow ltac:(lia) eq_refl E3) as Hturn;
    pose proof (turns_bound deadline w3).
  1,3: destruct (Z.eqb_spec (Z.land (revents !!! 0%nat) POLLNVAL) 0); [|done]; cbn [negb];
    destruct (Z.eqb_spec (Z.land (revents !!! 0%nat) (Z.lor POLLIN (Z.lor POLLHUP POLLERR))) 0); [|done];
    cbn [negb]; destruct Hturn as [Hturn _]; [done|..]; try lia; apply wait_fuel; lia.
  all: destruct (Z.eqb_spec e EINTR) as [->|]; [|done]; destruct Hturn as [Hturn _]; [done|..]; try lia;
    apply wait_fuel; lia.
Qed.

Lemma wait_step fd deadline world r world' :
  0 <= deadline -> wait_for_input net fd deadline world = (r, world') ->
  same_sockets (net_state net world) (net_state net world') /\
  (os_transients net world' <= os_transients net world)%nat /\
  (r = WAIT_DEADLINE -> deadline <= clock (net_state net world')).
Proof.
  intros Hd. remember (turns deadline world) as n eqn:En. revert world En.
  induction n as [n IH] using (well_founded_induction lt_wf). intros world ->. rewrite wait_eq by done.
  destruct (os_stopping net world) as [z w1] eqn:E1. apply stopping_step in E1 as [Hs1 Ht1].
  destruct (negb _); [by intros [= <- <-]|].
  destruct (faultline_monotonic_ms net w1) as [now w2] eqn:E2.
  destruct (monotonic_step net _ _ _ E2) as (Hs2 & Ht2 & Hc2).
  assert (same_sockets (net_state net world) (net_state net w2)) as Hs by (by etrans).
  destruct (Z.ltb_spec now 0) as [|Hnow]; [intros [= <- <-]; split_and!; [done|lia|done]|].
  destruct (Z.leb_spec deadline now); [intros [= <- <-]; split_and!; [done|lia|lia]|].
  destruct (os_poll net _ _ w2) as [r3 w3] eqn:E3.
  pose proof (wait_turn fd deadline now _ world w1 w2 w3 _ Hs1 Ht1 E2 Hnow ltac:(lia) eq_refl E3) as Hturn.
  destruct (finite_poll net _ _ _ _ _ E3) as [Hle _]. destruct (law_poll net _ _ _ _ _ E3) as [Hs3 _].
  assert (same_sockets (net_state net world) (net_state net w3)) as Hs' by (by etrans).
  assert (forall r, r <> WAIT_DEADLINE -> same_sockets (net_state net world) (net_state net w3) /\
    (os_transients net w3 <= os_transients net world)%nat /\
    (r = WAIT_DEADLINE -> deadline <= clock (net_state net w3))) as Hend.
  { intros r0 Hr0. split_and!; [done|lia|done]. }
  assert ((turns deadline w3 < turns deadline world)%nat ->
    wait_for_input net fd deadline w3 = (r, world') -> same_sockets (net_state net world) (net_state net world') /\
    (os_transients net world' <= os_transients net world)%nat /\
    (r = WAIT_DEADLINE -> deadline <= clock (net_state net world'))) as Hagain.
  { intros Hlt H0. destruct (IH _ Hlt w3 eq_refl H0) as (? & ? & ?). split_and!; [by etrans|lia|done]. }
  destruct r3 as [revents|e].
  - cbv zeta. destruct (Z.eqb_spec (Z.land (revents !!! 0%nat) POLLNVAL) 0); cbn [negb];
      [|intros [= <- <-]; by apply Hend].
    destruct (Z.eqb_spec (Z.land (revents !!! 0%nat) (Z.lor POLLIN (Z.lor POLLHUP POLLERR))) 0); cbn [negb].
    + apply Hagain. by apply Hturn.
    + destruct (os_stopping net w3) as [z' w4] eqn:E4. apply stopping_step in E4 as [Hs4 Ht4].
      intros [= <- <-]. split_and!; [by etrans|lia|by destruct (negb _)].
  - destruct (Z.eqb_spec e EINTR) as [->|]; [|intros [= <- <-]; by apply Hend].
    apply Hagain. by apply Hturn.
Qed.

End Waits.

(** ** Messages about an assignment *)

Lemma assignment_valid a :
  sendable (MsgJobAssign a) ->
  identity_typed (a_identity a) /\ validate_identity (a_identity a) = FAULTLINE_PROTOCOL_OK /\
  i_job_id (a_identity a) <> 0 /\ Z.of_nat (length (a_arguments a)) = a_argument_size a /\
  Z.of_nat (length (a_arguments a)) <= FAULTLINE_JOB_MAX_ARGUMENT_SIZE.
Proof.
  intros [Ht [frame He]]. apply message_encode_ok in He as (n & Hv & _); [|done].
  destruct Ht as (Hi & _ & Hsize & _).
  unfold validate_message in Hv. cbn [message_type message_payload_bounds validate_payload] in Hv.
  cbn in Hv. destruct (valid_task _); cbn in Hv; [|done].
  destruct (validate_identity (a_identity a)) eqn:Ei; try done.
  destruct (Z.ltb_spec (FAULTLINE_JOB_ASSIGN_PREFIX_SIZE + FAULTLINE_JOB_MAX_ARGUMENT_SIZE -
    FAULTLINE_JOB_ASSIGN_PREFIX_SIZE) (a_argument_size a)); [done|].
  split_and!; [done|done| |done|plia].
  unfold validate_identity in Ei. by destruct (Z.eqb_spec (i_job_id (a_identity a)) 0).
Qed.

Lemma started_sendable a : sendable (MsgJobAssign a) -> sendable (MsgJobStarted (a_identity a)).
Proof.
  intros (Hi & Hv & _)%assignment_valid. eapply sendable_valid; [done|].
  eapply valid_sized; [done|done|done|]. cbn. lia.
Qed.

(** A report says what became of the assignment; a result is the answer of the task. *)
Definition truthful (a : faultline_job_assign_payload) (report : faultline_message) : Prop :=
  match report with
  | MsgJobCompleted c =>
      c_identity c = a_identity a /\ task_answer (a_task_type a) (a_arguments a) = Some (c_result c)
  | MsgJobFailed f =>
      f_identity f = a_identity a /\ f_failure f = job_failure_value FAULTLINE_JOB_FAILURE_TASK
  | _ => False
  end.

Lemma report_spec {W} (e : execution W) :
  sendable (MsgJobAssign (ex_assignment e)) ->
  (ex_status e = FAULTLINE_TASK_OK -> exists text,
     task_answer (a_task_type (ex_assignment e)) (a_arguments (ex_assignment e)) = Some text /\
     ex_result e = mk_task_result text (Z.of_nat (length text))) ->
  sendable (report_message e) /\ truthful (ex_assignment e) (report_message e).
Proof.
  intros (Hi & Hv & _)%assignment_valid Hok. unfold report_message.
  assert (sendable (MsgJobFailed (mk_failed (a_identity (ex_assignment e))
    (job_failure_value FAULTLINE_JOB_FAILURE_TASK)))) as Hf.
  { eapply sendable_valid; [done|]. eapply valid_sized; [done|done|done|]. cbn. lia. }
  destruct (ex_status e) eqn:Es; try by split.
  destruct (Hok eq_refl) as (text & Ha & ->). split; [|done]. pose proof (task_answer_short _ _ _ Ha).
  eapply sendable_valid; [split; [done|]; split; [done|by eapply task_answer_bytes]|].
  eapply valid_sized; [done|done|done|]. cbn. plia.
Qed.

(** The conversation: the assignment in progress, the assignments taken, the messages sent. *)
Inductive work_log (worker : Z) : option faultline_job_assign_payload ->
    list faultline_job_assign_payload -> list faultline_message -> Prop :=
| work_nothing : work_log worker None [] []
| work_heartbeat cur taken sent :
    work_log worker cur taken sent -> work_log worker cur taken (sent ++ [MsgHeartbeat worker])
| work_started a taken sent :
    sendable (MsgJobAssign a) -> i_worker_id (a_identity a) = worker ->
    work_log worker None taken sent ->
    work_log worker (Some a) (taken ++ [a]) (sent ++ [MsgJobStarted (a_identity a)])
| work_reported a taken sent report :
    truthful a report -> work_log worker (Some a) taken sent ->
    work_log worker None taken (sent ++ [report]).

Definition frames (l : list faultline_message) : list Z := concat (frame_of <$> l).

Lemma frames_snoc l m : frames (l ++ [m]) = frames l ++ frame_of m.
Proof. unfold frames. rewrite fmap_app, concat_app. cbn. by rewrite app_nil_r. Qed.

Lemma frames_taken taken a :
  frames (MsgJobAssign <$> (taken ++ [a])) = frames (MsgJobAssign <$> taken) ++ frame_of (MsgJobAssign a).
Proof. rewrite fmap_app. apply frames_snoc. Qed.

(** The start of a message that was not sent in full: it is the next message of the log, about an
    assignment of the input. *)
Definition broken_off (worker : Z) (input : list Z) (sent : list faultline_message) (part : list Z) : Prop :=
  exists m cur taken rest, cut_of part (frame_of m) /\ work_log worker cur taken (sent ++ [m]) /\
    input = frames (MsgJobAssign <$> taken) ++ rest.

Section Conversation.
Context {W : Type} (net : net_os W) (tasks : task_os W) (threads : thread_os W).
Context {FIN : NetFinite net} {NET : Net net} {TASK : TaskLaws net tasks} {THREADS : ThreadLaws net threads}.

Abbreviation view_of world := (net_state net world).

Local Abbreviation moved := (NetProofs.moved net).

(** ** Log records leave the sockets alone *)

Lemma log_sockets s level component event body world :
  same_sockets (view_of world) (view_of (snd (faultline_log net s level component event body world))).
Proof.
  assert (PreOrder (fun w w' => same_sockets (view_of w) (view_of w'))).
  { split; [done|]. intros ? ? ? ? ?. by etrans. }
  apply (log_respects net (fun w w' => same_sockets (view_of w) (view_of w'))).
  - intros w r w' E. by eapply (law_realtime net).
  - intros w r w' E. by apply (law_monotonic net) in E as [? _].
  - intros l w b w' E. by eapply (law_print net).
  - intros w b w' E. by eapply (law_flush net).
Qed.

(** What can be said of sending [m]: all of it, or the start of it. *)
Definition spoken (ok : bool) (fd : Z) (m : faultline_message) (world world' : W) : Prop :=
  if ok then moved fd (frame_of m) [] world world'
  else exists part, cut_of part (frame_of m) /\ moved fd part [] world world'.

Lemma send_message_spec fd m world ok world' :
  sendable m -> send_message net fd m world = (ok, world') -> spoken ok fd m world world'.
Proof.
  intros Hs. unfold send_message. rewrite (sendable_frame m Hs).
  destruct (faultline_send_all net fd _ _ world) as [[[]|e] w1] eqn:E.
  - apply (send_all_moved net) in E. by intros [= <- <-].
  - apply (send_all_cut net) in E as (part & Hp & Hm); [|by apply frame_nonempty].
    intros [= <- <-]. exists part. split; [done|]. eapply moved_after; [done|]. apply log_sockets.
Qed.

Lemma report_execution_spec fd e world ok world' :
  sendable (report_message e) -> report_execution net fd e world = (ok, world') ->
  spoken ok fd (report_message e) world world'.
Proof.
  intros Hs. unfold report_execution. destruct (send_message net fd _ world) as [ok1 w1] eqn:E.
  apply send_message_spec in E; [|done]. destruct ok1; intros [= <- <-]; [|done].
  eapply moved_after; [exact E|]. apply log_sockets.
Qed.

(** ** The state of the loop *)

Record in_service (worker fd : Z) (input output : list Z) (cur : option faultline_job_assign_payload)
    (taken : list faultline_job_assign_payload) (sent : list faultline_message)
    (s : worker_state W) (world : W) : Prop := {
  sv_log : work_log worker cur taken sent;
  sv_out : outgoing (view_of world) fd = output ++ frames sent;
  sv_in : input = frames (MsgJobAssign <$> taken) ++ ws_input s ++ incoming (view_of world) fd;
  sv_execution :
    match cur with
    | None => i_job_id (a_identity (ex_assignment (ws_execution s))) = 0 /\ ex_thread (ws_execution s) = None
    | Some a => ex_assignment (ws_execution s) = a /\ sendable (MsgJobAssign a) /\
        ex_thread (ws_execution s) <> None
    end;
  sv_bytes : bytes_ok (ws_input s);
  sv_heartbeat : 0 <= ws_next_heartbeat s;
}.

(** The input is short of a header, or of the assignment that its header announces. *)
Definition awaiting (s : worker_state W) : Prop :=
  ws_expected s = FAULTLINE_HEADER_SIZE /\ Z.of_nat (length (ws_input s)) < FAULTLINE_HEADER_SIZE \/
  exists h, faultline_header_decode (ws_input s) = inr h /\ h_message_type h = FAULTLINE_MSG_JOB_ASSIGN /\
    0 < h_payload_length h /\ ws_expected s = FAULTLINE_HEADER_SIZE + h_payload_length h /\
    Z.of_nat (length (ws_input s)) < ws_expected s.

(** The loop is over: what has been said is whole frames and, if a send has failed, the start of the
    next message. *)
Definition hung_up (worker fd : Z) (input output : list Z) (status : Z) (world : W) : Prop :=
  exists cur taken sent part rest, work_log worker cur taken sent /\
    outgoing (view_of world) fd = output ++ frames sent ++ part /\
    input = frames (MsgJobAssign <$> taken) ++ rest /\
    (part = [] \/ status = EXIT_FAILURE /\ broken_off worker input sent part).

Definition after (worker fd : Z) (input output : list Z) (r : flow) (s : worker_state W) (world : W) : Prop :=
  match r with
  | FallThrough | ContinueLoop =>
      (exists cur taken sent, in_service worker fd input output cur taken sent s world) /\ awaiting s
  | BreakLoop => hung_up worker fd input output EXIT_SUCCESS world
  | ReturnFailure => hung_up worker fd input output EXIT_FAILURE world
  end.

Lemma service_quiet worker fd input output cur taken sent s world world' :
  in_service worker fd input output cur taken sent s world ->
  same_sockets (view_of world) (view_of world') -> in_service worker fd input output cur taken sent s world'.
Proof.
  intros [Hl Ho Hi He Hb Hh] Hq. split; try done; [by rewrite (same_outgoing _ _ Hq)|].
  by rewrite (same_incoming _ _ Hq).
Qed.

Lemma service_over worker fd input output cur taken sent s status world world' :
  in_service worker fd input output cur taken sent s world ->
  same_sockets (view_of world) (view_of world') -> hung_up worker fd input output status world'.
Proof.
  intros [Hl Ho Hi He Hb Hh] Hq. exists cur, taken, sent, []. eexists.
  split_and!; [done|by rewrite (same_outgoing _ _ Hq), app_nil_r|done|by left].
Qed.

(** The next message of the log, with the assignment it answers, has been cut. *)
Lemma service_ends worker fd input output cur taken sent s world world' part m cur' taken' rest :
  in_service worker fd input output cur taken sent s world ->
  cut_of part (frame_of m) -> moved fd part [] world world' -> work_log worker cur' taken' (sent ++ [m]) ->
  input = frames (MsgJobAssign <$> taken') ++ rest -> hung_up worker fd input output EXIT_FAILURE world'.
Proof.
  intros [Hl Ho Hi He Hb Hh] Hp [_ Hs Hg] Hl' Hi'. exists cur, taken, sent, part. eexists.
  split_and!; [done|by rewrite Hs, Ho, app_assoc|done|]. right. split; [done|]. by exists m, cur', taken', rest.
Qed.

(** The report of the assignment in progress. *)
Lemma service_reported worker fd input output a taken sent s world world' report e :
  in_service worker fd input output (Some a) taken sent s world -> truthful a report ->
  moved fd (frame_of report) [] world world' -> ex_thread e = None ->
  in_service worker fd input output None taken (sent ++ [report])
    (mk_worker_state (ws_input s) (ws_expected s) (ws_frame_started s) (ws_next_heartbeat s)
       (release_assignment e)) world'.
Proof.
  intros [Hl Ho Hi He Hb Hh] Hr [_ Hout Hin] Ht. split; try done.
  - by eapply work_reported.
  - by rewrite Hout, Ho, frames_snoc, app_assoc.
  - by rewrite Hi, Hin.
Qed.

Lemma execute_spec e thread :
  sendable (MsgJobAssign (ex_assignment e)) ->
  ex_assignment (execute_task net tasks e thread) = ex_assignment e /\
  (ex_status (execute_task net tasks e thread) = FAULTLINE_TASK_OK -> exists text,
     task_answer (a_task_type (ex_assignment e)) (a_arguments (ex_assignment e)) = Some text /\
     ex_result (execute_task net tasks e thread) = mk_task_result text (Z.of_nat (length text))).
Proof.
  intros (_ & _ & _ & Hsize & Hmax)%assignment_valid. unfold execute_task.
  destruct (faultline_task_execute net tasks _ _ _ thread) as [[status result] w] eqn:E.
  rewrite <- Hsize in E. apply (task_execute_spec net tasks) in E as (_ & Ho & _); [|done].
  split; [done|]. cbn. intros ->. destruct Ho as (text & Ha & ->). by exists text.
Qed.

Lemma reap_post worker fd input output cur taken sent s world r s' world' :
  in_service worker fd input output cur taken sent s world -> awaiting s ->
  reap_task net tasks threads fd s world = (r, s', world') -> after worker fd input output r s' world'.
Proof.
  intros Hsv Haw. unfold reap_task. destruct (ex_thread (ws_execution s)) as [thread|] eqn:Et.
  2:{ intros [= <- <- <-]. split; [eauto|done]. }
  destruct cur as [a|]; [|by destruct (sv_execution _ _ _ _ _ _ _ _ _ Hsv); congruence].
  destruct (thr_done threads thread world) as [done w1] eqn:E1. apply (law_done (net := net)) in E1.
  pose proof (service_quiet _ _ _ _ _ _ _ _ _ _ Hsv E1) as Hsv1.
  destruct done; cbn [negb]; [|intros [= <- <- <-]; split; [eauto|done]].
  destruct (thr_join threads thread w1) as [j w2] eqn:E2. apply (law_join (net := net)) in E2.
  destruct j as [[]|e].
  2:{ intros [= <- <- <-]. eapply service_over; [done|]. etrans; [done|]. apply log_sockets. }
  destruct (sv_execution _ _ _ _ _ _ _ _ _ Hsv) as (Ha & Hsend & _). rewrite <- Ha in Hsend.
  destruct (execute_spec (ws_execution s) thread Hsend) as [Hea Heok].
  set (e := execute_task net tasks (ws_execution s) thread) in *.
  destruct (os_stopping net w2) as [z w3] eqn:E3. apply (stopping_step net) in E3 as [E3 _].
  assert (same_sockets (view_of w1) (view_of w3)) as E13 by (by etrans).
  pose proof (service_quiet _ _ _ _ _ _ _ _ _ _ Hsv1 E13) as Hsv3.
  destruct (negb _); [intros [= <- <- <-]; by eapply service_over|].
  set (e' := mk_execution (ex_assignment e) (ex_result e) (ex_status e) None) in *.
  destruct (report_spec e') as [Hrs Hrt]; [cbn; by rewrite Hea|cbn; by rewrite Hea|].
  destruct (report_execution net fd e' w3) as [ok w4] eqn:E4. apply report_execution_spec in E4; [|done].
  cbn [e' ex_assignment] in Hrt. rewrite Hea, Ha in Hrt.
  destruct ok; intros [= <- <- <-].
  2:{ destruct E4 as (part & Hp & Hm). eapply service_ends; [exact Hsv3|done|done| |apply Hsv3].
      eapply work_reported; [exact Hrt|apply Hsv3]. }
  split; [|done]. do 3 eexists. eapply service_reported; [done|exact Hrt|exact E4|done].
Qed.

Lemma start_execution_spec e world r e' world' :
  start_execution threads e world = (r, e', world') ->
  same_sockets (view_of world) (view_of world') /\ ex_assignment e' = ex_assignment e /\
  (r = OsOk tt -> ex_thread e' <> None).
Proof.
  unfold start_execution. destruct (thr_block threads world) as [b w1] eqn:E1.
  apply (law_block (net := net)) in E1. destruct b as [[]|err]; [|by intros [= <- <- <-]].
  destruct (thr_create threads w1) as [c w2] eqn:E2. apply (law_create (net := net)) in E2.
  destruct (thr_restore threads w2) as [d w3] eqn:E3. apply (law_restore (net := net)) in E3.
  intros [= <- <- <-]. split; [by do 2 (etrans; [done|])|]. split; [done|]. by destruct d as [[]|], c.
Qed.

(** The worker has taken the assignment and said so. *)
Lemma service_started worker fd input output taken sent s world world' a e :
  in_service worker fd input output None taken sent s world -> frame_of (MsgJobAssign a) = ws_input s ->
  sendable (MsgJobAssign a) -> i_worker_id (a_identity a) = worker ->
  moved fd (frame_of (MsgJobStarted (a_identity a))) [] world world' ->
  ex_assignment e = a -> ex_thread e <> None ->
  in_service worker fd input output (Some a) (taken ++ [a]) (sent ++ [MsgJobStarted (a_identity a)])
    (mk_worker_state [] FAULTLINE_HEADER_SIZE (-1) (ws_next_heartbeat s) e) world'.
Proof.
  intros [Hl Ho Hi He Hb Hh] Hf Hs Hw [_ Hout Hin] Ha Ht. split; try done.
  - by apply work_started.
  - by rewrite Hout, Ho, frames_snoc, app_assoc.
  - rewrite frames_taken, Hi, Hin, <- Hf. cbn. by rewrite !app_assoc.
  - constructor.
Qed.

Lemma awaiting_fresh heartbeat (e : execution W) :
  awaiting (mk_worker_state [] FAULTLINE_HEADER_SIZE (-1) heartbeat e).
Proof. by left. Qed.

Lemma assignment_post worker fd input output cur taken sent s world h r s' world' :
  in_service worker fd input output cur taken sent s world ->
  faultline_header_decode (ws_input s) = inr h ->
  Z.of_nat (length (ws_input s)) = FAULTLINE_HEADER_SIZE + h_payload_length h ->
  handle_assignment net threads fd worker s world = (r, s', world') ->
  after worker fd input output r s' world'.
Proof.
  intros Hsv Hh Hlen. unfold handle_assignment.
  assert (forall m, (ReturnFailure, s, runtime_error net m world) = (r, s', world') ->
    after worker fd input output r s' world') as Hrefused.
  { intros m [= <- <- <-]. eapply service_over; [done|]. apply log_sockets. }
  destruct (faultline_message_decode (ws_input s)) as [e|[m n]] eqn:Ed; [apply Hrefused|].
  destruct m as [| | | | | | |a| | | | | | | | | | | | |]; try apply Hrefused.
  destruct (_ || _) eqn:Eg; [apply Hrefused|]. clear Hrefused. apply orb_false_iff in Eg as [Ew Ej].
  apply negb_false_iff, Z.eqb_eq in Ew, Ej.
  destruct (decoded_frame _ _ _ (sv_bytes _ _ _ _ _ _ _ _ _ Hsv) Ed) as [Hsend Hframe].
  rewrite (decode_consumed _ _ _ _ Ed Hh), <- Hlen, Nat2Z.id, firstn_all in Hframe.
  destruct cur as [b|].
  { destruct (sv_execution _ _ _ _ _ _ _ _ _ Hsv) as (Hb & Hsb & _). rewrite Hb in Ej.
    by destruct (assignment_valid b Hsb) as (_ & _ & Hz & _). }
  set (w1 := log _ _ _ _ _ world).
  destruct (os_stopping net w1) as [z w2] eqn:E2. apply (stopping_step net) in E2 as [E2 _].
  assert (same_sockets (view_of world) (view_of w2)) as Hq by (etrans; [apply log_sockets|exact E2]).
  pose proof (service_quiet _ _ _ _ _ _ _ _ _ _ Hsv Hq) as Hsv2. clearbody w1.
  destruct (negb _); [intros [= <- <- <-]; by eapply service_over|].
  destruct (send_message net fd _ w2) as [ok w3] eqn:E3. apply send_message_spec in E3; [|by apply started_sendable].
  destruct ok.
  2:{ intros [= <- <- <-]. destruct E3 as (part & Hp & Hm). eapply service_ends; [exact Hsv2|done|done| |].
      - by apply work_started, (sv_log _ _ _ _ _ _ _ _ _ Hsv2).
      - rewrite frames_taken, Hframe, <- app_assoc. apply Hsv2. }
  set (w4 := log _ _ _ _ _ w3).
  destruct (start_execution threads _ w4) as [[o e] w5] eqn:E5.
  apply start_execution_spec in E5 as (Hq5 & Hea & Het). cbn in Hea.
  assert (moved fd (frame_of (MsgJobStarted (a_identity a))) [] w2 w5) as Hm.
  { eapply moved_after; [exact E3|]. etrans; [apply log_sockets|exact Hq5]. }
  clearbody w4. destruct o as [[]|err].
  - intros [= <- <- <-]. split; [|apply awaiting_fresh]. do 3 eexists.
    eapply service_quiet; [|apply log_sockets]. eapply service_started; [exact Hsv2|done..|by apply Het].
  - pose proof (service_started _ _ _ _ _ _ _ _ w5 a
      (mk_execution a (ex_result e) FAULTLINE_TASK_SYSTEM_ERROR (Some world)) Hsv2 Hframe Hsend Ew Hm eq_refl
      ltac:(done)) as Hsv5.
    set (w6 := log_error _ _ _ w5). assert (same_sockets (view_of w5) (view_of w6)) as Hq6 by apply log_sockets.
    clearbody w6. pose proof (service_quiet _ _ _ _ _ _ _ _ _ _ Hsv5 Hq6) as Hsv6.
    destruct (ex_thread e) as [t|]; [intros [= <- <- <-]; by eapply service_over|].
    set (e' := mk_execution (ex_assignment e) (ex_result e) FAULTLINE_TASK_SYSTEM_ERROR None).
    destruct (report_spec e') as [Hrs Hrt]; [cbn; by rewrite Hea|done|]. cbn [e' ex_assignment] in Hrt. rewrite Hea in Hrt.
    destruct (report_execution net fd e' w6) as [ok w7] eqn:E7. apply report_execution_spec in E7; [|done].
    destruct ok; intros [= <- <- <-].
    + split; [|apply awaiting_fresh]. do 3 eexists. by eapply (service_reported _ _ _ _ _ _ _ _ _ _ _ e' Hsv6).
    + destruct E7 as (part & Hp & Hm7). eapply service_ends; [exact Hsv6|done|done| |apply Hsv6].
      eapply work_reported; [exact Hrt|apply Hsv6].
Qed.

(** Bytes have been received into the buffer. *)
Lemma service_received worker fd input output cur taken sent s world world' bytes expected started :
  in_service worker fd input output cur taken sent s world -> bytes_ok bytes ->
  moved fd [] bytes world world' ->
  in_service worker fd input output cur taken sent
    (mk_worker_state (ws_input s ++ bytes) expected started (ws_next_heartbeat s) (ws_execution s)) world'.
Proof.
  intros [Hl Ho Hi He Hb Hh] Hbytes [_ Hout Hin]. split; try done.
  - by rewrite Hout, Ho, app_nil_r.
  - rewrite Hi, Hin. cbn. by rewrite !app_assoc.
  - by apply Forall_app.
Qed.

Lemma read_outcome worker fd input output cur taken sent s now world r s' world' :
  in_service worker fd input output cur taken sent s world -> awaiting s ->
  read_assignment net threads fd worker now s world = (r, s', world') ->
  after worker fd input output r s' world'.
Proof.
  intros Hsv Haw. unfold read_assignment.
  destruct (os_recv net fd _ world) as [res w1] eqn:E1.
  destruct (law_recv net _ _ _ _ _ E1) as (Ho & _ & Hout & Hin).
  assert (forall got, incoming (view_of world) fd = got ++ incoming (view_of w1) fd -> moved fd [] got world w1) as Hm.
  { intros got Hgot. split; [done|by rewrite app_nil_r|done]. }
  destruct res as [[|b bytes]|e].
  - destruct Hin as (Hin & _). intros [= <- <- <-].
    eapply service_over; [|apply log_sockets].
    split; try apply Hsv; [by rewrite Hout; apply Hsv|cbn in Hin; rewrite <- Hin; apply Hsv].
  - destruct Hin as (Hin & Hbytes & Hlen & _). specialize (Hm _ Hin). set (got := b :: bytes) in *.
    set (started := match ws_input s with [] => now | _ => _ end).
    assert (forall expected, in_service worker fd input output cur taken sent
      (mk_worker_state (ws_input s ++ got) expected started (ws_next_heartbeat s) (ws_execution s)) w1) as Hsv1
      by (intros expected; by eapply service_received).
    assert (forall m s0, (ReturnFailure, s0, runtime_error net m w1) = (r, s', world') ->
      after worker fd input output r s' world') as Hrefused.
    { intros m s0 [= <- <- <-]. eapply service_over; [apply (Hsv1 0)|]. apply log_sockets. }
    clearbody started. cbn [ws_expected ws_input].
    destruct (negb (text_eqb _ _)); [apply Hrefused|].
    assert (Z.of_nat (length (ws_input s ++ got)) <= ws_expected s) as Hle.
    { rewrite length_app. destruct Haw as [[]|(h & _ & _ & _ & _ & ?)]; lia. }
    assert (Z.of_nat (length (ws_input s ++ got)) >= 1) as Hge.
    { rewrite length_app. cbn. lia. }
    destruct (Z.ltb_spec (Z.of_nat (length (ws_input s ++ got))) (ws_expected s)) as [Hlt|Hfull].
    { intros [= <- <- <-]. split; [eauto|]. destruct Haw as [[? ?]|(h & Hd & ? & ? & ? & ?)].
      - left. split; [done|]. cbn. congruence.
      - right. exists h. cbn. split_and!; try done. rewrite header_decode_more; [done|].
        apply header_decode_length in Hd. unfold FAULTLINE_HEADER_SIZE in *. lia. }
    destruct (Z.eqb_spec (Z.of_nat (length (ws_input s ++ got))) FAULTLINE_HEADER_SIZE) as [Hhead|Hbody].
    + destruct (faultline_header_decode (ws_input s ++ got)) as [e|h] eqn:Eh; [apply Hrefused|].
      destruct (_ || _) eqn:Eg; [apply Hrefused|]. clear Hrefused.
      apply orb_false_iff in Eg as [Eg _]. apply orb_false_iff in Eg as [Et Ep].
      apply negb_false_iff, Z.eqb_eq in Et. apply Z.ltb_ge in Ep. unfold FAULTLINE_JOB_ASSIGN_PREFIX_SIZE in Ep.
      intros [= <- <- <-]. split; [eauto|]. right. exists h. cbn. split_and!; try done; lia.
    + destruct Haw as [[? ?]|(h & Hd & _ & _ & Hexp & _)]; [lia|].
      apply (assignment_post _ _ _ _ _ _ _ _ _ h _ _ _ (Hsv1 (ws_expected s))).
      * cbn. rewrite header_decode_more; [done|]. apply header_decode_length in Hd.
        unfold FAULTLINE_HEADER_SIZE in *. lia.
      * cbn. lia.
  - specialize (Hm [] ltac:(by rewrite Hin)). 
    destruct (transient e); intros [= <- <- <-].
    + split; [|done]. do 3 eexists. split; try apply Hsv; [by rewrite Hout; apply Hsv|by rewrite Hin; apply Hsv].
    + eapply service_over; [|apply log_sockets].
      split; try apply Hsv; [by rewrite Hout; apply Hsv|by rewrite Hin; apply Hsv].
Qed.

Lemma heartbeat_outcome worker fd interval input output cur taken sent s wire world r s' world' :
  in_service worker fd input output cur taken sent s world -> awaiting s -> 0 <= interval ->
  sendable (MsgHeartbeat worker) -> wire = frame_of (MsgHeartbeat worker) ->
  send_heartbeat net fd worker interval wire s world = (r, s', world') ->
  after worker fd input output r s' world'.
Proof.
  intros Hsv Haw Hint Hsend ->. unfold send_heartbeat.
  destruct (faultline_send_all net fd _ _ world) as [[[]|e] w1] eqn:E1.
  2:{ apply (send_all_cut net) in E1 as (part & Hp & Hm); [|by apply frame_nonempty]. intros [= <- <- <-].
      eapply service_ends; [exact Hsv|exact Hp| | |apply Hsv];
        [eapply moved_after; [exact Hm|apply log_sockets]|apply work_heartbeat, Hsv]. }
  apply (send_all_moved net) in E1.
  destruct (faultline_monotonic_ms net w1) as [now w2] eqn:E2. apply (monotonic_step net) in E2 as (Hq & _).
  assert (forall next w3, 0 <= next -> same_sockets (view_of w2) (view_of w3) ->
    in_service worker fd input output cur taken (sent ++ [MsgHeartbeat worker])
      (mk_worker_state (ws_input s) (ws_expected s) (ws_frame_started s) next (ws_execution s)) w3) as Hsv3.
  { intros next w3 Hn Hq3. destruct Hsv as [Hl Ho Hi He Hb Hh].
    assert (moved fd (frame_of (MsgHeartbeat worker)) [] world w3) as [_ Hout Hin]
      by (eapply moved_after; [done|by etrans]).
    split; try done.
    - by apply work_heartbeat.
    - by rewrite Hout, Ho, frames_snoc, app_assoc.
    - by rewrite Hi, Hin. }
  destruct (Z.ltb_spec now 0) as [Hneg|Hnow]; intros [= <- <- <-].
  - eapply service_over; [by apply (Hsv3 0 w2)|]. apply log_sockets.
  - split; [|destruct Haw as [?|?]; [by left|by right]]. do 3 eexists. apply Hsv3; [lia|apply log_sockets].
Qed.

Lemma deadline_nonneg worker fd input output cur taken sent s world now :
  in_service worker fd input output cur taken sent s world -> 0 <= now -> 0 <= wait_deadline s now.
Proof.
  intros Hsv Hnow. pose proof (sv_heartbeat _ _ _ _ _ _ _ _ _ Hsv). unfold wait_deadline, FAULTLINE_IO_TIMEOUT_MS.
  set (d := match ex_thread _ with Some _ => _ | None => _ end).
  assert (0 <= d) by (unfold d; destruct (ex_thread _); [destruct (_ <? _)|]; lia).
  destruct (Z.leb_spec 0 (ws_frame_started s)); cbn [andb]; [|done]. clearbody d. destruct (_ <? _); lia.
Qed.

Lemma act_post worker fd interval input output cur taken sent s wire world r s' world' :
  in_service worker fd input output cur taken sent s world -> awaiting s -> 0 <= interval ->
  sendable (MsgHeartbeat worker) -> wire = frame_of (MsgHeartbeat worker) ->
  wait_and_act net threads fd worker interval wire s world = (r, s', world') ->
  after worker fd input output r s' world'.
Proof.
  intros Hsv Haw Hint Hsend Hwire. unfold wait_and_act.
  destruct (faultline_monotonic_ms net world) as [now w1] eqn:E1. apply (monotonic_step net) in E1 as (Hq1 & _).
  pose proof (service_quiet _ _ _ _ _ _ _ _ _ _ Hsv Hq1) as Hsv1.
  assert (forall w, same_sockets (view_of w1) (view_of w) ->
    forall status, hung_up worker fd input output status w) as Hover.
  { intros w Hq status. by eapply service_over. }
  destruct (Z.ltb_spec now 0) as [|Hnow]; [intros [= <- <- <-]; apply Hover; apply log_sockets|].
  pose proof (deadline_nonneg _ _ _ _ _ _ _ _ _ _ Hsv1 Hnow) as Hd.
  destruct (wait_for_input net fd _ w1) as [ready w2] eqn:E2. apply (wait_step net) in E2 as (Hq2 & _); [|done].
  destruct ready as [e| | |]; [intros [= <- <- <-]; apply Hover; etrans; [done|apply log_sockets]
    |intros [= <- <- <-]; by apply Hover|..].
  all: destruct (faultline_monotonic_ms net w2) as [now' w3] eqn:E3;
    apply (monotonic_step net) in E3 as (Hq3 & _);
    (assert (same_sockets (view_of w1) (view_of w3)) as Hq by (by etrans));
    pose proof (service_quiet _ _ _ _ _ _ _ _ _ _ Hsv1 Hq) as Hsv3;
    (destruct (now' <? 0); [intros [= <- <- <-]; apply Hover; etrans; [done|apply log_sockets]|]);
    (destruct (_ && _); [intros [= <- <- <-]; apply Hover; etrans; [done|apply log_sockets]|]);
    (destruct (_ <=? _); [by eapply heartbeat_outcome|]).
  - by eapply read_outcome.
  - intros [= <- <- <-]. split; [eauto|done].
Qed.

Lemma step_post worker fd interval input output cur taken sent s wire world r s' world' :
  in_service worker fd input output cur taken sent s world -> awaiting s -> 0 <= interval ->
  sendable (MsgHeartbeat worker) -> wire = frame_of (MsgHeartbeat worker) ->
  worker_step net tasks threads fd worker interval wire s world = (r, s', world') ->
  after worker fd input output r s' world'.
Proof.
  intros Hsv Haw Hint Hsend Hwire. unfold worker_step.
  destruct (reap_task net tasks threads fd s world) as [[r1 s1] w1] eqn:E1.
  eapply reap_post in E1; [|done..]. destruct r1; try (by intros [= <- <- <-]).
  destruct E1 as [(cur1 & taken1 & sent1 & Hsv1) Haw1]. by eapply act_post.
Qed.

Lemma rounds_post worker fd interval input output wire rounds cur taken sent s world status s' world' :
  in_service worker fd input output cur taken sent s world -> awaiting s -> 0 <= interval ->
  sendable (MsgHeartbeat worker) -> wire = frame_of (MsgHeartbeat worker) ->
  worker_rounds net tasks threads rounds fd worker interval wire s world = (status, s', world') ->
  match status with
  | None => exists cur taken sent, in_service worker fd input output cur taken sent s' world'
  | Some status => hung_up worker fd input output status world'
  end.
Proof.
  intros Hsv Haw Hint Hsend Hwire. revert cur taken sent s world Hsv Haw.
  induction rounds as [|rounds IH]; intros cur taken sent s world Hsv Haw; cbn [worker_rounds];
    [intros [= <- <- <-]; eauto|].
  destruct (os_stopping net world) as [z w1] eqn:E1. apply (stopping_step net) in E1 as [Hq1 _].
  pose proof (service_quiet _ _ _ _ _ _ _ _ _ _ Hsv Hq1) as Hsv1.
  destruct (negb _); [intros [= <- <- <-]; by eapply service_over|].
  destruct (worker_step net tasks threads fd worker interval wire s w1) as [[r s2] w2] eqn:E2.
  eapply step_post in E2; [|done..]. destruct r; try (by intros [= <- <- <-]);
    destruct E2 as [(cur2 & taken2 & sent2 & Hsv2) Haw2]; by eapply IH.
Qed.

(** ** Registration *)

(** The part of the acknowledgement that has arrived, and the length that is expected. *)
Definition ack_part (wire : list Z) (expected : Z) : Prop :=
  bytes_ok wire /\
  (expected = FAULTLINE_HEADER_SIZE /\ Z.of_nat (length wire) < FAULTLINE_HEADER_SIZE \/
   expected = REGISTER_ACK_FRAME /\ Z.of_nat (length wire) <= REGISTER_ACK_FRAME /\
   exists h, faultline_header_decode wire = inr h /\
     h_message_type h = FAULTLINE_MSG_WORKER_REGISTER_ACK /\
     h_payload_length h = FAULTLINE_WORKER_REGISTER_ACK_PAYLOAD_SIZE).

(** What receiving leads to, from [wire]. *)
Definition ack_received (fd : Z) (wire : list Z) (r : option (list Z)) (world world' : W) : Prop :=
  exists got, moved fd [] got world world' /\
    forall w, r = Some w -> w = wire ++ got /\ ack_part w REGISTER_ACK_FRAME /\
      Z.of_nat (length w) = REGISTER_ACK_FRAME.

(** What an iteration hands to the rest of the loop. *)
Lemma ack_part_more wire expected bytes :
  ack_part wire expected -> bytes_ok bytes -> bytes <> [] ->
  Z.of_nat (length bytes) <= expected - Z.of_nat (length wire) ->
  (Z.of_nat (length (wire ++ bytes)) <> FAULTLINE_HEADER_SIZE -> ack_part (wire ++ bytes) expected) /\
  (Z.of_nat (length (wire ++ bytes)) = FAULTLINE_HEADER_SIZE -> forall h,
     faultline_header_decode (wire ++ bytes) = inr h ->
     h_message_type h = FAULTLINE_MSG_WORKER_REGISTER_ACK ->
     h_payload_length h = FAULTLINE_WORKER_REGISTER_ACK_PAYLOAD_SIZE ->
     ack_part (wire ++ bytes) REGISTER_ACK_FRAME).
Proof.
  intros [Hb Hp] Hbytes Hne Hlen. assert (bytes_ok (wire ++ bytes)) by (by apply Forall_app).
  assert (0 < length bytes)%nat by (destruct bytes; [done|cbn; lia]).
  rewrite length_app. split.
  - intros Hn. split; [done|]. destruct Hp as [[-> ?]|(-> & ? & h & Hh & ?)].
    + left. rewrite length_app. lia.
    + right. split; [done|]. rewrite length_app. split; [lia|]. exists h. split; [|done].
      rewrite header_decode_more; [done|]. apply header_decode_length in Hh. unfold FAULTLINE_HEADER_SIZE in *. lia.
  - intros Hn h Hh Ht Hpl. split; [done|]. right. split; [done|]. rewrite length_app.
    unfold REGISTER_ACK_FRAME, FAULTLINE_HEADER_SIZE, FAULTLINE_WORKER_REGISTER_ACK_PAYLOAD_SIZE in *.
    split; [lia|]. by exists h.
Qed.

Lemma ack_step_spec again fd wire expected deadline world r world' :
  0 <= deadline -> ack_part wire expected ->
  (forall wire' expected' world1, ack_part wire' expected' -> again wire' expected' world1 = (r, world') ->
     ack_received fd wire' r world1 world') ->
  ack_step net again fd wire expected deadline world = (r, world') -> ack_received fd wire r world world'.
Proof.
  intros Hd Hpart Hagain. unfold ack_step.
  assert (forall w1, same_sockets (view_of world) (view_of w1) -> (None, w1) = (r, world') ->
    ack_received fd wire r world world') as Hfailed.
  { intros w1 Hq [= <- <-]. exists []. split; [by apply moved_quiet|done]. }
  destruct (Z.leb_spec expected (Z.of_nat (length wire))) as [Hfull|Hshort].
  { intros [= <- <-]. exists []. split; [by apply moved_quiet|]. intros w [= <-]. rewrite app_nil_r.
    destruct Hpart as [Hb [[-> ?]|(-> & ? & ?)]]; [lia|]. split_and!; [done|split; [done|by right]|lia]. }
  destruct (wait_for_input net fd deadline world) as [ready w1] eqn:E1.
  apply (wait_step net) in E1 as (Hq1 & _); [|done].
  destruct ready; [apply Hfailed; etrans; [done|apply log_sockets]|by apply Hfailed| |
    apply Hfailed; etrans; [done|apply log_sockets]].
  destruct (os_recv net fd _ w1) as [res w2] eqn:E2.
  destruct (law_recv net _ _ _ _ _ E2) as (Ho & _ & Hout & Hin).
  assert (forall got, incoming (view_of w1) fd = got ++ incoming (view_of w2) fd -> moved fd [] got world w2) as Hm.
  { intros got Hgot. eapply moved_before; [done|]. split; [done|by rewrite app_nil_r|done]. }
  assert (forall got w3, incoming (view_of w1) fd = got ++ incoming (view_of w2) fd ->
    same_sockets (view_of w2) (view_of w3) -> (None, w3) = (r, world') ->
    ack_received fd wire r world world') as Hend.
  { intros got w3 Hgot Hq [= <- <-]. exists got. split; [|done]. eapply moved_after; [by apply Hm|done]. }
  destruct res as [[|b bytes]|e].
  - eapply (Hend []); [apply Hin|apply log_sockets].
  - destruct Hin as (Hin & Hbytes & Hlen & _). set (got := b :: bytes) in *.
    destruct (ack_part_more wire expected got Hpart Hbytes ltac:(done) ltac:(lia)) as [Hmore Hhead].
    assert (forall expected', ack_part (wire ++ got) expected' -> again (wire ++ got) expected' w2 = (r, world') ->
      ack_received fd wire r world world') as Hgo.
    { intros expected' Hp' H. destruct (Hagain _ _ _ Hp' H) as (more & Hmm & Hw). exists (got ++ more).
      split; [apply (moved_trans fd [] got [] more _ _ _ (Hm got Hin) Hmm)|]. rewrite app_assoc. done. }
    destruct (Z.eqb_spec (Z.of_nat (length (wire ++ got))) FAULTLINE_HEADER_SIZE) as [Heq|Hneq]; [|by apply Hgo; auto].
    destruct (faultline_header_decode (wire ++ got)) as [err|h] eqn:Eh; [apply (Hend got); [done|apply log_sockets]|].
    destruct (_ || _) eqn:Eg; [apply (Hend got); [done|apply log_sockets]|].
    apply orb_false_iff in Eg as [Et Ep]. apply negb_false_iff, Z.eqb_eq in Et, Ep. apply Hgo. by eapply Hhead.
  - destruct (transient e); [|apply (Hend []); [by rewrite Hin|apply log_sockets]].
    intros H. destruct (Hagain _ _ _ Hpart H) as (more & Hmm & Hw). exists more. split; [|done].
    apply (moved_trans fd [] [] [] more _ _ _ (Hm [] ltac:(by rewrite Hin)) Hmm).
Qed.

Lemma ack_loop_spec fuel fd wire expected deadline world r world' :
  0 <= deadline -> ack_part wire expected ->
  ack_loop net fuel fd wire expected deadline world = (r, world') -> ack_received fd wire r world world'.
Proof.
  intros Hd. revert wire expected world. induction fuel as [|fuel IH]; intros wire expected world Hp;
    cbn [ack_loop]; intros H; (eapply ack_step_spec; [done|done| |exact H]); cbv beta.
  - intros wire' expected' w1 _ [= <- <-]. exists []. split; [by apply moved_quiet|done].
  - intros wire' expected' w1 Hp'. by apply IH.
Qed.

Lemma registration_spec fd world r world' :
  receive_registration_ack net fd world = (r, world') ->
  exists got, moved fd [] got world world' /\ forall id, r = Some id ->
    got = frame_of (MsgWorkerRegisterAck id) /\ sendable (MsgWorkerRegisterAck id).
Proof.
  unfold receive_registration_ack. destruct (faultline_monotonic_ms net world) as [start w1] eqn:E1.
  apply (monotonic_step net) in E1 as (Hq1 & _).
  destruct (Z.ltb_spec start 0).
  { intros [= <- <-]. exists []. split; [apply moved_quiet; etrans; [done|apply log_sockets]|done]. }
  destruct (ack_loop net _ _ _ _ _ w1) as [o w2] eqn:E2. apply ack_loop_spec in E2 as (got & Hm & Hw);
    [|unfold FAULTLINE_IO_TIMEOUT_MS; lia|split; [constructor|by left]].
  assert (moved fd [] got world w2) as Hm2 by (by eapply moved_before).
  destruct o as [wire|]; [|intros [= <- <-]; by exists got].
  destruct (Hw wire eq_refl) as (-> & [Hb Hpart] & Hlen). cbn [app] in *.
  assert (exists got, moved fd [] got world (runtime_error net "invalid registration ACK payload" w2) /\
    forall id, @None Z = Some id -> got = frame_of (MsgWorkerRegisterAck id) /\ sendable (MsgWorkerRegisterAck id)) as Hbad.
  { exists got. split; [|done]. eapply moved_after; [done|apply log_sockets]. }
  destruct (faultline_message_decode got) as [e|[m n]] eqn:Ed; [by intros [= <- <-]|].
  destruct (decoded_frame _ _ _ Hb Ed) as [Hs Hf].
  destruct m as [| | |id| | | | | | | | | | | | | | | | |]; try (by intros [= <- <-]).
  intros [= <- <-]. exists got. split; [done|]. intros id' [= <-]. split; [|done].
  destruct Hpart as [[? ?]|(_ & _ & h & Hh & _ & Hp)].
  { unfold REGISTER_ACK_FRAME, FAULTLINE_HEADER_SIZE, FAULTLINE_WORKER_REGISTER_ACK_PAYLOAD_SIZE in *. lia. }
  rewrite (decode_consumed _ _ _ _ Ed Hh), Hp in Hf. fold REGISTER_ACK_FRAME in Hf.
  by rewrite <- Hlen, Nat2Z.id, firstn_all in Hf.
Qed.

(** How many iterations the loop can still make. *)
Definition ack_turns (wire : list Z) (world : W) : nat :=
  os_transients net world + Z.to_nat (REGISTER_ACK_FRAME - Z.of_nat (length wire)).

Lemma ack_step_ext again again' fd wire expected deadline world :
  0 <= deadline -> ack_part wire expected ->
  (forall wire' expected' world', ack_part wire' expected' ->
     (ack_turns wire' world' < ack_turns wire world)%nat ->
     again wire' expected' world' = again' wire' expected' world') ->
  ack_step net again fd wire expected deadline world = ack_step net again' fd wire expected deadline world.
Proof.
  intros Hd Hpart Hag. unfold ack_step. destruct (Z.leb_spec expected (Z.of_nat (length wire))); [done|].
  destruct (wait_for_input net fd deadline world) as [ready w1] eqn:E1.
  apply (wait_step net) in E1 as (_ & Ht1 & _); [|done]. destruct ready; try done.
  destruct (os_recv net fd _ w1) as [res w2] eqn:E2. destruct (finite_recv net _ _ _ _ _ E2) as [Hle Hlt].
  destruct (law_recv net _ _ _ _ _ E2) as (_ & _ & _ & Hin). unfold ack_turns in *.
  destruct res as [[|b bytes]|e]; [done| |].
  - destruct Hin as (_ & Hbytes & Hlen & _). set (got := b :: bytes) in *.
    destruct (ack_part_more wire expected got Hpart Hbytes ltac:(done) ltac:(lia)) as [Hmore Hhead].
    assert (expected <= REGISTER_ACK_FRAME) as Hexp.
    { destruct Hpart as [_ [[-> _]|[-> _]]]; [by vm_compute|done]. }
    assert ((os_transients net w2 + Z.to_nat (REGISTER_ACK_FRAME - Z.of_nat (length (wire ++ got))) <
      os_transients net world + Z.to_nat (REGISTER_ACK_FRAME - Z.of_nat (length wire)))%nat).
    { rewrite length_app. assert (0 < length got)%nat by (cbn; lia). lia. }
    destruct (Z.eqb_spec (Z.of_nat (length (wire ++ got))) FAULTLINE_HEADER_SIZE) as [Heq|Hneq]; [|by apply Hag; auto].
    destruct (faultline_header_decode (wire ++ got)) as [err|h] eqn:Eh; [done|].
    destruct (_ || _) eqn:Eg; [done|]. apply orb_false_iff in Eg as [Et Ep].
    apply negb_false_iff, Z.eqb_eq in Et, Ep. apply Hag; [by eapply Hhead|done].
  - destruct (transient e) eqn:Et; [|done]. specialize (Hlt _ eq_refl Et). apply Hag; [done|lia].
Qed.

Lemma ack_fuel fuel fuel' fd wire expected deadline world :
  0 <= deadline -> ack_part wire expected -> (ack_turns wire world <= fuel)%nat ->
  (ack_turns wire world <= fuel')%nat ->
  ack_loop net fuel fd wire expected deadline world = ack_loop net fuel' fd wire expected deadline world.
Proof.
  intros Hd. revert fuel' wire expected world. induction fuel as [|fuel IH];
    intros fuel' wire expected world Hp H H'; destruct fuel' as [|fuel']; cbn [ack_loop];
    apply ack_step_ext; try done; intros wire' expected' w1 Hp' Hlt; try lia.
  apply IH; [done|lia..].
Qed.

(** The loop of the code, from the bytes received so far. *)
Definition ack_from (fd : Z) (wire : list Z) (expected deadline : Z) (world : W) : option (list Z) * W :=
  ack_loop net (ack_turns wire world) fd wire expected deadline world.

Lemma ack_from_eq fd wire expected deadline world :
  0 <= deadline -> ack_part wire expected ->
  ack_from fd wire expected deadline world =
    ack_step net (fun wire expected => ack_from fd wire expected deadline) fd wire expected deadline world.
Proof.
  intros Hd Hp. unfold ack_from at 1. destruct (ack_turns wire world) as [|n] eqn:En; cbn [ack_loop];
    apply ack_step_ext; try done; intros wire' expected' w1 Hp' Hlt; [lia|].
  apply ack_fuel; [done|done|lia|done].
Qed.

(** ** The whole conversation *)

(** What a worker has said since the acknowledgement; a message is cut only by a failed send, which
    ends the process with a failure. *)
Definition talked (status : option Z) (worker fd : Z) (input output : list Z) (world : W) : Prop :=
  exists cur taken sent part rest, work_log worker cur taken sent /\
    outgoing (view_of world) fd = output ++ frames sent ++ part /\
    input = frames (MsgJobAssign <$> taken) ++ rest /\
    (part = [] \/ status = Some EXIT_FAILURE /\ broken_off worker input sent part).

Lemma talked_quiet status worker fd input output world world' :
  talked status worker fd input output world -> same_sockets (view_of world) (view_of world') ->
  talked status worker fd input output world'.
Proof. intros H Hq. unfold talked in *. by setoid_rewrite (same_outgoing _ _ Hq). Qed.

Lemma talked_failed status worker fd input output world :
  talked status worker fd input output world -> talked (Some EXIT_FAILURE) worker fd input output world.
Proof.
  intros (cur & taken & sent & part & rest & Hl & Ho & Hi & Hp). exists cur, taken, sent, part, rest.
  do 3 (split; [done|]). destruct Hp as [|[_ Hp]]; [by left|by right].
Qed.

Lemma worker_loop_spec rounds fd worker interval world status e world' :
  0 < interval -> in_u32 worker ->
  worker_loop net tasks threads rounds fd worker interval world = (status, e, world') ->
  talked status worker fd (incoming (view_of world) fd) (outgoing (view_of world) fd) world'.
Proof.
  intros Hint Hw. unfold worker_loop. set (input := incoming _ fd). set (output := outgoing _ fd).
  assert (forall status w, same_sockets (view_of world) (view_of w) -> talked status worker fd input output w) as Hsilent.
  { intros status0 w Hq. exists None, [], [], [], input. split_and!; [constructor| |done|by left].
    rewrite app_nil_r. apply Hq. }
  destruct (faultline_monotonic_ms net world) as [now w1] eqn:E1. apply (monotonic_step net) in E1 as (Hq1 & _).
  destruct (Z.ltb_spec now 0); [intros [= <- <- <-]; apply Hsilent; etrans; [done|apply log_sockets]|].
  destruct (faultline_message_encode _ _) as [err|wire] eqn:Ew;
    [intros [= <- <- <-]; apply Hsilent; etrans; [done|apply log_sockets]|].
  destruct (encode_frame_of _ (MsgHeartbeat worker) wire Hw Ew) as [<- Hsend].
  destruct (worker_rounds net tasks threads _ _ _ _ _ _ w1) as [[st s2] w2] eqn:E2. intros [= <- <- <-].
  eapply (rounds_post worker fd interval input output _ rounds None [] []) in E2; [|..|lia|done|done].
  - destruct st as [st|].
    + destruct E2 as (cur & taken & sent & part & rest & ? & ? & ? & Hp).
      exists cur, taken, sent, part, rest. split_and!; [done..|].
      destruct Hp as [|[-> ?]]; [by left|by right].
    + destruct E2 as (cur & taken & sent & [Hl Ho Hi _ _ _]). exists cur, taken, sent, []. eexists.
      split_and!; [done|by rewrite app_nil_r|exact Hi|by left].
  - split; cbn; try done; [constructor|rewrite app_nil_r; apply Hq1|symmetry; apply Hq1|constructor|lia].
  - apply awaiting_fresh.
Qed.

Lemma run_worker_spec rounds fd worker interval world status world' :
  0 < interval -> in_u32 worker ->
  run_worker net tasks threads rounds fd worker interval world = (status, world') ->
  talked status worker fd (incoming (view_of world) fd) (outgoing (view_of world) fd) world'.
Proof.
  intros Hint Hw. unfold run_worker.
  destruct (worker_loop net tasks threads _ _ _ _ _) as [[st e] w1] eqn:E1.
  apply worker_loop_spec in E1; [|done..]. destruct st as [st|]; [|by intros [= <- <-]].
  destruct (ex_thread e) as [thread|]; [|by intros [= <- <-]].
  pose proof (law_thread_cancel (net := net) (threads := threads) thread w1) as Hc.
  destruct (thr_join threads thread _) as [j w2] eqn:E2. apply (law_join (net := net)) in E2.
  destruct j; intros [= <- <-]; (eapply talked_quiet; [first [exact E1|by eapply talked_failed]|]);
    (etrans; [exact Hc|]); (etrans; [exact E2|]); apply log_sockets.
Qed.

(** ** Properties *)

(** C5: the conversation of a worker with the coordinator, from the connection on, over any
    machine and any coordinator. The worker says that it registers. After the acknowledgement [id]
    it only says whole messages of its [work_log]: heartbeats with its ID, and for each assignment
    that it took, in the order of its input and one at a time, that it has started, and then one
    report, which is a failure or the exact answer of the task. Only when a send has failed, and the
    process with it, a message is cut: then a strict start of the next message of that log follows,
    about an assignment that is in the input. *)
Theorem worker_conversation rounds o fd world status id world' :
  0 < wo_interval_ms o ->
  register_and_run net tasks threads rounds o fd world = (status, id, world') ->
  (exists part, part `prefix_of` frame_of (MsgWorkerRegister 0) /\
     outgoing (view_of world') fd = outgoing (view_of world) fd ++ part) \/
  exists cur taken sent part input rest, work_log id cur taken sent /\
    outgoing (view_of world') fd =
      outgoing (view_of world) fd ++ frame_of (MsgWorkerRegister 0) ++ frames sent ++ part /\
    incoming (view_of world) fd = frame_of (MsgWorkerRegisterAck id) ++ input /\
    input = frames (MsgJobAssign <$> taken) ++ rest /\
    (part = [] \/ status = Some EXIT_FAILURE /\ broken_off id input sent part).
Proof.
  intros Hint. unfold register_and_run.
  destruct (os_stopping net world) as [z w1] eqn:E1. apply (stopping_step net) in E1 as [Hq1 _].
  assert (forall w part got, part `prefix_of` frame_of (MsgWorkerRegister 0) -> moved fd part got world w ->
    exists part, part `prefix_of` frame_of (MsgWorkerRegister 0) /\
      outgoing (view_of w) fd = outgoing (view_of world) fd ++ part) as Hfew.
  { intros w part got Hp [_ Ho _]. by exists part. }
  destruct (negb _); [intros [= <- <- <-]; left; eapply (Hfew _ [] []); [apply prefix_nil|by apply moved_quiet]|].
  change (faultline_message_encode FAULTLINE_HEADER_SIZE (MsgWorkerRegister 0))
    with (inr (A := faultline_protocol_result) (frame_of (MsgWorkerRegister 0))). cbv iota.
  destruct (faultline_send_all net fd _ _ w1) as [[[]|e] w2] eqn:E2; apply (send_all_moved net) in E2.
  2:{ intros [= <- <- <-]. left. destruct E2 as (part & Hp & Hm). eapply Hfew; [done|].
      eapply moved_before; [done|]. eapply moved_after; [done|apply log_sockets]. }
  destruct (receive_registration_ack net fd w2) as [r w3] eqn:E3.
  apply registration_spec in E3 as (got & Hm3 & Hid).
  assert (moved fd (frame_of (MsgWorkerRegister 0)) got world w3) as Hm.
  { eapply moved_before; [done|]. rewrite <- (app_nil_r (frame_of _)).
    apply (moved_trans fd _ [] [] got _ _ _ E2 Hm3). }
  destruct r as [worker|]; [|intros [= <- <- <-]; left; by eapply Hfew].
  destruct (Hid worker eq_refl) as [-> [Hworker _]]. cbn in Hworker.
  destruct (os_stopping net w3) as [z' w4] eqn:E4. apply (stopping_step net) in E4 as [Hq4 _].
  pose proof (moved_after _ _ _ _ _ _ Hm Hq4) as Hm4.
  destruct (negb _); [intros [= <- <- <-]; left; by eapply Hfew|].
  set (w5 := log _ _ _ _ _ w4).
  pose proof (moved_after _ _ _ _ _ w5 Hm4 (log_sockets _ _ _ _ _ _)) as Hm5. clearbody w5.
  destruct (run_worker net tasks threads _ _ _ _ w5) as [st w6] eqn:E6. intros [= <- <- <-].
  apply run_worker_spec in E6 as (cur & taken & sent & part & rest & Hl & Ho & Hi & Hp); [|done..].
  right. destruct Hm5 as [_ Hs Hg]. exists cur, taken, sent, part, (incoming (view_of w5) fd), rest.
  split_and!; [done|by rewrite Ho, Hs, <- !app_assoc|done..].
Qed.

End Conversation.

(** ** A worker on the simulated network *)

(** A thread sees the world of its creation and has finished when it is asked. *)
Definition sim_threads : thread_os sim_net := {|
  thr_block := sim_ok tt;
  thr_restore := sim_ok tt;
  thr_create := fun w => (OsOk w, tick 1 w);
  thr_done := fun _ w => (true, w);
  thr_cancel := fun _ w => w;
  thr_join := fun _ => sim_ok tt;
|}.

#[export] Instance sim_thread_laws : ThreadLaws sim_net_os sim_threads.
Proof.
  assert (forall w, same_sockets (net_state sim_net_os w) (net_state sim_net_os (tick 1 w))) as Htick.
  { intros w. split; cbn; try done; lia. }
  split; try (intros world r world' [= _ <-]; apply Htick); try (intros thread world r world' [= _ <-]; apply Htick).
  - intros thread world r world' [= _ <-]. done.
  - done.
Qed.

(** The coordinator acknowledges worker 5 and assigns the tenth Fibonacci number to it. *)
Definition sample_assignment : faultline_job_assign_payload := mk_assign (mk_identity 8 5 1) 3 2 [49; 48].

Definition worker_machine : sim_net :=
  mk_sim_net 100 0 [] [3] {[3 := [frame_of (MsgWorkerRegisterAck 5); frame_of (MsgJobAssign sample_assignment); [];
    []]]} ∅ [] [] [].

Definition worker_run : option Z * Z * sim_net :=
  register_and_run sim_net_os sim_tasks sim_threads 6 default_options 3 worker_machine.

Lemma worker_said :
  outgoing (sim_net_view (snd worker_run)) 3 =
    frame_of (MsgWorkerRegister 0) ++ frame_of (MsgJobStarted (mk_identity 8 5 1)) ++
    frame_of (MsgJobCompleted (mk_completed (mk_identity 8 5 1) 2 (text "55"))).
Proof. vm_compute. reflexivity. Qed.

Lemma worker_run_id : snd (fst worker_run) = 5 /\ outgoing (sim_net_view worker_machine) 3 = [].
Proof. vm_compute. by split. Qed.

(** The worker takes the assignment and answers it. *)
Lemma worker_conversation_witness :
  exists cur taken sent part, work_log 5 cur taken sent /\
    frames sent ++ part = frame_of (MsgJobStarted (mk_identity 8 5 1)) ++
      frame_of (MsgJobCompleted (mk_completed (mk_identity 8 5 1) 2 (text "55"))).
Proof.
  pose proof worker_said as Hsaid. destruct worker_run_id as [Hid Hout].
  pose proof (worker_conversation sim_net_os sim_tasks sim_threads 6 default_options 3 worker_machine) as H.
  fold worker_run in H. destruct worker_run as [[status id] world']. cbn [fst snd] in Hsaid, Hid. subst id.
  destruct (H status 5 world' ltac:(vm_compute; done) eq_refl)
    as [(part & Hp & Ho)|(cur & taken & sent & part & input & rest & Hl & Ho & _)];
    change (net_state sim_net_os) with sim_net_view in Ho; rewrite Hsaid, Hout in Ho; cbn [app] in Ho.
  - exfalso. rewrite <- Ho in Hp. apply prefix_length in Hp. rewrite !length_app in Hp. vm_compute in Hp. lia.
  - exists cur, taken, sent, part. split; [exact Hl|]. apply app_inv_head in Ho. symmetry. exact Ho.
Defined.
