(* ===== verification/Cli.v ===== *)
(** The command line client: [src/cli/main.c].

    Each command parses its arguments, makes one request on one connection, checks the answer and
    prints it. [argv] is the list of the arguments after the name of the program. What goes to
    [stdout] and [stderr] are the pieces that the code prints, in its order; the results of single
    prints are ignored by the code, that of the last flush decides the exit status. [stream_errno]
    is the [errno] that a failed flush has left.

    The rate of [print_stats] is computed with [double]s: they are the binary64 numbers of SpecFloat,
    and [%.3f] prints the exact value of such a number, rounded half to even. *)

From Stdlib Require Import SpecFloat.
From S2P Require Import Prelude Text Job Protocol WalWriter Net Log.

(** ** Parsing *)

Definition hex_digit (byte : Z) : Z :=
  if (48 <=? byte) && (byte <=? 57) then byte - 48
  else if (97 <=? byte) && (byte <=? 102) then byte - 97 + 10
  else if (65 <=? byte) && (byte <=? 70) then byte - 65 + 10
  else -1.

Fixpoint parse_retries_loop (value : Z) (cursor : list Z) : option Z :=
  match cursor with
  | [] => Some value
  | c :: cursor =>
      if (c <? 48) || (57 <? c) then None
      else
        let digit := u32 (c - 48) in
        if (UINT32_MAX - digit) / 10 <? value then None
        else parse_retries_loop (u32 (value * 10 + digit)) cursor
  end.

Definition parse_retries (text : list Z) : option Z :=
  match text with [] => None | _ => parse_retries_loop 0 text end.

Fixpoint parse_job_id_loop (value : Z) (cursor : list Z) : option Z :=
  match cursor with
  | [] => Some value
  | c :: cursor =>
      if (c <? 48) || (57 <? c) then None
      else
        let digit := u64 (c - 48) in
        if (UINT64_MAX - digit) / 10 <? value then None
        else parse_job_id_loop (u64 (value * 10 + digit)) cursor
  end.

Definition parse_job_id (text : list Z) : option Z :=
  match text with
  | [] => None
  | _ =>
      match parse_job_id_loop 0 text with
      | None => None
      | Some value => if value =? 0 then None else Some value
      end
  end.

(** The bytes of an even number of digits. *)
Fixpoint parse_hex (text : list Z) : option (list Z) :=
  match text with
  | first :: second :: text =>
      let high := hex_digit first in
      let low := hex_digit second in
      if (high <? 0) || (low <? 0) then None
      else match parse_hex text with
           | None => None
           | Some bytes => Some (u8 (high * 16 + low) :: bytes)
           end
  | _ => Some []
  end.

Definition TASKS : list (list Z) := [text "sleep"; text "prime_count"; text "fibonacci"; text "hash"].

(** The loop over the names; 0 if none is [name]. *)
Fixpoint find_task (i : Z) (tasks : list (list Z)) (name : list Z) (found : Z) : Z :=
  match tasks with
  | [] => found
  | task :: tasks => find_task (i + 1) tasks name (if text_eqb name task then u16 (i + 1) else found)
  end.

(** ** Names *)

Definition status_state_name (state : Z) : list Z :=
  match job_state_cast state with
  | FAULTLINE_JOB_QUEUED => text "QUEUED"
  | FAULTLINE_JOB_ASSIGNED => text "ASSIGNED"
  | FAULTLINE_JOB_RUNNING => text "RUNNING"
  | FAULTLINE_JOB_DONE => text "DONE"
  | FAULTLINE_JOB_FAILED => text "FAILED"
  | JOB_STATE_OTHER _ => text "INVALID"
  end.

Definition status_failure_name (failure : Z) : list Z :=
  match job_failure_cast failure with
  | FAULTLINE_JOB_FAILURE_NONE => text "NONE"
  | FAULTLINE_JOB_FAILURE_TASK => text "TASK"
  | FAULTLINE_JOB_FAILURE_WORKER_LOST => text "WORKER_LOST"
  | JOB_FAILURE_OTHER _ => text "INVALID"
  end.

Definition task_name (type : Z) : list Z :=
  match task_type_cast type with
  | FAULTLINE_TASK_SLEEP => text "sleep"
  | FAULTLINE_TASK_PRIME_COUNT => text "prime_count"
  | FAULTLINE_TASK_FIBONACCI => text "fibonacci"
  | FAULTLINE_TASK_HASH => text "hash"
  | TASK_TYPE_OTHER _ => text "INVALID"
  end.

Definition newline : list Z := [10].

(** [name=value] on a line of its own. *)
Definition line (name : string) (value : list Z) : list Z := field name value ++ newline.
Arguments line name%_string value.

Definition usage : list Z := concat ((fun l => text l ++ newline) <$>
  ["Usage: faultline ping [--coordinator IPv4:PORT]";
   "       faultline submit TASK [--args TEXT | --args-hex HEX]";
   "                        [--max-retries N] [--coordinator IPv4:PORT]";
   "       faultline status ID [--coordinator IPv4:PORT]";
   "       faultline jobs [--coordinator IPv4:PORT]";
   "       faultline workers [--coordinator IPv4:PORT]";
   "       faultline stats [--coordinator IPv4:PORT]";
   "Tasks: sleep, prime_count, fibonacci, hash. Arguments: at most 1024 bytes.";
   "sleep: milliseconds 0..86400000; prime_count: inclusive bound 0..100000000.";
   "fibonacci: index 0..93; hash: raw bytes, FNV-1a 64-bit checksum.";
   "Numeric arguments must be decimal digits. Workers validate task inputs.";
   "Submission prints a job ID; status displays its state and saved result.";
   "Status ID: decimal 1..18446744073709551615. Exit: 0 found, 2 not found, 1 error.";
   "Default coordinator: 127.0.0.1:9000; max retries: 0."]%string).

(** ** What is printed *)

(** A byte of a result: [putchar] or [\x%02x]. *)
Definition result_piece (byte : Z) : list Z :=
  if (32 <=? byte) && (byte <=? 126) && (byte !=? 34) && (byte !=? 92) then [byte]
  else text "\x" ++ print_hex 2 byte.

Definition status_text (snapshot : faultline_job_status_payload) : list (list Z) :=
  [line "job_id" (print_uint (st_job_id snapshot)) ++ line "state" (status_state_name (st_state snapshot));
   (if st_worker_id snapshot =? 0 then line "worker_id" (text "none")
    else line "worker_id" (print_uint (st_worker_id snapshot)));
   line "attempt" (print_uint (st_attempt snapshot)) ++
   line "retries" (print_uint (st_retry_count snapshot) ++ text "/" ++ print_uint (st_max_retries snapshot)) ++
   line "failure" (status_failure_name (st_failure snapshot)) ++
   line "result_bytes" (print_uint (st_result_size snapshot))] ++
  (if st_state snapshot =? job_state_value FAULTLINE_JOB_DONE then
     [text "result=" ++ quote] ++
     (result_piece <$> take (Z.to_nat (st_result_size snapshot)) (st_result snapshot)) ++ [quote ++ newline]
   else []).

(** Columns padded to their widths, with blanks between them. *)
Fixpoint row (columns : list (nat * list Z)) : list Z :=
  match columns with
  | [] => newline
  | [(width, value)] => pad_right width value ++ newline
  | (width, value) :: columns => pad_right width value ++ text " " ++ row columns
  end.

Definition job_row (entry : faultline_job_summary) : list Z :=
  let worker := if js_worker_id entry !=? 0 then print_uint (js_worker_id entry) else text "none" in
  let retries := print_uint (js_retry_count entry) ++ text "/" ++ print_uint (js_max_retries entry) in
  row [(20, print_uint (js_job_id entry)); (11, task_name (js_task_type entry));
       (8, status_state_name (js_state entry)); (10, worker); (10, print_uint (js_attempt entry));
       (21, retries); (11, status_failure_name (js_failure entry));
       (0, print_uint (js_result_size entry))]%nat.

Definition liveness (timeout_ms : Z) (entry : faultline_worker_summary) : list Z :=
  if ws_state entry =? FAULTLINE_WORKER_VIEW_DEAD then text "DEAD"
  else if timeout_ms <=? ws_heartbeat_age_ms entry then text "EXPIRED" else text "ALIVE".

Definition worker_row (timeout_ms : Z) (entry : faultline_worker_summary) : list Z :=
  let job := if ws_job_id entry !=? 0 then print_uint (ws_job_id entry) else text "none" in
  row [(10, print_uint (ws_worker_id entry)); (8, liveness timeout_ms entry);
       (20, print_uint (ws_heartbeat_age_ms entry)); (20, job); (0, print_uint (ws_attempt entry))]%nat.

Definition jobs_text (entries : list faultline_job_summary) : list (list Z) :=
  line "jobs" (print_uint (Z.of_nat (length entries))) ::
  (match entries with
   | [] => text "No retained jobs." ++ newline
   | _ => row [(20, text "JOB_ID"); (11, text "TASK"); (8, text "STATE"); (10, text "WORKER_ID");
               (10, text "ATTEMPT"); (21, text "RETRIES"); (11, text "FAILURE"); (0, text "RESULT_BYTES")]%nat
   end) :: (job_row <$> entries).

Definition workers_text (l : faultline_workers_payload) : list (list Z) :=
  (field "workers" (print_uint (Z.of_nat (length (wl_entries l)))) ++ text " " ++
   line "heartbeat_timeout_ms" (print_uint (wl_heartbeat_timeout_ms l))) ::
  (match wl_entries l with
   | [] => text "No retained worker registrations." ++ newline
   | _ => row [(10, text "WORKER_ID"); (8, text "LIVENESS"); (20, text "HEARTBEAT_AGE_MS");
               (20, text "JOB_ID"); (0, text "ATTEMPT")]%nat
   end) :: (worker_row (wl_heartbeat_timeout_ms l) <$> wl_entries l).

(** ** The rate *)

(** Conversion of an integer to [double], and the operations on [double]. *)
Definition to_double (n : Z) : spec_float := binary_normalize 53 1024 n 0 false.
Definition double_mul : spec_float -> spec_float -> spec_float := SFmul 53 1024.
Definition double_div : spec_float -> spec_float -> spec_float := SFdiv 53 1024.

(** The integer next to [numerator / denominator], the even one of two. *)
Definition round_half_even (numerator denominator : Z) : Z :=
  let q := numerator / denominator in
  let r := numerator mod denominator in
  if (denominator <? 2 * r) || ((denominator =? 2 * r) && Z.odd q) then q + 1 else q.

(** Thousandths of [m * 2 ^ e]. *)
Definition thousandths (m : positive) (e : Z) : Z :=
  if 0 <=? e then Z.pos m * 2 ^ e * 1000 else round_half_even (Z.pos m * 1000) (2 ^ (- e)).

Definition print_thousandths (n : Z) : list Z :=
  print_uint (n / 1000) ++ text "." ++ print_padded 3 (n mod 1000).

(** [%.3f] *)
Definition print_double (x : spec_float) : list Z :=
  let sign (s : bool) := if s then text "-" else [] in
  match x with
  | S754_zero s => sign s ++ print_thousandths 0
  | S754_infinity s => sign s ++ text "inf"
  | S754_nan => text "nan"
  | S754_finite s m e => sign s ++ print_thousandths (thousandths m e)
  end.

Definition rate (completed uptime : Z) : spec_float :=
  if uptime =? 0 then S754_zero false
  else double_div (double_mul (to_double completed) (to_double 1000)) (to_double uptime).

Definition stats_text (stats : faultline_stats_payload) : list (list Z) :=
  [line "jobs_submitted_total" (print_uint (jobs_submitted_total stats));
   line "jobs_queued" (print_uint (jobs_queued stats));
   line "jobs_assigned" (print_uint (jobs_assigned stats));
   line "jobs_running" (print_uint (jobs_running stats));
   line "jobs_completed_total" (print_uint (jobs_completed_total stats));
   line "jobs_failed_total" (print_uint (jobs_failed_total stats));
   line "job_attempts_total" (print_uint (job_attempts_total stats));
   line "job_retries_total" (print_uint (job_retries_total stats));
   line "completed_latency_avg_ms" (print_uint (completed_latency_avg_ms stats));
   line "workers_retained" (print_uint (workers_retained stats));
   line "workers_alive" (print_uint (workers_alive stats));
   line "workers_expired" (print_uint (workers_expired stats));
   line "workers_dead" (print_uint (workers_dead stats));
   line "workers_busy" (print_uint (workers_busy stats));
   line "workers_idle" (print_uint (workers_idle stats));
   line "session_uptime_ms" (print_uint (session_uptime_ms stats));
   line "session_jobs_submitted" (print_uint (session_jobs_submitted stats));
   line "session_jobs_completed" (print_uint (session_jobs_completed stats));
   line "session_jobs_failed" (print_uint (session_jobs_failed stats));
   line "session_job_retries" (print_uint (session_job_retries stats));
   line "startup_jobs_recovered" (print_uint (startup_jobs_recovered stats));
   line "startup_interrupted_jobs" (print_uint (startup_interrupted_jobs stats));
   line "startup_duration_ms" (print_uint (startup_duration_ms stats));
   line "heartbeat_timeout_ms" (print_uint (heartbeat_timeout_ms stats));
   line "session_completed_per_second" (print_double (rate (session_jobs_completed stats) (session_uptime_ms stats)))].

Record submit_options := mk_submit_options {
  so_host : list Z;
  so_port : Z;
  so_submit : faultline_job_submit_payload;
  so_arguments_seen : bool;
  so_retries_seen : bool;
  so_endpoint_seen : bool;
}.

Section Cli.
Context {W : Type} (net : net_os W) (stream_errno : W -> Z).

(** ** Output *)

Definition print (s : stream) (l : list Z) (world : W) : W := snd (os_print net s l world).

(** [fputs] or [fprintf] of one line. *)
Definition complain (message : string) (world : W) : W := print stderr (text message ++ newline) world.
Arguments complain message%_string world.

Definition strerror (error : Z) : list Z :=
  default (text "Unknown error " ++ print_int error) (os_strerror net error).

Definition perror (message : string) (error : Z) (world : W) : W :=
  print stderr (text message ++ text ": " ++ strerror error ++ newline) world.
Arguments perror message%_string error world.

(** A command that ends with the usage. *)
Definition refuse_arguments (world : W) : Z * W := (EXIT_FAILURE, print stderr usage world).

(** The pieces, and the flush that decides. *)
Definition print_all (message : string) (pieces : list (list Z)) (world : W) : Z * W :=
  let world := foldl (fun world l => print stdout l world) world pieces in
  let '(ok, world) := os_flush net stdout world in
  if ok : bool then (EXIT_SUCCESS, world) else (EXIT_FAILURE, perror message (stream_errno world) world).
Arguments print_all message%_string pieces world.

Definition print_status (snapshot : faultline_job_status_payload) (world : W) : Z * W :=
  print_all "faultline: write status" (status_text snapshot) world.

Definition print_listing (reply : faultline_message) (world : W) : Z * W :=
  print_all "faultline: write listing"
    (match reply with
     | MsgJobsResponse entries => jobs_text entries
     | MsgWorkersResponse list => workers_text list
     | _ => []
     end) world.

Definition print_stats (stats : faultline_stats_payload) (world : W) : Z * W :=
  print_all "faultline: write stats" (stats_text stats) world.

(** ** Connections *)

(** [--coordinator], if it is given. *)
Definition parse_coordinator (args : list (list Z)) : option (list Z * Z) :=
  match args with
  | [] => Some (FAULTLINE_DEFAULT_HOST, FAULTLINE_DEFAULT_PORT)
  | [name; value] =>
      if text_eqb name (text "--coordinator") then faultline_parse_endpoint net value INET_ADDRSTRLEN
      else None
  | _ => None
  end.

(** The start of every exchange; [None] is the exit with [EXIT_FAILURE]. *)
Definition open_connection (host : list Z) (port : Z) (world : W) : option Z * W :=
  match faultline_ignore_sigpipe net world with
  | (OsErr error, world) => (None, perror "faultline: configure SIGPIPE" error world)
  | (OsOk _, world) =>
      match faultline_connect net host port FAULTLINE_IO_TIMEOUT_MS world with
      | (OsErr error, world) => (None, perror "faultline: connect" error world)
      | (OsOk fd, world) => (Some fd, world)
      end
  end.

(** ** ping *)

Definition PING_HEADER : faultline_header :=
  mk_header FAULTLINE_PROTOCOL_MAGIC FAULTLINE_PROTOCOL_VERSION FAULTLINE_MSG_PING 0.

(** From the encoding of the header to [done:]. *)
Definition exchange_ping (fd : Z) (world : W) : Z * W :=
  match faultline_header_encode FAULTLINE_HEADER_SIZE PING_HEADER with
  | inl error =>
      (EXIT_FAILURE, print stderr (text "faultline: encode PING failed (protocol error " ++
         print_int (protocol_code error) ++ text ")" ++ newline) world)
  | inr wire =>
      match faultline_send_all net fd wire FAULTLINE_IO_TIMEOUT_MS world with
      | (OsErr error, world) => (EXIT_FAILURE, perror "faultline: send PING" error world)
      | (OsOk _, world) =>
          let '(r, world) := faultline_recv_exact net fd FAULTLINE_HEADER_SIZE FAULTLINE_IO_TIMEOUT_MS world in
          match receive_result r with
          | FAULTLINE_RECEIVE_ERROR =>
              (EXIT_FAILURE, perror "faultline: receive PONG" (receive_errno r) world)
          | FAULTLINE_RECEIVE_EOF =>
              (EXIT_FAILURE, complain "faultline: coordinator closed before PONG" world)
          | FAULTLINE_RECEIVE_TRUNCATED =>
              (EXIT_FAILURE, complain "faultline: coordinator closed during PONG" world)
          | FAULTLINE_RECEIVE_OK =>
              match faultline_header_decode (receive_data r) with
              | inl error =>
                  (EXIT_FAILURE, print stderr (text "faultline: invalid PONG header (protocol error " ++
                     print_int (protocol_code error) ++ text ")" ++ newline) world)
              | inr header =>
                  if (h_message_type header !=? FAULTLINE_MSG_PONG) || (h_payload_length header !=? 0) then
                    (EXIT_FAILURE, complain "faultline: expected PONG with an empty payload" world)
                  else (EXIT_SUCCESS, print stdout (text "PONG" ++ newline) world)
              end
          end
      end
  end.

Definition run_ping (args : list (list Z)) (world : W) : Z * W :=
  if bool_decide (args = [text "--help"]) then (EXIT_SUCCESS, print stdout usage world)
  else
    match args with
    | command :: rest =>
        if negb (text_eqb command (text "ping")) then refuse_arguments world
        else
          match parse_coordinator rest with
          | None => refuse_arguments world
          | Some (host, port) =>
              match open_connection host port world with
              | (None, world) => (EXIT_FAILURE, world)
              | (Some fd, world) =>
                  let '(status, world) := exchange_ping fd world in (status, os_close net fd world)
              end
          end
    | [] => refuse_arguments world
    end.

(** ** submit *)

(** One iteration of the loop over the arguments; [None] is the exit with the usage. *)
Definition parse_submit_option (o : submit_options) (name value : list Z) : option submit_options :=
  let submit := so_submit o in
  match (if text_eqb name (text "--coordinator") && negb (so_endpoint_seen o)
         then faultline_parse_endpoint net value INET_ADDRSTRLEN else None) with
  | Some (host, port) =>
      Some (mk_submit_options host port submit (so_arguments_seen o) (so_retries_seen o) true)
  | None =>
  match (if text_eqb name (text "--max-retries") && negb (so_retries_seen o)
         then parse_retries value else None) with
  | Some retries =>
      Some (mk_submit_options (so_host o) (so_port o)
              (mk_submit (s_task_type submit) retries (s_argument_size submit) (s_arguments submit))
              (so_arguments_seen o) true (so_endpoint_seen o))
  | None =>
      let size := Z.of_nat (length value) in
      let given bytes :=
        Some (mk_submit_options (so_host o) (so_port o)
                (mk_submit (s_task_type submit) (s_max_retries submit) (Z.of_nat (length bytes)) bytes)
                true (so_retries_seen o) (so_endpoint_seen o)) in
      if text_eqb name (text "--args") && negb (so_arguments_seen o) &&
         (size <=? FAULTLINE_JOB_MAX_ARGUMENT_SIZE) then given value
      else if text_eqb name (text "--args-hex") && negb (so_arguments_seen o) &&
              (size <=? 2 * FAULTLINE_JOB_MAX_ARGUMENT_SIZE) && (size mod 2 =? 0) then
        match parse_hex value with
        | None => None
        | Some bytes => given bytes
        end
      else None
  end end.

Fixpoint parse_submit_options (o : submit_options) (args : list (list Z)) : option submit_options :=
  match args with
  | [] => Some o
  | [_] => None
  | name :: value :: args =>
      match parse_submit_option o name value with
      | None => None
      | Some o => parse_submit_options o args
      end
  end.

(** The arguments after the command. *)
Definition parse_submit (args : list (list Z)) : option submit_options :=
  match args with
  | [] => None
  | task :: args =>
      let task_type := find_task 0 TASKS task 0 in
      if task_type =? 0 then None
      else
        parse_submit_options
          (mk_submit_options FAULTLINE_DEFAULT_HOST FAULTLINE_DEFAULT_PORT (mk_submit task_type 0 0 [])
             false false false) args
  end.

(** The two parts of the frame share one deadline. The header allows no other message. *)
Definition receive_submit_ack (fd : Z) (world : W) : option Z * W :=
  let '(start, world) := faultline_monotonic_ms net world in
  if start <? 0 then (None, world)
  else
    let '(head, world) := faultline_recv_exact net fd FAULTLINE_HEADER_SIZE FAULTLINE_IO_TIMEOUT_MS world in
    if negb (bool_decide (receive_result head = FAULTLINE_RECEIVE_OK)) then
      (None, complain "faultline: failed to receive submission ACK header" world)
    else
      let unexpected := (None, complain "faultline: expected submission ACK with an 8-byte job ID" world) in
      match faultline_header_decode (receive_data head) with
      | inl _ => unexpected
      | inr header =>
          if (h_message_type header !=? FAULTLINE_MSG_JOB_SUBMIT_ACK) ||
             (h_payload_length header !=? FAULTLINE_JOB_SUBMIT_ACK_PAYLOAD_SIZE) then unexpected
          else
            let failed world := (None, complain "faultline: failed to receive submission ACK payload" world) in
            let '(now, world) := faultline_monotonic_ms net world in
            if (now <? 0) || (FAULTLINE_IO_TIMEOUT_MS <=? now - start) then failed world
            else
              let '(payload, world) :=
                faultline_recv_exact net fd FAULTLINE_JOB_SUBMIT_ACK_PAYLOAD_SIZE
                  (FAULTLINE_IO_TIMEOUT_MS - (now - start)) world in
              if negb (bool_decide (receive_result payload = FAULTLINE_RECEIVE_OK)) then failed world
              else
                match faultline_message_decode (receive_data head ++ receive_data payload) with
                | inr (MsgJobSubmitAck id, _) => (Some id, world)
                | _ => (None, complain "faultline: invalid submission ACK payload" world)
                end
      end.

(** From the connection to the status. *)
Definition exchange_submit (fd : Z) (wire : list Z) (world : W) : Z * W :=
  let unconfirmed world :=
    (EXIT_FAILURE,
     complain "faultline: submission unconfirmed; the coordinator may already have accepted it" world) in
  match faultline_send_all net fd wire FAULTLINE_IO_TIMEOUT_MS world with
  | (OsErr error, world) => unconfirmed (perror "faultline: send submission" error world)
  | (OsOk _, world) =>
      match receive_submit_ack fd world with
      | (None, world) => unconfirmed world
      | (Some id, world) => (EXIT_SUCCESS, print stdout (line "job_id" (print_uint id)) world)
      end
  end.

Definition run_submit (args : list (list Z)) (world : W) : Z * W :=
  match parse_submit args with
  | None => refuse_arguments world
  | Some o =>
      match faultline_message_encode FAULTLINE_MESSAGE_MAX_FRAME_SIZE (MsgJobSubmit (so_submit o)) with
      | inl _ => (EXIT_FAILURE, complain "faultline: could not encode submission" world)
      | inr wire =>
          match open_connection (so_host o) (so_port o) world with
          | (None, world) => (EXIT_FAILURE, world)
          | (Some fd, world) =>
              let '(status, world) := exchange_submit fd wire world in (status, os_close net fd world)
          end
      end
  end.

(** ** Queries *)

Definition receive_query_bytes (fd size start : Z) (name : list Z) (world : W) : option (list Z) * W :=
  let incomplete world :=
    (None, print stderr (text "faultline: " ++ name ++
       text " response incomplete (connection closed, timed out, or read failed)" ++ newline) world) in
  let '(now, world) := faultline_monotonic_ms net world in
  if (now <? 0) || (FAULTLINE_IO_TIMEOUT_MS <=? now - start) then incomplete world
  else
    let '(r, world) := faultline_recv_exact net fd size (FAULTLINE_IO_TIMEOUT_MS - (now - start)) world in
    if bool_decide (receive_result r = FAULTLINE_RECEIVE_OK) then (Some (receive_data r), world)
    else incomplete world.

(** [prefix] and [maximum] for the type of the header. *)
Definition query_sizes (type : Z) : Z * Z :=
  if type =? FAULTLINE_MSG_JOB_STATUS_NOT_FOUND then
    (FAULTLINE_JOB_STATUS_NOT_FOUND_PAYLOAD_SIZE, FAULTLINE_JOB_STATUS_NOT_FOUND_PAYLOAD_SIZE)
  else if type =? FAULTLINE_MSG_JOB_STATUS_RESPONSE then
    (FAULTLINE_JOB_STATUS_RESPONSE_PREFIX_SIZE,
     FAULTLINE_JOB_STATUS_RESPONSE_PREFIX_SIZE + FAULTLINE_JOB_MAX_RESULT_SIZE)
  else if type =? FAULTLINE_MSG_JOBS_RESPONSE then
    (FAULTLINE_JOBS_PREFIX_SIZE,
     FAULTLINE_JOBS_PREFIX_SIZE + FAULTLINE_JOBS_MAX_ENTRIES * FAULTLINE_JOB_SUMMARY_SIZE)
  else if type =? FAULTLINE_MSG_STATS_RESPONSE then
    (FAULTLINE_STATS_PAYLOAD_SIZE, FAULTLINE_STATS_PAYLOAD_SIZE)
  else
    (FAULTLINE_WORKERS_PREFIX_SIZE,
     FAULTLINE_WORKERS_PREFIX_SIZE + FAULTLINE_WORKERS_MAX_ENTRIES * FAULTLINE_WORKER_SUMMARY_SIZE).

(** The test of the result: the frame is all of [wire]. *)
Definition check_query (name wire : list Z) (result : faultline_protocol_result + faultline_message * Z)
    (world : W) : option faultline_message * W :=
  let invalid := (None, print stderr (text "faultline: invalid " ++ name ++ text " response payload" ++ newline) world) in
  match result with
  | inl _ => invalid
  | inr (reply, consumed) => if consumed !=? Z.of_nat (length wire) then invalid else (Some reply, world)
  end.

(** The second part of a reply whose header and prefix have arrived in [wire]. *)
Definition finish_query (fd start remaining : Z) (name wire : list Z) (world : W) :
    option faultline_message * W :=
  match faultline_message_decode wire with
  | inl FAULTLINE_PROTOCOL_BUFFER_TOO_SMALL =>
      match receive_query_bytes fd remaining start name world with
      | (None, world) => (None, world)
      | (Some data, world) => check_query name (wire ++ data) (faultline_message_decode (wire ++ data)) world
      end
  | result => check_query name wire result world
  end.

Definition receive_query (fd expected_type : Z) (name : list Z) (world : W) : option faultline_message * W :=
  let invalid message world := (None, print stderr (text "faultline: " ++ message ++ newline) world) in
  let '(start, world) := faultline_monotonic_ms net world in
  if start <? 0 then (None, perror "faultline: clock" EINVAL world)
  else
    match receive_query_bytes fd FAULTLINE_HEADER_SIZE start name world with
    | (None, world) => (None, world)
    | (Some head, world) =>
        match faultline_header_decode head with
        | inl _ => invalid (text "invalid " ++ name ++ text " response header") world
        | inr header =>
            if (h_message_type header !=? expected_type) &&
               negb ((expected_type =? FAULTLINE_MSG_JOB_STATUS_RESPONSE) &&
                     (h_message_type header =? FAULTLINE_MSG_JOB_STATUS_NOT_FOUND)) then
              invalid (text "unexpected " ++ name ++ text " response type") world
            else
              let '(prefix, maximum) := query_sizes (h_message_type header) in
              if (h_payload_length header <? prefix) || (maximum <? h_payload_length header) then
                invalid (text "invalid " ++ name ++ text " response length") world
              else
                match receive_query_bytes fd prefix start name world with
                | (None, world) => (None, world)
                | (Some fixed, world) =>
                    finish_query fd start (h_payload_length header - prefix) name (head ++ fixed) world
                end
        end
    end.

(** ** status *)

Definition STATUS_REQUEST_FRAME : Z := FAULTLINE_HEADER_SIZE + FAULTLINE_JOB_STATUS_REQUEST_PAYLOAD_SIZE.

Definition answer_status (id : Z) (reply : faultline_message) (world : W) : Z * W :=
  let mismatch :=
    (EXIT_FAILURE, complain "faultline: status response job ID does not match request" world) in
  match reply with
  | MsgJobStatusNotFound echoed =>
      if echoed !=? id then mismatch
      else (2, print stderr (text "faultline: job " ++ print_uint echoed ++ text " not found" ++ newline) world)
  | MsgJobStatusResponse snapshot =>
      if st_job_id snapshot !=? id then mismatch else print_status snapshot world
  | _ => mismatch
  end.

Definition exchange_status (fd id : Z) (wire : list Z) (world : W) : Z * W :=
  match faultline_send_all net fd wire FAULTLINE_IO_TIMEOUT_MS world with
  | (OsErr error, world) => (EXIT_FAILURE, perror "faultline: send status request" error world)
  | (OsOk _, world) =>
      match receive_query fd FAULTLINE_MSG_JOB_STATUS_RESPONSE (text "status") world with
      | (None, world) => (EXIT_FAILURE, world)
      | (Some reply, world) => answer_status id reply world
      end
  end.

(** The arguments after the command: the ID and the coordinator. *)
Definition parse_status (args : list (list Z)) : option (Z * (list Z * Z)) :=
  match args with
  | [] => None
  | id :: args =>
      match parse_job_id id, parse_coordinator args with
      | Some id, Some endpoint => Some (id, endpoint)
      | _, _ => None
      end
  end.

Definition run_status (args : list (list Z)) (world : W) : Z * W :=
  match parse_status args with
  | None => refuse_arguments world
  | Some (id, (host, port)) =>
      match faultline_message_encode STATUS_REQUEST_FRAME (MsgJobStatusRequest id) with
      | inl _ => (EXIT_FAILURE, complain "faultline: could not encode status request" world)
      | inr wire =>
          match open_connection host port world with
          | (None, world) => (EXIT_FAILURE, world)
          | (Some fd, world) =>
              let '(status, world) := exchange_status fd id wire world in (status, os_close net fd world)
          end
      end
  end.

(** ** jobs, workers, stats *)

Definition inspection_request (command : list Z) : faultline_message :=
  if text_eqb command (text "jobs") then MsgJobsRequest 0
  else if text_eqb command (text "workers") then MsgWorkersRequest 0 else MsgStatsRequest 0.

Definition inspection_response (request_type : Z) : Z :=
  if request_type =? FAULTLINE_MSG_JOBS_REQUEST then FAULTLINE_MSG_JOBS_RESPONSE
  else if request_type =? FAULTLINE_MSG_WORKERS_REQUEST then FAULTLINE_MSG_WORKERS_RESPONSE
  else FAULTLINE_MSG_STATS_RESPONSE.

Definition exchange_inspection (fd : Z) (command wire : list Z) (response_type : Z) (world : W) : Z * W :=
  match faultline_send_all net fd wire FAULTLINE_IO_TIMEOUT_MS world with
  | (OsErr error, world) => (EXIT_FAILURE, perror "faultline: send inspection request" error world)
  | (OsOk _, world) =>
      match receive_query fd response_type command world with
      | (None, world) => (EXIT_FAILURE, world)
      | (Some (MsgStatsResponse stats), world) => print_stats stats world
      | (Some reply, world) => print_listing reply world
      end
  end.

Definition run_inspection (command : list Z) (args : list (list Z)) (world : W) : Z * W :=
  let request := inspection_request command in
  match parse_coordinator args with
  | None => refuse_arguments world
  | Some (host, port) =>
      match faultline_message_encode FAULTLINE_HEADER_SIZE request with
      | inl _ => (EXIT_FAILURE, complain "faultline: could not encode inspection request" world)
      | inr wire =>
          match open_connection host port world with
          | (None, world) => (EXIT_FAILURE, world)
          | (Some fd, world) =>
              let '(status, world) :=
                exchange_inspection fd command wire (inspection_response (message_type request)) world in
              (status, os_close net fd world)
          end
      end
  end.

(** ** The process *)

Definition main (args : list (list Z)) (world : W) : Z * W :=
  match args with
  | command :: rest =>
      if text_eqb command (text "submit") then run_submit rest world
      else if text_eqb command (text "status") then run_status rest world
      else if text_eqb command (text "jobs") || text_eqb command (text "workers") ||
              text_eqb command (text "stats") then run_inspection command rest world
      else run_ping args world
  | [] => run_ping args world
  end.

End Cli.
