(* ===== verification/Machine.v ===== *)
(** A machine has a disk and a network: the calls of one leave the other as it is.

    [Machine] states this for the calls that the coordinator makes. The
    simulated disk and the simulated network side by side are such a machine. *)

From S2P Require Import Prelude Text WalWriter Disk SimDisk Net NetLaws SimNet Log.

Section Machine.
Context {W : Type} (os : wal_os W) (net : net_os W) {DISK : Disk os} {NET : Net net}.

(** The log file is as before; a kill can leave no more than before. *)
Definition same_disk (world world' : W) : Prop :=
  view os world' = view os world /\ forall x, crash os world' x -> crash os world x.

Definition leaves_disk {A} (call : W -> A * W) : Prop :=
  forall world r world', call world = (r, world') -> same_disk world world'.

Definition leaves_sockets {A} (call : W -> A * W) : Prop :=
  forall world r world', call world = (r, world') ->
    same_sockets (net_state net world) (net_state net world').

Class Machine : Prop := {
  disk_monotonic : leaves_disk (os_monotonic net);
  disk_realtime : leaves_disk (os_realtime net);
  disk_poll l timeout : leaves_disk (os_poll net l timeout);
  disk_recv d size : leaves_disk (os_recv net d size);
  disk_send d data : leaves_disk (os_send net d data);
  disk_accept d : leaves_disk (os_accept net d);
  disk_getfl d : leaves_disk (os_getfl net d);
  disk_setfl d flags : leaves_disk (os_setfl net d flags);
  disk_stopping : leaves_disk (os_stopping net);
  disk_print s l : leaves_disk (os_print net s l);
  disk_flush s : leaves_disk (os_flush net s);
  disk_socket : leaves_disk (os_socket net);
  disk_reuseaddr d : leaves_disk (os_reuseaddr net d);
  disk_bind d address : leaves_disk (os_bind net d address);
  disk_listen d backlog : leaves_disk (os_listen net d backlog);
  disk_sigaction s disp : leaves_disk (os_sigaction net s disp);
  disk_close d world : same_disk world (os_close net d world);
  sockets_write d data : leaves_sockets (io_write os d data);
  sockets_sync d : leaves_sockets (io_sync os d);
}.

#[export] Instance same_disk_preorder : PreOrder same_disk.
Proof.
  split; [by split|]. intros w1 w2 w3 [Hv1 Hc1] [Hv2 Hc2]. split; [congruence|auto].
Qed.

(** Neither the log nor a socket has changed. *)
Definition calm (world world' : W) : Prop :=
  same_disk world world' /\ same_sockets (net_state net world) (net_state net world').

#[export] Instance calm_preorder : PreOrder calm.
Proof. split; [by split|]. intros w1 w2 w3 [] []. split; by etrans. Qed.

Context {MACHINE : Machine}.

Lemma calm_monotonic world t world' :
  faultline_monotonic_ms net world = (t, world') -> calm world world'.
Proof.
  unfold faultline_monotonic_ms. destruct (os_monotonic net world) as [r w1] eqn:E.
  assert (calm world w1) as Hc.
  { split; [by eapply disk_monotonic|]. by apply (law_monotonic net) in E as [? _]. }
  destruct r as [[]|]; by intros [= <- <-].
Qed.

Lemma calm_stopping world z world' : os_stopping net world = (z, world') -> calm world world'.
Proof. intros E. split; [by eapply disk_stopping|]. by apply (law_stopping net) in E as [? _]. Qed.

Lemma calm_print s l world b world' : os_print net s l world = (b, world') -> calm world world'.
Proof. intros E. split; [by eapply disk_print|by eapply (law_print net)]. Qed.

Lemma calm_log s level component event body world :
  calm world (snd (faultline_log net s level component event body world)).
Proof.
  apply log_respects; [apply _|..]; intros.
  - split; [by eapply disk_realtime|by eapply (law_realtime net)].
  - split; [by eapply disk_monotonic|by eapply (law_monotonic net)].
  - by eapply calm_print.
  - split; [by eapply disk_flush|by eapply (law_flush net)].
Qed.

Lemma calm_log_error level component operation error world :
  calm world (faultline_log_error net level component operation error world).
Proof. apply calm_log. Qed.

End Machine.

(** What a reading of the clock says, when it succeeds. *)
Lemma clock_read {W} (net : net_os W) {NET : Net net} world t world' :
  faultline_monotonic_ms net world = (t, world') -> 0 <= t ->
  clock (net_state net world) <= t <= clock (net_state net world').
Proof.
  unfold faultline_monotonic_ms. destruct (os_monotonic net world) as [[[s n]|e] w1] eqn:E;
    intros [= <- <-] Ht; [|lia]. destruct (law_monotonic net _ _ _ E) as [_ H].
  destruct (H s n eq_refl) as (Hs & Hn & Hc). by rewrite Z.quot_div_nonneg by lia.
Qed.

(** ** Side by side *)

Section Product.
Context {D N : Type}.

Definition on_fst {A} (call : D -> A * D) (w : D * N) : A * (D * N) :=
  let '(r, d) := call (fst w) in (r, (d, snd w)).

Definition on_snd {A} (call : N -> A * N) (w : D * N) : A * (D * N) :=
  let '(r, n) := call (snd w) in (r, (fst w, n)).

Lemma on_fst_inv {A} (call : D -> A * D) w r w' :
  on_fst call w = (r, w') -> call (fst w) = (r, fst w') /\ snd w' = snd w.
Proof. unfold on_fst. destruct (call (fst w)). by intros [= <- <-]. Qed.

Lemma on_snd_inv {A} (call : N -> A * N) w r w' :
  on_snd call w = (r, w') -> call (snd w) = (r, snd w') /\ fst w' = fst w.
Proof. unfold on_snd. destruct (call (snd w)). by intros [= <- <-]. Qed.

Definition disk_part (os : wal_os D) : wal_os (D * N) := {|
  os_alloc := on_fst (os_alloc os);
  os_open p := on_fst (os_open os p);
  os_openat d name create := on_fst (os_openat os d name create);
  os_fstat d := on_fst (os_fstat os d);
  io_lock d := on_fst (io_lock os d);
  io_write d data := on_fst (io_write os d data);
  io_sync d := on_fst (io_sync os d);
  io_close d := on_fst (io_close os d);
  io_read d size := on_fst (io_read os d size);
  io_truncate d size := on_fst (io_truncate os d size);
  os_interrupts w := os_interrupts os (fst w);
  os_unread w := os_unread os (fst w);
|}.

Definition net_part (net : net_os N) : net_os (D * N) := {|
  os_monotonic := on_snd (os_monotonic net);
  os_realtime := on_snd (os_realtime net);
  os_poll l timeout := on_snd (os_poll net l timeout);
  os_recv d size := on_snd (os_recv net d size);
  os_send d data := on_snd (os_send net d data);
  os_accept d := on_snd (os_accept net d);
  os_socket := on_snd (os_socket net);
  os_getfl d := on_snd (os_getfl net d);
  os_setfl d flags := on_snd (os_setfl net d flags);
  os_reuseaddr d := on_snd (os_reuseaddr net d);
  os_bind d a := on_snd (os_bind net d a);
  os_listen d b := on_snd (os_listen net d b);
  os_connect d a := on_snd (os_connect net d a);
  os_so_error d := on_snd (os_so_error net d);
  os_close d w := (fst w, os_close net d (snd w));
  os_sigaction s disp := on_snd (os_sigaction net s disp);
  os_stopping := on_snd (os_stopping net);
  os_print s l := on_snd (os_print net s l);
  os_flush s := on_snd (os_flush net s);
  os_getpid := os_getpid net;
  os_inet_pton := os_inet_pton net;
  os_strerror := os_strerror net;
  os_transients w := os_transients net (snd w);
|}.

(** Reduce a statement about a lifted call to the call itself. *)
Ltac unlift :=
  intros;
  repeat match goal with
  | H : on_fst _ ?w = (_, ?w') |- _ => apply on_fst_inv in H as [H Hother]
  | H : on_snd _ ?w = (_, ?w') |- _ => apply on_snd_inv in H as [H Hother]
  end.

#[export] Instance disk_part_finite os `{!OsFinite os} : OsFinite (disk_part os).
Proof.
  assert (forall A (call : D -> os_result A * D), interruptible os call ->
    interruptible (disk_part os) (on_fst call)) as Hi.
  { intros A call Hc w r w' H. apply on_fst_inv in H as [H _]. by apply Hc in H. }
  split; try (intros; apply Hi; solve [apply finite_open, _|apply finite_openat, _|apply finite_fstat, _
    |apply finite_lock, _|apply finite_write, _|apply finite_sync, _|apply finite_read, _
    |apply finite_truncate, _]); cbn; unlift.
  - by eapply (finite_unread os).
  - by eapply (finite_written os).
  - by eapply (finite_alloc os).
Qed.

#[export] Instance disk_part_laws os `{!Disk os} : Disk (disk_part os).
Proof.
  refine {| view w := view os (fst w); crash w := crash os (fst w) |}; cbn; unlift.
  - by eapply (law_alloc os).
  - by eapply (law_fstat os).
  - by eapply (law_lock os).
  - by eapply (Disk.law_close os).
  - by eapply (law_open os).
  - by eapply (law_openat os).
  - by eapply (law_write os).
  - by eapply (law_sync os).
  - by eapply (law_read os).
  - by eapply (law_truncate os).
Defined.

#[export] Instance net_part_finite net `{!NetFinite net} : NetFinite (net_part net).
Proof.
  split; intros; intros w r w' H; apply on_snd_inv in H as [H _].
  - by eapply (finite_monotonic net).
  - by eapply (finite_stopping net).
  - by eapply (finite_poll net).
  - by eapply (finite_recv net).
  - by eapply (finite_send net).
Qed.

#[export] Instance net_part_laws net `{!Net net} : Net (net_part net).
Proof.
  refine {| net_state w := net_state net (snd w) |}; cbn;
    try (intros; intros w r w' H; apply on_snd_inv in H as [H _]); unlift.
  - by eapply (law_monotonic net).
  - by eapply (law_realtime net).
  - by eapply (law_poll net).
  - by eapply (law_recv net).
  - by eapply (law_send net).
  - by eapply (law_accept net).
  - by eapply (law_socket net).
  - by eapply (law_connect net).
  - by eapply (NetLaws.law_close net).
  - by eapply (law_getfl net).
  - by eapply (law_setfl net).
  - by eapply (law_reuseaddr net).
  - by eapply (law_bind net).
  - by eapply (law_listen net).
  - by eapply (law_so_error net).
  - by eapply (law_sigaction net).
  - by eapply (law_print net).
  - by eapply (law_flush net).
  - by eapply (law_stopping net).
Defined.

#[export] Instance product_machine os net `{!Disk os} `{!Net net} :
  Machine (disk_part os) (net_part net).
Proof.
  split; intros; try (intros w r w' H; (apply on_snd_inv in H as [_ H] || apply on_fst_inv in H as [_ H]);
    unfold same_disk; cbn; rewrite H; done); done.
Qed.

End Product.

(** The machine of the examples. *)
Definition machine_os : wal_os (sim * sim_net) := disk_part sim_os.
Definition machine_net : net_os (sim * sim_net) := net_part sim_net_os.
