(* ===== verification/StoreSteps.v ===== *)
(** The operations of the store as the event loop sees them: what they do to the jobs, to the
    registry and to the sockets, when the log, the jobs and the registry are sound. *)

From S2P Require Import Prelude Text Job JobQueue WorkerRegistry Protocol Scheduler SchedulerProofs Wal WalProofs.
From S2P Require Import WalWriter Disk WriterProofs WalReplay ReplayProofs CoordinatorStore StoreProofs Durability StoreRecovery.
From S2P Require Import Net NetLaws Machine.

(** ** Connections of live workers *)

(** The connection of a live worker. *)
Definition live_at (r : faultline_worker_registry) (id : Z) : option Z :=
  match faultline_worker_find r id with
  | Some w => if bool_decide (w_state w = FAULTLINE_WORKER_ALIVE) then Some (w_fd w) else None
  | None => None
  end.

Lemma live_at_some r id fd :
  registry_wf r ->
  live_at r id = Some fd <->
  exists k w, workers r !! k = Some w /\ alive w /\ w_id w = id /\ w_fd w = fd.
Proof.
  intros Hr. unfold live_at. split.
  - destruct (faultline_worker_find r id) as [w|] eqn:E; [|done].
    destruct (worker_find_some r id w Hr E) as (Hin & _ & Hid & _).
    case_bool_decide as Ha; [|done]. intros [= <-]. apply list_elem_of_lookup in Hin as [k Hk].
    by exists k, w.
  - intros (k & w & Hk & Ha & <- & <-).
    rewrite (worker_find_at r k w Hr Hk (used_alive w Ha)). by rewrite bool_decide_true by done.
Qed.

Lemma live_at_fd r id fd : registry_wf r -> live_at r id = Some fd -> 0 <= fd /\ id <> 0.
Proof.
  intros Hr H. apply live_at_some in H as (k & w & Hk & Ha & <- & <-); [|done].
  apply list_elem_of_lookup_2 in Hk. split; [by apply (reg_fds r Hr)|].
  destruct (reg_ids r Hr w Hk (used_alive w Ha)). lia.
Qed.

Lemma live_at_unique r id id' fd :
  registry_wf r -> live_at r id = Some fd -> live_at r id' = Some fd -> id = id'.
Proof.
  intros Hr H H'. apply live_at_some in H as (k & w & Hk & Ha & <- & <-); [|done].
  apply live_at_some in H' as (k' & w' & Hk' & Ha' & <- & Hfd); [|done].
  assert (k' = k) as -> by (by eapply (reg_fd_unique r Hr)). congruence.
Qed.

(** A new entry for a slot that holds no live worker with another ID. *)
Lemma live_at_insert r slot w n id :
  registry_wf r -> registry_wf (mk_registry (<[slot := w]> (workers r)) n) ->
  (slot < length (workers r))%nat -> used w ->
  (forall v, workers r !! slot = Some v -> alive v -> w_id v = w_id w) ->
  live_at (mk_registry (<[slot := w]> (workers r)) n) id =
  if id =? w_id w then (if bool_decide (alive w) then Some (w_fd w) else None)
  else live_at r id.
Proof.
  intros Hr Hr' Hs Hu Hv. apply option_eq. intros fd. rewrite live_at_some by done. cbn.
  destruct (Z.eqb_spec id (w_id w)) as [->|Hid].
  - split.
    + intros (k & v & Hk & Hva & Hvid & <-).
      assert (k = slot) as ->.
      { apply (reg_unique _ Hr' k slot v w); try done; [by cbn; rewrite list_lookup_insert_eq|].
        by apply used_alive. }
      rewrite list_lookup_insert_eq in Hk by done. injection Hk as ->. by rewrite bool_decide_true.
    + case_bool_decide; [|done]. intros [= <-]. exists slot, w. by rewrite list_lookup_insert_eq.
  - rewrite live_at_some by done. split; intros (k & v & Hk & Hva & Hvid & <-); exists k, v.
    + destruct (decide (k = slot)) as [->|Hne].
      * rewrite list_lookup_insert_eq in Hk by done. congruence.
      * by rewrite list_lookup_insert_ne in Hk.
    + destruct (decide (k = slot)) as [->|Hne]; [|by rewrite list_lookup_insert_ne].
      specialize (Hv v Hk Hva). congruence.
Qed.

Lemma live_at_register r fd now id r' :
  registry_wf r -> faultline_worker_register r fd now = (FAULTLINE_REGISTRY_OK, Some id, r') ->
  live_at r id = None /\ 0 < id <= UINT32_MAX /\
  (forall i, live_at r' i = if i =? id then Some fd else live_at r i) /\
  (forall i, live_at r i <> Some fd) /\ 0 <= now /\
  forall w, w ∈ workers r' -> w ∈ workers r \/ w_last_heartbeat_ms w = now.
Proof.
  intros Hr H. pose proof (register_wf _ _ _ _ _ _ Hr H) as Hr'.
  apply (register_ok _ _ _ _ _ Hr) in H as (slot & Hs & [= ->] & Hn & Hfd & Hnow & Hold & Hnew & ->).
  pose proof (reg_next r Hr) as Hnr. unfold in_u32, UINT32_MAX in *. split_and!; try lia.
  - destruct (live_at r (next_worker_id r)) as [z|] eqn:E; [|done].
    apply live_at_some in E as (k & w & Hk & Ha & Hid & _); [|done].
    apply list_elem_of_lookup_2 in Hk. destruct (reg_ids r Hr w Hk (used_alive w Ha)). lia.
  - intros i. rewrite (live_at_insert r) by (done || rewrite ?(reg_length r Hr); try done; intros v Hv Ha;
      by destruct (Hold v Hv)). done.
  - intros i Hi. apply live_at_some in Hi as (k & w & Hk & Ha & _ & Hw); [|done].
    apply (Hnew w); [by eapply list_elem_of_lookup_2|done|done].
  - intros w Hw. cbn in Hw. apply list_elem_of_lookup in Hw as [k Hk].
    destruct (decide (k = slot)) as [->|Hne].
    + rewrite list_lookup_insert_eq in Hk by (rewrite (reg_length r Hr); done). injection Hk as <-. by right.
    + rewrite list_lookup_insert_ne in Hk by done. left. by eapply list_elem_of_lookup_2.
Qed.

Lemma live_at_heartbeat r id fd now res r' i :
  registry_wf r -> faultline_worker_heartbeat r id fd now = (res, r') -> live_at r' i = live_at r i.
Proof.
  intros Hr H. pose proof (heartbeat_wf r id fd now Hr) as Hr'. rewrite H in Hr'. cbn in Hr'.
  revert H. unfold faultline_worker_heartbeat. destruct (now <? 0); [by intros [= <- <-]|].
  destruct (find_live_connection r id fd) as [e slot] eqn:E.
  destruct e; try by intros [= <- <-].
  destruct (find_live_connection_ok r Hr id fd slot E) as (w & Hk & -> & Ha & Hid & Hfd & _).
  destruct (now <? _); [by intros [= <- <-]|]. intros [= <- <-].
  rewrite (live_at_insert r); try done.
  - cbn. destruct (Z.eqb_spec i (w_id w)) as [->|]; [|done].
    rewrite bool_decide_true by done. symmetry. apply live_at_some; [done|]. by exists slot, w.
  - by apply lookup_lt_Some in Hk.
  - by apply used_alive in Ha.
  - intros v Hv _. cbn. congruence.
Qed.

Lemma live_at_mark_dead r id fd :
  registry_wf r -> live_at r id = Some fd ->
  exists r', faultline_worker_mark_dead r id fd = (FAULTLINE_REGISTRY_OK, r') /\
    forall i, live_at r' i = if i =? id then None else live_at r i.
Proof.
  intros Hr H. destruct (live_at_fd r id fd Hr H) as [Hfd Hid].
  pose proof (mark_dead_wf r id fd Hr) as Hr'. revert Hr'.
  apply live_at_some in H as (k & w & Hk & Ha & <- & <-); [|done].
  unfold faultline_worker_mark_dead.
  assert (find_live_connection r (w_id w) (w_fd w) = (FAULTLINE_REGISTRY_OK, k)) as ->.
  { unfold find_live_connection. rewrite (find_slot_at r Hr k w Hk (used_alive w Ha)).
    rewrite (proj2 (Z.ltb_ge _ _)) by lia.
    assert (k < FAULTLINE_MAX_WORKERS)%nat.
    { rewrite <- (reg_length r Hr). by apply lookup_lt_Some in Hk. }
    rewrite (proj2 (Nat.eqb_neq _ _)) by lia.
    rewrite (list_lookup_total_correct _ _ _ Hk), bool_decide_false by (intros Hn; by apply Hn).
    by rewrite Z.eqb_refl. }
  rewrite (list_lookup_total_correct _ _ _ Hk). cbn. intros Hr'. eexists. split; [done|]. intros i.
  rewrite (live_at_insert r); try done; [by apply lookup_lt_Some in Hk|].
  intros v Hv _. cbn. congruence.
Qed.

(** No heartbeat is later than [now]. *)
Definition beats (store : faultline_coordinator_store) (now : Z) : Prop :=
  forall w, w ∈ workers (store_workers store) -> used w -> w_last_heartbeat_ms w <= now.

Lemma beats_later store t t' : beats store t -> t <= t' -> beats store t'.
Proof. intros H Ht w Hw Hu. specialize (H w Hw Hu). lia. Qed.

(** ** Workers with a job *)

Definition busy (s : faultline_scheduler) (worker : Z) : Prop :=
  faultline_scheduler_active s worker <> None.

Lemma busy_spec s worker :
  busy s worker <-> worker <> 0 /\ exists k j, live s !! k = Some j /\ active_job j /\ worker_id j = worker.
Proof.
  unfold busy. destruct (faultline_scheduler_active s worker) as [j|] eqn:E.
  - split; [|done]. intros _. apply active_some in E as (? & ? & ? & slot & ?). eauto 10.
  - apply active_none in E. split; [done|]. intros (Hw & k & j & Hk & Ha & Hj).
    destruct E as [|E]; [done|]. apply list_elem_of_lookup_2 in Hk. by destruct (E j Hk Ha).
Qed.

Lemma busy_replace s slot j c q worker :
  sched_wf s -> live s !! slot = Some j -> busy (replace_job s slot c q) worker ->
  active_job c /\ worker_id c = worker \/
  busy s worker /\ (active_job j -> worker <> worker_id j).
Proof.
  intros Hs Hj H. destruct (live_jobs s slot j Hs Hj) as (Hlt & _ & _).
  apply busy_spec in H as (Hw & k & j' & Hk & Ha & <-). rewrite live_replace in Hk by done.
  destruct (decide (k = slot)) as [->|Hne].
  - rewrite list_lookup_insert_eq in Hk by (rewrite live_length by done; lia). injection Hk as ->. by left.
  - rewrite list_lookup_insert_ne in Hk by done. right. split; [apply busy_spec; eauto 10|].
    intros Haj Heq. destruct Hne. by eapply (sched_one_active s Hs).
Qed.

Lemma busy_append s s' j worker :
  live s' = live s ++ [j] -> is_queued j -> busy s' worker -> busy s worker.
Proof.
  intros Hl Hq H. apply busy_spec in H as (Hw & k & j' & Hk & Ha & <-). rewrite Hl in Hk.
  apply lookup_app_Some in Hk as [Hk|[_ Hk]]; [apply busy_spec; eauto 10|].
  apply list_lookup_singleton_Some in Hk as [_ <-]. by destruct (active_not_queued j Ha).
Qed.

(** ** What the operations return and keep *)

Lemma job_time_some store raw time store' :
  job_time store raw = (Some time, store') -> store' = store /\ time <= INT64_MAX.
Proof.
  unfold job_time. destruct (_ || _) eqn:E; [done|]. apply orb_false_iff in E as [_ E]. apply Z.ltb_ge in E.
  destruct (_ <? _); [done|]. intros [= <- <-]. split; [done|lia].
Qed.

Lemma job_time_none store raw store' :
  job_time store raw = (None, store') -> store' = fail store FAULTLINE_STORE_FAILURE_CLOCK.
Proof.
  unfold job_time. destruct (_ || _); [by intros [= <-]|]. destruct (_ <? _); by intros [= <-].
Qed.

(** A refused or failed operation keeps jobs and registry. *)
Record kept (store store' : faultline_coordinator_store) : Prop := {
  kept_jobs : jobs store' = jobs store;
  kept_workers : store_workers store' = store_workers store;
  kept_opened : opened store' = opened store;
}.

Lemma kept_fail store failure : kept store (fail store failure).
Proof. unfold fail. by case_bool_decide. Qed.

Lemma fail_fails store failure :
  failure <> FAULTLINE_STORE_FAILURE_NONE ->
  store_failure (fail store failure) <> FAULTLINE_STORE_FAILURE_NONE.
Proof. unfold fail. by case_bool_decide. Qed.

Create HintDb store_db.
#[export] Hint Resolve kept_fail fail_fails : store_db.

Section Shapes.
Context {W : Type} (os : wal_os W).

Lemma append_shape store record world res store' world' :
  append os store record world = (res, store', world') ->
  kept store store' /\ scratch store' = scratch store /\
  (res = FAULTLINE_STORE_OK /\ store_failure store' = store_failure store \/
   res = FAULTLINE_STORE_FATAL /\ store_failure store' <> FAULTLINE_STORE_FAILURE_NONE).
Proof.
  unfold append. destruct (faultline_wal_writer_append _ _ _ _) as [[result writer] w1].
  destruct result; intros [= <- <- <-]; split_and!; try done; try (by left);
    try (by unfold fail; case_bool_decide); right; (split; [done|by apply fail_fails]).
Qed.

Lemma commit_job_shape store id type world res store' world' :
  commit_job os store id type world = (res, store', world') ->
  store_workers store' = store_workers store /\ opened store' = opened store /\
  (res = FAULTLINE_STORE_OK /\ jobs store' = scratch store /\ store_failure store' = store_failure store \/
   res = FAULTLINE_STORE_FATAL /\ jobs store' = jobs store /\
   store_failure store' <> FAULTLINE_STORE_FAILURE_NONE).
Proof.
  unfold commit_job. destruct (faultline_scheduler_find _ _) as [j|].
  - destruct (append os store _ world) as [[r s1] w1] eqn:E.
    destruct (append_shape _ _ _ _ _ _ E) as ([Hj Hw Ho] & Hs & [[-> Hf]|[-> Hf]]);
      intros [= <- <- <-]; split_and!; try done; [left|right]; by split_and!.
  - intros [= <- <- <-]. destruct (kept_fail store FAULTLINE_STORE_FAILURE_INTERNAL).
    split_and!; try done. right. split_and!; try done. by apply fail_fails.
Qed.

(** The result of an operation on the jobs: published, refused, or fatal. *)
Definition published_jobs (res : faultline_store_result) (store store' : faultline_coordinator_store)
    (done : faultline_scheduler -> Prop) : Prop :=
  store_workers store' = store_workers store /\ opened store' = opened store /\
  match res with
  | FAULTLINE_STORE_OK => done (jobs store') /\ store_failure store' = store_failure store
  | FAULTLINE_STORE_FATAL =>
      jobs store' = jobs store /\
      (opened store = true -> store_failure store' <> FAULTLINE_STORE_FAILURE_NONE)
  | _ => jobs store' = jobs store /\ store_failure store' = store_failure store
  end.

Lemma unusable_failed store :
  usable store = false -> opened store = true -> store_failure store <> FAULTLINE_STORE_FAILURE_NONE.
Proof. unfold usable. intros H Ho. rewrite Ho in H. by apply bool_decide_eq_false in H. Qed.

Lemma published_jobs_fatal store store' failure done :
  store' = fail store failure -> failure <> FAULTLINE_STORE_FAILURE_NONE ->
  published_jobs FAULTLINE_STORE_FATAL store store' done.
Proof.
  intros -> Hf. destruct (kept_fail store failure). split_and!; try done. intros _. by apply fail_fails.
Qed.

Lemma published_jobs_internal store s failure done :
  failure <> FAULTLINE_STORE_FAILURE_NONE ->
  published_jobs FAULTLINE_STORE_FATAL store (fail (store <| scratch := s |>) failure) done.
Proof.
  intros Hf. destruct (kept_fail (store <| scratch := s |>) failure). split_and!; try done.
  intros _. by apply fail_fails.
Qed.

Lemma published_jobs_unusable store done :
  negb (usable store) = true -> published_jobs FAULTLINE_STORE_FATAL store store done.
Proof. intros H. apply negb_true_iff in H. split_and!; try done. by apply unusable_failed. Qed.

Lemma commit_job_published store s id type world res store' world' (done : faultline_scheduler -> Prop) :
  commit_job os (store <| scratch := s |>) id type world = (res, store', world') ->
  (res = FAULTLINE_STORE_OK -> done s) -> published_jobs res store store' done.
Proof.
  intros E Hs. destruct (commit_job_shape _ _ _ _ _ _ _ E) as (Hw & Ho & [(-> & Hj & Hf)|(-> & Hj & Hf)]);
    split_and!; try done. cbn. rewrite Hj. auto.
Qed.

Lemma submit_shape store p now world res id store' world' :
  faultline_store_submit os store p now world = (res, id, store', world') ->
  published_jobs res store store' (fun s' => exists time i, id = Some i /\ time <= INT64_MAX /\
    faultline_scheduler_submit (jobs store) p time = (FAULTLINE_SCHEDULER_OK, Some i, s')).
Proof.
  unfold faultline_store_submit. destruct (negb (usable store)) eqn:Hu.
  { intros [= <- <- <- <-]. by apply published_jobs_unusable. }
  destruct (job_time store now) as [[time|] s1] eqn:Et.
  2:{ intros [= <- <- <- <-]. apply job_time_none in Et. by eapply published_jobs_fatal. }
  apply job_time_some in Et as [-> Ht].
  destruct (faultline_scheduler_submit (jobs store) p time) as [[r i] s'] eqn:Es.
  destruct r, i as [i|]; try (intros [= <- <- <- <-]; by apply published_jobs_internal || by split_and!).
  destruct (commit_job _ _ _ _ _) as [[cr s2] w2] eqn:Ec.
  destruct (commit_job_result _ _ _ _ _ _ _ _ Ec) as [-> | ->]; intros [= <- <- <- <-];
    (eapply commit_job_published; [done|try (intros ?; discriminate); eauto 10]).
Qed.

Lemma assign_shape store worker now world res out store' world' :
  faultline_store_assign os store worker now world = (res, out, store', world') ->
  published_jobs res store store' (fun s' => exists time m, out = Some m /\ time <= INT64_MAX /\
    alive_worker store worker = true /\
    faultline_scheduler_assign (jobs store) worker time = (FAULTLINE_SCHEDULER_OK, Some m, s')).
Proof.
  unfold faultline_store_assign. destruct (negb (usable store)) eqn:Hu.
  { intros [= <- <- <- <-]. by apply published_jobs_unusable. }
  destruct (alive_worker store worker) eqn:Ha; [|by intros [= <- <- <- <-]]. cbn.
  destruct (job_time store now) as [[time|] s1] eqn:Et.
  2:{ intros [= <- <- <- <-]. apply job_time_none in Et. by eapply published_jobs_fatal. }
  apply job_time_some in Et as [-> Ht].
  destruct (faultline_scheduler_assign (jobs store) worker time) as [[r m] s'] eqn:Es.
  destruct r, m as [m|]; try (intros [= <- <- <- <-]; by apply published_jobs_internal || by split_and!).
  destruct (commit_job _ _ _ _ _) as [[cr s2] w2] eqn:Ec.
  destruct (commit_job_result _ _ _ _ _ _ _ _ Ec) as [-> | ->]; intros [= <- <- <- <-];
    (eapply commit_job_published; [done|try (intros ?; discriminate); eauto 10]).
Qed.

Lemma report_shape store worker report now world res store' world' :
  faultline_store_report os store worker report now world = (res, store', world') ->
  published_jobs res store store' (fun s' => exists time, time <= INT64_MAX /\
    faultline_scheduler_report (jobs store) worker report time = (FAULTLINE_SCHEDULER_OK, s')).
Proof.
  unfold faultline_store_report. destruct (negb (usable store)) eqn:Hu.
  { intros [= <- <- <-]. by apply published_jobs_unusable. }
  destruct (alive_worker store worker); [|by intros [= <- <- <-]].
  destruct (faultline_scheduler_active _ _) as [active|]; [|by intros [= <- <- <-]].
  destruct (job_time store now) as [[time|] s1] eqn:Et.
  2:{ intros [= <- <- <-]. apply job_time_none in Et. by eapply published_jobs_fatal. }
  apply job_time_some in Et as [-> Ht].
  destruct (faultline_scheduler_report (jobs store) worker report time) as [r s'] eqn:Es.
  destruct r; try (intros [= <- <- <-]; by apply published_jobs_internal || by split_and!).
  intros Ec. eapply commit_job_published; [done|eauto].
Qed.

Lemma lost_shape store worker now world res store' world' :
  faultline_store_worker_lost os store worker now world = (res, store', world') ->
  published_jobs res store store' (fun s' => exists time, time <= INT64_MAX /\
    faultline_scheduler_worker_lost (jobs store) worker time = (FAULTLINE_SCHEDULER_OK, s')).
Proof.
  unfold faultline_store_worker_lost, commit_worker_loss. destruct (negb (usable store)) eqn:Hu.
  { intros [= <- <- <-]. by apply published_jobs_unusable. }
  destruct (faultline_scheduler_active _ _) as [active|]; [|by intros [= <- <- <-]].
  destruct (job_time store now) as [[time|] s1] eqn:Et.
  2:{ intros [= <- <- <-]. apply job_time_none in Et. by eapply published_jobs_fatal. }
  apply job_time_some in Et as [-> Ht].
  destruct (faultline_scheduler_worker_lost (jobs store) worker time) as [r s'] eqn:Es.
  destruct r; try (intros [= <- <- <-]; by apply published_jobs_internal).
  intros Ec. eapply commit_job_published; [done|eauto].
Qed.

Lemma register_shape store fd now world res id store' world' :
  faultline_store_register os store fd now world = (res, id, store', world') ->
  jobs store' = jobs store /\ opened store' = opened store /\
  match res with
  | FAULTLINE_STORE_OK => exists i, id = Some i /\ store_failure store' = store_failure store /\
      faultline_worker_register (store_workers store) fd now =
        (FAULTLINE_REGISTRY_OK, Some i, store_workers store')
  | FAULTLINE_STORE_FATAL =>
      id = None /\ store_workers store' = store_workers store /\
      (opened store = true -> store_failure store' <> FAULTLINE_STORE_FAILURE_NONE)
  | _ => id = None /\ store' = store /\ world' = world
  end.
Proof.
  unfold faultline_store_register. destruct (negb (usable store)) eqn:Hu.
  { intros [= <- <- <- <-]. apply negb_true_iff in Hu. split_and!; try done. by apply unusable_failed. }
  destruct (now <? 0).
  { intros [= <- <- <- <-]. destruct (kept_fail store FAULTLINE_STORE_FAILURE_CLOCK).
    split_and!; try done. intros _. by apply fail_fails. }
  destruct (faultline_worker_register _ _ _) as [[r i] r'] eqn:Er.
  destruct r, i as [i|]; try (by intros [= <- <- <- <-]).
  destruct (append os store _ world) as [[ar s1] w1] eqn:Ea.
  destruct (append_shape _ _ _ _ _ _ Ea) as ([Hj Hw Ho] & Hs & [[-> Hf]|[-> Hf]]);
    intros [= <- <- <- <-]; split_and!; try done. exists i. by split_and!.
Qed.

End Shapes.

Section StoreSteps.
Context {W : Type} (os : wal_os W) (net : net_os W).
Context {FIN : OsFinite os} {DISK : Disk os} {NET : Net net} {MACHINE : Machine os net}.

(** ** Sockets *)

Abbreviation quiet_world := (fun world world' => same_sockets (net_state net world) (net_state net world')).

Lemma retry_sockets {A} (call : os_call W A) world r world' :
  leaves_sockets net call -> retry os call world = (r, world') -> quiet_world world world'.
Proof.
  intros Hc. unfold retry. generalize (os_interrupts os world) as fuel. intros fuel.
  revert world. induction fuel as [|fuel IH]; intros world; cbn;
    destruct (call world) as [[v|e] w1] eqn:E; apply Hc in E; try (by intros [= <- <-]);
    destruct (e =? EINTR); try (by intros [= <- <-]).
  intros H. apply IH in H. by etrans.
Qed.

Lemma write_loop_sockets fuel writer bytes operation world r writer' world' :
  write_loop os fuel writer bytes operation world = (r, writer', world') -> quiet_world world world'.
Proof.
  revert bytes world. induction fuel as [|fuel IH]; intros bytes world; destruct bytes as [|b bytes];
    cbn [write_loop]; try (by intros [= <- <- <-]);
    destruct (io_write os (fd writer) (b :: bytes) world) as [[n|e] w1] eqn:E;
    apply (sockets_write os net) in E; cbn in E;
    repeat case_match; try (by intros [= <- <- <-]); intros Hrest; apply IH in Hrest; by etrans.
Qed.

Lemma writer_append_sockets writer record world r writer' world' :
  faultline_wal_writer_append os writer record world = (r, writer', world') -> quiet_world world world'.
Proof.
  unfold faultline_wal_writer_append. repeat (case_bool_decide; try by intros [= <- <- <-]). cbn.
  destruct (next_sequence writer =? 0); [by intros [= <- <- <-]|].
  destruct (_ =? _); [|by intros [= <- <- <-]]. cbn.
  destruct (faultline_wal_record_encode _ _) as [|bytes]; [by intros [= <- <- <-]|].
  destruct (write_all os writer bytes _ world) as [[wr w1] world1] eqn:Ew.
  apply write_loop_sockets in Ew. destruct wr; try by intros [= <- <- <-].
  unfold faultline_wal_writer_sync.
  destruct (retry os (io_sync os (fd w1)) world1) as [sr world2] eqn:Es.
  apply retry_sockets in Es; [|apply (sockets_sync os net)].
  destruct sr; intros [= <- <- <-]; by etrans.
Qed.

Lemma append_sockets store record world r store' world' :
  append os store record world = (r, store', world') -> quiet_world world world'.
Proof.
  unfold append. destruct (faultline_wal_writer_append _ _ _ _) as [[wr w1] world1] eqn:E.
  apply writer_append_sockets in E. destruct wr; by intros [= <- <- <-].
Qed.

Lemma commit_job_sockets store id type world r store' world' :
  commit_job os store id type world = (r, store', world') -> quiet_world world world'.
Proof.
  unfold commit_job. destruct (faultline_scheduler_find _ _); [|by intros [= <- <- <-]].
  destruct (append os store _ world) as [[ar s1] w1] eqn:E. apply append_sockets in E.
  destruct ar; by intros [= <- <- <-].
Qed.

Lemma run_store_op_sockets op store world store' world' :
  run_store_op os op store world = (store', world') -> quiet_world world world'.
Proof.
  destruct op as [fd now|p now|w now|w report now|w now|w fd now|w fd]; cbn.
  - unfold faultline_store_register. destruct (negb _); [by intros [= <- <-]|].
    destruct (now <? 0); [by intros [= <- <-]|].
    destruct (faultline_worker_register _ _ _) as [[r i] r'].
    destruct r, i as [i|]; try by intros [= <- <-].
    destruct (append os store _ world) as [[ar s1] w1] eqn:E. apply append_sockets in E.
    destruct ar; by intros [= <- <-].
  - unfold faultline_store_submit. destruct (negb _); [by intros [= <- <-]|].
    destruct (job_time store now) as [[time|] s1]; [|by intros [= <- <-]].
    destruct (faultline_scheduler_submit _ _ _) as [[r i] s'].
    destruct r, i as [i|]; try by intros [= <- <-].
    destruct (commit_job _ _ _ _ _) as [[cr s2] w2] eqn:E. apply commit_job_sockets in E.
    destruct cr; by intros [= <- <-].
  - unfold faultline_store_assign. destruct (negb _); [by intros [= <- <-]|].
    destruct (negb _); [by intros [= <- <-]|].
    destruct (job_time store now) as [[time|] s1]; [|by intros [= <- <-]].
    destruct (faultline_scheduler_assign _ _ _) as [[r m] s'].
    destruct r, m as [m|]; try by intros [= <- <-].
    destruct (commit_job _ _ _ _ _) as [[cr s2] w2] eqn:E. apply commit_job_sockets in E.
    destruct cr; by intros [= <- <-].
  - unfold faultline_store_report. destruct (negb _); [by intros [= <- <-]|].
    destruct (alive_worker _ _), (faultline_scheduler_active (jobs store) w); try by intros [= <- <-].
    destruct (job_time store now) as [[time|] s1]; [|by intros [= <- <-]].
    destruct (faultline_scheduler_report _ _ _ _) as [r s'].
    destruct r; try by intros [= <- <-].
    destruct (commit_job _ _ _ _ _) as [[cr s2] w2] eqn:E. apply commit_job_sockets in E.
    by intros [= <- <-].
  - unfold faultline_store_worker_lost, commit_worker_loss. destruct (negb _); [by intros [= <- <-]|].
    destruct (faultline_scheduler_active _ _); [|by intros [= <- <-]].
    destruct (job_time store now) as [[time|] s1]; [|by intros [= <- <-]].
    destruct (faultline_scheduler_worker_lost _ _ _) as [r s'].
    destruct r; try by intros [= <- <-].
    destruct (commit_job _ _ _ _ _) as [[cr s2] w2] eqn:E. apply commit_job_sockets in E.
    by intros [= <- <-].
  - by intros [= <- <-].
  - by intros [= <- <-].
Qed.

(** ** Soundness *)

(** The log leads to the published jobs, from a history that extends [recs]. *)
Record sound (recs : list faultline_wal_record) (store : faultline_coordinator_store) (world : W) : Prop := {
  sound_tracked : tracked os store world recs;
  sound_registry : registry_wf (store_workers store);
}.

Definition store_failed (store : faultline_coordinator_store) : Prop :=
  store_failure store <> FAULTLINE_STORE_FAILURE_NONE.

Lemma sound_opened recs store world : sound recs store world -> opened store = true.
Proof. by intros [[Ho _] _]. Qed.

Lemma sound_sched recs store world : sound recs store world -> sched_wf (jobs store).
Proof.
  intros [[_ (recs' & st & rs & _ & [H|H])] _].
  - destruct (published_inv _ _ _ _ _ _ H). rewrite (pub_jobs _ _ _ _ _ _ H). done.
  - rewrite (halt_jobs _ _ _ _ _ _ H). by destruct (log_history_inv _ _ _ (halt_history _ _ _ _ _ _ H)).
Qed.
(** The history of the log, up to now. *)
Lemma sound_now recs store world :
  sound recs store world ->
  exists recs' st rs, recs `prefix_of` recs' /\ sound recs' store world /\
    log_history recs' st rs /\ jobs store = rs_scheduler st.
Proof.
  intros [[Ho (recs' & st & rs & Hp & H)] Hr]. exists recs', st, rs. split_and!; [done| | |].
  - split; [|done]. split; [done|]. by exists recs', st, rs.
  - destruct H as [H|H]; apply H.
  - destruct H as [H|H]; apply H.
Qed.

Lemma tracked_calm recs store world world' :
  tracked os store world recs -> same_disk os world world' -> tracked os store world' recs.
Proof.
  intros [Ho (recs' & st & rs & Hp & H)] [Hv Hc]. split; [done|]. exists recs', st, rs. split; [done|].
  assert (forall c, settled os world c -> settled os world' c) as Hset.
  { intros c [Hx Hy]. split; [by rewrite Hv|auto]. }
  destruct H as [H|H]; [left|right].
  - destruct H as [(? & [Hf Hd] & Hs)]. split; try done. split_and!; [done| |auto].
    by split; rewrite Hv.
  - destruct H as [? ? ? Hdoubt]. split; try done. destruct Hdoubt as [Hs|(r & st' & rs' & Hh & [Hk Ht])].
    + left. auto.
    + right. exists r, st', rs'. split; [done|]. split; [by rewrite Hv|auto].
Qed.

Lemma sound_calm recs store world world' :
  sound recs store world -> same_disk os world world' -> sound recs store world'.
Proof. intros [Ht Hr] Hd. split; [by eapply tracked_calm|done]. Qed.

(** ** Steps of the store *)

Record store_step (recs : list faultline_wal_record) (store : faultline_coordinator_store) (world : W)
    (store' : faultline_coordinator_store) (world' : W) : Prop := {
  step_sound : sound recs store' world';
  step_sockets : quiet_world world world';
  step_failed : store_failed store -> store_failed store';
  step_found id : faultline_scheduler_find (jobs store) id <> None ->
    faultline_scheduler_find (jobs store') id <> None;
}.

Lemma store_step_calm recs store world world' :
  sound recs store world -> calm os net world world' -> store_step recs store world store world'.
Proof. intros Hs [Hd Hn]. split; try done. by eapply sound_calm. Qed.

Lemma store_step_trans recs store world store1 world1 store2 world2 :
  store_step recs store world store1 world1 -> store_step recs store1 world1 store2 world2 ->
  store_step recs store world store2 world2.
Proof. intros [] []. split; auto. by etrans. Qed.

Lemma run_op_found op s s' r id :
  sched_wf s -> op_typed op -> run_op s op = (r, s') ->
  faultline_scheduler_find s id <> None -> faultline_scheduler_find s' id <> None.
Proof.
  intros Hs Ht E Hf. pose proof (run_op_ok s op Hs Ht) as H. rewrite E in H.
  destruct H as (Hs' & He & _). destruct (faultline_scheduler_find s id) as [j|] eqn:Ej; [|done].
  destruct (effect_find s s' id j Hs Hs' He Ej) as (n & j' & -> & _). done.
Qed.

Lemma run_op_tracked op recs store world store' world' :
  sound recs store world -> store_op_typed op -> run_store_op os op store world = (store', world') ->
  tracked os store' world' recs.
Proof.
  intros [Ht _] Hop E. assert (Forall store_op_typed [op]) as H by (by constructor).
  apply (run_store_tracked os _ _ _ _ Ht) in H. cbn in H. by rewrite E in H.
Qed.

(** An operation of the store that runs an operation of the scheduler. *)
Lemma published_step recs store world store' world' res sop done :
  sound recs store world -> store_op_typed sop -> run_store_op os sop store world = (store', world') ->
  published_jobs res store store' done ->
  (forall s', done s' -> exists r op, op_typed op /\ run_op (jobs store) op = (r, s')) ->
  store_step recs store world store' world'.
Proof.
  intros Hs Ht E Hp Hd. pose proof (run_op_tracked _ _ _ _ _ _ Hs Ht E) as Htr.
  destruct Hp as (Hw & Ho & H). split.
  - split; [done|]. rewrite Hw. apply Hs.
  - by eapply run_store_op_sockets.
  - unfold store_failed. intros Hf. destruct res; try (destruct H as [_ H]); try (by rewrite H).
    apply H. by eapply sound_opened.
  - intros id Hf. destruct res; try (destruct H as [-> _]; done).
    destruct H as [H _]. destruct (Hd _ H) as (r & op & Hop & Er). eapply run_op_found; [|done..].
    by eapply sound_sched.
Qed.

Lemma alive_live_at store worker :
  alive_worker store worker = true <-> live_at (store_workers store) worker <> None.
Proof.
  unfold alive_worker, live_at. destruct (faultline_worker_find _ _) as [w|]; [|done].
  by case_bool_decide.
Qed.

Lemma live_at_u32 recs store world worker :
  sound recs store world -> live_at (store_workers store) worker <> None -> in_u32 worker.
Proof.
  intros [_ Hr] H. destruct (live_at _ worker) as [fd|] eqn:E; [|done].
  apply live_at_some in E as (k & w & Hk & Ha & <- & _); [|done]. apply list_elem_of_lookup_2 in Hk.
  destruct (reg_ids _ Hr w Hk (used_alive w Ha)) as (? & _). unfold in_u32, UINT32_MAX in *. lia.
Qed.

Lemma submit_step recs store world p now res id store' world' :
  sound recs store world -> submit_typed p ->
  faultline_store_submit os store p now world = (res, id, store', world') ->
  store_step recs store world store' world' /\ store_workers store' = store_workers store /\
  (forall w, busy (jobs store') w -> busy (jobs store) w) /\
  match res with
  | FAULTLINE_STORE_OK => (exists i, id = Some i /\ faultline_scheduler_find (jobs store') i <> None) /\
      store_failure store' = store_failure store
  | FAULTLINE_STORE_FATAL => store_failed store'
  | _ => jobs store' = jobs store /\ store_failure store' = store_failure store
  end.
Proof.
  intros Hs Hp E. pose proof (sound_sched _ _ _ Hs) as Hsch.
  pose proof (submit_shape os _ _ _ _ _ _ _ _ E) as Hsh.
  assert (run_store_op os (StoreSubmit p now) store world = (store', world')) as Erun by (cbn; by rewrite E).
  split_and!.
  - eapply (published_step _ _ _ _ _ _ (StoreSubmit p now)); [done|done|done|done|].
    intros s' (time & i & _ & Htime & Es). exists FAULTLINE_SCHEDULER_OK, (OpSubmit p time).
    split; [by split|]. cbn. by rewrite Es.
  - apply Hsh.
  - intros w Hb. destruct Hsh as (_ & _ & Hsh). destruct res; try (destruct Hsh as [Hj _]; by rewrite Hj in Hb).
    destruct Hsh as [(time & i & -> & Htime & Es) _].
    pose proof (submit_ok (jobs store) p time Hsch Hp Htime) as H. rewrite Es in H.
    destruct H as [(_ & [= ->] & Hn & Hl & Hc & Hi & Hwf)|(? & _)]; [|done].
    eapply busy_append; [done| |done]. rewrite submitted_fields by done. done.
  - destruct Hsh as (_ & _ & Hsh). destruct res; try done.
    + destruct Hsh as [(time & i & -> & Htime & Es) Hf]. split; [|done]. exists i. split; [done|].
      pose proof (submit_ok (jobs store) p time Hsch Hp Htime) as H. rewrite Es in H.
      destruct H as [(_ & [= ->] & Hn & Hl & Hc & Hi & Hwf)|(? & _)]; [|done].
      rewrite (proj2 (find_some (jobs store') (next_job_id (jobs store)) (submitted_job (jobs store) p time) Hwf));
        [done|].
      split_and!; [done| |by rewrite submitted_fields by done]. rewrite Hl. set_solver.
    + apply Hsh. by eapply sound_opened.
Qed.
Lemma assign_step recs store world worker now res out store' world' :
  sound recs store world ->
  faultline_store_assign os store worker now world = (res, out, store', world') ->
  store_step recs store world store' world' /\ store_workers store' = store_workers store /\
  (forall w, busy (jobs store') w -> busy (jobs store) w \/ w = worker) /\
  match res with
  | FAULTLINE_STORE_OK =>
      store_failure store' = store_failure store /\ live_at (store_workers store) worker <> None /\
      exists j, out = Some (assignment_message j worker) /\
        faultline_scheduler_active (jobs store') worker = Some j
  | FAULTLINE_STORE_FATAL => store_failed store'
  | _ => jobs store' = jobs store /\ store_failure store' = store_failure store
  end.
Proof.
  intros Hs E. pose proof (sound_sched _ _ _ Hs) as Hsch.
  pose proof (assign_shape os _ _ _ _ _ _ _ _ E) as Hsh.
  assert (run_store_op os (StoreAssign worker now) store world = (store', world')) as Erun
    by (cbn; by rewrite E).
  assert (forall s', (exists time m, out = Some m /\ time <= INT64_MAX /\ alive_worker store worker = true /\
    faultline_scheduler_assign (jobs store) worker time = (FAULTLINE_SCHEDULER_OK, Some m, s')) ->
    in_u32 worker /\ live_at (store_workers store) worker <> None /\
    exists slot j c q, live (jobs store) !! slot = Some j /\ s' = replace_job (jobs store) slot c q /\
      active_job c /\ worker_id c = worker /\ sched_wf s' /\ worker <> 0 /\
      out = Some (assignment_message c worker)) as Hcase.
  { intros s' (time & m & -> & Htime & Ha & Es). apply alive_live_at in Ha.
    pose proof (live_at_u32 _ _ _ _ Hs Ha) as Hu. split_and!; [done|done|].
    pose proof (assign_ok (jobs store) worker time Hsch Hu Htime) as H. rewrite Es in H.
    destruct H as [(id & rest & slot & j & q & _ & Hw & _ & _ & _ & Hl & _ & _ & Hok & [= ->] & -> & _ & Hwf)|(? & _)];
      [|done].
    revert Es Hwf Hok. destruct (faultline_job_assign j worker time) as [r c] eqn:Ej. cbn. intros _ Hwf ->.
    apply job_assign_ok in Ej as (_ & _ & _ & _ & Hc). exists slot, j, c, q.
    split_and!; try done; by rewrite Hc. }
  split_and!.
  - eapply (published_step _ _ _ _ _ _ (StoreAssign worker now)); [done|done|done|done|].
    intros s' Hd. destruct (Hcase s' Hd) as (Hu & _). destruct Hd as (time & m & _ & Htime & _ & Es).
    exists FAULTLINE_SCHEDULER_OK, (OpAssign worker time). split; [by split|]. cbn. by rewrite Es.
  - apply Hsh.
  - intros w Hb. destruct Hsh as (_ & _ & Hsh). destruct res;
      try (destruct Hsh as [Hj _]; left; by rewrite Hj in Hb).
    destruct (Hcase _ (proj1 Hsh)) as (_ & _ & slot & j & c & q & Hl & Hr & Ha & Hw & _). rewrite Hr in Hb.
    destruct (busy_replace _ _ _ _ _ _ Hsch Hl Hb) as [[_ Hcw]|[Hb' _]]; [right; congruence|by left].
  - destruct Hsh as (_ & _ & Hsh). destruct res; try done.
    + destruct Hsh as [Hd Hf]. split; [done|].
      destruct (Hcase _ Hd) as (_ & Hlv & slot & j & c & q & Hl & Hr & Ha & Hw & Hwf & Hw0 & ->).
      split; [done|]. exists c. split; [done|].
      destruct (live_jobs _ _ _ Hsch Hl) as (Hlt & _).
      assert (live (jobs store') !! slot = Some c) as Hc.
      { rewrite Hr, live_replace by done. apply list_lookup_insert_eq. rewrite live_length by done. lia. }
      destruct (faultline_scheduler_active (jobs store') worker) as [c'|] eqn:Ea.
      * apply active_some in Ea as (_ & Ha' & Hw' & slot' & Hc'). f_equal.
        assert (slot' = slot) as -> by (eapply (sched_one_active _ Hwf); eauto; congruence). congruence.
      * apply active_none in Ea as [|Ea]; [done|]. destruct (Ea c); [|done..]. by eapply list_elem_of_lookup_2.
    + apply Hsh. by eapply sound_opened.
Qed.
Lemma report_step recs store world worker report now res store' world' :
  sound recs store world -> report_typed report ->
  faultline_store_report os store worker report now world = (res, store', world') ->
  store_step recs store world store' world' /\ store_workers store' = store_workers store /\
  (forall w, busy (jobs store') w -> busy (jobs store) w) /\
  match res with
  | FAULTLINE_STORE_FATAL => store_failed store'
  | _ => store_failure store' = store_failure store
  end.
Proof.
  intros Hs Hp E. pose proof (sound_sched _ _ _ Hs) as Hsch.
  pose proof (report_shape os _ _ _ _ _ _ _ _ E) as Hsh.
  assert (run_store_op os (StoreReport worker report now) store world = (store', world')) as Erun
    by (cbn; by rewrite E).
  split_and!.
  - eapply (published_step _ _ _ _ _ _ (StoreReport worker report now)); [done|done|done|done|].
    intros s' (time & Htime & Es). exists FAULTLINE_SCHEDULER_OK, (OpReport worker report time).
    by split; [split|].
  - apply Hsh.
  - intros w Hb. destruct Hsh as (_ & _ & Hsh). destruct res; try (destruct Hsh as [Hj _]; by rewrite Hj in Hb).
    destruct Hsh as [(time & Htime & Es) _].
    pose proof (report_ok (jobs store) worker report time Hsch Htime Hp) as H. rewrite Es in H.
    destruct H as [(i & slot & j & c & q & _ & Hw & _ & _ & _ & Hl & _ & Hap & Hr & _)|(_ & Hbad & _)];
      [|by destruct Hbad].
    apply apply_report_ok in Hap as (_ & Haj & _ & Hcw & _). rewrite Hr in Hb.
    destruct (busy_replace _ _ _ _ _ _ Hsch Hl Hb) as [[Hac Hw']|[Hb' _]]; [|done].
    rewrite (Hcw Hac) in Hw'. apply busy_spec. split; [|by exists slot, j].
    intros ->. destruct (live_jobs _ _ _ Hsch Hl) as (_ & _ & Hwf). by apply (active_worker j Hwf Haj).
  - destruct Hsh as (_ & _ & Hsh). destruct res; try apply Hsh. by eapply sound_opened.
Qed.

Lemma lost_step recs store world worker now res store' world' :
  sound recs store world ->
  faultline_store_worker_lost os store worker now world = (res, store', world') ->
  store_step recs store world store' world' /\ store_workers store' = store_workers store /\
  (forall w, busy (jobs store') w -> busy (jobs store) w) /\
  match res with
  | FAULTLINE_STORE_OK => ~ busy (jobs store') worker /\ store_failure store' = store_failure store
  | FAULTLINE_STORE_FATAL => store_failed store'
  | _ => jobs store' = jobs store /\ store_failure store' = store_failure store
  end.
Proof.
  intros Hs E. pose proof (sound_sched _ _ _ Hs) as Hsch.
  pose proof (lost_shape os _ _ _ _ _ _ _ E) as Hsh.
  assert (run_store_op os (StoreLost worker now) store world = (store', world')) as Erun
    by (cbn; by rewrite E).
  assert (forall s', (exists time, time <= INT64_MAX /\
    faultline_scheduler_worker_lost (jobs store) worker time = (FAULTLINE_SCHEDULER_OK, s')) ->
    forall w, busy s' w -> busy (jobs store) w /\ w <> worker) as Hcase.
  { intros s' (time & Htime & Es) w Hb.
    pose proof (worker_lost_ok (jobs store) worker time Hsch Htime) as H. rewrite Es in H.
    destruct H as [(slot & j & q & _ & Hw & _ & Ha & Hl & _ & _ & Hr & _)|(_ & Hbad)]; [|by destruct_or!; destruct_and!].
    apply active_some in Ha as (_ & Haj & Hjw & _). rewrite Hr in Hb.
    destruct (busy_replace _ _ _ _ _ _ Hsch Hl Hb) as [[Hac _]|[Hb' Hne]].
    - by destruct (failed_inactive _ _ _ Hac).
    - split; [done|]. specialize (Hne Haj). congruence. }
  split_and!.
  - eapply (published_step _ _ _ _ _ _ (StoreLost worker now)); [done|done|done|done|].
    intros s' (time & Htime & Es). exists FAULTLINE_SCHEDULER_OK, (OpLost worker time). by split; [split|].
  - apply Hsh.
  - intros w Hb. destruct Hsh as (_ & _ & Hsh). destruct res; try (destruct Hsh as [Hj _]; by rewrite Hj in Hb).
    by destruct (Hcase _ (proj1 Hsh) w Hb).
  - destruct Hsh as (_ & _ & Hsh). destruct res; try done.
    + split; [|apply Hsh]. intros Hb. by destruct (Hcase _ (proj1 Hsh) _ Hb).
    + apply Hsh. by eapply sound_opened.
Qed.

Lemma register_step recs store world fd now res id store' world' :
  sound recs store world ->
  faultline_store_register os store fd now world = (res, id, store', world') ->
  store_step recs store world store' world' /\ jobs store' = jobs store /\
  match res with
  | FAULTLINE_STORE_OK => exists i, id = Some i /\ store_failure store' = store_failure store /\
      live_at (store_workers store) i = None /\ 0 < i <= UINT32_MAX /\
      (forall k, live_at (store_workers store') k = if k =? i then Some fd else live_at (store_workers store) k) /\
      (forall k, live_at (store_workers store) k <> Some fd) /\ 0 <= now /\
      (forall t, beats store t -> now <= t -> beats store' t)
  | FAULTLINE_STORE_FATAL =>
      id = None /\ store_workers store' = store_workers store /\ store_failed store'
  | _ => id = None /\ store' = store
  end.
Proof.
  intros Hs E. pose proof (register_shape os _ _ _ _ _ _ _ _ E) as (Hj & Ho & Hsh).
  assert (run_store_op os (StoreRegister fd now) store world = (store', world')) as Erun by (cbn; by rewrite E).
  pose proof (run_op_tracked (StoreRegister fd now) _ _ _ _ _ Hs I Erun) as Htr.
  pose proof (sound_registry _ _ _ Hs) as Hr. split_and!; [|done|].
  - split; [split; [done|]| | |by rewrite Hj].
    + destruct res; [|destruct Hsh as (_ & -> & _)..|destruct Hsh as (_ & -> & _)]; try done.
      destruct Hsh as (i & _ & _ & Er). by eapply register_wf.
    + by eapply run_store_op_sockets.
    + unfold store_failed. destruct res; [destruct Hsh as (i & _ & -> & _)|destruct Hsh as (_ & -> & _)..|]; try done.
      intros _. apply Hsh. by eapply sound_opened.
  - destruct res; [|by destruct Hsh as (? & ? & _)..|].
    + destruct Hsh as (i & -> & Hf & Er). exists i.
      destruct (live_at_register _ _ _ _ _ Hr Er) as (? & ? & ? & ? & ? & Hnew). split_and!; try done; try lia.
      intros t Hb Ht w Hw Hu. destruct (Hnew w Hw) as [Hold|Hold]; [by apply Hb|lia].
    + destruct Hsh as (? & ? & Hf). split_and!; try done. apply Hf. by eapply sound_opened.
Qed.

(** The two operations of the registry that the log does not record. *)
Lemma registry_step recs store world op :
  sound recs store world ->
  (exists w fd now, op = StoreHeartbeat w fd now) \/ (exists w fd, op = StoreDisconnect w fd) ->
  store_step recs store world (fst (run_store_op os op store world)) world.
Proof.
  intros Hs Hop. assert (store_op_typed op) as Ht by (destruct Hop as [(?&?&?&->)|(?&?&->)]; done).
  pose proof (run_op_tracked _ _ _ _ _ _ Hs Ht (surjective_pairing _)) as Htr.
  destruct Hop as [(w & fd & now & ->)|(w & fd & ->)]; cbn in *; (split; [split; [done|]|done|done|done]).
  - by apply heartbeat_wf, Hs.
  - by apply mark_dead_wf, Hs.
Qed.

End StoreSteps.
