(* ===== verification/Client.v ===== *)
(** The connections of the coordinator: lines 1-481 of [src/coordinator/main.c].

    A client is a connection with its partly received request and partly sent reply. The
    buffers are lists of the bytes in use: [received] is the length of the input and
    [output_size] that of the output. A handler takes the client, the store and the world
    and returns them. The clock is read where the code reads it. Log records are printed
    with their text; enumerators appear in them as numbers. *)

From S2P Require Import Prelude Text Job JobQueue WorkerRegistry Protocol Scheduler Wal WalWriter.
From S2P Require Import WalReplay CoordinatorStore CoordinatorStats Net Log.

(** ** Types *)

Definition MAX_CLIENTS : nat := 64.
Definition CLIENT_FRAME_CAPACITY : Z := FAULTLINE_MESSAGE_MAX_FRAME_SIZE.

Inductive client_phase := READING_MESSAGE | WRITING_REPLY.

#[export] Instance client_phase_eq_dec : EqDecision client_phase.
Proof. solve_decision. Defined.

Record client := mk_client {
  cl_fd : Z;
  cl_phase : client_phase;
  cl_worker_id : Z;
  cl_job_client : bool;
  cl_input : list Z;
  cl_expected : Z;
  cl_output : list Z;
  cl_sent : Z;
  cl_reply_type : Z;
  cl_last_progress_ms : Z;
}.

Definition cl_received (client : client) : Z := Z.of_nat (length (cl_input client)).
Definition cl_output_size (client : client) : Z := Z.of_nat (length (cl_output client)).

#[export] Instance set_cl_fd : Setter cl_fd := fun v c =>
  mk_client v (cl_phase c) (cl_worker_id c) (cl_job_client c) (cl_input c) (cl_expected c) (cl_output c)
    (cl_sent c) (cl_reply_type c) (cl_last_progress_ms c).
#[export] Instance set_cl_phase : Setter cl_phase := fun v c =>
  mk_client (cl_fd c) v (cl_worker_id c) (cl_job_client c) (cl_input c) (cl_expected c) (cl_output c)
    (cl_sent c) (cl_reply_type c) (cl_last_progress_ms c).
#[export] Instance set_cl_worker_id : Setter cl_worker_id := fun v c =>
  mk_client (cl_fd c) (cl_phase c) v (cl_job_client c) (cl_input c) (cl_expected c) (cl_output c)
    (cl_sent c) (cl_reply_type c) (cl_last_progress_ms c).
#[export] Instance set_cl_job_client : Setter cl_job_client := fun v c =>
  mk_client (cl_fd c) (cl_phase c) (cl_worker_id c) v (cl_input c) (cl_expected c) (cl_output c)
    (cl_sent c) (cl_reply_type c) (cl_last_progress_ms c).
#[export] Instance set_cl_input : Setter cl_input := fun v c =>
  mk_client (cl_fd c) (cl_phase c) (cl_worker_id c) (cl_job_client c) v (cl_expected c) (cl_output c)
    (cl_sent c) (cl_reply_type c) (cl_last_progress_ms c).
#[export] Instance set_cl_expected : Setter cl_expected := fun v c =>
  mk_client (cl_fd c) (cl_phase c) (cl_worker_id c) (cl_job_client c) (cl_input c) v (cl_output c)
    (cl_sent c) (cl_reply_type c) (cl_last_progress_ms c).
#[export] Instance set_cl_output : Setter cl_output := fun v c =>
  mk_client (cl_fd c) (cl_phase c) (cl_worker_id c) (cl_job_client c) (cl_input c) (cl_expected c) v
    (cl_sent c) (cl_reply_type c) (cl_last_progress_ms c).
#[export] Instance set_cl_sent : Setter cl_sent := fun v c =>
  mk_client (cl_fd c) (cl_phase c) (cl_worker_id c) (cl_job_client c) (cl_input c) (cl_expected c)
    (cl_output c) v (cl_reply_type c) (cl_last_progress_ms c).
#[export] Instance set_cl_reply_type : Setter cl_reply_type := fun v c =>
  mk_client (cl_fd c) (cl_phase c) (cl_worker_id c) (cl_job_client c) (cl_input c) (cl_expected c)
    (cl_output c) (cl_sent c) v (cl_last_progress_ms c).
#[export] Instance set_cl_last_progress_ms : Setter cl_last_progress_ms := fun v c =>
  mk_client (cl_fd c) (cl_phase c) (cl_worker_id c) (cl_job_client c) (cl_input c) (cl_expected c)
    (cl_output c) (cl_sent c) (cl_reply_type c) v.

(** ** Names and numbers in log records *)

Definition job_state_name (state : faultline_job_state) : list Z :=
  match state with
  | FAULTLINE_JOB_QUEUED => text "QUEUED"
  | FAULTLINE_JOB_ASSIGNED => text "ASSIGNED"
  | FAULTLINE_JOB_RUNNING => text "RUNNING"
  | FAULTLINE_JOB_DONE => text "DONE"
  | FAULTLINE_JOB_FAILED => text "FAILED"
  | JOB_STATE_OTHER _ => text "INVALID"
  end.

Definition failure_name (failure : faultline_job_failure) : list Z :=
  match failure with
  | FAULTLINE_JOB_FAILURE_NONE => text "NONE"
  | FAULTLINE_JOB_FAILURE_TASK => text "TASK"
  | FAULTLINE_JOB_FAILURE_WORKER_LOST => text "WORKER_LOST"
  | JOB_FAILURE_OTHER _ => text "INVALID"
  end.

Definition task_name (task : faultline_task_type) : list Z :=
  match task with
  | FAULTLINE_TASK_SLEEP => text "sleep"
  | FAULTLINE_TASK_PRIME_COUNT => text "prime_count"
  | FAULTLINE_TASK_FIBONACCI => text "fibonacci"
  | FAULTLINE_TASK_HASH => text "hash"
  | TASK_TYPE_OTHER _ => text "INVALID"
  end.

Definition registry_code : faultline_registry_result -> Z :=
  enum_code [FAULTLINE_REGISTRY_OK; FAULTLINE_REGISTRY_INVALID_ARGUMENT;
    FAULTLINE_REGISTRY_ALREADY_REGISTERED; FAULTLINE_REGISTRY_FULL; FAULTLINE_REGISTRY_ID_EXHAUSTED;
    FAULTLINE_REGISTRY_NOT_FOUND; FAULTLINE_REGISTRY_NOT_ALIVE;
    FAULTLINE_REGISTRY_CONNECTION_MISMATCH].

Definition store_code : faultline_store_result -> Z :=
  enum_code [FAULTLINE_STORE_OK; FAULTLINE_STORE_REJECTED; FAULTLINE_STORE_EMPTY;
    FAULTLINE_STORE_FATAL].

(** ** Log records *)

Definition job_outcome (event : list Z) (job : faultline_job) : list Z :=
  if text_eqb event (text "job_recovered") then text "RESTORED"
  else if text_eqb event (text "job_failed") || text_eqb event (text "job_worker_lost") then
    (if bool_decide (job_state job = FAULTLINE_JOB_QUEUED) then text "REQUEUED" else text "FAILED")
  else if bool_decide (job_state job = FAULTLINE_JOB_QUEUED) then text "ACCEPTED"
  else if bool_decide (job_state job = FAULTLINE_JOB_DONE) then text "COMPLETED"
  else job_state_name (job_state job).

Definition job_fields (event : list Z) (job : faultline_job) (store : faultline_coordinator_store)
    (previous_worker_id : Z) : list Z :=
  let done := bool_decide (job_state job = FAULTLINE_JOB_DONE) in
  let escaped :=
    if done then
      default (text "<unavailable>")
        (faultline_log_escape (4 * FAULTLINE_JOB_MAX_RESULT_SIZE + 1) (result job))
    else [] in
  fields [field "job_id" (print_uint (job_id job)); field "state" (job_state_name (job_state job));
    field "worker_id" (print_uint (worker_id job)); field "attempt" (print_uint (attempt job));
    field "retry_count" (print_uint (retry_count job));
    field "pending" (print_uint (Z.of_nat (queue_count (pending (jobs store)))));
    field "result_bytes" (print_uint (result_size job)); field "task" (task_name (task_type job));
    field "max_retries" (print_uint (max_retries job)); field "failure" (failure_name (failure job));
    field "outcome" (job_outcome event job);
    field "previous_worker_id" (print_uint previous_worker_id); text "durable=1";
    field "wal_sequence" (print_uint (synced_sequence (wal store)))] ++
  (if done then text " result=" ++ quote else []) ++ escaped ++ (if done then quote else []).

Section Client.
Context {W : Type} (os : wal_os W) (net : net_os W).

(** A record of the coordinator; whether it could be written is ignored. *)
Definition log (s : stream) (level : list Z) (event : string) (body : option (list Z)) (world : W) : W :=
  snd (faultline_log net s level (text "coordinator") (text event) body world).
Arguments log s level event%_string body world.

Definition log_error (level : list Z) (operation : string) (error : Z) (world : W) : W :=
  faultline_log_error net level (text "coordinator") (text operation) error world.
Arguments log_error level operation%_string error world.

Definition log_job (event : string) (job : faultline_job) (store : faultline_coordinator_store)
    (previous_worker_id : Z) (world : W) : W :=
  let failed_attempt :=
    text_eqb (text event) (text "job_failed") || text_eqb (text event) (text "job_worker_lost") in
  log stdout (if failed_attempt then WARN else INFO) event
    (Some (job_fields (text event) job store previous_worker_id)) world.
Arguments log_job event%_string job store previous_worker_id world.

(** The record that the code reads through the pointer of a successful search. *)
Definition found_job (store : faultline_coordinator_store) (id : Z) : faultline_job :=
  default zero_job (faultline_scheduler_find (jobs store) id).

(** ** Closing *)

(** The loss of the worker's job, when the store still works. *)
Definition release_job (client : client) (store : faultline_coordinator_store) (world : W) :
    faultline_coordinator_store * W :=
  match faultline_scheduler_active (jobs store) (cl_worker_id client) with
  | Some active =>
      if bool_decide (store_failure store = FAULTLINE_STORE_FAILURE_NONE) then
        let '(now, world) := faultline_monotonic_ms net world in
        match faultline_store_worker_lost os store (cl_worker_id client) now world with
        | (FAULTLINE_STORE_OK, store, world) =>
            (store, log_job "job_worker_lost" (found_job store (job_id active)) store
                      (cl_worker_id client) world)
        | (_, store, world) => (store, world)
        end
      else (store, world)
  | None => (store, world)
  end.

Definition detach_worker (client : client) (store : faultline_coordinator_store) (reason : list Z)
    (world : W) : faultline_coordinator_store * W :=
  let '(result, registry) :=
    faultline_worker_mark_dead (store_workers store) (cl_worker_id client) (cl_fd client) in
  let store := store <| store_workers := registry |> in
  match result with
  | FAULTLINE_REGISTRY_OK =>
      let worker := default inhabitant (faultline_worker_find registry (cl_worker_id client)) in
      (store,
       log stdout WARN "worker_dead"
         (Some (fields [field "worker_id" (print_uint (w_id worker)); field "fd" (print_int (cl_fd client));
            text "state=DEAD"; field "last_heartbeat_ms" (print_int (w_last_heartbeat_ms worker));
            field "reason" reason])) world)
  | _ =>
      (store, log stderr ERROR "registry_disconnect_failed"
                (Some (field "code" (print_int (registry_code result)))) world)
  end.

Definition close_client (client : client) (store : faultline_coordinator_store) (reason : string)
    (world : W) : Client.client * faultline_coordinator_store * W :=
  let '(store, world) :=
    if cl_worker_id client !=? FAULTLINE_WORKER_ID_UNASSIGNED then
      let '(store, world) := release_job client store world in
      detach_worker client store (text reason) world
    else (store, world) in
  let world :=
    log stdout (if text_eqb (text reason) (text "eof") then INFO else WARN) "client_closed"
      (Some (fields [field "fd" (print_int (cl_fd client));
         field "worker_id" (print_uint (cl_worker_id client)); field "reason" (text reason)])) world in
  let world := os_close net (cl_fd client) world in
  (client <| cl_fd := -1 |> <| cl_worker_id := FAULTLINE_WORKER_ID_UNASSIGNED |>, store, world).
Arguments close_client client store reason%_string world.

Definition reset_input (client : client) : Client.client :=
  client <| cl_input := [] |> <| cl_expected := FAULTLINE_HEADER_SIZE |>
         <| cl_phase := READING_MESSAGE |>.

(** ** Replies *)

(** The clock value passed by the callers is replaced before it is used. *)
Definition queue_message (client : client) (store : faultline_coordinator_store)
    (message : faultline_message) (world : W) : Client.client * faultline_coordinator_store * W :=
  match faultline_message_encode CLIENT_FRAME_CAPACITY message with
  | inl _ =>
      let world := log stderr ERROR "message_encode_failed"
        (Some (text "message=" ++ quote ++ text "could not encode message" ++ quote)) world in
      close_client client store "encode_error" world
  | inr frame =>
      let client := client <| cl_output := frame |> in
      let '(now, world) := faultline_monotonic_ms net world in
      if now <? 0 then close_client client store "clock_error" world
      else
        (client <| cl_sent := 0 |> <| cl_reply_type := message_type message |>
                <| cl_last_progress_ms := now |> <| cl_phase := WRITING_REPLY |>, store, world)
  end.

Definition compare_job_summaries (left right : faultline_job_summary) : Z :=
  let a := js_job_id left in let b := js_job_id right in
  (if b <? a then 1 else 0) - (if a <? b then 1 else 0).

Definition compare_worker_summaries (left right : faultline_worker_summary) : Z :=
  let a := ws_worker_id left in let b := ws_worker_id right in
  (if b <? a then 1 else 0) - (if a <? b then 1 else 0).

(** [qsort] with a comparison that orders the elements: insertion into the sorted rest. *)
Fixpoint insert_sorted {A} (compare : A -> A -> Z) (x : A) (l : list A) : list A :=
  match l with
  | [] => [x]
  | y :: l' => if compare x y <=? 0 then x :: l else y :: insert_sorted compare x l'
  end.

Fixpoint qsort {A} (compare : A -> A -> Z) (l : list A) : list A :=
  match l with
  | [] => []
  | x :: l => insert_sorted compare x (qsort compare l)
  end.

Definition job_summary (job : faultline_job) : faultline_job_summary := {|
  js_job_id := job_id job;
  js_task_type := u16 (task_type_value (task_type job));
  js_state := u16 (job_state_value (job_state job));
  js_worker_id := worker_id job;
  js_attempt := attempt job;
  js_retry_count := retry_count job;
  js_max_retries := max_retries job;
  js_failure := u16 (job_failure_value (failure job));
  js_result_size := u32 (result_size job);
|}.

Definition worker_summary (scheduler : faultline_scheduler) (now : Z) (worker : faultline_worker) :
    faultline_worker_summary :=
  let alive := bool_decide (w_state worker = FAULTLINE_WORKER_ALIVE) in
  let active := if alive then faultline_scheduler_active scheduler (w_id worker) else None in
  {| ws_worker_id := w_id worker;
     ws_state := if alive then FAULTLINE_WORKER_VIEW_ALIVE else FAULTLINE_WORKER_VIEW_DEAD;
     ws_heartbeat_age_ms := u64 (now - w_last_heartbeat_ms worker);
     ws_job_id := match active with None => 0 | Some job => job_id job end;
     ws_attempt := match active with None => 0 | Some job => attempt job end |}.

(** The entries of the registry, in slot order; [None] is the early return on the clock. *)
Fixpoint list_workers (scheduler : faultline_scheduler) (now : Z) (l : list faultline_worker) :
    option (list faultline_worker_summary) :=
  match l with
  | [] => Some []
  | worker :: l =>
      if bool_decide (w_state worker = FAULTLINE_WORKER_UNUSED) then list_workers scheduler now l
      else if (w_last_heartbeat_ms worker <? 0) || (now <? w_last_heartbeat_ms worker) then None
      else
        match list_workers scheduler now l with
        | None => None
        | Some entries => Some (worker_summary scheduler now worker :: entries)
        end
  end.

Definition queue_listing (client : client) (store : faultline_coordinator_store) (request_type : Z)
    (heartbeat_timeout_ms : Z) (world : W) : Client.client * faultline_coordinator_store * W :=
  let '(now, world) := faultline_monotonic_ms net world in
  if now <? 0 then close_client client store "clock_error" world
  else
    let client := client <| cl_job_client := true |> in
    if request_type =? FAULTLINE_MSG_JOBS_REQUEST then
      queue_message client store
        (MsgJobsResponse (qsort compare_job_summaries (job_summary <$> live (jobs store)))) world
    else
      match list_workers (jobs store) now (workers (store_workers store)) with
      | None => close_client client store "clock_error" world
      | Some entries =>
          queue_message client store
            (MsgWorkersResponse (mk_workers (u32 heartbeat_timeout_ms)
               (qsort compare_worker_summaries entries))) world
      end.

(** ** Requests *)

Definition handle_register (client : client) (store : faultline_coordinator_store) (world : W) :
    Client.client * faultline_coordinator_store * W :=
  if cl_job_client client then close_client client store "job_client_cannot_register" world
  else
    let '(now, world) := faultline_monotonic_ms net world in
    let '(registered, id, store, world) :=
      faultline_store_register os store (cl_fd client) now world in
    let client := match id with Some id => client <| cl_worker_id := id |> | None => client end in
    match registered with
    | FAULTLINE_STORE_FATAL => (client, store, world)
    | FAULTLINE_STORE_OK =>
        let worker := default inhabitant (faultline_worker_find (store_workers store) (cl_worker_id client)) in
        let world := log stdout INFO "worker_registered"
          (Some (fields [field "worker_id" (print_uint (cl_worker_id client));
             field "fd" (print_int (cl_fd client)); text "state=ALIVE";
             field "last_heartbeat_ms" (print_int (w_last_heartbeat_ms worker))])) world in
        queue_message client store (MsgWorkerRegisterAck (cl_worker_id client)) world
    | _ =>
        let world := log stderr WARN "registration_rejected"
          (Some (fields [field "fd" (print_int (cl_fd client));
             field "code" (print_int (store_code registered))])) world in
        close_client client store "registration_rejected" world
    end.

Definition handle_heartbeat (client : client) (store : faultline_coordinator_store) (id now : Z)
    (world : W) : Client.client * faultline_coordinator_store * W :=
  if (cl_worker_id client =? FAULTLINE_WORKER_ID_UNASSIGNED) || (id !=? cl_worker_id client) then
    close_client client store "heartbeat_identity_mismatch" world
  else
    match faultline_worker_heartbeat (store_workers store) id (cl_fd client) now with
    | (FAULTLINE_REGISTRY_OK, registry) =>
        let store := store <| store_workers := registry |> in
        let world := log stdout INFO "heartbeat_received"
          (Some (fields [field "worker_id" (print_uint (cl_worker_id client));
             field "fd" (print_int (cl_fd client)); field "last_heartbeat_ms" (print_int now)])) world in
        (reset_input client, store, world)
    | (_, registry) =>
        close_client client (store <| store_workers := registry |>) "heartbeat_rejected" world
    end.

Definition handle_submit (client : client) (store : faultline_coordinator_store)
    (submit : faultline_job_submit_payload) (world : W) :
    Client.client * faultline_coordinator_store * W :=
  if cl_worker_id client !=? 0 then close_client client store "worker_cannot_submit" world
  else
    let '(now, world) := faultline_monotonic_ms net world in
    let '(accepted, id, store, world) := faultline_store_submit os store submit now world in
    match accepted with
    | FAULTLINE_STORE_FATAL => (client, store, world)
    | FAULTLINE_STORE_OK =>
        let id := default 0 id in
        let client := client <| cl_job_client := true |> in
        let world := log_job "job_submitted" (found_job store id) store 0 world in
        queue_message client store (MsgJobSubmitAck id) world
    | _ =>
        let world := log stderr WARN "submission_rejected"
          (Some (fields [field "fd" (print_int (cl_fd client));
             field "code" (print_int (store_code accepted))])) world in
        close_client client store "submission_rejected" world
    end.

Definition status_snapshot (job : faultline_job) : faultline_job_status_payload :=
  {| st_job_id := job_id job; st_state := u16 (job_state_value (job_state job));
     st_worker_id := worker_id job; st_attempt := attempt job; st_retry_count := retry_count job;
     st_max_retries := max_retries job; st_failure := u16 (job_failure_value (failure job));
     st_result_size := result_size job; st_result := result job |}.

Definition status_reply (job : faultline_job) : faultline_message := MsgJobStatusResponse (status_snapshot job).

Definition handle_status (client : client) (store : faultline_coordinator_store) (id : Z) (world : W) :
    Client.client * faultline_coordinator_store * W :=
  let client := client <| cl_job_client := true |> in
  match faultline_scheduler_find (jobs store) id with
  | None => queue_message client store (MsgJobStatusNotFound id) world
  | Some job => queue_message client store (status_reply job) world
  end.

Definition handle_report (client : client) (store : faultline_coordinator_store)
    (message : faultline_message) (world : W) : Client.client * faultline_coordinator_store * W :=
  let id :=
    match faultline_scheduler_active (jobs store) (cl_worker_id client) with
    | None => 0
    | Some active => job_id active
    end in
  let '(now, world) := faultline_monotonic_ms net world in
  let '(reported, store, world) :=
    faultline_store_report os store (cl_worker_id client) message now world in
  match reported with
  | FAULTLINE_STORE_FATAL => (client, store, world)
  | FAULTLINE_STORE_OK =>
      let '(event, previous) :=
        if message_type message =? FAULTLINE_MSG_JOB_STARTED then ("job_started"%string, 0)
        else if message_type message =? FAULTLINE_MSG_JOB_COMPLETED then ("job_completed"%string, 0)
        else ("job_failed"%string, cl_worker_id client) in
      let world := log_job event (found_job store id) store previous world in
      (reset_input client, store, world)
  | _ =>
      let identity := default (mk_identity 0 0 0) (report_identity message) in
      let current := faultline_scheduler_find (jobs store) (i_job_id identity) in
      let world := log stdout WARN "job_report_rejected"
        (Some (fields [field "job_id" (print_uint (i_job_id identity));
           field "worker_id" (print_uint (cl_worker_id client));
           field "report_worker_id" (print_uint (i_worker_id identity));
           field "report_attempt" (print_uint (i_attempt identity));
           field "current_worker_id" (print_uint (match current with None => 0 | Some j => worker_id j end));
           field "current_attempt" (print_uint (match current with None => 0 | Some j => attempt j end));
           field "current_state" (match current with None => text "NOT_FOUND" | Some j => job_state_name (job_state j) end);
           text "reason=identity_or_state_mismatch"])) world in
      close_client client store "invalid_job_report" world
  end.

Definition handle_stats (client : client) (store : faultline_coordinator_store)
    (heartbeat_timeout_ms : Z) (session : faultline_stats_session) (world : W) :
    Client.client * faultline_coordinator_store * W :=
  let client := client <| cl_job_client := true |> in
  let '(now, world) := faultline_monotonic_ms net world in
  match faultline_stats_snapshot session store now heartbeat_timeout_ms with
  | None => close_client client store "stats_snapshot_error" world
  | Some stats => queue_message client store (MsgStatsResponse stats) world
  end.

Definition handle_message (client : client) (store : faultline_coordinator_store)
    (message : faultline_message) (now heartbeat_timeout_ms : Z) (session : faultline_stats_session)
    (world : W) : Client.client * faultline_coordinator_store * W :=
  match message with
  | MsgPing _ =>
      let world := log stdout INFO "ping_received" (Some (field "fd" (print_int (cl_fd client)))) world in
      queue_message client store (MsgPong 0) world
  | MsgWorkerRegister _ => handle_register client store world
  | MsgHeartbeat id => handle_heartbeat client store id now world
  | MsgJobSubmit submit => handle_submit client store submit world
  | MsgJobStatusRequest id => handle_status client store id world
  | MsgJobStarted _ | MsgJobCompleted _ | MsgJobFailed _ => handle_report client store message world
  | MsgJobsRequest _ | MsgWorkersRequest _ =>
      queue_listing client store (message_type message) heartbeat_timeout_ms world
  | MsgStatsRequest _ => handle_stats client store heartbeat_timeout_ms session world
  | _ => close_client client store "unexpected_message" world
  end.

(** ** Receiving and sending *)

(** What the kind of connection may send. *)
Definition header_allowed (client : client) (type : Z) : bool :=
  (type =? FAULTLINE_MSG_PING) ||
  ((type =? FAULTLINE_MSG_WORKER_REGISTER) && negb (cl_job_client client)) ||
  (one_of type [FAULTLINE_MSG_JOB_SUBMIT; FAULTLINE_MSG_JOB_STATUS_REQUEST; FAULTLINE_MSG_JOBS_REQUEST;
     FAULTLINE_MSG_WORKERS_REQUEST; FAULTLINE_MSG_STATS_REQUEST] && (cl_worker_id client =? 0)) ||
  (one_of type [FAULTLINE_MSG_HEARTBEAT; FAULTLINE_MSG_JOB_STARTED; FAULTLINE_MSG_JOB_COMPLETED;
     FAULTLINE_MSG_JOB_FAILED] && (cl_worker_id client !=? 0)).

(** The part of [read_message] after a whole header or a whole frame has arrived. *)
Definition process_input (client : client) (store : faultline_coordinator_store)
    (now heartbeat_timeout_ms : Z) (session : faultline_stats_session) (world : W) :
    Client.client * faultline_coordinator_store * W :=
  let decode :=
    match faultline_message_decode (cl_input client) with
    | inl FAULTLINE_PROTOCOL_BUFFER_TOO_SMALL =>
        match faultline_header_decode (cl_input client) with
        | inl _ => close_client client store "unsupported_payload" world
        | inr header =>
            if CLIENT_FRAME_CAPACITY - FAULTLINE_HEADER_SIZE <? h_payload_length header then
              close_client client store "unsupported_payload" world
            else
              (client <| cl_expected := FAULTLINE_HEADER_SIZE + h_payload_length header |>, store, world)
        end
    | inl error =>
        let world := log stderr WARN "invalid_message"
          (Some (fields [field "fd" (print_int (cl_fd client));
             field "code" (print_int (protocol_code error))])) world in
        close_client client store "invalid_message" world
    | inr (message, _) => handle_message client store message now heartbeat_timeout_ms session world
    end in
  if cl_received client =? FAULTLINE_HEADER_SIZE then
    match faultline_header_decode (cl_input client) with
    | inl _ => close_client client store "invalid_header" world
    | inr header =>
        if negb (header_allowed client (h_message_type header)) then
          close_client client store "unexpected_message" world
        else decode
    end
  else decode.

Definition read_message (client : client) (store : faultline_coordinator_store)
    (now heartbeat_timeout_ms : Z) (session : faultline_stats_session) (world : W) :
    Client.client * faultline_coordinator_store * W :=
  match os_recv net (cl_fd client) (cl_expected client - cl_received client) world with
  | (OsOk [], world) =>
      let world :=
        if cl_received client !=? 0 then
          log stderr WARN "truncated_message"
            (Some (fields [field "fd" (print_int (cl_fd client));
               field "bytes" (print_uint (cl_received client))])) world
        else world in
      close_client client store
        (if cl_received client =? 0 then "eof" else "truncated_message") world
  | (OsErr error, world) =>
      if transient error then (client, store, world)
      else close_client client store "recv_error" (log_error WARN "recv" error world)
  | (OsOk bytes, world) =>
      let client := client <| cl_input := cl_input client ++ bytes |> <| cl_last_progress_ms := now |> in
      if cl_received client <? cl_expected client then (client, store, world)
      else process_input client store now heartbeat_timeout_ms session world
  end.

Definition write_reply (client : client) (store : faultline_coordinator_store) (now : Z) (world : W) :
    Client.client * faultline_coordinator_store * W :=
  match os_send net (cl_fd client) (drop (Z.to_nat (cl_sent client)) (cl_output client)) world with
  | (OsErr error, world) =>
      if transient error then (client, store, world)
      else close_client client store "send_error" (log_error WARN "send" error world)
  | (OsOk count, world) =>
      if count =? 0 then close_client client store "send_closed" world
      else
        let client := client <| cl_sent := cl_sent client + count |> <| cl_last_progress_ms := now |> in
        if cl_sent client =? cl_output_size client then
          let world :=
            if cl_reply_type client =? FAULTLINE_MSG_PONG then
              log stdout INFO "pong_sent" (Some (field "fd" (print_int (cl_fd client)))) world
            else if cl_reply_type client =? FAULTLINE_MSG_WORKER_REGISTER_ACK then
              log stdout INFO "worker_register_ack_sent"
                (Some (fields [field "worker_id" (print_uint (cl_worker_id client));
                   field "fd" (print_int (cl_fd client))])) world
            else world in
          (reset_input client, store, world)
        else (client, store, world)
  end.

End Client.
