(* ===== verification/ReplyProofs.v ===== *)
(** Every reply of the coordinator can be encoded, whatever the jobs and the workers: the records of
    the scheduler and of the registry satisfy the rules of the protocol. *)

From S2P Require Import Prelude Text Job JobQueue WorkerRegistry Protocol ProtocolProofs Scheduler SchedulerProofs.
From S2P Require Import CoordinatorStore CoordinatorStats StatsProofs Framing Client.

(** ** Records of jobs *)

(** The state and the failure of a record, as numbers of the protocol. *)
Lemma status_valid j r :
  job_wf j ->
  validate_job_status
    {| st_job_id := job_id j; st_state := u16 (job_state_value (job_state j));
       st_worker_id := worker_id j; st_attempt := attempt j; st_retry_count := retry_count j;
       st_max_retries := max_retries j; st_failure := u16 (job_failure_value (failure j));
       st_result_size := result_size j; st_result := r |} = FAULTLINE_PROTOCOL_OK.
Proof.
  intros Hj. pose proof (wf_id j Hj). pose proof (wf_retries j Hj). pose proof (wf_state j Hj) as Hs.
  unfold validate_job_status, job_state_wf, owned, real_failure in *. cbn [st_job_id st_state st_worker_id
    st_attempt st_retry_count st_max_retries st_failure st_result_size].
  rewrite (proj2 (Z.eqb_neq (job_id j) 0)), (proj2 (Z.ltb_ge (max_retries j) (retry_count j))) by lia.
  assert (u16 0 = 0 /\ u16 1 = 1 /\ u16 2 = 2 /\ u16 3 = 3 /\ u16 4 = 4 /\ u16 5 = 5) as
    (E0 & E1 & E2 & E3 & E4 & E5) by done.
  destruct (job_state j); try done; repeat (destruct_and?; destruct_or?);
    repeat match goal with
    | H : failure j = _ |- _ => rewrite !H; clear H
    | H : result_size j = 0 |- _ => rewrite !H; clear H
    | H : attempt j = _ |- _ => rewrite !H; clear H
    | H : worker_id j = 0 |- _ => rewrite !H; clear H
    end; cbn; rewrite ?E0, ?E1, ?E2, ?E3, ?E4, ?E5, ?Z.add_0_r, ?Z.eqb_refl; cbn;
    try rewrite (proj2 (Z.eqb_neq (worker_id j) 0)) by lia; cbn;
    try rewrite (proj2 (Z.eqb_eq (retry_count j) (max_retries j))) by lia; cbn;
    try rewrite (proj2 (Z.eqb_neq (retry_count j) 0)) by lia;
    try rewrite (proj2 (Z.eqb_eq (retry_count j) 0)) by lia; done.
Qed.

Lemma wf_numbers j :
  job_wf j ->
  in_u64 (job_id j) /\ in_u32 (worker_id j) /\ in_u64 (attempt j) /\ in_u32 (retry_count j) /\
  in_u32 (max_retries j) /\ (0 <= result_size j <= FAULTLINE_JOB_MAX_RESULT_SIZE) /\
  0 <= argument_size j <= FAULTLINE_JOB_MAX_ARGUMENT_SIZE.
Proof.
  intros Hj. destruct Hj as [? ? ? ? ? ? ? ? ? ? ? ? Hs]. unfold job_state_wf, owned in Hs.
  destruct (job_state j); try done; destruct_and!; split_and!; ilia.
Qed.

Lemma task_value j : job_wf j -> u16 (task_type_value (task_type j)) = task_type_value (task_type j) /\
  valid_task (task_type_value (task_type j)) = true.
Proof. intros Hj. pose proof (wf_task j Hj) as Ht. by destruct (task_type j). Qed.

Lemma status_sendable j : job_wf j -> sendable (status_reply j).
Proof.
  intros Hj. pose proof (wf_numbers j Hj). destruct_and!. eapply sendable_valid.
  - cbn. split_and!; try done; try apply u16_range; split; apply Hj.
  - eapply valid_sized; [done|..].
    + unfold status_reply, status_snapshot. cbn. by rewrite status_valid.
    + done.
    + cbn. plia.
Qed.

Lemma assignment_sendable j worker :
  job_wf j -> active_job j -> worker_id j = worker -> sendable (assignment_message j worker).
Proof.
  intros Hj Ha <-. pose proof (wf_numbers j Hj). destruct_and!. destruct (task_value j Hj) as [Et Hv].
  assert (take (Z.to_nat (argument_size j)) (arguments j) = arguments j) as Earg.
  { apply take_ge. rewrite (wf_argument_size j Hj). lia. }
  eapply sendable_valid.
  - unfold assignment_message. cbn. rewrite Earg. split_and!; try done; try apply u16_range; split; apply Hj.
  - eapply valid_sized; [done|..].
    + unfold assignment_message. cbn. rewrite Et, Hv. done.
    + unfold validate_identity. cbn. pose proof (wf_id j Hj). pose proof (wf_retries j Hj).
      pose proof (wf_state j Hj) as Hs.
      unfold job_state_wf, owned, active_job, active_state in *.
      rewrite !(proj2 (Z.eqb_neq _ _)); try done;
        destruct (job_state j); try done; destruct_and!; lia.
    + cbn. plia.
Qed.

(** ** Sorting *)

Section Sorting.
Context {A : Type} (key : A -> Z) (compare : A -> A -> Z).
Hypothesis compare_key : forall x y, compare x y <= 0 <-> key x <= key y.

Lemma insert_sorted_perm x l : insert_sorted compare x l ≡ₚ x :: l.
Proof.
  induction l as [|y l IH]; cbn; [done|]. destruct (compare x y <=? 0); [done|].
  rewrite IH. by rewrite Permutation_swap.
Qed.

Lemma qsort_perm l : qsort compare l ≡ₚ l.
Proof. induction l as [|x l IH]; cbn; [done|]. by rewrite insert_sorted_perm, IH. Qed.

Lemma insert_sorted_sorted x l :
  StronglySorted Z.le (key <$> l) -> StronglySorted Z.le (key <$> insert_sorted compare x l).
Proof.
  induction l as [|y l IH]; cbn; intros H; [by repeat constructor|].
  apply StronglySorted_inv in H as [Hl Hy].
  destruct (Z.leb_spec (compare x y) 0) as [E|E]; cbn.
  - apply compare_key in E. constructor; [by constructor|]. constructor; [done|].
    eapply Forall_impl; [done|]. cbn. lia.
  - constructor; [by apply IH|]. rewrite insert_sorted_perm. cbn. constructor; [|done].
    destruct (Z.le_gt_cases (key x) (key y)) as [Hle|]; [apply compare_key in Hle|]; lia.
Qed.

Lemma qsort_sorted l : StronglySorted Z.le (key <$> qsort compare l).
Proof. induction l as [|x l IH]; cbn; [constructor|]. by apply insert_sorted_sorted. Qed.

Lemma qsort_strict l : NoDup (key <$> l) -> StronglySorted Z.lt (key <$> qsort compare l).
Proof.
  intros Hn. assert (NoDup (key <$> qsort compare l)) as Hq by (by rewrite qsort_perm).
  pose proof (qsort_sorted l) as Hs. revert Hq Hs. generalize (key <$> qsort compare l) as k.
  induction k as [|a k IH]; intros Hq Hs; [constructor|].
  apply NoDup_cons in Hq as [Ha Hq]. apply StronglySorted_inv in Hs as [Hs Hf].
  constructor; [by apply IH|]. rewrite Forall_forall in Hf |- *. intros b Hb.
  specialize (Hf b Hb). assert (a <> b) by (intros ->; done). lia.
Qed.

(** A list that is in order already stays as it is. *)
Lemma qsort_id l : StronglySorted Z.lt (key <$> l) -> qsort compare l = l.
Proof.
  induction l as [|x l IH]; cbn; [done|]. intros H. apply StronglySorted_inv in H as [Hs Hf].
  rewrite (IH Hs). destruct l as [|y l]; cbn; [done|]. apply Forall_cons in Hf as [Hxy _].
  by rewrite (proj2 (Z.leb_le _ _)) by (apply compare_key; lia).
Qed.

End Sorting.

Lemma compare_jobs x y : compare_job_summaries x y <= 0 <-> js_job_id x <= js_job_id y.
Proof.
  unfold compare_job_summaries. destruct (Z.ltb_spec (js_job_id y) (js_job_id x)),
    (Z.ltb_spec (js_job_id x) (js_job_id y)); lia.
Qed.

Lemma compare_workers x y : compare_worker_summaries x y <= 0 <-> ws_worker_id x <= ws_worker_id y.
Proof.
  unfold compare_worker_summaries. destruct (Z.ltb_spec (ws_worker_id y) (ws_worker_id x)),
    (Z.ltb_spec (ws_worker_id x) (ws_worker_id y)); lia.
Qed.

(** ** Listings *)

Lemma summary_valid j :
  job_wf j ->
  job_summary_typed (job_summary j) /\
  validate_job_status (summary_status (job_summary j)) = FAULTLINE_PROTOCOL_OK /\
  valid_task (js_task_type (job_summary j)) = true /\
  js_result_size (job_summary j) <= FAULTLINE_JOB_MAX_RESULT_SIZE.
Proof.
  intros Hj. pose proof (wf_numbers j Hj). destruct_and!. destruct (task_value j Hj) as [Et Hv].
  assert (u32 (result_size j) = result_size j) as Eu by (apply u32_id; plia).
  split_and!.
  - unfold job_summary. split_and!; cbn; try done; apply u16_range || apply u32_range.
  - unfold summary_status, job_summary. cbn. rewrite Eu. by apply status_valid.
  - cbn. by rewrite Et.
  - cbn. by rewrite Eu.
Qed.

Lemma job_entries_valid previous l :
  Forall job_wf l -> StronglySorted Z.lt (job_id <$> l) ->
  (forall p, previous = Some p -> Forall (fun j => p < job_id j) l) ->
  validate_job_entries previous (job_summary <$> l) = FAULTLINE_PROTOCOL_OK.
Proof.
  revert previous. induction l as [|j l IH]; intros previous Hwf Hs Hp; [done|].
  apply Forall_cons in Hwf as [Hj Hwf]. cbn in Hs. apply StronglySorted_inv in Hs as [Hs Hf].
  destruct (summary_valid j Hj) as (_ & Hst & Ht & Hr). cbn [fmap list_fmap validate_job_entries].
  rewrite Hst, Ht. cbn [negb]. rewrite (proj2 (Z.ltb_ge _ _)) by lia.
  replace (match previous with Some id => _ | None => false end) with false.
  2:{ destruct previous as [p|]; [|done]. specialize (Hp p eq_refl). apply Forall_cons in Hp as [Hp _].
      symmetry. apply Z.leb_gt. done. }
  apply IH; [done|done|]. intros p [= <-]. by rewrite Forall_fmap in Hf.
Qed.

Lemma jobs_listing s :
  sched_wf s ->
  qsort compare_job_summaries (job_summary <$> live s) = job_summary <$> live s /\
  sendable (MsgJobsResponse (qsort compare_job_summaries (job_summary <$> live s))).
Proof.
  intros Hs. assert (qsort compare_job_summaries (job_summary <$> live s) = job_summary <$> live s) as E.
  { apply (qsort_id js_job_id _ compare_jobs). rewrite <- list_fmap_compose. apply (sched_ids_sorted s Hs). }
  split; [done|]. rewrite E. pose proof (sched_count_le s Hs). pose proof (live_length s Hs) as Hl.
  unfold FAULTLINE_JOB_STORE_CAPACITY in *. eapply sendable_valid.
  - cbn. apply Forall_fmap. eapply Forall_impl; [apply (sched_jobs_wf s Hs)|]. intros j Hj.
    by apply summary_valid.
  - eapply valid_sized; [done|..].
    + cbn [validate_payload]. unfold validate_jobs. rewrite length_fmap, Hl, (proj2 (Z.ltb_ge _ _)) by plia.
      rewrite job_entries_valid; [done|apply Hs|apply Hs|done].
    + done.
    + plia.
Qed.

Definition in_use (w : faultline_worker) : bool := bool_decide (used w).

Lemma in_use_spec w : in_use w <-> used w.
Proof. apply bool_decide_spec. Qed.

Lemma list_workers_all s now l :
  (forall w, w ∈ l -> used w -> 0 <= w_last_heartbeat_ms w <= now) ->
  list_workers s now l = Some (worker_summary s now <$> filter in_use l).
Proof.
  induction l as [|w l IH]; intros H; [done|]. cbn [list_workers]. rewrite filter_cons.
  rewrite IH by (intros v Hv; apply H; by right). case_bool_decide as E.
  - rewrite decide_False; [done|]. rewrite in_use_spec. intros Hu. by apply Hu.
  - rewrite decide_True by (by apply in_use_spec). destruct (H w) as [H1 H2]; [by left|done|].
    by rewrite (proj2 (Z.ltb_ge _ _)), (proj2 (Z.ltb_ge _ _)) by lia.
Qed.

Lemma worker_summary_valid s now w :
  sched_wf s -> 0 < w_id w <= UINT32_MAX ->
  let e := worker_summary s now w in
  worker_summary_typed e /\
  (ws_state e = FAULTLINE_WORKER_VIEW_ALIVE \/ ws_state e = FAULTLINE_WORKER_VIEW_DEAD /\ ws_job_id e = 0) /\
  (ws_job_id e =? 0) = (ws_attempt e =? 0).
Proof.
  intros Hs Hw. cbn. unfold worker_summary. case_bool_decide as Ha; cbn.
  - destruct (faultline_scheduler_active s (w_id w)) as [j|] eqn:E.
    + apply active_some in E as (_ & Hact & _ & slot & Hl).
      destruct (live_jobs s slot j Hs Hl) as (_ & _ & Hj). pose proof (wf_numbers j Hj). destruct_and!.
      pose proof (wf_id j Hj). pose proof (wf_retries j Hj). pose proof (wf_state j Hj) as Hst.
      assert (attempt j <> 0).
      { unfold job_state_wf, owned, active_job, active_state in *. destruct (job_state j); try done;
          destruct_and!; lia. }
      split; [split_and!; cbn; try apply u64_range; try done; plia|]. split; [by left|].
      cbn. by rewrite !(proj2 (Z.eqb_neq _ _)) by lia.
    + split; [split_and!; cbn; try apply u64_range; try done; plia|]. by split; [left|].
  - split; [split_and!; cbn; try apply u64_range; try done; plia|]. by split; [right|].
Qed.

Lemma worker_entries_valid previous l :
  (forall e, e ∈ l -> 0 < ws_worker_id e /\
    (ws_state e = FAULTLINE_WORKER_VIEW_ALIVE \/ ws_state e = FAULTLINE_WORKER_VIEW_DEAD /\ ws_job_id e = 0) /\
    (ws_job_id e =? 0) = (ws_attempt e =? 0)) ->
  StronglySorted Z.lt (ws_worker_id <$> l) ->
  (forall p, previous = Some p -> Forall (fun e => p < ws_worker_id e) l) ->
  validate_worker_entries previous l = FAULTLINE_PROTOCOL_OK.
Proof.
  revert previous. induction l as [|e l IH]; intros previous He Hs Hp; [done|].
  cbn in Hs. apply StronglySorted_inv in Hs as [Hs Hf].
  destruct (He e) as (Hid & Hst & Hat); [by left|]. cbn [validate_worker_entries].
  rewrite (proj2 (Z.eqb_neq (ws_worker_id e) 0)), <- !Hat, eqb_reflx by lia. cbn [negb].
  replace ((ws_state e !=? FAULTLINE_WORKER_VIEW_ALIVE) && (ws_state e !=? FAULTLINE_WORKER_VIEW_DEAD))
    with false by (by destruct Hst as [->|[-> _]]).
  replace ((ws_state e =? FAULTLINE_WORKER_VIEW_DEAD) && (ws_job_id e !=? 0)) with false
    by (by destruct Hst as [->|[-> ->]]).
  replace (match previous with Some id => _ | None => false end) with false.
  2:{ destruct previous as [p|]; [|done]. specialize (Hp p eq_refl). apply Forall_cons in Hp as [Hp _].
      symmetry. by apply Z.leb_gt. }
  apply IH; [|done|].
  - intros e' He'. apply He. by right.
  - intros p [= <-]. by rewrite Forall_fmap in Hf.
Qed.

Lemma used_ids_nodup r : registry_wf r -> NoDup (w_id <$> filter in_use (workers r)).
Proof.
  intros Hr. apply (NoDup_filter_unique w_id in_use). intros i k v w Hi Hk Hv Hw Heq.
  eapply (reg_unique r Hr); [done|done| | |done]; apply in_use_spec; by apply Is_true_true.
Qed.

Lemma workers_listing s r now timeout :
  sched_wf s -> registry_wf r -> 0 < timeout <= INT_MAX ->
  (forall w, w ∈ workers r -> used w -> w_last_heartbeat_ms w <= now) ->
  exists entries, list_workers s now (workers r) = Some entries /\
    sendable (MsgWorkersResponse (mk_workers (u32 timeout) (qsort compare_worker_summaries entries))).
Proof.
  intros Hs Hr Ht Hbeat. exists (worker_summary s now <$> filter in_use (workers r)).
  split; [apply list_workers_all; intros w Hw Hu; destruct (reg_ids r Hr w Hw Hu) as (_ & _ & ?); auto|].
  set (l := qsort _ _).
  assert (l ≡ₚ worker_summary s now <$> filter in_use (workers r)) as Hp by apply qsort_perm.
  assert (forall e, e ∈ l -> exists w, e = worker_summary s now w /\ 0 < w_id w <= UINT32_MAX) as Hin.
  { intros e He. rewrite Hp in He. apply list_elem_of_fmap in He as (w & -> & Hw).
    apply list_elem_of_filter in Hw as [Hu Hw]. apply in_use_spec in Hu. exists w. split; [done|].
    by destruct (reg_ids r Hr w Hw Hu). }
  assert (length l <= 64)%nat as Hlen.
  { rewrite Hp, length_fmap. etrans; [apply length_filter|]. rewrite (reg_length r Hr). done. }
  assert (u32 timeout = timeout) as Eu by (apply u32_id; ilia).
  eapply sendable_valid.
  - cbn. split; [apply u32_range|]. apply Forall_forall. intros e He.
    destruct (Hin e He) as (w & -> & Hw). by apply worker_summary_valid.
  - eapply valid_sized; [done|..].
    + cbn [validate_payload]. unfold validate_workers. cbn [wl_entries wl_heartbeat_timeout_ms].
      rewrite (proj2 (Z.ltb_ge _ _)), Eu, (proj2 (Z.eqb_neq _ _)) by plia.
      rewrite worker_entries_valid; [done| | |done].
      * intros e He. destruct (Hin e He) as (w & -> & Hw). split; [cbn; lia|].
        by apply worker_summary_valid.
      * apply (qsort_strict ws_worker_id _ compare_workers). rewrite <- list_fmap_compose.
        by apply used_ids_nodup.
    + done.
    + plia.
Qed.

Lemma stats_sendable stats :
  Forall in_u64 (stats_fields stats) -> stats_consistent stats -> sendable (MsgStatsResponse stats).
Proof.
  intros Ht Hc. eapply sendable_valid; [done|]. eapply valid_sized; [done|..].
  - cbn [validate_payload]. rewrite (proj2 (validate_stats_spec stats Ht) Hc). done.
  - done.
  - plia.
Qed.

(** ** Short replies *)

Lemma id_sendable id :
  0 < id -> in_u64 id -> sendable (MsgJobSubmitAck id) /\ sendable (MsgJobStatusNotFound id).
Proof.
  intros Hid Hu. split; (eapply short_sendable; [done|done|]); cbn;
    by rewrite (proj2 (Z.eqb_neq _ _)) by lia.
Qed.

Lemma register_ack_sendable id : 0 < id <= UINT32_MAX -> sendable (MsgWorkerRegisterAck id).
Proof.
  intros Hid. eapply short_sendable; [cbn; plia|done|]. cbn. by rewrite (proj2 (Z.eqb_neq _ _)) by lia.
Qed.

Lemma pong_sendable : sendable (MsgPong 0).
Proof. by eapply short_sendable. Qed.

(** ** Replies fit their fields, also when the clock is wrong *)

Lemma list_workers_typed s now l entries :
  sched_wf s -> (forall w, w ∈ l -> used w -> 0 < w_id w <= UINT32_MAX) ->
  list_workers s now l = Some entries -> Forall worker_summary_typed entries.
Proof.
  intros Hs. revert entries. induction l as [|w l IH]; intros entries Hid; cbn; [intros [= <-]; constructor|].
  assert (forall v, v ∈ l -> used v -> 0 < w_id v <= UINT32_MAX) as Hid' by (intros v Hv; apply Hid; by right).
  case_bool_decide as Hu; [by apply IH|]. destruct (_ || _); [done|].
  destruct (list_workers s now l) as [rest|]; [|done]. intros [= <-]. constructor; [|by apply IH].
  apply worker_summary_valid; [done|]. apply Hid; [by left|done].
Qed.

Definition stats_typed (s : faultline_stats_payload) : Prop := Forall in_u64 (stats_fields s).

Record session_typed (s : faultline_stats_session) : Prop := {
  session_duration : in_u64 (sess_startup_duration_ms s);
  session_interrupted : in_u64 (sess_startup_interrupted_jobs s);
  session_submitted : in_u64 (submitted_at_start s);
}.

(** The fields one by one. *)
Ltac typed_fields :=
  repeat match goal with s : faultline_stats_payload |- _ => destruct s end;
  unfold stats_typed, stats_fields in *; cbn in *;
  repeat match goal with H : Forall _ (_ :: _) |- _ => apply Forall_cons in H as [? H] end;
  repeat (apply Forall_cons; split); try apply Forall_nil_2; try assumption; try apply u64_range.

Lemma count_jobs_typed l stats stats' :
  count_jobs l stats = Some stats' -> stats_typed stats -> stats_typed stats'.
Proof.
  revert stats. induction l as [|j l IH]; intros stats; cbn; [by intros [= <-]|].
  destruct (count_state stats j) as [s1|] eqn:E; [|done]. destruct (_ || _); [done|]. intros H Ht.
  apply IH in H; [done|]. clear H. unfold count_state in E.
  destruct (job_state j); try done; injection E as <-; typed_fields.
Qed.

Lemma add_latencies_typed l stats rem stats' rem' :
  add_latencies l stats rem = Some (stats', rem') -> stats_typed stats -> stats_typed stats'.
Proof.
  revert stats rem. induction l as [|j l IH]; intros stats rem; cbn; [by intros [= <- _]|].
  destruct (negb _); [by apply IH|]. destruct (_ || _); [done|]. intros H Ht. apply IH in H; [done|].
  clear H. typed_fields.
Qed.

Lemma count_workers_typed s now timeout l stats stats' :
  count_workers s now timeout l stats = Some stats' -> stats_typed stats -> stats_typed stats'.
Proof.
  revert stats. induction l as [|w l IH]; intros stats; cbn [count_workers]; [by intros [= <-]|].
  destruct (bool_decide (w_state w = FAULTLINE_WORKER_UNUSED)); [by apply IH|].
  destruct (bool_decide (w_state w = FAULTLINE_WORKER_DEAD)).
  { intros H Ht. apply IH in H; [done|]. clear H. typed_fields. }
  destruct (_ || _); [done|].
  destruct (faultline_worker_timed_out _ _ _).
  { intros H Ht. apply IH in H; [done|]. clear H. typed_fields. }
  intros H Ht. apply IH in H; [done|]. clear H. destruct (bool_decide _); typed_fields.
Qed.

Lemma collect_jobs_typed store stats stats' :
  collect_jobs store stats = Some stats' -> stats_typed stats -> stats_typed stats'.
Proof.
  unfold collect_jobs. destruct (_ || _ || _) eqn:Eg; [done|].
  destruct (count_jobs _ _) as [s1|] eqn:E1; [|done].
  destruct (add_latencies _ _ _) as [[s2 rem]|] eqn:E2; [|done]. intros [= <-] Ht.
  apply orb_false_iff in Eg as [_ Eg]. apply Z.ltb_ge in Eg.
  apply count_jobs_typed in E1; [|clear E1 E2; typed_fields; plia].
  apply add_latencies_typed in E2; [|done]. destruct (negb _); [|done]. clear E1. typed_fields.
Qed.

Lemma snapshot_typed session store now timeout stats :
  session_typed session -> faultline_stats_snapshot session store now timeout = Some stats -> stats_typed stats.
Proof.
  intros [] H. unfold faultline_stats_snapshot in H. destruct (_ || _ || _); [done|].
  destruct (collect_jobs store zero_stats) as [s1|] eqn:E; [|done].
  apply collect_jobs_typed in E; [|by repeat constructor]. destruct (_ || _ || _ || _); [done|].
  eapply count_workers_typed; [done|]. clear H. typed_fields.
Qed.
