(* ===== verification/CliProofs.v ===== *)
(** The command line client: what its arguments stand for, that it accepts nothing but one whole
    frame of the answer it asked for, and what it shows of the answers of the coordinator. *)

From S2P Require Import Prelude Text Job Protocol ProtocolProofs Framing WalWriter Net NetLaws SimNet NetProofs Log.
From S2P Require Import Scheduler SchedulerProofs CoordinatorStore Client ReplyProofs Cli.

(** ** Arguments *)

Lemma parse_retries_spec text : parse_retries text = decimal_between 0 UINT32_MAX text.
Proof.
  unfold parse_retries, decimal_between, decimal_value. destruct text as [|c text]; [done|].
  rewrite (bounded_numeral parse_retries_loop UINT32_MAX); [|done| |done].
  - destruct (digits_from 0 _) as [v|] eqn:E; [|done]. apply digits_from_le in E; [|done].
    by rewrite (proj2 (Z.leb_le 0 v)) by lia.
  - clear. intros v c l Hv. cbn [parse_retries_loop].
    destruct ((c <? 48) || (57 <? c)) eqn:E; [done|]. split_bools. reflect_bools.
    rewrite (u32_id (c - 48)) by ilia. rewrite quotient_test by lia.
    destruct (Z.leb_spec (v * 10 + (c - 48)) UINT32_MAX); [|done]. by rewrite u32_id by ilia.
Qed.

Lemma parse_job_id_spec text : parse_job_id text = decimal_between 1 UINT64_MAX text.
Proof.
  unfold parse_job_id, decimal_between, decimal_value. destruct text as [|c text]; [done|].
  rewrite (bounded_numeral parse_job_id_loop UINT64_MAX); [|done| |done].
  - destruct (digits_from 0 _) as [v|] eqn:E; [|done]. apply digits_from_le in E; [|done].
    destruct (Z.leb_spec v UINT64_MAX); [|by rewrite andb_false_r].
    destruct (Z.eqb_spec v 0) as [->|]; [done|]. by rewrite (proj2 (Z.leb_le 1 v)) by lia.
  - clear. intros v c l Hv. cbn [parse_job_id_loop].
    destruct ((c <? 48) || (57 <? c)) eqn:E; [done|]. split_bools. reflect_bools.
    rewrite (u64_id (c - 48)) by ilia. rewrite quotient_test by lia.
    destruct (Z.leb_spec (v * 10 + (c - 48)) UINT64_MAX); [|done]. by rewrite u64_id by ilia.
Qed.

Lemma hex_digit_range c : -1 <= hex_digit c < 16.
Proof. unfold hex_digit. repeat (case_match; reflect_bools); lia. Qed.

Lemma hex_digit_char d : 0 <= d < 16 -> hex_digit (hex_char d) = d.
Proof. unfold hex_digit, hex_char. intros Hd. repeat (case_match; reflect_bools); lia. Qed.

Lemma print_hex_byte b :
  in_u8 b -> print_hex 2 b = [hex_char (Z.shiftr b 4); hex_char (Z.land b 15)].
Proof.
  intros Hb. destruct (byte_nibbles b Hb) as (Hh & _). cbn. do 2 f_equal.
  change 15 with (Z.ones 4). rewrite Z.land_ones by lia. apply Z.mod_small. lia.
Qed.

(** The digits of [bytes], two for each. *)
Definition hex_text (bytes : list Z) : list Z := concat (print_hex 2 <$> bytes).

Lemma parse_hex_print bytes : bytes_ok bytes -> parse_hex (hex_text bytes) = Some bytes.
Proof.
  induction 1 as [|b bytes Hb _ IH]; [done|]. destruct (byte_nibbles b Hb) as (Hh & Hl & Hv).
  change (hex_text (b :: bytes)) with (print_hex 2 b ++ hex_text bytes).
  rewrite print_hex_byte by done. cbn [app parse_hex].
  rewrite !hex_digit_char, IH by done. rewrite !(proj2 (Z.ltb_ge _ _)) by lia. cbn [orb].
  rewrite u8_id by (unfold_ints; lia). do 2 f_equal. lia.
Qed.

(** A digit in the other case. *)
Definition upper (c : Z) : Z := if (97 <=? c) && (c <=? 102) then c - 32 else c.

Lemma hex_digit_upper c : hex_digit (upper c) = hex_digit c.
Proof.
  unfold upper. destruct (_ && _) eqn:E; [|done]. apply andb_true_iff in E as [Hl Hh].
  unfold hex_digit. repeat match goal with |- context [(?a <=? ?b)] => destruct (Z.leb_spec a b); cbn [andb] end; lia.
Qed.

Lemma parse_hex_upper text : parse_hex (upper <$> text) = parse_hex text.
Proof.
  induction text as [text IH] using (induction_ltof1 _ length). unfold ltof in IH.
  destruct text as [|a [|b text]]; [done..|]. cbn [fmap list_fmap parse_hex].
  change (list_fmap _ _ upper text) with (upper <$> text).
  rewrite !hex_digit_upper, IH by (cbn; lia). done.
Qed.

Lemma parse_hex_bytes text bytes : parse_hex text = Some bytes -> bytes_ok bytes.
Proof.
  revert bytes. induction text as [text IH] using (induction_ltof1 _ length). unfold ltof in IH.
  destruct text as [|a [|b text]]; cbn [parse_hex]; intros bytes;
    [intros [= <-]; constructor|intros [= <-]; constructor|].
  destruct (_ || _); [done|]. destruct (parse_hex text) as [l|] eqn:E; [|done]. intros [= <-].
  constructor; [apply u8_range|]. apply (IH text); [cbn; lia|done].
Qed.

Lemma parse_hex_length text bytes :
  Z.of_nat (length text) mod 2 = 0 -> parse_hex text = Some bytes ->
  Z.of_nat (length text) = 2 * Z.of_nat (length bytes).
Proof.
  revert bytes. induction text as [text IH] using (induction_ltof1 _ length). unfold ltof in IH.
  destruct text as [|a [|b text]]; cbn [parse_hex length]; intros bytes He.
  - by intros [= <-].
  - done.
  - destruct (_ || _); [done|]. destruct (parse_hex text) as [l|] eqn:E; [|done]. intros [= <-].
    apply IH in E; [cbn; lia|cbn; lia|].
    replace (Z.of_nat (S (S (length text)))) with (Z.of_nat (length text) + 1 * 2) in He by lia.
    by rewrite Z.mod_add in He.
Qed.

(** The client and the log of the coordinator escape a result in the same way. *)
Lemma result_escaped bytes : bytes_ok bytes -> concat (result_piece <$> bytes) = escape_loop bytes.
Proof.
  induction 1 as [|b bytes Hb _ IH]; [done|]. cbn [fmap list_fmap concat escape_loop]. rewrite <- IH.
  unfold result_piece, printable. destruct (_ && _); [done|]. by rewrite print_hex_byte.
Qed.

(** ** Answers *)

(** The types that a query can expect, and what answers it. *)
Definition QUERY_RESPONSES : list Z :=
  [FAULTLINE_MSG_JOB_STATUS_RESPONSE; FAULTLINE_MSG_JOBS_RESPONSE; FAULTLINE_MSG_WORKERS_RESPONSE;
   FAULTLINE_MSG_STATS_RESPONSE].

Definition answers (expected type : Z) : Prop :=
  type = expected \/
  (expected = FAULTLINE_MSG_JOB_STATUS_RESPONSE /\ type = FAULTLINE_MSG_JOB_STATUS_NOT_FOUND).

Lemma answers_test expected type :
  (type !=? expected) && negb ((expected =? FAULTLINE_MSG_JOB_STATUS_RESPONSE) &&
    (type =? FAULTLINE_MSG_JOB_STATUS_NOT_FOUND)) = false <-> answers expected type.
Proof.
  unfold answers. destruct (Z.eqb_spec type expected), (Z.eqb_spec expected FAULTLINE_MSG_JOB_STATUS_RESPONSE),
    (Z.eqb_spec type FAULTLINE_MSG_JOB_STATUS_NOT_FOUND); cbn; intuition congruence.
Qed.

Lemma query_sizes_bounds expected type :
  expected ∈ QUERY_RESPONSES -> answers expected type ->
  message_payload_bounds type = Some (query_sizes type) /\ 0 < fst (query_sizes type).
Proof.
  intros He [->|[-> ->]]; [|done]. unfold QUERY_RESPONSES in He.
  repeat (apply elem_of_cons in He as [->|He]; [done|]). by apply not_elem_of_nil in He.
Qed.

(** The header of a frame. *)
Lemma sendable_header m head more :
  sendable m -> frame_of m = head ++ more -> Z.of_nat (length head) = FAULTLINE_HEADER_SIZE ->
  exists h, faultline_header_decode head = inr h /\ h_message_type h = message_type m /\
    Z.of_nat (length (frame_of m)) = FAULTLINE_HEADER_SIZE + h_payload_length h /\
    forall minimum maximum, message_payload_bounds (message_type m) = Some (minimum, maximum) ->
      minimum <= h_payload_length h <= maximum.
Proof.
  intros Hs Hf Hlen. pose proof (sendable_decodes m [] Hs) as Hd. rewrite app_nil_r in Hd.
  assert (exists h, faultline_header_decode (frame_of m) = inr h) as [h Hh].
  { unfold faultline_message_decode in Hd. destruct (faultline_header_decode (frame_of m)) as [e|h]; [done|eauto]. }
  exists h. rewrite <- (header_decode_more head more), <- Hf by (unfold FAULTLINE_HEADER_SIZE in *; lia).
  split; [done|]. split; [symmetry; by eapply decode_type|]. split; [by eapply decode_consumed|].
  intros mn mx Hb. assert (faultline_message_decode (frame_of m) = inr (m, Z.of_nat (length (frame_of m)))) as Hd' by done.
  rewrite (decode_type _ _ _ _ Hd Hh) in Hb. unfold faultline_message_decode in Hd'. rewrite Hh, Hb in Hd'.
  destruct (_ || _) eqn:E1; [done|]. apply orb_false_iff in E1 as [E1%Z.ltb_ge _].
  destruct (Z.ltb_spec mx (h_payload_length h)); [done|]. lia.
Qed.

(** Of two streams that begin the same, the shorter beginning starts the longer. *)
Lemma stream_start (wire rest frame rest' : list Z) :
  wire ++ rest = frame ++ rest' -> (length wire <= length frame)%nat -> exists more, frame = wire ++ more.
Proof.
  intros E Hl. exists (drop (length wire) frame). apply (f_equal (take (length wire))) in E.
  rewrite take_app_length, take_app_le in E by done. rewrite E at 1. by rewrite take_drop.
Qed.

Section Queries.
Context {W : Type} (net : net_os W) {FIN : NetFinite net} {NET : Net net}.

Local Abbreviation moved := (NetProofs.moved net).

Lemma print_sockets s l world : same_sockets (net_state net world) (net_state net (print net s l world)).
Proof. unfold print. destruct (os_print net s l world) as [ok w] eqn:E. by eapply (law_print net). Qed.

Lemma recv_exact_moved fd size timeout world r world' :
  0 <= size -> faultline_recv_exact net fd size timeout world = (r, world') ->
  moved fd [] (receive_data r) world world' /\ bytes_ok (receive_data r) /\
  if bool_decide (receive_result r = FAULTLINE_RECEIVE_OK) then Z.of_nat (length (receive_data r)) = size
  else Z.of_nat (length (receive_data r)) < Z.max 1 size.
Proof.
  intros Hs H. apply (recv_exact_spec net) in H as ([Ho _ Hout Hin Hb _] & Hr); [|done].
  split; [split; [done|by rewrite app_nil_r|done]|]. split; [done|]. unfold received_right in Hr.
  case_bool_decide as E; [by rewrite E in Hr|]. destruct (receive_result r); try done;
    destruct Hr as [Hr _]; try rewrite Hr; cbn [length]; lia.
Qed.

(** Part of an answer: all of it, or fewer bytes than were asked for. *)
Lemma query_bytes_spec fd size start name world r world' :
  0 <= size -> receive_query_bytes net fd size start name world = (r, world') ->
  match r with
  | Some data => moved fd [] data world world' /\ bytes_ok data /\ Z.of_nat (length data) = size
  | None => exists data, moved fd [] data world world' /\ Z.of_nat (length data) < Z.max 1 size
  end.
Proof.
  intros Hs. unfold receive_query_bytes. destruct (faultline_monotonic_ms net world) as [now w1] eqn:E1.
  apply (monotonic_step net) in E1 as (Hq1 & _).
  destruct (_ || _).
  { intros [= <- <-]. exists []. split; [|cbn [length]; lia]. apply moved_quiet. etrans; [done|apply print_sockets]. }
  destruct (faultline_recv_exact net fd size _ w1) as [r1 w2] eqn:E2.
  apply recv_exact_moved in E2 as (Hm & Hb & Hl); [|done].
  pose proof (moved_before _ _ _ _ _ _ Hq1 Hm) as Hm'.
  destruct (bool_decide _); intros [= <- <-]; [done|]. exists (receive_data r1). split; [|done].
  eapply moved_after; [done|apply print_sockets].
Qed.

(** The clock fails, the time for the answer is up, or the bytes are not received. *)
Definition broken (fd size start : Z) (world : W) : Prop :=
  let '(now, w) := faultline_monotonic_ms net world in
  now < 0 \/ FAULTLINE_IO_TIMEOUT_MS <= now - start \/
  receive_result (fst (faultline_recv_exact net fd size (FAULTLINE_IO_TIMEOUT_MS - (now - start)) w)) <>
    FAULTLINE_RECEIVE_OK.

(** The clock has failed, or the last step was a receive that failed or ran into the deadline. *)
Definition interrupted (fd : Z) (name : list Z) (world world' : W) : Prop :=
  let start := fst (faultline_monotonic_ms net world) in
  start < 0 \/
  exists size w, broken fd size start w /\ receive_query_bytes net fd size start name w = (None, world').

Lemma query_bytes_broken fd size start name world world' :
  receive_query_bytes net fd size start name world = (None, world') -> broken fd size start world.
Proof.
  unfold receive_query_bytes, broken. destruct (faultline_monotonic_ms net world) as [now w1].
  destruct (_ || _) eqn:Eb; [intros _; apply orb_true_iff in Eb as [?|?]; [left|right; left]; lia|].
  destruct (faultline_recv_exact net fd size _ w1) as [r w2]. case_bool_decide; [done|]. by right; right.
Qed.

(** A whole answer; or none, which is not for want of a right one on the stream. *)
Definition query_outcome (fd expected : Z) (name : list Z) (reply : option faultline_message)
    (world world' : W) : Prop :=
  match reply with
  | Some m => sendable m /\ answers expected (message_type m) /\ moved fd [] (frame_of m) world world'
  | None => exists got, moved fd [] got world world' /\
      forall m rest, sendable m -> answers expected (message_type m) ->
        incoming (net_state net world) fd = frame_of m ++ rest ->
        (length got < length (frame_of m))%nat /\ interrupted fd name world world'
  end.

(** The bytes received so far are the start of the frame. *)
Lemma moved_start fd got world world' frame rest :
  moved fd [] got world world' -> incoming (net_state net world) fd = frame ++ rest ->
  (length got <= length frame)%nat -> exists more, frame = got ++ more.
Proof.
  intros Hm Hin Hl. rewrite (mv_got _ _ _ _ _ _ Hm) in Hin.
  by eapply stream_start.
Qed.

(** What a header that has arrived tells of a frame at the front of the stream. *)
Lemma frame_at_front fd wire h m rest world world' :
  moved fd [] wire world world' -> faultline_header_decode wire = inr h ->
  Z.of_nat (length wire) <= FAULTLINE_HEADER_SIZE + h_payload_length h ->
  sendable m -> incoming (net_state net world) fd = frame_of m ++ rest ->
  Z.of_nat (length (frame_of m)) = FAULTLINE_HEADER_SIZE + h_payload_length h /\
  faultline_message_decode wire =
    if Z.of_nat (length wire) <? Z.of_nat (length (frame_of m)) then inl SHORT
    else inr (m, Z.of_nat (length wire)).
Proof.
  intros Hm Hh Hle Hs Hin. pose proof (header_decode_length _ _ Hh) as H12.
  rewrite (mv_got _ _ _ _ _ _ Hm) in Hin. pose proof (sendable_decodes m rest Hs) as Hd.
  assert (Z.of_nat (length (frame_of m)) = FAULTLINE_HEADER_SIZE + h_payload_length h) as Hf.
  { eapply decode_consumed; [exact Hd|]. rewrite <- Hin, header_decode_more; [done|].
    unfold FAULTLINE_HEADER_SIZE in *. lia. }
  split; [done|].
  assert (wire = take (length wire) (frame_of m)) as Hw.
  { apply (f_equal (take (length wire))) in Hin. rewrite take_app_length, take_app_le in Hin by lia. done. }
  destruct (Z.ltb_spec (Z.of_nat (length wire)) (Z.of_nat (length (frame_of m)))) as [Hlt|Hge].
  - rewrite Hw. eapply decode_torn_frame; [apply Hs|by apply sendable_frame|lia].
  - rewrite take_ge in Hw by lia. pose proof (sendable_decodes m [] Hs) as Hd'. rewrite app_nil_r in Hd'.
    by rewrite Hw.
Qed.

(** The check of bytes that are all of a frame, as their header announces it. *)
Lemma check_query_spec fd expected name wire h world0 world reply world' :
  faultline_header_decode wire = inr h -> answers expected (h_message_type h) -> bytes_ok wire ->
  moved fd [] wire world0 world -> Z.of_nat (length wire) <= FAULTLINE_HEADER_SIZE + h_payload_length h ->
  faultline_message_decode wire <> inl SHORT ->
  check_query net name wire (faultline_message_decode wire) world = (reply, world') ->
  query_outcome fd expected name reply world0 world'.
Proof.
  intros Hh Ha Hb Hm Hle Hshort.
  assert (forall w, same_sockets (net_state net world) (net_state net w) ->
    (forall m, faultline_message_decode wire <> inr (m, Z.of_nat (length wire))) ->
    query_outcome fd expected name None world0 w) as Hnone.
  { intros w Hq Hbad. exists wire. split; [by eapply moved_after|]. intros m rest Hs _ Hin. exfalso.
    destruct (frame_at_front fd wire h m rest world0 world Hm Hh Hle Hs Hin) as [_ Hd].
    destruct (Z.ltb_spec (Z.of_nat (length wire)) (Z.of_nat (length (frame_of m)))); [done|].
    by destruct (Hbad m). }
  unfold check_query. destruct (faultline_message_decode wire) as [e|[m consumed]] eqn:Ed.
  - intros [= <- <-]. by apply Hnone; [apply print_sockets|].
  - destruct (Z.eqb_spec consumed (Z.of_nat (length wire))) as [->|Hne]; cbn [negb]; intros [= <- <-].
    + apply decoded_frame in Ed as Hf; [|done]. destruct Hf as [Hs Hf].
      rewrite Nat2Z.id, take_ge in Hf by lia. split; [done|]. rewrite Hf.
      by rewrite (decode_type _ _ _ _ Ed Hh).
    + apply Hnone; [apply print_sockets|]. intros m'. congruence.
Qed.

Lemma finish_query_spec fd expected start name wire h world0 world reply world' :
  start = fst (faultline_monotonic_ms net world0) ->
  faultline_header_decode wire = inr h -> answers expected (h_message_type h) -> bytes_ok wire ->
  moved fd [] wire world0 world -> Z.of_nat (length wire) <= FAULTLINE_HEADER_SIZE + h_payload_length h ->
  finish_query net fd start (FAULTLINE_HEADER_SIZE + h_payload_length h - Z.of_nat (length wire)) name wire world =
    (reply, world') ->
  query_outcome fd expected name reply world0 world'.
Proof.
  intros Hst Hh Ha Hb Hm Hle. unfold finish_query.
  assert (faultline_message_decode wire = inl SHORT \/ faultline_message_decode wire <> inl SHORT) as [Ed|Hne]
    by (destruct (faultline_message_decode wire) as [[]|]; (by left) || (by right)).
  2:{ intros H. eapply (check_query_spec fd expected name wire); try done.
      by destruct (faultline_message_decode wire) as [[]|]. }
  rewrite Ed. destruct (receive_query_bytes net fd _ start name world) as [[data|] w1] eqn:E1;
    apply query_bytes_spec in E1 as Hq1; [|lia| |lia].
  - destruct Hq1 as (Hm1 & Hb1 & Hl1). pose proof (header_decode_length _ _ Hh).
    pose proof (moved_trans fd [] _ [] _ _ _ _ Hm Hm1) as Hm2. cbn [app] in Hm2.
    assert (faultline_header_decode (wire ++ data) = inr h) as Hh2.
    { rewrite header_decode_more; [done|unfold FAULTLINE_HEADER_SIZE in *; lia]. }
    apply (check_query_spec fd expected name (wire ++ data) h); try done.
    + by apply bytes_ok_app.
    + rewrite length_app. lia.
    + intros Hshort. apply (decode_short _ h) in Hshort; [|done]. rewrite length_app in Hshort. lia.
  - intros [= <- <-]. destruct Hq1 as (data & Hm1 & Hl1).
    pose proof (moved_trans fd [] _ [] _ _ _ _ Hm Hm1) as Hm2. cbn [app] in Hm2.
    exists (wire ++ data). split; [done|]. intros m rest Hs _ Hin.
    destruct (frame_at_front fd wire h m rest world0 world Hm Hh Hle Hs Hin) as [Hf Hd].
    rewrite Ed in Hd. destruct (Z.ltb_spec (Z.of_nat (length wire)) (Z.of_nat (length (frame_of m)))); [|done].
    rewrite length_app. split; [lia|]. right. eexists _, _. rewrite <- Hst.
    split; [by eapply query_bytes_broken|done].
Qed.

(** The header of the right answer passes the tests of the client. *)
Lemma right_header fd expected head m rest world world' :
  expected ∈ QUERY_RESPONSES -> moved fd [] head world world' ->
  Z.of_nat (length head) = FAULTLINE_HEADER_SIZE ->
  sendable m -> answers expected (message_type m) ->
  incoming (net_state net world) fd = frame_of m ++ rest ->
  exists h, faultline_header_decode head = inr h /\ h_message_type h = message_type m /\
    Z.of_nat (length (frame_of m)) = FAULTLINE_HEADER_SIZE + h_payload_length h /\
    fst (query_sizes (h_message_type h)) <= h_payload_length h <= snd (query_sizes (h_message_type h)).
Proof.
  intros He Hm Hl Hs Ha Hin. pose proof (frame_size m Hs).
  destruct (moved_start fd head world world' (frame_of m) rest Hm Hin ltac:(lia)) as [more Hf].
  destruct (sendable_header m head more Hs Hf Hl) as (h & Hh & Ht & Hlen & Hbounds).
  destruct (query_sizes_bounds expected (message_type m) He Ha) as [Hb _].
  exists h. do 3 (split; [done|]). rewrite Ht. apply Hbounds. by rewrite Hb, <- surjective_pairing.
Qed.

(** A refusal by the header: the stream does not start with a right answer. *)
Lemma refused_header fd expected name head world0 world world' :
  expected ∈ QUERY_RESPONSES -> moved fd [] head world0 world ->
  Z.of_nat (length head) = FAULTLINE_HEADER_SIZE ->
  same_sockets (net_state net world) (net_state net world') ->
  (forall h, faultline_header_decode head = inr h -> answers expected (h_message_type h) ->
     ~ (fst (query_sizes (h_message_type h)) <= h_payload_length h <= snd (query_sizes (h_message_type h)))) ->
  query_outcome fd expected name None world0 world'.
Proof.
  intros He Hm Hl Hq Hbad. exists head. split; [by eapply moved_after|]. intros m rest Hs Ha Hin. exfalso.
  destruct (right_header fd expected head m rest world0 world He Hm Hl Hs Ha Hin) as (h & Hh & Ht & _ & Hsizes).
  rewrite <- Ht in Ha. by apply (Hbad h Hh Ha).
Qed.

(** A receive that has failed after the bytes [got]. *)
Lemma stopped_short fd expected name got size start world0 world world' :
  start = fst (faultline_monotonic_ms net world0) ->
  moved fd [] got world0 world -> 0 < size ->
  (forall m rest, sendable m -> answers expected (message_type m) ->
     incoming (net_state net world0) fd = frame_of m ++ rest ->
     Z.of_nat (length got) + size <= Z.of_nat (length (frame_of m))) ->
  receive_query_bytes net fd size start name world = (None, world') ->
  query_outcome fd expected name None world0 world'.
Proof.
  intros Hst Hm Hsize Hlen E. apply query_bytes_broken in E as Hb. apply query_bytes_spec in E as Hq; [|lia]. destruct Hq as (data & Hm1 & Hl1).
  exists (got ++ data). split; [apply (moved_trans fd [] _ [] _ _ _ _ Hm Hm1)|]. intros m rest Hs Ha Hin.
  specialize (Hlen m rest Hs Ha Hin). rewrite length_app. split; [lia|]. right. eexists _, _. by rewrite <- Hst.
Qed.

Lemma receive_query_spec fd expected name world reply world' :
  expected ∈ QUERY_RESPONSES -> receive_query net fd expected name world = (reply, world') ->
  query_outcome fd expected name reply world world'.
Proof.
  intros He. unfold receive_query. destruct (faultline_monotonic_ms net world) as [start w1] eqn:E1.
  apply (monotonic_step net) in E1 as Hq1. destruct Hq1 as (Hq1 & _).
  destruct (Z.ltb_spec start 0) as [Hclock|_].
  { intros [= <- <-]. exists []. split; [apply moved_quiet; etrans; [done|apply print_sockets]|].
    intros m rest Hs _ _. pose proof (frame_size m Hs). unfold FAULTLINE_HEADER_SIZE in *. split; [cbn [length]; lia|]. left. by rewrite E1. }
  assert (start = fst (faultline_monotonic_ms net world)) as Hst by by rewrite E1.
  destruct (receive_query_bytes net fd _ start name w1) as [[head|] w2] eqn:E2.
  2:{ intros [= <- <-]. apply (stopped_short fd expected name [] FAULTLINE_HEADER_SIZE start world w1);
        [done|by apply moved_quiet|done| |done]. intros m rest Hs _ _. by apply frame_size. }
  apply query_bytes_spec in E2 as (Hm2 & Hb2 & Hl2); [|done].
  pose proof (moved_before _ _ _ _ _ _ Hq1 Hm2) as Hm. clear Hm2.
  destruct (faultline_header_decode head) as [e|h] eqn:Eh.
  { intros [= <- <-]. eapply refused_header; [done|exact Hm|done|apply print_sockets|]. congruence. }
  destruct (_ && _) eqn:Ea.
  { intros [= <- <-]. eapply refused_header; [done|exact Hm|done|apply print_sockets|].
    intros h' Hh' Ha%answers_test. congruence. }
  apply answers_test in Ea. destruct (query_sizes_bounds expected _ He Ea) as [_ Hpos].
  destruct (query_sizes (h_message_type h)) as [prefix maximum] eqn:Es. cbn [fst] in Hpos.
  destruct (_ || _) eqn:El.
  { intros [= <- <-]. eapply refused_header; [done|exact Hm|done|apply print_sockets|].
    intros h' Hh' _. rewrite Eh in Hh'. injection Hh' as <-. rewrite Es. cbn. lia. }
  split_bools. reflect_bools.
  destruct (receive_query_bytes net fd prefix start name w2) as [[fixed|] w3] eqn:E3.
  - apply query_bytes_spec in E3 as (Hm3 & Hb3 & Hl3); [|lia].
    pose proof (moved_trans fd [] _ [] _ _ _ _ Hm Hm3) as Hm4. cbn [app] in Hm4.
    replace (h_payload_length h - prefix) with
      (FAULTLINE_HEADER_SIZE + h_payload_length h - Z.of_nat (length (head ++ fixed)))
      by (rewrite length_app; lia).
    apply (finish_query_spec fd expected start name (head ++ fixed) h); [done| |done| |done|].
    + rewrite header_decode_more; [done|]. unfold FAULTLINE_HEADER_SIZE in Hl2. lia.
    + by apply bytes_ok_app.
    + rewrite length_app. lia.
  - intros [= <- <-]. apply (stopped_short fd expected name head prefix start world w2); [done..| |done].
    intros m rest Hs Ha Hin.
    destruct (right_header fd expected head m rest world w2 He Hm Hl2 Hs Ha Hin) as (h' & Hh' & _ & Hlen & _).
    rewrite Eh in Hh'. injection Hh' as <-. lia.
Qed.

Lemma frame_unique fd m m' rest world world' :
  sendable m -> moved fd [] (frame_of m) world world' ->
  sendable m' -> incoming (net_state net world) fd = frame_of m' ++ rest -> m = m'.
Proof.
  intros Hs Hm Hs' Hin. rewrite (mv_got _ _ _ _ _ _ Hm) in Hin.
  pose proof (sendable_decodes m (incoming (net_state net world') fd) Hs) as Hd.
  rewrite Hin, sendable_decodes in Hd by done. congruence.
Qed.

(** C37: an answer is accepted exactly if it is there: a query that ends with a message has taken one
    whole frame off the stream, the encoding of that message, which is valid and of a type that
    answers the query; and if the stream starts with the frame of a right answer, then that very
    message is the result, unless the clock or a receive fails before the frame is complete. *)
Theorem query_exact fd expected name world reply world' :
  expected ∈ QUERY_RESPONSES -> receive_query net fd expected name world = (reply, world') ->
  match reply with
  | Some m =>
      sendable m /\ answers expected (message_type m) /\ moved fd [] (frame_of m) world world' /\
      forall m' rest, sendable m' -> incoming (net_state net world) fd = frame_of m' ++ rest -> m = m'
  | None =>
      exists got, moved fd [] got world world' /\
        forall m rest, sendable m -> answers expected (message_type m) ->
          incoming (net_state net world) fd = frame_of m ++ rest ->
          (length got < length (frame_of m))%nat /\ interrupted fd name world world'
  end.
Proof.
  intros He H. apply receive_query_spec in H; [|done]. destruct reply as [m|]; [|done].
  destruct H as (Hs & Ha & Hm). do 3 (split; [done|]). intros m' rest Hs' Hin.
  by eapply frame_unique.
Qed.

(** ** submit *)

(** What the options read so far stand for. *)
Record options_typed (o : submit_options) : Prop := {
  ot_task : 1 <= s_task_type (so_submit o) <= 4;
  ot_retries : in_u32 (s_max_retries (so_submit o));
  ot_size : s_argument_size (so_submit o) = Z.of_nat (length (s_arguments (so_submit o)));
  ot_bytes : bytes_ok (s_arguments (so_submit o));
  ot_fits : s_argument_size (so_submit o) <= FAULTLINE_JOB_MAX_ARGUMENT_SIZE;
}.

Lemma parse_retries_typed value n : parse_retries value = Some n -> in_u32 n.
Proof.
  rewrite parse_retries_spec. unfold decimal_between. destruct (decimal_value value); [|done].
  destruct (_ && _) eqn:E; [|done]. intros [= <-]. ilia.
Qed.

Lemma parse_submit_option_typed o name value o' :
  options_typed o -> bytes_ok value -> parse_submit_option net o name value = Some o' -> options_typed o'.
Proof.
  intros [] Hv. unfold parse_submit_option.
  match goal with |- context [match ?e with Some _ => _ | None => _ end] => destruct e as [[host port]|] end.
  { intros [= <-]. by split. }
  match goal with |- context [match ?e with Some _ => _ | None => _ end] => destruct e as [n|] eqn:En end.
  { destruct (_ && negb (so_retries_seen o)); [|done]. apply parse_retries_typed in En. intros [= <-]. by split. }
  destruct (_ && (_ <=? FAULTLINE_JOB_MAX_ARGUMENT_SIZE)) eqn:E1.
  { split_bools. reflect_bools. intros [= <-]. by split. }
  clear E1 En. destruct (_ && (_ mod 2 =? 0)) eqn:E2; [|done]. split_bools. reflect_bools.
  destruct (parse_hex value) as [bytes|] eqn:Eh; [|done]. intros [= <-].
  pose proof (parse_hex_bytes _ _ Eh). apply parse_hex_length in Eh; [|done]. split; cbn; try done. lia.
Qed.

Lemma parse_submit_options_typed o args o' :
  options_typed o -> Forall bytes_ok args -> parse_submit_options net o args = Some o' -> options_typed o'.
Proof.
  revert o. induction args as [args IH] using (induction_ltof1 _ length). unfold ltof in IH. intros o Ho Hargs.
  destruct args as [|name [|value args]]; cbn [parse_submit_options]; [by intros [= <-]|done|].
  apply Forall_cons in Hargs as [_ Hargs]. apply Forall_cons in Hargs as [Hv Hargs].
  destruct (parse_submit_option net o name value) as [o1|] eqn:E; [|done].
  apply parse_submit_option_typed in E; [|done..]. apply IH; [cbn; lia|done..].
Qed.

Lemma find_task_range name : 0 <= find_task 0 TASKS name 0 <= 4.
Proof. unfold TASKS. cbn [find_task]. repeat destruct (text_eqb name _); vm_compute; done. Qed.

Lemma parse_submit_typed args o :
  Forall bytes_ok args -> parse_submit net args = Some o -> options_typed o.
Proof.
  intros Hargs. unfold parse_submit. destruct args as [|task args]; [done|].
  pose proof (find_task_range task). apply Forall_cons in Hargs as [_ Hargs].
  set (type := find_task 0 TASKS task 0) in *. clearbody type. destruct (Z.eqb_spec type 0); [done|].
  apply parse_submit_options_typed; [|done]. split; cbn; [lia|done|done|constructor|done].
Qed.

Lemma find_task_named name :
  find_task 0 TASKS name 0 <> 0 -> TASKS !! Z.to_nat (find_task 0 TASKS name 0 - 1) = Some name.
Proof.
  unfold TASKS. cbn [find_task]. unfold text_eqb. repeat case_bool_decide; subst; vm_compute; done.
Qed.

Lemma parse_submit_option_task o name value o' :
  parse_submit_option net o name value = Some o' -> s_task_type (so_submit o') = s_task_type (so_submit o).
Proof. unfold parse_submit_option. repeat case_match; try done; by intros [= <-]. Qed.

Lemma parse_submit_options_task o args o' :
  parse_submit_options net o args = Some o' -> s_task_type (so_submit o') = s_task_type (so_submit o).
Proof.
  revert o. induction args as [args IH] using (induction_ltof1 _ length). unfold ltof in IH. intros o.
  destruct args as [|name [|value args]]; cbn [parse_submit_options]; [by intros [= <-]|done|].
  destruct (parse_submit_option net o name value) as [o1|] eqn:E; [|done].
  apply parse_submit_option_task in E. rewrite <- E. apply IH. cbn. lia.
Qed.

Lemma parse_submit_task args o :
  parse_submit net args = Some o -> head args = TASKS !! Z.to_nat (s_task_type (so_submit o) - 1).
Proof.
  unfold parse_submit. destruct args as [|task args]; [done|]. pose proof (find_task_named task) as Hn.
  destruct (Z.eqb_spec (find_task 0 TASKS task 0) 0) as [|Hne]; [done|].
  intros H. apply parse_submit_options_task in H. cbn [so_submit s_task_type] in H. rewrite H. by rewrite Hn.
Qed.

Lemma submit_sendable o : options_typed o -> sendable (MsgJobSubmit (so_submit o)).
Proof.
  intros []. eapply sendable_valid; [cbn; split_and!; [unfold_ints; lia|done|by split]|].
  assert (valid_task (s_task_type (so_submit o)) = true) as Hv by (unfold valid_task; cbn; lia).
  eapply valid_sized; [done|cbn; by rewrite Hv|done|cbn; plia].
Qed.

(** The acknowledgement: one whole frame, or nothing to rely on. *)
Lemma receive_ack_spec fd world r world' :
  receive_submit_ack net fd world = (r, world') ->
  match r with
  | Some id => sendable (MsgJobSubmitAck id) /\ moved fd [] (frame_of (MsgJobSubmitAck id)) world world'
  | None => exists got, moved fd [] got world world'
  end.
Proof.
  unfold receive_submit_ack. destruct (faultline_monotonic_ms net world) as [start w1] eqn:E1.
  apply (monotonic_step net) in E1 as (Hq1 & _).
  destruct (start <? 0); [intros [= <- <-]; exists []; by apply moved_quiet|].
  destruct (faultline_recv_exact net fd _ _ w1) as [head w2] eqn:E2.
  apply recv_exact_moved in E2 as (Hm2 & Hb2 & Hl2); [|done].
  pose proof (moved_before _ _ _ _ _ _ Hq1 Hm2) as Hm. clear Hm2.
  assert (forall message, moved fd [] (receive_data head) world (complain net message w2)).
  { intros message. eapply moved_after; [done|apply print_sockets]. }
  destruct (bool_decide _); cbn [negb]; [|intros [= <- <-]; eauto].
  destruct (faultline_header_decode _) as [e|h] eqn:Eh; [intros [= <- <-]; eauto|].
  destruct (_ || _) eqn:Et; [intros [= <- <-]; eauto|]. split_bools. reflect_bools.
  destruct (faultline_monotonic_ms net w2) as [now w3] eqn:E3. apply (monotonic_step net) in E3 as (Hq3 & _).
  pose proof (moved_after _ _ _ _ _ _ Hm Hq3) as Hm3.
  destruct (_ || _); [intros [= <- <-]; eexists; eapply moved_after; [done|apply print_sockets]|].
  destruct (faultline_recv_exact net fd _ _ w3) as [payload w4] eqn:E4.
  apply recv_exact_moved in E4 as (Hm4 & Hb4 & Hl4); [|done].
  pose proof (moved_trans fd [] _ [] _ _ _ _ Hm3 Hm4) as Hm5. cbn [app] in Hm5.
  assert (forall message, exists got, moved fd [] got world (complain net message w4)).
  { intros message. eexists. eapply moved_after; [done|apply print_sockets]. }
  destruct (bool_decide _); cbn [negb]; [|intros [= <- <-]; eauto].
  destruct (faultline_message_decode _) as [e|[m consumed]] eqn:Ed; [intros [= <- <-]; eauto|].
  destruct m; intros [= <- <-]; eauto.
  assert (faultline_header_decode (receive_data head ++ receive_data payload) = inr h) as Hh.
  { rewrite header_decode_more; [done|]. unfold FAULTLINE_HEADER_SIZE in Hl2. lia. }
  pose proof (decode_consumed _ _ _ _ Ed Hh) as ->.
  apply decoded_frame in Ed as [Hs Hf]; [|by apply bytes_ok_app]. split; [done|].
  rewrite Hf, take_ge; [done|]. rewrite length_app. lia.
Qed.

(** C39: a command line that [submit] accepts is always a message within the limits of the protocol: a known
    task, which is the one that was named, a retry limit of 32 bits and at most 1024 bytes of
    arguments, so that the encoder never refuses it. *)
Theorem submission_typed args o :
  Forall bytes_ok args -> parse_submit net args = Some o ->
  message_typed (MsgJobSubmit (so_submit o)) /\
  head args = TASKS !! Z.to_nat (s_task_type (so_submit o) - 1) /\
  Z.of_nat (length (s_arguments (so_submit o))) <= FAULTLINE_JOB_MAX_ARGUMENT_SIZE /\
  faultline_message_encode FAULTLINE_MESSAGE_MAX_FRAME_SIZE (MsgJobSubmit (so_submit o)) =
    inr (frame_of (MsgJobSubmit (so_submit o))).
Proof.
  intros Hargs Ho. pose proof (parse_submit_typed args o Hargs Ho) as Ht.
  pose proof (submit_sendable o Ht) as Hs. split; [apply Hs|].
  split; [by apply parse_submit_task|]. split; [|by apply sendable_frame].
  rewrite <- (ot_size o Ht). apply Ht.
Qed.

Lemma ack_id id : sendable (MsgJobSubmitAck id) -> 0 < id <= UINT64_MAX.
Proof.
  intros [Ht [frame E]]. apply message_encode_ok in E as (n & Hv & _); [|done]. cbn in Ht. unfold_ints.
  unfold validate_message in Hv. cbn in Hv. destruct (Z.eqb_spec id 0); [done|]. lia.
Qed.

(** C38: [submit] reports a job only on proof: when it exits with success it has sent the whole submission
    and taken one whole acknowledgement off the stream, and it has printed the ID of that
    acknowledgement, which is not 0. Otherwise it exits with failure and the coordinator has been
    given a part of the submission at most, or all of it without a valid acknowledgement. *)
Theorem submit_confirmed fd wire world status world' :
  exchange_submit net fd wire world = (status, world') ->
  (status = EXIT_SUCCESS /\ exists id w,
     0 < id <= UINT64_MAX /\ moved fd wire (frame_of (MsgJobSubmitAck id)) world w /\
     world' = print net stdout (line "job_id" (print_uint id)) w) \/
  (status = EXIT_FAILURE /\ exists sent got, sent `prefix_of` wire /\ moved fd sent got world world').
Proof.
  unfold exchange_submit.
  destruct (faultline_send_all net fd wire _ world) as [[[]|e] w1] eqn:E1; apply (send_all_moved net) in E1.
  - destruct (receive_submit_ack net fd w1) as [[id|] w2] eqn:E2; apply receive_ack_spec in E2; intros [= <- <-].
    + left. split; [done|]. destruct E2 as [Hs Hm]. exists id, w2. split; [by apply ack_id|]. split; [|done].
      rewrite <- (app_nil_r wire). apply (moved_trans fd _ [] [] _ _ _ _ E1 Hm).
    + right. split; [done|]. destruct E2 as [got Hm]. exists wire, got. split; [done|].
      eapply moved_after; [|apply print_sockets]. rewrite <- (app_nil_r wire).
      apply (moved_trans fd _ [] [] _ _ _ _ E1 Hm).
  - intros [= <- <-]. right. split; [done|]. destruct E1 as (part & Hp & Hm). exists part, []. split; [done|].
    eapply moved_after; [exact Hm|]. etrans; apply print_sockets.
Qed.

End Queries.

(** C40: the parsers of the client and of the options of the processes read decimal numerals as unbounded
    integers would, between their limits, although they compute in 16, 32 or 64 bits; the
    hexadecimal arguments of a submission are the bytes whose digits were given, in either case. *)
Theorem argument_parsers_exact text bytes :
  parse_retries text = decimal_between 0 UINT32_MAX text /\
  parse_job_id text = decimal_between 1 UINT64_MAX text /\
  faultline_parse_port text = decimal_between 1 UINT16_MAX text /\
  faultline_parse_duration_ms text = decimal_between 1 INT_MAX text /\
  (bytes_ok bytes -> parse_hex (hex_text bytes) = Some bytes) /\
  parse_hex (upper <$> text) = parse_hex text.
Proof.
  split; [apply parse_retries_spec|]. split; [apply parse_job_id_spec|]. split; [apply parse_port_spec|].
  split; [apply parse_duration_spec|]. split; [apply parse_hex_print|apply parse_hex_upper].
Qed.

(** ** status against the coordinator *)

(** What the coordinator queues for a request. *)
Definition status_answer (s : faultline_scheduler) (id : Z) : faultline_message :=
  match faultline_scheduler_find s id with
  | None => MsgJobStatusNotFound id
  | Some job => status_reply job
  end.

Lemma status_answer_sendable s id :
  sched_wf s -> 0 < id <= UINT64_MAX -> sendable (status_answer s id).
Proof.
  intros Hs Hid. unfold status_answer. destruct (faultline_scheduler_find s id) as [j|] eqn:E.
  - apply find_some in E as (_ & Hin & _); [|done]. apply status_sendable.
    pose proof (sched_jobs_wf s Hs) as Hf. rewrite Forall_forall in Hf. by apply Hf.
  - apply id_sendable; ilia.
Qed.

Lemma status_answers s id : answers FAULTLINE_MSG_JOB_STATUS_RESPONSE (message_type (status_answer s id)).
Proof. unfold status_answer. destruct (faultline_scheduler_find s id); [by left|by right]. Qed.

(** The line of the result of a completed job. *)
Lemma result_shown j :
  job_wf j -> job_state j = FAULTLINE_JOB_DONE -> exists before,
    concat (status_text (status_snapshot j)) =
      before ++ text "result=" ++ quote ++ escape_loop (result j) ++ quote ++ newline.
Proof.
  intros Hj Hd. eexists. unfold status_text. cbn [st_state status_snapshot]. rewrite Hd.
  change (u16 (job_state_value FAULTLINE_JOB_DONE) =? job_state_value FAULTLINE_JOB_DONE) with true. cbn iota.
  rewrite !concat_app. cbn [st_result_size st_result status_snapshot].
  rewrite take_ge by (rewrite (wf_result_size j Hj); lia).
  by rewrite result_escaped by apply Hj.
Qed.

Section Status.
Context {W : Type} (net : net_os W) (stream_errno : W -> Z) {FIN : NetFinite net} {NET : Net net}.

Local Abbreviation moved := (NetProofs.moved net).

(** What the client does with the answer. *)
Definition shown (s : faultline_scheduler) (id : Z) (world : W) : Z * W :=
  match faultline_scheduler_find s id with
  | None => (2, print net stderr (text "faultline: job " ++ print_uint id ++ text " not found" ++ newline) world)
  | Some job => print_status net stream_errno (status_snapshot job) world
  end.

Lemma answer_shown s id world :
  sched_wf s -> answer_status net stream_errno id (status_answer s id) world = shown s id world.
Proof.
  intros Hs. unfold status_answer, shown. destruct (faultline_scheduler_find s id) as [j|] eqn:E.
  - apply find_some in E as (_ & _ & <-); [|done]. cbn. by rewrite Z.eqb_refl.
  - cbn. by rewrite Z.eqb_refl.
Qed.

(** The request was not sent in full; or it was, and the wait for the answer is broken off before the
    answer is complete. *)
Definition exchange_broken (fd : Z) (s : faultline_scheduler) (id : Z) (wire sent got : list Z)
    (world world' : W) : Prop :=
  match faultline_send_all net fd wire FAULTLINE_IO_TIMEOUT_MS world with
  | (OsErr _, _) => sent `prefix_of` wire /\ got = []
  | (OsOk _, w) => sent = wire /\ (length got < length (frame_of (status_answer s id)))%nat /\
      interrupted net fd (text "status") w world'
  end.

Lemma exchange_status_spec fd s id wire world status world' rest :
  sched_wf s -> 0 < id <= UINT64_MAX ->
  incoming (net_state net world) fd = frame_of (status_answer s id) ++ rest ->
  exchange_status net stream_errno fd id wire world = (status, world') ->
  (exists w, moved fd wire (frame_of (status_answer s id)) world w /\ (status, world') = shown s id w) \/
  (status = EXIT_FAILURE /\ exists sent got, moved fd sent got world world' /\
     exchange_broken fd s id wire sent got world world').
Proof.
  intros Hs Hid Hin. pose proof (status_answer_sendable s id Hs Hid) as Hsend.
  pose proof (frame_size _ Hsend) as Hsize. unfold FAULTLINE_HEADER_SIZE in Hsize. unfold exchange_status.
  unfold exchange_broken.
  destruct (faultline_send_all net fd wire _ world) as [[[]|e] w1] eqn:E1; apply (send_all_moved net) in E1.
  2:{ intros [= <- <-]. right. split; [done|]. destruct E1 as (part & Hp & Hm). exists part, [].
      split; [eapply moved_after; [exact Hm|apply (print_sockets net)]|done]. }
  pose proof (mv_got _ _ _ _ _ _ E1) as Hin1. rewrite Hin in Hin1. cbn [app] in Hin1. symmetry in Hin1.
  assert (forall got w2, moved fd [] got w1 w2 -> moved fd wire got world w2) as Hboth.
  { intros got w2 Hm. rewrite <- (app_nil_r wire). apply (moved_trans fd _ [] [] _ _ _ _ E1 Hm). }
  destruct (receive_query net fd _ _ w1) as [reply w2] eqn:E2.
  apply (receive_query_spec net) in E2; [|set_solver]. destruct reply as [m|].
  - destruct E2 as (Hsm & _ & Hm). assert (m = status_answer s id) as -> by (by eapply (frame_unique net)).
    rewrite answer_shown by done. intros H. left. exists w2. split; [by apply Hboth|done].
  - intros [= <- <-]. right. split; [done|]. destruct E2 as (got & Hm & Hshort).
    exists wire, got. split; [by apply Hboth|]. split; [done|].
    by eapply (Hshort (status_answer s id)); [done|apply status_answers|].
Qed.

(** C6: [status] shows what the coordinator knows: when the stream holds the coordinator's answer for the
    job, the client prints the record of that job, or that there is none, with the exit status for
    it, having sent the whole request and taken exactly the answer. It fails otherwise only if the
    request could not be sent, with nothing taken, or if, with the answer still incomplete, the clock
    failed, the time for the answer was up or a receive failed. The printed result of a completed job stands for its bytes. *)
Theorem status_end_to_end fd s id wire world status world' rest :
  sched_wf s -> 0 < id <= UINT64_MAX ->
  incoming (net_state net world) fd = frame_of (status_answer s id) ++ rest ->
  exchange_status net stream_errno fd id wire world = (status, world') ->
  ((exists w, moved fd wire (frame_of (status_answer s id)) world w /\ (status, world') = shown s id w) \/
   (status = EXIT_FAILURE /\ exists sent got, moved fd sent got world world' /\
      exchange_broken fd s id wire sent got world world')) /\
  (forall job, faultline_scheduler_find s id = Some job -> job_state job = FAULTLINE_JOB_DONE ->
     exists before printed, concat (status_text (status_snapshot job)) =
         before ++ text "result=" ++ quote ++ printed ++ quote ++ newline /\
       unescape printed = result job /\ Forall field_char printed).
Proof.
  intros Hs Hid Hin E. split; [by eapply exchange_status_spec|]. intros job Hf Hd.
  apply find_some in Hf as (_ & Hj & _); [|done]. pose proof (sched_jobs_wf s Hs) as Hwf.
  rewrite Forall_forall in Hwf. specialize (Hwf job Hj).
  destruct (result_shown job Hwf Hd) as [before Hb]. exists before, (escape_loop (result job)).
  split; [done|]. split; [apply unescape_escape|apply escape_fields]; apply Hwf.
Qed.

End Status.

(** ** The client on the simulated network *)

(** The coordinator's answers arrive in pieces; the listing is followed by another byte. *)
Definition answer_machine (answer : faultline_message) : sim_net :=
  mk_sim_net 100 0 [] [3] {[3 := [take 5 (frame_of answer); drop 5 (frame_of answer) ++ [7]]]} ∅ [] [NetInterrupt] [].

Lemma jobs_answered :
  fst (receive_query sim_net_os 3 FAULTLINE_MSG_JOBS_RESPONSE (text "jobs") (answer_machine (MsgJobsResponse []))) =
  Some (MsgJobsResponse []).
Proof. vm_compute. reflexivity. Qed.

Lemma query_exact_witness :
  exists world', moved sim_net_os 3 [] (frame_of (MsgJobsResponse [])) (answer_machine (MsgJobsResponse [])) world'.
Proof.
  pose proof jobs_answered as Hr.
  pose proof (query_exact sim_net_os 3 FAULTLINE_MSG_JOBS_RESPONSE (text "jobs") (answer_machine (MsgJobsResponse []))) as H.
  destruct (receive_query sim_net_os 3 _ _ _) as [reply world']. cbn [fst] in Hr. subst reply.
  specialize (H _ _ ltac:(set_solver) eq_refl). exists world'. apply H.
Defined.

Definition hash_command : list (list Z) :=
  [text "hash"; text "--args-hex"; text "00fF"; text "--max-retries"; text "2"].

Lemma submission_typed_witness :
  message_typed (MsgJobSubmit (mk_submit 4 2 2 [0; 255])).
Proof.
  exact (proj1 (submission_typed sim_net_os hash_command
    (mk_submit_options FAULTLINE_DEFAULT_HOST FAULTLINE_DEFAULT_PORT (mk_submit 4 2 2 [0; 255]) true true false)
    ltac:(repeat constructor; done) ltac:(vm_compute; reflexivity))).
Defined.

Lemma submit_status :
  fst (exchange_submit sim_net_os 3 (frame_of (MsgJobSubmit sample_payload)) (answer_machine (MsgJobSubmitAck 12))) =
  EXIT_SUCCESS.
Proof. vm_compute. reflexivity. Qed.

Lemma submit_confirmed_witness :
  exists id w, 0 < id <= UINT64_MAX /\
    moved sim_net_os 3 (frame_of (MsgJobSubmit sample_payload)) (frame_of (MsgJobSubmitAck id))
      (answer_machine (MsgJobSubmitAck 12)) w.
Proof.
  pose proof submit_status as Hs.
  pose proof (submit_confirmed sim_net_os 3 (frame_of (MsgJobSubmit sample_payload))
    (answer_machine (MsgJobSubmitAck 12))) as H.
  destruct (exchange_submit sim_net_os 3 _ _) as [status world']. cbn [fst] in Hs. subst status.
  destruct (H _ _ eq_refl) as [(_ & id & w & Hid & Hm & _)|[Hbad _]]; [|discriminate Hbad].
  exists id, w. split; [exact Hid|exact Hm].
Defined.

Lemma argument_parsers_exact_witness :
  parse_hex (hex_text [0; 171; 255]) = Some [0; 171; 255] /\ parse_retries (text "4294967296") = None.
Proof.
  destruct (argument_parsers_exact (text "4294967296") [0; 171; 255]) as (Hr & _ & _ & _ & Hh & _).
  split; [apply Hh; repeat constructor; done|]. rewrite Hr. vm_compute. reflexivity.
Defined.

Definition status_wire : list Z := frame_of (MsgJobStatusRequest 1).

Lemma status_incoming :
  incoming (sim_net_view (answer_machine (status_answer sample_sched 1))) 3 =
  frame_of (status_answer sample_sched 1) ++ [7].
Proof. vm_compute. reflexivity. Qed.

Lemma status_success :
  fst (exchange_status sim_net_os (fun _ => 0) 3 1 status_wire (answer_machine (status_answer sample_sched 1))) =
  EXIT_SUCCESS.
Proof. vm_compute. reflexivity. Qed.

Lemma status_end_to_end_witness :
  exists w, moved sim_net_os 3 status_wire (frame_of (status_answer sample_sched 1))
    (answer_machine (status_answer sample_sched 1)) w.
Proof.
  pose proof status_success as Hs.
  pose proof (status_end_to_end sim_net_os (fun _ => 0) 3 sample_sched 1 status_wire
    (answer_machine (status_answer sample_sched 1))) as H.
  destruct (exchange_status sim_net_os _ 3 1 _ _) as [status world']. cbn [fst] in Hs. subst status.
  destruct (H _ _ [7] sample_sched_wf ltac:(vm_compute; done) status_incoming eq_refl)
    as [[(w & Hm & _)|[Hbad _]] _]; [|discriminate Hbad].
  exists w. exact Hm.
Defined.
