(* ===== verification/TimingProofs.v ===== *)
(** Time: the transfers, the waits of the worker and its registration end by their deadlines, and fail
    only for a cause.

    The bounds are in terms of [delay], the time that a call takes beyond what it is asked to wait
    ([NetPrompt]). They do not depend on how often calls are interrupted or how the peer splits its
    data, and no outcome is due to the fuel of a loop. *)

From S2P Require Import Prelude Text Protocol ProtocolProofs WalWriter Net NetLaws SimNet NetProofs Log Framing Worker WorkerProofs CliProofs.

Section Prompt.
Context {W : Type} (net : net_os W) {NET : Net net}.

(** The call takes at most [time]. *)
Definition takes {A} (time : Z) (call : W -> A * W) : Prop := forall world r world',
  0 <= clock (net_state net world) -> call world = (r, world') ->
  clock (net_state net world') <= clock (net_state net world) + time.

(** Every call returns within [delay], and [poll] within its timeout and [delay]: the sockets are
    non-blocking. *)
Class NetPrompt (delay : Z) : Prop := {
  prompt_delay : 0 <= delay;
  prompt_monotonic : takes delay (os_monotonic net);
  prompt_realtime : takes delay (os_realtime net);
  prompt_stopping : takes delay (os_stopping net);
  prompt_poll l timeout : 0 <= timeout -> takes (timeout + delay) (os_poll net l timeout);
  prompt_recv d size : takes delay (os_recv net d size);
  prompt_send d data : takes delay (os_send net d data);
  prompt_print s l : takes delay (os_print net s l);
  prompt_flush s : takes delay (os_flush net s);
}.

End Prompt.

Section Timing.
Context {W : Type} (net : net_os W) {FIN : NetFinite net} {NET : Net net}.
Context (delay : Z) {PROMPT : NetPrompt net delay}.

Local Abbreviation view_of world := (net_state net world).
Local Abbreviation time_of world := (clock (net_state net world)).

(** ** Single calls *)

Lemma monotonic_timed world now world' :
  0 <= time_of world -> faultline_monotonic_ms net world = (now, world') ->
  time_of world <= time_of world' <= time_of world + delay /\ (0 <= now -> time_of world <= now <= time_of world').
Proof.
  intros H0 E. destruct (monotonic_step net _ _ _ E) as (Hs & _ & Hnow).
  pose proof (same_clock _ _ Hs). split; [|done]. split; [done|].
  unfold faultline_monotonic_ms in E. destruct (os_monotonic net world) as [[[s n]|e] w] eqn:E1;
    injection E as _ <-; by eapply (prompt_monotonic net).
Qed.

Lemma stopping_timed world z world' :
  0 <= time_of world -> os_stopping net world = (z, world') ->
  time_of world <= time_of world' <= time_of world + delay /\ (z <> 0 <-> stopped (view_of world') = true) /\
  (stopped (view_of world) = true -> z <> 0).
Proof.
  intros H0 E. destruct (law_stopping net _ _ _ E) as [Hs Hz].
  split; [split; [apply Hs|by eapply (prompt_stopping net)]|]. split; [done|].
  intros H. apply Hz. by apply (same_stopped _ _ Hs).
Qed.

Lemma poll_timed l timeout world r world' :
  0 <= time_of world -> 0 <= timeout -> os_poll net l timeout world = (r, world') ->
  time_of world <= time_of world' <= time_of world + timeout + delay.
Proof.
  intros H0 Ht E. destruct (law_poll net _ _ _ _ _ E) as [Hs _]. pose proof (same_clock _ _ Hs).
  pose proof (prompt_poll net l timeout Ht _ _ _ H0 E). lia.
Qed.

Lemma recv_timed d size world r world' :
  0 <= time_of world -> os_recv net d size world = (r, world') ->
  time_of world <= time_of world' <= time_of world + delay.
Proof.
  intros H0 E. destruct (law_recv net _ _ _ _ _ E) as (Hs & _). pose proof (others_clock _ _ _ Hs).
  split; [done|]. by eapply (prompt_recv net).
Qed.

Lemma send_timed d data world r world' :
  0 <= time_of world -> os_send net d data world = (r, world') ->
  time_of world <= time_of world' <= time_of world + delay.
Proof.
  intros H0 E. destruct (law_send net _ _ _ _ _ E) as (Hs & _). pose proof (others_clock _ _ _ Hs).
  split; [done|]. by eapply (prompt_send net).
Qed.

(** A log record takes seven calls. *)
Lemma log_timed s level component event body world :
  0 <= time_of world ->
  time_of world <= time_of (snd (faultline_log net s level component event body world)) <=
    time_of world + 7 * delay.
Proof.
  intros H0. split; [apply (log_sockets net)|]. pose proof (prompt_delay net) as Hd.
  assert (forall l w b w', 0 <= time_of w -> os_print net s l w = (b, w') ->
    0 <= time_of w' <= time_of w + delay) as Hprint.
  { intros l w b w' Hw E. pose proof (same_clock _ _ (law_print net _ _ _ _ _ E)).
    pose proof (prompt_print net _ _ _ _ _ Hw E). lia. }
  unfold faultline_log. destruct (log_timestamp net world) as [timestamp w1] eqn:E1.
  assert (0 <= time_of w1 <= time_of world + delay) as H1.
  { unfold log_timestamp in E1. destruct (os_realtime net world) as [r w] eqn:E.
    pose proof (same_clock _ _ (law_realtime net _ _ _ E)). pose proof (prompt_realtime net _ _ _ H0 E).
    destruct r as [[]|]; repeat case_match; injection E1 as _ <-; lia. }
  destruct (log_monotonic net w1) as [m w2] eqn:E2.
  assert (0 <= time_of w2 <= time_of w1 + delay) as H2.
  { unfold log_monotonic in E2. destruct (os_monotonic net w1) as [r w] eqn:E.
    destruct (law_monotonic net _ _ _ E) as [Hs _]. pose proof (same_clock _ _ Hs).
    pose proof (prompt_monotonic net w1 r w (proj1 H1) E).
    destruct r as [[]|]; repeat case_match; injection E2 as _ <-; lia. }
  destruct (os_print net s _ w2) as [ok1 w3] eqn:E3. apply Hprint in E3; [|lia].
  match goal with |- context [let '(ok2, world) := ?b in _] => destruct b as [ok2 w4] eqn:E4 end.
  assert (0 <= time_of w4 <= time_of w3 + 2 * delay) as H4.
  { destruct body; [|injection E4 as _ <-; lia]. destruct (os_print net s (text " ") w3) as [ok w] eqn:E5.
    apply Hprint in E5; [|lia]. destruct (os_print net s _ w) as [ok' w'] eqn:E6. apply Hprint in E6; [|lia].
    injection E4 as _ <-. lia. }
  destruct (os_print net s (log_tail net m) w4) as [ok3 w5] eqn:E5. apply Hprint in E5; [|lia].
  destruct ok3; [|cbn [snd]; lia]. destruct (os_flush net s w5) as [ok4 w6] eqn:E6. cbn [snd].
  pose proof (prompt_flush net s w5 ok4 w6 (proj1 E5) E6). lia.
Qed.

(** ** Transfers *)

(** The last call has failed with [e]: the clock, or the poll, other than by an interruption; or the
    descriptor is not open. *)
Inductive call_failed (fd events : Z) : Z -> W -> Prop :=
| failed_clock now w w' : faultline_monotonic_ms net w = (now, w') -> now < 0 -> call_failed fd events EINVAL w'
| failed_poll timeout e w w' :
    os_poll net [(fd, events)] timeout w = (OsErr e, w') -> e <> EINTR -> call_failed fd events e w'
| failed_closed timeout ready w w' :
    os_poll net [(fd, events)] timeout w = (OsOk [ready], w') -> Z.land ready POLLNVAL <> 0 ->
    call_failed fd events EBADF w'.

(** Why a wait until [deadline] can fail. *)
Definition wait_failed (fd events deadline e : Z) (world' : W) : Prop :=
  call_failed fd events e world' \/ e = ETIMEDOUT /\ deadline <= time_of world'.

Definition send_failed (fd deadline e : Z) (world' : W) : Prop :=
  wait_failed fd POLLOUT deadline e world' \/
  exists data w, data <> [] /\
    (os_send net fd data w = (OsErr e, world') /\ transient e = false \/
     os_send net fd data w = (OsOk 0, world') /\ e = EPIPE).

Definition recv_failed (fd deadline e : Z) (world' : W) : Prop :=
  wait_failed fd POLLIN deadline e world' \/
  exists size w, os_recv net fd size w = (OsErr e, world') /\ transient e = false.

Lemma wait_ready_timed fd events deadline world r world' :
  0 <= time_of world -> wait_ready net fd events deadline world = (r, world') ->
  time_of world <= time_of world' <= Z.max (time_of world + delay) (deadline + 3 * delay) /\
  match r with
  | OsOk _ => time_of world' <= deadline + 2 * delay
  | OsErr e => wait_failed fd events deadline e world'
  end.
Proof.
  intros H0. pose proof (prompt_delay net) as Hd.
  remember (os_transients net world) as n eqn:En. revert world H0 En.
  induction n as [n IH] using (well_founded_induction lt_wf). intros world H0 ->.
  rewrite wait_ready_eq by done. destruct (faultline_monotonic_ms net world) as [now w1] eqn:E1.
  destruct (monotonic_step net _ _ _ E1) as (_ & Ht1 & _).
  destruct (monotonic_timed _ _ _ H0 E1) as [Hc1 Hnow].
  destruct (Z.ltb_spec now 0) as [Hneg|Hpos].
  { intros [= <- <-]. split; [lia|]. left. by eapply failed_clock. }
  specialize (Hnow Hpos). destruct (Z.leb_spec deadline now) as [Hover|Hleft].
  { intros [= <- <-]. split; [lia|]. right. split; [done|lia]. }
  destruct (os_poll net _ _ w1) as [r2 w2] eqn:E2.
  apply poll_timed in E2 as Hc2; [|lia..].
  assert (time_of world <= time_of w2 <= Z.max (time_of world + delay) (deadline + 3 * delay)) as Hin by lia.
  destruct (finite_poll net _ _ _ _ _ E2) as [Hle Hlt]. destruct r2 as [revents|e].
  - destruct (poll_decides net _ _ _ _ _ _ E2) as (ready & -> & Hready). cbn.
    destruct (Z.eqb_spec ready 0) as [->|].
    { intros [= <- <-]. split; [done|]. right. split; [done|].
      destruct (law_poll net _ _ _ _ _ E2) as [_ Hp]. destruct (Hp _ eq_refl) as (_ & _ & Hq).
      specialize (Hq ltac:(lia) ltac:(by intros ? ->%list_elem_of_singleton)). lia. }
    destruct (Z.eqb_spec (Z.land ready POLLNVAL) 0); cbn [negb];
      [|intros [= <- <-]; split; [done|left; by eapply failed_closed]].
    destruct (Z.eqb_spec (Z.land ready (Z.lor events (Z.lor POLLHUP POLLERR))) 0); cbn [negb];
      [tauto|intros [= <- <-]; split; [done|lia]].
  - destruct (Z.eqb_spec e EINTR) as [->|];
      [|intros [= <- <-]; split; [done|left; by eapply failed_poll]].
    specialize (Hlt _ eq_refl eq_refl). intros H.
    destruct (IH (os_transients net w2) ltac:(lia) w2 ltac:(lia) eq_refl H) as [Hb Hr]. split; [lia|done].
Qed.

Lemma send_from_timed fd data deadline world r world' :
  0 <= time_of world -> send_from net fd data deadline world = (r, world') ->
  time_of world <= time_of world' <= Z.max (time_of world + delay) (deadline + 4 * delay) /\
  forall e, r = OsErr e -> send_failed fd deadline e world'.
Proof.
  intros H0. pose proof (prompt_delay net) as Hd.
  remember (os_transients net world + length data)%nat as n eqn:En. revert data world H0 En.
  induction n as [n IH] using (well_founded_induction lt_wf). intros data world H0 ->.
  rewrite send_from_eq by done. destruct data as [|b data']; [intros [= <- <-]; split; [lia|done]|].
  set (data := b :: data') in *. assert (data <> []) as Hne by done.
  destruct (wait_ready net fd POLLOUT deadline world) as [r1 w1] eqn:E1.
  destruct (wait_ready_step net _ _ _ _ _ _ E1) as [_ Ht1].
  apply wait_ready_timed in E1 as [Hc1 Hr1]; [|done]. destruct r1 as [[]|e].
  2:{ intros [= <- <-]. split; [lia|]. intros e' [= <-]. by left. }
  destruct (os_send net fd data w1) as [r2 w2] eqn:E2. apply send_timed in E2 as Hc2; [|lia].
  destruct (finite_send net _ _ _ _ _ E2) as [Hle Hlt]. destruct (law_send net _ _ _ _ _ E2) as (_ & _ & _ & Hs).
  assert (forall data', (os_transients net w2 + length data' < os_transients net world + length data)%nat ->
    send_from net fd data' deadline w2 = (r, world') ->
    time_of world <= time_of world' <= Z.max (time_of world + delay) (deadline + 4 * delay) /\
    forall e, r = OsErr e -> send_failed fd deadline e world') as Hagain.
  { intros l Hl H. destruct (IH _ Hl l w2 ltac:(lia) eq_refl H) as [Hb Hr]. split; [lia|done]. }
  destruct r2 as [count|e].
  - destruct Hs as [Hc _]. destruct (Z.eqb_spec count 0) as [->|].
    { intros [= <- <-]. split; [lia|]. intros e [= <-]. right. exists data, w1. split; [done|]. by right. }
    apply Hagain. rewrite length_drop. lia.
  - destruct (transient e) eqn:Et.
    + specialize (Hlt _ eq_refl Et). apply Hagain. lia.
    + intros [= <- <-]. split; [lia|]. intros e' [= <-]. right. exists data, w1. split; [done|]. by left.
Qed.

Lemma recv_from_timed fd received size deadline world r world' :
  0 <= time_of world -> recv_from net fd received size deadline world = (r, world') ->
  time_of world <= time_of world' <= Z.max (time_of world + delay) (deadline + 4 * delay) /\
  (receive_result r = FAULTLINE_RECEIVE_ERROR -> recv_failed fd deadline (receive_errno r) world').
Proof.
  intros H0. pose proof (prompt_delay net) as Hd.
  remember (os_transients net world + (Z.to_nat size - length received))%nat as n eqn:En.
  revert received world H0 En.
  induction n as [n IH] using (well_founded_induction lt_wf). intros received world H0 ->.
  rewrite recv_from_eq by done.
  destruct (Z.ltb_spec (Z.of_nat (length received)) size) as [Hmore|_]; [|intros [= <- <-]; split; [lia|done]].
  destruct (wait_ready net fd POLLIN deadline world) as [r1 w1] eqn:E1.
  destruct (wait_ready_step net _ _ _ _ _ _ E1) as [_ Ht1].
  apply wait_ready_timed in E1 as [Hc1 Hr1]; [|done]. destruct r1 as [[]|e].
  2:{ intros [= <- <-]. split; [lia|]. intros _. by left. }
  destruct (os_recv net fd _ w1) as [r2 w2] eqn:E2. apply recv_timed in E2 as Hc2; [|lia].
  destruct (finite_recv net _ _ _ _ _ E2) as [Hle Hlt].
  assert (forall l, (os_transients net w2 + (Z.to_nat size - length l) <
      os_transients net world + (Z.to_nat size - length received))%nat ->
    recv_from net fd l size deadline w2 = (r, world') ->
    time_of world <= time_of world' <= Z.max (time_of world + delay) (deadline + 4 * delay) /\
    (receive_result r = FAULTLINE_RECEIVE_ERROR -> recv_failed fd deadline (receive_errno r) world')) as Hagain.
  { intros l Hl H. destruct (IH _ Hl l w2 ltac:(lia) eq_refl H) as [Hb Hr]. split; [lia|done]. }
  destruct r2 as [[|b bytes]|e].
  - intros [= <- <-]. split; [lia|]. by destruct received.
  - apply Hagain. rewrite length_app. cbn. lia.
  - destruct (transient e) eqn:Et.
    + specialize (Hlt _ eq_refl Et). apply Hagain. lia.
    + intros [= <- <-]. split; [lia|]. intros _. right. eauto.
Qed.

Lemma wait_failed_before fd events deadline deadline' e world :
  deadline' <= deadline -> wait_failed fd events deadline e world -> wait_failed fd events deadline' e world.
Proof. intros Hle [?|[-> ?]]; [by left|right]. split; [done|lia]. Qed.

(** C32: a transfer ends in time and fails only for a cause. Over any machine whose calls take at most
    [delay] beyond what they wait, sending and receiving end within the timeout and five delays, however
    often they are interrupted and however small the pieces are. An error is reported only if the time
    of the timeout is over, or the last call failed: the clock, the descriptor, or a poll or transfer
    with that error; never for an interruption. *)
Theorem transfers_timely fd data size timeout world :
  0 <= time_of world -> 0 <= fd -> 0 < timeout ->
  (forall r world', faultline_send_all net fd data timeout world = (r, world') ->
     time_of world' <= time_of world + timeout + 5 * delay /\
     forall e, r = OsErr e -> send_failed fd (time_of world + timeout) e world') /\
  (forall r world', faultline_recv_exact net fd size timeout world = (r, world') ->
     time_of world' <= time_of world + timeout + 5 * delay /\
     (receive_result r = FAULTLINE_RECEIVE_ERROR ->
      recv_failed fd (time_of world + timeout) (receive_errno r) world')).
Proof.
  intros H0 Hfd Ht. pose proof (prompt_delay net) as Hd.
  unfold faultline_send_all, faultline_recv_exact.
  rewrite (proj2 (Z.ltb_ge fd 0)), (proj2 (Z.leb_gt timeout 0)) by done. cbn [orb].
  destruct (faultline_monotonic_ms net world) as [start w1] eqn:E1.
  destruct (monotonic_timed _ _ _ H0 E1) as [Hc1 Hnow].
  destruct (Z.ltb_spec start 0) as [Hneg|Hpos].
  { assert (forall events, call_failed fd events EINVAL w1) as Hf by (intros events; by eapply failed_clock).
    split; intros r world' [= <- <-]; (split; [lia|]); [intros e [= <-]|intros _]; left; left; apply Hf. }
  specialize (Hnow Hpos). split; intros r world' E.
  - apply (send_from_timed fd data (start + timeout) w1) in E as [Hc Hr]; [|lia]. split; [lia|].
    intros e He. destruct (Hr e He) as [Hw|Hs]; [left|by right]. eapply wait_failed_before; [|done]. lia.
  - rewrite <- (Nat.sub_0_r (Z.to_nat size)) in E.
    apply (recv_from_timed fd [] size (start + timeout) w1) in E as [Hc Hr]; [|lia]. split; [lia|].
    intros He. destruct (Hr He) as [Hw|Hs]; [left|by right]. eapply wait_failed_before; [|done]. lia.
Qed.

(** ** The waits of the worker *)

(** What the result of a wait until [deadline] tells. *)
Definition wait_told (fd deadline : Z) (r : wait_result) (world' : W) : Prop :=
  match r with
  | WAIT_INPUT => stopped (view_of world') = false /\
      exists timeout ready w w1, os_poll net [(fd, POLLIN)] timeout w = (OsOk [ready], w1) /\
        Z.land ready (Z.lor POLLIN (Z.lor POLLHUP POLLERR)) <> 0 /\ exists z, os_stopping net w1 = (z, world')
  | WAIT_DEADLINE => deadline <= time_of world'
  | WAIT_STOP => stopped (view_of world') = true
  | WAIT_ERROR e => call_failed fd POLLIN e world'
  end.

Lemma wait_timed fd deadline world r world' :
  0 <= time_of world -> 0 <= deadline -> wait_for_input net fd deadline world = (r, world') ->
  time_of world <= time_of world' <= Z.max (time_of world + 2 * delay) (deadline + 4 * delay) /\
  (r = WAIT_INPUT -> time_of world' <= deadline + 3 * delay) /\
  (stopped (view_of world) = true -> r = WAIT_STOP /\ time_of world' <= time_of world + delay) /\
  wait_told fd deadline r world'.
Proof.
  intros H0 Hdl. pose proof (prompt_delay net) as Hd.
  remember (turns net deadline world) as n eqn:En. revert world H0 En.
  induction n as [n IH] using (well_founded_induction lt_wf). intros world H0 ->. rewrite wait_eq by done.
  destruct (os_stopping net world) as [z w1] eqn:E1. destruct (stopping_step net _ _ _ E1) as [Hs1 Ht1].
  apply stopping_timed in E1 as (Hc1 & Hz & Hstop); [|done].
  destruct (Z.eqb_spec z 0) as [->|Hnz]; cbn [negb].
  2:{ intros [= <- <-]. split; [lia|]. split; [done|]. split; [by split; [|lia]|by apply Hz]. }
  assert (stopped (view_of world) = true -> False) as Hgo by (intros Hs; by apply Hstop in Hs).
  destruct (faultline_monotonic_ms net w1) as [now w2] eqn:E2.
  apply monotonic_timed in E2 as Hc2; [|lia]. destruct Hc2 as [Hc2 Hnow].
  destruct (Z.ltb_spec now 0) as [Hneg|Hpos].
  { intros [= <- <-]. split; [lia|]. split; [done|]. split; [done|]. by eapply failed_clock. }
  specialize (Hnow Hpos). destruct (Z.leb_spec deadline now) as [Hover|Hleft].
  { intros [= <- <-]. split; [lia|]. split; [done|]. split; [done|]. cbn. lia. }
  destruct (os_poll net _ _ w2) as [r3 w3] eqn:E3.
  pose proof (wait_turn net fd deadline now _ world w1 w2 w3 _ Hs1 Ht1 E2 Hpos Hleft eq_refl E3) as Hturn.
  apply poll_timed in E3 as Hc3; [|lia|destruct (Z.ltb_spec (deadline - now) 250); lia].
  assert (time_of world <= time_of w3 <= deadline + 2 * delay) as Hc.
  { destruct (Z.ltb_spec (deadline - now) 250); lia. }
  clear Hc3. set (timeout := if deadline - now <? 250 then _ else _) in *. clearbody timeout.
  assert ((turns net deadline w3 < turns net deadline world)%nat ->
    wait_for_input net fd deadline w3 = (r, world') ->
    time_of world <= time_of world' <= Z.max (time_of world + 2 * delay) (deadline + 4 * delay) /\
    (r = WAIT_INPUT -> time_of world' <= deadline + 3 * delay) /\
    (stopped (view_of world) = true -> r = WAIT_STOP /\ time_of world' <= time_of world + delay) /\
    wait_told fd deadline r world') as Hagain.
  { intros Hlt H. destruct (IH _ Hlt w3 ltac:(lia) eq_refl H) as (Hb & Hi & _ & Hw).
    split; [lia|]. split; [done|]. by split. }
  destruct r3 as [revents|e].
  - destruct (poll_decides net _ _ _ _ _ _ E3) as (ready & -> & _). cbv zeta.
    change ([ready] !!! 0%nat) with ready in *.
    destruct (Z.eqb_spec (Z.land ready POLLNVAL) 0); cbn [negb].
    2:{ intros [= <- <-]. split; [lia|]. split; [done|]. split; [done|]. by eapply failed_closed. }
    destruct (Z.eqb_spec (Z.land ready (Z.lor POLLIN (Z.lor POLLHUP POLLERR))) 0); cbn [negb];
      [by apply Hagain, Hturn|].
    destruct (os_stopping net w3) as [z' w4] eqn:E4. intros [= <- <-].
    apply stopping_timed in E4 as Hc4; [|lia]. destruct Hc4 as (Hc4 & Hz' & _).
    destruct (Z.eqb_spec z' 0) as [->|Hnz]; cbn [negb]; (split; [lia|]); (split; [lia || done|]); (split; [done|]).
    + split; [|by eauto 10]. destruct (stopped (view_of w4)); [|done]. by destruct (proj2 Hz' eq_refl).
    + by apply Hz'.
  - destruct (Z.eqb_spec e EINTR) as [->|]; [by apply Hagain, Hturn|].
    intros [= <- <-]. split; [lia|]. split; [done|]. split; [done|]. by eapply failed_poll.
Qed.

(** ** Registration *)

(** The worker was told to stop, or a wait or receive has failed; log records may have followed. *)
Definition registration_broken (fd deadline : Z) (world' : W) : Prop :=
  exists w, same_sockets (view_of w) (view_of world') /\
    (stopped (view_of w) = true \/ exists e, recv_failed fd deadline e w).

(** How the loop ends from [wire] on: in time, and with the acknowledgement if it is on the stream. *)
Definition ack_ends (fd deadline : Z) (wire : list Z) (r : option (list Z)) (world world' : W) : Prop :=
  time_of world <= time_of world' <= Z.max (time_of world + 9 * delay) (deadline + 13 * delay) /\
  forall id rest, sendable (MsgWorkerRegisterAck id) ->
    wire ++ incoming (view_of world) fd = frame_of (MsgWorkerRegisterAck id) ++ rest ->
    r = Some (frame_of (MsgWorkerRegisterAck id)) \/ r = None /\ registration_broken fd deadline world'.

Lemma ack_frame_length id :
  sendable (MsgWorkerRegisterAck id) -> Z.of_nat (length (frame_of (MsgWorkerRegisterAck id))) = REGISTER_ACK_FRAME.
Proof.
  intros Hs. pose proof (frame_size _ Hs) as H12. unfold FAULTLINE_HEADER_SIZE in H12.
  destruct (sendable_header _ (take 12 (frame_of (MsgWorkerRegisterAck id)))
    (drop 12 (frame_of (MsgWorkerRegisterAck id))) Hs) as (h & _ & _ & Hl & Hb).
  - by rewrite take_drop.
  - rewrite length_take. unfold FAULTLINE_HEADER_SIZE. lia.
  - specialize (Hb _ _ eq_refl). rewrite Hl. unfold REGISTER_ACK_FRAME, FAULTLINE_WORKER_REGISTER_ACK_PAYLOAD_SIZE in *. lia.
Qed.

(** The header of an acknowledgement passes the test of the worker. *)
Lemma ack_header wire id rest incoming :
  sendable (MsgWorkerRegisterAck id) -> Z.of_nat (length wire) = FAULTLINE_HEADER_SIZE ->
  wire ++ incoming = frame_of (MsgWorkerRegisterAck id) ++ rest ->
  exists h, faultline_header_decode wire = inr h /\ h_message_type h = FAULTLINE_MSG_WORKER_REGISTER_ACK /\
    h_payload_length h = FAULTLINE_WORKER_REGISTER_ACK_PAYLOAD_SIZE.
Proof.
  intros Hs Hl E. pose proof (ack_frame_length id Hs) as Hf. unfold REGISTER_ACK_FRAME in Hf.
  destruct (stream_start _ _ _ _ E) as [more Hm].
  { unfold FAULTLINE_WORKER_REGISTER_ACK_PAYLOAD_SIZE in Hf. lia. }
  destruct (sendable_header _ _ _ Hs Hm Hl) as (h & Hh & Ht & Hlen & _). exists h.
  split; [done|]. split; [done|]. lia.
Qed.

(** A failure that the wait or the receive explains, after a log record. *)
Lemma ack_failed fd deadline wire world w world' e :
  time_of world <= time_of w <= Z.max (time_of world + 2 * delay) (deadline + 4 * delay) ->
  recv_failed fd deadline e w -> same_sockets (view_of w) (view_of world') ->
  time_of world' <= time_of w + 7 * delay -> ack_ends fd deadline wire None world world'.
Proof.
  intros Hc Hf Hq Ht. pose proof (same_clock _ _ Hq). split; [lia|].
  intros id rest _ _. right. split; [done|]. exists w. eauto.
Qed.

(** The bytes [got] have been received and the loop goes on. *)
Lemma ack_goes_on fd deadline wire got r world w world' :
  time_of world <= time_of w <= deadline + 4 * delay ->
  incoming (view_of world) fd = got ++ incoming (view_of w) fd ->
  ack_ends fd deadline (wire ++ got) r w world' -> ack_ends fd deadline wire r world world'.
Proof.
  intros Hc Hin [Ht Hr]. pose proof (prompt_delay net) as Hd. split; [lia|]. intros id rest Hs E. apply (Hr id rest Hs).
  by rewrite <- app_assoc, <- Hin.
Qed.

(** The stream does not start with an acknowledgement. *)
Lemma ack_refused fd deadline wire world w world' :
  time_of world <= time_of w <= deadline + 4 * delay -> same_sockets (view_of w) (view_of world') ->
  time_of world' <= time_of w + 7 * delay ->
  (forall id rest, sendable (MsgWorkerRegisterAck id) ->
     wire ++ incoming (view_of world) fd = frame_of (MsgWorkerRegisterAck id) ++ rest -> False) ->
  ack_ends fd deadline wire None world world'.
Proof.
  intros Hc Hq Ht Hno. pose proof (prompt_delay net) as Hd. pose proof (same_clock _ _ Hq). split; [lia|].
  intros id rest Hs E. by destruct (Hno id rest Hs E).
Qed.

(** Bytes have arrived: the loop goes on unless they complete a header that is not the right one. *)
Lemma ack_bytes_timed again fd wire got expected deadline world w2 r world' :
  ack_part wire expected -> bytes_ok got -> got <> [] -> Z.of_nat (length got) <= expected - Z.of_nat (length wire) ->
  time_of world <= time_of w2 <= deadline + 4 * delay ->
  incoming (view_of world) fd = got ++ incoming (view_of w2) fd ->
  (forall s level component event body,
     time_of (snd (faultline_log net s level component event body w2)) <= time_of w2 + 7 * delay) ->
  (forall expected', ack_part (wire ++ got) expected' -> again (wire ++ got) expected' w2 = (r, world') ->
     ack_ends fd deadline (wire ++ got) r w2 world') ->
  (if Z.of_nat (length (wire ++ got)) =? FAULTLINE_HEADER_SIZE then
     match faultline_header_decode (wire ++ got) with
     | inr header =>
         if (h_message_type header !=? FAULTLINE_MSG_WORKER_REGISTER_ACK) ||
            (h_payload_length header !=? FAULTLINE_WORKER_REGISTER_ACK_PAYLOAD_SIZE) then
           (None, runtime_error net "expected registration ACK with a 4-byte worker ID" w2)
         else again (wire ++ got) REGISTER_ACK_FRAME w2
     | inl _ => (None, runtime_error net "expected registration ACK with a 4-byte worker ID" w2)
     end
   else again (wire ++ got) expected w2) = (r, world') ->
  ack_ends fd deadline wire r world world'.
Proof.
  intros Hpart Hbytes Hne Hlen Hc Hin Hlog2 Hagain.
  destruct (ack_part_more wire expected got Hpart Hbytes Hne Hlen) as [Hmore Hhead].
  assert (forall expected', ack_part (wire ++ got) expected' -> again (wire ++ got) expected' w2 = (r, world') ->
    ack_ends fd deadline wire r world world') as Hgo.
  { intros expected' Hp' H. eapply ack_goes_on; [exact Hc|exact Hin|]. by eapply Hagain. }
  destruct (Z.eqb_spec (Z.of_nat (length (wire ++ got))) FAULTLINE_HEADER_SIZE) as [Heq|Hneq];
    [|by apply Hgo; auto].
  assert (forall id rest, sendable (MsgWorkerRegisterAck id) ->
    wire ++ incoming (view_of world) fd = frame_of (MsgWorkerRegisterAck id) ++ rest ->
    exists h, faultline_header_decode (wire ++ got) = inr h /\
      h_message_type h = FAULTLINE_MSG_WORKER_REGISTER_ACK /\
      h_payload_length h = FAULTLINE_WORKER_REGISTER_ACK_PAYLOAD_SIZE) as Hright.
  { intros id rest Hs E. eapply ack_header; [exact Hs|exact Heq|]. rewrite <- app_assoc, <- Hin. exact E. }
  destruct (faultline_header_decode (wire ++ got)) as [err|h] eqn:Eh.
  { intros [= <- <-]. eapply ack_refused; [exact Hc|apply (log_sockets net)|apply Hlog2|].
    intros id rest Hs E. by destruct (Hright id rest Hs E) as (h & ? & _). }
  destruct (_ || _) eqn:Eg.
  { intros [= <- <-]. eapply ack_refused; [exact Hc|apply (log_sockets net)|apply Hlog2|].
    intros id rest Hs E. destruct (Hright id rest Hs E) as (h' & [= <-] & Ht & Hp).
    by rewrite Ht, Hp in Eg. }
  apply orb_false_iff in Eg as [Et Ep]. apply negb_false_iff, Z.eqb_eq in Et, Ep. apply Hgo. by eapply Hhead.
Qed.

Lemma ack_step_timed again fd wire expected deadline world r world' :
  0 <= time_of world -> 0 <= deadline -> ack_part wire expected ->
  (forall wire' expected' world1, 0 <= time_of world1 -> ack_part wire' expected' ->
     (ack_turns net wire' world1 < ack_turns net wire world)%nat ->
     again wire' expected' world1 = (r, world') -> ack_ends fd deadline wire' r world1 world') ->
  ack_step net again fd wire expected deadline world = (r, world') -> ack_ends fd deadline wire r world world'.
Proof.
  intros H0 Hdl Hpart Hagain. pose proof (prompt_delay net) as Hd. unfold ack_step.
  destruct (Z.leb_spec expected (Z.of_nat (length wire))) as [Hfull|Hshort].
  { intros [= <- <-]. split; [lia|]. intros id rest Hs E. left. pose proof (ack_frame_length id Hs) as Hf.
    destruct Hpart as [_ [[-> ?]|(-> & ? & _)]]; [lia|].
    apply app_inj_1 in E as [-> _]; [done|lia]. }
  assert (expected <= REGISTER_ACK_FRAME) as Hexp.
  { destruct Hpart as [_ [[-> _]|[-> _]]]; [by vm_compute|done]. }
  destruct (wait_for_input net fd deadline world) as [ready w1] eqn:E1.
  destruct (wait_step net _ _ _ _ _ Hdl E1) as (Hq1 & Ht1 & _).
  apply wait_timed in E1 as (Hc1 & Hi1 & _ & Hw1); [|done..].
  assert (forall s level component event body, time_of (snd (faultline_log net s level component event body w1)) <=
    time_of w1 + 7 * delay) as Hlog1 by (intros; apply log_timed; lia).
  destruct ready as [e| | |].
  - intros [= <- <-]. eapply ack_failed; [exact Hc1|left; left; exact Hw1|apply (log_sockets net)|apply Hlog1].
  - intros [= <- <-]. split; [lia|]. intros id rest _ _. right. split; [done|]. exists w1. split; [done|by left].
  - specialize (Hi1 eq_refl). destruct (os_recv net fd _ w1) as [res w2] eqn:E2.
    destruct (finite_recv net _ _ _ _ _ E2) as [Hle Hlt].
    destruct (law_recv net _ _ _ _ _ E2) as (_ & _ & _ & Hin). apply recv_timed in E2 as Hc2; [|lia].
    assert (time_of world <= time_of w2 <= deadline + 4 * delay) as Hc by lia.
    assert (forall s level component event body, time_of (snd (faultline_log net s level component event body w2)) <=
      time_of w2 + 7 * delay) as Hlog2 by (intros; apply log_timed; lia).
    rewrite (same_incoming _ _ Hq1) in Hin. destruct res as [[|b bytes]|e].
    + intros [= <- <-]. eapply ack_refused; [exact Hc|apply (log_sockets net)|apply Hlog2|].
      intros id rest Hs E. destruct Hin as (_ & _ & _ & Hend). rewrite Hend, app_nil_r in E by (lia || done).
      apply (f_equal length) in E. rewrite length_app in E. pose proof (ack_frame_length id Hs). lia.
    + destruct Hin as (Hin & Hbytes & Hlen & _). set (got := b :: bytes) in *.
      assert (ack_turns net (wire ++ got) w2 < ack_turns net wire world)%nat as Hturn.
      { unfold ack_turns. rewrite length_app. assert (0 < length got)%nat by (cbn; lia). lia. }
      apply (ack_bytes_timed again fd wire got expected deadline world w2);
        [exact Hpart|exact Hbytes|done|lia|exact Hc|exact Hin|exact Hlog2|].
      intros expected' Hp'. apply Hagain; [lia|done..].
    + destruct (transient e) eqn:Et.
      * specialize (Hlt _ eq_refl Et). intros H. eapply (ack_goes_on _ _ _ []); [exact Hc|by rewrite Hin|].
        rewrite app_nil_r. eapply Hagain; [lia|exact Hpart|unfold ack_turns; lia|exact H].
      * intros [= <- <-]. eapply (ack_failed _ _ _ _ w2 _ e);
          [lia|right; eauto|apply (log_sockets net)|apply Hlog2].
  - intros [= <- <-]. eapply (ack_failed _ _ _ _ w1 _ ETIMEDOUT); [exact Hc1| |apply (log_sockets net)|apply Hlog1].
    left. right. by split.
Qed.

Lemma ack_from_timed fd wire expected deadline world r world' :
  0 <= time_of world -> 0 <= deadline -> ack_part wire expected ->
  ack_from net fd wire expected deadline world = (r, world') -> ack_ends fd deadline wire r world world'.
Proof.
  intros H0 Hdl Hpart. remember (ack_turns net wire world) as n eqn:En.
  revert wire expected world H0 Hpart En. induction n as [n IH] using (well_founded_induction lt_wf).
  intros wire expected world H0 Hpart ->. rewrite ack_from_eq by done.
  apply ack_step_timed; [done..|]. intros wire' expected' w1 Hw1 Hp' Hlt H.
  by eapply (IH _ Hlt wire' expected' w1 Hw1 Hp' eq_refl).
Qed.

Lemma ack_nothing : ack_part [] FAULTLINE_HEADER_SIZE.
Proof. split; [constructor|by left]. Qed.

Lemma registration_timed fd world r world' :
  0 <= time_of world -> receive_registration_ack net fd world = (r, world') ->
  time_of world' <= time_of world + FAULTLINE_IO_TIMEOUT_MS + 21 * delay /\
  forall id rest, sendable (MsgWorkerRegisterAck id) ->
    incoming (view_of world) fd = frame_of (MsgWorkerRegisterAck id) ++ rest ->
    r = Some id \/
    r = None /\ registration_broken fd (time_of world + FAULTLINE_IO_TIMEOUT_MS) world'.
Proof.
  intros H0. pose proof (prompt_delay net) as Hd. unfold receive_registration_ack.
  destruct (faultline_monotonic_ms net world) as [start w1] eqn:E1.
  destruct (monotonic_step net _ _ _ E1) as (Hq1 & _). destruct (monotonic_timed _ _ _ H0 E1) as [Hc1 Hnow].
  destruct (Z.ltb_spec start 0) as [Hneg|Hpos].
  { intros [= <- <-]. unfold log_error, faultline_log_error.
    pose proof (fun event body => log_timed stderr ERROR (text "worker") event body w1 ltac:(lia)) as Hlog.
    split; [pose proof (Hlog (text "system_error")) as H; unfold FAULTLINE_IO_TIMEOUT_MS; etrans; [apply H|lia]|].
    intros id rest _ _. right. split; [done|]. exists w1. split; [apply (log_sockets net)|].
    right. exists EINVAL. left. left. by eapply failed_clock. }
  specialize (Hnow Hpos).
  destruct (ack_loop net _ _ _ _ _ w1) as [o w2] eqn:E2.
  apply (ack_from_timed fd [] FAULTLINE_HEADER_SIZE (start + FAULTLINE_IO_TIMEOUT_MS) w1) in E2 as [Hc2 Hr2];
    [|lia|unfold FAULTLINE_IO_TIMEOUT_MS; lia|apply ack_nothing].
  cbn [app] in Hr2. rewrite (same_incoming _ _ Hq1) in Hr2.
  assert (forall deadline, deadline <= start + FAULTLINE_IO_TIMEOUT_MS ->
    registration_broken fd (start + FAULTLINE_IO_TIMEOUT_MS) w2 -> registration_broken fd deadline w2) as Hbroken.
  { intros deadline Hle (w & Hq & [Hs|(e & [Hw|Hv])]); exists w; (split; [done|]); [by left|right..];
      exists e; [left; by eapply wait_failed_before|by right]. }
  unfold FAULTLINE_IO_TIMEOUT_MS in *. destruct o as [wire|].
  2:{ intros [= <- <-]. split; [lia|]. intros id rest Hs E. destruct (Hr2 id rest Hs E) as [|[_ Hb]]; [done|].
      right. split; [done|]. apply Hbroken; [lia|done]. }
  assert (time_of (runtime_error net "invalid registration ACK payload" w2) <= time_of w2 + 7 * delay) as Hlog
    by (apply log_timed; lia).
  assert (time_of w2 <= time_of world + 5000 + 14 * delay) as Hc by lia.
  intros H. split.
  - repeat case_match; injection H as _ <-; lia.
  - intros id rest Hs E. destruct (Hr2 id rest Hs E) as [[= ->]|[? _]]; [|done].
    pose proof (sendable_decodes _ [] Hs) as Hdec. rewrite app_nil_r in Hdec. rewrite Hdec in H.
    injection H as <- _. by left.
Qed.

(** ** Properties *)

(** C36: the waits of a worker end in time. Over any machine whose calls take at most [delay] beyond
    what they wait, waiting for input ends at once if the worker was told to stop, and otherwise by the
    deadline and four delays; the result tells the truth: input was reported and there is no stop
    signal, the deadline has passed, there is a stop signal, or the last call failed, other than by an
    interruption. Waiting for the acknowledgement of the registration ends within the timeout for input
    and output and twenty-one delays, and if the acknowledgement is on the stream then its ID is the
    result, unless the worker was told to stop, the time is over or a call failed. *)
Theorem worker_waits_timely fd deadline world :
  0 <= time_of world -> 0 <= deadline ->
  (forall r world', wait_for_input net fd deadline world = (r, world') ->
     time_of world' <= Z.max (time_of world + 2 * delay) (deadline + 4 * delay) /\
     (stopped (view_of world) = true -> r = WAIT_STOP /\ time_of world' <= time_of world + delay) /\
     wait_told fd deadline r world') /\
  (forall r world', receive_registration_ack net fd world = (r, world') ->
     time_of world' <= time_of world + FAULTLINE_IO_TIMEOUT_MS + 21 * delay /\
     forall id rest, sendable (MsgWorkerRegisterAck id) ->
       incoming (view_of world) fd = frame_of (MsgWorkerRegisterAck id) ++ rest ->
       r = Some id \/
       r = None /\ registration_broken fd (time_of world + FAULTLINE_IO_TIMEOUT_MS) world').
Proof.
  intros H0 Hdl. split; intros r world' H; [|by apply registration_timed].
  apply wait_timed in H as (Hc & _ & Hs & Hw); [|done..]. split; [lia|]. by split.
Qed.

End Timing.

(** ** The simulated network *)

#[export] Instance sim_net_prompt : NetPrompt sim_net_os 1.
Proof.
  assert (forall A (call : net_fault -> sim_net -> os_result A * sim_net) time, 1 <= time ->
    (forall f w r w', call f w = (r, w') -> sn_clock w' <= sn_clock w + time) ->
    takes sim_net_os time (interruptible_call call)) as Hcall.
  { intros A call time Ht Hc w r w' _. unfold interruptible_call. destruct (next_fault w) as [f v] eqn:E.
    apply next_fault_spec in E as (Hv & _). apply (f_equal clock) in Hv. cbn in Hv |- *.
    destruct f; [|intros [= <- <-]; cbn; lia|]; intros H; apply Hc in H; lia. }
  split; try (intros; intros w r w' Hw; cbn in Hw |- *; intros [= <- <-]; cbn; lia).
  - lia.
  - intros l timeout Ht. apply Hcall; [lia|]. intros _ w r w'. destruct (poll_all l w) as [revents w1] eqn:E.
    apply poll_all_spec in E as (Hc & _). intros [= <- <-]. destruct (forallb _ _); cbn; lia.
  - intros d size. apply Hcall; [lia|]. intros f w r w'. destruct (take_segment _ _) as [bytes rest].
    intros [= <- <-]. cbn. lia.
  - intros d data. apply Hcall; [lia|]. intros f w r w' [= <- <-]. cbn. lia.
Qed.

(** A quiet connection. *)
Definition silent_machine : sim_net := mk_sim_net 100 0 [] [3] {[3 := [[]; []; []]]} ∅ [] [NetInterrupt] [].

(** Bytes arrive in pieces, with interruptions; and on the quiet connection nothing arrives. *)
Lemma transfer_received :
  receive_result (fst (faultline_recv_exact sim_net_os 3 5 1000 transfer_machine)) = FAULTLINE_RECEIVE_OK.
Proof. vm_compute. reflexivity. Qed.

Lemma silent_receive :
  fst (faultline_recv_exact sim_net_os 3 5 1000 silent_machine) = mk_receive FAULTLINE_RECEIVE_ERROR [] ETIMEDOUT.
Proof. vm_compute. reflexivity. Qed.

Lemma machine_started w : 0 <= sn_clock w -> 0 <= clock (net_state sim_net_os w).
Proof. done. Qed.

Lemma transfers_timely_witness :
  receive_result (fst (faultline_recv_exact sim_net_os 3 5 1000 transfer_machine)) = FAULTLINE_RECEIVE_OK /\
  clock (sim_net_view (snd (faultline_recv_exact sim_net_os 3 5 1000 transfer_machine))) <= 1005 /\
  recv_failed sim_net_os 3 1100 ETIMEDOUT (snd (faultline_recv_exact sim_net_os 3 5 1000 silent_machine)).
Proof.
  split; [exact transfer_received|]. pose proof silent_receive as Hs.
  destruct (transfers_timely sim_net_os 1 3 [] 5 1000 transfer_machine (machine_started transfer_machine ltac:(vm_compute; done))
    ltac:(lia) ltac:(lia)) as [_ H1].
  destruct (transfers_timely sim_net_os 1 3 [] 5 1000 silent_machine (machine_started silent_machine ltac:(vm_compute; done))
    ltac:(lia) ltac:(lia)) as [_ H2].
  destruct (faultline_recv_exact sim_net_os 3 5 1000 transfer_machine) as [r1 w1].
  destruct (faultline_recv_exact sim_net_os 3 5 1000 silent_machine) as [r2 w2].
  cbn [fst snd] in *. split; [exact (proj1 (H1 r1 w1 eq_refl))|]. subst r2. exact (proj2 (H2 _ w2 eq_refl) eq_refl).
Defined.

Lemma silent_deadline : fst (wait_for_input sim_net_os 3 600 silent_machine) = WAIT_DEADLINE.
Proof. vm_compute. reflexivity. Qed.

(** The acknowledgement arrives in two pieces. *)
Definition ack_machine : sim_net :=
  mk_sim_net 100 0 [] [3] {[3 := [take 5 (frame_of (MsgWorkerRegisterAck 5)); [];
    drop 5 (frame_of (MsgWorkerRegisterAck 5))]]} ∅ [] [NetInterrupt] [].

Lemma ack_on_stream :
  incoming (sim_net_view ack_machine) 3 = frame_of (MsgWorkerRegisterAck 5) ++ [].
Proof. vm_compute. reflexivity. Qed.

Lemma ack_sendable : sendable (MsgWorkerRegisterAck 5).
Proof. split; [vm_compute; split; discriminate || reflexivity|]. eexists. vm_compute. reflexivity. Qed.

Lemma ack_received_id : fst (receive_registration_ack sim_net_os 3 ack_machine) = Some 5.
Proof. vm_compute. reflexivity. Qed.

Lemma worker_waits_timely_witness :
  (let '(r, world') := wait_for_input sim_net_os 3 600 silent_machine in
   r = WAIT_DEADLINE /\ 600 <= clock (sim_net_view world') <= 604) /\
  (let '(r, world') := receive_registration_ack sim_net_os 3 ack_machine in
   clock (sim_net_view world') <= 5121 /\ r = Some 5).
Proof.
  pose proof silent_deadline as Hs. pose proof ack_received_id as Ha.
  pose proof (proj1 (worker_waits_timely sim_net_os 1 3 600 silent_machine (machine_started silent_machine ltac:(vm_compute; done))
    ltac:(lia))) as H1.
  pose proof (proj2 (worker_waits_timely sim_net_os 1 3 600 ack_machine (machine_started ack_machine ltac:(vm_compute; done))
    ltac:(lia))) as H2.
  destruct (wait_for_input sim_net_os 3 600 silent_machine) as [r1 w1].
  destruct (receive_registration_ack sim_net_os 3 ack_machine) as [r2 w2].
  cbn [fst] in Hs, Ha. subst r1 r2. destruct (H1 _ w1 eq_refl) as (Hc1 & _ & Hw1). destruct (H2 _ w2 eq_refl) as [Hc2 Hr2].
  split; [split; [reflexivity|split; [exact Hw1|exact Hc1]]|].
  split; [exact Hc2|]. destruct (Hr2 5 [] ack_sendable ack_on_stream) as [Hr|[Hr _]]; [exact Hr|discriminate Hr].
Defined.
