(* ===== verification/ClientProofs.v ===== *)
(** What a handler of the coordinator does to its connection, to the store and to the rest of the
    world: [handled]. Closing, queueing a reply, and every request are shown to satisfy it. *)

From S2P Require Import Prelude Text Job JobQueue WorkerRegistry Protocol ProtocolProofs Scheduler SchedulerProofs Wal.
From S2P Require Import WalWriter Disk WriterProofs WalReplay ReplayProofs CoordinatorStore StoreProofs Durability StoreRecovery.
From S2P Require Import CoordinatorStats StatsProofs Net NetLaws Log Machine StoreSteps Framing Client ReplyProofs.

(** The worker of a connection is registered, alive, on this connection. *)
Definition conn_live (c : client) (store : faultline_coordinator_store) : Prop :=
  cl_worker_id c <> 0 -> live_at (store_workers store) (cl_worker_id c) = Some (cl_fd c).

Lemma live_at_0 r : live_at r 0 = None.
Proof. done. Qed.

Section ClientProofs.
Context {W : Type} (os : wal_os W) (net : net_os W).
Context {FIN : OsFinite os} {DISK : Disk os} {NET : Net net} {MACHINE : Machine os net}.

Abbreviation view_of world := (net_state net world).
Abbreviation calm := (calm os net).
Abbreviation sound := (sound os).
Abbreviation store_step := (store_step os net).

Record handled (recs : list faultline_wal_record) (c : client) (store : faultline_coordinator_store) (world : W)
    (c' : client) (store' : faultline_coordinator_store) (world' : W) : Prop := {
  hd_sound : sound recs store' world';
  hd_others : same_others (cl_fd c) (view_of world) (view_of world');
  hd_failed : store_failed store -> store_failed store';
  hd_found id : faultline_scheduler_find (jobs store) id <> None ->
    faultline_scheduler_find (jobs store') id <> None;
  hd_conn : cl_fd c' = cl_fd c /\
      (cl_fd c ∈ descriptors (view_of world) -> cl_fd c ∈ descriptors (view_of world')) \/
    cl_fd c' = -1 /\ cl_worker_id c' = 0;
  hd_live id : id <> cl_worker_id c -> id <> cl_worker_id c' ->
    live_at (store_workers store') id = live_at (store_workers store) id;
  hd_own : conn_live c' store';
  hd_old : cl_worker_id c <> 0 ->
    cl_worker_id c' = cl_worker_id c \/
    cl_fd c' = -1 /\ cl_worker_id c' = 0 /\ live_at (store_workers store') (cl_worker_id c) = None;
  hd_new : cl_worker_id c = 0 -> cl_worker_id c' <> 0 ->
    live_at (store_workers store) (cl_worker_id c') = None;
  hd_busy : store_failed store' \/ forall w, busy (jobs store') w ->
    (busy (jobs store) w \/ w = cl_worker_id c') /\
    (w = cl_worker_id c -> cl_worker_id c' = cl_worker_id c);
  hd_beats : beats store (clock (view_of world)) -> beats store' (clock (view_of world'));
}.

(** A step of the store that leaves the registry and the identity of the connection alone. *)
Lemma handled_step recs c store world c' store' world' :
  store_step recs store world store' world' -> conn_live c store ->
  cl_fd c' = cl_fd c -> cl_worker_id c' = cl_worker_id c ->
  store_workers store' = store_workers store ->
  (store_failed store' \/ forall w, busy (jobs store') w -> busy (jobs store) w \/ w = cl_worker_id c) ->
  handled recs c store world c' store' world'.
Proof.
  intros [Hs Hn Hf Hfound] Hl Hfd Hid Hw Hb. split; try done.
  - by apply same_sockets_others.
  - left. split; [done|]. by rewrite (same_descriptors _ _ Hn).
  - intros id _ _. by rewrite Hw.
  - unfold conn_live. rewrite Hid, Hfd, Hw. exact Hl.
  - by left.
  - intros H. by rewrite Hid.
  - destruct Hb as [Hb|Hb]; [by left|right]. intros w Hbw. split; [|done]. rewrite Hid. auto.
  - intros H. unfold beats. rewrite Hw. eapply beats_later; [done|]. apply Hn.
Qed.

Lemma handled_calm recs c store world c' world' :
  sound recs store world -> conn_live c store -> calm world world' ->
  cl_fd c' = cl_fd c -> cl_worker_id c' = cl_worker_id c -> handled recs c store world c' store world'.
Proof. intros Hs Hl Hc Hfd Hid. apply handled_step; auto. by apply store_step_calm. Qed.

Lemma handled_trans recs c store world c1 store1 world1 c2 store2 world2 :
  handled recs c store world c1 store1 world1 -> handled recs c1 store1 world1 c2 store2 world2 ->
  cl_fd c1 = cl_fd c -> 0 <= cl_fd c -> (cl_worker_id c <> 0 -> cl_worker_id c1 = cl_worker_id c) ->
  handled recs c store world c2 store2 world2.
Proof.
  intros H1 H2 Hfd Hnn Hid. split.
  - apply H2.
  - etrans; [apply H1|]. rewrite <- Hfd. apply H2.
  - intros H. by apply (hd_failed _ _ _ _ _ _ _ H2), (hd_failed _ _ _ _ _ _ _ H1).
  - intros id H. by apply (hd_found _ _ _ _ _ _ _ H2), (hd_found _ _ _ _ _ _ _ H1).
  - destruct (hd_conn _ _ _ _ _ _ _ H1) as [[_ Hd1]|[Hm _]]; [|lia].
    destruct (hd_conn _ _ _ _ _ _ _ H2) as [[Hf2 Hd2]|Hc2]; [left|by right].
    rewrite Hfd in *. split; [done|auto].
  - intros id Hi Hi2. destruct (decide (id = cl_worker_id c1)) as [->|Hne].
    + destruct (decide (cl_worker_id c1 = 0)) as [->|Hz]; [done|].
      destruct (decide (cl_worker_id c = 0)) as [Hcz|Hcz]; [|by destruct Hi; rewrite Hid].
      rewrite (hd_new _ _ _ _ _ _ _ H1 Hcz Hz).
      destruct (hd_old _ _ _ _ _ _ _ H2 Hz) as [|(_ & _ & ?)]; [congruence|done].
    + rewrite (hd_live _ _ _ _ _ _ _ H2 id) by done. by apply (hd_live _ _ _ _ _ _ _ H1).
  - apply H2.
  - intros Hz. rewrite <- (Hid Hz). apply (hd_old _ _ _ _ _ _ _ H2). by rewrite (Hid Hz).
  - intros Hz Hz2. destruct (decide (cl_worker_id c2 = cl_worker_id c1)) as [E|E].
    + rewrite E. apply (hd_new _ _ _ _ _ _ _ H1); congruence.
    + destruct (decide (cl_worker_id c1 = 0)) as [Hz1|Hz1].
      * rewrite <- (hd_live _ _ _ _ _ _ _ H1) by congruence. by apply (hd_new _ _ _ _ _ _ _ H2).
      * destruct (hd_old _ _ _ _ _ _ _ H2 Hz1) as [|(_ & ? & _)]; congruence.
  - destruct (hd_busy _ _ _ _ _ _ _ H2) as [Hb2|Hb2]; [by left|].
    destruct (hd_busy _ _ _ _ _ _ _ H1) as [Hb1|Hb1];
      [left; by apply (hd_failed _ _ _ _ _ _ _ H2)|right].
    intros w Hb. destruct (Hb2 w Hb) as [[Hbw|Hbw] Hw2]; [|split; [by right|congruence]].
    destruct (Hb1 w Hbw) as [Hbw' Hw1]. split.
    + destruct Hbw' as [|Hw]; [by left|right]. rewrite Hw. symmetry. by apply Hw2.
    + intros Hw. specialize (Hw1 Hw). rewrite <- Hw1. apply Hw2. congruence.
  - intros H. by apply (hd_beats _ _ _ _ _ _ _ H2), (hd_beats _ _ _ _ _ _ _ H1).
Qed.

(** ** Closing *)

Lemma calm_client_log s level event body world : calm world (log net s level event body world).
Proof. apply (calm_log os net). Qed.

Lemma calm_log_job event j store previous world : calm world (log_job net event j store previous world).
Proof. apply (calm_log os net). Qed.

Lemma lost_active store worker now world res store' world' :
  faultline_scheduler_active (jobs store) worker <> None ->
  faultline_store_worker_lost os store worker now world = (res, store', world') ->
  res = FAULTLINE_STORE_OK \/ res = FAULTLINE_STORE_FATAL.
Proof.
  intros Ha. unfold faultline_store_worker_lost, commit_worker_loss.
  destruct (negb _); [intros [= <- _ _]; by right|].
  destruct (faultline_scheduler_active _ _); [|done].
  destruct (job_time store now) as [[time|] s1]; [|intros [= <- _ _]; by right].
  destruct (faultline_scheduler_worker_lost _ _ _) as [r s'].
  destruct r; try (intros [= <- _ _]; by right). apply commit_job_result.
Qed.

Lemma release_spec recs c store world store' world' :
  sound recs store world -> release_job os net c store world = (store', world') ->
  store_step recs store world store' world' /\ store_workers store' = store_workers store /\
  (store_failed store' \/ forall w, busy (jobs store') w -> busy (jobs store) w /\ w <> cl_worker_id c).
Proof.
  intros Hs. unfold release_job.
  destruct (faultline_scheduler_active (jobs store) (cl_worker_id c)) as [active|] eqn:Ea.
  2:{ intros [= <- <-]. split_and!; [by apply store_step_calm|done|]. right. intros w Hb. split; [done|].
      intros ->. by apply Hb. }
  case_bool_decide as Hf.
  2:{ intros [= <- <-]. split_and!; [by apply store_step_calm|done|by left]. }
  destruct (faultline_monotonic_ms net world) as [now w1] eqn:Em.
  apply (calm_monotonic os net) in Em. pose proof (store_step_calm os net _ _ _ _ Hs Em) as H1.
  destruct (faultline_store_worker_lost os store _ now w1) as [[res s2] w2] eqn:El.
  assert (res = FAULTLINE_STORE_OK \/ res = FAULTLINE_STORE_FATAL) as Hres.
  { eapply lost_active; [|done]. by rewrite Ea. }
  apply (lost_step os net _ _ _ _ _ _ _ _ (step_sound _ _ _ _ _ _ _ H1)) in El as (H2 & Hw & Hb & H).
  pose proof (store_step_trans os net _ _ _ _ _ _ _ H1 H2) as H12.
  destruct Hres as [-> | ->]; intros [= <- <-].
  - split_and!; [|done|].
    + eapply store_step_trans; [exact H12|]. apply store_step_calm; [apply H2|apply calm_log_job].
    + right. intros w Hbw. split; [auto|]. intros ->. by destruct H as [H _].
  - split_and!; [done|done|by left].
Qed.

Lemma detach_spec recs c store reason world store' world' :
  sound recs store world -> cl_worker_id c <> 0 -> conn_live c store ->
  detach_worker net c store reason world = (store', world') ->
  sound recs store' world' /\ calm world world' /\ jobs store' = jobs store /\
  store_failure store' = store_failure store /\
  (forall i, live_at (store_workers store') i =
     if i =? cl_worker_id c then None else live_at (store_workers store) i) /\
  (forall t, beats store t -> beats store' t).
Proof.
  intros Hs Hid Hl. unfold detach_worker. pose proof (sound_registry _ _ _ _ Hs) as Hr.
  destruct (live_at_mark_dead _ _ _ Hr (Hl Hid)) as (r' & Hm & Hlive). rewrite Hm.
  pose proof (registry_step os net recs store world (StoreDisconnect (cl_worker_id c) (cl_fd c)) Hs
    (or_intror (ex_intro _ _ (ex_intro _ _ eq_refl)))) as Hstep.
  cbn in Hstep. rewrite Hm in Hstep. cbn in Hstep. intros [= <- <-].
  split_and!; try done.
  - eapply sound_calm; [apply Hstep|]. apply calm_client_log.
  - apply calm_client_log.
  - intros t Hb w. cbn. revert Hm. unfold faultline_worker_mark_dead.
    destruct (find_live_connection _ _ _) as [e slot] eqn:Ef. destruct e; try done. intros [= <-]. cbn.
    apply (find_live_connection_ok _ Hr) in Ef as (v & Hv & -> & Ha & _).
    intros Hw Hu. apply list_elem_of_lookup in Hw as [k Hk].
    destruct (decide (k = slot)) as [->|Hne].
    + rewrite list_lookup_insert_eq in Hk by (by eapply lookup_lt_Some). injection Hk as <-. cbn.
      apply Hb; [by eapply list_elem_of_lookup_2|by apply used_alive].
    + rewrite list_lookup_insert_ne in Hk by done. apply Hb; [by eapply list_elem_of_lookup_2|done].
Qed.
(** The last two steps: the record and [close]. *)
Lemma shut_spec recs store fd s level event body world :
  sound recs store world ->
  let world' := os_close net fd (log net s level event body world) in
  sound recs store world' /\ same_others fd (view_of world) (view_of world') /\
  fd ∉ descriptors (view_of world').
Proof.
  intros Hs. cbn. set (w1 := log net s level event body world).
  destruct (calm_client_log s level event body world) as [Hd Hn].
  destruct (NetLaws.law_close net fd w1) as [Ho Hfd]. split_and!; [|etrans; [by apply same_sockets_others|done]|done].
  eapply sound_calm; [|apply (disk_close os net)]. by eapply sound_calm.
Qed.

Lemma close_spec recs c store reason world c' store' world' :
  sound recs store world -> conn_live c store ->
  close_client os net c store reason world = (c', store', world') ->
  handled recs c store world c' store' world' /\ cl_fd c' = -1 /\ cl_worker_id c' = 0 /\
  (cl_fd c ∉ descriptors (view_of world')).
Proof.
  intros Hs Hl. unfold close_client, FAULTLINE_WORKER_ID_UNASSIGNED.
  destruct (Z.eqb_spec (cl_worker_id c) 0) as [Hz|Hz]; cbn [negb].
  - intros [= <- <- <-]. destruct (shut_spec recs store (cl_fd c) stdout
      (if text_eqb (text reason) (text "eof") then INFO else WARN) "client_closed"
      (Some (fields [field "fd" (print_int (cl_fd c)); field "worker_id" (print_uint (cl_worker_id c));
         field "reason" (text reason)])) world Hs) as (H1 & H2 & H3).
    split_and!; try done. split; try done; cbn.
    + by right.
    + by intros ?.
    + right. intros w Hb. split; [by left|]. by rewrite Hz.
    + intros Hb. eapply beats_later; [done|]. apply H2.
  - destruct (release_job os net c store world) as [s1 w1] eqn:Er.
    apply (release_spec recs) in Er as (H1 & Hw1 & Hb1); [|done].
    assert (conn_live c s1) as Hl1 by (unfold conn_live; by rewrite Hw1).
    destruct (detach_worker net c s1 (text reason) w1) as [s2 w2] eqn:Ed.
    apply (detach_spec recs) in Ed as (Hs2 & Hc2 & Hj2 & Hf2 & Hl2 & Hbt2); [|apply H1|done|done].
    intros [= <- <- <-]. destruct (shut_spec recs s2 (cl_fd c) stdout
      (if text_eqb (text reason) (text "eof") then INFO else WARN) "client_closed"
      (Some (fields [field "fd" (print_int (cl_fd c)); field "worker_id" (print_uint (cl_worker_id c));
         field "reason" (text reason)])) w2 Hs2) as (H3 & H4 & H5).
    split_and!; try done. split; try done; cbn.
    + etrans; [apply same_sockets_others, H1|]. etrans; [apply same_sockets_others, Hc2|]. done.
    + unfold store_failed. rewrite Hf2. apply H1.
    + rewrite Hj2. apply H1.
    + by right.
    + intros id Hi _. rewrite Hl2, (proj2 (Z.eqb_neq _ _)) by done. by rewrite Hw1.
    + by intros ?.
    + intros _. right. split_and!; [done|done|]. rewrite Hl2. by rewrite Z.eqb_refl.
    + destruct Hb1 as [Hb1|Hb1]; [left; unfold store_failed; by rewrite Hf2|right].
      rewrite Hj2. intros w Hb. destruct (Hb1 w Hb) as [? ?]. split; [by left|done].
    + intros Hb. eapply beats_later; [apply Hbt2|].
      * unfold beats. rewrite Hw1. exact Hb.
      * etrans; [apply H1|]. etrans; [apply Hc2|]. apply H4.
Qed.
(** ** Replies *)

(** The reply is in the output buffer, from its first byte. *)
Record queued (c : client) (m : faultline_message) (c' : client) : Prop := {
  qd_fd : cl_fd c' = cl_fd c;
  qd_worker : cl_worker_id c' = cl_worker_id c;
  qd_role : cl_job_client c' = cl_job_client c;
  qd_input : cl_input c' = cl_input c;
  qd_phase : cl_phase c' = WRITING_REPLY;
  qd_sent : cl_sent c' = 0;
  qd_output : faultline_message_encode CLIENT_FRAME_CAPACITY m = inr (cl_output c');
  qd_type : cl_reply_type c' = message_type m;
}.

Lemma queue_spec recs c store m world c' store' world' :
  sound recs store world -> conn_live c store -> 0 <= cl_fd c ->
  queue_message os net c store m world = (c', store', world') ->
  handled recs c store world c' store' world' /\
  (cl_fd c' = -1 \/ queued c m c' /\ store' = store).
Proof.
  intros Hs Hl Hfd. unfold queue_message.
  destruct (faultline_message_encode CLIENT_FRAME_CAPACITY m) as [e|frame] eqn:Ee.
  - intros Hc. set (w1 := log _ _ _ _ _ _) in Hc. assert (calm world w1) as Hw1 by apply calm_client_log.
    apply (close_spec recs) in Hc as (H & Hm & _);
      [|eapply sound_calm; [done|apply Hw1]|done].
    split; [|by left]. eapply handled_trans; [apply (handled_calm recs c store world c); eauto|done|done|done|done].
  - destruct (faultline_monotonic_ms net world) as [now w1] eqn:Em. apply (calm_monotonic os net) in Em.
    set (c1 := c <| cl_output := frame |>).
    assert (handled recs c store world c1 store w1) as H1 by (by apply handled_calm).
    destruct (now <? 0).
    + intros Hc. apply (close_spec recs) in Hc as (H & Hm & _); [|apply H1|done].
      split; [|by left]. by eapply handled_trans.
    + intros [= <- <- <-]. split; [by apply handled_calm|]. right. by split.
Qed.

(** ** Good connections *)

Definition received_header (c : client) : Prop :=
  exists h, faultline_header_decode (cl_input c) = inr h /\ header_allowed c (h_message_type h) = true /\
    cl_expected c = FAULTLINE_HEADER_SIZE + h_payload_length h /\
    FAULTLINE_HEADER_SIZE <= cl_received c < cl_expected c /\ cl_expected c <= CLIENT_FRAME_CAPACITY.

Record good_conn (c : client) (store : faultline_coordinator_store) : Prop := {
  gc_input : bytes_ok (cl_input c);
  gc_reading : cl_phase c = READING_MESSAGE ->
    cl_expected c = FAULTLINE_HEADER_SIZE /\ cl_received c < FAULTLINE_HEADER_SIZE \/ received_header c;
  gc_writing : cl_phase c = WRITING_REPLY ->
    0 <= cl_sent c < cl_output_size c /\ cl_output_size c <= CLIENT_FRAME_CAPACITY /\
    exists m, message_typed m /\ faultline_message_encode CLIENT_FRAME_CAPACITY m = inr (cl_output c) /\
      forall id, m = MsgJobSubmitAck id -> faultline_scheduler_find (jobs store) id <> None;
  gc_role : cl_worker_id c <> 0 -> cl_job_client c = false;
}.

(** How a handler leaves its connection. *)
Definition conn_post (c : client) (store : faultline_coordinator_store) : Prop :=
  cl_fd c = -1 \/ store_failed store \/ good_conn c store.

(** Nothing but the descriptor and the worker of the connection matters. *)
Lemma handled_same recs c c1 store world c' store' world' :
  cl_fd c1 = cl_fd c -> cl_worker_id c1 = cl_worker_id c ->
  handled recs c1 store world c' store' world' -> handled recs c store world c' store' world'.
Proof. intros Hfd Hid H. destruct H. rewrite Hfd, Hid in *. by split. Qed.

(** After a calm start. *)
Lemma handled_after recs c store world world1 c' store' world' :
  sound recs store world -> conn_live c store -> 0 <= cl_fd c -> calm world world1 ->
  handled recs c store world1 c' store' world' -> handled recs c store world c' store' world'.
Proof.
  intros Hs Hl Hfd Hc H. eapply (handled_trans recs c store world c); try done. by apply handled_calm.
Qed.

Lemma queue_post recs c store m world c' store' world' :
  sound recs store world -> conn_live c store -> 0 <= cl_fd c -> bytes_ok (cl_input c) ->
  (cl_worker_id c <> 0 -> cl_job_client c = false) -> message_typed m ->
  (forall id, m = MsgJobSubmitAck id -> faultline_scheduler_find (jobs store) id <> None) ->
  queue_message os net c store m world = (c', store', world') ->
  handled recs c store world c' store' world' /\ conn_post c' store'.
Proof.
  intros Hs Hl Hfd Hin Hrole Ht Hack Hq.
  apply (queue_spec recs) in Hq as [Hh [Hm|[Hq ->]]]; [split; [done|by left]| |done..].
  split; [done|]. right. right. destruct Hq as [Qf Qw Qr Qi Qp Qs Qo Qt]. split.
  - by rewrite Qi.
  - by rewrite Qp.
  - intros _. unfold cl_output_size. rewrite Qs.
    destruct (message_frame_size _ _ _ Ht Qo) as (_ & Hcap & _ & _).
    assert (0 < Z.of_nat (length (cl_output c'))).
    { apply message_encode_ok in Qo as (n & _ & _ & ->); [|done]. rewrite length_app. cbn. lia. }
    split_and!; [done|done|done|]. by exists m.
  - by rewrite Qw, Qr.
Qed.

Lemma close_post recs c store reason world c' store' world' :
  sound recs store world -> conn_live c store ->
  close_client os net c store reason world = (c', store', world') ->
  handled recs c store world c' store' world' /\ conn_post c' store'.
Proof. intros Hs Hl Hc. apply (close_spec recs) in Hc as (? & ? & _); [|done..]. split; [done|by left]. Qed.

Lemma close_log_post recs c store s level event body reason world c' store' world' :
  sound recs store world -> conn_live c store -> 0 <= cl_fd c ->
  close_client os net c store reason (log net s level event body world) = (c', store', world') ->
  handled recs c store world c' store' world' /\ conn_post c' store'.
Proof.
  intros Hs Hl Hfd Hc. pose proof (calm_client_log s level event body world) as Hcalm.
  apply (close_post recs) in Hc as [H Hp]; [|by eapply sound_calm; [|apply Hcalm]|done].
  split; [|done]. by eapply handled_after.
Qed.

(** ** Requests *)

(** What the coordinator knows of a connection when a whole message has arrived. *)
Record serving (recs : list faultline_wal_record) (c : client) (store : faultline_coordinator_store)
    (world : W) : Prop := {
  sv_sound : sound recs store world;
  sv_live : conn_live c store;
  sv_fd : 0 <= cl_fd c;
  sv_input : bytes_ok (cl_input c);
  sv_role : cl_worker_id c <> 0 -> cl_job_client c = false;
}.

Lemma serving_calm recs c store world world' :
  serving recs c store world -> calm world world' -> serving recs c store world'.
Proof. intros [] Hc. split; try done. eapply sound_calm; [done|apply Hc]. Qed.

Lemma serving_after recs c store world world1 c' store' world' :
  serving recs c store world -> calm world world1 ->
  handled recs c store world1 c' store' world' /\ conn_post c' store' ->
  handled recs c store world c' store' world' /\ conn_post c' store'.
Proof. intros [] Hc [H Hp]. split; [|done]. by eapply handled_after. Qed.

(** A connection that has become one of a client. *)
Lemma serving_client recs c store world :
  serving recs c store world -> cl_worker_id c = 0 ->
  serving recs (c <| cl_job_client := true |>) store world.
Proof. intros [] Hz. by split. Qed.

(** A refused operation of the store, after a calm start: the refusal is logged and the connection
    closed. *)
Lemma refused_post recs c store world w1 store1 w2 s level event body reason c' store' world' :
  sound recs store world -> conn_live c store -> 0 <= cl_fd c -> calm world w1 ->
  store_step recs store w1 store1 w2 -> store_workers store1 = store_workers store ->
  (forall w, busy (jobs store1) w -> busy (jobs store) w) ->
  close_client os net c store1 reason (log net s level event body w2) = (c', store', world') ->
  handled recs c store world c' store' world' /\ conn_post c' store'.
Proof.
  intros Hs Hl Hfd Hcalm Hstep Hw Hb Hc.
  assert (conn_live c store1) as Hl1 by (unfold conn_live; by rewrite Hw).
  apply (close_log_post recs) in Hc as [H Hp]; [|apply Hstep|done|done].
  split; [|done]. eapply handled_after; [done|done|done|done|].
  eapply (handled_trans recs c store w1 c store1 w2); [apply handled_step; auto|done|done|done|done].
Qed.

Lemma register_post recs c store world c' store' world' :
  serving recs c store world ->
  handle_register os net c store world = (c', store', world') ->
  handled recs c store world c' store' world' /\ conn_post c' store'.
Proof.
  intros Hsv. destruct Hsv as [Hs Hl Hfd Hin Hrole]. unfold handle_register.
  destruct (cl_job_client c) eqn:Ej; [by apply close_post|].
  destruct (faultline_monotonic_ms net world) as [now w1] eqn:Em.
  pose proof (clock_read net _ _ _ Em) as Hclock. apply (calm_monotonic os net) in Em.
  destruct (faultline_store_register os store (cl_fd c) now w1) as [[[res id] s2] w2] eqn:Er.
  pose proof (sound_calm _ _ _ _ _ Hs (proj1 Em)) as Hs1.
  apply (register_step os net recs) in Er as (Hstep & Hj & Hres); [|done].
  destruct res; cycle 3.
  - destruct Hres as (-> & Hw & Hf). intros [= <- <- <-]. split; [|right; by left].
    eapply handled_after; [done|done|done|done|]. apply handled_step; try done. by left.
  - destruct Hres as (i & -> & Hff & Hfree & Hi & Hlive & Hnofd & Hnow & Hbeat).
    assert (cl_worker_id c = 0) as Hz.
    { destruct (decide (cl_worker_id c = 0)) as [|Hz]; [done|]. by destruct (Hnofd (cl_worker_id c)); apply Hl. }
    cbn [cl_worker_id]. set (c1 := c <| cl_worker_id := i |>).
    assert (handled recs c store w1 c1 s2 w2) as H1.
    { split; try (by apply Hstep); cbn.
      - apply same_sockets_others, Hstep.
      - left. split; [done|]. by rewrite (same_descriptors _ _ (step_sockets _ _ _ _ _ _ _ Hstep)).
      - intros id _ Hid. by rewrite Hlive, (proj2 (Z.eqb_neq _ _)) by done.
      - intros _. cbn. by rewrite Hlive, Z.eqb_refl.
      - done.
      - done.
      - right. intros w Hb. rewrite Hj in Hb. split; [by left|]. intros ->. by apply busy_spec in Hb as [? _].
      - intros Hb. apply Hbeat; [eapply beats_later; [done|apply Hstep]|].
        destruct (Hclock Hnow). etrans; [done|apply Hstep]. }
    assert (forall world1 c2 store2 world2, calm w2 world1 ->
      queue_message os net c1 s2 (MsgWorkerRegisterAck i) world1 = (c2, store2, world2) ->
      handled recs c store world c2 store2 world2 /\ conn_post c2 store2) as Hend.
    { intros world1 c2 store2 world2 Hcalm Hq.
      apply (queue_post recs) in Hq as [H2 Hp]; try done.
      - split; [|done]. eapply handled_after; [done|done|done|done|].
        eapply (handled_trans recs c store w1 c1); [done| |done|done|by rewrite Hz].
        eapply handled_after; [apply Hstep|apply H1|done|done|done].
      - eapply sound_calm; [apply Hstep|apply Hcalm].
      - apply H1.
      - cbn. plia. }
    apply Hend, calm_client_log.
  - destruct Hres as [-> ->]. intros Hc. eapply refused_post; [..|exact Hc]; done.
  - destruct Hres as [-> ->]. intros Hc. eapply refused_post; [..|exact Hc]; done.
Qed.

(** Waiting for the next message. *)
Lemma reset_good c store :
  (cl_worker_id c <> 0 -> cl_job_client c = false) -> good_conn (reset_input c) store.
Proof. intros H. split; [constructor|by left|done|done]. Qed.

Lemma heartbeat_post recs c store id now world c' store' world' :
  serving recs c store world -> now <= clock (view_of world) ->
  handle_heartbeat os net c store id now world = (c', store', world') ->
  handled recs c store world c' store' world' /\ conn_post c' store'.
Proof.
  intros Hsv Hnow. destruct Hsv as [Hs Hl Hfd Hin Hrole]. unfold handle_heartbeat.
  destruct (_ || _) eqn:Eg; [by apply close_post|].
  apply orb_false_iff in Eg as [Hz Hid]. apply Z.eqb_neq in Hz. apply negb_false_iff, Z.eqb_eq in Hid. subst id.
  pose proof (sound_registry _ _ _ _ Hs) as Hr.
  destruct (faultline_worker_heartbeat (store_workers store) (cl_worker_id c) (cl_fd c) now) as [res r'] eqn:Eh.
  pose proof (registry_step os net recs store world (StoreHeartbeat (cl_worker_id c) (cl_fd c) now) Hs
    (or_introl (ex_intro _ _ (ex_intro _ _ (ex_intro _ _ eq_refl))))) as Hstep.
  cbn in Hstep. rewrite Eh in Hstep. cbn in Hstep.
  set (s1 := store <| store_workers := r' |>) in *.
  assert (forall i, live_at (store_workers s1) i = live_at (store_workers store) i) as Hlive.
  { intros i. by eapply live_at_heartbeat. }
  assert (beats store (clock (view_of world)) -> beats s1 (clock (view_of world))) as Hbeat.
  { intros Hb w Hw Hu. cbn in Hw. revert Eh. unfold faultline_worker_heartbeat.
    destruct (now <? 0); [intros [= _ <-]; by apply Hb|].
    destruct (find_live_connection _ _ _) as [e slot] eqn:Ef. destruct e; try (intros [= _ <-]; by apply Hb).
    apply (find_live_connection_ok _ Hr) in Ef as (v & Hv & -> & Ha & _).
    destruct (now <? _); intros [= _ <-]; [by apply Hb|]. cbn in Hw.
    apply list_elem_of_lookup in Hw as [k Hk]. destruct (decide (k = slot)) as [->|Hne].
    - rewrite list_lookup_insert_eq in Hk by (by eapply lookup_lt_Some). by injection Hk as <-.
    - rewrite list_lookup_insert_ne in Hk by done. apply Hb; [by eapply list_elem_of_lookup_2|done]. }
  assert (handled recs c store world c s1 world) as H1.
  { split; try (by apply Hstep); try done.
    - by left.
    - intros Hz'. rewrite Hlive. by apply Hl.
    - by left.
    - right. intros w Hb. split; [by left|done]. }
  assert (forall c2 store2 world2, close_client os net c s1 "heartbeat_rejected" world = (c2, store2, world2) ->
    handled recs c store world c2 store2 world2 /\ conn_post c2 store2) as Hclose.
  { intros c2 store2 world2 Hc. apply (close_post recs) in Hc as [H Hp]; [|apply Hstep|apply H1].
    split; [|done]. by eapply handled_trans. }
  destruct res; try apply Hclose. intros [= <- <- <-].
  split; [|right; right; by apply reset_good].
  eapply (handled_trans recs c store world c); [done| |done|done|done].
  apply handled_calm; [apply Hstep|apply H1|apply calm_client_log|done|done].
Qed.

Lemma found_range recs store world id :
  sound recs store world -> faultline_scheduler_find (jobs store) id <> None -> 0 < id /\ in_u64 id.
Proof.
  intros Hs H. pose proof (sound_sched _ _ _ _ Hs) as Hsch.
  destruct (faultline_scheduler_find (jobs store) id) as [j|] eqn:E; [|done].
  apply (find_some _ _ _ Hsch) in E as (_ & Hin & <-).
  pose proof (sched_jobs_wf _ Hsch) as Hwf. rewrite Forall_forall in Hwf. pose proof (wf_id j (Hwf j Hin)). ilia.
Qed.

Lemma submit_post recs c store p world c' store' world' :
  serving recs c store world -> submit_typed p ->
  handle_submit os net c store p world = (c', store', world') ->
  handled recs c store world c' store' world' /\ conn_post c' store'.
Proof.
  intros Hsv Hp. destruct Hsv as [Hs Hl Hfd Hin Hrole]. unfold handle_submit.
  destruct (Z.eqb_spec (cl_worker_id c) 0) as [Hz|Hz]; cbn [negb]; [|by apply close_post].
  destruct (faultline_monotonic_ms net world) as [now w1] eqn:Em. apply (calm_monotonic os net) in Em.
  pose proof (sound_calm _ _ _ _ _ Hs (proj1 Em)) as Hs1.
  destruct (faultline_store_submit os store p now w1) as [[[res id] s2] w2] eqn:Er.
  apply (submit_step os net recs) in Er as (Hstep & Hw & Hb & Hres); [|done|done].
  destruct res.
  - destruct Hres as [(i & -> & Hfound) Hf]. cbn [default]. intros Hq.
    set (c1 := c <| cl_job_client := true |>) in *. set (w3 := log_job _ _ _ _ _ _) in Hq.
    assert (calm w2 w3) as Hc3 by apply calm_log_job.
    assert (handled recs c store w1 c1 s2 w2) as H1 by (apply handled_step; auto).
    apply (queue_post recs) in Hq as [H Hpost]; try done.
    + split; [|done]. eapply handled_after; [done|done|done|done|].
      eapply (handled_trans recs c store w1 c1); [done| |done|done|done].
      eapply handled_after; [apply Hstep|apply H1|done|done|done].
    + eapply sound_calm; [apply Hstep|apply Hc3].
    + apply H1.
    + cbn. by destruct (found_range _ _ _ _ (step_sound _ _ _ _ _ _ _ Hstep) Hfound).
    + by intros id' [= <-].
  - destruct Hres as [Hj _]. intros Hc. eapply refused_post; [..|exact Hc]; done.
  - destruct Hres as [Hj _]. intros Hc. eapply refused_post; [..|exact Hc]; done.
  - intros [= <- <- <-]. split; [|right; by left].
    eapply handled_after; [done|done|done|done|]. apply handled_step; try done. by left.
Qed.
Lemma report_post recs c store m world c' store' world' :
  serving recs c store world -> report_typed m ->
  handle_report os net c store m world = (c', store', world') ->
  handled recs c store world c' store' world' /\ conn_post c' store'.
Proof.
  intros Hsv Hm. destruct Hsv as [Hs Hl Hfd Hin Hrole]. unfold handle_report.
  destruct (faultline_monotonic_ms net world) as [now w1] eqn:Em. apply (calm_monotonic os net) in Em.
  pose proof (sound_calm _ _ _ _ _ Hs (proj1 Em)) as Hs1.
  destruct (faultline_store_report os store (cl_worker_id c) m now w1) as [[res s2] w2] eqn:Er.
  apply (report_step os net recs) in Er as (Hstep & Hw & Hb & Hres); [|done|done].
  assert (handled recs c store w1 c s2 w2) as H1 by (apply handled_step; auto).
  destruct res.
  - destruct (if message_type m =? FAULTLINE_MSG_JOB_STARTED then _ else _) as [event previous].
    intros [= <- <- <-]. split; [|right; right; by apply reset_good].
    eapply handled_after; [done|done|done|done|].
    eapply (handled_trans recs c store w1 c); [done| |done|done|done].
    apply handled_calm; [apply Hstep|apply H1|apply calm_log_job|done|done].
  - intros Hc. eapply refused_post; [..|exact Hc]; done.
  - intros Hc. eapply refused_post; [..|exact Hc]; done.
  - intros [= <- <- <-]. split; [|right; by left]. eapply handled_after; done.
Qed.

(** A reply to a client about the present state. *)
Lemma reply_post recs c store m world c' store' world' :
  serving recs c store world -> cl_worker_id c = 0 -> message_typed m ->
  (forall id, m <> MsgJobSubmitAck id) ->
  queue_message os net (c <| cl_job_client := true |>) store m world = (c', store', world') ->
  handled recs c store world c' store' world' /\ conn_post c' store'.
Proof.
  intros [Hs Hl Hfd Hin Hrole] Hz Ht Hack Hq. apply (queue_post recs) in Hq as [H Hp]; try done.
  - split; [|done]. eapply handled_same; [..|exact H]; done.
  - intros id ->. by destruct (Hack id).
Qed.

Lemma close_client_post recs c store reason world c' store' world' :
  serving recs c store world ->
  close_client os net (c <| cl_job_client := true |>) store reason world = (c', store', world') ->
  handled recs c store world c' store' world' /\ conn_post c' store'.
Proof.
  intros [] Hc. apply (close_post recs) in Hc as [H Hp]; try done. split; [|done]. eapply handled_same; [..|exact H]; done.
Qed.

Lemma status_post recs c store id world c' store' world' :
  serving recs c store world -> cl_worker_id c = 0 -> in_u64 id ->
  handle_status os net c store id world = (c', store', world') ->
  handled recs c store world c' store' world' /\ conn_post c' store'.
Proof.
  intros Hsv Hz Hid. unfold handle_status.
  destruct (faultline_scheduler_find (jobs store) id) as [j|] eqn:E; [|by apply reply_post].
  apply reply_post; try done. apply status_sendable.
  pose proof (sound_sched _ _ _ _ (sv_sound _ _ _ _ Hsv)) as Hsch.
  apply (find_some _ _ _ Hsch) in E as (_ & Hin & _).
  pose proof (sched_jobs_wf _ Hsch) as Hwf. rewrite Forall_forall in Hwf. auto.
Qed.

Lemma listing_post recs c store type timeout world c' store' world' :
  serving recs c store world -> cl_worker_id c = 0 ->
  queue_listing os net c store type timeout world = (c', store', world') ->
  handled recs c store world c' store' world' /\ conn_post c' store'.
Proof.
  intros Hsv Hz. unfold queue_listing.
  destruct (faultline_monotonic_ms net world) as [now w1] eqn:Em. apply (calm_monotonic os net) in Em.
  pose proof (serving_calm _ _ _ _ _ Hsv Em) as Hsv1.
  pose proof (sound_sched _ _ _ _ (sv_sound _ _ _ _ Hsv)) as Hsch.
  pose proof (sound_registry _ _ _ _ (sv_sound _ _ _ _ Hsv)) as Hr.
  intros H. eapply serving_after; [done|done|]. revert H.
  destruct (now <? 0); [apply close_post; apply Hsv1|].
  destruct (type =? FAULTLINE_MSG_JOBS_REQUEST).
  - apply reply_post; try done. by apply jobs_listing.
  - destruct (list_workers _ _ _) as [entries|] eqn:El; [|by apply close_client_post].
    apply reply_post; try done. cbn. split; [apply u32_range|]. rewrite qsort_perm.
    eapply list_workers_typed; [done| |done]. intros w Hw Hu. by destruct (reg_ids _ Hr w Hw Hu).
Qed.

Lemma stats_post recs c store timeout session world c' store' world' :
  serving recs c store world -> cl_worker_id c = 0 -> session_typed session ->
  handle_stats os net c store timeout session world = (c', store', world') ->
  handled recs c store world c' store' world' /\ conn_post c' store'.
Proof.
  intros Hsv Hz Hse. unfold handle_stats.
  destruct (faultline_monotonic_ms net world) as [now w1] eqn:Em. apply (calm_monotonic os net) in Em.
  pose proof (serving_calm _ _ _ _ _ Hsv Em) as Hsv1.
  intros H. eapply serving_after; [done|done|]. revert H.
  destruct (faultline_stats_snapshot _ _ _ _) as [stats|] eqn:E; [|by apply close_client_post].
  apply reply_post; try done. by eapply snapshot_typed.
Qed.

Lemma typed_submit p : message_typed (MsgJobSubmit p) -> submit_typed p.
Proof. by intros (_ & ? & ? & ?). Qed.

Lemma typed_report m : message_typed m -> report_typed m.
Proof. destruct m; try done. by intros (_ & ? & ?). Qed.

(** A whole handler, for a message that the role of the connection allows. *)
Lemma handle_message_post recs c store m now timeout session world c' store' world' :
  serving recs c store world -> now <= clock (view_of world) -> session_typed session ->
  message_typed m -> header_allowed c (message_type m) = true ->
  handle_message os net c store m now timeout session world = (c', store', world') ->
  handled recs c store world c' store' world' /\ conn_post c' store'.
Proof.
  intros Hsv Hnow Hse Ht Ha. pose proof Hsv as [Hs Hl Hfd Hin Hrole].
  assert (message_type m <> FAULTLINE_MSG_PING -> message_type m <> FAULTLINE_MSG_WORKER_REGISTER ->
    one_of (message_type m) [FAULTLINE_MSG_HEARTBEAT; FAULTLINE_MSG_JOB_STARTED; FAULTLINE_MSG_JOB_COMPLETED;
      FAULTLINE_MSG_JOB_FAILED] = false -> cl_worker_id c = 0) as Hclient.
  { intros H1 H2 H3. unfold header_allowed in Ha. rewrite H3 in Ha.
    rewrite !(proj2 (Z.eqb_neq (message_type m) _)) in Ha by done. cbn [andb orb] in Ha.
    rewrite orb_false_r in Ha. apply andb_prop in Ha as [_ Ha]. by apply Z.eqb_eq in Ha. }
  unfold handle_message. destruct m; try (by apply close_post).
  - intros Hq. set (w1 := log _ _ _ _ _ _) in Hq.
    assert (calm world w1) as Hc by apply calm_client_log. eapply serving_after; [done|done|].
    destruct (serving_calm _ _ _ _ _ Hsv Hc). eapply queue_post; [..|done]; try done.
  - by apply register_post.
  - by apply heartbeat_post.
  - apply submit_post; [done|]. by apply typed_submit.
  - apply report_post; [done|done].
  - apply report_post; [done|]. by apply typed_report.
  - apply report_post; [done|done].
  - apply status_post; [done| |done]. by apply Hclient.
  - apply listing_post; [done|]. by apply Hclient.
  - apply listing_post; [done|]. by apply Hclient.
  - apply stats_post; [done| |done]. by apply Hclient.
Qed.
(** ** Receiving and sending *)

(** A call on the socket of the connection. *)
Lemma handled_io recs c store world c' world' :
  sound recs store world -> conn_live c store -> same_disk os world world' ->
  same_others (cl_fd c) (view_of world) (view_of world') ->
  descriptors (view_of world') = descriptors (view_of world) ->
  cl_fd c' = cl_fd c -> cl_worker_id c' = cl_worker_id c -> handled recs c store world c' store world'.
Proof.
  intros Hs Hl Hd Ho Hdesc Hfd Hid. split; try done.
  - by eapply sound_calm.
  - left. by rewrite Hdesc.
  - unfold conn_live. rewrite Hid, Hfd. exact Hl.
  - by left.
  - intros H. by rewrite Hid.
  - right. intros w Hb. split; [by left|done].
  - intros Hb. eapply beats_later; [done|]. apply Ho.
Qed.

(** All the bytes that the connection waited for have arrived. *)
Definition input_complete (c : client) : Prop :=
  cl_expected c = FAULTLINE_HEADER_SIZE /\ cl_received c = FAULTLINE_HEADER_SIZE \/
  exists h, faultline_header_decode (cl_input c) = inr h /\ header_allowed c (h_message_type h) = true /\
    cl_expected c = FAULTLINE_HEADER_SIZE + h_payload_length h /\ cl_received c = cl_expected c /\
    FAULTLINE_HEADER_SIZE < cl_received c.

Lemma process_post recs c store now timeout session world c' store' world' :
  serving recs c store world -> now <= clock (view_of world) -> session_typed session ->
  cl_phase c = READING_MESSAGE -> input_complete c ->
  process_input os net c store now timeout session world = (c', store', world') ->
  handled recs c store world c' store' world' /\ conn_post c' store'.
Proof.
  intros Hsv Hnow Hse Hph Hcomp. pose proof Hsv as [Hs Hl Hfd Hin Hrole]. unfold process_input.
  set (decode := match faultline_message_decode (cl_input c) with inl _ => _ | inr _ => _ end).
  assert (forall h, faultline_header_decode (cl_input c) = inr h ->
    header_allowed c (h_message_type h) = true ->
    (faultline_message_decode (cl_input c) = inl SHORT -> cl_received c = FAULTLINE_HEADER_SIZE) ->
    decode = (c', store', world') ->
    handled recs c store world c' store' world' /\ conn_post c' store') as Hdecode.
  { intros h Hh Ha Hshort. unfold decode.
    destruct (faultline_message_decode (cl_input c)) as [e|[m n]] eqn:Ed.
    - destruct e; try (by apply close_log_post). rewrite Hh.
      pose proof (decode_short _ _ Ed Hh) as Hlen.
      destruct (Z.ltb_spec (CLIENT_FRAME_CAPACITY - FAULTLINE_HEADER_SIZE) (h_payload_length h));
        [by apply close_post|].
      intros [= <- <- <-]. split; [by apply handled_calm|]. right. right. split; try done.
      + intros _. right. exists h. specialize (Hshort eq_refl). unfold cl_received in *. cbn.
        split_and!; try done; lia.
      + cbn. by rewrite Hph.
    - pose proof (decode_type _ _ _ _ Ed Hh) as Hty. apply decode_message_inv in Ed as (Ht & _); [|done].
      apply handle_message_post; try done. by rewrite Hty. }
  destruct (Z.eqb_spec (cl_received c) FAULTLINE_HEADER_SIZE) as [E|E].
  - destruct (faultline_header_decode (cl_input c)) as [e|h] eqn:Hh; [by apply close_post|].
    destruct (header_allowed c (h_message_type h)) eqn:Ha; cbn [negb]; [|by apply close_post].
    by apply (Hdecode h).
  - destruct Hcomp as [[_ ?]|(h & Hh & Ha & He & Hr & Hgt)]; [done|].
    apply (Hdecode h Hh Ha). intros Ed. pose proof (decode_short _ _ Ed Hh). unfold cl_received in *. lia.
Qed.

Lemma read_post recs c store now timeout session world c' store' world' :
  sound recs store world -> conn_live c store -> 0 <= cl_fd c -> good_conn c store ->
  cl_phase c = READING_MESSAGE -> now <= clock (view_of world) -> session_typed session ->
  read_message os net c store now timeout session world = (c', store', world') ->
  handled recs c store world c' store' world' /\ conn_post c' store'.
Proof.
  intros Hs Hl Hfd Hg Hph Hnow Hse. pose proof Hg as [Hin Hrd _ Hrole]. specialize (Hrd Hph).
  assert (cl_received c < cl_expected c) as Hlt by (destruct Hrd as [[-> ?]|(h & ? & ? & ? & ? & ?)]; lia).
  unfold read_message.
  destruct (os_recv net (cl_fd c) (cl_expected c - cl_received c) world) as [r w1] eqn:Er.
  pose proof (disk_recv os net _ _ _ _ _ Er) as Hd. apply (law_recv net) in Er as (Ho & Hdesc & _ & Hr).
  assert (handled recs c store world c store w1) as H1 by (by apply handled_io).
  pose proof (hd_sound _ _ _ _ _ _ _ H1) as Hs1.
  assert (forall c2 store2 world2,
    handled recs c store w1 c2 store2 world2 /\ conn_post c2 store2 ->
    handled recs c store world c2 store2 world2 /\ conn_post c2 store2) as Hthen.
  { intros c2 store2 world2 [H Hp]. split; [|done]. by eapply handled_trans. }
  destruct r as [[|b bytes]|e].
  - intros Hc. apply Hthen. destruct (negb _); [by eapply close_log_post|by eapply close_post].
  - destruct Hr as (_ & Hb & Hlen & _). rewrite Z.max_r in Hlen by lia.
    set (c1 := c <| cl_input := cl_input c ++ b :: bytes |> <| cl_last_progress_ms := now |>).
    assert (cl_received c1 = cl_received c + Z.of_nat (length (b :: bytes))) as Hrc.
    { unfold cl_received. cbn [cl_input]. cbn. rewrite length_app. cbn. lia. }
    assert (bytes_ok (cl_input c1)) as Hin1 by (apply bytes_ok_app; by split).
    assert (forall h, faultline_header_decode (cl_input c) = inr h ->
      faultline_header_decode (cl_input c1) = inr h) as Hmore.
    { intros h Hh. cbn. rewrite header_decode_more; [done|]. apply header_decode_length in Hh.
      unfold FAULTLINE_HEADER_SIZE in Hh. lia. }
    destruct (Z.ltb_spec (cl_received c1) (cl_expected c1)) as [Hs2|Hs2].
    + intros [= <- <- <-]. split; [by apply handled_io|]. right. right. split; try done.
      * intros _. destruct Hrd as [[He Hlt12]|(h & Hh & Ha & He & Hrange & Hcap)]; [left|right].
        -- split; [done|]. cbn in Hs2. rewrite He in Hs2. done.
        -- exists h. split_and!; try done; [by apply Hmore|]. lia.
      * cbn. by rewrite Hph.
    + intros Hp. apply Hthen.
      assert (handled recs c1 store w1 c' store' world' /\ conn_post c' store') as [H2 Hp2].
      { eapply process_post; [..|exact Hp]; try done.
        - etrans; [done|]. apply Ho.
        - cbn in Hs2. assert (cl_received c1 = cl_expected c) as Heq by lia.
          destruct Hrd as [[He Hlt12]|(h & Hh & Ha & He & Hrange & Hcap)]; [left|right].
          + by rewrite <- He.
          + exists h. split_and!; try done; [by apply Hmore|cbn; lia]. }
      split; [|done]. eapply handled_same; [..|exact H2]; done.
  - destruct (transient e).
    + intros [= <- <- <-]. split; [done|]. by right; right.
    + intros Hc. apply Hthen.
      assert (calm w1 (log_error net WARN "recv" e w1)) as Hcalm by apply (calm_log_error os net).
      apply (close_post recs) in Hc as [H2 Hp]; [|by eapply sound_calm; [|apply Hcalm]|done].
      split; [|done]. by eapply handled_after.
Qed.
Lemma write_post recs c store now world c' store' world' :
  sound recs store world -> conn_live c store -> 0 <= cl_fd c -> good_conn c store ->
  cl_phase c = WRITING_REPLY ->
  write_reply os net c store now world = (c', store', world') ->
  handled recs c store world c' store' world' /\ conn_post c' store'.
Proof.
  intros Hs Hl Hfd Hg Hph. pose proof Hg as [Hin _ Hwr Hrole].
  destruct (Hwr Hph) as (Hsent & Hcap & m & Ht & He & Hack). unfold write_reply.
  destruct (os_send net (cl_fd c) _ world) as [r w1] eqn:Er.
  pose proof (disk_send os net _ _ _ _ _ Er) as Hd. apply (law_send net) in Er as (Ho & Hdesc & _ & Hr).
  assert (forall c1, cl_fd c1 = cl_fd c -> cl_worker_id c1 = cl_worker_id c ->
    handled recs c store world c1 store w1) as H1 by (intros; by apply handled_io).
  pose proof (hd_sound _ _ _ _ _ _ _ (H1 c eq_refl eq_refl)) as Hs1.
  destruct r as [count|e].
  - destruct Hr as [Hcount _]. rewrite length_drop in Hcount.
    destruct (Z.eqb_spec count 0) as [->|Hnz].
    { intros Hc. apply (close_post recs) in Hc as [H2 Hp]; [|done|done]. split; [|done].
      by eapply handled_trans; [apply (H1 c)|..]. }
    set (c1 := c <| cl_sent := cl_sent c + count |> <| cl_last_progress_ms := now |>).
    destruct (Z.eqb_spec (cl_sent c1) (cl_output_size c1)) as [E|E].
    + set (w2 := if cl_reply_type c1 =? FAULTLINE_MSG_PONG then _ else _).
      assert (calm w1 w2) as Hcalm.
      { unfold w2. destruct (_ =? _); [apply calm_client_log|].
        destruct (_ =? _); [apply calm_client_log|done]. }
      intros [= <- <- <-]. split; [|right; right; by apply reset_good].
      eapply (handled_trans recs c store world c); [by apply H1| |done|done|done].
      by apply handled_calm.
    + intros [= <- <- <-]. split; [by apply H1|]. right. right. split; try done.
      * cbn. by rewrite Hph.
      * intros _. unfold cl_output_size in *. cbn in *. split_and!; try lia. by exists m.
  - destruct (transient e).
    + intros [= <- <- <-]. split; [by apply H1|]. by right; right.
    + intros Hc. assert (calm w1 (log_error net WARN "send" e w1)) as Hcalm by apply (calm_log_error os net).
      apply (close_post recs) in Hc as [H2 Hp]; [|by eapply sound_calm; [|apply Hcalm]|done].
      split; [|done]. eapply (handled_trans recs c store world c); [by apply H1| |done|done|done].
      by eapply handled_after.
Qed.

(** A further step on a connection that is still open. *)
Lemma handled_then recs c store world c1 store1 world1 c2 store2 world2 :
  handled recs c store world c1 store1 world1 -> 0 <= cl_fd c -> 0 <= cl_fd c1 ->
  handled recs c1 store1 world1 c2 store2 world2 -> handled recs c store world c2 store2 world2.
Proof.
  intros H1 Hfd Hfd1 H2. destruct (hd_conn _ _ _ _ _ _ _ H1) as [[Heq _]|[Hm _]]; [|lia].
  eapply handled_trans; [done|done|done|done|]. intros Hz.
  destruct (hd_old _ _ _ _ _ _ _ H1 Hz) as [|(? & _)]; [done|lia].
Qed.
End ClientProofs.
