(* ===== verification/Coordinator.v ===== *)
(** The event loop of the coordinator: lines 483-796 of [src/coordinator/main.c].

    The server runs until it is stopped: [run_rounds] makes a given number of rounds and
    returns [None] if the loop is still running then. Every other loop is bounded as in
    the code. The flag of the signal handler is read from the world at each test. *)

From S2P Require Import Prelude Text Job JobQueue WorkerRegistry Protocol Scheduler Wal WalWriter.
From S2P Require Import WalReplay CoordinatorStore CoordinatorStats Net Log Client.

#[export] Instance client_inhabited : Inhabited client :=
  populate (mk_client (-1) READING_MESSAGE 0 false [] 0 [] 0 0 0).

(** [(struct client){.fd = -1}] *)
Definition no_client : client := mk_client (-1) READING_MESSAGE 0 false [] 0 [] 0 0 0.

Definition failed (store : faultline_coordinator_store) : bool :=
  negb (bool_decide (store_failure store = FAULTLINE_STORE_FAILURE_NONE)).

(** ** Time until the next expiry *)

Fixpoint poll_timeout_loop (l : list faultline_worker) (now timeout_ms wait_ms : Z) : Z :=
  match l with
  | [] => wait_ms
  | worker :: l =>
      if bool_decide (w_state worker = FAULTLINE_WORKER_ALIVE) then
        let remaining := timeout_ms - (now - w_last_heartbeat_ms worker) in
        if remaining <=? 0 then 0
        else poll_timeout_loop l now timeout_ms (if remaining <? wait_ms then remaining else wait_ms)
      else poll_timeout_loop l now timeout_ms wait_ms
  end.

Definition heartbeat_poll_timeout (registry : faultline_worker_registry) (now timeout_ms : Z) : Z :=
  poll_timeout_loop (workers registry) now timeout_ms 1000.

Section Coordinator.
Context {W : Type} (os : wal_os W) (net : net_os W).

Abbreviation log := (log net).
Abbreviation log_error := (log_error net).

(** ** New connections *)

(** The first free slot; [MAX_CLIENTS] when there is none. *)
Definition free_slot (clients : list client) : nat := first_index (fun c => cl_fd c <? 0) clients.

Definition new_client (fd now : Z) : client :=
  mk_client fd READING_MESSAGE 0 false [] FAULTLINE_HEADER_SIZE [] 0 0 now.

(** What becomes of one accepted connection. *)
Definition admit_client (fd now : Z) (clients : list client) (world : W) : list client * W :=
  let slot := free_slot clients in
  if (slot =? MAX_CLIENTS)%nat then
    (clients, os_close net fd (log stderr WARN "client_limit_reached" None world))
  else
    match faultline_set_nonblocking net fd world with
    | (OsErr error, world) =>
        (clients, os_close net fd (log_error WARN "nonblocking client" error world))
    | (OsOk _, world) =>
        (<[slot := new_client fd now]> clients,
         log stdout INFO "client_connected" (Some (field "fd" (print_int fd))) world)
    end.

(** [batch] is the number of connections that may still be accepted. *)
Fixpoint accept_clients (batch : nat) (listener now : Z) (clients : list client) (world : W) :
    list client * W :=
  match batch with
  | O => (clients, world)
  | S batch =>
      let '(stopping, world) := os_stopping net world in
      if stopping !=? 0 then (clients, world)
      else
        match os_accept net listener world with
        | (OsErr error, world) =>
            if error =? EINTR then accept_clients batch listener now clients world
            else if (error !=? EAGAIN) && (error !=? EWOULDBLOCK) then
              (clients, log_error WARN "accept" error world)
            else (clients, world)
        | (OsOk fd, world) =>
            let '(clients, world) := admit_client fd now clients world in
            accept_clients batch listener now clients world
        end
  end.

(** ** Scheduling *)

(** The connection of a live worker that is idle and between two messages. *)
Definition ready_for_job (client : client) (store : faultline_coordinator_store)
    (now timeout_ms : Z) : bool :=
  let worker := faultline_worker_find (store_workers store) (cl_worker_id client) in
  negb ((cl_fd client <? 0) ||
        (match worker with
         | None => true
         | Some w => negb (bool_decide (w_state w = FAULTLINE_WORKER_ALIVE)) || (w_fd w !=? cl_fd client)
         end) ||
        faultline_worker_timed_out worker now timeout_ms ||
        negb (bool_decide (cl_phase client = READING_MESSAGE)) || (cl_received client !=? 0) ||
        bool_decide (faultline_scheduler_active (jobs store) (cl_worker_id client) <> None)).

(** The loop over the clients from index [i], [fuel] of them; [false] is [EXIT_FAILURE]. *)
Fixpoint schedule_loop (fuel i : nat) (clients : list client) (store : faultline_coordinator_store)
    (timeout_ms : Z) (world : W) : bool * list client * faultline_coordinator_store * W :=
  match fuel with
  | O => (negb (failed store), clients, store, world)
  | S fuel =>
      if (queue_count (pending (jobs store)) =? 0)%nat then (negb (failed store), clients, store, world)
      else
        let '(stopping, world) := os_stopping net world in
        if (stopping !=? 0) || failed store then (negb (failed store), clients, store, world)
        else
          let '(now, world) := faultline_monotonic_ms net world in
          if now <? 0 then (false, clients, store, log_error ERROR "clock" EINVAL world)
          else
            let client := clients !!! i in
            if negb (ready_for_job client store now timeout_ms) then
              schedule_loop fuel (S i) clients store timeout_ms world
            else
              match faultline_store_assign os store (cl_worker_id client) now world with
              | (FAULTLINE_STORE_OK, assignment, store, world) =>
                  let assignment := default (MsgOther 0) assignment in
                  let world :=
                    log_job net "job_assigned" (found_job store (assigned_job_id assignment)) store 0 world in
                  let '(client, store, world) := queue_message os net client store assignment world in
                  schedule_loop fuel (S i) (<[i := client]> clients) store timeout_ms world
              | (_, _, store, world) =>
                  (false, clients, store, log stderr ERROR "schedule_failed" None world)
              end
  end.

Definition schedule_jobs (clients : list client) (store : faultline_coordinator_store)
    (timeout_ms : Z) (world : W) : bool * list client * faultline_coordinator_store * W :=
  schedule_loop MAX_CLIENTS 0 clients store timeout_ms world.

(** ** One client *)

(** The body of the loop over the clients, for an open connection. *)
Definition serve_client (client : client) (events : Z) (store : faultline_coordinator_store)
    (now timeout_ms : Z) (session : faultline_stats_session) (world : W) :
    Client.client * faultline_coordinator_store * W :=
  let worker := faultline_worker_find (store_workers store) (cl_worker_id client) in
  if faultline_worker_timed_out worker now timeout_ms then
    let silence := now - w_last_heartbeat_ms (default inhabitant worker) in
    let world := log stdout WARN "heartbeat_timeout"
      (Some (fields [field "worker_id" (print_uint (cl_worker_id client));
         field "fd" (print_int (cl_fd client)); field "timeout_ms" (print_int timeout_ms);
         field "detected_at_ms" (print_int now); field "silence_ms" (print_int silence)])) world in
    close_client os net client store "heartbeat_timeout" world
  else if Z.land events POLLNVAL !=? 0 then close_client os net client store "invalid_descriptor" world
  else
    let '(client, store, world) :=
      if bool_decide (cl_phase client = READING_MESSAGE) &&
         (Z.land events (Z.lor POLLIN (Z.lor POLLHUP POLLERR)) !=? 0) then
        read_message os net client store now timeout_ms session world
      else if bool_decide (cl_phase client = WRITING_REPLY) &&
              (Z.land events (Z.lor POLLOUT (Z.lor POLLHUP POLLERR)) !=? 0) then
        write_reply os net client store now world
      else (client, store, world) in
    if (0 <=? cl_fd client) &&
       ((cl_worker_id client =? FAULTLINE_WORKER_ID_UNASSIGNED) ||
        bool_decide (cl_phase client = WRITING_REPLY) || (cl_received client !=? 0)) &&
       (FAULTLINE_IO_TIMEOUT_MS <=? now - cl_last_progress_ms client) then
      let world := log stderr WARN "client_timeout" (Some (field "fd" (print_int (cl_fd client)))) world in
      close_client os net client store "io_timeout" world
    else (client, store, world).

(** The loop from index [i]; [revents] are the events of the clients from [i] on. The result is
    [false] after a clock error, and the last clock value. *)
Fixpoint serve_loop (revents : list Z) (i : nat) (clients : list client)
    (store : faultline_coordinator_store) (now timeout_ms : Z) (session : faultline_stats_session)
    (world : W) : bool * Z * list client * faultline_coordinator_store * W :=
  match revents with
  | [] => (true, now, clients, store, world)
  | events :: revents =>
      let '(stopping, world) := os_stopping net world in
      if (stopping !=? 0) || failed store then (true, now, clients, store, world)
      else
        let '(now, world) := faultline_monotonic_ms net world in
        if now <? 0 then (false, now, clients, store, world)
        else
          let client := clients !!! i in
          if cl_fd client <? 0 then serve_loop revents (S i) clients store now timeout_ms session world
          else
            let '(client, store, world) :=
              serve_client client events store now timeout_ms session world in
            serve_loop revents (S i) (<[i := client]> clients) store now timeout_ms session world
  end.

(** ** One round *)

Inductive round_end := Continue | Break (success : bool).

Definition poll_set (listener : Z) (clients : list client) : list (Z * Z) :=
  (listener, POLLIN) ::
  ((fun c => (cl_fd c, if bool_decide (cl_phase c = READING_MESSAGE) then POLLIN else POLLOUT)) <$> clients).

Definition coordinator_round (listener timeout_ms : Z) (session : faultline_stats_session)
    (clients : list client) (store : faultline_coordinator_store) (world : W) :
    round_end * list client * faultline_coordinator_store * W :=
  let clock_failed world := log_error ERROR "clock" EINVAL world in
  let '(now, world) := faultline_monotonic_ms net world in
  if now <? 0 then (Break false, clients, store, clock_failed world)
  else
    match os_poll net (poll_set listener clients)
            (heartbeat_poll_timeout (store_workers store) now timeout_ms) world with
    | (OsErr error, world) =>
        if error =? EINTR then (Continue, clients, store, world)
        else (Break false, clients, store, log_error ERROR "poll" error world)
    | (OsOk revents, world) =>
        let '(now, world) := faultline_monotonic_ms net world in
        if now <? 0 then (Break false, clients, store, clock_failed world)
        else
          let '(ok, now, clients, store, world) :=
            serve_loop (tail revents) 0 clients store now timeout_ms session world in
          if failed store || negb ok then (Break false, clients, store, world)
          else
            let listening := revents !!! 0%nat in
            if Z.land listening (Z.lor POLLERR (Z.lor POLLHUP POLLNVAL)) !=? 0 then
              (Break false, clients, store,
               log stderr ERROR "listener_unavailable"
                 (Some (text "message=" ++ quote ++ text "listener unavailable" ++ quote)) world)
            else
              let '(clients, world) :=
                if Z.land listening POLLIN !=? 0 then
                  accept_clients MAX_CLIENTS listener now clients world
                else (clients, world) in
              let '(stopping, world) := os_stopping net world in
              if stopping !=? 0 then (Continue, clients, store, world)
              else
                let '(now, world) := faultline_monotonic_ms net world in
                if now <? 0 then (Break false, clients, store, clock_failed world)
                else
                  match schedule_jobs clients store timeout_ms world with
                  | (true, clients, store, world) => (Continue, clients, store, world)
                  | (false, clients, store, world) => (Break false, clients, store, world)
                  end
    end.

(** ** The loop *)

(** [Some success] when the loop has ended. *)
Fixpoint run_rounds (rounds : nat) (listener timeout_ms : Z) (session : faultline_stats_session)
    (clients : list client) (store : faultline_coordinator_store) (world : W) :
    option bool * list client * faultline_coordinator_store * W :=
  match rounds with
  | O => (None, clients, store, world)
  | S rounds =>
      let '(stopping, world) := os_stopping net world in
      if (stopping !=? 0) || failed store then (Some true, clients, store, world)
      else
        match coordinator_round listener timeout_ms session clients store world with
        | (Continue, clients, store, world) =>
            run_rounds rounds listener timeout_ms session clients store world
        | (Break success, clients, store, world) => (Some success, clients, store, world)
        end
  end.

Definition active_attempts (store : faultline_coordinator_store) : Z :=
  Z.of_nat (length (filter (fun job => job_state job = FAULTLINE_JOB_ASSIGNED \/
                                       job_state job = FAULTLINE_JOB_RUNNING) (live (jobs store)))).

Fixpoint close_all (clients : list client) (world : W) : W :=
  match clients with
  | [] => world
  | client :: clients =>
      close_all clients (if 0 <=? cl_fd client then os_close net (cl_fd client) world else world)
  end.

(** The status, or [None] if the loop runs for more than [rounds]. *)
Definition run_coordinator (rounds : nat) (listener timeout_ms : Z)
    (store : faultline_coordinator_store) (world : W) : option Z * faultline_coordinator_store * W :=
  let '(now, world) := faultline_monotonic_ms net world in
  match faultline_stats_begin store now with
  | None => (Some EXIT_FAILURE, store, log stderr ERROR "stats_initialization_failed" None world)
  | Some session =>
      match run_rounds rounds listener timeout_ms session (replicate MAX_CLIENTS no_client) store world with
      | (None, _, store, world) => (None, store, world)
      | (Some success, clients, store, world) =>
          let '(stopping, world) := os_stopping net world in
          let '(stopping', world) := os_stopping net world in
          let world := log stdout INFO "shutdown"
            (Some (fields [field "reason" (if stopping !=? 0 then text "signal" else text "error");
               field "signal" (print_int stopping');
               field "active_attempts" (print_uint (active_attempts store));
               text "policy=reconcile_on_restart"])) world in
          let world := close_all clients world in
          (Some (if negb (failed store) && success then EXIT_SUCCESS else EXIT_FAILURE), store, world)
      end
  end.

(** ** The process *)

Definition failure_code : faultline_store_failure -> Z :=
  enum_code [FAULTLINE_STORE_FAILURE_NONE; FAULTLINE_STORE_FAILURE_OPEN; FAULTLINE_STORE_FAILURE_WAL;
    FAULTLINE_STORE_FAILURE_CLOCK; FAULTLINE_STORE_FAILURE_INTERNAL].

Definition write_code : faultline_wal_writer_result -> Z :=
  enum_code [FAULTLINE_WAL_WRITE_OK; FAULTLINE_WAL_WRITE_INVALID_ARGUMENT;
    FAULTLINE_WAL_WRITE_INVALID_STATE; FAULTLINE_WAL_WRITE_INVALID_RECORD;
    FAULTLINE_WAL_WRITE_SEQUENCE_EXHAUSTED; FAULTLINE_WAL_WRITE_IO_ERROR].

Definition replay_code : faultline_wal_replay_result -> Z :=
  enum_code [FAULTLINE_WAL_REPLAY_OK; FAULTLINE_WAL_REPLAY_INVALID_ARGUMENT;
    FAULTLINE_WAL_REPLAY_INVALID_STATE; FAULTLINE_WAL_REPLAY_IO_ERROR; FAULTLINE_WAL_REPLAY_BAD_FORMAT;
    FAULTLINE_WAL_REPLAY_BAD_HISTORY; FAULTLINE_WAL_REPLAY_CAPACITY; FAULTLINE_WAL_REPLAY_NO_MEMORY].

Definition format_code : faultline_wal_result -> Z :=
  enum_code [FAULTLINE_WAL_OK; FAULTLINE_WAL_INVALID_ARGUMENT; FAULTLINE_WAL_BUFFER_TOO_SMALL;
    FAULTLINE_WAL_INCOMPLETE; FAULTLINE_WAL_BAD_CHECKSUM; FAULTLINE_WAL_BAD_MAGIC;
    FAULTLINE_WAL_UNSUPPORTED_VERSION; FAULTLINE_WAL_INVALID_HEADER; FAULTLINE_WAL_UNKNOWN_RECORD_TYPE;
    FAULTLINE_WAL_INVALID_SEQUENCE; FAULTLINE_WAL_INVALID_PAYLOAD_LENGTH; FAULTLINE_WAL_INVALID_PAYLOAD].

Definition history_code : faultline_wal_history_error -> Z :=
  enum_code [FAULTLINE_WAL_HISTORY_OK; FAULTLINE_WAL_HISTORY_ALLOCATION;
    FAULTLINE_WAL_HISTORY_UNKNOWN_JOB; FAULTLINE_WAL_HISTORY_UNKNOWN_WORKER;
    FAULTLINE_WAL_HISTORY_BUSY_WORKER; FAULTLINE_WAL_HISTORY_FIFO; FAULTLINE_WAL_HISTORY_TIME;
    FAULTLINE_WAL_HISTORY_TRANSITION; FAULTLINE_WAL_HISTORY_SNAPSHOT].

Definition log_storage_error (store : faultline_coordinator_store) (world : W) : W :=
  let report := replay_report store in
  log stderr ERROR "persistence_failed"
    (Some (fields [field "reason" (print_int (failure_code (store_failure store)));
       field "operation" (text (faultline_wal_writer_operation_name (failed_operation (wal store))));
       field "errno" (print_int (system_error (wal store)));
       field "write_code" (print_int (write_code (write_result store)));
       field "replay_code" (print_int (replay_code (replay_result store)));
       field "offset" (print_uint (error_offset report));
       field "format" (print_int (format_code (report_format_error report)));
       field "history" (print_int (history_code (report_history_error report)))])) world.

Definition newline : list Z := [10].

Definition usage : list Z :=
  text "Usage: faultline-coordinator [--port PORT] [--heartbeat-timeout-ms MS] [--wal PATH] [--init-wal]" ++
  newline ++ text "Default: 127.0.0.1:9000; heartbeat timeout: " ++
  print_int FAULTLINE_DEFAULT_HEARTBEAT_TIMEOUT_MS ++ text " ms; WAL: faultline.wal" ++ newline ++
  text "Use --init-wal once to create a NEW log; otherwise an existing log is required." ++ newline ++
  text "PORT must be in 1..65535; MS in 1..INT_MAX (decimal integers)." ++ newline.

Record options := mk_options {
  opt_port : Z;
  opt_heartbeat_timeout_ms : Z;
  opt_wal_path : list Z;
  opt_initialize : bool;
  opt_port_seen : bool;
  opt_timeout_seen : bool;
  opt_wal_seen : bool;
}.

Definition default_options : options :=
  mk_options FAULTLINE_DEFAULT_PORT FAULTLINE_DEFAULT_HEARTBEAT_TIMEOUT_MS (text "faultline.wal")
    false false false false.

(** One iteration of the loop over the arguments: the new options and whether the next argument
    was the value; [None] is the exit with the usage. *)
Definition parse_option (o : options) (name : list Z) (next : option (list Z)) : option (options * bool) :=
  let value := default [] next in
  let has_value := match next with Some _ => true | None => false end in
  match (if has_value && text_eqb name (text "--port") && negb (opt_port_seen o)
         then faultline_parse_port value else None) with
  | Some port =>
      Some (mk_options port (opt_heartbeat_timeout_ms o) (opt_wal_path o) (opt_initialize o) true
              (opt_timeout_seen o) (opt_wal_seen o), true)
  | None =>
  match (if has_value && text_eqb name (text "--heartbeat-timeout-ms") && negb (opt_timeout_seen o)
         then faultline_parse_duration_ms value else None) with
  | Some timeout =>
      Some (mk_options (opt_port o) timeout (opt_wal_path o) (opt_initialize o) (opt_port_seen o) true
              (opt_wal_seen o), true)
  | None =>
      if has_value && text_eqb name (text "--wal") && negb (opt_wal_seen o) &&
         negb (text_eqb value []) then
        Some (mk_options (opt_port o) (opt_heartbeat_timeout_ms o) value (opt_initialize o)
                (opt_port_seen o) (opt_timeout_seen o) true, true)
      else if text_eqb name (text "--init-wal") && negb (opt_initialize o) then
        Some (mk_options (opt_port o) (opt_heartbeat_timeout_ms o) (opt_wal_path o) true
                (opt_port_seen o) (opt_timeout_seen o) (opt_wal_seen o), false)
      else None
  end end.

(** [argv] without the name of the program. *)
Fixpoint parse_options (o : options) (argv : list (list Z)) : option options :=
  match argv with
  | [] => Some o
  | name :: rest =>
      match parse_option o name (head rest) with
      | None => None
      | Some (o, true) => match rest with _ :: rest => parse_options o rest | [] => Some o end
      | Some (o, false) => parse_options o rest
      end
  end.

(** The recovered jobs, in the order of their slots. *)
Fixpoint log_recovered (l : list faultline_job) (store : faultline_coordinator_store) (world : W) : W :=
  match l with
  | [] => world
  | job :: l => log_recovered l store (log_job net "job_recovered" job store 0 world)
  end.

(** From the opened store to the end of the event loop: the status and the listener. *)
Definition serve (rounds : nat) (o : options) (store : faultline_coordinator_store) (world : W) :
    option Z * Z * faultline_coordinator_store * W :=
  let path := default (text "<omitted>") (faultline_log_escape (4 * 4096 + 1) (opt_wal_path o)) in
  let world := log stdout INFO "wal_ready"
    (Some (fields [text "path=" ++ quote ++ path ++ quote;
       field "sequence" (print_uint (synced_sequence (wal store)));
       field "jobs" (print_uint (Z.of_nat (sched_count (jobs store))));
       field "pending" (print_uint (Z.of_nat (queue_count (pending (jobs store)))));
       field "interrupted" (print_uint (Z.of_nat (interrupted_jobs store)));
       field "repaired_bytes" (print_uint (tail_bytes (replay_report store)))])) world in
  let world := log_recovered (live (jobs store)) store world in
  match faultline_listen net FAULTLINE_DEFAULT_HOST (opt_port o) (Z.of_nat MAX_CLIENTS) world with
  | (OsErr error, world) => (Some EXIT_FAILURE, -1, store, log_error ERROR "listen" error world)
  | (OsOk listener, world) =>
      let world := log stdout INFO "listening"
        (Some (fields [field "address" FAULTLINE_DEFAULT_HOST; field "port" (print_uint (opt_port o));
           field "heartbeat_timeout_ms" (print_int (opt_heartbeat_timeout_ms o))])) world in
      let '(status, store, world) :=
        run_coordinator rounds listener (opt_heartbeat_timeout_ms o) store world in
      (status, listener, store, if failed store then log_storage_error store world else world)
  end.

(** The installation of the signal handlers. *)
Definition configure_signals (world : W) : os_result unit * W :=
  match os_sigaction net SIGINT REQUEST_STOP world with
  | (OsErr error, world) => (OsErr error, world)
  | (OsOk _, world) =>
      match os_sigaction net SIGTERM REQUEST_STOP world with
      | (OsErr error, world) => (OsErr error, world)
      | (OsOk _, world) => faultline_ignore_sigpipe net world
      end
  end.

(** The opening of the store, and the service unless a signal has come. *)
Definition open_and_serve (rounds : nat) (o : options) (world : W) :
    option Z * Z * faultline_coordinator_store * W :=
  let '(now, world) := faultline_monotonic_ms net world in
  match faultline_store_open_with_io os faultline_store_init (opt_wal_path o)
          (if opt_initialize o then 1 else 0) now world with
  | (FAULTLINE_STORE_OK, store, world) =>
      let '(stopping, world) := os_stopping net world in
      if stopping !=? 0 then (Some EXIT_SUCCESS, -1, store, world)
      else serve rounds o store world
  | (_, store, world) => (Some EXIT_FAILURE, -1, store, log_storage_error store world)
  end.

(** The end of the process. *)
Definition close_process (status listener : Z) (store : faultline_coordinator_store) (world : W) : Z * W :=
  let world := if 0 <=? listener then os_close net listener world else world in
  let previous_failure := failed store in
  let '(closing, store, world) := faultline_store_close os store world in
  let '(status, world) :=
    if bool_decide (closing = FAULTLINE_STORE_OK) then (status, world)
    else (EXIT_FAILURE, if previous_failure then world else log_storage_error store world) in
  let '(signal, world) := os_stopping net world in
  (status,
   log stdout (if status =? EXIT_SUCCESS then INFO else ERROR) "stopped"
     (Some (fields [field "exit_code" (print_int status); field "signal" (print_int signal)])) world).

(** The part of [main] after the store has been allocated. *)
Definition run_process (rounds : nat) (o : options) (world : W) : option Z * W :=
  match open_and_serve rounds o world with
  | (None, _, _, world) => (None, world)
  | (Some status, listener, store, world) =>
      let '(status, world) := close_process status listener store world in (Some status, world)
  end.

(** The exit status, [None] while the server is still running after [rounds]. *)
Definition main (rounds : nat) (argv : list (list Z)) (world : W) : option Z * W :=
  if bool_decide (argv = [text "--help"]) then
    (Some EXIT_SUCCESS, snd (os_print net stdout usage world))
  else
    match parse_options default_options argv with
    | None => (Some EXIT_FAILURE, snd (os_print net stderr usage world))
    | Some o =>
        match configure_signals world with
        | (OsErr error, world) => (Some EXIT_FAILURE, log_error ERROR "configure signals" error world)
        | (OsOk _, world) =>
            match os_alloc os world with
            | (false, world) =>
                (Some EXIT_FAILURE, log_error ERROR "allocate durable store" ENOMEM world)
            | (true, world) => run_process rounds o world
            end
        end
    end.

End Coordinator.
