(* ===== verification/CoordinatorProofs.v ===== *)
(** The invariant of the event loop, and what follows from it.

    [loop_inv] relates the table of connections, the store and the descriptors of the process:
    connections are distinct and within their buffers, the live workers of the registry are exactly
    the connections of workers, and every job in progress belongs to one of them. Every part of a round
    keeps it. *)

From S2P Require Import Prelude Text Job JobQueue WorkerRegistry Protocol ProtocolProofs Scheduler SchedulerProofs Wal.
From S2P Require Import WalWriter Disk WriterProofs WalReplay ReplayProofs CoordinatorStore StoreProofs Durability StoreRecovery.
From S2P Require Import CoordinatorStats StatsProofs Net NetLaws Log Machine StoreSteps Framing Client ReplyProofs ClientProofs Coordinator.

Section CoordinatorProofs.
Context {W : Type} (os : wal_os W) (net : net_os W).
Context {FIN : OsFinite os} {DISK : Disk os} {NET : Net net} {MACHINE : Machine os net}.

Abbreviation view_of world := (net_state net world).
Abbreviation calm := (calm os net).
Abbreviation sound := (sound os).
Abbreviation handled := (handled os net).

Record loop_inv (recs : list faultline_wal_record) (clients : list client)
    (store : faultline_coordinator_store) (world : W) : Prop := {
  li_sound : sound recs store world;
  li_length : length clients = MAX_CLIENTS;
  li_conn i c : clients !! i = Some c -> 0 <= cl_fd c -> store_failed store \/ good_conn c store;
  li_closed i c : clients !! i = Some c -> cl_fd c < 0 -> cl_worker_id c = 0;
  li_fds i c : clients !! i = Some c -> 0 <= cl_fd c -> cl_fd c ∈ descriptors (view_of world);
  li_distinct i k c d : clients !! i = Some c -> clients !! k = Some d -> 0 <= cl_fd c ->
    cl_fd c = cl_fd d -> i = k;
  li_live i c : clients !! i = Some c -> conn_live c store;
  li_workers id fd : live_at (store_workers store) id = Some fd ->
    exists i c, clients !! i = Some c /\ cl_worker_id c = id;
  li_busy : store_failed store \/
    forall w, busy (jobs store) w -> live_at (store_workers store) w <> None;
  li_beats : beats store (clock (view_of world));
}.

Lemma good_conn_found c store store' :
  good_conn c store ->
  (forall id, faultline_scheduler_find (jobs store) id <> None ->
    faultline_scheduler_find (jobs store') id <> None) -> good_conn c store'.
Proof.
  intros [Hin Hrd Hwr Hrole] Hf. split; try done. intros Hph.
  destruct (Hwr Hph) as (? & ? & m & ? & ? & Hack). split; [done|]. split; [done|]. exists m.
  split; [done|]. split; [done|]. auto.
Qed.

(** One connection is served. *)
Lemma loop_inv_step recs clients store world i c c' store' world' :
  loop_inv recs clients store world -> clients !! i = Some c -> 0 <= cl_fd c ->
  handled recs c store world c' store' world' -> conn_post c' store' ->
  loop_inv recs (<[i := c']> clients) store' world'.
Proof.
  intros Hinv Hc Hfd H Hp. pose proof (lookup_lt_Some _ _ _ Hc) as Hi.
  assert (forall k d, <[i := c']> clients !! k = Some d ->
    k = i /\ d = c' \/ k <> i /\ clients !! k = Some d /\ (0 <= cl_fd d -> cl_fd d <> cl_fd c)) as Hcases.
  { intros k d Hd. destruct (decide (k = i)) as [->|Hne].
    - rewrite list_lookup_insert_eq in Hd by done. left. split; congruence.
    - rewrite list_lookup_insert_ne in Hd by done. right. split_and!; [done|done|].
      intros Hdf Heq. destruct Hne. symmetry. by eapply (li_distinct _ _ _ _ Hinv). }
  assert (forall d k, k <> i -> clients !! k = Some d -> cl_worker_id d <> 0 ->
    cl_worker_id d <> cl_worker_id c /\ cl_worker_id d <> cl_worker_id c') as Hids.
  { intros d k Hne Hd Hz. pose proof (li_live _ _ _ _ Hinv k d Hd Hz) as Hl.
    assert (cl_worker_id d <> cl_worker_id c) as Hne1.
    { intros Heq. pose proof (li_live _ _ _ _ Hinv i c Hc) as Hlc. unfold conn_live in Hlc.
      rewrite <- Heq, Hl in Hlc. specialize (Hlc Hz). injection Hlc as Hlc. destruct Hne. symmetry.
      by eapply (li_distinct _ _ _ _ Hinv). }
    split; [done|]. intros Heq. destruct (decide (cl_worker_id c = 0)) as [Hz0|Hz0].
    - assert (live_at (store_workers store) (cl_worker_id c') = None) as Hnew
        by (apply (hd_new _ _ _ _ _ _ _ _ _ H); congruence). congruence.
    - destruct (hd_old _ _ _ _ _ _ _ _ _ H Hz0) as [?|(_ & ? & _)]; congruence. }
  split.
  - apply H.
  - rewrite length_insert. apply Hinv.
  - intros k d Hd Hdf. destruct (Hcases k d Hd) as [[-> ->]|(Hne & Hold & _)].
    + destruct Hp as [?|[?|?]]; [lia|by left|by right].
    + destruct (li_conn _ _ _ _ Hinv k d Hold Hdf) as [Hf|Hg].
      * left. by apply (hd_failed _ _ _ _ _ _ _ _ _ H).
      * right. eapply good_conn_found; [done|]. apply H.
  - intros k d Hd Hdf. destruct (Hcases k d Hd) as [[-> ->]|(Hne & Hold & _)].
    + destruct (hd_conn _ _ _ _ _ _ _ _ _ H) as [[? _]|[_ ?]]; [lia|done].
    + by apply (li_closed _ _ _ _ Hinv k d).
  - intros k d Hd Hdf. destruct (Hcases k d Hd) as [[-> ->]|(Hne & Hold & Hdc)].
    + destruct (hd_conn _ _ _ _ _ _ _ _ _ H) as [[-> Hin]|[? _]]; [|lia].
      apply Hin. by apply (li_fds _ _ _ _ Hinv i c).
    + apply (others_descriptors _ _ _ (hd_others _ _ _ _ _ _ _ _ _ H)); [auto|].
      by apply (li_fds _ _ _ _ Hinv k d).
  - intros k l d e Hd He Hdf Heq.
    destruct (hd_conn _ _ _ _ _ _ _ _ _ H) as [[Hc' _]|[Hc' _]];
      destruct (Hcases k d Hd) as [[-> ->]|(Hne & Hold & Hdc)];
      destruct (Hcases l e He) as [[-> ->]|(Hne' & Hold' & Hec)]; try done; try lia;
      try (by eapply (li_distinct _ _ _ _ Hinv)); exfalso; (apply Hec; lia) || (apply Hdc; lia).
  - intros k d Hd. destruct (Hcases k d Hd) as [[-> ->]|(Hne & Hold & _)]; [apply H|].
    intros Hz. destruct (Hids d k Hne Hold Hz) as [H1 H2].
    rewrite (hd_live _ _ _ _ _ _ _ _ _ H) by done. by apply (li_live _ _ _ _ Hinv k d).
  - intros id fd Hl. destruct (decide (id = cl_worker_id c')) as [->|Hne].
    { exists i, c'. by rewrite list_lookup_insert_eq. }
    destruct (decide (id = cl_worker_id c)) as [->|Hne'].
    { destruct (decide (cl_worker_id c = 0)) as [Hz|Hz]; [by rewrite Hz in Hl|].
      destruct (hd_old _ _ _ _ _ _ _ _ _ H Hz) as [|(_ & _ & ?)]; congruence. }
    rewrite (hd_live _ _ _ _ _ _ _ _ _ H) in Hl by done.
    destruct (li_workers _ _ _ _ Hinv id fd Hl) as (k & d & Hd & Hdid). exists k, d.
    rewrite list_lookup_insert_ne; [done|]. intros ->. congruence.
  - destruct (hd_busy _ _ _ _ _ _ _ _ _ H) as [Hf|Hb]; [by left|].
    destruct (li_busy _ _ _ _ Hinv) as [Hf|Hold]; [left; by apply (hd_failed _ _ _ _ _ _ _ _ _ H)|right].
    intros w Hw. destruct (Hb w Hw) as [Hbw Hwc].
    assert (w <> 0) as Hwz by (by apply busy_spec in Hw as [? _]).
    destruct (decide (w = cl_worker_id c')) as [->|Hne].
    { by rewrite (hd_own _ _ _ _ _ _ _ _ _ H Hwz). }
    destruct Hbw as [Hbw|?]; [|done].
    rewrite (hd_live _ _ _ _ _ _ _ _ _ H); [auto| |done]. intros ->. destruct Hne. symmetry. auto.
  - apply H, Hinv.
Qed.

Lemma loop_inv_calm recs clients store world world' :
  loop_inv recs clients store world -> calm world world' -> loop_inv recs clients store world'.
Proof.
  intros [] [Hd Hn]. split; try done.
  - by eapply sound_calm.
  - rewrite (same_descriptors _ _ Hn). done.
  - eapply beats_later; [done|]. apply Hn.
Qed.

(** ** Serving *)

Lemma serve_client_post recs c events store now timeout session world c' store' world' :
  sound recs store world -> conn_live c store -> 0 <= cl_fd c -> good_conn c store ->
  now <= clock (view_of world) -> session_typed session ->
  serve_client os net c events store now timeout session world = (c', store', world') ->
  handled recs c store world c' store' world' /\ conn_post c' store'.
Proof.
  intros Hs Hl Hfd Hg Hnow Hse. unfold serve_client.
  destruct (faultline_worker_timed_out _ _ _); [by apply (close_log_post os net)|].
  destruct (negb (Z.land events POLLNVAL =? 0)); [by apply (close_post os net)|].
  destruct (if bool_decide (cl_phase c = READING_MESSAGE) && _ then _ else _) as [[c1 s1] w1] eqn:E.
  assert (handled recs c store world c1 s1 w1 /\ conn_post c1 s1) as [H1 Hp1].
  { revert E. destruct (bool_decide (cl_phase c = READING_MESSAGE) && _) eqn:Er.
    - apply andb_prop in Er as [Er _]. apply bool_decide_eq_true in Er. by apply read_post.
    - destruct (bool_decide (cl_phase c = WRITING_REPLY) && _) eqn:Ew.
      + apply andb_prop in Ew as [Ew _]. apply bool_decide_eq_true in Ew. by apply write_post.
      + intros [= <- <- <-]. split; [by apply handled_calm|by right; right]. }
  destruct ((0 <=? cl_fd c1) && _ && _) eqn:Et.
  - apply andb_prop in Et as [Et _]. apply andb_prop in Et as [Et _]. apply Z.leb_le in Et. intros Hc.
    apply (close_log_post os net recs) in Hc as [H2 Hp2]; [|apply H1|apply H1|done].
    split; [|done]. by eapply handled_then.
  - by intros [= <- <- <-].
Qed.

Lemma failed_spec store : failed store = true <-> store_failed store.
Proof. unfold failed, store_failed. by case_bool_decide. Qed.

Lemma lookup_open (clients : list client) i : 0 <= cl_fd (clients !!! i) -> clients !! i = Some (clients !!! i).
Proof.
  intros H. destruct (clients !! i) as [c|] eqn:E; [by rewrite (list_lookup_total_correct _ _ _ E)|].
  rewrite list_lookup_total_alt, E in H. cbn in H. lia.
Qed.

Lemma serve_loop_inv recs revents i clients store now timeout session world ok now' clients' store' world' :
  loop_inv recs clients store world -> session_typed session ->
  serve_loop os net revents i clients store now timeout session world = (ok, now', clients', store', world') ->
  loop_inv recs clients' store' world'.
Proof.
  intros Hinv Hse. revert i clients store now world Hinv.
  induction revents as [|events revents IH]; intros i clients store now world Hinv; cbn [serve_loop];
    [by intros [= _ _ <- <- <-]|].
  destruct (os_stopping net world) as [stopping w1] eqn:Es. apply (calm_stopping os net) in Es.
  pose proof (loop_inv_calm _ _ _ _ _ Hinv Es) as Hinv1.
  destruct (_ || failed store) eqn:Eg; [by intros [= _ _ <- <- <-]|].
  apply orb_false_iff in Eg as [_ Hnf].
  destruct (faultline_monotonic_ms net w1) as [t w2] eqn:Em. pose proof (clock_read net _ _ _ Em) as Hclock.
  apply (calm_monotonic os net) in Em. pose proof (loop_inv_calm _ _ _ _ _ Hinv1 Em) as Hinv2.
  destruct (Z.ltb_spec t 0) as [|Ht]; [by intros [= _ _ <- <- <-]|].
  destruct (Z.ltb_spec (cl_fd (clients !!! i)) 0) as [|Hfd]; [by apply IH|].
  pose proof (lookup_open clients i Hfd) as Hc.
  destruct (serve_client os net _ _ _ _ _ _ _) as [[c' s'] w'] eqn:E.
  assert (good_conn (clients !!! i) store) as Hg.
  { destruct (li_conn _ _ _ _ Hinv2 i _ Hc Hfd) as [Hf|Hg]; [|done]. apply failed_spec in Hf. congruence. }
  apply (serve_client_post recs) in E as [H Hp];
    [|apply Hinv2|by eapply (li_live _ _ _ _ Hinv2)|done|done|by apply Hclock|done].
  apply IH. by eapply loop_inv_step.
Qed.

(** ** Accepting *)

Lemma new_client_good fd now store : good_conn (new_client fd now) store.
Proof. split; [constructor|by left|done|done]. Qed.

Lemma set_nonblocking_calm fd world r world' :
  faultline_set_nonblocking net fd world = (r, world') -> calm world world'.
Proof.
  unfold faultline_set_nonblocking. destruct (os_getfl net fd world) as [r1 w1] eqn:E1.
  assert (calm world w1) as H1.
  { split; [by eapply (disk_getfl os net)|by eapply (law_getfl net)]. }
  destruct r1 as [flags|e]; [|by intros [= <- <-]]. intros E2. etrans; [done|].
  split; [by eapply (disk_setfl os net)|by eapply (law_setfl net)].
Qed.

(** A descriptor that no connection uses appears, or goes again. *)
Lemma loop_inv_others recs clients store world world' fd :
  loop_inv recs clients store world -> same_disk os world world' ->
  same_others fd (view_of world) (view_of world') ->
  (forall i c, clients !! i = Some c -> 0 <= cl_fd c -> cl_fd c <> fd) ->
  loop_inv recs clients store world'.
Proof.
  intros [] Hd Ho Hfd. split; try done.
  - by eapply sound_calm.
  - intros i c Hc Hpos. apply (others_descriptors _ _ _ Ho); eauto.
  - eapply beats_later; [done|]. apply Ho.
Qed.

Lemma loop_inv_insert recs clients store world slot old fd now :
  loop_inv recs clients store world -> clients !! slot = Some old -> cl_fd old < 0 ->
  0 <= fd -> fd ∈ descriptors (view_of world) ->
  (forall i c, clients !! i = Some c -> 0 <= cl_fd c -> cl_fd c <> fd) ->
  loop_inv recs (<[slot := new_client fd now]> clients) store world.
Proof.
  intros Hinv Hold Hneg Hfd Hin Hnew. pose proof (lookup_lt_Some _ _ _ Hold) as Hlt.
  assert (forall k d, <[slot := new_client fd now]> clients !! k = Some d ->
    k = slot /\ d = new_client fd now \/ k <> slot /\ clients !! k = Some d) as Hcases.
  { intros k d Hd. destruct (decide (k = slot)) as [->|Hne].
    - rewrite list_lookup_insert_eq in Hd by done. left. split; congruence.
    - rewrite list_lookup_insert_ne in Hd by done. by right. }
  destruct Hinv. split; try done.
  - by rewrite length_insert.
  - intros k d Hd Hpos. destruct (Hcases k d Hd) as [[-> ->]|[_ Hk]]; [right; apply new_client_good|eauto].
  - intros k d Hd Hpos. destruct (Hcases k d Hd) as [[-> ->]|[_ Hk]]; [cbn in Hpos; lia|eauto].
  - intros k d Hd Hpos. destruct (Hcases k d Hd) as [[-> ->]|[_ Hk]]; [done|eauto].
  - intros k l d e Hd He Hpos Heq. destruct (Hcases k d Hd) as [[-> ->]|[Hn Hk]],
      (Hcases l e He) as [[-> ->]|[Hn' Hl]]; cbn in *; try done.
    + by destruct (Hnew l e Hl); [lia|].
    + by destruct (Hnew k d Hk).
    + eauto.
  - intros k d Hd. destruct (Hcases k d Hd) as [[-> ->]|[_ Hk]]; [by intros Hz|eauto].
  - intros id f Hl. destruct (li_workers0 id f Hl) as (k & d & Hd & Hdid). exists k, d.
    rewrite list_lookup_insert_ne; [done|]. intros <-. assert (d = old) as -> by congruence.
    rewrite (li_closed0 slot old Hold Hneg) in Hdid. subst id. by rewrite live_at_0 in Hl.
Qed.

Lemma admit_inv recs fd now clients store world clients' world' :
  loop_inv recs clients store world -> 0 <= fd -> fd ∈ descriptors (view_of world) ->
  (forall i c, clients !! i = Some c -> 0 <= cl_fd c -> cl_fd c <> fd) ->
  admit_client net fd now clients world = (clients', world') -> loop_inv recs clients' store world'.
Proof.
  intros Hinv Hfd Hin Hnew. unfold admit_client.
  assert (forall w1, calm world w1 -> loop_inv recs clients store (os_close net fd w1)) as Hclose.
  { intros w1 Hc. destruct (NetLaws.law_close net fd w1) as [Ho _].
    eapply loop_inv_others; [by eapply loop_inv_calm|apply (disk_close os net)|done|done]. }
  destruct (Nat.eqb_spec (free_slot clients) MAX_CLIENTS) as [|Hslot].
  { intros [= <- <-]. apply Hclose, calm_client_log, _. }
  destruct (faultline_set_nonblocking net fd world) as [[u|e] w1] eqn:En; apply set_nonblocking_calm in En.
  2:{ intros [= <- <-]. apply Hclose. etrans; [done|]. apply (calm_log_error os net). }
  intros [= <- <-].
  destruct (lookup_lt_is_Some_2 clients (free_slot clients)) as [old Hold].
  { pose proof (first_index_le (fun c => cl_fd c <? 0) clients). unfold free_slot in *.
    rewrite (li_length _ _ _ _ Hinv) in *. lia. }
  eapply loop_inv_calm; [|apply (calm_client_log os net)].
  eapply loop_inv_insert; [by eapply loop_inv_calm|done| |done| |done].
  - apply Z.ltb_lt. by eapply (first_index_lookup (fun c => cl_fd c <? 0)).
  - by rewrite (same_descriptors _ _ (proj2 En)).
Qed.

Lemma accept_inv recs batch listener now clients store world clients' world' :
  loop_inv recs clients store world ->
  accept_clients net batch listener now clients world = (clients', world') ->
  loop_inv recs clients' store world'.
Proof.
  revert clients world. induction batch as [|batch IH]; intros clients world Hinv; cbn [accept_clients];
    [by intros [= <- <-]|].
  destruct (os_stopping net world) as [stopping w1] eqn:Es. apply (calm_stopping os net) in Es.
  pose proof (loop_inv_calm _ _ _ _ _ Hinv Es) as Hinv1.
  destruct (negb _); [by intros [= <- <-]|].
  destruct (os_accept net listener w1) as [[fd|e] w2] eqn:Ea;
    pose proof (disk_accept os net _ _ _ _ Ea) as Hd; apply (law_accept net) in Ea.
  - destruct Ea as (Hfd & Hnew & Ho & Hin & _).
    assert (forall i c, clients !! i = Some c -> 0 <= cl_fd c -> cl_fd c <> fd) as Hfresh.
    { intros i c Hc Hpos Heq. apply Hnew. rewrite <- Heq. by apply (li_fds _ _ _ _ Hinv1 i c). }
    destruct (admit_client net fd now clients w2) as [cl3 w3] eqn:E.
    intros H. eapply IH; [|exact H]. eapply admit_inv; [|done|done|done|exact E].
    by eapply loop_inv_others.
  - assert (loop_inv recs clients store w2) as Hinv2 by (by eapply loop_inv_calm).
    destruct (e =? EINTR); [by apply IH|]. destruct (_ && _); intros [= <- <-]; [|done].
    eapply loop_inv_calm; [done|]. apply (calm_log_error os net).
Qed.
(** ** Scheduling *)

Lemma ready_spec c store now timeout :
  ready_for_job c store now timeout = true ->
  0 <= cl_fd c /\ live_at (store_workers store) (cl_worker_id c) = Some (cl_fd c) /\
  cl_phase c = READING_MESSAGE /\ cl_received c = 0 /\ ~ busy (jobs store) (cl_worker_id c) /\
  faultline_worker_timed_out (faultline_worker_find (store_workers store) (cl_worker_id c)) now timeout = false.
Proof.
  unfold ready_for_job. intros H. apply negb_true_iff in H.
  repeat (apply orb_false_iff in H as [H ?]). split_and!.
  - by apply Z.ltb_ge in H.
  - unfold live_at. destruct (faultline_worker_find _ _) as [w|]; [|done].
    match goal with H : negb _ || negb _ = false |- _ => apply orb_false_iff in H as [Hal Hf] end.
    apply negb_false_iff in Hal, Hf. apply Z.eqb_eq in Hf. by rewrite Hal, Hf.
  - match goal with H : negb (bool_decide _) = false |- _ => apply negb_false_iff, bool_decide_eq_true in H end.
    done.
  - match goal with H : negb (cl_received c =? 0) = false |- _ => apply negb_false_iff, Z.eqb_eq in H end. done.
  - match goal with H : bool_decide (_ <> None) = false |- _ => apply bool_decide_eq_false in H end. done.
  - done.
Qed.

(** The job is assigned on the log, and its message queued. *)
Lemma assign_post recs c store now world out store1 w1 w2 c' store' world' :
  sound recs store world -> conn_live c store -> good_conn c store -> 0 <= cl_fd c ->
  cl_worker_id c <> 0 ->
  faultline_store_assign os store (cl_worker_id c) now world = (FAULTLINE_STORE_OK, out, store1, w1) ->
  calm w1 w2 ->
  queue_message os net c store1 (default (MsgOther 0) out) w2 = (c', store', world') ->
  handled recs c store world c' store' world' /\ conn_post c' store'.
Proof.
  intros Hs Hl Hg Hfd Hz Ha Hc Hq.
  apply (assign_step os net recs) in Ha as (Hstep & Hw & Hb & Hf & _ & j & -> & Hj); [|done].
  assert (handled recs c store world c store1 w1) as H1 by (apply handled_step; auto).
  apply active_some in Hj as (_ & Hact & Hjw & slot & Hslot).
  destruct (live_jobs _ _ _ (sound_sched _ _ _ _ (step_sound _ _ _ _ _ _ _ Hstep)) Hslot) as (_ & _ & Hwf).
  destruct (assignment_sendable j (cl_worker_id c) Hwf Hact Hjw) as [Ht _].
  cbn [default] in Hq. apply (queue_post os net recs) in Hq as [H2 Hp].
  - split; [|done]. eapply (handled_trans os net recs c store world c); [done| |done|done|done].
    eapply handled_after; [apply Hstep|apply H1|done|done|done].
  - eapply sound_calm; [apply Hstep|apply Hc].
  - apply H1.
  - done.
  - apply Hg.
  - apply Hg.
  - exact Ht.
  - done.
Qed.

(** A store operation that ends the pass. *)
Lemma assign_refused recs clients i store now world res out store1 w1 :
  loop_inv recs clients store world -> 0 <= cl_fd (clients !!! i) -> good_conn (clients !!! i) store ->
  faultline_store_assign os store (cl_worker_id (clients !!! i)) now world = (res, out, store1, w1) ->
  res <> FAULTLINE_STORE_OK -> loop_inv recs clients store1 w1.
Proof.
  intros Hinv Hfd Hg Ha Hres. pose proof (lookup_open clients i Hfd) as Hc.
  apply (assign_step os net recs) in Ha as (Hstep & Hw & Hb & Hr); [|apply Hinv].
  rewrite <- (list_insert_id clients i _ Hc). eapply loop_inv_step; [done|done|done| |].
  - apply handled_step; try done; [by eapply (li_live _ _ _ _ Hinv)|by right].
  - destruct res; [done| | |by right; left]; right; right; destruct Hr as [Hj _];
      (eapply good_conn_found; [done|]; by rewrite Hj).
Qed.

Lemma schedule_inv recs fuel i clients store timeout world ok clients' store' world' :
  loop_inv recs clients store world ->
  schedule_loop os net fuel i clients store timeout world = (ok, clients', store', world') ->
  loop_inv recs clients' store' world'.
Proof.
  revert i clients store world. induction fuel as [|fuel IH]; intros i clients store world Hinv;
    cbn [schedule_loop]; [by intros [= _ <- <- <-]|].
  destruct (_ =? 0)%nat; [by intros [= _ <- <- <-]|].
  destruct (os_stopping net world) as [stopping w1] eqn:Es. apply (calm_stopping os net) in Es.
  pose proof (loop_inv_calm _ _ _ _ _ Hinv Es) as Hinv1.
  destruct (_ || failed store) eqn:Eg; [by intros [= _ <- <- <-]|]. apply orb_false_iff in Eg as [_ Hnf].
  destruct (faultline_monotonic_ms net w1) as [now w2] eqn:Em. apply (calm_monotonic os net) in Em.
  pose proof (loop_inv_calm _ _ _ _ _ Hinv1 Em) as Hinv2.
  destruct (now <? 0).
  { intros [= _ <- <- <-]. eapply loop_inv_calm; [done|]. apply (calm_log_error os net). }
  destruct (ready_for_job (clients !!! i) store now timeout) eqn:Er; cbn [negb]; [|by apply IH].
  apply ready_spec in Er as (Hfd & Hlive & _). pose proof (lookup_open clients i Hfd) as Hc.
  assert (good_conn (clients !!! i) store) as Hg.
  { destruct (li_conn _ _ _ _ Hinv2 i _ Hc Hfd) as [Hf|Hg]; [|done]. apply failed_spec in Hf. congruence. }
  assert (cl_worker_id (clients !!! i) <> 0) as Hz.
  { destruct (live_at_fd _ _ _ (sound_registry _ _ _ _ (li_sound _ _ _ _ Hinv)) Hlive). done. }
  destruct (faultline_store_assign os store _ now w2) as [[[res out] s3] w3] eqn:Ea.
  destruct res; [|intros [= _ <- <- <-]; eapply loop_inv_calm; [|apply (calm_client_log os net)];
    by eapply assign_refused..].
  destruct (queue_message os net _ s3 _ _) as [[c' s4] w4] eqn:Eq.
  apply (assign_post recs _ store now w2 out s3 w3) in Eq as [H Hp];
    [|apply Hinv2|by eapply (li_live _ _ _ _ Hinv2)|done|done|done|done|apply (calm_log_job os net)].
  apply IH. by eapply loop_inv_step.
Qed.

Lemma schedule_jobs_inv recs clients store timeout world ok clients' store' world' :
  loop_inv recs clients store world ->
  schedule_jobs os net clients store timeout world = (ok, clients', store', world') ->
  loop_inv recs clients' store' world'.
Proof. unfold schedule_jobs. apply schedule_inv. Qed.

(** ** Rounds *)

Lemma round_inv recs listener timeout session clients store world e clients' store' world' :
  loop_inv recs clients store world -> session_typed session ->
  coordinator_round os net listener timeout session clients store world = (e, clients', store', world') ->
  loop_inv recs clients' store' world'.
Proof.
  intros Hinv Hse. unfold coordinator_round.
  assert (forall clients store world op err, loop_inv recs clients store world ->
    loop_inv recs clients store (log_error net ERROR op err world)) as Herr.
  { intros. eapply loop_inv_calm; [done|]. apply (calm_log_error os net). }
  destruct (faultline_monotonic_ms net world) as [now w1] eqn:Em. apply (calm_monotonic os net) in Em.
  pose proof (loop_inv_calm _ _ _ _ _ Hinv Em) as Hinv1.
  destruct (now <? 0); [intros [= _ <- <- <-]; by apply Herr|].
  destruct (os_poll net _ _ w1) as [[revents|err] w2] eqn:Ep;
    assert (calm w1 w2) as Hc2 by (split; [by eapply (disk_poll os net)|by apply (law_poll net) in Ep as [? _]]);
    pose proof (loop_inv_calm _ _ _ _ _ Hinv1 Hc2) as Hinv2.
  2:{ destruct (err =? EINTR); intros [= _ <- <- <-]; [done|by apply Herr]. }
  destruct (faultline_monotonic_ms net w2) as [t w3] eqn:Em3. apply (calm_monotonic os net) in Em3.
  pose proof (loop_inv_calm _ _ _ _ _ Hinv2 Em3) as Hinv3.
  destruct (t <? 0); [intros [= _ <- <- <-]; by apply Herr|].
  destruct (serve_loop os net _ _ _ _ _ _ _ _) as [[[[ok t4] cl4] s4] w4] eqn:Esv.
  apply (serve_loop_inv recs) in Esv; [|done|done].
  destruct (_ || _); [by intros [= _ <- <- <-]|].
  destruct (negb _); [intros [= _ <- <- <-]; eapply loop_inv_calm; [done|]; apply (calm_client_log os net)|].
  match goal with |- context [if ?b then accept_clients _ _ _ _ _ _ else _] =>
    destruct (if b then accept_clients net MAX_CLIENTS listener t4 cl4 w4 else (cl4, w4)) as [cl5 w5] eqn:Eac end.
  assert (loop_inv recs cl5 s4 w5) as Hinv5.
  { destruct (negb _); [by eapply accept_inv|by injection Eac as <- <-]. }
  clear Eac.
  destruct (os_stopping net w5) as [stopping w6] eqn:Es. apply (calm_stopping os net) in Es.
  pose proof (loop_inv_calm _ _ _ _ _ Hinv5 Es) as Hinv6.
  destruct (negb _); [by intros [= _ <- <- <-]|].
  destruct (faultline_monotonic_ms net w6) as [t7 w7] eqn:Em7. apply (calm_monotonic os net) in Em7.
  pose proof (loop_inv_calm _ _ _ _ _ Hinv6 Em7) as Hinv7.
  destruct (t7 <? 0); [intros [= _ <- <- <-]; by apply Herr|].
  destruct (schedule_jobs os net cl5 s4 timeout w7) as [[[ok8 cl8] s8] w8] eqn:Esch.
  apply (schedule_jobs_inv recs) in Esch; [|done]. destruct ok8; by intros [= _ <- <- <-].
Qed.

Lemma rounds_inv recs rounds listener timeout session clients store world e clients' store' world' :
  loop_inv recs clients store world -> session_typed session ->
  run_rounds os net rounds listener timeout session clients store world = (e, clients', store', world') ->
  loop_inv recs clients' store' world'.
Proof.
  intros Hinv Hse. revert clients store world Hinv. induction rounds as [|rounds IH];
    intros clients store world Hinv; cbn [run_rounds]; [by intros [= _ <- <- <-]|].
  destruct (os_stopping net world) as [stopping w1] eqn:Es. apply (calm_stopping os net) in Es.
  pose proof (loop_inv_calm _ _ _ _ _ Hinv Es) as Hinv1.
  destruct (_ || _); [by intros [= _ <- <- <-]|].
  destruct (coordinator_round os net _ _ _ _ _ _) as [[[e2 cl2] s2] w2] eqn:Er.
  apply (round_inv recs) in Er; [|done|done]. destruct e2; [by apply IH|by intros [= _ <- <- <-]].
Qed.

End CoordinatorProofs.
