(* ===== verification/ProcessProofs.v ===== *)
(** The coordinator from its start: what a kill leaves on the disk, and what clients were told.

    The opened store starts the event loop in its invariant, so the theorems of this file are about
    whole runs of the process: any arguments, any clients, any faults of the disk and the network. *)

From S2P Require Import Prelude Text Job JobQueue WorkerRegistry Protocol ProtocolProofs Scheduler SchedulerProofs Wal.
From S2P Require Import WalWriter Disk SimDisk WriterProofs WalReplay ReplayProofs ReplayDisk CoordinatorStore StoreProofs Durability StoreRecovery.
From S2P Require Import CoordinatorStats StatsProofs Net NetLaws SimNet Log Machine StoreSteps Framing Client ReplyProofs ClientProofs Coordinator CoordinatorProofs.

Section ProcessProofs.
Context {W : Type} (os : wal_os W) (net : net_os W).
Context {FIN : OsFinite os} {DISK : Disk os} {NET : Net net} {MACHINE : Machine os net}.

Abbreviation extends := (extends os).
Abbreviation same_disk := (same_disk os).

(** ** The start *)

(** A store that has just been opened: its log extends [recs], no job is in progress and no worker
    is registered. *)
Record started (recs : list faultline_wal_record) (store : faultline_coordinator_store) (world : W) : Prop := {
  start_sound : sound os recs store world;
  start_running : store_failure store = FAULTLINE_STORE_FAILURE_NONE;
  start_idle j : j ∈ live (jobs store) -> ~ active_job j;
  start_workers : workers (store_workers store) = workers faultline_worker_registry_init;
}.

Lemma started_calm recs store world world' :
  started recs store world -> same_disk world world' -> started recs store world'.
Proof. intros [Hs ? ? ?] Hd. split; try done. by eapply sound_calm. Qed.

Lemma no_workers store :
  registry_wf (store_workers store) ->
  workers (store_workers store) = workers faultline_worker_registry_init ->
  forall id, live_at (store_workers store) id = None.
Proof.
  intros Hr Hw id. destruct (live_at _ id) as [fd|] eqn:E; [|done]. apply live_at_some in E; [|done].
  destruct E as (k & w & Hin%list_elem_of_lookup_2 & Hal & _). rewrite Hw in Hin. apply init_unused in Hin.
  destruct Hin. unfold used. unfold alive in Hal. by rewrite Hal.
Qed.

Lemma start_loop recs store world :
  started recs store world -> loop_inv os net recs (replicate MAX_CLIENTS no_client) store world.
Proof.
  intros [Hs Hf Hidle Hw]. assert (forall i c, replicate MAX_CLIENTS no_client !! i = Some c -> c = no_client) as Hno.
  { intros i c Hc. by apply lookup_replicate in Hc as [-> _]. }
  split; try done.
  - intros i c Hc Hfd. apply Hno in Hc as ->. by cbn in Hfd; lia.
  - intros i c Hc _. by apply Hno in Hc as ->.
  - intros i c Hc Hfd. apply Hno in Hc as ->. by cbn in Hfd; lia.
  - intros i k c d Hc _ Hfd. apply Hno in Hc as ->. by cbn in Hfd; lia.
  - intros i c Hc. apply Hno in Hc as ->. by intros [].
  - intros id fd. rewrite no_workers; [done|apply Hs|done].
  - right. intros w (_ & k & j & Hj & Ha & _)%busy_spec. destruct (Hidle j); [|done].
    by eapply list_elem_of_lookup_2.
  - intros w Hin Hu. rewrite Hw in Hin. by apply init_unused in Hin.
Qed.

Lemma begin_typed store now session :
  sched_wf (jobs store) -> faultline_stats_begin store now = Some session -> session_typed session.
Proof.
  intros Hs. unfold faultline_stats_begin. destruct (_ || _); [done|].
  destruct (collect_jobs store zero_stats) as [b|] eqn:E; [|done].
  apply collect_jobs_typed in E; [|by repeat constructor].
  destruct (Nat.ltb_spec (sched_count (jobs store)) (interrupted_jobs store)); [done|]. intros [= <-].
  pose proof (sched_count_le _ Hs). unfold FAULTLINE_JOB_STORE_CAPACITY in *. split; cbn.
  - apply u64_range.
  - unfold in_u64. ilia.
  - clear -E. typed_fields.
Qed.

(** ** The end of the process *)

Lemma extends_mono world world' recs :
  extends world recs -> (forall x, crash os world' x -> crash os world x) -> extends world' recs.
Proof. intros H Hx x Hc. apply H. auto. Qed.

Lemma extends_calm world world' recs : extends world recs -> same_disk world world' -> extends world' recs.
Proof. intros H [_ Hx]. by eapply extends_mono. Qed.

Lemma sound_extends recs store world : sound os recs store world -> extends world recs.
Proof.
  intros Hs x Hx. destruct (tracked_image os _ _ _ _ (sound_tracked _ _ _ _ Hs) Hx)
    as (c & recs' & st' & -> & Hp & (rs' & Hl) & Hi & _). eauto 10.
Qed.

Lemma settled_extends world c recs st rs :
  settled os world c -> image_of recs c -> log_history recs st rs -> extends world recs.
Proof. intros [_ Hx] Hi Hl x ->%Hx. by exists c, recs, st, rs. Qed.

Lemma same_disk_log s level event body world : same_disk world (log net s level event body world).
Proof. apply (calm_log os net). Qed.

Lemma same_disk_recovered l store world : same_disk world (log_recovered net l store world).
Proof.
  revert world. induction l as [|j l IH]; intros world; cbn [log_recovered]; [done|].
  etrans; [apply (calm_log_job os net)|apply IH].
Qed.

Lemma same_disk_close_all clients world : same_disk world (close_all net clients world).
Proof.
  revert world. induction clients as [|c clients IH]; intros world; cbn [close_all]; [done|].
  etrans; [|apply IH]. destruct (_ <=? _); [apply (disk_close os net)|done].
Qed.

Lemma same_disk_listen host port backlog world r world' :
  faultline_listen net host port backlog world = (r, world') -> same_disk world world'.
Proof.
  unfold faultline_listen. destruct (make_address net host port) as [address|]; [|by intros [= _ <-]].
  destruct (os_socket net world) as [[fd|e] w1] eqn:E1; apply (disk_socket os net) in E1; [|by intros [= _ <-]].
  assert (forall w e (r : os_result Z) world', same_disk world w -> close_failed_socket net fd e w = (r, world') ->
    same_disk world world') as Hclose.
  { intros w e r0 w0 Hw [= _ <-]. etrans; [done|]. apply (disk_close os net). }
  destruct (os_reuseaddr net fd w1) as [[[]|e] w2] eqn:E2; apply (disk_reuseaddr os net) in E2;
    (assert (same_disk world w2) by (by etrans)); [|by apply Hclose].
  destruct (faultline_set_nonblocking net fd w2) as [[[]|e] w3] eqn:E3;
    (assert (same_disk world w3) by (etrans; [done|]; unfold faultline_set_nonblocking in E3;
      destruct (os_getfl net fd w2) as [[fl|e'] w4] eqn:E4; apply (disk_getfl os net) in E4;
      [apply (disk_setfl os net) in E3; by etrans|by injection E3 as _ <-])); [|by apply Hclose].
  destruct (os_bind net fd address w3) as [[[]|e] w5] eqn:E5; apply (disk_bind os net) in E5;
    (assert (same_disk world w5) by (by etrans)); [|by apply Hclose].
  destruct (os_listen net fd backlog w5) as [[[]|e] w6] eqn:E6; apply (disk_listen os net) in E6;
    (assert (same_disk world w6) by (by etrans)); [|by apply Hclose].
  by intros [= _ <-].
Qed.

Lemma run_coordinator_sound recs rounds listener timeout store world status store' world' :
  started recs store world ->
  run_coordinator os net rounds listener timeout store world = (status, store', world') ->
  sound os recs store' world'.
Proof.
  intros Hst. unfold run_coordinator.
  destruct (faultline_monotonic_ms net world) as [now w1] eqn:Em. apply (calm_monotonic os net) in Em.
  pose proof (started_calm _ _ _ _ Hst (proj1 Em)) as Hst1.
  destruct (faultline_stats_begin store now) as [session|] eqn:Eb.
  2:{ intros [= _ <- <-]. eapply sound_calm; [apply Hst1|]. apply same_disk_log. }
  apply begin_typed in Eb; [|by eapply sound_sched; apply Hst1].
  destruct (run_rounds os net _ _ _ _ _ _ _) as [[[e cl] s2] w2] eqn:Er.
  apply (rounds_inv os net recs) in Er; [|by apply start_loop|done]. apply li_sound in Er.
  destruct e as [ok|]; [|by intros [= _ <- <-]].
  destruct (os_stopping net w2) as [s3 w3] eqn:E3. apply (calm_stopping os net) in E3.
  destruct (os_stopping net w3) as [s4 w4] eqn:E4. apply (calm_stopping os net) in E4.
  intros [= _ <- <-]. eapply sound_calm; [done|].
  etrans; [apply E3|]. etrans; [apply E4|]. etrans; [apply same_disk_log|apply same_disk_close_all].
Qed.

Lemma storage_error_disk store world : same_disk world (log_storage_error net store world).
Proof. apply same_disk_log. Qed.

Lemma serve_sound recs rounds o store world status listener store' world' :
  started recs store world -> serve os net rounds o store world = (status, listener, store', world') ->
  sound os recs store' world'.
Proof.
  intros Hst. unfold serve.
  set (w1 := log_recovered _ _ _ _). assert (started recs store w1) as Hst1.
  { eapply started_calm; [done|]. unfold w1. etrans; [apply same_disk_log|apply same_disk_recovered]. }
  clearbody w1. clear Hst. destruct (faultline_listen net _ _ _ w1) as [[l|e] w2] eqn:El.
  2:{ intros [= _ _ <- <-]. eapply sound_calm; [apply Hst1|]. etrans; [by eapply same_disk_listen|].
      apply (calm_log_error os net). }
  apply same_disk_listen in El. set (w3 := log _ _ _ _ _ w2).
  destruct (run_coordinator os net _ _ _ _ w3) as [[st s4] w4] eqn:Er.
  apply (run_coordinator_sound recs) in Er.
  2:{ eapply started_calm; [done|]. etrans; [done|]. apply same_disk_log. }
  intros [= _ _ <- <-]. destruct (failed s4); [|done]. eapply sound_calm; [done|apply storage_error_disk].
Qed.

(** ** Opening and closing *)

Lemma open_step recs st rs c path (initialize : bool) now world res store' world' :
  path <> [] -> ends_in_slash path = false -> image_of recs c -> log_history recs st rs ->
  settled os world c -> Z.of_nat (length c) <= INT64_MAX ->
  faultline_store_open_with_io os faultline_store_init path (if initialize then 1 else 0) now world =
    (res, store', world') ->
  res = FAULTLINE_STORE_OK /\ started recs store' world' \/ res <> FAULTLINE_STORE_OK /\ extends world' recs.
Proof.
  intros Hp Hsl Hi Hl Hset Hlen H. pose proof (settled_extends _ _ _ _ _ Hset Hi Hl) as Hext.
  destruct (Z.ltb_spec now 0) as [Hneg|Hnow].
  { right. unfold faultline_store_open_with_io in H. rewrite (proj2 (Z.ltb_lt _ _) Hneg) in H.
    destruct initialize; by injection H as <- <- <-. }
  destruct initialize.
  - destruct Hset as [Hc Hx]. apply (open_new os) in H; [|apply init_fresh|done..|].
    + rewrite Hc in H. destruct res; try done; [by destruct H|]. right. split; [done|].
      by eapply settled_extends; [apply H|..].
    + intros x ->%Hx. by rewrite Hc.
  - apply (open_existing os _ _ _ _ recs st rs c) in H; [|apply init_fresh|done..].
    destruct res; try done; [left|right; split; [done|apply H]]. split; [done|].
    destruct H as (Ho & ((st' & rs' & HP) & Hlive & _) & Hw).
    split; [|apply HP|rewrite Hlive; apply recovered_inactive|done]. split; [|apply HP]. split; [done|].
    eexists _, st', rs'. split; [by apply prefix_app_r|by left].
Qed.

Lemma close_descriptor_crash d op writer world x :
  crash os (snd (close_descriptor os d op writer world)) x -> crash os world x.
Proof.
  unfold close_descriptor. destruct (_ !=? _); [|done].
  destruct (io_close os d world) as [r w1] eqn:E. apply (Disk.law_close os) in E as [_ Hx].
  destruct r; apply Hx.
Qed.

Lemma store_close_crash store world res store' world' :
  faultline_store_close os store world = (res, store', world') ->
  forall x, crash os world' x -> crash os world x.
Proof.
  unfold faultline_store_close, faultline_wal_writer_close. destruct (_ && _); [by intros [= _ _ <-]|].
  destruct (close_descriptor os _ _ _ world) as [wr1 w1] eqn:E1.
  destruct (close_descriptor os _ _ _ w1) as [wr2 w2] eqn:E2.
  intros H. assert (world' = w2) as ->.
  { destruct (bool_decide (writer_state _ = _)); by injection H as _ _ <-. }
  intros x Hx. eapply close_descriptor_crash. rewrite E1. cbn [snd]. eapply close_descriptor_crash. by rewrite E2.
Qed.

Lemma open_and_serve_extends recs st rs c rounds o world status listener store' world' :
  opt_wal_path o <> [] -> ends_in_slash (opt_wal_path o) = false -> image_of recs c ->
  log_history recs st rs -> settled os world c -> Z.of_nat (length c) <= INT64_MAX ->
  open_and_serve os net rounds o world = (status, listener, store', world') -> extends world' recs.
Proof.
  intros Hp Hsl Hi Hl Hset Hlen. unfold open_and_serve.
  destruct (faultline_monotonic_ms net world) as [now w1] eqn:Em.
  apply (calm_monotonic os net) in Em as [[Hv Hx] _].
  destruct (faultline_store_open_with_io _ _ _ _ _ w1) as [[res s1] w2] eqn:Eo.
  apply (open_step recs st rs c) in Eo; try done.
  2:{ destruct Hset as [Hc Hset]. split; [by rewrite Hv|auto]. }
  destruct Eo as [[-> Hst]|[Hne Hext]].
  - destruct (os_stopping net w2) as [sg w4] eqn:E4. apply (calm_stopping os net) in E4 as [E4 _].
    pose proof (started_calm _ _ _ _ Hst E4) as Hst4.
    destruct (negb _); intros Es; eapply sound_extends; [injection Es as _ _ <- <-; apply Hst4|].
    by eapply serve_sound.
  - destruct res; try done; intros [= _ _ <- <-]; (eapply extends_calm; [done|]; apply storage_error_disk).
Qed.

Lemma close_process_extends recs status listener store world status' world' :
  extends world recs -> close_process os net status listener store world = (status', world') ->
  extends world' recs.
Proof.
  intros Hext. unfold close_process.
  set (w4 := if _ <=? listener then _ else _). assert (extends w4 recs) as Hext4.
  { unfold w4. destruct (_ <=? _); [|done]. eapply extends_calm; [done|]. apply (disk_close os net). }
  clearbody w4. destruct (faultline_store_close os store w4) as [[r5 s5] w5] eqn:Ec.
  pose proof (extends_mono _ _ _ Hext4 (store_close_crash _ _ _ _ _ Ec)) as Hext5.
  destruct (if bool_decide _ then _ else _) as [st6 w6] eqn:E6. assert (extends w6 recs) as Hext6.
  { case_bool_decide; injection E6 as _ <-; try destruct (failed store); try done.
    eapply extends_calm; [done|]; apply storage_error_disk. }
  destruct (os_stopping net w6) as [sg w7] eqn:E7. apply (calm_stopping os net) in E7 as [E7 _].
  intros [= _ <-]. eapply extends_calm; [done|]. etrans; [done|]. apply same_disk_log.
Qed.

(** The parser never leaves the path of the log empty. *)
Lemma parse_option_path o name next o' b :
  opt_wal_path o <> [] -> parse_option o name next = Some (o', b) -> opt_wal_path o' <> [].
Proof.
  intros Ho. unfold parse_option.
  destruct (if _ && _ && _ then faultline_parse_port _ else _); [by intros [= <- _]|].
  destruct (if _ && _ && _ then faultline_parse_duration_ms _ else _); [by intros [= <- _]|].
  destruct (_ && _ && _ && negb (text_eqb (default [] next) [])) eqn:E.
  - intros [= <- _]. cbn. apply andb_true_iff in E as [_ E]. intros Heq. rewrite Heq in E. done.
  - clear E. destruct (_ && _); [by intros [= <- _]|done].
Qed.

Lemma parse_options_path argv o o' :
  opt_wal_path o <> [] -> parse_options o argv = Some o' -> opt_wal_path o' <> [].
Proof.
  remember (length argv) as n eqn:Hn. revert argv o Hn. induction n as [n IH] using lt_wf_ind.
  intros [|name rest] o -> Ho; cbn [parse_options]; [by intros [= <-]|].
  destruct (parse_option o name (head rest)) as [[o1 b]|] eqn:E; [|done].
  apply parse_option_path in E; [|done]. destruct b.
  - destruct rest as [|v rest]; [by intros [= <-]|]. eapply IH; [|done..]. cbn. lia.
  - eapply IH; [|done..]. cbn. lia.
Qed.

Lemma signals_disk world r world' : configure_signals net world = (r, world') -> same_disk world world'.
Proof.
  unfold configure_signals, faultline_ignore_sigpipe.
  destruct (os_sigaction net SIGINT _ world) as [[]] eqn:E1; apply (disk_sigaction os net) in E1; [|by intros [= _ <-]].
  destruct (os_sigaction net SIGTERM _ _) as [[]] eqn:E2; apply (disk_sigaction os net) in E2;
    [|intros [= _ <-]; by etrans].
  intros E3%(disk_sigaction os net). by do 2 (etrans; [done|]).
Qed.

(** ** Properties *)

(** C4: whatever the arguments, the clients and the faults of the disk and the network, a kill of
    the coordinator after any number of rounds, or its regular end, leaves a log that extends the
    history of the log it was started on: nothing that was recorded is lost or rewritten. *)
Theorem process_durable rounds argv world recs st rs c status world' :
  (forall o, parse_options default_options argv = Some o -> ends_in_slash (opt_wal_path o) = false) ->
  image_of recs c -> log_history recs st rs -> settled os world c -> Z.of_nat (length c) <= INT64_MAX ->
  main os net rounds argv world = (status, world') -> extends world' recs.
Proof.
  intros Hsl Hi Hl Hset Hlen. pose proof (settled_extends _ _ _ _ _ Hset Hi Hl) as Hext. unfold main.
  assert (forall s l, extends (snd (os_print net s l world)) recs) as Hprint.
  { intros s l. destruct (os_print net s l world) as [b w] eqn:E. apply (disk_print os net) in E.
    by eapply extends_calm. }
  case_bool_decide; [by intros [= _ <-]|].
  destruct (parse_options _ _) as [o|] eqn:Ep; [|by intros [= _ <-]].
  destruct (configure_signals net world) as [r w1] eqn:Es. apply signals_disk in Es.
  pose proof (extends_calm _ _ _ Hext Es) as Hext1. destruct r; [|intros [= _ <-]; eapply extends_calm;
    [done|]; apply (calm_log_error os net)].
  destruct (os_alloc os w1) as [b w2] eqn:Ea. apply (law_alloc os) in Ea. assert (same_disk world w2) as Hd by (by etrans).
  destruct b; [|intros [= _ <-]; eapply extends_calm; [done|]; etrans; [done|]; apply (calm_log_error os net)].
  unfold run_process. destruct (open_and_serve os net _ _ _) as [[[st3 listener] s3] w3] eqn:Eo.
  eapply open_and_serve_extends in Eo; try done; [|eapply parse_options_path; [|exact Ep]; by vm_compute|by apply Hsl|].
  2:{ destruct Hset as [Hc Hx], Hd as [Hv Hy]. split; [by rewrite Hv|auto]. }
  destruct st3 as [st3|]; [|by intros [= _ <-]].
  destruct (close_process os net _ _ _ _) as [st4 w4] eqn:Ec. intros [= _ <-]. by eapply close_process_extends.
Qed.

(** C3: after any number of rounds of the event loop, under any traffic and any faults: open
    connections have distinct descriptors, all of them open in the system; the live workers of the
    registry are exactly the open connections that registered; and unless the store has failed,
    every job in progress belongs to the worker of one open connection. *)
Theorem coordinator_invariant recs rounds listener timeout session store world e clients' store' world' :
  started recs store world -> session_typed session ->
  run_rounds os net rounds listener timeout session (replicate MAX_CLIENTS no_client) store world =
    (e, clients', store', world') ->
  (forall i c, clients' !! i = Some c -> 0 <= cl_fd c -> cl_fd c ∈ descriptors (net_state net world')) /\
  (forall i k c d, clients' !! i = Some c -> clients' !! k = Some d -> 0 <= cl_fd c ->
     cl_fd c = cl_fd d -> i = k) /\
  (forall id fd, live_at (store_workers store') id = Some fd <->
     id <> 0 /\ exists i c, clients' !! i = Some c /\ cl_worker_id c = id /\ cl_fd c = fd /\ 0 <= fd) /\
  (store_failure store' = FAULTLINE_STORE_FAILURE_NONE ->
   forall slot j, live (jobs store') !! slot = Some j -> active_job j ->
     exists i c, clients' !! i = Some c /\ 0 <= cl_fd c /\ cl_worker_id c = worker_id j).
Proof.
  intros Hst Hse Hrun. apply (rounds_inv os net recs) in Hrun as H; [|by apply start_loop|done].
  assert (forall id fd, live_at (store_workers store') id = Some fd <->
     id <> 0 /\ exists i c, clients' !! i = Some c /\ cl_worker_id c = id /\ cl_fd c = fd /\ 0 <= fd) as Hlive.
  { intros id fd. split.
    - intros Hl. destruct (live_at_fd _ _ _ (sound_registry _ _ _ _ (li_sound _ _ _ _ _ _ H)) Hl) as [Hfd Hz].
      split; [done|]. destruct (li_workers _ _ _ _ _ _ H _ _ Hl) as (i & c & Hc & Hid). exists i, c.
      split_and!; [done|done| |lia]. pose proof (li_live _ _ _ _ _ _ H i c Hc) as Hcl. unfold conn_live in Hcl.
      rewrite Hid, Hl in Hcl. specialize (Hcl Hz). congruence.
    - intros (Hz & i & c & Hc & <- & <- & _). by apply (li_live _ _ _ _ _ _ H i c Hc). }
  split_and!; [apply H|apply H|apply Hlive..|]. intros Hf slot j Hj Ha.
  destruct (li_busy _ _ _ _ _ _ H) as [Hfail|Hb]; [done|].
  assert (worker_id j <> 0) as Hz.
  { eapply active_worker; [|done]. by eapply live_jobs; [eapply sound_sched, H|]. }
  destruct (live_at (store_workers store') (worker_id j)) as [fd|] eqn:El.
  - apply Hlive in El as (_ & i & c & ? & ? & <- & ?). eauto.
  - destruct (Hb (worker_id j)); [|done]. apply busy_spec. eauto 8.
Qed.

(** C2: a client is told that its job was accepted only when the job is durable. At any time of
    the event loop, if an open connection of a running store has the acknowledgement of job [id] to
    send, then recovery from whatever a kill leaves at that moment, on any lawful system that does
    not itself fail, knows the job. *)
Theorem acknowledged_jobs_survive {W2 : Type} (os2 : wal_os W2) {FIN2 : OsFinite os2} {DISK2 : Disk os2}
    recs rounds listener timeout session store world e clients' store' world' i client id n
    c writer path old world2 res writer2 out report world2' :
  started recs store world -> session_typed session ->
  run_rounds os net rounds listener timeout session (replicate MAX_CLIENTS no_client) store world =
    (e, clients', store', world') ->
  store_failure store' = FAULTLINE_STORE_FAILURE_NONE ->
  clients' !! i = Some client -> 0 <= cl_fd client -> cl_phase client = WRITING_REPLY ->
  faultline_message_decode (cl_output client) = inr (MsgJobSubmitAck id, n) ->
  crash os world' (Some c) -> unopened writer -> path <> [] -> ends_in_slash path = false ->
  settled os2 world2 c -> Z.of_nat (length c) <= INT64_MAX ->
  faultline_wal_replay_open_with_io os2 writer path old world2 = (res, writer2, out, report, world2') ->
  (res = FAULTLINE_WAL_REPLAY_OK /\ exists st2, out = Some st2 /\
     faultline_scheduler_find (rs_scheduler st2) id <> None) \/
  ((res = FAULTLINE_WAL_REPLAY_IO_ERROR \/ res = FAULTLINE_WAL_REPLAY_NO_MEMORY) /\ out = None).
Proof.
  intros Hst Hse Hrun Hnf Hc Hfd Hph Hdec Hx Hu Hp Hsl Hset Hlen Hopen.
  apply (rounds_inv os net recs) in Hrun as H; [|by apply start_loop|done].
  destruct (li_conn _ _ _ _ _ _ H i client Hc Hfd) as [Hfail|Hg]; [done|].
  destruct (gc_writing _ _ Hg Hph) as (_ & _ & m & Ht & Henc & Hack).
  pose proof (decode_frame _ _ _ [] Ht Henc) as Hm. rewrite app_nil_r, Hdec in Hm. injection Hm as <- _.
  specialize (Hack id eq_refl).
  destruct (tracked_image os _ _ _ _ (sound_tracked _ _ _ _ (li_sound _ _ _ _ _ _ H)) Hx)
    as (c' & recs' & st' & [= <-] & _ & [rs' Hl] & Himg & [Hj|[Hj _]]); [|done].
  pose proof (image_bytes _ _ _ _ Hl Himg) as Hb. destruct Himg as (rest & -> & Hrest).
  apply (replay_open_intact os2 _ _ _ _ recs' st' rs' rest) in Hopen; try done.
  destruct Hopen as [(-> & -> & _)|(Hres & -> & _)]; [left|right; done].
  split; [done|]. exists st'. split; [done|]. by rewrite Hj.
Qed.

End ProcessProofs.

(** ** Witnesses: a recovered log, and a client that submits a job *)

Definition booted : sim * sim_net :=
  (restarted_disk (log_bytes assigned_log) [], quiet_net 100 [[frame_of sample_submit]]).

Definition booted_open : faultline_store_result * faultline_coordinator_store * (sim * sim_net) :=
  faultline_store_open_with_io machine_os faultline_store_init sample_path 0 90 booted.

Definition booted_store : faultline_coordinator_store := snd (fst booted_open).
Definition booted_world : sim * sim_net := snd booted_open.

Definition booted_session : faultline_stats_session := mk_session 95 5 1 1 0 0 1.

(** Three rounds: the connection, the header, the payload. *)
Definition served : option bool * list client * faultline_coordinator_store * (sim * sim_net) :=
  run_rounds machine_os machine_net 3 99 5000 booted_session (replicate MAX_CLIENTS no_client)
    booted_store booted_world.

Definition served_clients : list client := snd (fst (fst served)).
Definition served_image : list Z := default [] (content (view machine_os (snd served))).

Lemma booted_settled : settled machine_os booted (log_bytes assigned_log).
Proof. exact (restarted_settled (log_bytes assigned_log) []). Qed.

Lemma booted_ok :
  faultline_store_open_with_io machine_os faultline_store_init sample_path (if false then 1 else 0) 90 booted =
  (FAULTLINE_STORE_OK, booted_store, booted_world).
Proof. vm_compute. reflexivity. Qed.

Lemma booted_started : started machine_os assigned_log booted_store booted_world.
Proof.
  pose proof booted_ok as E.
  eapply (open_step machine_os assigned_log _ _ (log_bytes assigned_log) sample_path false) in E;
    [|apply sample_path_ok|apply sample_path_ok|apply assigned_image|apply assigned_history
     |apply booted_settled|apply assigned_log_size].
  destruct E as [[_ H]|[H _]]; [exact H|by destruct H].
Qed.

Lemma booted_begin : faultline_stats_begin booted_store 95 = Some booted_session.
Proof. vm_compute. reflexivity. Qed.

Lemma booted_typed : session_typed booted_session.
Proof. eapply begin_typed; [|apply booted_begin]. eapply (sound_sched machine_os), start_sound, booted_started. Qed.

Lemma served_state :
  let '(e, clients, store, world) := served in
  store_failure store = FAULTLINE_STORE_FAILURE_NONE /\
  crash machine_os world (Some served_image) /\ Z.of_nat (length served_image) <= INT64_MAX.
Proof.
  destruct served as [[[e clients] store] world] eqn:E.
  assert (world = snd served) as -> by (by rewrite E). assert (store = snd (fst served)) as -> by (by rewrite E).
  split; [|split]; [vm_compute; reflexivity| |apply Z.leb_le; vm_compute; reflexivity].
  apply list_elem_of_lookup. exists 0%nat. vm_compute. reflexivity.
Qed.

Lemma served_reply :
  exists c, served_clients !! 0%nat = Some c /\ 0 <= cl_fd c /\ cl_phase c = WRITING_REPLY /\
    faultline_message_decode (cl_output c) = inr (MsgJobSubmitAck 8, 20).
Proof.
  eexists. split; [vm_compute; reflexivity|]. split; [by vm_compute|]. split; [reflexivity|].
  vm_compute. reflexivity.
Qed.

Lemma acknowledged_jobs_survive_witness :
  let '(res, _, out, _, _) := faultline_wal_replay_open_with_io sim_os FAULTLINE_WAL_WRITER_INIT
    sample_path zero_report (restarted_disk served_image []) in
  (res = FAULTLINE_WAL_REPLAY_OK /\ exists st2, out = Some st2 /\
     faultline_scheduler_find (rs_scheduler st2) 8 <> None) \/
  ((res = FAULTLINE_WAL_REPLAY_IO_ERROR \/ res = FAULTLINE_WAL_REPLAY_NO_MEMORY) /\ out = None).
Proof.
  pose proof served_state as Hs. destruct served_reply as (client & Hc & Hfd & Hph & Hdec).
  unfold served_clients in Hc.
  destruct served as [[[e clients] store] world] eqn:Erun. cbn [fst snd] in Hc.
  destruct (faultline_wal_replay_open_with_io _ _ _ _ _) as [[[[res writer'] out] report] world2'] eqn:E.
  exact (acknowledged_jobs_survive machine_os machine_net sim_os assigned_log 3 99 5000 booted_session
    booted_store booted_world e clients store world 0 client 8 20 served_image FAULTLINE_WAL_WRITER_INIT
    sample_path zero_report (restarted_disk served_image []) res writer' out report world2'
    booted_started booted_typed Erun (proj1 Hs) Hc Hfd Hph Hdec (proj1 (proj2 Hs)) fresh_writer
    (proj1 sample_path_ok) (proj2 sample_path_ok) (restarted_settled served_image []) (proj2 (proj2 Hs)) E).
Defined.

Lemma coordinator_invariant_witness :
  let '(e, clients, store, world) := served in
  forall i k c d, clients !! i = Some c -> clients !! k = Some d -> 0 <= cl_fd c -> cl_fd c = cl_fd d -> i = k.
Proof.
  destruct served as [[[e clients] store] world] eqn:Erun.
  exact (proj1 (proj2 (coordinator_invariant machine_os machine_net assigned_log 3 99 5000 booted_session
    booted_store booted_world e clients store world booted_started booted_typed Erun))).
Defined.

Definition process_argv : list (list Z) := [text "--wal"; sample_path].

Lemma process_argv_ok o :
  parse_options default_options process_argv = Some o -> ends_in_slash (opt_wal_path o) = false.
Proof. vm_compute. by intros [= <-]. Qed.

Lemma process_durable_witness :
  extends machine_os (snd (main machine_os machine_net 3 process_argv booted)) assigned_log.
Proof.
  exact (process_durable machine_os machine_net 3 process_argv booted assigned_log _ _
    (log_bytes assigned_log) _ _ process_argv_ok assigned_image assigned_history booted_settled
    assigned_log_size (surjective_pairing _)).
Defined.
