(* ===== verification/SchedulingProofs.v ===== *)
(** Scheduling leaves no work behind: after a pass over the connections a job is pending only if no
    connected worker could take it. The next poll wakes up in time for the next heartbeat deadline. *)

From S2P Require Import Prelude Text Job JobQueue WorkerRegistry Protocol ProtocolProofs Scheduler SchedulerProofs Wal.
From S2P Require Import WalWriter Disk SimDisk WriterProofs WalReplay ReplayProofs ReplayDisk CoordinatorStore StoreProofs Durability StoreRecovery.
From S2P Require Import CoordinatorStats StatsProofs Net NetLaws SimNet Log Machine StoreSteps Framing Client ReplyProofs ClientProofs.
From S2P Require Import Coordinator CoordinatorProofs ProcessProofs.

(** ** Other workers *)

Lemma find_iff r id w :
  registry_wf r ->
  faultline_worker_find r id = Some w <-> exists k, workers r !! k = Some w /\ used w /\ w_id w = id.
Proof.
  intros Hr. split.
  - intros H. apply worker_find_some in H as (Hin & Hu & Hid & _); [|done].
    apply list_elem_of_lookup in Hin as [k Hk]. by exists k.
  - intros (k & Hk & Hu & <-). by apply (worker_find_at r k).
Qed.

Lemma mark_dead_others r id fd other :
  registry_wf r -> other <> id ->
  faultline_worker_find (snd (faultline_worker_mark_dead r id fd)) other = faultline_worker_find r other.
Proof.
  intros Hr Hne. pose proof (mark_dead_wf r id fd Hr) as Hr'. revert Hr'. unfold faultline_worker_mark_dead.
  destruct (find_live_connection r id fd) as [e slot] eqn:E. destruct e; try done. cbn [snd].
  apply (find_live_connection_ok _ Hr) in E as (v & Hv & -> & Ha & Hid & _). intros Hr'.
  apply option_eq. intros w. rewrite !find_iff by done. cbn [workers].
  split; intros (k & Hk & Hu & Hw); exists k; (split; [|done]).
  - destruct (decide (k = slot)) as [->|]; [|by rewrite list_lookup_insert_ne in Hk].
    rewrite list_lookup_insert_eq in Hk by (by eapply lookup_lt_Some). injection Hk as <-. cbn in Hw. congruence.
  - rewrite list_lookup_insert_ne; [done|]. intros ->. congruence.
Qed.

Lemma busy_replaced s slot j c q worker :
  sched_wf s -> live s !! slot = Some j -> (active_job j -> worker_id j <> worker) ->
  busy s worker -> busy (replace_job s slot c q) worker.
Proof.
  intros Hs Hl Hne H. destruct (live_jobs _ _ _ Hs Hl) as (Hlt & _).
  apply busy_spec in H as (Hw & k & j' & Hk & Ha & Hj'). apply busy_spec. split; [done|].
  exists k, j'. rewrite live_replace by done. split; [|done]. rewrite list_lookup_insert_ne; [done|].
  intros ->. assert (j' = j) as -> by congruence. by apply Hne.
Qed.

(** The entries and the jobs of all workers but [worker] are as they were. *)
Definition others_kept (worker : Z) (store store' : faultline_coordinator_store) : Prop :=
  forall w, w <> worker ->
    faultline_worker_find (store_workers store') w = faultline_worker_find (store_workers store) w /\
    (busy (jobs store) w -> busy (jobs store') w).

#[export] Instance others_kept_preorder worker : PreOrder (others_kept worker).
Proof.
  split; [done|]. intros s1 s2 s3 H1 H2 w Hw. destruct (H1 w Hw) as [E1 B1], (H2 w Hw) as [E2 B2].
  split; [congruence|auto].
Qed.

(** ** Readiness *)

Lemma ready_intro c store now timeout :
  0 <= cl_fd c -> live_at (store_workers store) (cl_worker_id c) = Some (cl_fd c) ->
  cl_phase c = READING_MESSAGE -> cl_received c = 0 -> ~ busy (jobs store) (cl_worker_id c) ->
  faultline_worker_timed_out (faultline_worker_find (store_workers store) (cl_worker_id c)) now timeout = false ->
  ready_for_job c store now timeout = true.
Proof.
  unfold ready_for_job, live_at. intros Hfd Hl Hp Hr Hb Ht. rewrite Ht.
  destruct (faultline_worker_find _ _) as [w|]; [|done]. case_bool_decide as Ha; [|done]. injection Hl as ->.
  rewrite (proj2 (Z.ltb_ge _ _)), Z.eqb_refl, Hr, (bool_decide_eq_true_2 _ Hp) by done. cbn.
  apply negb_true_iff, bool_decide_eq_false. exact Hb.
Qed.

Lemma timed_out_later w now now' timeout :
  now <= now' -> faultline_worker_timed_out w now timeout = true -> faultline_worker_timed_out w now' timeout = true.
Proof.
  unfold faultline_worker_timed_out. destruct w as [w|]; [|done]. intros Hle.
  destruct (bool_decide _); [|done]. cbn [andb]. intros H. split_bools. lia.
Qed.

(** A connection that is ready was ready before. *)
Lemma ready_before c store store' now now' timeout :
  now <= now' ->
  faultline_worker_find (store_workers store') (cl_worker_id c) =
    faultline_worker_find (store_workers store) (cl_worker_id c) ->
  (busy (jobs store) (cl_worker_id c) -> busy (jobs store') (cl_worker_id c)) ->
  ready_for_job c store' now' timeout = true -> ready_for_job c store now timeout = true.
Proof.
  intros Hle Hf Hb H. apply ready_spec in H as (Hfd & Hl & Hp & Hr & Hnb & Ht).
  unfold live_at in Hl. rewrite Hf in Hl, Ht. apply ready_intro; auto.
  destruct (faultline_worker_timed_out _ now timeout) eqn:E; [|done].
  apply (timed_out_later _ _ now') in E; [congruence|done].
Qed.

(** ** Waiting for the next deadline *)

Lemma poll_timeout_loop_spec l now timeout wait :
  0 <= wait ->
  let t := poll_timeout_loop l now timeout wait in
  0 <= t <= wait /\
  (forall w, w ∈ l -> alive w -> t <= Z.max 0 (w_last_heartbeat_ms w + timeout - now)) /\
  (t < wait -> exists w, w ∈ l /\ alive w /\ t = Z.max 0 (w_last_heartbeat_ms w + timeout - now)).
Proof.
  revert wait. induction l as [|v l IH]; intros wait Hw; cbn [poll_timeout_loop].
  { split; [lia|]. split; [intros w Hin; by apply not_elem_of_nil in Hin|lia]. }
  case_bool_decide as Ha.
  2:{ destruct (IH wait Hw) as (Hr & Hall & Hex). split; [done|]. split.
      - intros w Hin Hwa. apply elem_of_cons in Hin as [->|Hin]; [done|by apply Hall].
      - intros Ht. destruct (Hex Ht) as (w & Hin & Hwa). exists w. split; [by right|done]. }
  destruct (Z.leb_spec (timeout - (now - w_last_heartbeat_ms v)) 0) as [Hexp|Hleft].
  { split; [lia|]. split; [intros; lia|]. intros _. exists v. split; [by left|]. split; [done|lia]. }
  set (r := timeout - (now - w_last_heartbeat_ms v)) in *.
  destruct (IH (if r <? wait then r else wait)) as (Hr & Hall & Hex); [destruct (Z.ltb_spec r wait); lia|].
  set (t := poll_timeout_loop _ _ _ _) in *. split; [destruct (Z.ltb_spec r wait); lia|]. split.
  - intros w Hin Hwa. apply elem_of_cons in Hin as [->|Hin]; [|by apply Hall].
    destruct (Z.ltb_spec r wait); lia.
  - intros Ht. destruct (Z.ltb_spec r wait); [destruct (decide (t < r))|].
    2:{ exists v. split; [by left|]. split; [done|lia]. }
    all: destruct Hex as (w & Hin & Hwa); [lia|]; exists w; split; [by right|done].
Qed.

Section SchedulingProofs.
Context {W : Type} (os : wal_os W) (net : net_os W).
Context {FIN : OsFinite os} {DISK : Disk os} {NET : Net net} {MACHINE : Machine os net}.

Abbreviation view_of world := (net_state net world).
Abbreviation sound := (sound os).
Abbreviation loop_inv := (loop_inv os net).

(** ** What assigning and closing leave alone *)

Lemma queued_inactive j : is_queued j -> ~ active_job j.
Proof. unfold is_queued, active_job, active_state. intros ->. done. Qed.

Lemma assign_keeps recs store worker now world out store' world' :
  sound recs store world ->
  faultline_store_assign os store worker now world = (FAULTLINE_STORE_OK, out, store', world') ->
  others_kept worker store store'.
Proof.
  intros Hs E. pose proof (sound_sched _ _ _ _ Hs) as Hsch.
  destruct (assign_shape os _ _ _ _ _ _ _ _ E) as (Hw & _ & (time & m & -> & Htime & Ha & Es) & _).
  apply alive_live_at in Ha. pose proof (live_at_u32 os _ _ _ _ Hs Ha) as Hu.
  pose proof (assign_ok (jobs store) worker time Hsch Hu Htime) as H. rewrite Es in H.
  destruct H as [(id & rest & slot & j & q & _ & _ & _ & _ & _ & Hl & _ & Hq & _ & _ & Hr & _)|(? & _)]; [|done].
  intros w Hne. split; [by rewrite Hw|]. rewrite Hr. apply (busy_replaced _ _ j); [done|done|].
  intros Ha'. by destruct (queued_inactive j Hq).
Qed.

Lemma lost_keeps recs store worker now world res store' world' :
  sound recs store world ->
  faultline_store_worker_lost os store worker now world = (res, store', world') ->
  others_kept worker store store'.
Proof.
  intros Hs E. pose proof (sound_sched _ _ _ _ Hs) as Hsch.
  destruct (lost_shape os _ _ _ _ _ _ _ E) as (Hw & _ & Hj). intros w Hne. split; [by rewrite Hw|].
  destruct res; try (destruct Hj as [-> _]; done).
  destruct Hj as [(time & Htime & Es) _].
  pose proof (worker_lost_ok (jobs store) worker time Hsch Htime) as H. rewrite Es in H.
  destruct H as [(slot & j & q & _ & _ & _ & Ha & Hl & _ & _ & Hr & _)|(_ & Hbad)]; [|by destruct_or!; destruct_and!].
  apply active_some in Ha as (_ & _ & Hjw & _). rewrite Hr. apply (busy_replaced _ _ j); [done|done|congruence].
Qed.

Lemma close_keeps recs c store reason world c' store' world' :
  sound recs store world -> close_client os net c store reason world = (c', store', world') ->
  others_kept (cl_worker_id c) store store'.
Proof.
  intros Hs. unfold close_client. destruct (negb _); [|by intros [= _ <- _]].
  destruct (release_job os net c store world) as [s1 w1] eqn:Er.
  assert (sound recs s1 w1) as Hs1.
  { apply (release_spec os net recs) in Er as (H1 & _); [apply H1|done]. }
  assert (others_kept (cl_worker_id c) store s1) as H1.
  { revert Er. unfold release_job. destruct (faultline_scheduler_active _ _); [|by intros [= <- _]].
    case_bool_decide; [|by intros [= <- _]].
    destruct (faultline_monotonic_ms net world) as [now w0] eqn:Em. apply (calm_monotonic os net) in Em.
    destruct (faultline_store_worker_lost os store _ now w0) as [[res s2] w2] eqn:El.
    apply (lost_keeps recs) in El; [|eapply sound_calm; [done|apply Em]]. destruct res; intros [= <- _]; done. }
  destruct (detach_worker net c s1 (text reason) w1) as [s2 w2] eqn:Ed. intros [= _ <- _]. etrans; [exact H1|].
  revert Ed. unfold detach_worker. pose proof (mark_dead_others (store_workers s1) (cl_worker_id c) (cl_fd c)) as Hd.
  destruct (faultline_worker_mark_dead _ _ _) as [result registry]. cbn [snd] in Hd.
  intros E. assert (s2 = s1 <| store_workers := registry |>) as -> by (destruct result; by injection E as <- _).
  intros w Hne. split; [|done]. apply Hd; [|done]. apply (sound_registry _ _ _ _ Hs1).
Qed.

(** Queueing closes the connection or makes it wait for its reply to be sent. *)
Lemma queue_keeps recs c store m world c' store' world' :
  sound recs store world -> queue_message os net c store m world = (c', store', world') ->
  others_kept (cl_worker_id c) store store' /\ (cl_fd c' = -1 \/ cl_phase c' = WRITING_REPLY).
Proof.
  intros Hs. unfold queue_message.
  assert (forall c1 reason w1, Machine.calm os net world w1 -> cl_worker_id c1 = cl_worker_id c ->
    close_client os net c1 store reason w1 = (c', store', world') ->
    others_kept (cl_worker_id c) store store' /\ (cl_fd c' = -1 \/ cl_phase c' = WRITING_REPLY)) as Hclose.
  { intros c1 reason w1 Hc <- H. split; [eapply close_keeps; [|exact H]; eapply sound_calm; [done|apply Hc]|left].
    revert H. unfold close_client. destruct (if negb _ then _ else _) as [s2 w2]. by intros [= <- _ _]. }
  destruct (faultline_message_encode _ m) as [e|frame].
  - apply Hclose; [apply (calm_client_log os net)|done].
  - destruct (faultline_monotonic_ms net world) as [now w1] eqn:Em. apply (calm_monotonic os net) in Em.
    destruct (now <? 0); [by apply Hclose|]. intros [= <- <- _]. split; [done|by right].
Qed.

(** ** A pass over the connections *)

(** None of the first [n] connections could take a job, now or later. *)
Definition none_ready (n : nat) (timeout : Z) (clients : list client) (store : faultline_coordinator_store)
    (world : W) : Prop :=
  forall k now, (k < n)%nat -> clock (view_of world) <= now ->
    ready_for_job (clients !!! k) store now timeout = false.

Lemma none_ready_later n timeout clients store world world' :
  clock (view_of world) <= clock (view_of world') ->
  none_ready n timeout clients store world -> none_ready n timeout clients store world'.
Proof. intros Hle H k now Hk Hnow. apply H; [done|lia]. Qed.

Lemma none_ready_step n timeout clients store world now :
  now <= clock (view_of world) -> ready_for_job (clients !!! n) store now timeout = false ->
  none_ready n timeout clients store world -> none_ready (S n) timeout clients store world.
Proof.
  intros Hle Hr H k t Hk Ht. destruct (decide (k = n)) as [->|]; [|apply H; lia].
  destruct (ready_for_job (clients !!! n) store t timeout) eqn:E; [|done].
  apply (ready_before _ store store now) in E; [congruence|lia|done|done].
Qed.

(** After a job was given to connection [i]. *)
Lemma none_ready_given recs i timeout clients store world c' store' world' :
  loop_inv recs clients store world -> 0 <= cl_fd (clients !!! i) ->
  live_at (store_workers store) (cl_worker_id (clients !!! i)) = Some (cl_fd (clients !!! i)) ->
  others_kept (cl_worker_id (clients !!! i)) store store' -> registry_wf (store_workers store') ->
  cl_fd c' = -1 \/ cl_phase c' = WRITING_REPLY ->
  clock (view_of world) <= clock (view_of world') ->
  none_ready i timeout clients store world -> none_ready (S i) timeout (<[i := c']> clients) store' world'.
Proof.
  intros Hinv Hfd Hlive Hkept Hreg Hc' Hle H k t Hk Ht.
  destruct (ready_for_job _ store' t timeout) eqn:E; [exfalso|done]. pose proof (lookup_open clients i Hfd) as Hi.
  destruct (decide (k = i)) as [->|Hne].
  { rewrite list_lookup_total_insert_eq in E by (by eapply lookup_lt_Some).
    apply ready_spec in E as (? & _ & Hp & _). destruct Hc'; [lia|congruence]. }
  rewrite list_lookup_total_insert_ne in E by done.
  assert (cl_worker_id (clients !!! k) <> cl_worker_id (clients !!! i)) as Hw.
  { intros Hw. apply ready_spec in E as (Hkfd & Hkl & _). destruct (live_at_fd _ _ _ Hreg Hkl) as [_ Hz].
    pose proof (lookup_open clients k Hkfd) as Hkc.
    pose proof (li_live _ _ _ _ _ _ Hinv k _ Hkc Hz) as Hl. rewrite Hw, Hlive in Hl. injection Hl as Hl.
    destruct Hne. symmetry. by apply (li_distinct _ _ _ _ _ _ Hinv i k _ _ Hi Hkc). }
  destruct (Hkept _ Hw) as [Hf Hb]. apply (ready_before _ store store' t) in E; [|lia|done|done].
  rewrite (H k t) in E; [done|lia|lia].
Qed.

(** A connection that is ready gets a job; [clients] and [store] stay in the invariant. *)
Lemma given_job recs i clients store now timeout world out store1 world1 c' store' world' :
  loop_inv recs clients store world -> failed store = false ->
  ready_for_job (clients !!! i) store now timeout = true ->
  faultline_store_assign os store (cl_worker_id (clients !!! i)) now world =
    (FAULTLINE_STORE_OK, out, store1, world1) ->
  queue_message os net (clients !!! i) store1 (default (MsgOther 0) out)
    (log_job net "job_assigned" (found_job store1 (assigned_job_id (default (MsgOther 0) out))) store1 0 world1) =
    (c', store', world') ->
  loop_inv recs (<[i := c']> clients) store' world' /\
  (none_ready i timeout clients store world -> none_ready (S i) timeout (<[i := c']> clients) store' world').
Proof.
  intros Hinv Hnf Hr Ha Hq. apply ready_spec in Hr as (Hfd & Hlive & _). pose proof (lookup_open clients i Hfd) as Hc.
  pose proof (li_sound _ _ _ _ _ _ Hinv) as Hs.
  assert (good_conn (clients !!! i) store) as Hg.
  { destruct (li_conn _ _ _ _ _ _ Hinv i _ Hc Hfd) as [Hf|Hg]; [|done]. apply failed_spec in Hf. congruence. }
  assert (cl_worker_id (clients !!! i) <> 0) as Hz by (by destruct (live_at_fd _ _ _ (sound_registry _ _ _ _ Hs) Hlive)).
  destruct (assign_post os net recs _ store now world out store1 world1 _ c' store' world' Hs
    (li_live _ _ _ _ _ _ Hinv i _ Hc) Hg Hfd Hz Ha (calm_log_job os net _ _ _ _ _) Hq) as [H Hp].
  split; [by eapply loop_inv_step|]. intros Hnone.
  assert (sound recs store1 world1) as Hs1.
  { apply (assign_step os net recs) in Ha as [Hstep _]; [apply Hstep|done]. }
  apply (queue_keeps recs) in Hq as [Hk2 Hc'];
    [|eapply sound_calm; [exact Hs1|apply (calm_log_job os net)]].
  apply (none_ready_given recs i timeout clients store world); try done.
  - etrans; [by eapply assign_keeps|done].
  - apply (sound_registry _ _ _ _ (hd_sound _ _ _ _ _ _ _ _ _ H)).
  - apply (others_clock _ _ _ (hd_others _ _ _ _ _ _ _ _ _ H)).
Qed.

Lemma schedule_leaves recs fuel i clients store timeout world clients' store' world' :
  loop_inv recs clients store world -> none_ready i timeout clients store world ->
  schedule_loop os net fuel i clients store timeout world = (true, clients', store', world') ->
  stopped (view_of world') = true \/ queue_count (pending (jobs store')) = 0%nat \/
  none_ready (i + fuel) timeout clients' store' world'.
Proof.
  revert i clients store world. induction fuel as [|fuel IH]; intros i clients store world Hinv Hnone;
    cbn [schedule_loop].
  { intros [= _ <- <- <-]. rewrite Nat.add_0_r. auto. }
  destruct (Nat.eqb_spec (queue_count (pending (jobs store))) 0); [intros [= _ <- <- <-]; auto|].
  destruct (os_stopping net world) as [stopping w1] eqn:Es.
  pose proof (law_stopping net _ _ _ Es) as [Hq1 Hstop]. apply (calm_stopping os net) in Es.
  pose proof (loop_inv_calm os net _ _ _ _ _ Hinv Es) as Hinv1.
  destruct (Z.eqb_spec stopping 0) as [->|Hs]; cbn [negb orb].
  2:{ intros [= _ <- <- <-]. left. by apply Hstop. }
  destruct (failed store) eqn:Hnf; [done|].
  destruct (faultline_monotonic_ms net w1) as [now w2] eqn:Em.
  destruct (Z.ltb_spec now 0) as [|Hnow]; [done|]. pose proof (clock_read net _ _ _ Em Hnow) as Hclock.
  apply (calm_monotonic os net) in Em. pose proof (loop_inv_calm os net _ _ _ _ _ Hinv1 Em) as Hinv2.
  assert (none_ready i timeout clients store w2) as Hnone2.
  { eapply none_ready_later; [|exact Hnone]. pose proof (same_clock _ _ Hq1). lia. }
  destruct (ready_for_job (clients !!! i) store now timeout) eqn:Er; cbn [negb].
  - destruct (faultline_store_assign os store _ now w2) as [[[res out] s3] w3] eqn:Ea.
    destruct res; [|done..]. destruct (queue_message os net _ s3 _ _) as [[c' s4] w4] eqn:Eq.
    destruct (given_job recs i clients store now timeout w2 out s3 w3 c' s4 w4 Hinv2 Hnf Er Ea Eq) as [Hi Hn].
    intros E. rewrite <- Nat.add_succ_comm. apply (IH (S i)) in E; [done|done|by apply Hn].
  - intros E. rewrite <- Nat.add_succ_comm. apply (IH (S i)) in E; [done|done|].
    apply (none_ready_step _ _ _ _ _ now); [lia|done|done].
Qed.

Lemma schedule_jobs_leaves recs clients store timeout world clients' store' world' :
  loop_inv recs clients store world ->
  schedule_jobs os net clients store timeout world = (true, clients', store', world') ->
  stopped (view_of world') = true \/ queue_count (pending (jobs store')) = 0%nat \/
  none_ready MAX_CLIENTS timeout clients' store' world'.
Proof.
  intros Hinv. unfold schedule_jobs. apply (schedule_leaves recs MAX_CLIENTS 0); [done|].
  intros k now Hk. destruct (Nat.nlt_0_r _ Hk).
Qed.

(** C7: a pass of the scheduler leaves no work behind: when it ends without an error, every job that is still
    pending waits for want of a worker, that is, no connection at all is ready for a job at that
    time or later without a change, unless the coordinator has been told to stop. *)
Theorem scheduling_work_conserving recs clients store timeout world clients' store' world' :
  loop_inv recs clients store world ->
  schedule_jobs os net clients store timeout world = (true, clients', store', world') ->
  stopped (view_of world') = true \/ queue_count (pending (jobs store')) = 0%nat \/
  forall i c now, clients' !! i = Some c -> clock (view_of world') <= now ->
    ready_for_job c store' now timeout = false.
Proof.
  intros Hinv E. pose proof (schedule_jobs_inv os net _ _ _ _ _ _ _ _ _ Hinv E) as Hinv'.
  destruct (schedule_jobs_leaves recs _ _ _ _ _ _ _ Hinv E) as [|[|H]]; [by left|by right; left|right; right].
  intros i c now Hc Hnow. rewrite <- (list_lookup_total_correct _ _ _ Hc). apply H; [|done].
  rewrite <- (li_length _ _ _ _ _ _ Hinv'). by eapply lookup_lt_Some.
Qed.

(** C8: silent workers are noticed in time: whatever the registry and the time, the wait of the event loop
    never goes past the deadline of a live worker nor beyond a second, and is less than a second only for
    such a deadline; and when a connection is served whose worker has been silent for the timeout, it is
    closed, the worker is dead, and the worker holds no job afterwards unless the store has failed. *)
Theorem silent_workers_expire recs clients store timeout world :
  loop_inv recs clients store world -> 0 < timeout ->
  (forall registry now, let t := heartbeat_poll_timeout registry now timeout in
     0 <= t <= 1000 /\
     (forall v, v ∈ workers registry -> alive v -> t <= Z.max 0 (w_last_heartbeat_ms v + timeout - now)) /\
     (t < 1000 -> exists v, v ∈ workers registry /\ alive v /\
        t = Z.max 0 (w_last_heartbeat_ms v + timeout - now))) /\
  (forall i c w now events session c' store' world', clients !! i = Some c ->
     faultline_worker_find (store_workers store) (cl_worker_id c) = Some w ->
     w_last_heartbeat_ms w + timeout <= now ->
     serve_client os net c events store now timeout session world = (c', store', world') ->
     cl_fd c' = -1 /\ live_at (store_workers store') (cl_worker_id c) = None /\
     (store_failed store' \/ ~ busy (jobs store') (cl_worker_id c))).
Proof.
  intros Hinv Ht. split; [intros; by apply poll_timeout_loop_spec|].
  intros i c w now events session c' store' world' Hc Hw Hover E.
  pose proof (li_sound _ _ _ _ _ _ Hinv) as Hs. pose proof (li_live _ _ _ _ _ _ Hinv i c Hc) as Hl.
  destruct (worker_find_some _ _ _ (sound_registry _ _ _ _ Hs) Hw) as (Hin & Hu & Hid & Hz).
  assert (faultline_worker_timed_out (Some w) now timeout = true) as Hto.
  { specialize (Hl Hz). unfold live_at in Hl. rewrite Hw in Hl. case_bool_decide as Ha; [|done].
    destruct (reg_ids _ (sound_registry _ _ _ _ Hs) w Hin Hu) as (_ & _ & ?).
    unfold faultline_worker_timed_out. rewrite bool_decide_eq_true_2 by done. lia. }
  unfold serve_client in E. rewrite Hw, Hto in E.
  match type of E with close_client _ _ _ _ _ ?w1 = _ =>
    assert (Machine.calm os net world w1) as Hcalm by apply (calm_client_log os net); generalize dependent w1 end.
  intros w1 E Hcalm. apply (close_spec os net recs) in E as (H & Hfd & Hwid & _);
    [|eapply sound_calm; [exact Hs|apply Hcalm]|done].
  split; [done|]. destruct (hd_old _ _ _ _ _ _ _ _ _ H Hz) as [|(_ & _ & Hdead)]; [congruence|].
  split; [done|]. destruct (hd_busy _ _ _ _ _ _ _ _ _ H) as [|Hb]; [by left|right].
  intros Hbusy. destruct (Hb _ Hbusy) as [_ Hsame]. specialize (Hsame eq_refl). congruence.
Qed.

End SchedulingProofs.

(** ** A recovered coordinator and one worker that registers and then is silent *)

Definition crew_world : sim * sim_net :=
  (fst booted_world, mk_sim_net 100 0 [] [] ∅ ∅ [[frame_of (MsgWorkerRegister 0); []; []]] [] []).

Definition crew (rounds : nat) : option bool * list client * faultline_coordinator_store * (sim * sim_net) :=
  run_rounds machine_os machine_net rounds 99 5000 booted_session (replicate MAX_CLIENTS no_client)
    booted_store crew_world.

Definition crew_clients (rounds : nat) : list client := snd (fst (fst (crew rounds))).
Definition crew_store (rounds : nat) : faultline_coordinator_store := snd (fst (crew rounds)).
Definition crew_after (rounds : nat) : sim * sim_net := snd (crew rounds).

Lemma same_disk_pair (disk : sim) (network network' : sim_net) :
  same_disk machine_os (disk, network) (disk, network').
Proof. by split. Qed.

Lemma crew_started : started machine_os assigned_log booted_store crew_world.
Proof.
  unfold crew_world. eapply (started_calm machine_os _ _ (fst booted_world, snd booted_world));
    [|apply same_disk_pair]. rewrite <- surjective_pairing. exact booted_started.
Qed.

Lemma crew_inv rounds :
  loop_inv machine_os machine_net assigned_log (crew_clients rounds) (crew_store rounds) (crew_after rounds).
Proof.
  unfold crew_clients, crew_store, crew_after. destruct (crew rounds) as [[[e clients] store] world] eqn:E.
  cbn [fst snd]. refine (rounds_inv machine_os machine_net _ _ _ _ _ _ _ _ _ _ _ _ _ booted_typed E).
  apply start_loop, crew_started.
Qed.

Lemma pass_result :
  fst (fst (fst (schedule_jobs machine_os machine_net (crew_clients 2) (crew_store 2) 5000 (crew_after 2)))) = true.
Proof. vm_compute. reflexivity. Qed.

(** The job waits, since the worker has not been sent its registration yet. *)
Lemma scheduling_work_conserving_witness :
  let '(_, clients, store, world) :=
    schedule_jobs machine_os machine_net (crew_clients 2) (crew_store 2) 5000 (crew_after 2) in
  stopped (net_state machine_net world) = true \/ queue_count (pending (jobs store)) = 0%nat \/
  forall i c now, clients !! i = Some c -> clock (net_state machine_net world) <= now ->
    ready_for_job c store now 5000 = false.
Proof.
  pose proof pass_result as Hr. pose proof (crew_inv 2) as Hinv.
  generalize dependent (crew_clients 2). generalize dependent (crew_store 2). generalize dependent (crew_after 2).
  intros world store clients Hr Hinv.
  pose proof (scheduling_work_conserving machine_os machine_net assigned_log clients store 5000 world) as H.
  destruct (schedule_jobs machine_os machine_net clients store 5000 world) as [[[ok clients'] store'] world'].
  cbn [fst] in Hr. subst ok. exact (H clients' store' world' Hinv eq_refl).
Defined.

(** After four rounds the worker has the job; its heartbeat is overdue at 6000. *)
Lemma crew_member :
  exists c w, crew_clients 4 !! 0%nat = Some c /\ cl_worker_id c = 2 /\
    faultline_worker_find (store_workers (crew_store 4)) (cl_worker_id c) = Some w /\
    w_last_heartbeat_ms w + 5000 <= 6000.
Proof. eexists _, _. split; [vm_compute; reflexivity|]. split; [reflexivity|]. split; [vm_compute; reflexivity|by vm_compute]. Qed.

Lemma silent_workers_expire_witness :
  exists c store', cl_worker_id c = 2 /\ live_at (store_workers store') 2 = None /\
    (store_failed store' \/ ~ busy (jobs store') 2).
Proof.
  destruct crew_member as (c & w & Hc & Hid & Hw & Hover). pose proof (crew_inv 4) as Hinv.
  generalize dependent (crew_clients 4). generalize dependent (crew_store 4). generalize dependent (crew_after 4).
  intros world store Hw clients Hc Hinv.
  destruct (serve_client machine_os machine_net c 0 store 6000 5000 booted_session world) as [[c' store'] world'] eqn:E.
  destruct (silent_workers_expire machine_os machine_net assigned_log clients store 5000 world Hinv ltac:(lia))
    as [_ Hserve].
  destruct (Hserve 0%nat c w 6000 0 booted_session c' store' world' Hc Hw Hover E) as (_ & Hdead & Hfree).
  rewrite Hid in Hdead, Hfree. exists c, store'. split; [exact Hid|]. split; [exact Hdead|exact Hfree].
Defined.
